(* ===== verification/_CoqProject ===== *)
-Q . S2P
Prelude.v
Crc32c.v
OplogRing.v
RingConcurrency.v
Json.v
Strings.v
Durations.v
Times.v
Records.v
Oplog.v
Backend.v
Sidecar.v
SidecarSteps.v
SidecarMain.v
SidecarProcess.v
Messages.v
Lease.v
Engine.v
Hook.v
Writers.v
ControlRpc.v
Dmap.v
Maintenance.v
EndToEnd.v
StringKV.v
Embedded.v
Routing.v
Session.v
Cache.v
Client.v
Node.v
Pod.v
PodExit.v
Cluster.v
EpochStore.v
Topology.v
Watchdog.v
Primary.v
Workloads.v
Controllers.v
Operator.v
Rendered.v
