(* ===== verification/Prelude.v ===== *)
(** * OlricStack: a verification of the data plane and the control plane

    OlricStack runs an in-memory key/value database (a fork of Olric) as a
    Kubernetes application and makes its writes durable.  The program has these
    parts:

    - a _node_ ([cmd/olric-node]) holds partitions of the data and speaks the
      Redis protocol ([internal/stringkv]).  Every write of a partition owner
      ([third_party/olric/internal/dmap]) goes through a _durable hook_ that
      stamps it with a fence (generation, epoch, sequence, writer), and appends
      it to a ring in shared memory ([internal/ring], [internal/oplog]);
    - a _sidecar_ ([cmd/olric-sidecar], [internal/sidecar]) in the same pod pops
      the ring, keeps what it popped as pending, flushes it to MySQL under a
      last-writer-wins comparison of fences, and answers the node's reads of
      missing keys over a control RPC;
    - a _watchdog_ ([cmd/watchdog], [internal/watchdog], [internal/topology])
      tracks the nodes of a stack, numbers the membership views by an epoch it
      stores in a ConfigMap before it announces it, and grants the nodes leases;
      the node keeps them in its [LeaseTracker] ([internal/node]);
    - the _operator_ ([cmd/operator], [internal/operator]) and the watchdog's
      controller keep the Kubernetes objects of a stack as its custom resource
      asks ([internal/workloads]);
    - a command line client for tests ([cmd/olric-e2e-client]).

    ** Conventions

    A method of a Go object is a function on its state in the monad [M S E]
    below: the state is returned on every path, errors are values, a panic is an
    outcome of its own.  Machine integers are [Z] with their wrap-around written
    out, Go strings are [string], byte slices are [list byte], times are
    nanoseconds since the Unix epoch.  What the code gets from outside (clocks,
    answers of the database, the API server or other members, the iteration
    order of a map, what other goroutines do while a lock is not held) is an
    argument or, where the code relies on documented behaviour, a class with
    that behaviour as laws and an instance that satisfies them.

    ** Files

    Data plane:
    - [Prelude]: the monad, integers, bytes, lists, tactics and hint databases.
    - [Crc32c], [OplogRing], [RingConcurrency]: [internal/ring/ring.go] on the
      bytes of the mapped file, one operation at a time and one memory access at
      a time; the ring refines a FIFO queue.
    - [Json], [Strings], [Durations], [Times]: what the code uses of
      encoding/json, strconv, strings, and time.
    - [Records], [Oplog]: [internal/store], [internal/oplog]; round trips.
    - [Backend]: [internal/sidecar/backend_mysql.go] and [ttl.go].
    - [Sidecar], [SidecarSteps]: [internal/sidecar/control.go] as a sequential
      server and as an interleaving of atomic steps.
    - [SidecarMain], [SidecarProcess]: [cmd/olric-sidecar/main.go], its boot, and
      the process from its boot to its exit with the [Run] loop.
    - [Messages], [Lease]: [api/topology/v1], [internal/node/subscriber.go].
    - [Engine]: [internal/olricstore].
    - [Hook], [Writers]: [internal/stringkv/durable_hook.go] and [sequencer.go],
      one call at a time, and concurrent writers beside the sidecar.
    - [ControlRpc]: the control RPC of [internal/sidecar], both ends, and the
      socket ([transport.go]).
    - [Dmap]: the owner's put, expire, delete, get and move in the fork.
    - [Maintenance]: the fork's background work on fragments: eviction, the
      janitor, compaction.
    - [EndToEnd]: a write through all of the above and back.
    - [StringKV]: [internal/stringkv] ([service.go], [olric_adapter.go],
      [resp_server.go]).
    - [Embedded]: the fork's embedded client ([embedded_client.go]), on a pod
      that is a node and its sidecar on one ring.
    - [Routing]: deletes of keys of several members ([deleteKeys]).
    - [Session]: what the RESP server promises its clients, as a map with
      expiries, and the interface [KVStore] it needs of a store for that.
    - [Cache]: a pod is such a store: memory is a cache of what the ring, the
      pending set and the database hold.
    - [Client]: [cmd/olric-e2e-client/main.go], against a pod.
    - [Node]: the functions of [cmd/olric-node/main.go].
    - [Pod], [PodExit]: its [main] on the volume it shares with the sidecar, from
      the boot of both to the signal that ends them.

    Control plane:
    - [Cluster], [EpochStore]: [internal/watchdog/state.go], [epoch_store.go].
    - [Topology]: [internal/topology/service.go], [internal/watchdog/health.go].
    - [Watchdog], [Primary]: [cmd/watchdog/main.go], its functions, and the life
      of a primary with the callbacks of the leader election.
    - [Workloads], [Controllers]: [internal/workloads], [internal/operator],
      [internal/watchdog/controller.go].
    - [Operator]: [cmd/operator/main.go].
    - [Rendered]: the environments the workloads render, read by the processes.

    ** What is shown

    - Durability: a write is acknowledged only with a record in the ring
      ([Dmap.set_is_durable], [delete_is_durable], [expire_is_durable]); the
      ring delivers every record once and in order, whatever the interleaving of
      the memory accesses of its two ends ([RingConcurrency.concurrent_ring_is_fifo],
      [ring_is_race_free]); under any interleaving with flushes, drains, purges
      and database failures an acknowledged entry is in the ring, pending or
      stored, as long as one goroutine drains and no purge asked for it
      ([SidecarSteps.acked_never_lost]); what that assumes of the order of the
      entries holds for any number of concurrent writers within one epoch
      ([Writers.concurrent_writes_never_lost]).
    - Starting and stopping: a node opens the finished ring
      ([Pod.node_opens_complete_ring]); a restart of the sidecar keeps the ring
      ([SidecarMain.restart_keeps_ring]); a signalled sidecar stores everything
      acknowledged ([SidecarProcess.signal_persists_acknowledged]); the end of a
      node leaves the ring whole ([PodExit.exit_keeps_ring]); a primary that
      returns or loses its leadership stands down
      ([Primary.primary_always_stands_down], [lost_leadership_stands_down]).
    - Reading back: what was set is read back exactly, by the same pod through
      the pending set and by other pods through the database
      ([EndToEnd.set_is_readable_through_sidecar], [set_reaches_other_pods]); the
      control RPC is transparent ([ControlRpc.rpc_is_transparent]).
    - The whole pod: to a client a pod is a string map with expiries, through
      drains, flushes, database failures, eviction, lease renewals and restarts
      of the node ([Cache.pod_is_a_string_map]); it is the [KVStore] the RESP
      server is proved against ([Session.handle_run]).  A drained pod with a live
      lease accepts writes ([Cache.settled_pod_accepts_sets]), eviction forgets
      only what has expired ([Maintenance.eviction_forgets_expired]), which is
      the loss of memory that [pod_is_a_string_map] allows, and the end-to-end
      client reports the truth about that map ([Client.client_tells_the_truth]).
    - Conflicts: the stored row is the one with the greatest fence, whatever the
      order ([Backend.upsert_last_writer_wins], [upsert_order_irrelevant]); one
      process never stamps a fence twice ([Hook.stamps_strictly_increase]).
    - Leases and leadership: a node serves only under a live lease of a primary
      and its fence never goes back ([Node.lease_survives_reconnects]); announced
      epochs are durable ([Topology.envelopes_are_durable]); generations are
      unique among replicas ([EpochStore.generations_are_unique]); a primary that
      loses its epoch store gives up before its leases end
      ([Watchdog.degraded_primary_gives_up]).
    - Membership ([Cluster]), the protocol front end ([StringKV]), convergence and
      non-interference of the two controllers ([Controllers]), and the agreement
      of the deployed settings with what the rest assumes ([Rendered]).
    - Limits of the code, as theorems of their own: for example
      [OplogRing.drained_ring_stuck], [Backend.left_to_right_upsert_tears_rows],
      [SidecarSteps.drop_loses_newer_epoch], [two_drainers_lose_a_write],
      [SidecarMain.restart_forgets_pending],
      [SidecarProcess.signal_during_flush_loses], [final_drain_stops_at_cap],
      [Pod.interrupted_create_blocks_boot], [unlogged_write_stops_node],
      [PodExit.exit_interrupts_handlers], [late_write_is_lost],
      [Node.new_generation_erases_old_data],
      [Dmap.failed_quorum_leaves_unlogged_write], [refill_undoes_delete],
      [Cache.deleted_key_comes_back],
      [Embedded.expire_of_missing_key_is_an_error],
      [Maintenance.janitor_orphans_a_write], [compaction_never_ends],
      [Routing.delete_misses_a_member].

    ** Fuel and bounds

    - [OplogRing.Pop] loops at most twice on a well-formed ring (an entry after
      a skip marker): two units of fuel suffice, by [Pop_run].
    - [Json.parse_value] consumes a byte per call; the length of the input is
      its fuel.  [Json.digits] has 20 units, enough for 64 bits.
    - [Sidecar.finalDrain]: one unit per batch of the ring and one to see it
      empty, by [finalDrain_run]; more fuel does not change a result
      ([SidecarProcess.finalDrain_mono]).
    - The drain loop of the sidecar runs [BatchSize] times at most.
    - [Maintenance.scanFragmentForEviction] needs one unit of fuel, by
      [eviction_forgets_expired]; no fuel is enough for
      [callCompactionOnFragment] ([compaction_never_ends]).
    - [Routing.deleteKeys] uses a unit per member a command passes through; two
      are enough when the routing tables agree ([delete_of_one_key_reaches_owner]).
    - Retry loops of the code are folds over the list of their turns.
    - Sequence numbers are assumed to stay below [2^63 - 1] and ring cursors are
      kept modulo [2^64], which the capacity must divide.

    ** Not modelled

    - Memory ordering of the ring's cursors: they are sequentially consistent
      atomics in the code, and [RingConcurrency] interleaves accesses in that
      model.
    - gRPC, client-go, controller-runtime, gorm and MySQL, redcon, msgpack,
      looplab/fsm: parameters.  gRPC health and leader election only appear as
      their effects.
    - The rest of the Olric fork: clustering, the redirection of puts and gets to
      other members (its wire protocol prints durations as floating point
      numbers), LRU eviction, read repair, pub/sub, locks.
    - Two keys with the same 64-bit hash: the fork keeps one entry per hash, and
      [Cache] assumes that no two keys in use collide.
    - Commands of several clients at once on one pod: [Cache] runs one command
      at a time; concurrent writers are in [Writers], and [Dmap] has what other
      goroutines do between the steps of a command as arguments.
    - Log lines.
    - Whether another container of the Pod is still running is not known to
      either process: [PodExit] has the order of the two exits as an assumption
      of its theorem.
    - Generated code (protobuf, deep copies). *)

From Stdlib Require Export ZArith Znumtheory Strings.Byte.
From stdpp Require Export prelude gmap strings sorting.
#[export] Set Default Goal Selector "!".
#[global] Open Scope Z_scope.

(** ** Outcomes and the state/error monad

    A Go function that can fail returns an error value or panics; a Go method
    also updates its receiver.  [outcome E A] is what such a function hands
    back and [M S E A] is a method on a receiver of type [S]: the state is
    returned on every path, because Go does not roll back what a failing
    method has already written. *)

Inductive outcome (E A : Type) : Type :=
| Done (a : A)
| Fail (e : E)
| Panic.
Arguments Done {E A} a.
Arguments Fail {E A} e.
Arguments Panic {E A}.

Definition M (S E A : Type) : Type := S → outcome E A * S.

#[export] Instance M_ret (S E : Type) : MRet (M S E) := λ A a s, (Done a, s).
#[export] Instance M_bind (S E : Type) : MBind (M S E) := λ A B f m s,
  match m s with
  | (Done a, s') => f a s'
  | (Fail e, s') => (Fail e, s')
  | (Panic, s') => (Panic, s')
  end.

Definition fail {S E A} (e : E) : M S E A := λ s, (Fail e, s).
Definition panic {S E A} : M S E A := λ s, (Panic, s).
Definition gets {S E A} (f : S → A) : M S E A := λ s, (Done (f s), s).
Definition modify {S E} (f : S → S) : M S E () := λ s, (Done tt, f s).

(** [zoom get set m] runs a method of a field of the receiver. *)
Definition zoom {S T E A} (get : S → T) (set : T → S → S) (m : M T E A) : M S E A := λ s,
  let '(o, t) := m (get s) in (o, set t s).

(** [wrap_err f m] is Go's [fmt.Errorf] with [%w]: the error of [m] is mapped. *)
Definition wrap_err {S E F A} (f : E → F) (m : M S E A) : M S F A := λ s,
  match m s with
  | (Done a, s') => (Done a, s')
  | (Fail e, s') => (Fail (f e), s')
  | (Panic, s') => (Panic, s')
  end.

(** ** Machine integers *)

Definition u32 (z : Z) : Z := z mod 2 ^ 32.
Definition u64 (z : Z) : Z := z mod 2 ^ 64.
Definition i64 (z : Z) : Z := (z + 2 ^ 63) mod 2 ^ 64 - 2 ^ 63.
Definition i32 (z : Z) : Z := (z + 2 ^ 31) mod 2 ^ 32 - 2 ^ 31.
Definition maxInt64 : Z := 2 ^ 63 - 1.
Definition minInt64 : Z := - 2 ^ 63.

(** ** Bytes, byte strings and slices *)

#[export] Instance byte_eq_decision : EqDecision byte := Byte.byte_eq_dec.

Definition byte_of_Z (z : Z) : byte := default x00 (Byte.of_N (Z.to_N (z mod 256))).
Definition Z_of_byte (b : byte) : Z := Z.of_N (Byte.to_N b).

(** [binary.LittleEndian.PutUintN] / [UintN] and their big-endian versions. *)
Fixpoint le_bytes (n : nat) (z : Z) : list byte :=
  match n with
  | O => []
  | S n => byte_of_Z z :: le_bytes n (z / 256)
  end.
Fixpoint le_val (l : list byte) : Z :=
  match l with
  | [] => 0
  | b :: l => Z_of_byte b + 256 * le_val l
  end.
Definition be_bytes (n : nat) (z : Z) : list byte := reverse (le_bytes n z).
Definition be_val (l : list byte) : Z := le_val (reverse l).

(** [len(s)] as an [int]. *)
Definition zlen {A} (l : list A) : Z := Z.of_nat (length l).

(** The bytes [l[off : off+n]] of a slice and the slice after [copy] wrote
    [bs] at [off]; both are total, the bounds checks are written out where
    the code can panic. *)
Definition slice {A} (off n : Z) (l : list A) : list A :=
  take (Z.to_nat n) (drop (Z.to_nat off) l).
Definition splice {A} (off : Z) (bs l : list A) : list A :=
  take (Z.to_nat off) l ++ bs ++ drop (Z.to_nat off + length bs) l.

(** [l[a:b]] is legal. *)
Definition in_bounds {A} (a b : Z) (l : list A) : bool :=
  (0 <=? a) && (a <=? b) && (b <=? zlen l).

(** Go strings are byte sequences; [string] of the Standard Library is a
    sequence of 8-bit characters, so the conversions are exact. *)
Definition bytes_of_string (s : string) : list byte := String.list_byte_of_string s.
Definition string_of_bytes (l : list byte) : string := String.string_of_list_byte l.
Definition slen (s : string) : Z := Z.of_nat (String.length s).

(** [a < b] on Go strings. *)
Definition string_ltb (a b : string) : bool := String.ltb a b.

(** ** Tactics and hint databases *)

Create HintDb olric discriminated.
#[global] Hint Constants Opaque : olric.
Create Rewrite HintDb olric_len.

(** Case analysis on the boolean test or option a goal or hypothesis scrutinises. *)
Ltac dcase :=
  match goal with
  | H : context [if ?b then _ else _] |- _ => destruct b eqn:?
  | |- context [if ?b then _ else _] => destruct b eqn:?
  end.
Ltac dmatch :=
  match goal with
  | H : context [match ?b with _ => _ end] |- _ => destruct b eqn:?
  | |- context [match ?b with _ => _ end] => destruct b eqn:?
  end.

(** Turns boolean comparisons in the context into propositions. *)
Ltac bools :=
  repeat match goal with
  | H : negb _ = true |- _ => apply negb_true_iff in H
  | H : negb _ = false |- _ => apply negb_false_iff in H
  | H : (_ && _) = true |- _ => apply andb_true_iff in H as [??]
  | H : (_ || _) = false |- _ => apply orb_false_iff in H as [??]
  | H : (_ <=? _) = true |- _ => apply Z.leb_le in H
  | H : (_ <=? _) = false |- _ => apply Z.leb_gt in H
  | H : (_ <? _) = true |- _ => apply Z.ltb_lt in H
  | H : (_ <? _) = false |- _ => apply Z.ltb_ge in H
  | H : (_ =? _) = true |- _ => apply Z.eqb_eq in H
  | H : (_ =? _) = false |- _ => apply Z.eqb_neq in H
  | H : bool_decide _ = true |- _ => apply bool_decide_eq_true in H
  | H : bool_decide _ = false |- _ => apply bool_decide_eq_false in H
  end.

(** ** Pairs *)

Lemma pair_of_fst {A B} (p : A * B) a : p.1 = a → p = (a, p.2).
Proof. by intros <-; destruct p. Qed.

(** ** Lemmas on the monad *)

Lemma bind_done {S E A B} (m : M S E A) (k : A → M S E B) s a s' :
  m s = (Done a, s') → (m ≫= k) s = k a s'.
Proof. intros H. unfold mbind, M_bind. by rewrite H. Qed.

Lemma bind_fail {S E A B} (m : M S E A) (k : A → M S E B) s e s' :
  m s = (Fail e, s') → (m ≫= k) s = (Fail e, s').
Proof. intros H. unfold mbind, M_bind. by rewrite H. Qed.

(** Inversion of a successful bind. *)
Lemma bind_done_inv {S E A B} (m : M S E A) (k : A → M S E B) s b s'' :
  (m ≫= k) s = (Done b, s'') → ∃ a s', m s = (Done a, s') ∧ k a s' = (Done b, s'').
Proof.
  unfold mbind, M_bind. destruct (m s) as [[a|e|] s'] eqn:?; intros; simplify_eq. eauto.
Qed.

(** ** Lemmas on machine integers *)

Lemma u64_small z : 0 ≤ z < 2 ^ 64 → u64 z = z.
Proof. apply Z.mod_small. Qed.

Lemma u32_small z : 0 ≤ z < 2 ^ 32 → u32 z = z.
Proof. apply Z.mod_small. Qed.

Lemma u64_range z : 0 ≤ u64 z < 2 ^ 64.
Proof. apply Z.mod_pos_bound. lia. Qed.

Lemma u32_range z : 0 ≤ u32 z < 2 ^ 32.
Proof. apply Z.mod_pos_bound. lia. Qed.

Lemma u64_idemp z : u64 (u64 z) = u64 z.
Proof. unfold u64. apply Z.mod_mod. lia. Qed.

Lemma u64_add_l a b : u64 (u64 a + b) = u64 (a + b).
Proof. unfold u64. by rewrite Zplus_mod_idemp_l. Qed.

Lemma u64_add_r a b : u64 (a + u64 b) = u64 (a + b).
Proof. unfold u64. by rewrite Zplus_mod_idemp_r. Qed.

Lemma u64_sub a b : u64 (u64 a - u64 b) = u64 (a - b).
Proof. unfold u64. by rewrite <- Zminus_mod. Qed.

Lemma i64_small z : minInt64 ≤ z ≤ maxInt64 → i64 z = z.
Proof. unfold i64, minInt64, maxInt64. intros. rewrite Z.mod_small; lia. Qed.

Lemma i64_range z : minInt64 ≤ i64 z ≤ maxInt64.
Proof.
  unfold i64, minInt64, maxInt64.
  pose proof (Z.mod_pos_bound (z + 2 ^ 63) (2 ^ 64)). lia.
Qed.

Lemma i64_u64 z : i64 (u64 z) = i64 z.
Proof. unfold i64, u64. by rewrite Zplus_mod_idemp_l. Qed.

(** A 64-bit cursor taken modulo a divisor of [2^64] is not disturbed by
    the cursor's own wrap-around. *)
Lemma u64_mod z c : 0 < c → (c | 2 ^ 64) ∨ 0 ≤ z < 2 ^ 64 → u64 z mod c = z mod c.
Proof.
  intros Hc [Hd|Hz]; [|by rewrite u64_small].
  unfold u64. by apply Z.mod_mod_divide.
Qed.

(** Residues: moving inside one period, and two positions of one period. *)
Lemma mod_add_small p c d : 0 < c → 0 ≤ d → p mod c + d < c → (p + d) mod c = p mod c + d.
Proof.
  intros. rewrite <- (Zplus_mod_idemp_l p). apply Z.mod_small.
  pose proof (Z.mod_pos_bound p c). lia.
Qed.

Lemma mod_to_boundary p c : 0 < c → (p + (c - p mod c)) mod c = 0.
Proof.
  intros. pose proof (Z_div_mod_eq_full p c).
  replace (p + (c - p mod c)) with ((p / c + 1) * c) by lia. apply Z_mod_mult.
Qed.

Lemma mod_ne x y c : 0 < y - x < c → x mod c ≠ y mod c.
Proof.
  intros ? He. assert ((y - x) mod c = 0) as Hz.
  { rewrite Zminus_mod, He, Z.sub_diag. apply Z.mod_0_l. lia. }
  rewrite Z.mod_small in Hz; lia.
Qed.

Lemma divide_mod k p c : (k | p) → (k | c) → (k | p mod c).
Proof.
  intros. destruct (decide (c = 0)) as [->|]; [by rewrite Z.mod_0_r|].
  rewrite Z.mod_eq by done. apply Z.divide_sub_r; [done|]. by apply Z.divide_mul_l.
Qed.

(** ** Lemmas on bytes *)

Lemma Z_of_byte_range b : 0 ≤ Z_of_byte b < 256.
Proof. unfold Z_of_byte. pose proof (Byte.to_N_bounded b). lia. Qed.

Lemma Z_of_byte_of_Z z : Z_of_byte (byte_of_Z z) = z mod 256.
Proof.
  unfold Z_of_byte, byte_of_Z.
  pose proof (Z.mod_pos_bound z 256 ltac:(lia)).
  pose proof (Byte.to_of_N_option_map (Z.to_N (z mod 256))) as He.
  destruct (N.leb_spec (Z.to_N (z mod 256)) 255); [|lia].
  destruct (Byte.of_N _); simplify_eq/=. lia.
Qed.

Lemma byte_of_Z_of_byte b : byte_of_Z (Z_of_byte b) = b.
Proof.
  unfold Z_of_byte, byte_of_Z. rewrite Z.mod_small by apply Z_of_byte_range.
  by rewrite N2Z.id, Byte.of_to_N.
Qed.

Lemma byte_of_Z_mod z n : (256 | n) → 0 < n → byte_of_Z (z mod n) = byte_of_Z z.
Proof.
  intros Hd Hn. unfold byte_of_Z. by rewrite Z.mod_mod_divide.
Qed.

Lemma length_le_bytes n z : length (le_bytes n z) = n.
Proof. revert z. induction n; intros; simpl; congruence. Qed.

Lemma length_be_bytes n z : length (be_bytes n z) = n.
Proof. unfold be_bytes. by rewrite length_reverse, length_le_bytes. Qed.

Lemma le_val_le_bytes n z : le_val (le_bytes n z) = z mod 256 ^ Z.of_nat n.
Proof.
  revert z. induction n as [|n IH]; intros z; cbn [le_bytes le_val].
  { by rewrite Z.mod_1_r. }
  rewrite IH, Z_of_byte_of_Z, Nat2Z.inj_succ, Z.pow_succ_r by lia.
  rewrite Z.rem_mul_r by lia. lia.
Qed.

Lemma be_val_be_bytes n z : be_val (be_bytes n z) = z mod 256 ^ Z.of_nat n.
Proof. unfold be_val, be_bytes. by rewrite reverse_involutive, le_val_le_bytes. Qed.

Lemma le_val_range l : 0 ≤ le_val l < 256 ^ Z.of_nat (length l).
Proof.
  induction l as [|b l IH]; cbn [le_val length]; [lia|].
  rewrite Nat2Z.inj_succ, Z.pow_succ_r by lia. pose proof (Z_of_byte_range b). lia.
Qed.

Lemma le_bytes_le_val l : le_bytes (length l) (le_val l) = l.
Proof.
  induction l as [|b l IH]; cbn [length le_val le_bytes]; [done|].
  pose proof (Z_of_byte_range b). f_equal.
  - rewrite <- (byte_of_Z_of_byte b) at 2. unfold byte_of_Z. do 3 f_equal.
    rewrite (Z.mul_comm 256), Z_mod_plus_full. done.
  - rewrite (Z.mul_comm 256), Z_div_plus_full, Z.div_small by lia. exact IH.
Qed.

(** ** Lemmas on slices *)

Section slices.
Context {A : Type}.
Implicit Types l bs : list A.

Lemma length_splice off bs l :
  0 ≤ off → off + zlen bs ≤ zlen l → length (splice off bs l) = length l.
Proof.
  unfold zlen, splice. intros. rewrite !length_app, length_take, length_drop. lia.
Qed.

Lemma zlen_splice off bs l :
  0 ≤ off → off + zlen bs ≤ zlen l → zlen (splice off bs l) = zlen l.
Proof. intros. unfold zlen. by rewrite length_splice. Qed.

Lemma length_slice off n l :
  0 ≤ off → 0 ≤ n → off + n ≤ zlen l → length (slice off n l) = Z.to_nat n.
Proof. unfold zlen, slice. intros. rewrite length_take, length_drop. lia. Qed.

Lemma lookup_splice_out off bs l i :
  0 ≤ off → off + zlen bs ≤ zlen l →
  (Z.of_nat i < off ∨ off + zlen bs ≤ Z.of_nat i) →
  splice off bs l !! i = l !! i.
Proof.
  unfold zlen, splice. intros ?? [?|?].
  - rewrite lookup_app_l by (rewrite length_take; lia). apply lookup_take_lt. lia.
  - rewrite lookup_app_r by (rewrite length_take; lia).
    rewrite lookup_app_r by (rewrite length_take; lia).
    rewrite lookup_drop, length_take. f_equal. lia.
Qed.

Lemma lookup_splice_in off bs l i :
  0 ≤ off → off + zlen bs ≤ zlen l →
  off ≤ Z.of_nat i < off + zlen bs →
  splice off bs l !! i = bs !! (i - Z.to_nat off)%nat.
Proof.
  unfold zlen, splice. intros.
  rewrite lookup_app_r by (rewrite length_take; lia).
  rewrite length_take, lookup_app_l by lia. f_equal. lia.
Qed.

Lemma lookup_slice off n l i :
  0 ≤ off → Z.of_nat i < n → slice off n l !! i = l !! (Z.to_nat off + i)%nat.
Proof.
  unfold slice. intros. rewrite lookup_take_lt by lia. apply lookup_drop.
Qed.

Lemma slice_ext off n l l' :
  0 ≤ off → 0 ≤ n →
  (∀ i, off ≤ Z.of_nat i < off + n → l !! i = l' !! i) →
  slice off n l = slice off n l'.
Proof.
  intros ?? Hl. apply list_eq. intros i.
  destruct (decide (Z.of_nat i < n)).
  - rewrite !lookup_slice by done. apply Hl. lia.
  - unfold slice. rewrite !lookup_take_ge by lia. done.
Qed.

Lemma slice_splice_same off bs l :
  0 ≤ off → off + zlen bs ≤ zlen l → slice off (zlen bs) (splice off bs l) = bs.
Proof.
  unfold zlen, slice, splice. intros.
  rewrite drop_app_length' by (rewrite length_take; lia).
  rewrite take_app_length' by lia. done.
Qed.

Lemma slice_splice_eq off n bs l :
  zlen bs = n → 0 ≤ off → off + n ≤ zlen l → slice off n (splice off bs l) = bs.
Proof. intros <-. apply slice_splice_same. Qed.

Lemma slice_splice_other off bs l o n :
  0 ≤ off → off + zlen bs ≤ zlen l → 0 ≤ o → 0 ≤ n →
  (o + n ≤ off ∨ off + zlen bs ≤ o) →
  slice o n (splice off bs l) = slice o n l.
Proof.
  intros. apply slice_ext; [done..|]. intros. apply lookup_splice_out; lia.
Qed.

Lemma splice_adjacent off (x y : list A) l :
  0 ≤ off → off + zlen x + zlen y ≤ zlen l →
  splice (off + zlen x) y (splice off x l) = splice off (x ++ y) l.
Proof.
  unfold zlen, splice. intros. rewrite Z2Nat.inj_add, Nat2Z.id by lia.
  rewrite !(app_assoc _ x), take_app_length' by (rewrite length_app, length_take; lia).
  rewrite drop_app_ge by (rewrite length_app, length_take; lia).
  rewrite drop_drop, <- !app_assoc. do 4 f_equal.
  rewrite !length_app, length_take. lia.
Qed.

Lemma slice_slice o n o' n' l :
  0 ≤ o → 0 ≤ o' → 0 ≤ n' → o' + n' ≤ n → slice o' n' (slice o n l) = slice (o + o') n' l.
Proof.
  intros. apply list_eq. intros i. destruct (decide (Z.of_nat i < n')).
  - rewrite !lookup_slice by lia. f_equal. lia.
  - unfold slice. rewrite !lookup_take_ge by lia. done.
Qed.

Lemma slice_prefix o n n' l :
  n' ≤ n → slice o n' l = take (Z.to_nat n') (slice o n l).
Proof. intros. unfold slice. rewrite take_take. f_equal. lia. Qed.
End slices.

Lemma zlen_slice {A} off n (l : list A) :
  0 ≤ off → 0 ≤ n → off + n ≤ zlen l → zlen (slice off n l) = n.
Proof. intros. unfold zlen at 1. rewrite length_slice by done. lia. Qed.

Lemma zlen_nonneg {A} (l : list A) : 0 ≤ zlen l.
Proof. unfold zlen. lia. Qed.

Lemma zlen_app {A} (l l' : list A) : zlen (l ++ l') = zlen l + zlen l'.
Proof. unfold zlen. rewrite length_app. lia. Qed.

Lemma zlen_cons {A} (x : A) l : zlen (x :: l) = 1 + zlen l.
Proof. unfold zlen. simpl. lia. Qed.

Lemma zlen_nil {A} : zlen (@nil A) = 0.
Proof. done. Qed.

Lemma zlen_replicate {A} n (x : A) : zlen (replicate n x) = Z.of_nat n.
Proof. unfold zlen. by rewrite length_replicate. Qed.

Lemma zlen_le_bytes n z : zlen (le_bytes n z) = Z.of_nat n.
Proof. unfold zlen. by rewrite length_le_bytes. Qed.

Lemma zlen_be_bytes n z : zlen (be_bytes n z) = Z.of_nat n.
Proof. unfold zlen. by rewrite length_be_bytes. Qed.

#[export] Hint Rewrite @zlen_app @zlen_cons @zlen_nil @zlen_replicate zlen_le_bytes
  zlen_be_bytes : olric_len.

(** Linear arithmetic over the lengths of appended, spliced and cut lists. *)
Ltac zl :=
  first [ lia
        | progress autorewrite with olric_len; zl
        | rewrite zlen_splice by zl; zl
        | rewrite zlen_slice by zl; zl ].

Lemma in_bounds_true {A} a b (l : list A) : 0 ≤ a ≤ b → b ≤ zlen l → in_bounds a b l = true.
Proof. intros. unfold in_bounds. rewrite !(proj2 (Z.leb_le _ _)) by lia. done. Qed.

(** ** Lemmas on strings *)

Lemma string_bytes s : string_of_bytes (bytes_of_string s) = s.
Proof. apply String.string_of_list_byte_of_string. Qed.

Lemma bytes_string l : bytes_of_string (string_of_bytes l) = l.
Proof. apply String.list_byte_of_string_of_list_byte. Qed.

Lemma zlen_bytes_of_string s : zlen (bytes_of_string s) = slen s.
Proof.
  unfold zlen, slen, bytes_of_string. f_equal. induction s as [|c s IH]; [done|].
  unfold String.list_byte_of_string in *. simpl. by rewrite IH.
Qed.
#[export] Hint Rewrite zlen_bytes_of_string : olric_len.

Lemma filter_all {A} (P : A → Prop) `{∀ x, Decision (P x)} l : Forall P l → filter P l = l.
Proof. induction 1; [done|]. by rewrite filter_cons_True by done; f_equal. Qed.
