(* ===== verification/Crc32c.v ===== *)
(** * CRC-32C

    The checksum [crc32.Checksum(payload, crc32.MakeTable(crc32.Castagnoli))]
    of Go's [hash/crc32], which [internal/ring/ring.go] stamps on every ring
    entry.  The table entry of a byte is computed on the fly by [crc_byte];
    nothing else of the development depends on how the checksum is defined. *)

From S2P Require Import Prelude.

Definition castagnoli : Z := 0x82F63B78.

Definition crc_shift (crc : Z) : Z :=
  if Z.testbit crc 0 then Z.lxor (Z.shiftr crc 1) castagnoli else Z.shiftr crc 1.

(** The table entry [tab[i]]: eight shifts of [i]. *)
Definition crc_byte (i : Z) : Z := Nat.iter 8 crc_shift i.

Definition crc_update (crc : Z) (b : byte) : Z :=
  Z.lxor (crc_byte (Z.land (Z.lxor crc (Z_of_byte b)) 0xFF)) (Z.shiftr crc 8).

Definition crc32_checksum (l : list byte) : Z :=
  u32 (Z.lxor (foldl crc_update 0xFFFFFFFF l) 0xFFFFFFFF).

(** The check value of the CRC-32C standard. *)
Example crc32_check_value : crc32_checksum (bytes_of_string "123456789") = 0xE3069283.
Proof. vm_compute. reflexivity. Qed.

Lemma crc32_range l : 0 ≤ crc32_checksum l < 2 ^ 32.
Proof. apply u32_range. Qed.

#[global] Opaque crc32_checksum.
