(* ===== verification/OplogRing.v ===== *)
(** * The shared-memory oplog ring ([internal/ring/ring.go])

    The ring file is one byte list: a 64-byte header (magic, version,
    capacity, head cursor at offset 16, tail cursor at offset 24) followed by
    the data region.  The producer and the consumer map the same file, so both
    operations below are methods on the file; [capacity] is the field both
    mappings read from the header when they open it.

    The abstract specification is a FIFO queue of payloads ([ring_wf] relates
    a file to the queue it holds); the refinement theorems say that [Append]
    enqueues or refuses, that [Pop] dequeues, and that over any run the
    consumer sees exactly the acknowledged payloads, once each, in order. *)

From S2P Require Import Prelude Crc32c.

(** ** Constants and errors *)

Definition magic : Z := 0x4F524E47.
Definition version : Z := 1.
Definition headerSize : Z := 64.
Definition skipMarker : Z := 0xFFFFFFFF.
Definition maxPayload : Z := 0xFFFFFFFE.
Definition minCapacity : Z := 4096.

Inductive ring_err :=
| ErrPayloadTooLarge
| ErrRingFull
| ErrCorruptedLength (head : Z)
| ErrCorruptedBoundary (head : Z)
| ErrCorruptedCrc (head : Z)
| ErrBelowMinimum
| ErrOS
| ErrFileTooSmall
| ErrBadMagic
| ErrBadVersion
| ErrSizeMismatch
| OutOfFuel.  (** not a Go error: the [for] loop of [Pop] did not stop *)

(** What the operating system answers to the calls of [Create] and
    [openMapping]. *)
Record os_answers := { open_ok : bool; truncate_ok : Z → bool; mmap_ok : bool }.

(** ** Access to the mapped bytes *)

Definition ring_file : Type := list byte.
Definition headOff : Z := 16.
Definition tailOff : Z := 24.

Definition LoadUint64 (off : Z) : M (list byte) ring_err Z :=
  gets (λ f, le_val (slice off 8 f)).
Definition StoreUint64 (off v : Z) : M (list byte) ring_err () :=
  modify (splice off (le_bytes 8 v)).

(** [binary.LittleEndian.PutUint32(data[a:a+4], v)] and its reading form;
    slicing out of the mapping panics. *)
Definition PutUint32 (a v : Z) : M (list byte) ring_err () := λ f,
  if in_bounds a (a + 4) f then (Done tt, splice a (le_bytes 4 v) f) else (Panic, f).
Definition Uint32 (a : Z) : M (list byte) ring_err Z := λ f,
  if in_bounds a (a + 4) f then (Done (le_val (slice a 4 f)), f) else (Panic, f).

(** [copy(data[a:a+n], src)] and [copy(dst, data[a:a+n])] with [len(dst) = n]. *)
Definition copy_in (a n : Z) (src : list byte) : M (list byte) ring_err () := λ f,
  if in_bounds a (a + n) f then (Done tt, splice a (take (Z.to_nat n) src) f) else (Panic, f).
Definition copy_out (a n : Z) : M (list byte) ring_err (list byte) := λ f,
  if in_bounds a (a + n) f then (Done (slice a n f), f) else (Panic, f).

(** ** Create and openMapping *)

Definition Create (os : os_answers) (capacity : Z) : outcome ring_err (list byte) :=
  if capacity <? minCapacity then Fail ErrBelowMinimum else
  let capacity := if capacity mod 8 =? 0 then capacity
                  else u64 (capacity + (8 - capacity mod 8)) in
  if negb (open_ok os) then Fail ErrOS else
  let total := i64 (headerSize + i64 capacity) in
  if (total <? 0) || negb (truncate_ok os total) then Fail ErrOS else
  if negb (mmap_ok os) then Fail ErrOS else
  let data := replicate (Z.to_nat total) x00 in
  let data := splice 0 (le_bytes 4 magic) data in
  let data := splice 4 (le_bytes 4 version) data in
  let data := splice 8 (le_bytes 8 capacity) data in
  let data := splice 16 (le_bytes 8 0) data in
  Done (splice 24 (le_bytes 8 0) data).

(** The capacity of the mapping [openMapping] returns. *)
Definition openMapping (os : os_answers) (data : list byte) : outcome ring_err Z :=
  if negb (open_ok os) then Fail ErrOS else
  if zlen data <? headerSize then Fail ErrFileTooSmall else
  if negb (mmap_ok os) then Fail ErrOS else
  let gotMagic := le_val (slice 0 4 data) in
  let gotVersion := le_val (slice 4 4 data) in
  let capacity := le_val (slice 8 8 data) in
  if negb (gotMagic =? magic) then Fail ErrBadMagic else
  if negb (gotVersion =? version) then Fail ErrBadVersion else
  if negb (i64 (headerSize + i64 capacity) =? zlen data) then Fail ErrSizeMismatch else
  Done capacity.

(** ** Producer and consumer *)

Definition alignUp (n : Z) : Z :=
  if n mod 8 =? 0 then n else u64 (n + (8 - n mod 8)).

Definition Append (capacity : Z) (payload : list byte) : M (list byte) ring_err () :=
  let payloadLen := u32 (zlen payload) in
  if maxPayload <? payloadLen then fail ErrPayloadTooLarge else
  let entrySize := alignUp (u64 (8 + payloadLen)) in
  if capacity <? entrySize then fail ErrPayloadTooLarge else
  head ← LoadUint64 headOff;
  tail ← LoadUint64 tailOff;
  let used := u64 (tail - head) in
  let free := u64 (capacity - used) in
  let posInRing := tail mod capacity in
  let spaceToBoundary := u64 (capacity - posInRing) in
  let needSkip := spaceToBoundary <? entrySize in
  let needed := if needSkip then u64 (spaceToBoundary + entrySize) else entrySize in
  if free <? needed then fail ErrRingFull else
  (if needSkip then
     let base := i64 (headerSize + i64 posInRing) in
     PutUint32 base skipMarker;;
     PutUint32 (base + 4) 0
   else mret tt);;
  let tail := if needSkip then u64 (tail + spaceToBoundary) else tail in
  let posInRing := if needSkip then 0 else posInRing in
  let base := i64 (headerSize + i64 posInRing) in
  PutUint32 base payloadLen;;
  let crc := crc32_checksum payload in
  PutUint32 (base + 4) crc;;
  copy_in (base + 8) payloadLen payload;;
  StoreUint64 tailOff (u64 (tail + entrySize)).

Fixpoint Pop (fuel : nat) (capacity : Z) : M (list byte) ring_err (option (list byte)) :=
  match fuel with
  | O => fail OutOfFuel
  | S fuel =>
    tail ← LoadUint64 tailOff;
    head ← LoadUint64 headOff;
    if head =? tail then mret None else
    let posInRing := head mod capacity in
    let base := i64 (headerSize + i64 posInRing) in
    rawLen ← Uint32 base;
    if rawLen =? skipMarker then
      let spaceToBoundary := u64 (capacity - posInRing) in
      StoreUint64 headOff (u64 (head + spaceToBoundary));;
      Pop fuel capacity
    else
    if maxPayload <? rawLen then fail (ErrCorruptedLength head) else
    let payloadLen := rawLen in
    let entrySize := alignUp (u64 (8 + payloadLen)) in
    if u64 (capacity - posInRing) <? entrySize then fail (ErrCorruptedBoundary head) else
    crc ← Uint32 (base + 4);
    payload ← copy_out (base + 8) payloadLen;
    if negb (crc32_checksum payload =? crc) then fail (ErrCorruptedCrc head) else
    StoreUint64 headOff (u64 (head + entrySize));;
    mret (Some payload)
  end.

(** [Producer.Pending] and [Consumer.Pending]. *)
Definition Pending : M (list byte) ring_err Z :=
  tail ← LoadUint64 tailOff;
  head ← LoadUint64 headOff;
  mret (u64 (tail - head)).

(** ** Specification: the queue a ring file holds

    [layout capacity f p p' q]: reading from absolute position [p] to [p'],
    the file holds exactly the payloads [q], each framed as length, checksum
    and bytes without crossing the end of the region, with skip markers where
    the producer jumped to the start. *)

Definition entry_size (payload : list byte) : Z := alignUp (8 + zlen payload).

Definition frame (payload : list byte) : list byte :=
  le_bytes 4 (zlen payload) ++ le_bytes 4 (crc32_checksum payload) ++ payload.

Inductive layout (capacity : Z) (f : list byte) : Z → Z → list (list byte) → Prop :=
| layout_nil p : layout capacity f p p []
| layout_entry p p' payload q :
    zlen payload ≤ maxPayload →
    p mod capacity + entry_size payload ≤ capacity →
    slice (headerSize + p mod capacity) (8 + zlen payload) f = frame payload →
    layout capacity f (p + entry_size payload) p' q →
    layout capacity f p p' (payload :: q)
| layout_skip p p' payload q :
    p mod capacity ≠ 0 →
    slice (headerSize + p mod capacity) 4 f = le_bytes 4 skipMarker →
    layout capacity f (p + (capacity - p mod capacity)) p' (payload :: q) →
    layout capacity f p p' (payload :: q).

(** A 64-bit cursor at absolute position [p] still addresses the right byte. *)
Definition cursor_ok (capacity p : Z) : Prop := (capacity | 2 ^ 64) ∨ p < 2 ^ 64.

(** A capacity [Create] can produce. *)
Definition cap_ok (capacity : Z) : Prop :=
  (8 | capacity) ∧ minCapacity ≤ capacity ∧ headerSize + capacity ≤ maxInt64.

(** [H] and [T] are the absolute (unwrapped) head and tail positions. *)
Record ring_wf (capacity : Z) (f : list byte) (H T : Z) (q : list (list byte)) : Prop := {
  wf_cap : cap_ok capacity;
  wf_len : zlen f = headerSize + capacity;
  wf_head : le_val (slice headOff 8 f) = u64 H;
  wf_tail : le_val (slice tailOff 8 f) = u64 T;
  wf_H8 : (8 | H);
  wf_T8 : (8 | T);
  wf_order : 0 ≤ H ≤ T;
  wf_used : T ≤ H + capacity;
  wf_cursor : cursor_ok capacity T;
  wf_layout : layout capacity f H T q }.

(** Bytes an append at tail position [T] consumes: the entry, and the rest of
    the region when the entry does not fit before the boundary. *)
Definition needed_bytes (capacity T : Z) (payload : list byte) : Z :=
  if capacity - T mod capacity <? entry_size payload
  then capacity - T mod capacity + entry_size payload
  else entry_size payload.

(** The file after a successful append at tail position [T]. *)
Definition appended_file (capacity T : Z) (payload : list byte) (f : list byte) : list byte :=
  let skip := capacity - T mod capacity <? entry_size payload in
  let f1 := if skip then splice (headerSize + T mod capacity)
                           (le_bytes 4 skipMarker ++ le_bytes 4 0) f else f in
  let f2 := splice (headerSize + (if skip then 0 else T mod capacity)) (frame payload) f1 in
  splice tailOff (le_bytes 8 (u64 (T + needed_bytes capacity T payload))) f2.

(** Runs of the producer and the consumer, one operation at a time: the
    acknowledged payloads, the popped payloads and the final file. *)
Inductive ring_op := OpAppend (payload : list byte) | OpPop.

Fixpoint run (capacity : Z) (ops : list ring_op) (f : list byte) :
    option (list (list byte) * list (list byte) * list byte) :=
  match ops with
  | [] => Some ([], [], f)
  | OpAppend payload :: ops =>
    match Append capacity payload f with
    | (Done _, f') =>
      '(acks, pops, f'') ← run capacity ops f'; Some (payload :: acks, pops, f'')
    | (Fail ErrRingFull, f') | (Fail ErrPayloadTooLarge, f') => run capacity ops f'
    | _ => None
    end
  | OpPop :: ops =>
    match Pop 2 capacity f with
    | (Done (Some payload), f') =>
      '(acks, pops, f'') ← run capacity ops f'; Some (acks, payload :: pops, f'')
    | (Done None, f') => run capacity ops f'
    | _ => None
    end
  end.

(** ** Sizes *)

Lemma alignUp_spec n : 0 ≤ n < 2 ^ 63 → n ≤ alignUp n < n + 8 ∧ (8 | alignUp n).
Proof.
  intros. unfold alignUp. destruct (Z.eqb_spec (n mod 8) 0).
  - split; [lia|]. by apply Z.mod_divide.
  - pose proof (Z.mod_pos_bound n 8). rewrite u64_small by lia. split; [lia|].
    pose proof (Z_div_mod_eq_full n 8). exists (n / 8 + 1). lia.
Qed.

Lemma entry_size_spec payload :
  zlen payload ≤ maxPayload →
  8 + zlen payload ≤ entry_size payload < 16 + zlen payload ∧ (8 | entry_size payload).
Proof.
  unfold maxPayload. intros. destruct (alignUp_spec (8 + zlen payload)); unfold zlen in *; [lia|].
  unfold entry_size, zlen. split; [lia|done].
Qed.

Lemma zlen_frame payload : zlen (frame payload) = 8 + zlen payload.
Proof. unfold frame, zlen. rewrite !length_app, !length_le_bytes. lia. Qed.
#[export] Hint Rewrite zlen_frame : olric_len.

Lemma space_ge8 capacity p :
  (8 | capacity) → (8 | p) → 0 < capacity → 8 ≤ capacity - p mod capacity.
Proof.
  intros Hc Hp ?. pose proof (Z.mod_pos_bound p capacity).
  destruct (divide_mod 8 p capacity Hp Hc) as [k Hk]. destruct Hc as [k' ->]. lia.
Qed.

(** ** Layouts *)

Lemma layout_le capacity f p p' q : 0 < capacity → layout capacity f p p' q → p ≤ p'.
Proof.
  intros ?. induction 1 as [|???? Hz ??? IH|??????? IH]; [done|..].
  - pose proof (entry_size_spec _ Hz). pose proof (zlen_nonneg payload). lia.
  - pose proof (Z.mod_pos_bound p capacity). lia.
Qed.

Lemma layout_nonempty capacity f p p' payload q :
  0 < capacity → layout capacity f p p' (payload :: q) → p < p'.
Proof.
  intros ?. inversion 1 as [|???? Hz|]; subst.
  - pose proof (entry_size_spec _ Hz). pose proof (zlen_nonneg payload).
    opose proof (layout_le capacity f _ p' q _ _); [done..|]. lia.
  - pose proof (Z.mod_pos_bound p capacity).
    opose proof (layout_le capacity f _ p' _ _ _); [done..|]. lia.
Qed.

Lemma layout_app capacity f p p' p'' q q' :
  layout capacity f p p' q → layout capacity f p' p'' q' → layout capacity f p p'' (q ++ q').
Proof.
  induction 1; intros; simpl; [done|..].
  - constructor; auto.
  - apply layout_skip; auto.
Qed.

(** A layout only depends on the bytes of the positions it covers. *)
Lemma layout_agree capacity f f' p p' q :
  0 < capacity → (8 | capacity) → (8 | p) →
  (∀ x, p ≤ x < p' → f !! Z.to_nat (headerSize + x mod capacity)
                  = f' !! Z.to_nat (headerSize + x mod capacity)) →
  layout capacity f p p' q → layout capacity f' p p' q.
Proof.
  intros Hc Hc8 Hp8 Hag Hl. revert Hp8 Hag.
  assert (∀ p n d, 0 ≤ n → n ≤ d → d ≤ capacity - p mod capacity → p + d ≤ p' →
    (∀ x, p ≤ x < p' → f !! Z.to_nat (headerSize + x mod capacity)
                    = f' !! Z.to_nat (headerSize + x mod capacity)) →
    slice (headerSize + p mod capacity) n f = slice (headerSize + p mod capacity) n f') as Hs.
  { intros p1 n d ???? Hag. pose proof (Z.mod_pos_bound p1 capacity).
    unfold headerSize in *. apply slice_ext; [lia..|]. intros i Hi.
    specialize (Hag (p1 + (Z.of_nat i - 64 - p1 mod capacity)) ltac:(lia)).
    rewrite mod_add_small in Hag by lia.
    replace (Z.to_nat _) with i in Hag by lia. done. }
  induction Hl as [|p p' payload q Hz Hb Hf Hl IH|p p' payload q Hp Hf Hl IH]; intros.
  - constructor.
  - pose proof (entry_size_spec _ Hz). pose proof (zlen_nonneg payload).
    pose proof (layout_le _ _ _ _ _ Hc Hl).
    constructor; [done..| |].
    + rewrite <- (Hs p _ (entry_size payload)); [done|lia..|done].
    + apply IH; [done|apply Z.divide_add_r; tauto|]. intros. apply Hag. lia.
  - pose proof (space_ge8 _ _ Hc8 Hp8 Hc). pose proof (layout_le _ _ _ _ _ Hc Hl).
    apply layout_skip; [done| |].
    + rewrite <- (Hs p _ (capacity - p mod capacity)); [done|lia..|done].
    + apply IH; [done| |].
      * apply Z.divide_add_r; [done|]. apply Z.divide_sub_r; [done|]. by apply divide_mod.
      * intros. apply Hag. lia.
Qed.

(** ** Running the primitive accesses *)

Lemma PutUint32_run a v f :
  0 ≤ a → a + 4 ≤ zlen f → PutUint32 a v f = (Done tt, splice a (le_bytes 4 v) f).
Proof. intros. unfold PutUint32. by rewrite in_bounds_true by lia. Qed.

Lemma Uint32_run a f :
  0 ≤ a → a + 4 ≤ zlen f → Uint32 a f = (Done (le_val (slice a 4 f)), f).
Proof. intros. unfold Uint32. by rewrite in_bounds_true by lia. Qed.

Lemma copy_in_run a src f :
  0 ≤ a → a + zlen src ≤ zlen f → copy_in a (zlen src) src f = (Done tt, splice a src f).
Proof.
  intros. pose proof (zlen_nonneg src). unfold copy_in. rewrite in_bounds_true by lia.
  unfold zlen. by rewrite Nat2Z.id, firstn_all.
Qed.

Lemma copy_out_run a n f :
  0 ≤ a → 0 ≤ n → a + n ≤ zlen f → copy_out a n f = (Done (slice a n f), f).
Proof. intros. unfold copy_out. by rewrite in_bounds_true by lia. Qed.

Lemma base_small capacity pos :
  cap_ok capacity → 0 ≤ pos < capacity → i64 (headerSize + i64 pos) = headerSize + pos.
Proof.
  intros (_&?&?) ?. unfold headerSize, minCapacity in *.
  rewrite (i64_small pos), i64_small; unfold minInt64, maxInt64 in *; lia.
Qed.

(** Writing length, checksum and bytes one after the other writes the frame. *)
Lemma write_frame_run {A} a payload (k : M (list byte) ring_err A) f :
  0 ≤ a → a + 8 + zlen payload ≤ zlen f →
  (PutUint32 a (zlen payload);;
   PutUint32 (a + 4) (crc32_checksum payload);;
   copy_in (a + 8) (zlen payload) payload;; k) f = k (splice a (frame payload) f).
Proof.
  intros. pose proof (zlen_nonneg payload).
  erewrite bind_done by (apply PutUint32_run; lia).
  erewrite bind_done by (apply PutUint32_run; zl).
  erewrite bind_done by (apply copy_in_run; zl).
  f_equal. unfold frame. do 2 rewrite <- splice_adjacent by zl.
  rewrite !zlen_le_bytes. by replace (a + 8) with (a + Z.of_nat 4 + Z.of_nat 4) by lia.
Qed.

Lemma write_skip_run a f :
  0 ≤ a → a + 8 ≤ zlen f →
  (PutUint32 a skipMarker;; PutUint32 (a + 4) 0) f =
  (Done tt, splice a (le_bytes 4 skipMarker ++ le_bytes 4 0) f).
Proof.
  intros. erewrite bind_done by (apply PutUint32_run; lia).
  rewrite PutUint32_run by zl. rewrite <- splice_adjacent by zl. done.
Qed.

(** ** Append *)

Section with_ring.
Context (capacity : Z) (f : list byte) (H T : Z) (q : list (list byte)).
Context (Hwf : ring_wf capacity f H T q).

Lemma wf_capacity_pos : 0 < capacity.
Proof. destruct (wf_cap _ _ _ _ _ Hwf) as (_&?&_). unfold minCapacity in *. lia. Qed.

Lemma cursor_mod p : 0 ≤ p ≤ T → u64 p mod capacity = p mod capacity.
Proof.
  intros. apply u64_mod; [apply wf_capacity_pos|].
  destruct (wf_cursor _ _ _ _ _ Hwf); [by left|right; lia].
Qed.

Lemma used_small : u64 (u64 T - u64 H) = T - H.
Proof.
  destruct Hwf as [(_&?&?) ????????]. rewrite u64_sub. apply u64_small.
  unfold headerSize, maxInt64 in *. lia.
Qed.

(** What [Append] does to a well-formed ring, branch by branch. *)
Lemma Append_run payload :
  zlen payload ≤ maxPayload →
  Append capacity payload f =
    if capacity <? entry_size payload then (Fail ErrPayloadTooLarge, f)
    else if capacity - (T - H) <? needed_bytes capacity T payload then (Fail ErrRingFull, f)
    else (Done tt, appended_file capacity T payload f).
Proof.
  intros Hp. pose proof wf_capacity_pos. pose proof (zlen_nonneg payload) as Hp0.
  pose proof (entry_size_spec _ Hp) as [Hes _].
  pose proof (Z.mod_pos_bound T capacity ltac:(done)) as Hm.
  pose proof used_small as Hus. pose proof (cursor_mod T) as Hcm.
  pose proof (space_ge8 capacity T) as Hs8.
  pose proof (base_small capacity (T mod capacity)) as Hb.
  pose proof (base_small capacity 0) as Hb0.
  destruct Hwf as [Hcap Hlen Hhead Htail H8 T8 Hord Hused Hcur Hlay]. clear Hwf.
  specialize (Hb Hcap Hm). specialize (Hb0 Hcap ltac:(lia)).
  specialize (Hcm ltac:(lia)). specialize (Hs8 (proj1 Hcap) T8 ltac:(done)).
  destruct Hcap as (Hc8&Hmin&Hmax). unfold minCapacity, headerSize, maxInt64, maxPayload in *.
  unfold Append. rewrite (u32_small (zlen payload)) by lia.
  rewrite (proj2 (Z.ltb_ge maxPayload _)) by (unfold maxPayload; lia).
  rewrite (u64_small (8 + zlen payload)) by lia.
  change (alignUp (8 + zlen payload)) with (entry_size payload).
  destruct (Z.ltb_spec capacity (entry_size payload)) as [?|Hfit]; [done|].
  erewrite bind_done by reflexivity. rewrite Hhead.
  erewrite bind_done by reflexivity. rewrite Htail, Hus, Hcm.
  rewrite (u64_small (capacity - (T - H))) by lia.
  rewrite (u64_small (capacity - T mod capacity)) by lia.
  rewrite (u64_small (capacity - T mod capacity + entry_size payload)) by lia.
  fold (needed_bytes capacity T payload). dcase; [done|]. bools.
  unfold appended_file, headerSize. unfold needed_bytes in *.
  destruct (Z.ltb_spec (capacity - T mod capacity) (entry_size payload)).
  - rewrite Hb. erewrite bind_done by (apply write_skip_run; lia).
    rewrite Hb0, write_frame_run by zl.
    unfold StoreUint64, modify. by rewrite u64_add_l, <- (Z.add_assoc (u64 T)), u64_add_l.
  - erewrite bind_done by reflexivity. rewrite Hb, write_frame_run by lia.
    unfold StoreUint64, modify. by rewrite !u64_add_l.
Qed.

Lemma needed_bytes_bounds payload :
  zlen payload ≤ maxPayload → entry_size payload ≤ capacity →
  8 ≤ needed_bytes capacity T payload ∧ (8 | needed_bytes capacity T payload) ∧
  needed_bytes capacity T payload < 2 * entry_size payload.
Proof.
  intros Hp Hfit. pose proof (entry_size_spec _ Hp) as [? ?].
  pose proof (zlen_nonneg payload). pose proof wf_capacity_pos.
  pose proof (Z.mod_pos_bound T capacity ltac:(done)).
  destruct Hwf as [(?&_&_) _ _ _ _ ? _ _ _ _]. unfold needed_bytes. dcase; bools.
  - split; [lia|]. split; [|lia]. apply Z.divide_add_r; [|done].
    apply Z.divide_sub_r; [done|by apply divide_mod].
  - split; [lia|]. split; [done|lia].
Qed.

(** A byte of the occupied region survives the append. *)
Lemma appended_file_old payload x :
  zlen payload ≤ maxPayload → entry_size payload ≤ capacity →
  needed_bytes capacity T payload ≤ capacity - (T - H) →
  H ≤ x < T →
  appended_file capacity T payload f !! Z.to_nat (headerSize + x mod capacity)
  = f !! Z.to_nat (headerSize + x mod capacity).
Proof.
  intros Hp Hfit Hroom Hx. pose proof (entry_size_spec _ Hp) as [Hes _].
  pose proof (zlen_nonneg payload). pose proof wf_capacity_pos as Hpos.
  pose proof (Z.mod_pos_bound T capacity Hpos). pose proof (Z.mod_pos_bound x capacity Hpos).
  pose proof (space_ge8 capacity T) as Hs8.
  destruct Hwf as [(Hc8&Hmin&Hmax) Hlen _ _ _ HT8 Hord _ _ _].
  specialize (Hs8 Hc8 HT8 Hpos).
  assert (∀ d, 0 ≤ d < needed_bytes capacity T payload → x mod capacity ≠ (T + d) mod capacity)
    as Hne by (intros; apply mod_ne; lia).
  unfold needed_bytes, appended_file, headerSize, tailOff, minCapacity in *.
  destruct (Z.ltb_spec (capacity - T mod capacity) (entry_size payload)).
  - assert (x mod capacity < T mod capacity ∨ T mod capacity + 8 ≤ x mod capacity) as Ha.
    { destruct (decide (x mod capacity < T mod capacity)); [by left|].
      destruct (decide (T mod capacity + 8 ≤ x mod capacity)); [by right|]. exfalso.
      apply (Hne (x mod capacity - T mod capacity)); [lia|]. rewrite mod_add_small; lia. }
    assert (8 + zlen payload ≤ x mod capacity) as Hb.
    { destruct (decide (8 + zlen payload ≤ x mod capacity)); [done|]. exfalso.
      apply (Hne (capacity - T mod capacity + x mod capacity)); [lia|].
      rewrite Z.add_assoc, mod_add_small; rewrite ?mod_to_boundary; lia. }
    by do 3 rewrite lookup_splice_out by zl.
  - assert (x mod capacity < T mod capacity ∨ T mod capacity + (8 + zlen payload) ≤ x mod capacity).
    { destruct (decide (x mod capacity < T mod capacity)); [by left|].
      destruct (decide (T mod capacity + (8 + zlen payload) ≤ x mod capacity)); [by right|].
      exfalso. apply (Hne (x mod capacity - T mod capacity)); [lia|].
      rewrite mod_add_small; lia. }
    by do 2 rewrite lookup_splice_out by zl.
Qed.

(** The bytes the append wrote are the new entry, after a skip if needed. *)
Lemma appended_file_new payload :
  zlen payload ≤ maxPayload → entry_size payload ≤ capacity →
  needed_bytes capacity T payload ≤ capacity - (T - H) →
  layout capacity (appended_file capacity T payload f)
    T (T + needed_bytes capacity T payload) [payload].
Proof.
  intros Hp Hfit Hroom. pose proof (entry_size_spec _ Hp) as [Hes _].
  pose proof (zlen_nonneg payload). pose proof wf_capacity_pos as Hpos.
  pose proof (Z.mod_pos_bound T capacity Hpos). pose proof (zlen_frame payload) as Hzf.
  pose proof (space_ge8 capacity T) as Hs8.
  destruct Hwf as [(Hc8&Hmin&Hmax) Hlen _ _ _ HT8 Hord _ _ _].
  specialize (Hs8 Hc8 HT8 Hpos).
  unfold needed_bytes, appended_file, tailOff, minCapacity in *.
  assert (headerSize = 64) as Hh by done.
  destruct (Z.ltb_spec (capacity - T mod capacity) (entry_size payload)).
  - apply layout_skip; [lia| |].
    + rewrite slice_splice_other by zl. rewrite slice_splice_other by zl.
      rewrite (slice_prefix _ (zlen (le_bytes 4 skipMarker ++ le_bytes 4 0))) by zl.
      rewrite slice_splice_same by zl. done.
    + pose proof (mod_to_boundary T capacity Hpos) as Hm0.
      rewrite Z.add_assoc. constructor; [done|lia| |constructor].
      rewrite Hm0, slice_splice_other, <- Hzf by zl. apply slice_splice_same; zl.
  - constructor; [done|lia| |constructor].
    rewrite slice_splice_other, <- Hzf by zl. apply slice_splice_same; zl.
Qed.

Lemma appended_file_header payload :
  zlen payload ≤ maxPayload → entry_size payload ≤ capacity →
  zlen (appended_file capacity T payload f) = headerSize + capacity ∧
  le_val (slice headOff 8 (appended_file capacity T payload f)) = u64 H ∧
  le_val (slice tailOff 8 (appended_file capacity T payload f))
    = u64 (T + needed_bytes capacity T payload).
Proof.
  intros Hp Hfit. pose proof (entry_size_spec _ Hp) as [Hes _].
  pose proof (zlen_nonneg payload). pose proof wf_capacity_pos as Hpos.
  pose proof (Z.mod_pos_bound T capacity Hpos). pose proof (zlen_frame payload).
  pose proof (space_ge8 capacity T) as Hs8.
  destruct Hwf as [(Hc8&Hmin&Hmax) Hlen Hhead _ _ HT8 _ _ _ _].
  specialize (Hs8 Hc8 HT8 Hpos). unfold appended_file, minCapacity in *.
  assert (headerSize = 64) as Hh by done. assert (headOff = 16) as Hho by done.
  assert (tailOff = 24) as Hto by done.
  set (v := u64 (T + _)). assert (0 ≤ v < 2 ^ 64) as Hv by apply u64_range.
  set (f2 := splice _ (frame payload) _).
  assert (zlen f2 = headerSize + capacity ∧ slice headOff 8 f2 = slice headOff 8 f) as [Hl2 Hs2].
  { subst f2. destruct (Z.ltb_spec (capacity - T mod capacity) (entry_size payload)); split; try zl.
    - by do 2 rewrite slice_splice_other by zl.
    - by rewrite slice_splice_other by zl. }
  split; [zl|]. split.
  - rewrite slice_splice_other by zl. by rewrite Hs2.
  - change 8 with (zlen (le_bytes 8 v)). rewrite slice_splice_same by zl.
    rewrite le_val_le_bytes. apply Z.mod_small. done.
Qed.

Lemma appended_wf payload :
  zlen payload ≤ maxPayload → entry_size payload ≤ capacity →
  needed_bytes capacity T payload ≤ capacity - (T - H) →
  cursor_ok capacity (T + needed_bytes capacity T payload) →
  ring_wf capacity (appended_file capacity T payload f) H
    (T + needed_bytes capacity T payload) (q ++ [payload]).
Proof.
  intros Hp Hfit Hroom Hcur.
  pose proof (appended_file_header payload Hp Hfit) as (?&?&?).
  pose proof (needed_bytes_bounds payload Hp Hfit) as (?&?&?).
  pose proof wf_capacity_pos as Hpos. pose proof Hwf as [??????????].
  constructor; try done; try lia.
  - by apply Z.divide_add_r.
  - eapply layout_app; [|by apply appended_file_new].
    eapply layout_agree; [done|apply wf_cap0|done| |done].
    intros. symmetry. by apply appended_file_old.
Qed.
End with_ring.

(** ** Pop *)

(** Moving the head cursor over the first entry or skip marker. *)
Lemma advance_wf capacity f H H' T q q' :
  ring_wf capacity f H T q → layout capacity f H' T q' →
  H ≤ H' → (8 | H') → H' ≤ T →
  ring_wf capacity (splice headOff (le_bytes 8 (u64 H')) f) H' T q'.
Proof.
  intros [Hcap Hlen Hhead Htail H8 T8 Hord Hused Hcur _] Hl ???.
  assert (headerSize = 64) as Hh by done. assert (headOff = 16) as Hho by done.
  assert (tailOff = 24) as Hto by done. pose proof Hcap as (Hc8&Hmin&?).
  unfold minCapacity in *. pose proof (u64_range H').
  constructor; try done; try lia.
  - zl.
  - change 8 with (zlen (le_bytes 8 (u64 H'))) at 1. rewrite slice_splice_same by zl.
    rewrite le_val_le_bytes. by apply Z.mod_small.
  - by rewrite slice_splice_other by zl.
  - eapply layout_agree; [| | | |exact Hl]; [lia|done..|].
    intros x Hx. pose proof (Z.mod_pos_bound x capacity ltac:(lia)).
    rewrite lookup_splice_out by zl. done.
Qed.

(** Cursors of distinct positions of one ring differ. *)
Lemma head_ne_tail capacity f H T q :
  ring_wf capacity f H T q → H < T → u64 H ≠ u64 T.
Proof.
  intros [(_&?&?) ????? ? ? _ _] ? He. unfold u64, headerSize, maxInt64 in *.
  apply (mod_ne H T (2 ^ 64)); [lia|done].
Qed.

Lemma frame_fields a payload f :
  0 ≤ a → slice a (8 + zlen payload) f = frame payload →
  slice a 4 f = le_bytes 4 (zlen payload) ∧
  slice (a + 4) 4 f = le_bytes 4 (crc32_checksum payload) ∧
  slice (a + 8) (zlen payload) f = payload.
Proof.
  intros Ha Hf. pose proof (zlen_nonneg payload).
  split; [|split].
  - rewrite (slice_prefix _ (8 + zlen payload)), Hf by lia. done.
  - rewrite <- (slice_slice a (8 + zlen payload)), Hf by lia. done.
  - rewrite <- (slice_slice a (8 + zlen payload)), Hf by lia.
    change (take (Z.to_nat (zlen payload)) payload = payload).
    unfold zlen. by rewrite Nat2Z.id, firstn_all.
Qed.

Lemma le_val_u32 z : 0 ≤ z < 2 ^ 32 → le_val (le_bytes 4 z) = z.
Proof. intros. rewrite le_val_le_bytes. by apply Z.mod_small. Qed.

Section pop.
Context (capacity : Z) (f : list byte) (H T : Z) (q : list (list byte)).
Context (Hwf : ring_wf capacity f H T q).

Lemma Pop_empty fuel : H = T → Pop (S fuel) capacity f = (Done None, f).
Proof.
  intros He. destruct Hwf as [?? Hhead Htail ??????]. cbn [Pop].
  erewrite bind_done by reflexivity. erewrite bind_done by reflexivity.
  by rewrite Hhead, Htail, He, Z.eqb_refl.
Qed.

Lemma Pop_entry fuel payload :
  zlen payload ≤ maxPayload → H mod capacity + entry_size payload ≤ capacity → H < T →
  slice (headerSize + H mod capacity) (8 + zlen payload) f = frame payload →
  Pop (S fuel) capacity f =
    (Done (Some payload), splice headOff (le_bytes 8 (u64 (H + entry_size payload))) f).
Proof.
  intros Hp Hb Hlt Hf. pose proof (entry_size_spec _ Hp) as [Hes _].
  pose proof (zlen_nonneg payload). pose proof (wf_capacity_pos _ _ _ _ _ Hwf) as Hpos.
  pose proof (Z.mod_pos_bound H capacity Hpos).
  pose proof (head_ne_tail _ _ _ _ _ Hwf Hlt) as Hne.
  pose proof (cursor_mod _ _ _ _ _ Hwf H) as Hcm.
  destruct Hwf as [Hcap Hlen Hhead Htail H8 T8 Hord Hused Hcur _].
  specialize (Hcm ltac:(lia)). pose proof (base_small _ (H mod capacity) Hcap ltac:(lia)) as Hbase.
  destruct Hcap as (Hc8&Hmin&Hmax).
  destruct (frame_fields (headerSize + H mod capacity) payload f) as (Hf1&Hf2&Hf3);
    [unfold headerSize; lia|done|].
  assert (headerSize = 64) as Hh by done. unfold maxInt64, maxPayload in *.
  cbn [Pop]. erewrite bind_done by reflexivity. erewrite bind_done by reflexivity.
  rewrite Hhead, Htail, (proj2 (Z.eqb_neq _ _)), Hcm, Hbase by done.
  erewrite bind_done by (apply Uint32_run; lia).
  rewrite Hf1, le_val_u32 by lia.
  rewrite (proj2 (Z.eqb_neq (zlen payload) skipMarker)) by (unfold skipMarker; lia).
  rewrite (proj2 (Z.ltb_ge maxPayload _)) by (unfold maxPayload; lia).
  rewrite (u64_small (8 + zlen payload)), (u64_small (capacity - _)) by lia.
  change (alignUp (8 + zlen payload)) with (entry_size payload).
  rewrite (proj2 (Z.ltb_ge _ (entry_size payload))) by lia.
  erewrite bind_done by (apply Uint32_run; lia).
  erewrite bind_done by (apply copy_out_run; lia).
  pose proof (crc32_range payload).
  rewrite Hf2, Hf3, le_val_u32, Z.eqb_refl by lia.
  cbn [negb]. unfold StoreUint64, modify. erewrite bind_done by reflexivity.
  by rewrite u64_add_l.
Qed.

Lemma Pop_skip fuel :
  H < T → slice (headerSize + H mod capacity) 4 f = le_bytes 4 skipMarker →
  Pop (S fuel) capacity f =
    Pop fuel capacity (splice headOff (le_bytes 8 (u64 (H + (capacity - H mod capacity)))) f).
Proof.
  intros Hlt Hf. pose proof (wf_capacity_pos _ _ _ _ _ Hwf) as Hpos.
  pose proof (Z.mod_pos_bound H capacity Hpos).
  pose proof (head_ne_tail _ _ _ _ _ Hwf Hlt) as Hne.
  pose proof (cursor_mod _ _ _ _ _ Hwf H) as Hcm.
  destruct Hwf as [Hcap Hlen Hhead Htail H8 T8 Hord Hused Hcur _].
  specialize (Hcm ltac:(lia)). pose proof (base_small _ (H mod capacity) Hcap ltac:(lia)) as Hbase.
  destruct Hcap as (Hc8&Hmin&Hmax). pose proof (space_ge8 capacity H Hc8 H8 Hpos).
  assert (headerSize = 64) as Hh by done. unfold maxInt64, maxPayload in *.
  cbn [Pop]. erewrite bind_done by reflexivity. erewrite bind_done by reflexivity.
  rewrite Hhead, Htail, (proj2 (Z.eqb_neq _ _)), Hcm, Hbase by done.
  erewrite bind_done by (apply Uint32_run; lia). rewrite Hf.
  rewrite (u64_small (capacity - _)) by lia.
  change (le_val (le_bytes 4 skipMarker) =? skipMarker) with true. cbv beta iota.
  unfold StoreUint64, modify. erewrite bind_done by reflexivity.
  by rewrite u64_add_l.
Qed.
End pop.

(** An entry at the front is popped; the head moves behind it. *)
Lemma Pop_entry_wf capacity f H T payload q fuel :
  ring_wf capacity f H T (payload :: q) →
  zlen payload ≤ maxPayload → H mod capacity + entry_size payload ≤ capacity →
  slice (headerSize + H mod capacity) (8 + zlen payload) f = frame payload →
  layout capacity f (H + entry_size payload) T q →
  ∃ f', Pop (S fuel) capacity f = (Done (Some payload), f') ∧
        ring_wf capacity f' (H + entry_size payload) T q.
Proof.
  intros Hwf Hp Hb Hf Hl. pose proof (wf_capacity_pos _ _ _ _ _ Hwf) as Hpos.
  pose proof (layout_le _ _ _ _ _ Hpos Hl). pose proof (entry_size_spec _ Hp) as [? ?].
  pose proof (zlen_nonneg payload).
  eexists. split; [by eapply Pop_entry; eauto; lia|].
  eapply advance_wf; [done|done|lia| |lia].
  apply Z.divide_add_r; [apply (wf_H8 _ _ _ _ _ Hwf)|done].
Qed.

Lemma Pop_run capacity f H T q fuel :
  ring_wf capacity f H T q → (2 ≤ fuel)%nat →
  match q with
  | [] => H = T ∧ Pop fuel capacity f = (Done None, f)
  | payload :: q' => ∃ f' H', Pop fuel capacity f = (Done (Some payload), f') ∧
                             ring_wf capacity f' H' T q'
  end.
Proof.
  intros Hwf Hfuel. destruct fuel as [|[|fuel]]; [lia..|].
  pose proof (wf_capacity_pos _ _ _ _ _ Hwf) as Hpos.
  destruct q as [|payload q].
  { pose proof (wf_layout _ _ _ _ _ Hwf) as Hl. inversion Hl; subst.
    split; [done|]. by eapply Pop_empty. }
  pose proof (wf_layout _ _ _ _ _ Hwf) as Hl. inversion Hl; subst.
  { edestruct Pop_entry_wf as (f'&?&?); eauto. }
  match goal with Hx : layout _ _ (H + _) _ _ |- _ => rename Hx into Hl' end.
  pose proof (layout_nonempty _ _ _ _ _ _ Hpos Hl').
  pose proof (Z.mod_pos_bound H capacity Hpos).
  pose proof (mod_to_boundary H capacity Hpos) as Hm0.
  erewrite Pop_skip; [|done|lia|done].
  opose proof (advance_wf _ _ _ (H + (capacity - H mod capacity)) _ _ _ Hwf Hl' _ _ _) as Hwf';
    [lia| |lia|].
  { destruct (wf_cap _ _ _ _ _ Hwf) as (?&_). apply Z.divide_add_r; [apply Hwf|].
    apply Z.divide_sub_r; [done|]. apply divide_mod; [apply Hwf|done]. }
  pose proof (wf_layout _ _ _ _ _ Hwf') as Hl''. inversion Hl''; subst.
  - edestruct Pop_entry_wf as (f'&?&?); eauto.
  - by rewrite Hm0 in *.
Qed.

(** A file holds one queue. *)
Lemma ring_wf_unique capacity f H T q H' T' q' :
  ring_wf capacity f H T q → ring_wf capacity f H' T' q' → q = q'.
Proof.
  revert f H H' q'. induction q as [|payload q IH]; intros f H H' q' Hwf Hwf';
    pose proof (Pop_run _ _ _ _ _ 2 Hwf ltac:(lia)) as Hp;
    pose proof (Pop_run _ _ _ _ _ 2 Hwf' ltac:(lia)) as Hp'; destruct q' as [|payload' q']; [done|..].
  - destruct Hp as [_ Hp], Hp' as (?&?&Hp'&_). congruence.
  - destruct Hp' as [_ Hp'], Hp as (?&?&Hp&_). congruence.
  - destruct Hp as (f1&H1&Hp&Hwf1), Hp' as (f2&H2&Hp'&Hwf2). rewrite Hp in Hp'. simplify_eq.
    f_equal. by eapply IH.
Qed.

Lemma Pending_run capacity f H T q :
  ring_wf capacity f H T q → Pending f = (Done (T - H), f).
Proof.
  intros Hwf. pose proof (used_small _ _ _ _ _ Hwf) as Hu.
  unfold Pending. erewrite bind_done by reflexivity. erewrite bind_done by reflexivity.
  by rewrite (wf_head _ _ _ _ _ Hwf), (wf_tail _ _ _ _ _ Hwf), Hu.
Qed.

(** ** Create *)

Lemma le_val_replicate n : le_val (replicate n x00) = 0.
Proof. induction n as [|n IH]; simpl; [done|]. rewrite IH. done. Qed.

Lemma Create_run os capacity f :
  0 ≤ capacity ≤ maxInt64 - 71 → Create os capacity = Done f →
  cap_ok (alignUp capacity) ∧ zlen f = headerSize + alignUp capacity ∧
  slice 0 4 f = le_bytes 4 magic ∧ slice 4 4 f = le_bytes 4 version ∧
  slice 8 8 f = le_bytes 8 (alignUp capacity) ∧
  slice 16 8 f = le_bytes 8 0 ∧ slice 24 8 f = le_bytes 8 0.
Proof.
  unfold maxInt64. intros Hc. unfold Create.
  destruct (Z.ltb_spec capacity minCapacity) as [|Hmin]; [done|].
  change (if capacity mod 8 =? 0 then capacity else u64 (capacity + (8 - capacity mod 8)))
    with (alignUp capacity).
  destruct (alignUp_spec capacity ltac:(lia)) as [Ha Ha8]. set (c := alignUp capacity) in *.
  assert (headerSize = 64) as Hh by done. unfold minCapacity in Hmin.
  rewrite (i64_small c), i64_small by (unfold minInt64, maxInt64; lia). rewrite Hh.
  destruct (open_ok os); [|done]. cbn [negb].
  destruct (_ || _); [done|]. destruct (mmap_ok os); [|done]. cbn [negb].
  intros [= <-]. split; [split_and!; [done|unfold minCapacity; lia|unfold maxInt64; lia]|].
  split; [zl|].
  split_and!; repeat rewrite slice_splice_other by zl; apply slice_splice_eq; zl.
Qed.

Lemma Create_wf os capacity f :
  0 ≤ capacity ≤ maxInt64 - 71 → Create os capacity = Done f →
  ring_wf (alignUp capacity) f 0 0 [].
Proof.
  intros Hc Hf. destruct (Create_run _ _ _ Hc Hf) as (Hcap&Hlen&_&_&_&H16&H24).
  constructor; try done; try apply Z.divide_0_r.
  - unfold headOff. by rewrite H16.
  - unfold tailOff. by rewrite H24.
  - destruct Hcap as (_&?&_). unfold minCapacity in *. lia.
  - right. lia.
  - constructor.
Qed.

(** ** Runs *)

Lemma cursor_ok_le capacity p p' : p ≤ p' → cursor_ok capacity p' → cursor_ok capacity p.
Proof. intros ? [?|?]; [by left|right; lia]. Qed.

Lemma Append_refines capacity f H T q payload :
  ring_wf capacity f H T q → zlen payload ≤ maxPayload → cursor_ok capacity (T + capacity) →
  match Append capacity payload f with
  | (Done _, f') =>
    ring_wf capacity f' H (T + needed_bytes capacity T payload) (q ++ [payload]) ∧
    needed_bytes capacity T payload ≤ capacity - (T - H)
  | (Fail ErrPayloadTooLarge, f') => f' = f ∧ capacity < entry_size payload
  | (Fail ErrRingFull, f') => f' = f ∧ capacity - (T - H) < needed_bytes capacity T payload
  | _ => False
  end.
Proof.
  intros Hwf Hp Hcur. rewrite (Append_run _ _ _ _ _ Hwf) by done.
  destruct (Z.ltb_spec capacity (entry_size payload)); [done|].
  destruct (Z.ltb_spec (capacity - (T - H)) (needed_bytes capacity T payload)); [done|].
  split; [|done]. apply appended_wf; [done..|].
  eapply cursor_ok_le; [|done]. pose proof (wf_order _ _ _ _ _ Hwf). lia.
Qed.

Lemma run_refines capacity ops f H T q :
  ring_wf capacity f H T q →
  Forall (λ op, if op is OpAppend payload then zlen payload ≤ maxPayload else True) ops →
  cursor_ok capacity (T + capacity * Z.of_nat (length ops)) →
  ∃ acks pops f' H' T' q', run capacity ops f = Some (acks, pops, f') ∧
    q ++ acks = pops ++ q' ∧ ring_wf capacity f' H' T' q'.
Proof.
  revert f H T q. induction ops as [|op ops IH]; intros f H T q Hwf Hops Hcur.
  { exists [], [], f, H, T, q. rewrite app_nil_r. done. }
  apply Forall_cons in Hops as [Hop Hops]. cbn [length] in Hcur.
  pose proof (wf_capacity_pos _ _ _ _ _ Hwf). rewrite Nat2Z.inj_succ in Hcur.
  pose proof (wf_order _ _ _ _ _ Hwf).
  destruct op as [payload|]; cbn [run].
  - opose proof (Append_refines _ _ _ _ _ payload Hwf Hop _) as Ha.
    { eapply cursor_ok_le; [|done]. lia. }
    destruct (Append capacity payload f) as [[[]|[]|] f1]; try done.
    + destruct Ha as [Hwf1 ?].
      edestruct IH as (acks&pops&f'&H'&T'&q'&->&Hq&?); [exact Hwf1|done| |].
      { eapply cursor_ok_le; [|done]. lia. }
      exists (payload :: acks), pops, f', H', T', q'. split; [done|].
      rewrite <- Hq, <- app_assoc. done.
    + destruct Ha as [-> _]. eapply IH; [done..|]. eapply cursor_ok_le; [|done]. lia.
    + destruct Ha as [-> _]. eapply IH; [done..|]. eapply cursor_ok_le; [|done]. lia.
  - pose proof (Pop_run _ _ _ _ _ 2 Hwf ltac:(lia)) as Hpop.
    destruct q as [|payload q].
    + destruct Hpop as [_ ->]. eapply IH; [done..|]. eapply cursor_ok_le; [|done]. lia.
    + destruct Hpop as (f1&Hh1&->&Hwf1).
      edestruct IH as (acks&pops&f'&H'&T'&q'&->&Hq&?); [exact Hwf1|done| |].
      { eapply cursor_ok_le; [|done]. lia. }
      exists acks, (payload :: pops), f', H', T', q'. simpl. rewrite <- Hq. done.
Qed.

(** ** Theorems *)

(** On a well-formed ring holding the queue [q], [Append] either enqueues
    the payload at the back (and keeps every payload already there), or
    refuses with the ring untouched: [ErrPayloadTooLarge] exactly when the
    framed entry exceeds the capacity, [ErrRingFull] exactly when the free
    bytes do not cover the entry plus the skipped bytes before the boundary.
    It never panics and never reports corruption. *)
Theorem append_enqueues_or_refuses capacity f H T q payload :
  ring_wf capacity f H T q → zlen payload ≤ maxPayload → cursor_ok capacity (T + capacity) →
  match Append capacity payload f with
  | (Done _, f') =>
    ring_wf capacity f' H (T + needed_bytes capacity T payload) (q ++ [payload]) ∧
    needed_bytes capacity T payload ≤ capacity - (T - H)
  | (Fail ErrPayloadTooLarge, f') => f' = f ∧ capacity < entry_size payload
  | (Fail ErrRingFull, f') => f' = f ∧ capacity - (T - H) < needed_bytes capacity T payload
  | _ => False
  end.
Proof. apply Append_refines. Qed.

(** On a well-formed ring holding [q], [Pop] returns after at most two
    iterations of its loop: the front payload, unchanged, with the rest of
    the queue left in the ring, or "empty" exactly when [q] is empty, in
    which case head and tail coincide.  No corruption error is possible. *)
Theorem pop_dequeues capacity f H T q fuel :
  ring_wf capacity f H T q → (2 ≤ fuel)%nat →
  match q with
  | [] => H = T ∧ Pop fuel capacity f = (Done None, f)
  | payload :: q' => ∃ f' H', Pop fuel capacity f = (Done (Some payload), f') ∧
                             ring_wf capacity f' H' T q'
  end.
Proof. apply Pop_run. Qed.

(** Whatever interleaving of appends and pops a ring created by [Create]
    goes through, no operation panics or reports corruption, and the payloads
    the consumer has popped are exactly a prefix of the acknowledged ones, in
    order and once each; the remaining acknowledged payloads are still in the
    ring.  The run may be as long as the 64-bit cursors last, or unbounded
    when the capacity divides [2^64] (the default 16 MiB does). *)
Theorem ring_fifo_exactly_once os capacity f ops :
  0 ≤ capacity ≤ maxInt64 - 71 → Create os capacity = Done f →
  Forall (λ op, if op is OpAppend payload then zlen payload ≤ maxPayload else True) ops →
  cursor_ok (alignUp capacity) (alignUp capacity * Z.of_nat (length ops)) →
  ∃ acks pops f' H' T' rest,
    run (alignUp capacity) ops f = Some (acks, pops, f') ∧
    acks = pops ++ rest ∧ ring_wf (alignUp capacity) f' H' T' rest.
Proof.
  intros Hc Hf Hops Hcur. pose proof (Create_wf _ _ _ Hc Hf) as Hwf.
  exact (run_refines _ ops _ _ _ _ Hwf Hops Hcur).
Qed.

(** [Create] followed by [openMapping] agree on the file format: the
    mapping opens with the capacity rounded up to a multiple of 8, and the
    ring is empty and well formed. *)
Theorem create_then_open os os' capacity f :
  0 ≤ capacity ≤ maxInt64 - 71 → Create os capacity = Done f →
  open_ok os' = true → mmap_ok os' = true →
  openMapping os' f = Done (alignUp capacity) ∧ ring_wf (alignUp capacity) f 0 0 [].
Proof.
  intros Hc Hf Ho Hm. split; [|by eapply Create_wf].
  destruct (Create_run _ _ _ Hc Hf) as (Hcap&Hlen&H0&H4&H8&_).
  destruct (alignUp_spec capacity) as [? _]; [unfold maxInt64 in *; lia|].
  unfold openMapping, maxInt64 in *. rewrite Ho, Hm, H0, H4, H8, Hlen. cbn [negb].
  destruct Hcap as (_&?&?). unfold minCapacity, headerSize, maxInt64 in *.
  rewrite (proj2 (Z.ltb_ge _ _)) by lia.
  change (le_val (le_bytes 4 magic) =? magic) with true.
  change (le_val (le_bytes 4 version) =? version) with true. cbn [negb].
  rewrite le_val_le_bytes, Z.mod_small by (change (256 ^ Z.of_nat 8) with (2 ^ 64); lia).
  rewrite (i64_small (alignUp _)), i64_small, Z.eqb_refl by (unfold minInt64, maxInt64; lia). done.
Qed.

(** A drained ring accepts every payload whose framed size is at most
    half the capacity plus 4 bytes, wherever its cursors stand. *)
Theorem drained_ring_accepts capacity f H payload :
  ring_wf capacity f H H [] → zlen payload ≤ maxPayload →
  2 * entry_size payload ≤ capacity + 8 →
  Append capacity payload f = (Done tt, appended_file capacity H payload f).
Proof.
  intros Hwf Hp Hfit. rewrite (Append_run _ _ _ _ _ Hwf) by done.
  pose proof (wf_capacity_pos _ _ _ _ _ Hwf) as Hpos.
  destruct (wf_cap _ _ _ _ _ Hwf) as (Hc8&Hmin&_). unfold minCapacity in *.
  pose proof (entry_size_spec _ Hp) as [_ He8]. pose proof (wf_H8 _ _ _ _ _ Hwf) as HH8.
  pose proof (divide_mod 8 H capacity HH8 Hc8) as [k Hk].
  rewrite (proj2 (Z.ltb_ge _ _)), (proj2 (Z.ltb_ge _ _)); [done| |lia].
  unfold needed_bytes. pose proof (Z.mod_pos_bound H capacity Hpos).
  destruct (Z.ltb_spec (capacity - H mod capacity) (entry_size payload)); [|lia].
  destruct He8 as [e He]. destruct Hc8 as [c Hc']. lia.
Qed.

(** The limit of the previous theorem is real.  When the cursors of a
    drained ring stand so that the entry fits neither before the boundary nor
    in front of the cursor, [Append] answers [ErrRingFull] although the entry
    is not larger than the capacity and no byte is pending; [Pop] cannot help,
    so retrying the same append fails for ever. *)
Theorem drained_ring_stuck capacity f H payload :
  ring_wf capacity f H H [] → zlen payload ≤ maxPayload →
  entry_size payload ≤ capacity →
  capacity - H mod capacity < entry_size payload → H mod capacity < entry_size payload →
  Append capacity payload f = (Fail ErrRingFull, f) ∧ Pop 2 capacity f = (Done None, f).
Proof.
  intros Hwf Hp Hfit Hspace Hpos. split; [|by eapply Pop_empty].
  rewrite (Append_run _ _ _ _ _ Hwf) by done. rewrite (proj2 (Z.ltb_ge _ _)) by done.
  rewrite (proj2 (Z.ltb_lt _ _)); [done|].
  unfold needed_bytes. rewrite (proj2 (Z.ltb_lt _ _)) by done. lia.
Qed.

(** On a well-formed ring [Pending] reports the number of bytes between
    the consumer and the producer, also after the cursors wrapped. *)
Theorem pending_is_distance capacity f H T q :
  ring_wf capacity f H T q → Pending f = (Done (T - H), f) ∧ 0 ≤ T - H ≤ capacity.
Proof.
  intros Hwf. split; [by eapply Pending_run|].
  pose proof (wf_order _ _ _ _ _ Hwf). pose proof (wf_used _ _ _ _ _ Hwf). lia.
Qed.

(** *** Witnesses *)

Definition os_fine : os_answers := {| open_ok := true; truncate_ok _ := true; mmap_ok := true |}.

(** A 4 KiB ring in which one 2000-byte payload was appended and popped. *)
Definition ring4k : list byte := if Create os_fine 4096 is Done f then f else [].
Definition ring4k_drained : list byte :=
  if run 4096 [OpAppend (replicate 2000 x61); OpPop] ring4k is Some (_, f) then f else [].

Lemma ring4k_create : Create os_fine 4096 = Done ring4k.
Proof. vm_compute. reflexivity. Qed.

Lemma cap4096_ok : cap_ok 4096.
Proof. split_and!; [by exists 512|done|done]. Qed.

Lemma ring4k_wf : ring_wf 4096 ring4k 0 0 [].
Proof. apply (Create_wf os_fine 4096 ring4k); [done|apply ring4k_create]. Qed.

Lemma ring4k_drained_wf : ring_wf 4096 ring4k_drained 2008 2008 [].
Proof.
  constructor; try (vm_compute; reflexivity); try (by exists 251); try lia.
  - apply cap4096_ok.
  - right. lia.
  - constructor.
Qed.

Lemma append_enqueues_or_refuses_witness :
  if Append 4096 (bytes_of_string "x") ring4k is (Done _, f')
  then ring_wf 4096 f' 0 16 [bytes_of_string "x"] else False.
Proof.
  pose proof (append_enqueues_or_refuses 4096 ring4k 0 0 [] (bytes_of_string "x") ring4k_wf) as Ha.
  specialize (Ha ltac:(vm_compute; discriminate) ltac:(right; lia)).
  vm_compute (needed_bytes _ _ _) in Ha.
  destruct (Append 4096 (bytes_of_string "x") ring4k) as [[u|[]|] f'] eqn:He.
  1: exact (proj1 Ha).
  all: exfalso; vm_compute in He; discriminate He.
Defined.

Lemma ring4k_one_wf :
  ring_wf 4096 (appended_file 4096 0 (bytes_of_string "x") ring4k) 0 16 [bytes_of_string "x"].
Proof.
  apply (appended_wf 4096 ring4k 0 0 [] ring4k_wf (bytes_of_string "x"));
    [vm_compute; discriminate..|right; vm_compute; reflexivity].
Qed.

Lemma pop_dequeues_witness :
  ∃ f' H', Pop 2 4096 (appended_file 4096 0 (bytes_of_string "x") ring4k)
             = (Done (Some (bytes_of_string "x")), f') ∧ ring_wf 4096 f' H' 16 [].
Proof. exact (pop_dequeues 4096 _ 0 16 _ 2 ring4k_one_wf (le_n 2)). Defined.

Definition two_ops : list ring_op :=
  [OpAppend (bytes_of_string "a"); OpAppend (bytes_of_string "b"); OpPop].

Lemma ring_fifo_exactly_once_witness :
  ∃ acks pops f' H' T' rest,
    run 4096 two_ops ring4k = Some (acks, pops, f') ∧
    acks = pops ++ rest ∧ ring_wf 4096 f' H' T' rest.
Proof.
  apply (ring_fifo_exactly_once os_fine 4096 ring4k two_ops).
  - vm_compute. split; discriminate.
  - exact ring4k_create.
  - repeat constructor; vm_compute; discriminate.
  - right. vm_compute. reflexivity.
Defined.

Lemma create_then_open_witness :
  openMapping os_fine ring4k = Done 4096 ∧ ring_wf 4096 ring4k 0 0 [].
Proof.
  apply (create_then_open os_fine os_fine 4096 ring4k);
    [vm_compute; split; discriminate|exact ring4k_create|reflexivity..].
Defined.

Lemma drained_ring_accepts_witness :
  Append 4096 (replicate 2040 x62) ring4k_drained
  = (Done tt, appended_file 4096 2008 (replicate 2040 x62) ring4k_drained).
Proof.
  apply (drained_ring_accepts 4096 ring4k_drained 2008 _ ring4k_drained_wf);
    vm_compute; discriminate.
Defined.

(** A 2500-byte payload in a drained 4096-byte ring whose cursor is at 2008. *)
Lemma drained_ring_stuck_witness :
  Append 4096 (replicate 2500 x62) ring4k_drained = (Fail ErrRingFull, ring4k_drained) ∧
  Pop 2 4096 ring4k_drained = (Done None, ring4k_drained).
Proof.
  apply (drained_ring_stuck 4096 ring4k_drained 2008 _ ring4k_drained_wf).
  1-2: vm_compute; discriminate.
  all: vm_compute; reflexivity.
Defined.

Lemma pending_is_distance_witness :
  Pending ring4k_drained = (Done 0, ring4k_drained) ∧ 0 ≤ 2008 - 2008 ≤ 4096.
Proof. exact (pending_is_distance 4096 ring4k_drained 2008 2008 [] ring4k_drained_wf). Defined.
