(* ===== verification/RingConcurrency.v ===== *)
(** * The ring under concurrency ([internal/ring/ring.go])

    The producer (the node) and the consumer (the sidecar) run in two
    processes that map the same file.  Here [Append] and [Pop] are programs
    over that memory: the cursors are loaded and stored atomically, everything
    else is read and written byte by byte, and the accesses of the two sides
    interleave in any order (the accesses of one side happen in program order,
    as [sync/atomic] makes them appear to the other).

    The programs run alone are the operations of [OplogRing]; under every
    interleaving the ring stays a well-formed queue, after every single
    access, neither side ever reads a byte the other may be writing, and the
    consumer gets the acknowledged payloads in order, once each. *)

From S2P Require Import Prelude Crc32c OplogRing.

(** ** Programs over the mapped memory *)

Inductive prog (A : Type) :=
| PRet (r : outcome ring_err A)
| PLoad64 (off : Z) (k : Z → prog A)
| PStore64 (off v : Z) (k : prog A)
| PPut (a : Z) (bs : list byte) (k : prog A)
| PGet (a : Z) (n : nat) (acc : list byte) (k : list byte → prog A).
Arguments PRet {A}. Arguments PLoad64 {A}. Arguments PStore64 {A}. Arguments PPut {A}. Arguments PGet {A}.

Definition Get32 {A} (a : Z) (k : Z → prog A) : prog A := PGet a 4 [] (λ bs, k (le_val bs)).
Definition Put32 {A} (a v : Z) (k : prog A) : prog A := PPut a (le_bytes 4 v) k.

(** [Append] after its two loads. *)
Definition append_loaded (capacity : Z) (payload : list byte) (head tail : Z) : prog () :=
  let payloadLen := u32 (zlen payload) in
  let entrySize := alignUp (u64 (8 + payloadLen)) in
  let used := u64 (tail - head) in
  let free := u64 (capacity - used) in
  let posInRing := tail mod capacity in
  let spaceToBoundary := u64 (capacity - posInRing) in
  let needSkip := spaceToBoundary <? entrySize in
  let needed := if needSkip then u64 (spaceToBoundary + entrySize) else entrySize in
  if free <? needed then PRet (Fail ErrRingFull) else
  let tail' := if needSkip then u64 (tail + spaceToBoundary) else tail in
  let base := i64 (headerSize + i64 (if needSkip then 0 else posInRing)) in
  let entry :=
    Put32 base payloadLen (
    Put32 (base + 4) (crc32_checksum payload) (
    PPut (base + 8) (take (Z.to_nat payloadLen) payload) (
    PStore64 tailOff (u64 (tail' + entrySize)) (PRet (Done tt))))) in
  if needSkip then
    let base := i64 (headerSize + i64 posInRing) in
    Put32 base skipMarker (Put32 (base + 4) 0 entry)
  else entry.

Definition Append_prog (capacity : Z) (payload : list byte) : prog () :=
  let payloadLen := u32 (zlen payload) in
  if maxPayload <? payloadLen then PRet (Fail ErrPayloadTooLarge) else
  if capacity <? alignUp (u64 (8 + payloadLen)) then PRet (Fail ErrPayloadTooLarge) else
  PLoad64 headOff (λ head, PLoad64 tailOff (λ tail, append_loaded capacity payload head tail)).

(** An iteration of [Pop] after its two loads; [again] is the next one. *)
Definition pop_loaded (capacity : Z) (again : prog (option (list byte))) (tail head : Z) :
    prog (option (list byte)) :=
  if head =? tail then PRet (Done None) else
  let posInRing := head mod capacity in
  let base := i64 (headerSize + i64 posInRing) in
  Get32 base (λ rawLen,
    if rawLen =? skipMarker then
      PStore64 headOff (u64 (head + u64 (capacity - posInRing))) again
    else
    if maxPayload <? rawLen then PRet (Fail (ErrCorruptedLength head)) else
    let entrySize := alignUp (u64 (8 + rawLen)) in
    if u64 (capacity - posInRing) <? entrySize then PRet (Fail (ErrCorruptedBoundary head)) else
    Get32 (base + 4) (λ crc,
      PGet (base + 8) (Z.to_nat rawLen) [] (λ payload,
        if negb (crc32_checksum payload =? crc) then PRet (Fail (ErrCorruptedCrc head)) else
        PStore64 headOff (u64 (head + entrySize)) (PRet (Done (Some payload)))))).

Fixpoint Pop_prog (fuel : nat) (capacity : Z) : prog (option (list byte)) :=
  match fuel with
  | O => PRet (Fail OutOfFuel)
  | S fuel =>
    PLoad64 tailOff (λ tail, PLoad64 headOff (λ head, pop_loaded capacity (Pop_prog fuel capacity) tail head))
  end.

(** *** Execution *)

(** One access.  Slicing out of the mapping panics. *)
Definition access {A} (p : prog A) (f : list byte) : option (prog A * list byte) :=
  match p with
  | PRet _ => None
  | PLoad64 off k => Some (k (le_val (slice off 8 f)), f)
  | PStore64 off v k => Some (k, splice off (le_bytes 8 v) f)
  | PPut a bs k =>
    if in_bounds a (a + zlen bs) f then
      match bs with [] => Some (k, f) | b :: bs => Some (PPut (a + 1) bs k, splice a [b] f) end
    else Some (PRet Panic, f)
  | PGet a n acc k =>
    if in_bounds a (a + Z.of_nat n) f then
      match n with O => Some (k acc, f) | S n => Some (PGet (a + 1) n (acc ++ slice a 1 f) k, f) end
    else Some (PRet Panic, f)
  end.

(** A program that runs alone. *)
Fixpoint solo {A} (p : prog A) (f : list byte) : outcome ring_err A * list byte :=
  match p with
  | PRet r => (r, f)
  | PLoad64 off k => solo (k (le_val (slice off 8 f))) f
  | PStore64 off v k => solo k (splice off (le_bytes 8 v) f)
  | PPut a bs k => if in_bounds a (a + zlen bs) f then solo k (splice a bs f) else (Panic, f)
  | PGet a n acc k =>
    if in_bounds a (a + Z.of_nat n) f then solo (k (acc ++ slice a (Z.of_nat n) f)) f else (Panic, f)
  end.

(** ** The programs are the operations *)

Lemma u32_le n : 0 ≤ n → 0 ≤ u32 n ≤ n.
Proof. intros. unfold u32. pose proof (Z.mod_pos_bound n (2 ^ 32)). pose proof (Z.mod_le n (2 ^ 32)). lia. Qed.

Lemma zlen_take_u32 (payload : list byte) :
  zlen (take (Z.to_nat (u32 (zlen payload))) payload) = u32 (zlen payload).
Proof.
  pose proof (u32_le (zlen payload) (zlen_nonneg payload)). unfold zlen in *. rewrite length_take. lia.
Qed.

Lemma solo_Append capacity payload f : solo (Append_prog capacity payload) f = Append capacity payload f.
Proof.
  unfold Append_prog, Append. dcase; [done|]. dcase; [done|]. cbn [solo].
  do 2 (erewrite bind_done by reflexivity). unfold append_loaded. dcase; [done|].
  unfold mbind, M_bind, mret, M_ret, PutUint32, copy_in, Put32.
  destruct (u64 (capacity - le_val (slice tailOff 8 f) mod capacity) <? alignUp (u64 (8 + u32 (zlen payload))));
    cbn [solo]; rewrite !zlen_le_bytes, !zlen_take_u32; change (Z.of_nat 4) with 4;
    cbv beta iota;
    repeat match goal with
    | |- context [in_bounds ?a ?b ?f] => destruct (in_bounds a b f); cbv beta iota; [|done]
    end; done.
Qed.

Lemma solo_Pop fuel capacity f : solo (Pop_prog fuel capacity) f = Pop fuel capacity f.
Proof.
  revert f. induction fuel as [|fuel IH]; intros f; [done|]. cbn [Pop Pop_prog solo].
  do 2 (erewrite bind_done by reflexivity). unfold pop_loaded. dcase; [done|].
  unfold mbind at 1, M_bind at 1, Uint32 at 1, Get32. cbn [solo]. change (Z.of_nat 4) with 4.
  destruct (in_bounds _ _ f); [|done]. cbn [app].
  pose proof (le_val_range (slice (i64 (headerSize + i64 (le_val (slice headOff 8 f) mod capacity))) 4 f)).
  set (rawLen := le_val (slice _ 4 f)) in *. destruct (rawLen =? skipMarker).
  { cbn [solo]. unfold mbind, M_bind, StoreUint64, modify. apply IH. }
  dcase; [done|]. dcase; [done|].
  unfold mbind at 1, M_bind at 1, Uint32. cbn [solo]. change (Z.of_nat 4) with 4.
  destruct (in_bounds _ _ f); [|done]. unfold mbind at 1, M_bind at 1, copy_out.
  rewrite Z2Nat.id by lia. destruct (in_bounds _ _ f); [|done]. cbn [app]. by destruct (negb _).
Qed.

(** ** Runs of accesses *)

Lemma splice_cons {A} a (b : A) bs f :
  0 ≤ a → a + zlen (b :: bs) ≤ zlen f → splice a (b :: bs) f = splice (a + 1) bs (splice a [b] f).
Proof.
  intros. rewrite zlen_cons in *. pose proof (zlen_nonneg bs).
  change (a + 1) with (a + zlen [b]). rewrite splice_adjacent; [done|lia|]. unfold zlen in *. cbn. lia.
Qed.

Lemma in_bounds_inv {A} a b (l : list A) : in_bounds a b l = true → 0 ≤ a ≤ b ∧ b ≤ zlen l.
Proof. unfold in_bounds. intros. bools. lia. Qed.

Lemma slice_cons {A} a n (f : list A) :
  0 ≤ a → a + Z.of_nat (S n) ≤ zlen f →
  slice a (Z.of_nat (S n)) f = slice a 1 f ++ slice (a + 1) (Z.of_nat n) f.
Proof.
  intros. unfold slice. rewrite Z2Nat.inj_add, <- drop_drop, !Nat2Z.id by lia.
  change (Z.to_nat 1) with 1%nat. destruct (drop (Z.to_nat a) f); cbn; [by rewrite take_nil|done].
Qed.

(** The file and the program after the writes at the front of a program. *)
Fixpoint puts {A} (p : prog A) (f : list byte) : list byte * prog A :=
  match p with
  | PPut a bs k => if in_bounds a (a + zlen bs) f then puts k (splice a bs f) else (f, PRet Panic)
  | _ => (f, p)
  end.

(** The program after the reads at its front. *)
Fixpoint reads {A} (p : prog A) (f : list byte) : prog A :=
  match p with
  | PGet a n acc k =>
    if in_bounds a (a + Z.of_nat n) f then reads (k (acc ++ slice a (Z.of_nat n) f)) f else PRet Panic
  | _ => p
  end.

(** These reads, and these writes, stay within [R]. *)
Fixpoint reads_within {A} (R : Z → Prop) (p : prog A) (f : list byte) : Prop :=
  match p with
  | PGet a n acc k =>
    in_bounds a (a + Z.of_nat n) f = true ∧ (∀ i, a ≤ i < a + Z.of_nat n → R i) ∧
    reads_within R (k (acc ++ slice a (Z.of_nat n) f)) f
  | _ => True
  end.

Fixpoint puts_within {A} (R : Z → Prop) (p : prog A) : Prop :=
  match p with
  | PPut a bs k => (∀ i, a ≤ i < a + zlen bs → R i) ∧ puts_within R k
  | _ => True
  end.

(** Two files that agree on [R]. *)
Definition agree (R : Z → Prop) (f f' : list byte) : Prop :=
  zlen f' = zlen f ∧ ∀ i, 0 ≤ i → R i → f' !! Z.to_nat i = f !! Z.to_nat i.

Lemma agree_refl R f : agree R f f.
Proof. done. Qed.

Lemma agree_mono (R R' : Z → Prop) f f' : (∀ i, R' i → R i) → agree R f f' → agree R' f f'.
Proof. intros HR [? Ha]. split; [done|]. auto. Qed.

Lemma agree_slice R f f' a n :
  agree R f f' → 0 ≤ a → 0 ≤ n → (∀ i, a ≤ i < a + n → R i) → slice a n f' = slice a n f.
Proof.
  intros [_ Ha] ? ? HR. apply slice_ext; [done..|]. intros i Hi.
  rewrite <- (Nat2Z.id i). apply Ha; [lia|]. apply HR. lia.
Qed.

Lemma agree_splice R f a bs :
  0 ≤ a → a + zlen bs ≤ zlen f → (∀ i, a ≤ i < a + zlen bs → ¬ R i) → agree R f (splice a bs f).
Proof.
  intros Ha Hb HR. split; [by apply zlen_splice|]. intros i Hi HRi. apply lookup_splice_out; [done..|].
  destruct (decide (a ≤ i < a + zlen bs)) as [Hin|]; [by apply HR in Hin|]. lia.
Qed.

(** What a program reads next does not depend on the rest of the file. *)
Lemma reads_agree {A} R (p : prog A) f f' :
  agree R f f' → reads_within R p f → reads p f' = reads p f ∧ reads_within R p f'.
Proof.
  intros Ha. induction p as [r|off k IH|off v k IH|a bs k IH|a n acc k IH]; try done. cbn.
  intros (Hb&HR&Hk). pose proof (in_bounds_inv _ _ _ Hb).
  rewrite (agree_slice R f f' a (Z.of_nat n)), Hb by (done || lia).
  replace (in_bounds a (a + Z.of_nat n) f') with true
    by (symmetry; apply in_bounds_true; [lia|]; destruct Ha as [-> _]; lia).
  destruct (IH _ Hk). done.
Qed.

(** An access of a reading program. *)
Lemma reads_access {A} R a n acc (k : list byte → prog A) f :
  reads_within R (PGet a n acc k) f →
  ∃ p', access (PGet a n acc k) f = Some (p', f) ∧ reads p' f = reads (PGet a n acc k) f ∧
    reads_within R p' f.
Proof.
  intros (Hb&HR&Hk). pose proof (in_bounds_inv _ _ _ Hb). cbn [access reads]. rewrite Hb.
  destruct n as [|n].
  - exists (k acc). change (slice a (Z.of_nat 0) f) with (@nil byte) in *. by rewrite app_nil_r in *.
  - eexists. split; [done|]. cbn [reads reads_within].
    rewrite in_bounds_true by lia. rewrite <- app_assoc, <- slice_cons by lia.
    split_and!; [done..| |done]. intros i Hi. apply HR. lia.
Qed.

(** An access of a writing program. *)
Lemma puts_access {A} R a bs (k : prog A) f g p :
  puts_within R (PPut a bs k) → puts (PPut a bs k) f = (g, p) → p ≠ PRet Panic →
  ∃ p' f', access (PPut a bs k) f = Some (p', f') ∧ puts p' f' = (g, p) ∧ puts_within R p' ∧
    ∀ R' : Z → Prop, (∀ i, R' i → ¬ R i) → agree R' f f'.
Proof.
  intros [HR Hk] Hp Hne. cbn [puts] in Hp. cbn [access].
  destruct (in_bounds a (a + zlen bs) f) eqn:Hb; [|by simplify_eq].
  pose proof (in_bounds_inv _ _ _ Hb). destruct bs as [|b bs].
  - exists k, f. rewrite <- Hp. split_and!; try done. f_equal. unfold splice.
    cbn. by rewrite Nat.add_0_r, take_drop.
  - pose proof (zlen_cons b bs) as Hz. pose proof (zlen_nonneg bs).
    exists (PPut (a + 1) bs k), (splice a [b] f). split; [done|]. cbn [puts puts_within].
    assert (zlen (splice a [b] f) = zlen f) as Hl by (apply zlen_splice; rewrite ?zlen_cons, ?zlen_nil; lia).
    rewrite in_bounds_true by lia. rewrite <- splice_cons by lia. split_and!; try done.
    + intros i Hi. apply HR. lia.
    + intros R' HR'. apply agree_splice; [lia|rewrite zlen_cons, zlen_nil; lia|].
      intros i Hi Hi'. rewrite zlen_cons, zlen_nil in Hi. apply (HR' i Hi'), HR. lia.
Qed.

(** Writes into a file that agrees with another one leave files that agree. *)
Lemma puts_agree {A} (R : Z → Prop) (p : prog A) f f' :
  agree R f f' → (puts p f').2 = (puts p f).2 ∧ agree R (puts p f).1 (puts p f').1.
Proof.
  revert f f'. induction p as [r|off k IH|off v k IH|a bs k IH|a n acc k IH]; intros f f' Ha; try done.
  cbn [puts]. destruct (in_bounds a (a + zlen bs) f) eqn:Hb.
  - pose proof (in_bounds_inv _ _ _ Hb).
    replace (in_bounds a (a + zlen bs) f') with true by (destruct Ha as [Hl _]; unfold in_bounds in *; by rewrite Hl).
    apply IH. destruct Ha as [Hl Ha]. split; [rewrite !zlen_splice by lia; done|]. intros i Hi HR.
    destruct (decide (a ≤ i < a + zlen bs)).
    + rewrite !lookup_splice_in by lia. done.
    + rewrite !lookup_splice_out by lia. auto.
  - replace (in_bounds a (a + zlen bs) f') with false; [done|].
    destruct Ha as [Hl _]. unfold in_bounds in *. by rewrite Hl.
Qed.

(** ** The two processes *)

(** The shared file, the append and the pop under way, and what the completed
    calls returned: acknowledged and popped payloads. *)
Record shared := mkShared {
  c_file : list byte;
  c_append : option (list byte * prog ());
  c_pop : option (prog (option (list byte)));
  c_acked : list (list byte);
  c_popped : list (list byte) }.

Section concurrent.
Context (capacity : Z).

Inductive cstep : shared → shared → Prop :=
| cs_append f c acked popped payload :
    zlen payload ≤ maxPayload →
    cstep (mkShared f None c acked popped)
          (mkShared f (Some (payload, Append_prog capacity payload)) c acked popped)
| cs_producer f payload p c acked popped p' f' :
    access p f = Some (p', f') →
    cstep (mkShared f (Some (payload, p)) c acked popped) (mkShared f' (Some (payload, p')) c acked popped)
| cs_acked f payload c acked popped :
    cstep (mkShared f (Some (payload, PRet (Done tt))) c acked popped)
          (mkShared f None c (acked ++ [payload]) popped)
| cs_refused f payload e c acked popped :
    cstep (mkShared f (Some (payload, PRet (Fail e))) c acked popped) (mkShared f None c acked popped)
| cs_pop f a acked popped :
    cstep (mkShared f a None acked popped) (mkShared f a (Some (Pop_prog 2 capacity)) acked popped)
| cs_consumer f a p acked popped p' f' :
    access p f = Some (p', f') →
    cstep (mkShared f a (Some p) acked popped) (mkShared f' a (Some p') acked popped)
| cs_popped f a payload acked popped :
    cstep (mkShared f a (Some (PRet (Done (Some payload)))) acked popped)
          (mkShared f a None acked (popped ++ [payload]))
| cs_empty f a acked popped :
    cstep (mkShared f a (Some (PRet (Done None))) acked popped) (mkShared f a None acked popped).

(** The addresses of the positions from [p] to [p']. *)
Definition region (p p' : Z) (i : Z) : Prop := ∃ x, p ≤ x < p' ∧ i = headerSize + x mod capacity.

(** *** The invariant *)

(** An append under way, with the queue from [H] to [T]: it is about to load
    the head; it has loaded a head that may be old by now; it writes its entry
    into the free region; or it has returned. *)
Inductive append_ok (f : list byte) (H T : Z) (payload : list byte) : prog () → Prop :=
| ao_start : append_ok f H T payload (Append_prog capacity payload)
| ao_loaded H0 :
    0 ≤ H0 ≤ H → T ≤ H0 + capacity → entry_size payload ≤ capacity →
    append_ok f H T payload (PLoad64 tailOff (λ tail, append_loaded capacity payload (u64 H0) tail))
| ao_writing p g T' :
    puts p f = (g, PStore64 tailOff (u64 T') (PRet (Done tt))) → puts_within (region T T') p →
    layout capacity g T T' [payload] → (8 | T') → T < T' → T' ≤ H + capacity →
    append_ok f H T payload p
| ao_done : append_ok f H T payload (PRet (Done tt))
| ao_full : append_ok f H T payload (PRet (Fail ErrRingFull))
| ao_large : append_ok f H T payload (PRet (Fail ErrPayloadTooLarge)).

(** A pop under way: it is about to load the tail, with an iteration to spare
    when a skip marker may come; it has loaded a tail that may be old by now;
    it reads the front of the queue and will advance the head over it, with the
    payload, or over a skip marker; or it has returned. *)
Inductive pop_ok (f : list byte) (H T : Z) (q : list (list byte)) : prog (option (list byte)) → Prop :=
| po_start : pop_ok f H T q (Pop_prog 2 capacity)
| po_again : H mod capacity = 0 → q ≠ [] → pop_ok f H T q (Pop_prog 1 capacity)
| po_loaded fuel T0 :
    H ≤ T0 ≤ T → (fuel = 1%nat ∨ fuel = 0%nat ∧ H mod capacity = 0 ∧ H < T0) →
    pop_ok f H T q (PLoad64 headOff (λ head,
      pop_loaded capacity (Pop_prog fuel capacity) (u64 T0) head))
| po_entry p H' payload q' :
    reads p f = PStore64 headOff (u64 H') (PRet (Done (Some payload))) → reads_within (region H T) p f →
    q = payload :: q' → layout capacity f H' T q' → (8 | H') → H ≤ H' →
    pop_ok f H T q p
| po_skip p H' :
    reads p f = PStore64 headOff (u64 H') (Pop_prog 1 capacity) → reads_within (region H T) p f →
    q ≠ [] → layout capacity f H' T q → (8 | H') → H ≤ H' → H' mod capacity = 0 →
    pop_ok f H T q p
| po_done payload : pop_ok f H T q (PRet (Done (Some payload)))
| po_none : pop_ok f H T q (PRet (Done None)).

(** The payload of an append that is published and not acknowledged yet, and of
    a pop that is taken and not returned yet. *)
Definition published (a : option (list byte * prog ())) : list (list byte) :=
  match a with Some (payload, PRet (Done _)) => [payload] | _ => [] end.
Definition taken (c : option (prog (option (list byte)))) : list (list byte) :=
  match c with Some (PRet (Done (Some payload))) => [payload] | _ => [] end.

Definition cinv (x : shared) : Prop := ∃ H T q,
  ring_wf capacity (c_file x) H T q ∧
  (∀ payload p, c_append x = Some (payload, p) →
     zlen payload ≤ maxPayload ∧ append_ok (c_file x) H T payload p) ∧
  (∀ p, c_pop x = Some p → pop_ok (c_file x) H T q p) ∧
  c_acked x ++ published (c_append x) = c_popped x ++ taken (c_pop x) ++ q.

(** *** Regions *)

Lemma region_data p p' i : 0 < capacity → region p p' i → headerSize ≤ i < headerSize + capacity.
Proof. intros Hc (x&_&->). pose proof (Z.mod_pos_bound x capacity Hc). lia. Qed.

Lemma region_disjoint H T T' i : 0 < capacity → T' ≤ H + capacity → region H T i → ¬ region T T' i.
Proof.
  intros Hc HT (x&Hx&->) (y&Hy&He). apply (mod_ne x y capacity); lia.
Qed.

Lemma region_mono H H' T T' i : H' ≤ H → T ≤ T' → region H T i → region H' T' i.
Proof. intros ? ? (x&?&->). exists x. split; [lia|done]. Qed.

(** Bytes before the boundary. *)
Lemma region_run p p' a n :
  0 < capacity → p mod capacity + n ≤ capacity → p + n ≤ p' →
  headerSize + p mod capacity ≤ a < headerSize + p mod capacity + n → region p p' a.
Proof.
  intros Hc Hb Hp Ha. exists (p + (a - headerSize - p mod capacity)). split; [lia|].
  rewrite mod_add_small; lia.
Qed.

(** A file that agrees on the occupied region and on the cursors. *)
Lemma wf_agree f f' H T q :
  ring_wf capacity f H T q → agree (region H T) f f' →
  slice headOff 8 f' = slice headOff 8 f → slice tailOff 8 f' = slice tailOff 8 f →
  ring_wf capacity f' H T q.
Proof.
  intros Hwf [Hl Ha] Hh Ht. pose proof (wf_capacity_pos _ _ _ _ _ Hwf) as Hpos. pose proof Hwf as [Hcap ?????????].
  constructor; try done; try congruence.
  eapply layout_agree; [done|apply Hcap|done| |done].
  intros x Hx. pose proof (Z.mod_pos_bound x capacity Hpos). unfold headerSize in *. symmetry.
  apply Ha; [lia|]. by exists x.
Qed.

(** The tail moves over an entry that has been written. *)
Lemma publish_wf f H T T' q payload :
  ring_wf capacity f H T q → layout capacity f T T' [payload] → T ≤ T' → T' ≤ H + capacity → (8 | T') →
  cursor_ok capacity T' →
  ring_wf capacity (splice tailOff (le_bytes 8 (u64 T')) f) H T' (q ++ [payload]).
Proof.
  intros Hwf Hl ? ? ? ?. pose proof (wf_capacity_pos _ _ _ _ _ Hwf) as Hpos.
  destruct Hwf as [Hcap Hlen Hhead Htail H8 T8 Hord Hused Hcur Hlay].
  assert (headerSize = 64) as Hh by done. assert (headOff = 16) as Hho by done.
  assert (tailOff = 24) as Hto by done. pose proof Hcap as (Hc8&Hmin&?). unfold minCapacity in *.
  pose proof (u64_range T'). constructor; try done; try lia.
  - zl.
  - by rewrite slice_splice_other by zl.
  - change 8 with (zlen (le_bytes 8 (u64 T'))) at 1. rewrite slice_splice_same by zl.
    rewrite le_val_le_bytes. by apply Z.mod_small.
  - eapply layout_agree; [done|done|done| |by eapply layout_app].
    intros x Hx. pose proof (Z.mod_pos_bound x capacity Hpos). by rewrite lookup_splice_out by zl.
Qed.

(** *** The consumer *)

(** The reads of an iteration at an entry. *)
Lemma pop_entry_reads f H T payload q' again T0 :
  ring_wf capacity f H T (payload :: q') → H < T0 → T0 ≤ T →
  zlen payload ≤ maxPayload → H mod capacity + entry_size payload ≤ capacity →
  slice (headerSize + H mod capacity) (8 + zlen payload) f = frame payload →
  layout capacity f (H + entry_size payload) T q' →
  let p := pop_loaded capacity again (u64 T0) (u64 H) in
  reads p f = PStore64 headOff (u64 (H + entry_size payload)) (PRet (Done (Some payload))) ∧
  reads_within (region H T) p f.
Proof.
  intros Hwf Hlt HT0 Hp Hb Hf Hl. cbv zeta. pose proof (entry_size_spec _ Hp) as [Hes _].
  pose proof (zlen_nonneg payload). pose proof (wf_capacity_pos _ _ _ _ _ Hwf) as Hpos.
  pose proof (Z.mod_pos_bound H capacity Hpos). pose proof (layout_le _ _ _ _ _ Hpos Hl) as Hle.
  pose proof (cursor_mod _ _ _ _ _ Hwf H) as Hcm.
  destruct Hwf as [Hcap Hlen Hhead Htail H8 T8 Hord Hused Hcur _].
  specialize (Hcm ltac:(lia)). pose proof (base_small _ (H mod capacity) Hcap ltac:(lia)) as Hbase.
  destruct Hcap as (Hc8&Hmin&Hmax).
  destruct (frame_fields (headerSize + H mod capacity) payload f) as (Hf1&Hf2&Hf3);
    [unfold headerSize; lia|done|].
  assert (headerSize = 64) as Hh by done. unfold maxInt64, maxPayload in *.
  assert (∀ i, headerSize + H mod capacity ≤ i < headerSize + H mod capacity + (8 + zlen payload) → region H T i)
    as Hreg by (intros i Hi; eapply (region_run H T i (8 + zlen payload)); lia).
  assert (u64 H ≠ u64 T0) as Hne by (intros He; apply (mod_ne H T0 (2 ^ 64)); [lia|done]).
  unfold pop_loaded. rewrite (proj2 (Z.eqb_neq _ _) Hne), Hcm, Hbase.
  unfold Get32. cbn [reads reads_within app].
  change (Z.of_nat 4) with 4. rewrite !in_bounds_true by lia. rewrite !Hf1, le_val_u32 by lia.
  rewrite (proj2 (Z.eqb_neq (zlen payload) skipMarker)) by (unfold skipMarker; lia).
  rewrite (proj2 (Z.ltb_ge maxPayload _)) by (unfold maxPayload; lia).
  rewrite (u64_small (8 + zlen payload)), (u64_small (capacity - _)) by lia.
  change (alignUp (8 + zlen payload)) with (entry_size payload).
  rewrite (proj2 (Z.ltb_ge _ (entry_size payload))) by lia.
  cbn [reads reads_within app]. change (Z.of_nat 4) with 4. rewrite !Z2Nat.id, !in_bounds_true by lia.
  pose proof (crc32_range payload). rewrite !Hf2, !Hf3, le_val_u32, Z.eqb_refl by lia.
  cbn [negb reads reads_within]. rewrite u64_add_l. split_and!; try done; intros i Hi; apply Hreg; lia.
Qed.

(** The read of an iteration at a skip marker. *)
Lemma pop_skip_reads f H T q again T0 :
  ring_wf capacity f H T q → H < T0 → T0 ≤ T → 8 ≤ T - H → slice (headerSize + H mod capacity) 4 f = le_bytes 4 skipMarker →
  let p := pop_loaded capacity again (u64 T0) (u64 H) in
  reads p f = PStore64 headOff (u64 (H + (capacity - H mod capacity))) again ∧
  reads_within (region H T) p f.
Proof.
  intros Hwf Hlt HT0 HT Hf. cbv zeta. pose proof (wf_capacity_pos _ _ _ _ _ Hwf) as Hpos.
  pose proof (Z.mod_pos_bound H capacity Hpos). pose proof (cursor_mod _ _ _ _ _ Hwf H) as Hcm.
  destruct Hwf as [Hcap Hlen Hhead Htail H8 T8 Hord Hused Hcur _].
  specialize (Hcm ltac:(lia)). pose proof (base_small _ (H mod capacity) Hcap ltac:(lia)) as Hbase.
  destruct Hcap as (Hc8&Hmin&Hmax). pose proof (space_ge8 capacity H Hc8 H8 Hpos).
  assert (headerSize = 64) as Hh by done. unfold maxInt64 in *.
  assert (u64 H ≠ u64 T0) as Hne by (intros He; apply (mod_ne H T0 (2 ^ 64)); [lia|done]).
  unfold pop_loaded. rewrite (proj2 (Z.eqb_neq _ _) Hne), Hcm, Hbase.
  unfold Get32. cbn [reads reads_within app]. change (Z.of_nat 4) with 4.
  rewrite !in_bounds_true by lia. rewrite !Hf.
  change (le_val (le_bytes 4 skipMarker) =? skipMarker) with true. cbv iota. cbn [reads reads_within].
  rewrite (u64_small (capacity - _)), u64_add_l by lia.
  split_and!; try done. intros i Hi. eapply (region_run H T i 4); lia.
Qed.

(** An iteration that has loaded both cursors. *)
Lemma pop_loaded_ok f H T q fuel T0 :
  ring_wf capacity f H T q → H ≤ T0 ≤ T → (fuel = 1%nat ∨ fuel = 0%nat ∧ H mod capacity = 0 ∧ H < T0) →
  pop_ok f H T q (pop_loaded capacity (Pop_prog fuel capacity) (u64 T0) (u64 H)).
Proof.
  intros Hwf HT0 Hfuel. destruct (decide (H = T0)) as [->|Hne].
  { unfold pop_loaded. rewrite Z.eqb_refl. constructor. }
  pose proof (wf_capacity_pos _ _ _ _ _ Hwf) as Hpos. pose proof (wf_layout _ _ _ _ _ Hwf) as Hl.
  inversion Hl as [p|p p' payload q' Hz Hb Hf Hl'|p p' payload q' Hm Hf Hl']; subst; [lia| |].
  - destruct (pop_entry_reads f H T payload q' (Pop_prog fuel capacity) T0) as [Hr Hw]; try done; [lia..|].
    pose proof (entry_size_spec _ Hz) as [? ?]. pose proof (zlen_nonneg payload).
    eapply po_entry; [exact Hr|exact Hw|done|exact Hl'| |lia].
    apply Z.divide_add_r; [apply Hwf|done].
  - destruct Hfuel as [->|(_&?&_)]; [|done]. pose proof (Z.mod_pos_bound H capacity Hpos).
    destruct (wf_cap _ _ _ _ _ Hwf) as (Hc8&_). pose proof (space_ge8 capacity H Hc8 (wf_H8 _ _ _ _ _ Hwf) Hpos).
    pose proof (layout_le _ _ _ _ _ Hpos Hl').
    destruct (pop_skip_reads f H T _ (Pop_prog 1 capacity) T0 Hwf) as [Hr Hw]; try done; [lia..|].
    eapply po_skip; [exact Hr|exact Hw|done|exact Hl'| |lia|by apply mod_to_boundary].
    apply Z.divide_add_r; [apply Hwf|]. apply Z.divide_sub_r; [done|]. apply divide_mod; [apply Hwf|done].
Qed.
(** A pop under way is not disturbed by what the producer does: it changes no
    byte of the occupied region and appends to the queue. *)
Lemma pop_ok_frame f f' H T T' q new p :
  ring_wf capacity f H T q → agree (region H T) f f' → T ≤ T' → layout capacity f' T T' new →
  pop_ok f H T q p → pop_ok f' H T' (q ++ new) p.
Proof.
  intros Hwf Ha HT Hnew Hp. pose proof (wf_capacity_pos _ _ _ _ _ Hwf) as Hpos.
  destruct (wf_cap _ _ _ _ _ Hwf) as (Hc8&_).
  assert (∀ H' q', layout capacity f H' T q' → (8 | H') → H ≤ H' → layout capacity f' H' T' (q' ++ new)) as Hlay.
  { intros H' q' Hl H8 HH. eapply layout_app; [|exact Hnew]. eapply layout_agree; [done..| |exact Hl].
    intros x Hx. pose proof (Z.mod_pos_bound x capacity Hpos). destruct Ha as [_ Ha]. symmetry.
    apply Ha; [unfold headerSize; lia|]. exists x. split; [lia|done]. }
  assert (∀ (p : prog (option (list byte))), reads_within (region H T) p f →
    reads p f' = reads p f ∧ reads_within (region H T') p f') as Hreads.
  { intros p' Hw. destruct (reads_agree _ _ _ _ Ha Hw) as [Hr Hw']. split; [done|].
    clear -Hw' HT. induction p' as [r|off k IH|off v k IH|a bs k IH|a n acc k IH]; try done.
    destruct Hw' as (?&HR&Hk). split_and!; [done| |by apply IH].
    intros i Hi. eapply region_mono; [..|by apply HR]; lia. }
  destruct Hp as [|Hm Hq|fuel T0 HT0 Hfuel|p H' payload q' Hr Hw -> Hl H8 HH|p H' Hr Hw Hq Hl H8 HH Hm|payload|].
  - constructor.
  - constructor; [done|]. by destruct q.
  - apply po_loaded; [lia|done].
  - destruct (Hreads p Hw) as [Hr' Hw']. eapply (po_entry _ _ _ _ p H' payload (q' ++ new)); try done; [congruence|auto].
  - destruct (Hreads p Hw) as [Hr' Hw']. eapply (po_skip _ _ _ _ p H'); try done; [congruence|by destruct q|auto].
  - constructor.
  - constructor.
Qed.

(** *** The producer *)

(** The file after the writes of an append, before its tail is stored. *)
Definition written_file (T : Z) (payload : list byte) (f : list byte) : list byte :=
  let skip := capacity - T mod capacity <? entry_size payload in
  let f1 := if skip then splice (headerSize + T mod capacity)
                           (le_bytes 4 skipMarker ++ le_bytes 4 0) f else f in
  splice (headerSize + (if skip then 0 else T mod capacity)) (frame payload) f1.

(** The writes of one entry. *)
Lemma puts_entry (base : Z) payload (k : prog ()) f :
  0 ≤ base → base + 8 + zlen payload ≤ zlen f →
  puts (Put32 base (zlen payload) (Put32 (base + 4) (crc32_checksum payload) (PPut (base + 8) payload k))) f =
  puts k (splice base (frame payload) f).
Proof.
  intros. pose proof (zlen_nonneg payload). unfold Put32. cbn [puts].
  rewrite !zlen_le_bytes, !in_bounds_true by zl. f_equal. unfold frame.
  do 2 rewrite <- splice_adjacent by zl.
  rewrite !zlen_le_bytes. by replace (base + 8) with (base + Z.of_nat 4 + Z.of_nat 4) by lia.
Qed.

Lemma puts_skip (base : Z) (k : prog ()) f :
  0 ≤ base → base + 8 ≤ zlen f →
  puts (Put32 base skipMarker (Put32 (base + 4) 0 k)) f =
  puts k (splice base (le_bytes 4 skipMarker ++ le_bytes 4 0) f).
Proof.
  intros. unfold Put32. cbn [puts]. rewrite !zlen_le_bytes, !in_bounds_true by zl.
  by rewrite <- splice_adjacent by zl.
Qed.

(** An append that has loaded both cursors, the head perhaps long ago. *)
Lemma append_loaded_ok f H T q H0 payload :
  ring_wf capacity f H T q → zlen payload ≤ maxPayload → 0 ≤ H0 ≤ H → T ≤ H0 + capacity →
  entry_size payload ≤ capacity →
  append_ok f H T payload (append_loaded capacity payload (u64 H0) (u64 T)).
Proof.
  intros Hwf Hp HH0 HT0 Hfit. pose proof (wf_capacity_pos _ _ _ _ _ Hwf) as Hpos.
  pose proof (zlen_nonneg payload) as Hp0. pose proof (entry_size_spec _ Hp) as [Hes He8].
  pose proof (Z.mod_pos_bound T capacity Hpos) as Hm.
  pose proof (cursor_mod _ _ _ _ _ Hwf T) as Hcm. pose proof (space_ge8 capacity T) as Hs8.
  pose proof (needed_bytes_bounds _ _ _ _ _ Hwf payload Hp Hfit) as (Hn8&Hnd&_).
  pose proof (λ Hroom, appended_file_new _ _ _ _ _ Hwf payload Hp Hfit Hroom) as Hnew.
  pose proof Hwf as [Hcap Hlen _ _ H8 T8 Hord Hused _ _].
  pose proof (base_small capacity (T mod capacity) Hcap Hm) as Hb.
  pose proof (base_small capacity 0 Hcap ltac:(lia)) as Hb0.
  specialize (Hcm ltac:(lia)). specialize (Hs8 (proj1 Hcap) T8 Hpos).
  destruct Hcap as (Hc8&Hmin&Hmax). unfold minCapacity, maxInt64 in *. assert (headerSize = 64) as Hh by done.
  unfold maxPayload in Hp. unfold append_loaded. rewrite (u32_small (zlen payload)) by lia.
  rewrite (u64_small (8 + zlen payload)) by lia. change (alignUp (8 + zlen payload)) with (entry_size payload).
  assert (u64 (u64 T - u64 H0) = T - H0) as -> by (rewrite u64_sub; apply u64_small; lia).
  rewrite Hcm, (u64_small (capacity - (T - H0))), (u64_small (capacity - T mod capacity)) by lia.
  rewrite (u64_small (capacity - T mod capacity + entry_size payload)) by lia.
  fold (needed_bytes capacity T payload). destruct (Z.ltb_spec (capacity - (T - H0)) (needed_bytes capacity T payload));
    [constructor|].
  replace (take (Z.to_nat (zlen payload)) payload) with payload by (unfold zlen; by rewrite Nat2Z.id, firstn_all).
  specialize (Hnew ltac:(lia)).
  assert (∀ a, headerSize ≤ a → a < headerSize + capacity →
    appended_file capacity T payload f !! Z.to_nat a = written_file T payload f !! Z.to_nat a) as Hag.
  { intros a ? ?. unfold appended_file, written_file. apply lookup_splice_out; unfold tailOff; [lia| |zl].
    destruct (Z.ltb_spec (capacity - T mod capacity) (entry_size payload)); zl. }
  assert (layout capacity (written_file T payload f) T (T + needed_bytes capacity T payload) [payload]) as Hlay.
  { eapply layout_agree; [done..| |exact Hnew]. intros x Hx. pose proof (Z.mod_pos_bound x capacity Hpos).
    apply Hag; lia. }
  eapply (ao_writing _ _ _ _ _ (written_file T payload f) (T + needed_bytes capacity T payload));
    [| |exact Hlay|by apply Z.divide_add_r|lia|lia]; unfold written_file, needed_bytes;
    destruct (Z.ltb_spec (capacity - T mod capacity) (entry_size payload)); rewrite ?Hb, ?Hb0.
  - rewrite puts_skip, puts_entry by zl. cbn [puts]. by rewrite u64_add_l, <- (Z.add_assoc (u64 T)), u64_add_l.
  - rewrite puts_entry by lia. cbn [puts]. by rewrite u64_add_l.
  - unfold Put32. cbn [puts_within]. rewrite !zlen_le_bytes. split_and!; try done; intros i Hi.
    1-2: eapply (region_run T _ i 8); lia.
    all: exists (T + (capacity - T mod capacity) + (i - 64)); split; [lia|].
    all: rewrite (mod_add_small _ capacity), (mod_to_boundary T capacity Hpos); rewrite ?mod_to_boundary; lia.
  - unfold Put32. cbn [puts_within]. rewrite !zlen_le_bytes. split_and!; try done; intros i Hi;
      eapply (region_run T _ i (entry_size payload)); lia.
Qed.

(** An append under way is not disturbed by the consumer, which only raises the
    head. *)
Lemma append_ok_frame f f' H H' T q payload p :
  ring_wf capacity f H T q → agree (λ i, headerSize ≤ i) f f' → H ≤ H' →
  append_ok f H T payload p → append_ok f' H' T payload p.
Proof.
  intros Hwf Ha HH Hp. pose proof (wf_capacity_pos _ _ _ _ _ Hwf) as Hpos.
  destruct Hp as [|H0|p g T' Hg Hw Hl H8 HT HT'| | |]; try by constructor.
  - apply ao_loaded; [lia|done..].
  - destruct (puts_agree _ p f f' Ha) as [Hp2 [Hlen Hag]]. rewrite Hg in Hp2, Hlen, Hag. cbn [fst snd] in *.
    apply (ao_writing _ _ _ _ p (puts p f').1 T'); try done; [by rewrite <- Hp2, <- surjective_pairing| |lia].
    eapply layout_agree; [done|apply (wf_cap _ _ _ _ _ Hwf)|apply (wf_T8 _ _ _ _ _ Hwf)| |exact Hl].
    intros x Hx. pose proof (Z.mod_pos_bound x capacity Hpos). unfold headerSize in *. symmetry.
    apply Hag; lia.
Qed.

(** *** Preservation *)

Context (Hdiv : (capacity | 2 ^ 64)).

(** One access of the producer. *)
Lemma producer_step f H T q payload p p' f' :
  ring_wf capacity f H T q → zlen payload ≤ maxPayload → append_ok f H T payload p → access p f = Some (p', f') →
  (agree (region H T) f f' ∧ ring_wf capacity f' H T q ∧ append_ok f' H T payload p' ∧
   published (Some (payload, p')) = []) ∨
  (∃ T', agree (region H T) f f' ∧ T ≤ T' ∧ layout capacity f' T T' [payload] ∧
     ring_wf capacity f' H T' (q ++ [payload]) ∧ p' = PRet (Done tt)).
Proof.
  intros Hwf Hz Hp Hacc. pose proof (wf_capacity_pos _ _ _ _ _ Hwf) as Hpos.
  pose proof (wf_order _ _ _ _ _ Hwf) as Hord. pose proof (wf_used _ _ _ _ _ Hwf) as Hused.
  destruct Hp as [|H0 HH0 HT0 Hfit|p g T' Hg Hw Hl H8 HT HT'| | |]; try done.
  - left. unfold Append_prog in *. destruct (maxPayload <? u32 (zlen payload)); [done|].
    destruct (Z.ltb_spec capacity (alignUp (u64 (8 + u32 (zlen payload))))) as [|Hfit]; [done|].
    cbn in Hacc. injection Hacc as <- <-. rewrite (wf_head _ _ _ _ _ Hwf). split_and!; try done.
    apply ao_loaded; [lia..|]. unfold entry_size. pose proof (zlen_nonneg payload). unfold maxPayload in Hz.
    rewrite (u32_small (zlen payload)), u64_small in Hfit by lia. done.
  - left. cbn in Hacc. injection Hacc as <- <-. rewrite (wf_tail _ _ _ _ _ Hwf).
    pose proof (append_loaded_ok f H T q H0 payload Hwf Hz HH0 HT0 Hfit) as Hok. split_and!; try done.
    unfold append_loaded, Put32. destruct (_ <? _); [done|]. by destruct (_ <? _).
  - destruct p as [r|off k|off v k|a bs k|a n acc k]; try done.
    + cbn in Hg, Hacc. injection Hg as <- -> -> ->. injection Hacc as <- <-. right. exists T'.
      assert (agree (region H T) f (splice tailOff (le_bytes 8 (u64 T')) f)) as Hag.
      { destruct (wf_cap _ _ _ _ _ Hwf) as (_&?&_). pose proof (wf_len _ _ _ _ _ Hwf) as Hlen.
        unfold minCapacity, headerSize in *. apply agree_splice; unfold tailOff; [lia|zl|].
        intros i Hi Hr. apply (region_data _ _ _ Hpos) in Hr. unfold headerSize, tailOff in *.
        rewrite zlen_le_bytes in Hi. lia. }
      split_and!; [done|lia| |apply (publish_wf f H T); [done|done|lia|done|done|by left]|done].
      destruct (wf_cap _ _ _ _ _ Hwf) as (Hc8&?&_). pose proof (wf_len _ _ _ _ _ Hwf) as Hlen.
      eapply layout_agree; [done|done|apply (wf_T8 _ _ _ _ _ Hwf)| |exact Hl]. unfold minCapacity, headerSize in *.
      intros x Hx. pose proof (Z.mod_pos_bound x capacity Hpos).
      rewrite lookup_splice_out; unfold tailOff; [done|lia|zl|zl].
    + left. destruct (puts_access _ _ _ _ _ _ _ Hw Hg) as (p1&f1&Ha1&Hp1&Hw1&Hag); [done|].
      rewrite Ha1 in Hacc. injection Hacc as <- <-.
      assert (agree (region H T) f f1) as Ha.
      { apply Hag. intros i Hi. by apply (region_disjoint H T T' i Hpos HT'). }
      assert (∀ off, 0 ≤ off → off + 8 ≤ 64 → slice off 8 f1 = slice off 8 f) as Hhdr.
      { intros off ? ?. apply (agree_slice (λ i, i < 64)); [|lia..]. apply Hag. intros i Hi Hr.
        pose proof (region_data _ _ _ Hpos Hr). unfold headerSize in *. lia. }
      split_and!; [done|by apply (wf_agree f); [..|apply Hhdr|apply Hhdr]| |].
      * by apply (ao_writing _ _ _ _ p1 g T').
      * by destruct p1.
Qed.

(** One access of the consumer. *)
Lemma consumer_step f H T q p p' f' :
  ring_wf capacity f H T q → pop_ok f H T q p → access p f = Some (p', f') →
  ∃ H' q', agree (λ i, headerSize ≤ i) f f' ∧ H ≤ H' ∧ ring_wf capacity f' H' T q' ∧
    pop_ok f' H' T q' p' ∧ q = taken (Some p') ++ q' ∧ taken (Some p) = [].
Proof.
  intros Hwf Hp Hacc. pose proof (wf_capacity_pos _ _ _ _ _ Hwf) as Hpos.
  pose proof (wf_order _ _ _ _ _ Hwf) as Hord.
  assert (∀ H', agree (λ i, headerSize ≤ i) f (splice headOff (le_bytes 8 (u64 H')) f)) as Hst.
  { intros H'. destruct (wf_cap _ _ _ _ _ Hwf) as (_&?&_). pose proof (wf_len _ _ _ _ _ Hwf) as Hlen.
    unfold minCapacity, headerSize in *. apply agree_splice; unfold headOff; [lia|zl|].
    intros i Hi ?. rewrite zlen_le_bytes in Hi. lia. }
  destruct Hp as [|Hm Hq|fuel T0 HT0 Hfuel|p H' payload q' Hr Hw -> Hl H8 HH|p H' Hr Hw Hq Hl H8 HH Hm|payload|];
    try done.
  - cbn in Hacc. injection Hacc as <- <-. exists H, q. rewrite (wf_tail _ _ _ _ _ Hwf). split_and!; try done.
    apply (po_loaded f H T q 1 T); [lia|by left].
  - cbn in Hacc. injection Hacc as <- <-. exists H, q. rewrite (wf_tail _ _ _ _ _ Hwf). split_and!; try done.
    apply (po_loaded f H T q 0 T); [lia|right]. split_and!; [done..|]. destruct q as [|payload q']; [done|].
    apply (layout_nonempty capacity f H T payload q' Hpos), Hwf.
  - cbn in Hacc. injection Hacc as <- <-. exists H, q. rewrite (wf_head _ _ _ _ _ Hwf). split_and!; try done.
    + by apply pop_loaded_ok.
    + unfold pop_loaded. by destruct (_ =? _).
  - pose proof (layout_le _ _ _ _ _ Hpos Hl). destruct p as [r|off k|off v k|a bs k|a n acc k]; try done.
    + cbn [reads access] in Hr, Hacc. injection Hr as -> -> ->. injection Hacc as <- <-. exists H', q'.
      split_and!; [apply Hst|done|by eapply advance_wf|constructor|done..].
    + destruct (reads_access _ _ _ _ _ _ Hw) as (p1&Ha1&Hr1&Hw1). rewrite Ha1 in Hacc. injection Hacc as <- <-.
      exists H, (payload :: q'). rewrite Hr in Hr1. split_and!; try done.
      * by apply (po_entry _ _ _ _ p1 H' payload q').
      * by destruct p1.
  - pose proof (layout_le _ _ _ _ _ Hpos Hl). destruct p as [r|off k|off v k|a bs k|a n acc k]; try done.
    + cbn [reads access] in Hr, Hacc. injection Hr as -> -> ->. injection Hacc as <- <-. exists H', q.
      split_and!; [apply Hst|done|by eapply advance_wf|by apply po_again|done..].
    + destruct (reads_access _ _ _ _ _ _ Hw) as (p1&Ha1&Hr1&Hw1). rewrite Ha1 in Hacc. injection Hacc as <- <-.
      exists H, q. rewrite Hr in Hr1. split_and!; try done.
      * by apply (po_skip _ _ _ _ p1 H').
      * by destruct p1.
Qed.

Lemma cinv_step x x' : cinv x → cstep x x' → cinv x'.
Proof.
  intros (H&T&q&Hwf&Ha&Hc&Heq) Hstep.
  destruct Hstep as [f c acked popped payload Hz|f payload p c acked popped p' f' Hacc
    |f payload c acked popped|f payload e c acked popped|f a acked popped|f a p acked popped p' f' Hacc
    |f a payload acked popped|f a acked popped]; cbn [c_file c_append c_pop c_acked c_popped] in *.
  - exists H, T, q. cbn. split_and!; try done.
    + intros ? ? [= <- <-]. split; [done|constructor].
    + rewrite <- Heq. unfold Append_prog. by repeat (dcase; [done|]).
  - destruct (Ha _ _ eq_refl) as [Hz Hok].
    assert (published (Some (payload, p)) = []) as Hpub by (by destruct p as [[[]| |]| | | |]).
    rewrite Hpub, app_nil_r in Heq.
    destruct (producer_step _ _ _ _ _ _ _ _ Hwf Hz Hok Hacc) as [(Hag&Hwf'&Hok'&Hpub')|(T'&Hag&HT&Hl&Hwf'&->)].
    + exists H, T, q. cbn [c_file c_append c_pop c_acked c_popped]. split_and!; [done|by intros ? ? [= <- <-]| |].
      * intros pc Hpc. rewrite <- (app_nil_r q).
        apply (pop_ok_frame f f' H T T q []); [done..|apply layout_nil|by apply Hc].
      * by rewrite Hpub', app_nil_r.
    + exists H, T', (q ++ [payload]). cbn [c_file c_append c_pop c_acked c_popped].
      split_and!; [done|intros ? ? [= <- <-]; split; [done|constructor]| |].
      * intros pc Hpc. eapply pop_ok_frame; [done..|by apply Hc].
      * cbn. rewrite Heq. by rewrite !app_assoc.
  - exists H, T, q. cbn in *. rewrite app_nil_r. by split_and!.
  - exists H, T, q. cbn in *. by split_and!.
  - exists H, T, q. cbn in *. split_and!; try done. intros ? [= <-]. constructor.
  - destruct (consumer_step _ _ _ _ _ _ _ Hwf (Hc _ eq_refl) Hacc) as (H'&q'&Hag&HH&Hwf'&Hok&Hq&Htk).
    exists H', T, q'. cbn [c_file c_append c_pop c_acked c_popped]. split_and!; [done| |by intros ? [= <-]|].
    + intros payload pa Hpa. destruct (Ha _ _ Hpa) as [Hz Hok']. split; [done|].
      by apply (append_ok_frame f f' H H' T q).
    + rewrite Heq, Htk, Hq. done.
  - exists H, T, q. cbn in *. rewrite <- app_assoc. by split_and!.
  - exists H, T, q. cbn in *. by split_and!.
Qed.

Lemma cinv_steps x x' : cinv x → rtc cstep x x' → cinv x'.
Proof. intros Hx. induction 1; [done|]. eauto using cinv_step. Qed.

Lemma cinv_start f H T q : ring_wf capacity f H T q → cinv (mkShared f None None q []).
Proof. intros Hwf. exists H, T, q. cbn. rewrite app_nil_r. by split_and!. Qed.

(** What the two sides are about to do never touches the same byte. *)
Lemma cinv_race_free x payload a b bs k a' n acc k' :
  cinv x → c_append x = Some (payload, PPut a (b :: bs) k) → c_pop x = Some (PGet a' (S n) acc k') → a ≠ a'.
Proof.
  intros (H&T&q&Hwf&Ha&Hc&_) Hap Hpo. destruct (Ha _ _ Hap) as [_ Hok]. specialize (Hc _ Hpo).
  pose proof (wf_capacity_pos _ _ _ _ _ Hwf) as Hpos.
  assert (∃ T', T' ≤ H + capacity ∧ region T T' a) as (T'&HT'&Hwr).
  { inversion Hok as [Hst| |p g T' Hg Hw Hl H8 HT HT'| | |]; subst.
    - unfold Append_prog in Hst. by repeat (destruct (_ <? _); [done|]).
    - destruct Hw as [Hw _]. exists T'. split; [done|]. apply Hw. rewrite zlen_cons. pose proof (zlen_nonneg bs). lia. }
  assert (region H T a') as Hrd.
  { inversion Hc as [| | |p H' payload' q' Hr Hw|p H' Hr Hw| |]; subst; (apply Hw; lia). }
  intros ->. by apply (region_disjoint H T T' a' Hpos HT' Hrd).
Qed.

(** A finished operation reports no corruption. *)
Lemma cinv_results x :
  cinv x →
  (∀ payload r, c_append x = Some (payload, PRet r) →
     r = Done tt ∨ r = Fail ErrRingFull ∨ r = Fail ErrPayloadTooLarge) ∧
  (∀ r, c_pop x = Some (PRet r) → ∃ o, r = Done o).
Proof.
  intros (H&T&q&Hwf&Ha&Hc&_). split.
  - intros payload r Hap. destruct (Ha _ _ Hap) as [_ Hok].
    inversion Hok as [Hst| |p g T' Hg| | |]; try by auto.
    unfold Append_prog in Hst. repeat (destruct (_ <? _); [injection Hst; auto|]). done.
  - intros r Hpo. specialize (Hc _ Hpo). inversion Hc; try done; by eexists.
Qed.
End concurrent.

(** ** Theorems *)

(** The programs run alone are the operations the rest of the development
    uses. *)
Theorem programs_are_operations capacity payload fuel f :
  solo (Append_prog capacity payload) f = Append capacity payload f ∧
  solo (Pop_prog fuel capacity) f = Pop fuel capacity f.
Proof. split; [apply solo_Append|apply solo_Pop]. Qed.

(** C3: the ring is a FIFO queue between two processes.  Start from a
    well-formed ring (one that [Create] made, or one that a crash left behind)
    of a capacity that divides [2^64], and interleave the single memory
    accesses of a producer that appends and a consumer that pops in any way.
    After every access the file is a well-formed ring, so either process may
    die and be restarted there; the acknowledged payloads, and the one that is
    published and about to be acknowledged, are exactly the popped ones, the
    one taken and about to be returned, and those in the ring, in this order;
    and no operation panics or reports corruption. *)
Theorem concurrent_ring_is_fifo capacity f H T q x :
  (capacity | 2 ^ 64) → ring_wf capacity f H T q →
  rtc (cstep capacity) (mkShared f None None q []) x →
  (∃ H' T' rest, ring_wf capacity (c_file x) H' T' rest ∧
     c_acked x ++ published (c_append x) = c_popped x ++ taken (c_pop x) ++ rest) ∧
  (∀ payload r, c_append x = Some (payload, PRet r) →
     r = Done tt ∨ r = Fail ErrRingFull ∨ r = Fail ErrPayloadTooLarge) ∧
  (∀ r, c_pop x = Some (PRet r) → ∃ o, r = Done o).
Proof.
  intros Hdiv Hwf Hr. pose proof (cinv_steps capacity Hdiv _ _ (cinv_start capacity _ _ _ _ Hwf) Hr) as Hx.
  split; [|by apply (cinv_results capacity)]. destruct Hx as (H'&T'&rest&?&_&_&?). by exists H', T', rest.
Qed.

(** C18: the two processes do not race.  In every interleaving, the byte the
    producer is about to write outside the cursors is never the byte the
    consumer is about to read. *)
Theorem ring_is_race_free capacity f H T q x payload a b bs k a' n acc k' :
  (capacity | 2 ^ 64) → ring_wf capacity f H T q →
  rtc (cstep capacity) (mkShared f None None q []) x →
  c_append x = Some (payload, PPut a (b :: bs) k) → c_pop x = Some (PGet a' (S n) acc k') → a ≠ a'.
Proof.
  intros Hdiv Hwf Hr. apply (cinv_race_free capacity).
  exact (cinv_steps capacity Hdiv _ _ (cinv_start capacity _ _ _ _ Hwf) Hr).
Qed.

(** *** Witnesses *)

(** Schedules: who moves next. *)
Inductive move := MAppend (payload : list byte) | MProducer | MPop | MConsumer.

Definition moves (capacity : Z) (m : move) (x : shared) : option shared :=
  let '(mkShared f a c acked popped) := x in
  match m, a, c with
  | MAppend payload, None, _ =>
    if zlen payload <=? maxPayload
    then Some (mkShared f (Some (payload, Append_prog capacity payload)) c acked popped) else None
  | MProducer, Some (payload, PRet (Done tt)), _ => Some (mkShared f None c (acked ++ [payload]) popped)
  | MProducer, Some (payload, PRet (Fail _)), _ => Some (mkShared f None c acked popped)
  | MProducer, Some (payload, p), _ =>
    '(p', f') ← access p f; Some (mkShared f' (Some (payload, p')) c acked popped)
  | MPop, _, None => Some (mkShared f a (Some (Pop_prog 2 capacity)) acked popped)
  | MConsumer, _, Some (PRet (Done (Some payload))) => Some (mkShared f a None acked (popped ++ [payload]))
  | MConsumer, _, Some (PRet (Done None)) => Some (mkShared f a None acked popped)
  | MConsumer, _, Some p => '(p', f') ← access p f; Some (mkShared f' a (Some p') acked popped)
  | _, _, _ => None
  end.

Fixpoint schedule (capacity : Z) (ms : list move) (x : shared) : option shared :=
  match ms with [] => Some x | m :: ms => moves capacity m x ≫= schedule capacity ms end.

Lemma moves_step capacity m x x' : moves capacity m x = Some x' → cstep capacity x x'.
Proof.
  destruct x as [f a c acked popped], m as [payload| | |]; cbn.
  - destruct a; [done|]. destruct (Z.leb_spec (zlen payload) maxPayload); [|done]. intros [= <-]. by constructor.
  - destruct a as [[payload p]|]; [|done].
    assert (∀ x', (access p f ≫= λ '(p', f'), Some (mkShared f' (Some (payload, p')) c acked popped)) = Some x' →
      cstep capacity (mkShared f (Some (payload, p)) c acked popped) x') as Hacc.
    { intros x1. destruct (access p f) as [[p' f']|] eqn:Hac; [|done]. intros [= <-]. by constructor. }
    destruct p as [[[]| |]| | | |]; try apply Hacc; intros [= <-]; constructor.
  - destruct c; [done|]. intros [= <-]. constructor.
  - destruct c as [p|]; [|done].
    assert (∀ x', (access p f ≫= λ '(p', f'), Some (mkShared f' a (Some p') acked popped)) = Some x' →
      cstep capacity (mkShared f a (Some p) acked popped) x') as Hacc.
    { intros x1. destruct (access p f) as [[p' f']|] eqn:Hac; [|done]. intros [= <-]. by constructor. }
    destruct p as [[[?|]| |]| | | |]; try apply Hacc; intros [= <-]; constructor.
Qed.

Lemma schedule_steps capacity ms x x' : schedule capacity ms x = Some x' → rtc (cstep capacity) x x'.
Proof.
  revert x. induction ms as [|m ms IH]; intros x; cbn; [by intros [= <-]|].
  destruct (moves capacity m x) as [x1|] eqn:Hm; [|done]. intros Hs.
  eapply rtc_l; [by eapply moves_step|by apply IH].
Qed.

Lemma schedule_default capacity ms x d :
  bool_decide (is_Some (schedule capacity ms x)) = true →
  rtc (cstep capacity) x (default d (schedule capacity ms x)).
Proof. intros [x' Hx]%bool_decide_eq_true. rewrite Hx. by apply (schedule_steps capacity ms). Qed.

(** One entry is in the ring; the producer is about to write the next one while
    the consumer is about to read the first. *)
Definition both_moves : list move :=
  MAppend [x61] :: replicate 16 MProducer ++ [MAppend [x62]; MPop; MProducer; MConsumer; MProducer; MConsumer].
Definition both_state : shared :=
  default (mkShared [] None None [] []) (schedule 4096 both_moves (mkShared ring4k None None [] [])).

Lemma both_run : rtc (cstep 4096) (mkShared ring4k None None [] []) both_state.
Proof. apply schedule_default. vm_compute. reflexivity. Qed.

Lemma capacity_divides : (4096 | 2 ^ 64).
Proof. by exists (2 ^ 52). Qed.

Lemma concurrent_ring_is_fifo_witness :
  c_acked both_state = [[x61]] ∧
  ∃ H' T' rest, ring_wf 4096 (c_file both_state) H' T' rest ∧
    c_acked both_state ++ published (c_append both_state) =
    c_popped both_state ++ taken (c_pop both_state) ++ rest.
Proof.
  split; [vm_compute; reflexivity|].
  exact (proj1 (concurrent_ring_is_fifo 4096 ring4k 0 0 [] both_state capacity_divides ring4k_wf both_run)).
Defined.

(** The addresses of the next write and of the next read. *)
Definition next_write (x : shared) : option Z :=
  match c_append x with Some (_, PPut a (_ :: _) _) => Some a | _ => None end.
Definition next_read (x : shared) : option Z :=
  match c_pop x with Some (PGet a (S _) _ _) => Some a | _ => None end.

Lemma next_apart x a a' :
  (∀ payload a b bs k a' n acc k', c_append x = Some (payload, PPut a (b :: bs) k) →
     c_pop x = Some (PGet a' (S n) acc k') → a ≠ a') →
  next_write x = Some a → next_read x = Some a' → a ≠ a'.
Proof.
  unfold next_write, next_read. intros Hx.
  destruct (c_append x) as [[payload [| | |? [|b bs] k|]]|]; try done. intros [= ->].
  destruct (c_pop x) as [[| | | |? [|n] acc k']|]; try done. intros [= ->]. by eapply Hx.
Qed.

Lemma ring_is_race_free_witness :
  next_write both_state = Some 80 ∧ next_read both_state = Some 64 ∧ 80 ≠ 64.
Proof.
  assert (next_write both_state = Some 80) as Hw by (vm_compute; reflexivity).
  assert (next_read both_state = Some 64) as Hr by (vm_compute; reflexivity).
  split; [exact Hw|]. split; [exact Hr|].
  exact (next_apart both_state 80 64 (λ payload a b bs k a' n acc k',
    ring_is_race_free 4096 ring4k 0 0 [] both_state payload a b bs k a' n acc k'
      capacity_divides ring4k_wf both_run) Hw Hr).
Defined.

(** [n] accesses of a program that nobody disturbs. *)
Fixpoint accesses {A} (n : nat) (p : prog A) (f : list byte) : prog A * list byte :=
  match n with
  | O => (p, f)
  | S n => match access p f with Some (p', f') => accesses n p' f' | None => (p, f) end
  end.

Definition ring_ab : list byte :=
  (solo (Append_prog 4096 [x62]) (solo (Append_prog 4096 [x61]) ring4k).2).2.

(** Two consumers break the queue.  One is about to store the head when another
    one pops the two payloads of the ring; its store then moves the head back,
    and the second payload is popped again. *)
Theorem two_consumers_rewind :
  let first := (accesses 14 (Pop_prog 2 4096) ring_ab).1 in
  let f := (solo (Pop_prog 2 4096) (solo (Pop_prog 2 4096) ring_ab).2).2 in
  let f' := (solo first f).2 in
  (solo (Pop_prog 2 4096) f).1 = Done None ∧ (solo first f).1 = Done (Some [x61]) ∧
  (solo (Pop_prog 2 4096) f').1 = Done (Some [x62]).
Proof. vm_compute. done. Qed.
