(* ===== verification/Json.v ===== *)
(** * What the code uses of [encoding/json], [encoding/base64] and [strconv]

    [json.Marshal] of a flat struct (strings, integers, [[]byte]) and
    [json.Unmarshal] into one: the string escaping with HTML escaping on, the
    replacement of invalid UTF-8 by U+FFFD, base64 of byte slices, decimal
    integers; on the way back the full JSON grammar, so that members in any
    order, unknown members, white space and escapes are read as Go reads them.
    The round-trip lemmas at the end are what [Oplog] and [ControlRpc] rely
    on. *)

From S2P Require Import Prelude.

Notation "b =b c" := (Byte.eqb b c) (at level 70).

(** ** UTF-8 ([unicode/utf8]) *)

Definition in_range (lo hi : Z) (b : byte) : bool := (lo <=? Z_of_byte b) && (Z_of_byte b <=? hi).

Definition cont_byte : byte → bool := in_range 0x80 0xBF.

(** The number of bytes of the first rune of [l], 0 when it is not a rune. *)
Definition utf8_len (l : list byte) : nat :=
  match l with
  | [] => 0
  | b0 :: r =>
    if in_range 0 0x7F b0 then 1 else
    match r with
    | [] => 0
    | b1 :: r =>
      if in_range 0xC2 0xDF b0 && cont_byte b1 then 2 else
      match r with
      | [] => 0
      | b2 :: r =>
        if ((in_range 0xE0 0xE0 b0 && in_range 0xA0 0xBF b1)
            || (in_range 0xED 0xED b0 && in_range 0x80 0x9F b1)
            || ((in_range 0xE1 0xEC b0 || in_range 0xEE 0xEF b0) && cont_byte b1))
           && cont_byte b2 then 3 else
        match r with
        | [] => 0
        | b3 :: _ =>
          if ((in_range 0xF0 0xF0 b0 && in_range 0x90 0xBF b1)
              || (in_range 0xF4 0xF4 b0 && in_range 0x80 0x8F b1)
              || (in_range 0xF1 0xF3 b0 && cont_byte b1))
             && cont_byte b2 && cont_byte b3 then 4 else 0
        end
      end
    end
  end%nat.

(** [utf8.AppendRune]. *)
Definition encode_rune (r : Z) : list byte :=
  if r <? 0x80 then [byte_of_Z r] else
  if r <? 0x800 then [byte_of_Z (0xC0 + r / 64); byte_of_Z (0x80 + r mod 64)] else
  if ((0xD800 <=? r) && (r <=? 0xDFFF)) || (0x10FFFF <? r) then [xef; xbf; xbd] else
  if r <? 0x10000 then
    [byte_of_Z (0xE0 + r / 4096); byte_of_Z (0x80 + (r / 64) mod 64); byte_of_Z (0x80 + r mod 64)]
  else
    [byte_of_Z (0xF0 + r / 262144); byte_of_Z (0x80 + (r / 4096) mod 64);
     byte_of_Z (0x80 + (r / 64) mod 64); byte_of_Z (0x80 + r mod 64)].

Definition rune_error : list byte := [xef; xbf; xbd].

(** Every byte that does not start a rune replaced by U+FFFD. *)
Fixpoint to_valid_utf8 (l : list byte) : list byte :=
  match l with
  | [] => []
  | b0 :: l1 =>
    match utf8_len l, l1 with
    | 1%nat, _ => b0 :: to_valid_utf8 l1
    | 2%nat, b1 :: l2 => b0 :: b1 :: to_valid_utf8 l2
    | 3%nat, b1 :: b2 :: l3 => b0 :: b1 :: b2 :: to_valid_utf8 l3
    | 4%nat, b1 :: b2 :: b3 :: l4 => b0 :: b1 :: b2 :: b3 :: to_valid_utf8 l4
    | _, _ => rune_error ++ to_valid_utf8 l1
    end
  end.

(** [utf8.Valid]. *)
Definition utf8_valid (l : list byte) : bool := bool_decide (to_valid_utf8 l = l).

(** ** Marshal: strings *)

Definition hex_digit (n : Z) : byte :=
  if n <? 10 then byte_of_Z (0x30 + n) else byte_of_Z (0x61 + (n - 10)).

(** The escape of an ASCII byte ([appendString] with [escapeHTML]). *)
Definition escape_ascii (b : byte) : list byte :=
  if (b =b x22) || (b =b x5c) then [x5c; b] else
  if b =b x08 then [x5c; x62] else
  if b =b x0c then [x5c; x66] else
  if b =b x0a then [x5c; x6e] else
  if b =b x0d then [x5c; x72] else
  if b =b x09 then [x5c; x74] else
  if in_range 0 0x1F b || (b =b x3c) || (b =b x3e) || (b =b x26) then
    [x5c; x75; x30; x30; hex_digit (Z_of_byte b / 16); hex_digit (Z_of_byte b mod 16)]
  else [b].

Definition is_line_separator (b0 b1 b2 : byte) : bool :=
  (b0 =b xe2) && (b1 =b x80) && ((b2 =b xa8) || (b2 =b xa9)).

Fixpoint quote_body (l : list byte) : list byte :=
  match l with
  | [] => []
  | b0 :: l1 =>
    match utf8_len l, l1 with
    | 1%nat, _ => escape_ascii b0 ++ quote_body l1
    | 2%nat, b1 :: l2 => b0 :: b1 :: quote_body l2
    | 3%nat, b1 :: b2 :: l3 =>
      if is_line_separator b0 b1 b2
      then [x5c; x75; x32; x30; x32; hex_digit (Z_of_byte b2 mod 16)] ++ quote_body l3
      else b0 :: b1 :: b2 :: quote_body l3
    | 4%nat, b1 :: b2 :: b3 :: l4 => b0 :: b1 :: b2 :: b3 :: quote_body l4
    | _, _ => [x5c; x75; x66; x66; x66; x64] ++ quote_body l1
    end
  end.

Definition appendString (s : list byte) : list byte := x22 :: quote_body s ++ [x22].

(** ** Marshal: integers ([strconv.AppendInt], [AppendUint]) *)

Definition digit (n : Z) : byte := byte_of_Z (0x30 + n).

(** Twenty digits are enough for 64 bits. *)
Fixpoint digits (fuel : nat) (n : Z) : list byte :=
  match fuel with
  | O => []
  | S fuel => if n <? 10 then [digit n] else digits fuel (n / 10) ++ [digit (n mod 10)]
  end.

Definition appendInt (n : Z) : list byte :=
  if n <? 0 then x2d :: digits 20 (- n) else digits 20 n.

(** ** Marshal: byte slices ([base64.StdEncoding]) *)

Definition b64_char (n : Z) : byte :=
  if n <? 26 then byte_of_Z (0x41 + n) else
  if n <? 52 then byte_of_Z (0x61 + (n - 26)) else
  if n <? 62 then byte_of_Z (0x30 + (n - 52)) else
  if n =? 62 then x2b else x2f.

Fixpoint base64_encode (l : list byte) : list byte :=
  match l with
  | [] => []
  | [a] =>
    let n := Z_of_byte a * 16 in [b64_char (n / 64); b64_char (n mod 64); x3d; x3d]
  | [a; b] =>
    let n := (Z_of_byte a * 256 + Z_of_byte b) * 4 in
    [b64_char (n / 4096); b64_char ((n / 64) mod 64); b64_char (n mod 64); x3d]
  | a :: b :: c :: l =>
    let n := (Z_of_byte a * 256 + Z_of_byte b) * 256 + Z_of_byte c in
    b64_char (n / 262144) :: b64_char ((n / 4096) mod 64) :: b64_char ((n / 64) mod 64)
    :: b64_char (n mod 64) :: base64_encode l
  end.

(** ** Marshal: flat structs *)

Inductive field :=
| FStr (s : string)
| FInt (n : Z)
| FBool (b : bool)
| FBytes (l : list byte)
| FNull.

Definition marshal_field (f : field) : list byte :=
  match f with
  | FStr s => appendString (bytes_of_string s)
  | FInt n => appendInt n
  | FBool true => [x74; x72; x75; x65]
  | FBool false => [x66; x61; x6c; x73; x65]
  | FBytes l => x22 :: base64_encode l ++ [x22]
  | FNull => [x6e; x75; x6c; x6c]
  end.

Definition marshal_member (m : string * field) : list byte :=
  appendString (bytes_of_string m.1) ++ x3a :: marshal_field m.2.

Fixpoint marshal_members (ms : list (string * field)) : list byte :=
  match ms with
  | [] => []
  | [m] => marshal_member m
  | m :: ms => marshal_member m ++ x2c :: marshal_members ms
  end.

Definition marshal_object (ms : list (string * field)) : list byte :=
  x7b :: marshal_members ms ++ [x7d].

(** ** Unmarshal: strings *)

Definition hex_val (b : byte) : option Z :=
  let z := Z_of_byte b in
  if in_range 0x30 0x39 b then Some (z - 0x30) else
  if in_range 0x61 0x66 b then Some (z - 0x61 + 10) else
  if in_range 0x41 0x46 b then Some (z - 0x41 + 10) else None.

Definition hex4 (a b c d : byte) : option Z :=
  a ← hex_val a; b ← hex_val b; c ← hex_val c; d ← hex_val d;
  Some (((a * 16 + b) * 16 + c) * 16 + d).

Definition is_surrogate (r : Z) : bool := (0xD800 <=? r) && (r <? 0xE000).

(** [utf16.DecodeRune]: the rune of a surrogate pair. *)
Definition utf16_decode (r1 r2 : Z) : option Z :=
  if (0xD800 <=? r1) && (r1 <? 0xDC00) && (0xDC00 <=? r2) && (r2 <? 0xE000)
  then Some ((r1 - 0xD800) * 1024 + (r2 - 0xDC00) + 0x10000) else None.

Definition unescape (c : byte) : option byte :=
  if (c =b x22) || (c =b x5c) || (c =b x2f) then Some c else
  if c =b x62 then Some x08 else
  if c =b x66 then Some x0c else
  if c =b x6e then Some x0a else
  if c =b x72 then Some x0d else
  if c =b x74 then Some x09 else None.

Definition prepend (bs : list byte) (r : option (list byte * list byte)) :
    option (list byte * list byte) :=
  match r with Some (s, rest) => Some (bs ++ s, rest) | None => None end.

(** The string after an opening quote, and what follows the closing quote. *)
Fixpoint unquote (l : list byte) : option (list byte * list byte) :=
  match l with
  | [] => None
  | b0 :: l1 =>
    if b0 =b x22 then Some ([], l1) else
    if b0 =b x5c then
      match l1 with
      | [] => None
      | c :: l2 =>
        if c =b x75 then
          match l2 with
          | h1 :: h2 :: h3 :: h4 :: l3 =>
            match hex4 h1 h2 h3 h4 with
            | None => None
            | Some rr =>
              if is_surrogate rr then
                match l3 with
                | e1 :: e2 :: k1 :: k2 :: k3 :: k4 :: l4 =>
                  match (if (e1 =b x5c) && (e2 =b x75)
                         then r2 ← hex4 k1 k2 k3 k4; utf16_decode rr r2 else None) with
                  | Some r => prepend (encode_rune r) (unquote l4)
                  | None => prepend rune_error (unquote l3)
                  end
                | _ => prepend rune_error (unquote l3)
                end
              else prepend (encode_rune rr) (unquote l3)
            end
          | _ => None
          end
        else
          match unescape c with
          | Some b => prepend [b] (unquote l2)
          | None => None
          end
      end
    else
    if in_range 0 0x1F b0 then None else
    match utf8_len l, l1 with
    | 1%nat, _ => prepend [b0] (unquote l1)
    | 2%nat, b1 :: l2 => prepend [b0; b1] (unquote l2)
    | 3%nat, b1 :: b2 :: l3 => prepend [b0; b1; b2] (unquote l3)
    | 4%nat, b1 :: b2 :: b3 :: l4 => prepend [b0; b1; b2; b3] (unquote l4)
    | _, _ => prepend rune_error (unquote l1)
    end
  end.

(** ** Unmarshal: numbers *)

Definition is_digit : byte → bool := in_range 0x30 0x39.

Fixpoint span_digits (l : list byte) : list byte * list byte :=
  match l with
  | [] => ([], [])
  | b :: r => if is_digit b then let '(ds, rest) := span_digits r in (b :: ds, rest) else ([], l)
  end.

(** The longest number at the front of [l] in the JSON grammar: integer part,
    fraction and exponent after an optional sign. *)
Definition scan_unsigned (sign l : list byte) : option (list byte * list byte) :=
  let '(int, l) := span_digits l in
  match int with
  | [] => None
  | d :: _ => if (d =b x30) && (1 <? zlen int) then None else Some (sign ++ int, l)
  end ≫= λ '(lexeme, l),
  match l with
  | b :: r =>
    if b =b x2e then
      match span_digits r with
      | ([], _) => None
      | (frac, rest) => Some (lexeme ++ b :: frac, rest)
      end
    else Some (lexeme, l)
  | [] => Some (lexeme, l)
  end ≫= λ '(lexeme, l),
  match l with
  | b :: r =>
    if (b =b x65) || (b =b x45) then
      let '(sign, r) := match r with
                        | c :: r' => if (c =b x2b) || (c =b x2d) then ([c], r') else ([], r)
                        | [] => ([], r)
                        end in
      match span_digits r with
      | ([], _) => None
      | (exp, rest) => Some (lexeme ++ b :: sign ++ exp, rest)
      end
    else Some (lexeme, l)
  | [] => Some (lexeme, l)
  end.

Definition scan_number (l : list byte) : option (list byte * list byte) :=
  match l with
  | b :: r => if b =b x2d then scan_unsigned [b] r else scan_unsigned [] l
  | [] => None
  end.

Definition digits_val (l : list byte) : Z := foldl (λ acc b, 10 * acc + (Z_of_byte b - 0x30)) 0 l.

(** [strconv.ParseUint(s, 10, 64)] and [ParseInt(s, 10, 64)] on a JSON number. *)
Definition ParseUint (lexeme : list byte) : option Z :=
  match lexeme with
  | [] => None
  | _ => if forallb is_digit lexeme && (digits_val lexeme <? 2 ^ 64)
         then Some (digits_val lexeme) else None
  end.

Definition ParseInt (lexeme : list byte) : option Z :=
  let '(neg, ds) := match lexeme with
                    | b :: r => if b =b x2d then (true, r) else (false, lexeme)
                    | [] => (false, [])
                    end in
  match ParseUint ds with
  | None => None
  | Some n =>
    if neg then if n <=? 2 ^ 63 then Some (- n) else None
    else if n <? 2 ^ 63 then Some n else None
  end.

(** ** Unmarshal: values *)

#[warnings="-register-all"]
Inductive json :=
| JNull
| JBool (b : bool)
| JNum (lexeme : list byte)
| JStr (s : list byte)
| JArr (l : list json)
| JObj (l : list (list byte * json)).

Definition is_space (b : byte) : bool := (b =b x20) || (b =b x09) || (b =b x0d) || (b =b x0a).

Fixpoint skip_ws (l : list byte) : list byte :=
  match l with
  | [] => []
  | b :: r => if is_space b then skip_ws r else l
  end.

(** [maxNestingDepth] of the scanner. *)
Definition max_depth : Z := 10000.

Definition strip_literal (lit l : list byte) : option (list byte) :=
  if bool_decide (take (length lit) l = lit) then Some (drop (length lit) l) else None.

Definition lit_null : list byte := [x6e; x75; x6c; x6c].
Definition lit_true : list byte := [x74; x72; x75; x65].
Definition lit_false : list byte := [x66; x61; x6c; x73; x65].

(** Values, the members of an object after its brace or a comma, and the
    elements of an array likewise.  Every call consumes a byte before the
    next one, so the number of bytes of the input (plus one) is enough fuel;
    [None] is a syntax error. *)
Fixpoint parse_value (fuel : nat) (depth : Z) (l : list byte) {struct fuel} :
    option (json * list byte) :=
  match fuel with
  | O => None
  | S fuel =>
    match skip_ws l with
    | [] => None
    | b :: r =>
      if b =b x22 then '(s, rest) ← unquote r; Some (JStr s, rest) else
      if b =b x7b then
        if max_depth <? depth + 1 then None else
        match skip_ws r with
        | [] => None
        | c :: rest =>
          if c =b x7d then Some (JObj [], rest) else
          '(ms, rest) ← parse_members fuel (depth + 1) (c :: rest); Some (JObj ms, rest)
        end
      else if b =b x5b then
        if max_depth <? depth + 1 then None else
        match skip_ws r with
        | [] => None
        | c :: rest =>
          if c =b x5d then Some (JArr [], rest) else
          '(es, rest) ← parse_elements fuel (depth + 1) (c :: rest); Some (JArr es, rest)
        end
      else if b =b x6e then rest ← strip_literal lit_null (b :: r); Some (JNull, rest)
      else if b =b x74 then rest ← strip_literal lit_true (b :: r); Some (JBool true, rest)
      else if b =b x66 then rest ← strip_literal lit_false (b :: r); Some (JBool false, rest)
      else '(lexeme, rest) ← scan_number (b :: r); Some (JNum lexeme, rest)
    end
  end
with parse_members (fuel : nat) (depth : Z) (l : list byte) {struct fuel} :
    option (list (list byte * json) * list byte) :=
  match fuel with
  | O => None
  | S fuel =>
    match skip_ws l with
    | [] => None
    | b :: r =>
      if b =b x22 then
        '(name, rest) ← unquote r;
        match skip_ws rest with
        | [] => None
        | c :: rest =>
          if c =b x3a then
            '(v, rest) ← parse_value fuel depth rest;
            match skip_ws rest with
            | [] => None
            | d :: rest =>
              if d =b x2c then
                '(ms, rest) ← parse_members fuel depth rest; Some ((name, v) :: ms, rest)
              else if d =b x7d then Some ([(name, v)], rest)
              else None
            end
          else None
        end
      else None
    end
  end
with parse_elements (fuel : nat) (depth : Z) (l : list byte) {struct fuel} :
    option (list json * list byte) :=
  match fuel with
  | O => None
  | S fuel =>
    '(v, rest) ← parse_value fuel depth l;
    match skip_ws rest with
    | [] => None
    | d :: rest =>
      if d =b x2c then '(vs, rest) ← parse_elements fuel depth rest; Some (v :: vs, rest)
      else if d =b x5d then Some ([v], rest)
      else None
    end
  end.

(** A whole document: one value and nothing but white space after it. *)
Definition parse_json (data : list byte) : option json :=
  '(v, rest) ← parse_value (S (length data)) 0 data;
  match skip_ws rest with [] => Some v | _ => None end.

(** ** Unmarshal: storing into fields

    [None] is the [UnmarshalTypeError] (or base64 error) the decoder reports
    after it has gone through the whole document; [null] leaves a field as it
    was, except that it empties a slice. *)

Definition store_string (v : json) (old : string) : option string :=
  match v with
  | JNull => Some old
  | JStr s => Some (string_of_bytes s)
  | _ => None
  end.

Definition store_int64 (v : json) (old : Z) : option Z :=
  match v with
  | JNull => Some old
  | JNum lexeme => ParseInt lexeme
  | _ => None
  end.

(** Unsigned fields of [bits] bits. *)
Definition store_uint (bits : Z) (v : json) (old : Z) : option Z :=
  match v with
  | JNull => Some old
  | JNum lexeme => n ← ParseUint lexeme; if n <? 2 ^ bits then Some n else None
  | _ => None
  end.

Definition store_bool (v : json) (old : bool) : option bool :=
  match v with
  | JNull => Some old
  | JBool b => Some b
  | _ => None
  end.

Definition b64_val (b : byte) : option Z :=
  let z := Z_of_byte b in
  if in_range 0x41 0x5A b then Some (z - 0x41) else
  if in_range 0x61 0x7A b then Some (z - 0x61 + 26) else
  if in_range 0x30 0x39 b then Some (z - 0x30 + 52) else
  if b =b x2b then Some 62 else
  if b =b x2f then Some 63 else None.

(** The quanta of [StdEncoding.Decode]; padding ends the input. *)
Fixpoint b64_quanta (l : list byte) : option (list byte) :=
  match l with
  | [] => Some []
  | a :: b :: c :: d :: l =>
    x ← b64_val a; y ← b64_val b;
    if (c =b x3d) && (d =b x3d) then
      match l with [] => Some [byte_of_Z (x * 4 + y / 16)] | _ => None end
    else
      z ← b64_val c;
      if d =b x3d then
        match l with
        | [] => Some [byte_of_Z (x * 4 + y / 16); byte_of_Z ((y mod 16) * 16 + z / 4)]
        | _ => None
        end
      else
        w ← b64_val d; rest ← b64_quanta l;
        Some (byte_of_Z (x * 4 + y / 16) :: byte_of_Z ((y mod 16) * 16 + z / 4)
              :: byte_of_Z ((z mod 4) * 64 + w) :: rest)
  | _ => None
  end.

(** The decoder skips line breaks. *)
Definition base64_decode (l : list byte) : option (list byte) :=
  b64_quanta (filter (λ b, (b =b x0a) || (b =b x0d) = false) l).

(** A byte slice is a base64 string, or an array of small numbers, in which
    [null] keeps the byte of an earlier member of the same name. *)
Definition store_bytes (v : json) (old : list byte) : option (list byte) :=
  match v with
  | JNull => Some []
  | JStr s => base64_decode s
  | JArr l =>
    mapM (λ '(i, x), byte_of_Z <$> store_uint 8 x (Z_of_byte (default x00 (old !! i)))) (imap pair l)
  | _ => None
  end.

(** Member names match fields exactly, or else up to case; the only
    characters outside ASCII that fold to ASCII letters are U+017F (to S) and
    U+212A (to K). *)
Fixpoint fold_name (l : list byte) : list byte :=
  match l with
  | [] => []
  | b0 :: l1 =>
    match l1 with
    | b1 :: l2 =>
      if (b0 =b xc5) && (b1 =b xbf) then x53 :: fold_name l2 else
      match l2 with
      | b2 :: l3 =>
        if (b0 =b xe2) && (b1 =b x84) && (b2 =b xaa) then x4b :: fold_name l3
        else (if in_range 0x61 0x7A b0 then byte_of_Z (Z_of_byte b0 - 0x20) else b0) :: fold_name l1
      | [] => (if in_range 0x61 0x7A b0 then byte_of_Z (Z_of_byte b0 - 0x20) else b0) :: fold_name l1
      end
    | [] => (if in_range 0x61 0x7A b0 then byte_of_Z (Z_of_byte b0 - 0x20) else b0) :: fold_name l1
    end
  end.

(** The field a member name addresses among [names]. *)
Definition match_field (names : list string) (name : list byte) : option string :=
  match list_find (λ n, bytes_of_string n = name) names with
  | Some (_, n) => Some n
  | None => snd <$> list_find (λ n, fold_name (bytes_of_string n) = fold_name name) names
  end.

(** ** Strings round trip *)

Lemma byte_eqb_spec b c : reflect (b = c) (b =b c).
Proof.
  destruct (b =b c) eqn:He; constructor; [by apply Byte.byte_dec_bl|].
  intros ->. by rewrite Byte.byte_dec_lb in He.
Qed.

(** The length of a rune only depends on its own bytes. *)
Lemma utf8_len_take l n X :
  utf8_len l = S n → utf8_len (take (S n) l ++ X) = S n.
Proof.
  intros Hl. unfold utf8_len in Hl.
  destruct l as [|b0 [|b1 [|b2 [|b3 l]]]]; [done|..];
    repeat (match type of Hl with context [if ?b then _ else _] => destruct b eqn:? end;
      [injection Hl as <-; simpl;
       repeat match goal with H : _ = _ :> bool |- _ => rewrite H; clear H end; done|]); done.
Qed.

Lemma utf8_len_split l n :
  utf8_len l = S n → ∃ l', l = take (S n) l ++ l' ∧ length (take (S n) l) = S n.
Proof.
  intros Hl. exists (drop (S n) l). split; [by rewrite take_drop|].
  unfold utf8_len in Hl. destruct l as [|b0 [|b1 [|b2 [|b3 l]]]]; [done|..];
    repeat (match type of Hl with context [if ?b then _ else _] => destruct b eqn:? end;
      [by injection Hl as <-|]); done.
Qed.

Lemma utf8_len_ascii b l : in_range 0 0x7F b = true ↔ utf8_len (b :: l) = 1%nat.
Proof.
  unfold utf8_len. destruct (in_range 0 127 b); [done|].
  destruct l as [|b1 [|b2 [|b3 l]]]; repeat dcase; done.
Qed.

Lemma utf8_len_max l : (utf8_len l ≤ 4)%nat.
Proof. unfold utf8_len. destruct l as [|b0 [|b1 [|b2 [|b3 l]]]]; repeat dcase; lia. Qed.

Lemma unquote_ascii b l :
  in_range 0 0x7F b = true → unquote (escape_ascii b ++ l) = prepend [b] (unquote l).
Proof. destruct b; intros Hb; try discriminate Hb; reflexivity. Qed.

Lemma unquote_raw b l :
  in_range 0 0x7F b = false →
  unquote (b :: l) =
    match utf8_len (b :: l), l with
    | 1%nat, _ => prepend [b] (unquote l)
    | 2%nat, b1 :: l2 => prepend [b; b1] (unquote l2)
    | 3%nat, b1 :: b2 :: l3 => prepend [b; b1; b2] (unquote l3)
    | 4%nat, b1 :: b2 :: b3 :: l4 => prepend [b; b1; b2; b3] (unquote l4)
    | _, _ => prepend rune_error (unquote l)
    end.
Proof.
  intros Hb. cbn [unquote].
  destruct (byte_eqb_spec b x22) as [->|_]; [done|].
  destruct (byte_eqb_spec b x5c) as [->|_]; [done|].
  destruct (in_range 0 31 b) eqn:Hc; [|done].
  unfold in_range in *. bools. apply andb_false_iff in Hb as [?|?]; bools; lia.
Qed.

Lemma unquote_separator b0 b1 b2 l :
  is_line_separator b0 b1 b2 = true →
  unquote ([x5c; x75; x32; x30; x32; hex_digit (Z_of_byte b2 mod 16)] ++ l) =
  prepend [b0; b1; b2] (unquote l).
Proof.
  unfold is_line_separator. rewrite !andb_true_iff, orb_true_iff.
  intros [[?%Byte.byte_dec_bl ?%Byte.byte_dec_bl] [?%Byte.byte_dec_bl|?%Byte.byte_dec_bl]];
    subst; reflexivity.
Qed.

Lemma prepend_some bs s rest : prepend bs (Some (s, rest)) = Some (bs ++ s, rest).
Proof. done. Qed.

Lemma utf8_len_cases b0 l1 n :
  utf8_len (b0 :: l1) = S (S n) →
  in_range 0 0x7F b0 = false ∧
  (n = 0%nat ∧ (∃ b1 l2, l1 = b1 :: l2 ∧ ∀ X, utf8_len (b0 :: b1 :: X) = 2%nat) ∨
   n = 1%nat ∧ (∃ b1 b2 l3, l1 = b1 :: b2 :: l3 ∧ ∀ X, utf8_len (b0 :: b1 :: b2 :: X) = 3%nat) ∨
   n = 2%nat ∧ (∃ b1 b2 b3 l4, l1 = b1 :: b2 :: b3 :: l4 ∧
                  ∀ X, utf8_len (b0 :: b1 :: b2 :: b3 :: X) = 4%nat)).
Proof.
  intros Hl. split.
  { destruct (in_range 0 127 b0) eqn:Hb; [|done].
    apply (utf8_len_ascii b0 l1) in Hb. congruence. }
  pose proof (utf8_len_max (b0 :: l1)) as Hmax. rewrite Hl in Hmax.
  destruct (utf8_len_split _ _ Hl) as (_&_&Hlen). pose proof (λ X, utf8_len_take _ _ X Hl) as HX.
  destruct n as [|[|[|n]]]; [| | |lia].
  - left. split; [done|]. destruct l1 as [|b1 l2]; [done|]. by exists b1, l2.
  - right; left. split; [done|]. destruct l1 as [|b1 [|b2 l3]]; [done..|]. by exists b1, b2, l3.
  - right; right. split; [done|]. destruct l1 as [|b1 [|b2 [|b3 l4]]]; [done..|].
    by exists b1, b2, b3, l4.
Qed.

(** Reading back a quoted string gives the string with invalid bytes replaced. *)
Lemma unquote_quote s rest :
  unquote (quote_body s ++ x22 :: rest) = Some (to_valid_utf8 s, rest).
Proof.
  induction s as [s IH] using (induction_ltof1 _ (@length byte)). unfold ltof in IH.
  destruct s as [|b0 l1]; [done|].
  destruct (utf8_len (b0 :: l1)) as [|[|n]] eqn:Hl; cbn [quote_body to_valid_utf8]; rewrite Hl.
  - rewrite <- app_assoc.
    change (unquote ([x5c; x75; x66; x66; x66; x64] ++ quote_body l1 ++ x22 :: rest))
      with (prepend rune_error (unquote (quote_body l1 ++ x22 :: rest))).
    rewrite IH by (simpl; lia). by destruct l1 as [|? [|? [|? ?]]].
  - rewrite <- app_assoc, unquote_ascii by (by apply (utf8_len_ascii b0 l1)).
    rewrite IH by (simpl; lia). done.
  - destruct (utf8_len_cases _ _ _ Hl) as (Hb&[(->&b1&l2&->&HX)
      |[(->&b1&b2&l3&->&HX)|(->&b1&b2&b3&l4&->&HX)]]).
    + cbn [app]. rewrite unquote_raw, HX by done. rewrite IH by (simpl; lia). done.
    + dcase.
      * rewrite <- app_assoc, (unquote_separator b0 b1 b2) by done.
        rewrite IH by (simpl; lia). done.
      * cbn [app]. rewrite unquote_raw, HX by done. rewrite IH by (simpl; lia). done.
    + cbn [app]. rewrite unquote_raw, HX by done. rewrite IH by (simpl; lia). done.
Qed.

(** ** Integers round trip *)

Lemma Z_of_digit n : 0 ≤ n < 10 → Z_of_byte (digit n) = 0x30 + n.
Proof. intros. unfold digit. rewrite Z_of_byte_of_Z. apply Z.mod_small. lia. Qed.

Lemma is_digit_digit n : 0 ≤ n < 10 → is_digit (digit n) = true.
Proof. intros. unfold is_digit, in_range. rewrite Z_of_digit by lia. apply andb_true_iff. lia. Qed.

Lemma digits_val_snoc l b : digits_val (l ++ [b]) = 10 * digits_val l + (Z_of_byte b - 0x30).
Proof. unfold digits_val. by rewrite foldl_app. Qed.

Lemma digits_spec fuel n :
  0 ≤ n < 10 ^ Z.of_nat fuel → (0 < fuel)%nat →
  forallb is_digit (digits fuel n) = true ∧ digits_val (digits fuel n) = n ∧
  ∃ d l, digits fuel n = d :: l ∧ ((d =b x30) = true → l = []).
Proof.
  revert n. induction fuel as [|fuel IH]; intros n Hn Hf; [lia|]. cbn [digits].
  destruct (Z.ltb_spec n 10).
  - split_and!.
    + simpl. by rewrite is_digit_digit by lia.
    + unfold digits_val. simpl. rewrite Z_of_digit by lia. lia.
    + by exists (digit n), [].
  - assert (0 ≤ n / 10 < 10 ^ Z.of_nat fuel) as Hd.
    { rewrite Nat2Z.inj_succ, Z.pow_succ_r in Hn by lia.
      split; [apply Z.div_pos; lia|apply Z.div_lt_upper_bound; lia]. }
    pose proof (Z.mod_pos_bound n 10 ltac:(lia)).
    destruct (IH (n / 10) Hd) as (Hdig&Hval&d&l&He&Hz).
    { destruct fuel; [|lia]. simpl in Hd. pose proof (Z.div_le_lower_bound n 10 1). lia. }
    split_and!.
    + rewrite forallb_app, Hdig. simpl. by rewrite is_digit_digit by lia.
    + rewrite digits_val_snoc, Hval, Z_of_digit by lia. pose proof (Z_div_mod_eq_full n 10). lia.
    + rewrite He. exists d, (l ++ [digit (n mod 10)]). split; [done|]. intros Hd0.
      rewrite (Hz Hd0) in He. exfalso. rewrite He in Hval.
      destruct (byte_eqb_spec d x30) as [->|]; [|done]. unfold digits_val in Hval. simpl in Hval.
      pose proof (Z.div_le_lower_bound n 10 1). vm_compute (Z_of_byte x30) in Hval. lia.
Qed.

(** [rest] does not continue a number. *)
Definition number_ends (rest : list byte) : Prop :=
  match rest with
  | [] => True
  | b :: _ => is_digit b = false ∧ (b =b x2e) = false ∧ (b =b x65) || (b =b x45) = false
  end.

Lemma span_digits_app l rest :
  forallb is_digit l = true → number_ends rest → span_digits (l ++ rest) = (l, rest).
Proof.
  intros Hl Hr. induction l as [|b l IH]; simpl in *.
  - destruct rest as [|b rest]; [done|]. destruct Hr as [Hb _]. simpl. by rewrite Hb.
  - apply andb_true_iff in Hl as [-> Hl]. by rewrite IH.
Qed.

Lemma digit_not_minus b : is_digit b = true → (b =b x2d) = false.
Proof. destruct (byte_eqb_spec b x2d) as [->|]; [done|done]. Qed.

Lemma scan_digits sign n rest :
  0 ≤ n < 10 ^ 20 → number_ends rest →
  scan_unsigned sign (digits 20 n ++ rest) = Some (sign ++ digits 20 n, rest).
Proof.
  intros Hn Hr. destruct (digits_spec 20 n Hn) as (Hd&_&d&l&He&Hz); [lia|].
  unfold scan_unsigned. rewrite span_digits_app, He by done.
  assert ((d =b x30) && (1 <? zlen (d :: l)) = false) as ->.
  { destruct (d =b x30); [|done]. by rewrite Hz. }
  destruct rest as [|b rest]; [done|]. destruct Hr as (_&Hdot&Hexp). simpl.
  rewrite Hdot. simpl. by rewrite Hexp.
Qed.

Lemma scan_appendInt n rest :
  minInt64 ≤ n < 2 ^ 64 → number_ends rest →
  scan_number (appendInt n ++ rest) = Some (appendInt n, rest).
Proof.
  intros Hn Hr. unfold appendInt, minInt64 in *. destruct (Z.ltb_spec n 0).
  - apply (scan_digits [x2d]); [lia|done].
  - destruct (digits_spec 20 n) as (Hd&_&d&l&He&_); [lia..|].
    etransitivity; [|apply (scan_digits []); [lia|done]]. rewrite He in Hd |- *.
    simpl in Hd. apply andb_true_iff in Hd as [Hd _]. simpl. by rewrite digit_not_minus.
Qed.

Lemma ParseUint_digits n : 0 ≤ n < 2 ^ 64 → ParseUint (digits 20 n) = Some n.
Proof.
  intros Hn. destruct (digits_spec 20 n) as (Hd&Hv&d&l&He&_); [lia..|].
  unfold ParseUint. rewrite Hd, Hv, He, (proj2 (Z.ltb_lt _ _)) by lia. done.
Qed.

Lemma ParseUint_appendInt n : 0 ≤ n < 2 ^ 64 → ParseUint (appendInt n) = Some n.
Proof.
  intros Hn. unfold appendInt. rewrite (proj2 (Z.ltb_ge _ _)) by lia. by apply ParseUint_digits.
Qed.

Lemma ParseInt_appendInt n : minInt64 ≤ n ≤ maxInt64 → ParseInt (appendInt n) = Some n.
Proof.
  unfold minInt64, maxInt64, ParseInt, appendInt. intros Hn. destruct (Z.ltb_spec n 0).
  - change (x2d =b x2d) with true. cbv iota beta. rewrite ParseUint_digits by lia.
    rewrite (proj2 (Z.leb_le _ _)) by lia. f_equal. lia.
  - destruct (digits_spec 20 n) as (Hd&_&d&l&He&_); [lia..|].
    rewrite He in Hd |- *. simpl in Hd. apply andb_true_iff in Hd as [Hd _].
    rewrite (digit_not_minus d Hd), <- He, ParseUint_digits by lia.
    by rewrite (proj2 (Z.ltb_lt _ _)) by lia.
Qed.

(** ** Byte slices round trip *)

(** A fact about the 64 characters is checked on each of them. *)
Lemma b64_char_all (P : Z → Prop) `{∀ n, Decision (P n)} n :
  forallb (λ i, bool_decide (P (Z.of_nat i))) (seq 0 64) = true → 0 ≤ n < 64 → P n.
Proof.
  rewrite forallb_forall. intros Hall Hn. specialize (Hall (Z.to_nat n)).
  rewrite Z2Nat.id in Hall by lia. apply (bool_decide_eq_true_1 _), Hall, in_seq. lia.
Qed.

Lemma b64_val_char n : 0 ≤ n < 64 → b64_val (b64_char n) = Some n.
Proof.
  apply (b64_char_all (λ n, b64_val (b64_char n) = Some n)). vm_compute. reflexivity.
Qed.

Lemma b64_char_plain n :
  0 ≤ n < 64 → (b64_char n =b x3d) = false ∧
    (b64_char n =b x0a) || (b64_char n =b x0d) = false ∧
    in_range 0 0x7F (b64_char n) = true ∧ escape_ascii (b64_char n) = [b64_char n].
Proof.
  apply (b64_char_all (λ n, (b64_char n =b x3d) = false ∧
    (b64_char n =b x0a) || (b64_char n =b x0d) = false ∧
    in_range 0 0x7F (b64_char n) = true ∧ escape_ascii (b64_char n) = [b64_char n])).
  vm_compute. reflexivity.
Qed.

(** The sextets of up to three bytes. *)
Definition sextet1 (a : byte) : Z := Z_of_byte a / 4.
Definition sextet2 (a b : byte) : Z := (Z_of_byte a mod 4) * 16 + Z_of_byte b / 16.
Definition sextet3 (b c : byte) : Z := (Z_of_byte b mod 16) * 4 + Z_of_byte c / 64.
Definition sextet4 (c : byte) : Z := Z_of_byte c mod 64.

Ltac byte_arith :=
  unfold sextet1, sextet2, sextet3, sextet4;
  repeat match goal with
  | |- context [Z_of_byte ?b] =>
    is_var b; pose proof (Z_of_byte_range b); generalize dependent (Z_of_byte b); intros
  end;
  Z.to_euclidean_division_equations; lia.

Lemma sextet1_range a : 0 ≤ sextet1 a < 64.
Proof. byte_arith. Qed.
Lemma sextet2_range a b : 0 ≤ sextet2 a b < 64.
Proof. byte_arith. Qed.
Lemma sextet3_range b c : 0 ≤ sextet3 b c < 64.
Proof. byte_arith. Qed.
Lemma sextet4_range c : 0 ≤ sextet4 c < 64.
Proof. byte_arith. Qed.

Lemma base64_encode_1 a :
  base64_encode [a] = [b64_char (sextet1 a); b64_char (sextet2 a x00); x3d; x3d].
Proof.
  cbn [base64_encode]. change (Z_of_byte x00) with 0.
  unfold sextet2. change (Z_of_byte x00 / 16) with 0. rewrite Z.add_0_r.
  replace (Z_of_byte a * 16 / 64) with (sextet1 a) by byte_arith.
  replace (Z_of_byte a * 16 mod 64) with (Z_of_byte a mod 4 * 16) by byte_arith. done.
Qed.

Lemma base64_encode_2 a b :
  base64_encode [a; b] =
  [b64_char (sextet1 a); b64_char (sextet2 a b); b64_char (sextet3 b x00); x3d].
Proof.
  cbn [base64_encode]. unfold sextet3. change (Z_of_byte x00 / 64) with 0. rewrite Z.add_0_r.
  replace ((Z_of_byte a * 256 + Z_of_byte b) * 4 / 4096) with (sextet1 a) by byte_arith.
  replace ((Z_of_byte a * 256 + Z_of_byte b) * 4 / 64 mod 64) with (sextet2 a b) by byte_arith.
  replace ((Z_of_byte a * 256 + Z_of_byte b) * 4 mod 64) with (Z_of_byte b mod 16 * 4)
    by byte_arith. done.
Qed.

Lemma base64_encode_3 a b c l :
  base64_encode (a :: b :: c :: l) =
  b64_char (sextet1 a) :: b64_char (sextet2 a b) :: b64_char (sextet3 b c) :: b64_char (sextet4 c)
  :: base64_encode l.
Proof.
  cbn [base64_encode]. set (n := (Z_of_byte a * 256 + Z_of_byte b) * 256 + Z_of_byte c).
  replace (n / 262144) with (sextet1 a) by (subst n; byte_arith).
  replace (n / 4096 mod 64) with (sextet2 a b) by (subst n; byte_arith).
  replace (n / 64 mod 64) with (sextet3 b c) by (subst n; byte_arith).
  replace (n mod 64) with (sextet4 c) by (subst n; byte_arith). done.
Qed.

Lemma sextets_byte1 a b : byte_of_Z (sextet1 a * 4 + sextet2 a b / 16) = a.
Proof. rewrite <- (byte_of_Z_of_byte a) at 3. f_equal. byte_arith. Qed.
Lemma sextets_byte2 a b c : byte_of_Z (sextet2 a b mod 16 * 16 + sextet3 b c / 4) = b.
Proof. rewrite <- (byte_of_Z_of_byte b) at 3. f_equal. byte_arith. Qed.
Lemma sextets_byte3 b c : byte_of_Z (sextet3 b c mod 4 * 64 + sextet4 c) = c.
Proof. rewrite <- (byte_of_Z_of_byte c) at 3. f_equal. byte_arith. Qed.

#[local] Hint Resolve sextet1_range sextet2_range sextet3_range sextet4_range : core.

(** Induction on a byte string three bytes at a time. *)
Lemma triple_ind (P : list byte → Prop) :
  P [] → (∀ a, P [a]) → (∀ a b, P [a; b]) → (∀ a b c l, P l → P (a :: b :: c :: l)) → ∀ l, P l.
Proof.
  intros H0 H1 H2 H3. fix IH 1. intros [|a [|b [|c l]]]; [done|apply H1|apply H2|apply H3, IH].
Qed.

Lemma b64_quanta_encode l : b64_quanta (base64_encode l) = Some l.
Proof.
  pose proof b64_val_char as Hv.
  assert (∀ n, 0 ≤ n < 64 → (b64_char n =b x3d) = false) as Hp by (intros; by apply b64_char_plain).
  induction l as [|a|a b|a b c l IH] using triple_ind.
  - done.
  - rewrite base64_encode_1. cbn [b64_quanta]. rewrite !Hv by done.
    cbn [mbind option_bind]. rewrite sextets_byte1. done.
  - rewrite base64_encode_2. cbn [b64_quanta]. rewrite !Hv, Hp by done.
    cbn [mbind option_bind andb]. rewrite sextets_byte1, sextets_byte2. done.
  - rewrite base64_encode_3. cbn [b64_quanta]. rewrite !Hv, !Hp, IH by done.
    cbn [mbind option_bind andb]. rewrite sextets_byte1, sextets_byte2, sextets_byte3. done.
Qed.

(** Base64 text consists of alphabet characters and padding. *)
Lemma base64_chars (P : byte → Prop) l :
  P x3d → (∀ n, 0 ≤ n < 64 → P (b64_char n)) → Forall P (base64_encode l).
Proof.
  intros Hpad Hc. induction l as [|a|a b|a b c l IH] using triple_ind.
  - constructor.
  - rewrite base64_encode_1. repeat constructor; auto.
  - rewrite base64_encode_2. repeat constructor; auto.
  - rewrite base64_encode_3. repeat constructor; auto.
Qed.

Lemma base64_round_trip l : base64_decode (base64_encode l) = Some l.
Proof.
  unfold base64_decode. rewrite filter_all; [apply b64_quanta_encode|].
  apply base64_chars; [done|]. intros. by apply b64_char_plain.
Qed.

(** Base64 text is ASCII without anything to escape. *)
Lemma base64_plain l : Forall (λ b, in_range 0 0x7F b = true ∧ escape_ascii b = [b]) (base64_encode l).
Proof.
  apply base64_chars; [done|]. intros. by apply b64_char_plain.
Qed.

Lemma ascii_valid l : Forall (λ b, in_range 0 0x7F b = true) l → to_valid_utf8 l = l.
Proof.
  induction 1 as [|b l Hb Hl IH]; [done|]. cbn [to_valid_utf8].
  rewrite (proj1 (utf8_len_ascii b l)) by done. by f_equal.
Qed.

(** Cleaning a text twice is cleaning it once. *)
Lemma to_valid_utf8_idem l : to_valid_utf8 (to_valid_utf8 l) = to_valid_utf8 l.
Proof.
  induction l as [l IH] using (induction_ltof1 _ (@length byte)). unfold ltof in IH.
  destruct l as [|b0 l1]; [done|].
  destruct (utf8_len (b0 :: l1)) as [|[|n]] eqn:Hl.
  - assert (to_valid_utf8 (b0 :: l1) = rune_error ++ to_valid_utf8 l1) as ->.
    { cbn [to_valid_utf8]. rewrite Hl. by destruct l1 as [|? [|? [|? ?]]]. }
    change (to_valid_utf8 (rune_error ++ to_valid_utf8 l1))
      with (rune_error ++ to_valid_utf8 (to_valid_utf8 l1)).
    by rewrite IH by (simpl; lia).
  - cbn [to_valid_utf8]. rewrite Hl. apply utf8_len_ascii in Hl. cbn [to_valid_utf8].
    rewrite (proj1 (utf8_len_ascii b0 _) Hl), IH by (simpl; lia). done.
  - cbn [to_valid_utf8]. rewrite Hl.
    destruct (utf8_len_cases _ _ _ Hl) as (_&[(->&b1&l2&->&HX)
      |[(->&b1&b2&l3&->&HX)|(->&b1&b2&b3&l4&->&HX)]]);
      cbn [to_valid_utf8]; rewrite HX, IH by (simpl; lia); done.
Qed.

Lemma plain_quote_body l :
  Forall (λ b, in_range 0 0x7F b = true ∧ escape_ascii b = [b]) l → quote_body l = l.
Proof.
  induction 1 as [|b l [Hb He] Hl IH]; [done|]. cbn [quote_body].
  rewrite (proj1 (utf8_len_ascii b l)), He, IH by done. done.
Qed.

(** ** Flat structs round trip *)

(** What the parser sees of a printed field. *)
Definition field_json (f : field) : json :=
  match f with
  | FStr s => JStr (to_valid_utf8 (bytes_of_string s))
  | FInt n => JNum (appendInt n)
  | FBool b => JBool b
  | FBytes l => JStr (base64_encode l)
  | FNull => JNull
  end.

Definition field_ok (f : field) : Prop :=
  match f with FInt n => minInt64 ≤ n < 2 ^ 64 | _ => True end.

Lemma parse_value_string fuel depth s rest :
  parse_value (S fuel) depth (x22 :: quote_body s ++ x22 :: rest)
  = Some (JStr (to_valid_utf8 s), rest).
Proof. cbn [parse_value skip_ws]. simpl. by rewrite unquote_quote. Qed.

Lemma digit_first b r :
  is_digit b = true ∨ b = x2d →
  skip_ws (b :: r) = b :: r ∧ (b =b x22) = false ∧ (b =b x7b) = false ∧ (b =b x5b) = false ∧
  (b =b x6e) = false ∧ (b =b x74) = false ∧ (b =b x66) = false.
Proof. intros [Hb| ->]; [|done]. by destruct b. Qed.

Lemma parse_value_number fuel depth n rest :
  minInt64 ≤ n < 2 ^ 64 → number_ends rest →
  parse_value (S fuel) depth (appendInt n ++ rest) = Some (JNum (appendInt n), rest).
Proof.
  intros Hn Hr. pose proof (scan_appendInt n rest Hn Hr) as Hscan.
  assert (∃ b l, appendInt n = b :: l ∧ (is_digit b = true ∨ b = x2d)) as (b&l&He&Hb).
  { unfold appendInt, minInt64 in *. destruct (n <? 0) eqn:?; [by eexists _, _; eauto|].
    destruct (digits_spec 20 n) as (Hd&_&d&l&He&_); bools; [lia..|].
    exists d, l. rewrite He in Hd. simpl in Hd. apply andb_true_iff in Hd as [? _]. auto. }
  rewrite He in *. cbn [app] in *. destruct (digit_first b (l ++ rest) Hb) as (Hws&Htests).
  destruct Htests as (T1&T2&T3&T4&T5&T6). cbn [parse_value].
  by rewrite Hws, T1, T2, T3, T4, T5, T6, Hscan.
Qed.

Lemma parse_value_field fuel depth f rest :
  field_ok f → number_ends rest →
  parse_value (S fuel) depth (marshal_field f ++ rest) = Some (field_json f, rest).
Proof.
  intros Hf Hr. destruct f as [s|n|[]|l|]; cbn [marshal_field field_json].
  - unfold appendString. cbn [app]. rewrite <- app_assoc. apply parse_value_string.
  - by apply parse_value_number.
  - done.
  - done.
  - pose proof (base64_plain l) as Hp.
    pose proof (parse_value_string fuel depth (base64_encode l) rest) as Hs.
    rewrite plain_quote_body, ascii_valid in Hs; [|eapply Forall_impl; [exact Hp|by intros ? [? _]]|done].
    cbn [app]. by rewrite <- app_assoc.
  - done.
Qed.

Definition member_json (m : string * field) : list byte * json :=
  (to_valid_utf8 (bytes_of_string m.1), field_json m.2).

Lemma marshal_members_cons m m' ms :
  marshal_members (m :: m' :: ms) = marshal_member m ++ x2c :: marshal_members (m' :: ms).
Proof. done. Qed.

(** The parser on a printed member name, whatever follows it. *)
Lemma parse_member_step fuel depth name tail :
  parse_members (S fuel) depth (appendString (bytes_of_string name) ++ x3a :: tail) =
  '(v, rest) ← parse_value fuel depth tail;
  match skip_ws rest with
  | [] => None
  | d :: rest =>
    if d =b x2c then
      '(ms, rest) ← parse_members fuel depth rest;
      Some ((to_valid_utf8 (bytes_of_string name), v) :: ms, rest)
    else if d =b x7d then Some ([(to_valid_utf8 (bytes_of_string name), v)], rest)
    else None
  end.
Proof.
  unfold appendString. cbn [app]. rewrite <- !app_assoc. cbn [app].
  cbn [parse_members skip_ws]. change (is_space x22) with false. cbv iota.
  change (x22 =b x22) with true. cbv iota.
  rewrite unquote_quote. cbn [mbind option_bind skip_ws]. done.
Qed.

Lemma parse_members_flat fuel depth ms rest :
  ms ≠ [] → Forall (λ m, field_ok m.2) ms → (length ms < fuel)%nat →
  parse_members fuel depth (marshal_members ms ++ x7d :: rest)
  = Some (member_json <$> ms, rest).
Proof.
  revert fuel. induction ms as [|m ms IH]; intros fuel Hne Hok Hfuel; [done|].
  destruct fuel as [|[|fuel]]; [simpl in Hfuel; lia..|].
  apply Forall_cons in Hok as [Hm Hok]. destruct ms as [|m' ms].
  - cbn [marshal_members]. unfold marshal_member. rewrite <- app_assoc. cbn [app].
    by rewrite parse_member_step, parse_value_field.
  - rewrite marshal_members_cons. unfold marshal_member at 1. rewrite <- !app_assoc. cbn [app].
    rewrite parse_member_step, parse_value_field by done.
    cbn [mbind option_bind skip_ws].
    change (is_space x2c) with false. cbv iota. change (x2c =b x2c) with true. cbv iota.
    rewrite IH; [done..|simpl in *; lia].
Qed.

Lemma length_marshal_members ms : (length ms ≤ length (marshal_members ms))%nat.
Proof.
  induction ms as [|m [|m' ms] IH]; [done|..].
  - simpl. lia.
  - rewrite marshal_members_cons, length_app. cbn [length] in *. lia.
Qed.

(** A printed object, whatever follows it. *)
Lemma parse_value_object fuel depth ms rest :
  Forall (λ m, field_ok m.2) ms → (length ms < fuel)%nat → depth < max_depth →
  parse_value (S fuel) depth (marshal_object ms ++ rest) = Some (JObj (member_json <$> ms), rest).
Proof.
  intros Hok Hfuel Hd. unfold marshal_object. cbn [app]. rewrite <- app_assoc. cbn [app].
  cbn [parse_value skip_ws]. change (is_space x7b) with false. cbv iota.
  change (x7b =b x22) with false. change (x7b =b x7b) with true. cbv iota.
  rewrite (proj2 (Z.ltb_ge _ _)) by lia.
  destruct (decide (ms = [])) as [->|Hne]; [done|].
  assert (∃ l, marshal_members ms = x22 :: l) as [l He].
  { destruct ms as [|m [|m' ms]]; [done|by eexists|by eexists]. }
  pose proof (parse_members_flat fuel (depth + 1) ms rest Hne Hok Hfuel) as Hp.
  rewrite He in Hp |- *. cbn [app skip_ws] in Hp |- *.
  change (is_space x22) with false. cbv iota. change (x22 =b x7d) with false. cbv iota.
  by rewrite Hp.
Qed.

Lemma length_marshal_object ms : (length ms < length (marshal_object ms))%nat.
Proof.
  unfold marshal_object. simpl. rewrite length_app.
  pose proof (length_marshal_members ms). lia.
Qed.

Lemma parse_marshal_object ms :
  Forall (λ m, field_ok m.2) ms →
  parse_json (marshal_object ms) = Some (JObj (member_json <$> ms)).
Proof.
  intros Hok. unfold parse_json. pose proof (length_marshal_object ms) as Hlen.
  rewrite <- (app_nil_r (marshal_object ms)) at 2.
  by rewrite parse_value_object by done.
Qed.

(** An object whose last member is an object. *)
Lemma parse_marshal_nested name f name' ms :
  field_ok f → Forall (λ m, field_ok m.2) ms →
  parse_json (x7b :: marshal_member (name, f) ++ x2c :: appendString (bytes_of_string name') ++ x3a ::
              marshal_object ms ++ [x7d])
  = Some (JObj [member_json (name, f);
                (to_valid_utf8 (bytes_of_string name'), JObj (member_json <$> ms))]).
Proof.
  intros Hf Hok. unfold parse_json. pose proof (length_marshal_object ms) as Hlen.
  set (data := x7b :: _). assert (length ms + 4 < length data)%nat as Hd.
  { unfold data, marshal_member, appendString. cbn [length fst]. rewrite !length_app. cbn [length].
    rewrite !length_app. cbn [length]. rewrite !length_app. cbn [length]. lia. }
  destruct (length data) as [|[|[|[|n]]]]; [lia..|]. unfold data. clear data.
  cbn [parse_value skip_ws]. change (is_space x7b) with false. cbv iota.
  change (x7b =b x22) with false. change (x7b =b x7b) with true. cbv iota.
  change (max_depth <? 0 + 1) with false. change (0 + 1) with 1. cbv iota.
  unfold marshal_member. cbn [fst snd]. rewrite <- app_assoc. cbn [app].
  assert (∀ tail, skip_ws (appendString (bytes_of_string name) ++ tail) = x22 :: quote_body (bytes_of_string name) ++ [x22] ++ tail) as ->.
  { intros. unfold appendString. cbn [app skip_ws]. by rewrite <- app_assoc. }
  cbv iota. change (x22 =b x7d) with false. cbv iota.
  pose proof (parse_member_step (S (S (S n))) 1 name) as Hstep. unfold appendString at 1 in Hstep.
  cbn [app] in Hstep. setoid_rewrite <- app_assoc in Hstep. cbn [app] in Hstep |- *.
  rewrite Hstep, parse_value_field by done. clear Hstep. cbn [mbind option_bind skip_ws].
  change (is_space x2c) with false. cbv iota. change (x2c =b x2c) with true. cbv iota.
  rewrite parse_member_step, parse_value_object by (done || lia). done.
Qed.

(** ** Sizes *)

Lemma digits_length k fuel n :
  (0 < k)%nat → 0 ≤ n < 10 ^ Z.of_nat k → zlen (digits fuel n) ≤ Z.of_nat k.
Proof.
  revert fuel n. induction k as [|k IH]; intros fuel n Hk Hn; [lia|].
  destruct fuel as [|fuel]; [unfold zlen; simpl; lia|]. cbn [digits].
  destruct (Z.ltb_spec n 10); [unfold zlen; simpl; lia|].
  rewrite Nat2Z.inj_succ, Z.pow_succ_r in Hn by lia.
  assert (0 ≤ n / 10 < 10 ^ Z.of_nat k) as Hd.
  { split; [apply Z.div_pos; lia|apply Z.div_lt_upper_bound; lia]. }
  assert (0 < k)%nat as Hk'.
  { destruct k; [|lia]. simpl in Hn. lia. }
  specialize (IH fuel _ Hk' Hd). rewrite zlen_app. unfold zlen in *. simpl. lia.
Qed.

Lemma appendInt_length_pos k n :
  (0 < k)%nat → 0 ≤ n < 10 ^ Z.of_nat k → zlen (appendInt n) ≤ Z.of_nat k.
Proof.
  intros. unfold appendInt. rewrite (proj2 (Z.ltb_ge _ _)) by lia. by apply digits_length.
Qed.

Lemma appendInt_length n : minInt64 ≤ n ≤ maxInt64 → zlen (appendInt n) ≤ 20.
Proof.
  unfold minInt64, maxInt64. intros. unfold appendInt. destruct (Z.ltb_spec n 0).
  - rewrite zlen_cons. pose proof (digits_length 19 20 (- n) ltac:(lia) ltac:(lia)). lia.
  - pose proof (digits_length 19 20 n ltac:(lia) ltac:(lia)). lia.
Qed.

Lemma escape_ascii_length b : zlen (escape_ascii b) ≤ 6.
Proof. unfold escape_ascii. repeat (dcase; [vm_compute; discriminate|]). vm_compute. discriminate. Qed.

(** Escaping makes a string at most six times longer. *)
Lemma quote_body_length l : zlen (quote_body l) ≤ 6 * zlen l.
Proof.
  induction l as [l IH] using (induction_ltof1 _ (@length byte)). unfold ltof in IH.
  destruct l as [|b0 l1]; [done|].
  destruct (utf8_len (b0 :: l1)) as [|[|n]] eqn:Hl; cbn [quote_body]; rewrite Hl.
  - destruct l1 as [|b1 [|b2 [|b3 l4]]];
      (rewrite zlen_app, (zlen_cons b0); match goal with |- context [quote_body ?x] =>
         pose proof (IH x ltac:(simpl; lia)) end; unfold zlen in *; simpl in *; lia).
  - rewrite zlen_app, zlen_cons. pose proof (IH l1 ltac:(simpl; lia)).
    pose proof (escape_ascii_length b0). lia.
  - destruct (utf8_len_cases _ _ _ Hl) as (_&[(->&b1&l2&->&_)
      |[(->&b1&b2&l3&->&_)|(->&b1&b2&b3&l4&->&_)]]).
    + pose proof (IH l2 ltac:(simpl; lia)). zl.
    + pose proof (IH l3 ltac:(simpl; lia)). dcase; zl.
    + pose proof (IH l4 ltac:(simpl; lia)). zl.
Qed.

Lemma base64_length l : 3 * zlen (base64_encode l) ≤ 4 * zlen l + 8.
Proof.
  induction l as [|a|a b|a b c l IH] using triple_ind.
  - done.
  - rewrite base64_encode_1. by vm_compute.
  - rewrite base64_encode_2. by vm_compute.
  - rewrite base64_encode_3. zl.
Qed.
