(* ===== verification/Strings.v ===== *)
(** * Strings of the standard library and the environment

    [strconv.FormatInt], [ParseInt] and [Atoi] in base 10 at 64 bits,
    [strings.TrimSpace] and [Split], [net.JoinHostPort], and the helpers every
    [main] of the repository reads its environment with. *)

From S2P Require Import Prelude Json.

Definition FormatInt (n : Z) : string := string_of_bytes (appendInt n).

(** [strconv.ParseInt(s, 10, 64)]: an optional sign, then digits, within the
    range of an int64.  [Atoi] accepts the same strings. *)
Definition strconv_ParseInt (s : string) : option Z :=
  match bytes_of_string s with
  | b :: r => if b =b x2b
              then match ParseUint r with
                   | Some n => if n <? 2 ^ 63 then Some n else None
                   | None => None
                   end
              else ParseInt (b :: r)
  | [] => None
  end.

(** [unicode.IsSpace]: the UTF-8 encodings of the white space runes. *)
Definition space_runes : list (list byte) :=
  [[x09]; [x0a]; [x0b]; [x0c]; [x0d]; [x20]; [xc2; x85]; [xc2; xa0]; [xe1; x9a; x80];
   [xe2; x80; x80]; [xe2; x80; x81]; [xe2; x80; x82]; [xe2; x80; x83]; [xe2; x80; x84];
   [xe2; x80; x85]; [xe2; x80; x86]; [xe2; x80; x87]; [xe2; x80; x88]; [xe2; x80; x89];
   [xe2; x80; x8a]; [xe2; x80; xa8]; [xe2; x80; xa9]; [xe2; x80; xaf]; [xe2; x81; x9f];
   [xe3; x80; x80]].

(** Drops one of the sequences [seqs] from the front. *)
Definition drop_one (seqs : list (list byte)) (l : list byte) : option (list byte) :=
  (λ p, drop (length p.2) l) <$> list_find (λ s, s = take (length s) l) seqs.

(** Drops as many as there are; each is at least one byte long. *)
Fixpoint drop_all (seqs : list (list byte)) (fuel : nat) (l : list byte) : list byte :=
  match fuel with
  | O => l
  | S fuel => match drop_one seqs l with Some l' => drop_all seqs fuel l' | None => l end
  end.

Definition TrimSpace (s : string) : string :=
  let l := bytes_of_string s in
  let l := drop_all space_runes (length l) l in
  string_of_bytes (reverse (drop_all (reverse <$> space_runes) (length l) (reverse l))).

(** [strings.Split] at a one-byte separator. *)
Fixpoint split_bytes (sep : byte) (l : list byte) : list (list byte) :=
  match l with
  | [] => [[]]
  | b :: l => if b =b sep then [] :: split_bytes sep l
              else match split_bytes sep l with
                   | part :: parts => (b :: part) :: parts
                   | [] => [[b]]
                   end
  end.

(** [net.JoinHostPort]: a host with a colon goes in brackets. *)
Definition JoinHostPort (host port : string) : string :=
  if bool_decide (x3a ∈ bytes_of_string host) then "[" +:+ host +:+ "]:" +:+ port
  else host +:+ ":" +:+ port.

(** ** The environment *)

(** [os.Getenv], and the helpers around it. *)
Definition env := string → string.

Definition envString (getenv : env) (name fallback : string) : string :=
  let value := getenv name in if String.eqb value "" then fallback else value.

Definition envInt (getenv : env) (name : string) (fallback : Z) : Z :=
  let value := getenv name in
  if String.eqb value "" then fallback else
  match strconv_ParseInt value with
  | None => fallback
  | Some parsed => if parsed <=? 0 then fallback else parsed
  end.

Definition envIntAllowZero (getenv : env) (name : string) (fallback : Z) : Z :=
  let value := getenv name in
  if String.eqb value "" then fallback else
  match strconv_ParseInt value with
  | None => fallback
  | Some parsed => if parsed <? 0 then fallback else parsed
  end.

Definition envCSV (getenv : env) (name : string) : list string :=
  let value := getenv name in
  if String.eqb value "" then [] else
  filter (λ part, part ≠ "")
    ((λ part, TrimSpace (string_of_bytes part)) <$> split_bytes x2c (bytes_of_string value)).

Lemma FormatInt_nonempty n : FormatInt n ≠ "".
Proof.
  unfold FormatInt, appendInt. intros H. apply (f_equal bytes_of_string) in H.
  rewrite bytes_string in H. cbn in H. destruct (n <? 0); [done|].
  cbn [digits] in H. destruct (n <? 10); [done|]. by apply app_nil in H as [_ ?].
Qed.

Lemma ParseInt_FormatInt n : minInt64 ≤ n ≤ maxInt64 → strconv_ParseInt (FormatInt n) = Some n.
Proof.
  intros Hn. unfold strconv_ParseInt, FormatInt. rewrite bytes_string.
  pose proof (ParseInt_appendInt n Hn) as Hp.
  destruct (appendInt n) as [|b r] eqn:Ha; [done|].
  assert ((b =b x2b) = false) as ->; [|done].
  unfold appendInt, minInt64, maxInt64 in *. destruct (Z.ltb_spec n 0); [by injection Ha as <- _|].
  destruct (digits_spec 20 n) as (Hd&_&d&l&He&_); [lia..|]. rewrite He in Ha, Hd.
  injection Ha as -> ->. cbn in Hd. by destruct b.
Qed.

Lemma strconv_ParseInt_range s n : strconv_ParseInt s = Some n → minInt64 ≤ n ≤ maxInt64.
Proof.
  unfold strconv_ParseInt, ParseInt, minInt64, maxInt64.
  assert (∀ l m, ParseUint l = Some m → 0 ≤ digits_val l → 0 ≤ m) as Hu
    by (unfold ParseUint; intros l m; repeat case_match; intros; simplify_eq; lia).
  assert (∀ l m, ParseUint l = Some m → 0 ≤ m) as Hpos.
  { intros l m Hm. eapply Hu; [done|]. unfold ParseUint in Hm.
    destruct l as [|b l]; [done|]. destruct (forallb is_digit _) eqn:Hd; [|done].
    clear Hm Hu. unfold digits_val. revert Hd. generalize (b :: l). intros l'.
    assert (∀ acc, 0 ≤ acc → forallb is_digit l' = true →
      0 ≤ foldl (λ acc b, 10 * acc + (Z_of_byte b - 0x30)) acc l') as Hf; [|by apply Hf].
    induction l' as [|x l' IH]; intros acc Hacc; cbn; [done|].
    intros [Hx Hl]%andb_true_iff. apply IH; [|done].
    unfold is_digit, in_range in Hx. bools. lia. }
  repeat case_match; intros; simplify_eq; bools; try lia;
    repeat match goal with H : ParseUint _ = Some _ |- _ => apply Hpos in H end; lia.
Qed.
