(* ===== verification/Durations.v ===== *)
(** * Durations of the standard library and [envDuration]

    [time.ParseDuration] as the standard library writes it: [leadingInt],
    [leadingFraction] and the loop over the terms.  The fraction of a term is
    computed in float64 there; [SpecFloat] is the executable definition of that
    arithmetic. *)

From Stdlib Require Import SpecFloat.
From S2P Require Import Prelude Json Strings.

(** ** float64 *)

Definition f64_of_Z (z : Z) : spec_float := binary_normalize 53 1024 z 0 false.
Definition f64_mul : spec_float → spec_float → spec_float := SFmul 53 1024.
Definition f64_div : spec_float → spec_float → spec_float := SFdiv 53 1024.

(** The conversion of a non-negative float64 to uint64. *)
Definition uint64_of_f64 (f : spec_float) : Z :=
  match f with
  | S754_finite false m e => u64 (if 0 <=? e then Zpos m * 2 ^ e else Zpos m / 2 ^ (- e))
  | _ => 0
  end.

(** ** ParseDuration *)

Definition is_dec (b : byte) : bool := (48 <=? Z_of_byte b) && (Z_of_byte b <=? 57).

(** [None] is [errLeadingInt]. *)
Fixpoint leadingInt (x : Z) (l : list byte) : option (Z * list byte) :=
  match l with
  | c :: r =>
    if negb (is_dec c) then Some (x, l) else
    if 2 ^ 63 / 10 <? x then None else
    let x := u64 (x * 10 + (Z_of_byte c - 48)) in
    if 2 ^ 63 <? x then None else leadingInt x r
  | [] => Some (x, [])
  end.

Fixpoint leadingFraction (overflow : bool) (x : Z) (scale : spec_float) (l : list byte) :
    Z * spec_float * list byte :=
  match l with
  | c :: r =>
    if negb (is_dec c) then (x, scale, l) else
    if overflow then leadingFraction true x scale r else
    if (2 ^ 63 - 1) / 10 <? x then leadingFraction true x scale r else
    let y := u64 (x * 10 + (Z_of_byte c - 48)) in
    if 2 ^ 63 <? y then leadingFraction true x scale r
    else leadingFraction false y (f64_mul scale (f64_of_Z 10)) r
  | [] => (x, scale, [])
  end.

Definition unitMap : list (list byte * Z) :=
  [([x6e; x73], 1);                                       (** ns *)
   ([x75; x73], 1000);                                    (** us *)
   ([xc2; xb5; x73], 1000);                               (** with the micro sign *)
   ([xce; xbc; x73], 1000);                               (** with the letter mu *)
   ([x6d; x73], 1000000);                                 (** ms *)
   ([x73], 1000000000);                                   (** s *)
   ([x6d], 60000000000);                                  (** m *)
   ([x68], 3600000000000)].                               (** h *)

Definition unit_of (u : list byte) : option Z :=
  snd <$> (snd <$> list_find (λ p : list byte * Z, p.1 = u) unitMap).

(** The longest prefix without a digit or a dot, and the rest. *)
Fixpoint span_unit (l : list byte) : list byte * list byte :=
  match l with
  | c :: r => if (c =b x2e) || is_dec c then ([], l)
              else let '(u, rest) := span_unit r in (c :: u, rest)
  | [] => ([], [])
  end.

(** One term: its value in nanoseconds and the rest. *)
Definition duration_term (l : list byte) : option (Z * list byte) :=
  match l with
  | [] => None
  | c :: _ =>
    if negb ((c =b x2e) || is_dec c) then None else
    match leadingInt 0 l with
    | None => None
    | Some (v, s) =>
      let pre := negb (zlen s =? zlen l) in
      let '(f, scale, s, post) :=
        match s with
        | c :: s' =>
          if c =b x2e then
            let '(f, scale, s'') := leadingFraction false 0 (f64_of_Z 1) s' in
            (f, scale, s'', negb (zlen s'' =? zlen s'))
          else (0, f64_of_Z 1, s, false)
        | [] => (0, f64_of_Z 1, s, false)
        end in
      if negb pre && negb post then None else
      let '(u, s) := span_unit s in
      match u with
      | [] => None
      | _ =>
        match unit_of u with
        | None => None
        | Some unit =>
          if 2 ^ 63 / unit <? v then None else
          let v := v * unit in
          if 0 <? f then
            let v := u64 (v + uint64_of_f64 (f64_mul (f64_of_Z f) (f64_div (f64_of_Z unit) scale))) in
            if 2 ^ 63 <? v then None else Some (v, s)
          else Some (v, s)
        end
      end
    end
  end.

(** The loop over the terms; every term takes at least one byte. *)
Fixpoint duration_terms (fuel : nat) (d : Z) (l : list byte) : option Z :=
  match l with
  | [] => Some d
  | _ =>
    match fuel with
    | O => None
    | S fuel =>
      match duration_term l with
      | None => None
      | Some (v, rest) =>
        let d := u64 (d + v) in
        if 2 ^ 63 <? d then None else duration_terms fuel d rest
      end
    end
  end.

(** [None] is an error. *)
Definition ParseDuration (s : string) : option Z :=
  let l := bytes_of_string s in
  let '(neg, l) := match l with
                   | c :: r => if (c =b x2d) || (c =b x2b) then (c =b x2d, r) else (false, l)
                   | [] => (false, l)
                   end in
  if bool_decide (l = [x30]) then Some 0 else
  match l with
  | [] => None
  | _ =>
    match duration_terms (length l) 0 l with
    | None => None
    | Some d => if neg then Some (i64 (- i64 d)) else if maxInt64 <? d then None else Some d
    end
  end.

Definition envDuration (getenv : env) (name : string) (fallback : Z) : Z :=
  let value := getenv name in
  if String.eqb value "" then fallback else
  match ParseDuration value with
  | None => fallback
  | Some parsed => if parsed <=? 0 then fallback else parsed
  end.
