(* ===== verification/Times.v ===== *)
(** * Times as JSON text

    [time.Time] in JSON as the standard library writes and reads it: RFC 3339
    with up to nine digits of a second.  A time is its distance to the Unix
    epoch in nanoseconds; the rows that cross the control RPC are in UTC. *)

From S2P Require Import Prelude Json.

(** ** The calendar *)

Definition isLeap (year : Z) : bool :=
  (year mod 4 =? 0) && (negb (year mod 100 =? 0) || (year mod 400 =? 0)).

(** The days of a year before each month, January first, in a common year. *)
Definition daysBefore (month : Z) : Z :=
  nth (Z.to_nat (month - 1)) [0; 31; 59; 90; 120; 151; 181; 212; 243; 273; 304; 334; 365] 0.

Definition leap_day (year month : Z) : Z := if isLeap year && (3 <=? month) then 1 else 0.

Definition daysIn (month year : Z) : Z :=
  if (month =? 2) && isLeap year then 29 else daysBefore (month + 1) - daysBefore month.

(** Days are counted from 1 January of the year 1; 400 years have 146097
    days, 100 years 36524 or one more, 4 years 1461 or one less. *)
Definition days_of_date (year month day : Z) : Z :=
  let y := year - 1 in
  146097 * (y / 400) + 36524 * (y mod 400 / 100) + 1461 * (y mod 100 / 4) + 365 * (y mod 4)
  + daysBefore month + leap_day year month + (day - 1).

(** The year and the day of the year, from 0. *)
Definition year_of_days (d : Z) : Z * Z :=
  let n400 := d / 146097 in let d := d mod 146097 in
  let n100 := Z.min (d / 36524) 3 in let d := d - 36524 * n100 in
  let n4 := d / 1461 in let d := d mod 1461 in
  let n1 := Z.min (d / 365) 3 in
  (400 * n400 + 100 * n100 + 4 * n4 + n1 + 1, d - 365 * n1).

(** The first month, from [month] on, that the day of the year is in. *)
Fixpoint month_of (fuel : nat) (year yday month : Z) : Z :=
  match fuel with
  | O => month
  | S fuel =>
    if yday <? daysBefore (month + 1) + leap_day year (month + 1) then month
    else month_of fuel year yday (month + 1)
  end.

Definition date_of_days (d : Z) : Z * Z * Z :=
  let '(year, yday) := year_of_days d in
  let month := month_of 11 year yday 1 in
  (year, month, yday - daysBefore month - leap_day year month + 1).

(** ** Clock *)

Definition unix_epoch_days : Z := 719162.
Definition second : Z := 1000000000.

Definition Date (year month day hour min sec nsec : Z) : Z :=
  (((days_of_date year month day - unix_epoch_days) * 86400) + hour * 3600 + min * 60 + sec) * second
  + nsec.

(** ** Format *)

(** [appendInt] with a width. *)
Fixpoint pad (width : nat) (n : Z) : list byte :=
  match width with
  | O => []
  | S width => pad width (n / 10) ++ [digit (n mod 10)]
  end.

Fixpoint trim_left (l : list byte) : list byte :=
  match l with
  | [] => []
  | b :: r => if b =b x30 then trim_left r else l
  end.

(** [appendNano] with the layout [.999999999]: trailing zeros are dropped. *)
Definition appendNano (nsec : Z) : list byte :=
  match trim_left (reverse (pad 9 nsec)) with
  | [] => []
  | l => x2e :: reverse l
  end.

(** [Time.MarshalJSON] of a time in UTC, without the quotes; [None] is the
    error for a year that does not have four digits. *)
Definition format_time (t : Z) : option (list byte) :=
  let sec := t / second in
  let '(year, month, day) := date_of_days (sec / 86400 + unix_epoch_days) in
  let clock := sec mod 86400 in
  if (0 <=? year) && (year <=? 9999) then
    Some (pad 4 year ++ x2d :: pad 2 month ++ x2d :: pad 2 day ++ x54 ::
          pad 2 (clock / 3600) ++ x3a :: pad 2 (clock / 60 mod 60) ++ x3a :: pad 2 (clock mod 60) ++
          appendNano (t mod second) ++ [x5a])
  else None.

(** ** Parse *)

(** [parseUint] with bounds on a slice of digits. *)
Definition parseUint (l : list byte) (min max : Z) : option Z :=
  if forallb is_digit l && (min <=? digits_val l) && (digits_val l <=? max)
  then Some (digits_val l) else None.

(** [parseNanoseconds] on the digits after the point; those after the ninth
    are ignored. *)
Definition parseNanoseconds (l : list byte) : Z :=
  let l := take 9 l in digits_val l * 10 ^ (9 - zlen l).

(** The zone of a time: the seconds to subtract. *)
Definition parse_zone (l : list byte) : option Z :=
  match l with
  | [z] => if z =b x5a then Some 0 else None
  | [s; h1; h2; c; m1; m2] =>
    h ← parseUint [h1; h2] 0 23; m ← parseUint [m1; m2] 0 59;
    if c =b x3a then
      if s =b x2d then Some (- ((h * 60 + m) * 60)) else
      if s =b x2b then Some ((h * 60 + m) * 60) else None
    else None
  | _ => None
  end.

Definition parse_fraction (l : list byte) : Z * list byte :=
  match l with
  | p :: r =>
    let '(ds, rest) := span_digits r in
    if (p =b x2e) && (0 <? zlen ds) then (parseNanoseconds ds, rest) else (0, l)
  | [] => (0, l)
  end.

(** [parseRFC3339], on the text between the quotes. *)
Definition parseRFC3339 (l : list byte) : option Z :=
  match l with
  | y1 :: y2 :: y3 :: y4 :: d1 :: mo1 :: mo2 :: d2 :: da1 :: da2 :: t :: h1 :: h2 :: c1 :: mi1 :: mi2
    :: c2 :: s1 :: s2 :: rest =>
    year ← parseUint [y1; y2; y3; y4] 0 9999;
    month ← parseUint [mo1; mo2] 1 12;
    day ← parseUint [da1; da2] 1 (daysIn month year);
    hour ← parseUint [h1; h2] 0 23;
    min ← parseUint [mi1; mi2] 0 59;
    sec ← parseUint [s1; s2] 0 59;
    if (d1 =b x2d) && (d2 =b x2d) && (t =b x54) && (c1 =b x3a) && (c2 =b x3a) then
      let '(nsec, rest) := parse_fraction rest in
      offset ← parse_zone rest;
      Some (Date year month day hour min sec nsec - offset * second)
    else None
  | _ => None
  end.

(** [Time.UnmarshalJSON].  A text that is not of the strict form is given to
    [time.Parse], which accepts a little more: the argument [lenient].  The
    decoder hands over the text as it stands; the texts here have no escapes. *)
Definition store_time (lenient : list byte → option Z) (v : json) (old : Z) : option Z :=
  match v with
  | JNull => Some old
  | JStr s => match parseRFC3339 s with Some t => Some t | None => lenient s end
  | _ => None
  end.

(** ** The calendar round trip *)

Lemma year_parts a b c e :
  0 ≤ b ≤ 3 → 0 ≤ c ≤ 24 → 0 ≤ e ≤ 3 →
  let y := 400 * a + 100 * b + 4 * c + e in
  y / 400 = a ∧ y mod 400 / 100 = b ∧ y mod 100 / 4 = c ∧ y mod 4 = e.
Proof.
  intros Hb Hc He y. subst y.
  assert ((400 * a + 100 * b + 4 * c + e) mod 400 = 100 * b + 4 * c + e) as ->.
  { symmetry. apply (Z.mod_unique _ _ a); lia. }
  assert ((400 * a + 100 * b + 4 * c + e) mod 100 = 4 * c + e) as ->.
  { symmetry. apply (Z.mod_unique _ _ (4 * a + b)); lia. }
  split_and!; symmetry.
  - apply (Z.div_unique _ _ _ (100 * b + 4 * c + e)); lia.
  - apply (Z.div_unique _ _ _ (4 * c + e)); lia.
  - apply (Z.div_unique _ _ _ e); lia.
  - apply (Z.mod_unique _ _ (100 * a + 25 * b + c)); lia.
Qed.

Lemma year_of_days_spec d :
  let '(year, yday) := year_of_days d in
  0 ≤ yday < 365 + (if isLeap year then 1 else 0) ∧
  d = 146097 * ((year - 1) / 400) + 36524 * ((year - 1) mod 400 / 100)
      + 1461 * ((year - 1) mod 100 / 4) + 365 * ((year - 1) mod 4) + yday.
Proof.
  unfold year_of_days.
  pose proof (Z.mod_pos_bound d 146097 eq_refl) as Hb. pose proof (Z.div_mod d 146097 ltac:(done)) as Hd.
  set (a := d / 146097) in *. set (r := d mod 146097) in *.
  assert (∃ b, Z.min (r / 36524) 3 = b ∧ 0 ≤ b ≤ 3 ∧ 0 ≤ r - 36524 * b ≤ 36524 ∧
    (b < 3 → r - 36524 * b < 36524)) as (b&->&Hb1&Hb2&Hb3).
  { eexists. split; [done|]. Z.to_euclidean_division_equations; lia. }
  set (r2 := r - 36524 * b) in *.
  pose proof (Z.mod_pos_bound r2 1461 eq_refl) as Hc. pose proof (Z.div_mod r2 1461 ltac:(done)) as Hd2.
  set (c := r2 / 1461) in *. set (r3 := r2 mod 1461) in *.
  assert (0 ≤ c ≤ 24) as Hc2 by lia.
  assert (∃ e, Z.min (r3 / 365) 3 = e ∧ 0 ≤ e ≤ 3 ∧ 0 ≤ r3 - 365 * e ≤ 365 ∧
    (e < 3 → r3 - 365 * e < 365)) as (e&->&He1&He2&He3).
  { eexists. split; [done|]. Z.to_euclidean_division_equations; lia. }
  destruct (year_parts a b c e Hb1 Hc2 He1) as (P1&P2&P3&P4).
  replace (400 * a + 100 * b + 4 * c + e + 1 - 1) with (400 * a + 100 * b + 4 * c + e) by lia.
  rewrite P1, P2, P3, P4. split; [|lia].
  destruct (isLeap _) eqn:Hl; [lia|]. split; [lia|].
  unfold isLeap in Hl. clearbody a r r2 c r3.
  apply andb_false_iff in Hl as [Hl|[Hl1 Hl2]%orb_false_iff].
  - apply Z.eqb_neq in Hl. assert (e ≠ 3); [|lia]. intros ->. apply Hl.
    symmetry. apply (Z.mod_unique _ _ (100 * a + 25 * b + c + 1)); lia.
  - apply negb_false_iff, Z.eqb_eq in Hl1. apply Z.eqb_neq in Hl2.
    assert (e = 3 ∧ c = 24) as [-> ->] by (Z.to_euclidean_division_equations; lia).
    assert (b ≠ 3); [|lia]. intros ->. apply Hl2.
    symmetry. apply (Z.mod_unique _ _ (a + 1)); lia.
Qed.

Lemma month_of_spec year yday :
  0 ≤ yday < 365 + (if isLeap year then 1 else 0) →
  let month := month_of 11 year yday 1 in
  1 ≤ month ≤ 12 ∧
  0 ≤ yday - daysBefore month - leap_day year month < daysIn month year.
Proof.
  intros Hy. unfold daysIn, leap_day in *. cbn [month_of].
  unfold leap_day. destruct (isLeap year); cbn [andb];
    repeat match goal with
    | |- context [if ?a <? ?b then _ else _] =>
      let r := eval vm_compute in b in change b with r; destruct (Z.ltb_spec yday r)
    end; match goal with
    | |- context [daysBefore] => split; [lia|]; vm_compute daysBefore; simpl; lia
    end.
Qed.

Lemma date_of_days_spec d :
  let '(year, month, day) := date_of_days d in
  1 ≤ month ≤ 12 ∧ 1 ≤ day ≤ daysIn month year ∧ days_of_date year month day = d.
Proof.
  unfold date_of_days. pose proof (year_of_days_spec d) as Hs.
  destruct (year_of_days d) as [year yday]. destruct Hs as [Hy Hd].
  destruct (month_of_spec year yday Hy) as [Hm Hday].
  split_and!; [lia..|]. unfold days_of_date. lia.
Qed.

Lemma daysIn_bound month year : 1 ≤ month ≤ 12 → daysIn month year ≤ 31.
Proof.
  intros Hm. unfold daysIn. destruct (_ && _); [lia|].
  assert (month ∈ [1; 2; 3; 4; 5; 6; 7; 8; 9; 10; 11; 12]) as Hin.
  { rewrite !elem_of_cons. lia. }
  repeat (apply elem_of_cons in Hin as [->|Hin]; [by vm_compute|]). by apply elem_of_nil in Hin.
Qed.

(** ** Digits *)

Lemma pad_length w n : length (pad w n) = w.
Proof. revert n. induction w; intros n; simpl; [done|]. rewrite length_app, IHw. simpl. lia. Qed.

Lemma pad_digits w n : forallb is_digit (pad w n) = true.
Proof.
  revert n. induction w; intros n; simpl; [done|].
  rewrite forallb_app, IHw. simpl. rewrite is_digit_digit; [done|]. apply Z.mod_pos_bound. lia.
Qed.

Lemma pad_val w n : 0 ≤ n < 10 ^ Z.of_nat w → digits_val (pad w n) = n.
Proof.
  revert n. induction w as [|w IH]; intros n Hn; [simpl in *; unfold digits_val; simpl; lia|].
  rewrite Nat2Z.inj_succ, Z.pow_succ_r in Hn by lia.
  cbn [pad]. rewrite digits_val_snoc, IH.
  - rewrite Z_of_digit by (apply Z.mod_pos_bound; lia). pose proof (Z.div_mod n 10 ltac:(lia)). lia.
  - split; [apply Z.div_pos; lia|]. apply Z.div_lt_upper_bound; lia.
Qed.

Lemma parseUint_pad w n lo hi :
  0 ≤ n < 10 ^ Z.of_nat w → lo ≤ n ≤ hi → parseUint (pad w n) lo hi = Some n.
Proof.
  intros Hn Hb. unfold parseUint. rewrite pad_digits, pad_val by done.
  rewrite !(proj2 (Z.leb_le _ _)) by lia. done.
Qed.

(** The value of a fraction does not depend on its trailing zeros. *)
Lemma trim_left_value l :
  forallb is_digit l = true → zlen l ≤ 9 →
  forallb is_digit (trim_left l) = true ∧ zlen (trim_left l) ≤ 9 ∧
  digits_val (reverse (trim_left l)) * 10 ^ (9 - zlen (trim_left l))
  = digits_val (reverse l) * 10 ^ (9 - zlen l).
Proof.
  induction l as [|b l IH]; intros Hd Hl; [done|]. cbn [trim_left].
  destruct (byte_eqb_spec b x30) as [->|]; [|done].
  rewrite zlen_cons in *. cbn [forallb] in Hd. apply andb_true_iff in Hd as [_ Hd].
  destruct (IH Hd ltac:(lia)) as (?&?&->). split_and!; [done..|].
  rewrite reverse_cons, digits_val_snoc. change (Z_of_byte x30 - 0x30) with 0.
  replace (9 - zlen l) with (Z.succ (9 - (1 + zlen l))) by lia.
  rewrite Z.pow_succ_r by lia. lia.
Qed.

Lemma forallb_reverse {A} (p : A → bool) l : forallb p (reverse l) = forallb p l.
Proof.
  induction l as [|x l IH]; [done|]. rewrite reverse_cons, forallb_app, IH. simpl.
  rewrite andb_true_r. apply andb_comm.
Qed.

Lemma parse_fraction_nano n :
  0 ≤ n < second → parse_fraction (appendNano n ++ [x5a]) = (n, [x5a]).
Proof.
  intros Hn. unfold appendNano.
  assert (zlen (reverse (pad 9 n)) = 9) as Hlen by (unfold zlen; by rewrite length_reverse, pad_length).
  destruct (trim_left_value (reverse (pad 9 n))) as (Hd&Hl&Hv);
    [by rewrite forallb_reverse, pad_digits|lia|].
  rewrite reverse_involutive, Hlen, pad_val in Hv by done. change (10 ^ (9 - 9)) with 1 in Hv.
  destruct (trim_left (reverse (pad 9 n))) as [|b l].
  - change (digits_val (reverse [])) with 0 in Hv. assert (n = 0) as -> by lia. done.
  - cbn [app parse_fraction]. rewrite span_digits_app by (done || by rewrite forallb_reverse).
    assert (zlen (reverse (b :: l)) = zlen (b :: l)) as Hz by (unfold zlen; by rewrite length_reverse).
    rewrite Hz, (proj2 (Z.ltb_lt _ _)) by (rewrite zlen_cons; pose proof (zlen_nonneg l); lia).
    unfold parseNanoseconds. rewrite take_ge by (unfold zlen in *; lia). rewrite Hz, Hv.
    change (x2e =b x2e) with true. cbn [andb]. f_equal. lia.
Qed.

(** ** Round trip *)

Lemma pad2 n : ∃ a b, pad 2 n = [a; b].
Proof. by eexists _, _. Qed.
Lemma pad4 n : ∃ a b c d, pad 4 n = [a; b; c; d].
Proof. by eexists _, _, _, _. Qed.

Lemma time_round_trip t text : format_time t = Some text → parseRFC3339 text = Some t.
Proof.
  unfold format_time. pose proof (date_of_days_spec (t / second / 86400 + unix_epoch_days)) as Hd.
  destruct (date_of_days _) as [[year month] day]. destruct Hd as (Hm&Hday&Hdays).
  destruct (_ && _) eqn:Hy; [|done]. apply andb_true_iff in Hy as [Hy1%Z.leb_le Hy2%Z.leb_le].
  intros <-%(inj Some). pose proof (daysIn_bound month year Hm).
  set (clock := t / second mod 86400) in *.
  assert (0 ≤ clock < 86400) as Hclock by (apply Z.mod_pos_bound; lia).
  pose proof (parseUint_pad 4 year 0 9999 ltac:(simpl; lia) ltac:(lia)) as Py.
  pose proof (parseUint_pad 2 month 1 12 ltac:(simpl; lia) ltac:(lia)) as Pm.
  pose proof (parseUint_pad 2 day 1 (daysIn month year) ltac:(simpl; lia) ltac:(lia)) as Pd.
  assert (0 ≤ clock / 3600 < 24) as Hh.
  { split; [apply Z.div_pos; lia|apply Z.div_lt_upper_bound; lia]. }
  pose proof (Z.mod_pos_bound (clock / 60) 60 ltac:(lia)) as Hmi.
  pose proof (Z.mod_pos_bound clock 60 ltac:(lia)) as Hs.
  pose proof (parseUint_pad 2 (clock / 3600) 0 23 ltac:(simpl; lia) ltac:(lia)) as Ph.
  pose proof (parseUint_pad 2 (clock / 60 mod 60) 0 59 ltac:(simpl; lia) ltac:(lia)) as Pmi.
  pose proof (parseUint_pad 2 (clock mod 60) 0 59 ltac:(simpl; lia) ltac:(lia)) as Ps.
  destruct (pad4 year) as (?&?&?&?&Ey), (pad2 month) as (?&?&Em), (pad2 day) as (?&?&Ed),
    (pad2 (clock / 3600)) as (?&?&Eh), (pad2 (clock / 60 mod 60)) as (?&?&Emi),
    (pad2 (clock mod 60)) as (?&?&Es).
  rewrite Ey, Em, Ed, Eh, Emi, Es in *. cbn [app]. unfold parseRFC3339. cbv iota.
  rewrite Py. cbn [mbind option_bind]. rewrite Pm. cbn [mbind option_bind]. rewrite Pd.
  cbn [mbind option_bind]. rewrite Ph. cbn [mbind option_bind]. rewrite Pmi.
  cbn [mbind option_bind]. rewrite Ps. cbn [mbind option_bind].
  change (x2d =b x2d) with true. change (x54 =b x54) with true. change (x3a =b x3a) with true.
  cbn [andb]. rewrite parse_fraction_nano by (apply Z.mod_pos_bound; done).
  cbn [parse_zone]. change (x5a =b x5a) with true. cbn [mbind option_bind].
  f_equal. unfold Date. rewrite Hdays.
  pose proof (Z.div_mod t second ltac:(done)).
  pose proof (Z.div_mod (t / second) 86400 ltac:(done)) as Hsec. fold clock in Hsec.
  assert (clock = clock / 3600 * 3600 + clock / 60 mod 60 * 60 + clock mod 60) as Hc.
  { clear -Hclock. clearbody clock. Z.to_euclidean_division_equations. lia. }
  unfold second in *. lia.
Qed.

Lemma digits_ascii l : forallb is_digit l = true → Forall (λ b, in_range 0 0x7F b = true) l.
Proof.
  induction l as [|b l IH]; simpl; [constructor|]. intros [Hb Hl]%andb_true_iff.
  constructor; [by destruct b|by apply IH].
Qed.

Lemma format_time_ascii t text :
  format_time t = Some text → Forall (λ b, in_range 0 0x7F b = true) text.
Proof.
  unfold format_time. destruct (date_of_days _) as [[year month] day]. destruct (_ && _); [|done].
  intros <-%(inj Some).
  assert (∀ w n, Forall (λ b, in_range 0 0x7F b = true) (pad w n)) as Hp.
  { intros. apply digits_ascii, pad_digits. }
  assert (Forall (λ b, in_range 0 0x7F b = true) (appendNano (t mod second))) as Hn.
  { unfold appendNano. destruct (trim_left_value (reverse (pad 9 (t mod second)))) as (Hd&_).
    - by rewrite forallb_reverse, pad_digits.
    - unfold zlen. by rewrite length_reverse, pad_length.
    - destruct (trim_left _); [constructor|]. constructor; [done|].
      apply digits_ascii. by rewrite forallb_reverse. }
  repeat first [apply Forall_app; split; [done|] | apply Forall_cons; split; [done|]]. constructor.
Qed.

(** Every time an [int64] of nanoseconds can name has a text. *)
Lemma format_time_int64 t : minInt64 ≤ t ≤ maxInt64 → is_Some (format_time t).
Proof.
  intros Ht. unfold format_time.
  set (d := t / second / 86400 + unix_epoch_days).
  assert (0 ≤ d < 1000000) as Hd.
  { unfold d, second, unix_epoch_days, minInt64, maxInt64 in *.
    split; [|apply Z.lt_add_lt_sub_r, Z.div_lt_upper_bound, Z.div_lt_upper_bound; lia].
    assert (-719162 ≤ t / 1000000000 / 86400); [|lia].
    apply Z.div_le_lower_bound; [lia|]. apply Z.div_le_lower_bound; lia. }
  clearbody d. unfold date_of_days. pose proof (year_of_days_spec d) as Hs.
  destruct (year_of_days d) as [year yday]. destruct Hs as [Hy Hs].
  assert (yday ≤ 365) by (destruct (isLeap year); lia).
  assert (0 ≤ year ≤ 9999) as Hr by (Z.to_euclidean_division_equations; lia).
  rewrite !(proj2 (Z.leb_le _ _)) by lia. by eexists.
Qed.

(** The zero [time.Time]. *)
Definition zero_time : Z := Date 1 1 1 0 0 0 0.

Lemma format_zero_time : is_Some (format_time zero_time).
Proof. eexists. vm_compute. reflexivity. Qed.
