(* ===== verification/Records.v ===== *)
(** * Wire and row types

    [oplog.Entry] ([internal/oplog/oplog.go]), [store.EntryRef] and
    [store.EntryRecord] ([internal/store/store.go]), the bridge
    [recordFromEntry] and the expiry test of the sidecar
    ([internal/sidecar/control.go], [ttl.go]), and the fence order
    [(generation, epoch, owner_seq, writer_id)] every component compares by. *)

From S2P Require Import Prelude.

(** ** oplog.Entry *)

Definition OpSet : string := "set".
Definition OpDelete : string := "delete".
Definition OpExpire : string := "expire".

Record Entry := mkEntry {
  Version : Z;
  Op : string;
  DMap : string;
  Key : string;
  HKey : Z;
  EncodedEntry : list byte;
  TTL : Z;
  Timestamp : Z;
  Generation : Z;
  Epoch : Z;
  OwnerSeq : Z;
  WriterID : string;
  UpdatedAtUnixNano : Z }.

#[export] Instance Entry_eq_dec : EqDecision Entry.
Proof. solve_decision. Defined.

(** ** store.EntryRef and store.EntryRecord *)

Record EntryRef := mkRef { ref_DMap : string; ref_Key : string; ref_HKey : Z }.

#[export] Instance EntryRef_eq_dec : EqDecision EntryRef.
Proof. solve_decision. Defined.
#[export] Instance EntryRef_countable : Countable EntryRef.
Proof.
  refine (inj_countable' (λ r, (ref_DMap r, ref_Key r, ref_HKey r))
    (λ '(d, k, h), mkRef d k h) _). by intros [].
Defined.

Record EntryRecord := mkRecord {
  rec_DMap : string;
  rec_Key : string;
  rec_HKey : Z;
  rec_EncodedEntry : list byte;
  rec_TTL : Z;
  rec_Timestamp : Z;
  rec_Tombstone : bool;
  rec_Generation : Z;
  rec_Epoch : Z;
  rec_OwnerSeq : Z;
  rec_WriterID : string;
  rec_UpdatedAt : Z }.

#[export] Instance EntryRecord_eq_dec : EqDecision EntryRecord.
Proof. solve_decision. Defined.

(** [EntryRecord.Ref]. *)
Definition Ref (r : EntryRecord) : EntryRef := mkRef (rec_DMap r) (rec_Key r) (rec_HKey r).

(** The coordinates of an oplog entry. *)
Definition entryRef (e : Entry) : EntryRef := mkRef (DMap e) (Key e) (HKey e).

Definition recordFromEntry (e : Entry) : EntryRecord := {|
  rec_DMap := DMap e;
  rec_Key := Key e;
  rec_HKey := HKey e;
  rec_EncodedEntry := EncodedEntry e;
  rec_TTL := TTL e;
  rec_Timestamp := Timestamp e;
  rec_Tombstone := bool_decide (Op e = OpDelete);
  rec_Generation := Generation e;
  rec_Epoch := Epoch e;
  rec_OwnerSeq := OwnerSeq e;
  rec_WriterID := WriterID e;
  rec_UpdatedAt := UpdatedAtUnixNano e |}.

(** ** Time

    A [time.Time] is its distance to the Unix epoch in nanoseconds;
    [UnixMilli] rounds down. *)
Definition UnixMilli (t : Z) : Z := t / 1000000.

Definition recordExpiredAt (rec : EntryRecord) (now : Z) : bool :=
  if rec_TTL rec <=? 0 then false else rec_TTL rec <=? UnixMilli now.

(** A time to live that has not run out for the sidecar. *)
Definition alive (ttl now : Z) : Prop := ttl ≤ 0 ∨ UnixMilli now < ttl.

Lemma alive_earlier ttl now now' : now ≤ now' → alive ttl now' → alive ttl now.
Proof.
  unfold alive, UnixMilli. intros Hle [|Hlt]; [by left|right].
  pose proof (Z.div_le_mono now now' 1000000 ltac:(lia) Hle). lia.
Qed.

(** ** Fences *)

Record fence := mkFence { f_gen : Z; f_epoch : Z; f_seq : Z; f_writer : string }.

#[export] Instance fence_eq_dec : EqDecision fence.
Proof. solve_decision. Defined.

Definition record_fence (r : EntryRecord) : fence :=
  mkFence (rec_Generation r) (rec_Epoch r) (rec_OwnerSeq r) (rec_WriterID r).
Definition entry_fence (e : Entry) : fence :=
  mkFence (Generation e) (Epoch e) (OwnerSeq e) (WriterID e).

(** What a client relies on when it orders writer identifiers: a strict
    total order.  The comparison itself is the database's collation. *)
Class WriterOrder := {
  writer_gtb : string → string → bool;
  writer_irrefl : ∀ a, writer_gtb a a = false;
  writer_trans : ∀ a b c, writer_gtb a b = true → writer_gtb b c = true → writer_gtb a c = true;
  writer_total : ∀ a b, a ≠ b → writer_gtb a b = true ∨ writer_gtb b a = true }.

(** Strict lexicographic order on fences. *)
Definition fence_gt `{WriterOrder} (a b : fence) : bool :=
  (f_gen b <? f_gen a)
  || ((f_gen a =? f_gen b) && (f_epoch b <? f_epoch a))
  || ((f_gen a =? f_gen b) && (f_epoch a =? f_epoch b) && (f_seq b <? f_seq a))
  || ((f_gen a =? f_gen b) && (f_epoch a =? f_epoch b) && (f_seq a =? f_seq b)
      && writer_gtb (f_writer a) (f_writer b)).

Definition fence_ge `{WriterOrder} (a b : fence) : Prop := fence_gt b a = false.

(** ** The fence order is a strict total order *)

Section fences.
Context `{WriterOrder}.

Lemma fence_gt_spec a b :
  fence_gt a b = true ↔
  f_gen b < f_gen a ∨
  (f_gen a = f_gen b ∧
   (f_epoch b < f_epoch a ∨
    (f_epoch a = f_epoch b ∧
     (f_seq b < f_seq a ∨
      (f_seq a = f_seq b ∧ writer_gtb (f_writer a) (f_writer b) = true))))).
Proof.
  unfold fence_gt. rewrite !orb_true_iff, !andb_true_iff, !Z.ltb_lt, !Z.eqb_eq. tauto.
Qed.

Lemma fence_gt_irrefl a : fence_gt a a = false.
Proof.
  apply not_true_iff_false. rewrite fence_gt_spec, writer_irrefl. intuition lia.
Qed.

Lemma fence_gt_trans a b c : fence_gt a b = true → fence_gt b c = true → fence_gt a c = true.
Proof.
  rewrite !fence_gt_spec. intros Hab Hbc.
  assert (writer_gtb (f_writer a) (f_writer b) = true →
          writer_gtb (f_writer b) (f_writer c) = true →
          writer_gtb (f_writer a) (f_writer c) = true) by apply writer_trans.
  destruct (Z.lt_trichotomy (f_gen a) (f_gen c)) as [|[|]]; [lia| |by left].
  right. split; [done|].
  destruct (Z.lt_trichotomy (f_epoch a) (f_epoch c)) as [|[|]]; [lia| |by left].
  right. split; [done|].
  destruct (Z.lt_trichotomy (f_seq a) (f_seq c)) as [|[|]]; [lia| |by left].
  right. split; [done|]. intuition lia.
Qed.

Lemma fence_gt_total a b : a = b ∨ fence_gt a b = true ∨ fence_gt b a = true.
Proof.
  rewrite !fence_gt_spec. destruct a as [ga ea sa wa], b as [gb eb sb wb]; simpl.
  destruct (Z.lt_trichotomy ga gb) as [|[->|]]; [by right; right; left| |by right; left; left].
  destruct (Z.lt_trichotomy ea eb) as [|[->|]]; [right; right; right; lia| |right; left; right; lia].
  destruct (Z.lt_trichotomy sa sb) as [|[->|]]; [right; right; right; lia| |right; left; right; lia].
  destruct (decide (wa = wb)) as [->|Hne]; [by left|].
  destruct (writer_total _ _ Hne) as [?|?]; [right; left|right; right]; intuition.
Qed.

Lemma fence_gt_asym a b : fence_gt a b = true → fence_gt b a = false.
Proof.
  intros Hab. destruct (fence_gt b a) eqn:Hba; [|done].
  pose proof (fence_gt_trans _ _ _ Hab Hba) as Hc. by rewrite fence_gt_irrefl in Hc.
Qed.

Lemma fence_ge_refl a : fence_ge a a.
Proof. apply fence_gt_irrefl. Qed.

Lemma fence_gt_ge a b : fence_gt a b = true → fence_ge a b.
Proof. apply fence_gt_asym. Qed.

Lemma fence_ge_spec a b : fence_ge a b ↔ a = b ∨ fence_gt a b = true.
Proof.
  unfold fence_ge. split.
  - intros Hb. destruct (fence_gt_total a b) as [|[|Hx]]; auto. congruence.
  - intros [->|?]; [apply fence_gt_irrefl|by apply fence_gt_asym].
Qed.

Lemma fence_ge_gen a b : fence_ge a b → f_gen b ≤ f_gen a.
Proof. rewrite fence_ge_spec, fence_gt_spec. intros [->|]; lia. Qed.

Lemma fence_ge_trans a b c : fence_ge a b → fence_ge b c → fence_ge a c.
Proof.
  rewrite !fence_ge_spec. intros [->|Hab] [->|Hbc]; auto.
  right. exact (fence_gt_trans _ _ _ Hab Hbc).
Qed.

Lemma fence_ge_antisym a b : fence_ge a b → fence_ge b a → a = b.
Proof.
  intros Ha Hb. apply fence_ge_spec in Ha as [|Ha], Hb as [|Hb]; auto.
  pose proof (fence_gt_asym _ _ Ha). congruence.
Qed.
End fences.

#[export] Hint Resolve fence_ge_refl fence_gt_ge : olric.

(** ** A concrete writer order: the binary collation *)

Lemma ascii_compare_trans a b c :
  Ascii.compare a b = Lt → Ascii.compare b c = Lt → Ascii.compare a c = Lt.
Proof. unfold Ascii.compare. rewrite !N.compare_lt_iff. lia. Qed.

Lemma ascii_compare_eq a b : Ascii.compare a b = Eq → a = b.
Proof. apply Ascii.compare_eq_iff. Qed.

Lemma string_compare_trans a b c :
  String.compare a b = Lt → String.compare b c = Lt → String.compare a c = Lt.
Proof.
  revert b c. induction a as [|x a IH]; intros [|y b] [|z c]; simpl; try done.
  destruct (Ascii.compare x y) eqn:Hxy; try done.
  - apply ascii_compare_eq in Hxy as ->. destruct (Ascii.compare y z); try done. apply IH.
  - destruct (Ascii.compare y z) eqn:Hyz; try done.
    + apply ascii_compare_eq in Hyz as ->. by rewrite Hxy.
    + by rewrite (ascii_compare_trans _ _ _ Hxy Hyz).
Qed.

Lemma string_compare_refl a : String.compare a a = Eq.
Proof.
  induction a as [|x a IH]; simpl; [done|]. unfold Ascii.compare. by rewrite N.compare_refl.
Qed.

Lemma string_ltb_lt a b : String.ltb a b = true ↔ String.compare a b = Lt.
Proof. unfold String.ltb. by destruct (String.compare a b). Qed.

#[export] Program Instance binary_collation : WriterOrder := {|
  writer_gtb a b := String.ltb b a |}.
Next Obligation. intros a. unfold String.ltb. by rewrite string_compare_refl. Qed.
Next Obligation.
  intros a b c. rewrite !string_ltb_lt. intros. by eapply string_compare_trans.
Qed.
Next Obligation.
  intros a b Hne. rewrite !string_ltb_lt. destruct (String.compare b a) eqn:Hc; auto.
  - by apply String.compare_eq_iff in Hc.
  - right. rewrite String.compare_antisym, Hc. done.
Qed.
