(* ===== verification/Oplog.v ===== *)
(** * The oplog wire format ([internal/oplog/oplog.go])

    [Encode] and [Decode] of the entries that cross the shared-memory ring.
    The theorems: every accepted payload carries a complete fence; encoding
    and decoding is the identity on entries with valid UTF-8 names; and names
    that are not valid UTF-8 do not survive. *)

From S2P Require Import Prelude Records Json.

Definition currentVersion : Z := 1.

Inductive oplog_err :=
| DecodeJSON | UnsupportedVersion | UnknownOp | EmptyDMap | MissingFence | EmptyWriter.

Definition set_version (v : Z) (e : Entry) : Entry :=
  mkEntry v (Op e) (DMap e) (Key e) (HKey e) (EncodedEntry e) (TTL e) (Timestamp e)
    (Generation e) (Epoch e) (OwnerSeq e) (WriterID e) (UpdatedAtUnixNano e).

(** The members [json.Marshal] writes, in the order of the struct; [omitempty]
    leaves out an empty slice and zero numbers. *)
Definition entry_members (e : Entry) : list (string * field) :=
  [("v", FInt (Version e)); ("op", FStr (Op e)); ("dmap", FStr (DMap e)); ("key", FStr (Key e));
   ("hkey", FInt (HKey e))] ++
  (match EncodedEntry e with [] => [] | l => [("entry", FBytes l)] end) ++
  (if TTL e =? 0 then [] else [("ttl", FInt (TTL e))]) ++
  (if Timestamp e =? 0 then [] else [("ts", FInt (Timestamp e))]) ++
  [("g", FInt (Generation e)); ("e", FInt (Epoch e)); ("s", FInt (OwnerSeq e));
   ("w", FStr (WriterID e)); ("u", FInt (UpdatedAtUnixNano e))].

Definition Encode (entry : Entry) : outcome oplog_err (list byte) :=
  Done (marshal_object (entry_members (set_version currentVersion entry))).

Definition zero_entry : Entry := mkEntry 0 "" "" "" 0 [] 0 0 0 0 0 "" 0.

Definition entry_names : list string :=
  ["v"; "op"; "dmap"; "key"; "hkey"; "entry"; "ttl"; "ts"; "g"; "e"; "s"; "w"; "u"].

(** [json.Unmarshal] of one member into an [Entry]. *)
Definition store_member (e : Entry) (m : list byte * json) : option Entry :=
  let 'mkEntry v op dmap key hkey enc ttl ts g ep s w u := e in
  match match_field entry_names m.1 with
  | None => Some e
  | Some n =>
    if String.eqb n "v" then
      v ← store_uint 32 m.2 v; Some (mkEntry v op dmap key hkey enc ttl ts g ep s w u)
    else if String.eqb n "op" then
      op ← store_string m.2 op; Some (mkEntry v op dmap key hkey enc ttl ts g ep s w u)
    else if String.eqb n "dmap" then
      dmap ← store_string m.2 dmap; Some (mkEntry v op dmap key hkey enc ttl ts g ep s w u)
    else if String.eqb n "key" then
      key ← store_string m.2 key; Some (mkEntry v op dmap key hkey enc ttl ts g ep s w u)
    else if String.eqb n "hkey" then
      hkey ← store_uint 64 m.2 hkey; Some (mkEntry v op dmap key hkey enc ttl ts g ep s w u)
    else if String.eqb n "entry" then
      enc ← store_bytes m.2 enc; Some (mkEntry v op dmap key hkey enc ttl ts g ep s w u)
    else if String.eqb n "ttl" then
      ttl ← store_int64 m.2 ttl; Some (mkEntry v op dmap key hkey enc ttl ts g ep s w u)
    else if String.eqb n "ts" then
      ts ← store_int64 m.2 ts; Some (mkEntry v op dmap key hkey enc ttl ts g ep s w u)
    else if String.eqb n "g" then
      g ← store_int64 m.2 g; Some (mkEntry v op dmap key hkey enc ttl ts g ep s w u)
    else if String.eqb n "e" then
      ep ← store_int64 m.2 ep; Some (mkEntry v op dmap key hkey enc ttl ts g ep s w u)
    else if String.eqb n "s" then
      s ← store_int64 m.2 s; Some (mkEntry v op dmap key hkey enc ttl ts g ep s w u)
    else if String.eqb n "w" then
      w ← store_string m.2 w; Some (mkEntry v op dmap key hkey enc ttl ts g ep s w u)
    else if String.eqb n "u" then
      u ← store_int64 m.2 u; Some (mkEntry v op dmap key hkey enc ttl ts g ep s w u)
    else Some e
  end.

Fixpoint store_members (ms : list (list byte * json)) (e : Entry) : option Entry :=
  match ms with
  | [] => Some e
  | m :: ms => e ← store_member e m; store_members ms e
  end.

Definition unmarshal_entry (data : list byte) : option Entry :=
  v ← parse_json data;
  match v with
  | JObj ms => store_members ms zero_entry
  | JNull => Some zero_entry
  | _ => None
  end.

Definition known_op (op : string) : bool :=
  String.eqb op OpSet || String.eqb op OpDelete || String.eqb op OpExpire.

Definition Decode (payload : list byte) : outcome oplog_err Entry :=
  match unmarshal_entry payload with
  | None => Fail DecodeJSON
  | Some e =>
    if negb (Version e =? currentVersion) then Fail UnsupportedVersion else
    if negb (known_op (Op e)) then Fail UnknownOp else
    if String.eqb (DMap e) "" then Fail EmptyDMap else
    if (Generation e <=? 0) || (OwnerSeq e <=? 0) then Fail MissingFence else
    if String.eqb (WriterID e) "" then Fail EmptyWriter else
    Done e
  end.

(** ** Lemmas *)

Definition int64_ok (z : Z) : Prop := minInt64 ≤ z ≤ maxInt64.

(** The fields hold values of their Go types. *)
Definition entry_typed (e : Entry) : Prop :=
  0 ≤ Version e < 2 ^ 32 ∧ 0 ≤ HKey e < 2 ^ 64 ∧ int64_ok (TTL e) ∧ int64_ok (Timestamp e) ∧
  int64_ok (Generation e) ∧ int64_ok (Epoch e) ∧ int64_ok (OwnerSeq e) ∧
  int64_ok (UpdatedAtUnixNano e).

(** What [Decode] requires of an entry. *)
Definition fenced (e : Entry) : Prop :=
  known_op (Op e) = true ∧ DMap e ≠ "" ∧ 0 < Generation e ∧ 0 < OwnerSeq e ∧ WriterID e ≠ "".

(** A Go string after a trip through JSON. *)
Definition json_string (s : string) : string :=
  string_of_bytes (to_valid_utf8 (bytes_of_string s)).

Definition json_entry (e : Entry) : Entry :=
  mkEntry (Version e) (json_string (Op e)) (json_string (DMap e)) (json_string (Key e)) (HKey e)
    (EncodedEntry e) (TTL e) (Timestamp e) (Generation e) (Epoch e) (OwnerSeq e)
    (json_string (WriterID e)) (UpdatedAtUnixNano e).

Lemma json_string_valid s : utf8_valid (bytes_of_string s) = true → json_string s = s.
Proof.
  unfold utf8_valid, json_string. intros Hs. bools. rewrite Hs. apply string_bytes.
Qed.

Lemma json_string_idem s : json_string (json_string s) = json_string s.
Proof. unfold json_string. by rewrite bytes_string, to_valid_utf8_idem. Qed.

Lemma json_string_invalid s : utf8_valid (bytes_of_string s) = false → json_string s ≠ s.
Proof.
  unfold utf8_valid, json_string. intros Hs He. bools. apply Hs. rewrite <- He at 2.
  by rewrite bytes_string.
Qed.

Lemma to_valid_utf8_nil l : to_valid_utf8 l = [] → l = [].
Proof.
  destruct l as [|b l]; [done|]. cbn [to_valid_utf8].
  destruct (utf8_len (b :: l)) as [|[|[|[|[|]]]]]; destruct l as [|? [|? [|? ?]]]; done.
Qed.

Lemma json_string_empty s : json_string s = "" → s = "".
Proof.
  intros Hs. apply (f_equal bytes_of_string) in Hs. unfold json_string in Hs.
  rewrite bytes_string in Hs. apply to_valid_utf8_nil in Hs.
  by rewrite <- (string_bytes s), Hs.
Qed.

(** The three operations are plain ASCII. *)
Lemma known_op_valid op : known_op op = true → json_string op = op.
Proof.
  unfold known_op. rewrite !orb_true_iff, !String.eqb_eq. intros [[-> | ->] | ->]; done.
Qed.

Lemma store_uint_appendInt bits n old :
  0 ≤ n < 2 ^ bits → bits ≤ 64 → store_uint bits (JNum (appendInt n)) old = Some n.
Proof.
  intros Hn Hb. pose proof (Z.pow_le_mono_r 2 bits 64 ltac:(lia) Hb).
  unfold store_uint. rewrite ParseUint_appendInt by lia. simpl.
  by rewrite (proj2 (Z.ltb_lt _ _)) by lia.
Qed.

Lemma store_int64_appendInt n old : int64_ok n → store_int64 (JNum (appendInt n)) old = Some n.
Proof. apply ParseInt_appendInt. Qed.

Lemma store_members_app ms ms' e :
  store_members (ms ++ ms') e = e' ← store_members ms e; store_members ms' e'.
Proof.
  revert e. induction ms as [|m ms IH]; intros e; [done|]. simpl.
  destruct (store_member e m); [|done]. apply IH.
Qed.

(** Evaluates which field a literal member name addresses. *)
Ltac store_step :=
  unfold store_member, member_json; cbn [fst snd field_json];
  match goal with
  | |- context [match_field entry_names ?n] =>
    let r := eval vm_compute in (match_field entry_names n) in
    change (match_field entry_names n) with r
  end; cbv iota;
  repeat match goal with
  | |- context [String.eqb ?a ?b] =>
    let r := eval vm_compute in (String.eqb a b) in change (String.eqb a b) with r; cbv iota
  end.

Lemma store_v e (x : Z) :
  0 ≤ x < 2 ^ 32 → store_member e (member_json ("v", FInt x)) =
  Some (mkEntry x (Op e) (DMap e) (Key e) (HKey e) (EncodedEntry e) (TTL e) (Timestamp e) (Generation e) (Epoch e) (OwnerSeq e) (WriterID e) (UpdatedAtUnixNano e)).
Proof. intros. destruct e. store_step. by rewrite (store_uint_appendInt 32) by (done || lia). Qed.
Lemma store_op e (x : string) :
  store_member e (member_json ("op", FStr x)) =
  Some (mkEntry (Version e) (json_string x) (DMap e) (Key e) (HKey e) (EncodedEntry e) (TTL e) (Timestamp e) (Generation e) (Epoch e) (OwnerSeq e) (WriterID e) (UpdatedAtUnixNano e)).
Proof. destruct e. by store_step. Qed.
Lemma store_dmap e (x : string) :
  store_member e (member_json ("dmap", FStr x)) =
  Some (mkEntry (Version e) (Op e) (json_string x) (Key e) (HKey e) (EncodedEntry e) (TTL e) (Timestamp e) (Generation e) (Epoch e) (OwnerSeq e) (WriterID e) (UpdatedAtUnixNano e)).
Proof. destruct e. by store_step. Qed.
Lemma store_key e (x : string) :
  store_member e (member_json ("key", FStr x)) =
  Some (mkEntry (Version e) (Op e) (DMap e) (json_string x) (HKey e) (EncodedEntry e) (TTL e) (Timestamp e) (Generation e) (Epoch e) (OwnerSeq e) (WriterID e) (UpdatedAtUnixNano e)).
Proof. destruct e. by store_step. Qed.
Lemma store_hkey e (x : Z) :
  0 ≤ x < 2 ^ 64 → store_member e (member_json ("hkey", FInt x)) =
  Some (mkEntry (Version e) (Op e) (DMap e) (Key e) x (EncodedEntry e) (TTL e) (Timestamp e) (Generation e) (Epoch e) (OwnerSeq e) (WriterID e) (UpdatedAtUnixNano e)).
Proof. intros. destruct e. store_step. by rewrite (store_uint_appendInt 64) by (done || lia). Qed.
Lemma store_entry e (x : list byte) :
  store_member e (member_json ("entry", FBytes x)) =
  Some (mkEntry (Version e) (Op e) (DMap e) (Key e) (HKey e) x (TTL e) (Timestamp e) (Generation e) (Epoch e) (OwnerSeq e) (WriterID e) (UpdatedAtUnixNano e)).
Proof. destruct e. store_step. unfold store_bytes. by rewrite base64_round_trip. Qed.
Lemma store_ttl e (x : Z) :
  int64_ok x → store_member e (member_json ("ttl", FInt x)) =
  Some (mkEntry (Version e) (Op e) (DMap e) (Key e) (HKey e) (EncodedEntry e) x (Timestamp e) (Generation e) (Epoch e) (OwnerSeq e) (WriterID e) (UpdatedAtUnixNano e)).
Proof. intros. destruct e. store_step. by rewrite store_int64_appendInt by (done || lia). Qed.
Lemma store_ts e (x : Z) :
  int64_ok x → store_member e (member_json ("ts", FInt x)) =
  Some (mkEntry (Version e) (Op e) (DMap e) (Key e) (HKey e) (EncodedEntry e) (TTL e) x (Generation e) (Epoch e) (OwnerSeq e) (WriterID e) (UpdatedAtUnixNano e)).
Proof. intros. destruct e. store_step. by rewrite store_int64_appendInt by (done || lia). Qed.
Lemma store_g e (x : Z) :
  int64_ok x → store_member e (member_json ("g", FInt x)) =
  Some (mkEntry (Version e) (Op e) (DMap e) (Key e) (HKey e) (EncodedEntry e) (TTL e) (Timestamp e) x (Epoch e) (OwnerSeq e) (WriterID e) (UpdatedAtUnixNano e)).
Proof. intros. destruct e. store_step. by rewrite store_int64_appendInt by (done || lia). Qed.
Lemma store_e e (x : Z) :
  int64_ok x → store_member e (member_json ("e", FInt x)) =
  Some (mkEntry (Version e) (Op e) (DMap e) (Key e) (HKey e) (EncodedEntry e) (TTL e) (Timestamp e) (Generation e) x (OwnerSeq e) (WriterID e) (UpdatedAtUnixNano e)).
Proof. intros. destruct e. store_step. by rewrite store_int64_appendInt by (done || lia). Qed.
Lemma store_s e (x : Z) :
  int64_ok x → store_member e (member_json ("s", FInt x)) =
  Some (mkEntry (Version e) (Op e) (DMap e) (Key e) (HKey e) (EncodedEntry e) (TTL e) (Timestamp e) (Generation e) (Epoch e) x (WriterID e) (UpdatedAtUnixNano e)).
Proof. intros. destruct e. store_step. by rewrite store_int64_appendInt by (done || lia). Qed.
Lemma store_w e (x : string) :
  store_member e (member_json ("w", FStr x)) =
  Some (mkEntry (Version e) (Op e) (DMap e) (Key e) (HKey e) (EncodedEntry e) (TTL e) (Timestamp e) (Generation e) (Epoch e) (OwnerSeq e) (json_string x) (UpdatedAtUnixNano e)).
Proof. destruct e. by store_step. Qed.
Lemma store_u e (x : Z) :
  int64_ok x → store_member e (member_json ("u", FInt x)) =
  Some (mkEntry (Version e) (Op e) (DMap e) (Key e) (HKey e) (EncodedEntry e) (TTL e) (Timestamp e) (Generation e) (Epoch e) (OwnerSeq e) (WriterID e) x).
Proof. intros. destruct e. store_step. by rewrite store_int64_appendInt by (done || lia). Qed.

Ltac store_all :=
  repeat (cbn [fmap list_fmap store_members app];
    match goal with
    | |- context [store_member ?e (member_json ("v", _ ?x))] => rewrite (store_v e x) by done
    | |- context [store_member ?e (member_json ("op", _ ?x))] => rewrite (store_op e x)
    | |- context [store_member ?e (member_json ("dmap", _ ?x))] => rewrite (store_dmap e x)
    | |- context [store_member ?e (member_json ("key", _ ?x))] => rewrite (store_key e x)
    | |- context [store_member ?e (member_json ("hkey", _ ?x))] => rewrite (store_hkey e x) by done
    | |- context [store_member ?e (member_json ("entry", _ ?x))] => rewrite (store_entry e x)
    | |- context [store_member ?e (member_json ("ttl", _ ?x))] => rewrite (store_ttl e x) by done
    | |- context [store_member ?e (member_json ("ts", _ ?x))] => rewrite (store_ts e x) by done
    | |- context [store_member ?e (member_json ("g", _ ?x))] => rewrite (store_g e x) by done
    | |- context [store_member ?e (member_json ("e", _ ?x))] => rewrite (store_e e x) by done
    | |- context [store_member ?e (member_json ("s", _ ?x))] => rewrite (store_s e x) by done
    | |- context [store_member ?e (member_json ("w", _ ?x))] => rewrite (store_w e x)
    | |- context [store_member ?e (member_json ("u", _ ?x))] => rewrite (store_u e x) by done
    end;
    cbn [mbind option_bind zero_entry Version Op DMap Key HKey EncodedEntry TTL Timestamp Generation
         Epoch OwnerSeq WriterID UpdatedAtUnixNano]).

Lemma store_entry_members e :
  entry_typed e → store_members (member_json <$> entry_members e) zero_entry = Some (json_entry e).
Proof.
  intros (Hv&Hh&Ht&Hts&Hg&He&Hs&Hu). unfold entry_members.
  destruct e as [v op dmap key hkey enc ttl ts g ep s w u]; unfold json_entry; simpl in * |-.
  cbn [TTL Timestamp EncodedEntry].
  destruct enc, (Z.eqb_spec ttl 0), (Z.eqb_spec ts 0); subst; store_all; done.
Qed.

Lemma entry_members_ok e : entry_typed e → Forall (λ m, field_ok m.2) (entry_members e).
Proof.
  intros (Hv&Hh&Ht&Hts&Hg&He&Hs&Hu). unfold int64_ok, minInt64, maxInt64 in *.
  unfold entry_members. rewrite !Forall_app.
  split_and!; [|destruct (EncodedEntry e)|dcase|dcase|]; repeat constructor; simpl;
    unfold minInt64; lia.
Qed.

Lemma unmarshal_marshal e :
  entry_typed e → unmarshal_entry (marshal_object (entry_members e)) = Some (json_entry e).
Proof.
  intros Ht. unfold unmarshal_entry.
  rewrite parse_marshal_object by (by apply entry_members_ok).
  by apply store_entry_members.
Qed.

(** Decoding what [Encode] wrote, in general. *)
Lemma Decode_Encode e payload :
  entry_typed e → fenced e → Encode e = Done payload →
  Decode payload = Done (json_entry (set_version currentVersion e)).
Proof.
  intros Ht (Hop&Hd&Hg&Hs&Hw) [= <-]. unfold Decode.
  rewrite unmarshal_marshal; [|destruct Ht; by split]. cbn [Version json_entry set_version].
  change (negb (currentVersion =? currentVersion)) with false. cbv iota.
  cbn [Op DMap Generation OwnerSeq WriterID json_entry set_version].
  rewrite (known_op_valid _ Hop), Hop. cbn [negb].
  destruct (String.eqb_spec (json_string (DMap e)) "") as [?%json_string_empty|]; [done|].
  destruct (String.eqb_spec (json_string (WriterID e)) "") as [?%json_string_empty|]; [done|].
  rewrite !(proj2 (Z.leb_gt _ _)) by lia. done.
Qed.

(** *** The size of a payload *)

(** The characters of a string literal. *)
Definition quoted_size (s : string) : Z := zlen (quote_body (bytes_of_string s)).

Lemma known_op_quoted op : known_op op = true → quoted_size op ≤ 6.
Proof.
  unfold known_op. rewrite !orb_true_iff, !String.eqb_eq. by intros [[-> | ->] | ->]; vm_compute.
Qed.

Lemma quoted_size_nonneg s : 0 ≤ quoted_size s.
Proof. apply zlen_nonneg. Qed.

Lemma quoted_size_bound s : quoted_size s ≤ 6 * slen s.
Proof. unfold quoted_size. rewrite <- zlen_bytes_of_string. apply quote_body_length. Qed.

Lemma marshal_object_length ms :
  ms ≠ [] →
  zlen (marshal_object ms) = 1 + Z.of_nat (length ms) + foldr (λ m n, zlen (marshal_member m) + n) 0 ms.
Proof.
  intros Hne. unfold marshal_object. rewrite zlen_cons, zlen_app.
  assert (zlen (marshal_members ms) + 1 =
    Z.of_nat (length ms) + foldr (λ m n, zlen (marshal_member m) + n) 0 ms) as Hm.
  { clear -Hne. induction ms as [|m [|m' ms] IH]; [done|..].
    - simpl. lia.
    - rewrite marshal_members_cons, zlen_app, zlen_cons. specialize (IH ltac:(done)).
      cbn [length foldr] in *. lia. }
  change (zlen [x7d]) with 1. lia.
Qed.

Lemma marshal_member_length n f :
  zlen (marshal_member (n, f)) =
  quoted_size n + 3 + match f with
                      | FStr s => quoted_size s + 2
                      | FInt z => zlen (appendInt z)
                      | FBool b => if b then 4 else 5
                      | FBytes l => zlen (base64_encode l) + 2
                      | FNull => 4
                      end.
Proof.
  unfold marshal_member, appendString, quoted_size. cbn [fst snd].
  rewrite zlen_app, !zlen_cons, zlen_app, zlen_cons, zlen_nil.
  destruct f as [s|z|[]|l|]; cbn [marshal_field]; unfold appendString;
    autorewrite with olric_len; lia.
Qed.

(** An encoded entry is its escaped strings, its base64 value and at most 238
    bytes of framing, field names and digits. *)
Lemma payload_size e :
  entry_typed e → fenced e → 0 ≤ Epoch e →
  zlen (marshal_object (entry_members (set_version currentVersion e))) ≤
  quoted_size (DMap e) + quoted_size (Key e) + quoted_size (WriterID e) +
  zlen (base64_encode (EncodedEntry e)) + 238.
Proof.
  intros (_&Hh&Ht&Hts&Hg&He&Hs&Hu) (Hop&_&Hg0&Hs0&_) He0.
  pose proof (known_op_quoted _ Hop). pose proof (quoted_size_nonneg (DMap e)).
  pose proof (quoted_size_nonneg (Key e)). pose proof (quoted_size_nonneg (WriterID e)).
  pose proof (zlen_nonneg (base64_encode (EncodedEntry e))).
  pose proof (appendInt_length_pos 20 (HKey e) ltac:(lia) ltac:(lia)).
  pose proof (appendInt_length _ Ht). pose proof (appendInt_length _ Hts).
  unfold int64_ok, minInt64, maxInt64 in *.
  pose proof (appendInt_length_pos 19 (Generation e) ltac:(lia) ltac:(lia)).
  pose proof (appendInt_length_pos 19 (Epoch e) ltac:(lia) ltac:(lia)).
  pose proof (appendInt_length_pos 19 (OwnerSeq e) ltac:(lia) ltac:(lia)).
  pose proof (appendInt_length _ Hu).
  rewrite marshal_object_length by done. unfold entry_members.
  destruct e as [v op dmap key hkey enc ttl ts g ep s w u].
  cbn [set_version Version Op DMap Key HKey EncodedEntry TTL Timestamp Generation Epoch OwnerSeq
       WriterID UpdatedAtUnixNano] in *.
  destruct enc as [|b enc], (ttl =? 0), (ts =? 0); cbn [app length foldr];
    rewrite !marshal_member_length;
    repeat match goal with |- context [quoted_size ?n] => assert_fails (is_var n);
      let r := eval vm_compute in (quoted_size n) in change (quoted_size n) with r end;
    change (zlen (appendInt currentVersion)) with 1; lia.
Qed.

(** *** Types of decoded fields *)

Lemma ParseUint_range l n : ParseUint l = Some n → 0 ≤ n < 2 ^ 64.
Proof.
  unfold ParseUint. destruct l as [|b l]; [done|]. dcase; [|done]. intros [= <-].
  apply andb_true_iff in Heqb0 as [Hd Hr]. apply Z.ltb_lt in Hr. split; [|done].
  clear Hr. unfold digits_val. generalize (b :: l) Hd. clear.
  assert (∀ l acc, 0 ≤ acc → forallb is_digit l = true →
    0 ≤ foldl (λ acc b, 10 * acc + (Z_of_byte b - 48)) acc l) as Hf; [|intros; by apply Hf].
  induction l as [|b l IH]; intros acc Hacc Hl; [done|]. simpl in *.
  apply andb_true_iff in Hl as [Hb Hl]. unfold is_digit, in_range in Hb. bools. apply IH; [lia|done].
Qed.

Lemma ParseInt_range l n : ParseInt l = Some n → int64_ok n.
Proof.
  unfold ParseInt, int64_ok, minInt64, maxInt64. destruct (match l with [] => _ | _ => _ end) as [[] ds];
    destruct (ParseUint ds) as [m|] eqn:Hm; try done; apply ParseUint_range in Hm;
    dcase; intros; simplify_eq; bools; lia.
Qed.

Lemma store_int64_range v old n : int64_ok old → store_int64 v old = Some n → int64_ok n.
Proof. destruct v; simpl; intros; simplify_eq; eauto using ParseInt_range. Qed.

Lemma store_uint_range bits v old n :
  0 ≤ old < 2 ^ bits → store_uint bits v old = Some n → 0 ≤ n < 2 ^ bits.
Proof.
  destruct v; simpl; intros ? Hn; simplify_eq; [done|].
  destruct (ParseUint _) as [m|] eqn:Hm; simpl in Hn; [|done].
  apply ParseUint_range in Hm. dcase; simplify_eq. bools. lia.
Qed.

Lemma store_member_typed e m e' : entry_typed e → store_member e m = Some e' → entry_typed e'.
Proof.
  destruct e as [v op dmap key hkey enc ttl ts g ep s w u].
  intros (Hv&Hh&Ht&Hts&Hg&He&Hs&Hu); simpl in *. unfold store_member.
  destruct (match_field _ _) as [n|]; [|by intros [= <-]].
  repeat (dcase; [intros (x&Hx&[= <-])%bind_Some;
    refine (conj _ (conj _ (conj _ (conj _ (conj _ (conj _ (conj _ _)))))));
    cbn [Version HKey TTL Timestamp Generation Epoch OwnerSeq UpdatedAtUnixNano];
    first [ assumption | eapply store_uint_range; [|exact Hx]; assumption
          | eapply store_int64_range; [|exact Hx]; assumption ]|]).
  by intros [= <-].
Qed.

Lemma store_members_typed ms e e' : entry_typed e → store_members ms e = Some e' → entry_typed e'.
Proof.
  revert e. induction ms as [|m ms IH]; intros e Ht; simpl; [by intros [= <-]|].
  intros (e1&H1&H2)%bind_Some. eauto using store_member_typed.
Qed.

Lemma zero_entry_typed : entry_typed zero_entry.
Proof. repeat split; done. Qed.

Lemma Decode_accepts payload e :
  Decode payload = Done e → Version e = currentVersion ∧ fenced e ∧ entry_typed e.
Proof.
  unfold Decode, unmarshal_entry. destruct (_ ≫= _) as [e0|] eqn:Hu; [|done].
  assert (entry_typed e0).
  { apply bind_Some in Hu as (v&_&Hu). destruct v; simplify_eq; [apply zero_entry_typed|].
    eapply store_members_typed; [apply zero_entry_typed|done]. }
  repeat (dcase; [done|]). intros [= <-]. bools. rewrite !String.eqb_neq in *.
  unfold fenced. split_and!; [done| |done|lia|lia|done|done].
  by destruct (known_op (Op e0)).
Qed.

(** ** Theorems *)

(** C25: encoding and decoding is the identity (up to the version stamp) on
    every entry whose fields fit their Go types, whose fence is complete and
    whose strings are valid UTF-8, whatever bytes the stored value has. *)
Theorem oplog_round_trip e payload :
  entry_typed e → fenced e →
  utf8_valid (bytes_of_string (DMap e)) = true → utf8_valid (bytes_of_string (Key e)) = true →
  utf8_valid (bytes_of_string (WriterID e)) = true →
  Encode e = Done payload → Decode payload = Done (set_version currentVersion e).
Proof.
  intros Ht Hf Hd Hk Hw He. rewrite (Decode_Encode e payload Ht Hf He). f_equal.
  destruct Hf as (Hop&_). destruct e. unfold json_entry. simpl in *.
  by rewrite (known_op_valid _ Hop), !json_string_valid by done.
Qed.

(** A key that is not valid UTF-8 does not survive the wire: the sidecar
    decodes an entry under a different key, so the pending entry (and the
    [key] column) is filed under coordinates no client asks for. *)
Theorem oplog_mangles_binary_keys e payload :
  entry_typed e → fenced e → utf8_valid (bytes_of_string (Key e)) = false →
  Encode e = Done payload →
  ∃ e', Decode payload = Done e' ∧ Key e' ≠ Key e ∧ entryRef e' ≠ entryRef e.
Proof.
  intros Ht Hf Hk He. eexists. split; [by apply Decode_Encode|].
  pose proof (json_string_invalid _ Hk). split; [done|]. by intros [= ??].
Qed.

(** C26: Whatever bytes arrive, an entry [Decode] accepts has the current
    version, a known operation, a table name, a positive generation and
    sequence and a writer, and integers in the range of their Go types. *)
Theorem decoded_entries_are_fenced payload e :
  Decode payload = Done e → Version e = currentVersion ∧ fenced e ∧ entry_typed e.
Proof.
  apply Decode_accepts.
Qed.

(** *** Witnesses *)

Definition sample_entry : Entry :=
  mkEntry 0 OpSet "users" "k<1>" 77 [x00; xff; x61] 1700000000000 5 3 2 9 "pod-a" 1234.

Lemma oplog_round_trip_witness :
  ∃ payload, Encode sample_entry = Done payload ∧
    Decode payload = Done (set_version currentVersion sample_entry).
Proof.
  eexists. split; [reflexivity|].
  apply (oplog_round_trip sample_entry); [repeat split; vm_compute; done..|reflexivity].
Defined.

Definition binary_key_entry : Entry :=
  mkEntry 0 OpSet "users" (string_of_bytes [xff]) 77 [] 0 5 3 2 9 "pod-a" 1234.

Lemma oplog_mangles_binary_keys_witness :
  ∃ payload e', Encode binary_key_entry = Done payload ∧ Decode payload = Done e' ∧
    Key e' ≠ Key binary_key_entry ∧ entryRef e' ≠ entryRef binary_key_entry.
Proof.
  destruct (oplog_mangles_binary_keys binary_key_entry
    (if Encode binary_key_entry is Done p then p else [])) as (e'&?&?&?);
    [repeat split; vm_compute; done..|reflexivity|reflexivity|].
  by exists (if Encode binary_key_entry is Done p then p else []), e'.
Defined.

Lemma decoded_entries_are_fenced_witness :
  Version (set_version 1 sample_entry) = currentVersion ∧ fenced (set_version 1 sample_entry) ∧
  entry_typed (set_version 1 sample_entry).
Proof.
  apply (decoded_entries_are_fenced (if Encode sample_entry is Done p then p else [])).
  vm_compute. reflexivity.
Defined.
