(* ===== verification/Backend.v ===== *)
(** * The MySQL backend of the sidecar ([internal/sidecar/backend_mysql.go])

    The table [olric_cache_records] is a map from its primary key
    [(dmap, hkey)] to a row.  The conflict clause the code builds (columns,
    and for each column the expression [CASE WHEN newer THEN new ELSE old])
    is translated; what the database does with such a clause is not code of
    this repository and is the parameter [UpsertEngine].  Two documented
    behaviours are stated as classes: SQLite and the SQL standard evaluate
    every right-hand side on the old row ([SimultaneousUpdate]); MySQL
    evaluates the assignments of one statement from left to right, each one
    seeing the columns already assigned ([LeftToRightUpdate]), and gorm emits
    the assignments of a Go map sorted by column name.

    The first group of theorems shows the contract the comment on
    [MySQLBackend] promises under simultaneous evaluation: last writer wins by
    the fence, whatever the order and however often records arrive.  The last
    theorem shows what the same clause does under left-to-right evaluation. *)

From S2P Require Import Prelude Records.

(** ** The conflict clause *)

Inductive column :=
| c_key | c_encoded_entry | c_ttl | c_timestamp | c_tombstone
| c_generation | c_epoch | c_owner_seq | c_writer_id | c_updated_at.

#[export] Instance column_eq_dec : EqDecision column.
Proof. solve_decision. Defined.

(** Copies column [c] of [src] into [dst]. *)
Definition set_column (c : column) (src dst : EntryRecord) : EntryRecord :=
  let 'mkRecord dmap key hkey enc ttl ts tomb gen epoch seq wid upd := dst in
  match c with
  | c_key => mkRecord dmap (rec_Key src) hkey enc ttl ts tomb gen epoch seq wid upd
  | c_encoded_entry => mkRecord dmap key hkey (rec_EncodedEntry src) ttl ts tomb gen epoch seq wid upd
  | c_ttl => mkRecord dmap key hkey enc (rec_TTL src) ts tomb gen epoch seq wid upd
  | c_timestamp => mkRecord dmap key hkey enc ttl (rec_Timestamp src) tomb gen epoch seq wid upd
  | c_tombstone => mkRecord dmap key hkey enc ttl ts (rec_Tombstone src) gen epoch seq wid upd
  | c_generation => mkRecord dmap key hkey enc ttl ts tomb (rec_Generation src) epoch seq wid upd
  | c_epoch => mkRecord dmap key hkey enc ttl ts tomb gen (rec_Epoch src) seq wid upd
  | c_owner_seq => mkRecord dmap key hkey enc ttl ts tomb gen epoch (rec_OwnerSeq src) wid upd
  | c_writer_id => mkRecord dmap key hkey enc ttl ts tomb gen epoch seq (rec_WriterID src) upd
  | c_updated_at => mkRecord dmap key hkey enc ttl ts tomb gen epoch seq wid (rec_UpdatedAt src)
  end.

(** The SQL condition [newer] on the incoming row [ex] and the row [cur]. *)
Definition newer `{WriterOrder} (ex cur : EntryRecord) : bool :=
  (rec_Generation cur <? rec_Generation ex)
  || ((rec_Generation ex =? rec_Generation cur) && (rec_Epoch cur <? rec_Epoch ex))
  || ((rec_Generation ex =? rec_Generation cur) && (rec_Epoch ex =? rec_Epoch cur)
      && (rec_OwnerSeq cur <? rec_OwnerSeq ex))
  || ((rec_Generation ex =? rec_Generation cur) && (rec_Epoch ex =? rec_Epoch cur)
      && (rec_OwnerSeq ex =? rec_OwnerSeq cur)
      && writer_gtb (rec_WriterID ex) (rec_WriterID cur)).

(** The keys of the [DoUpdates] map; each is assigned under [newer]. *)
Definition upsertClause : list column :=
  [c_key; c_encoded_entry; c_ttl; c_timestamp; c_tombstone;
   c_generation; c_epoch; c_owner_seq; c_writer_id; c_updated_at].

(** ** The database *)

Definition sql_row_update : Type :=
  list column → (EntryRecord → EntryRecord → bool) → EntryRecord → EntryRecord → EntryRecord.

Class UpsertEngine := {
  (** the order in which the assignments of a Go map reach the database *)
  arrange : list column → list column;
  arrange_perm : ∀ l, arrange l ≡ₚ l;
  (** [on_conflict cols cond ex cur]: the row after the conflict clause *)
  on_conflict : sql_row_update }.

Class SimultaneousUpdate (U : UpsertEngine) : Prop :=
  simultaneous : ∀ cols cond ex cur,
    on_conflict cols cond ex cur =
    foldl (λ row c, if cond ex cur then set_column c ex row else row) cur cols.

Class LeftToRightUpdate (U : UpsertEngine) : Prop :=
  left_to_right : ∀ cols cond ex cur,
    on_conflict cols cond ex cur =
    foldl (λ row c, if cond ex row then set_column c ex row else row) cur cols.

Definition sorted_by_name : list column :=
  [c_encoded_entry; c_epoch; c_generation; c_key; c_owner_seq; c_timestamp;
   c_tombstone; c_ttl; c_updated_at; c_writer_id].

(** ** Backend operations *)

Definition table : Type := gmap (string * Z) EntryRecord.

Inductive backend_err := ErrNotFound | ErrDatabase.

(** How a database call ends: it succeeds, or it fails after [n] of the rows
    of the call took effect (a rolled back transaction is [n = 0], a commit
    whose answer was lost is [n] the number of rows). *)
Inductive db_answer := db_ok | db_fails (n : nat).

Definition pk (r : EntryRecord) : string * Z := (rec_DMap r, rec_HKey r).

Section backend.
Context `{WriterOrder} {U : UpsertEngine}.

Definition upsert_row (db : gmap (string * Z) EntryRecord) (r : EntryRecord) :
    gmap (string * Z) EntryRecord :=
  match db !! pk r with
  | None => <[pk r := r]> db
  | Some cur => <[pk r := on_conflict (arrange upsertClause) newer r cur]> db
  end.

Definition UpsertEntries (ans : db_answer) (records : list EntryRecord) :
    M (gmap (string * Z) EntryRecord) backend_err () := λ db,
  match records with
  | [] => (Done tt, db)
  | _ =>
    match ans with
    | db_ok => (Done tt, foldl upsert_row db records)
    | db_fails n => (Fail ErrDatabase, foldl upsert_row db (take n records))
    end
  end.
End backend.

Definition Backend_LoadFromMySQL (ans : db_answer) (now : Z) (ref : EntryRef) :
    M (gmap (string * Z) EntryRecord) backend_err EntryRecord := λ db,
  match ans with
  | db_fails _ => (Fail ErrDatabase, db)
  | db_ok =>
    match db !! (ref_DMap ref, ref_HKey ref) with
    | None => (Fail ErrNotFound, db)
    | Some rec =>
      if rec_Tombstone rec then (Fail ErrNotFound, db) else
      if recordExpiredAt rec now then (Fail ErrNotFound, db) else (Done rec, db)
    end
  end.

Definition Backend_PurgeBelowGeneration (ans : db_answer) (minGeneration : Z) :
    M (gmap (string * Z) EntryRecord) backend_err Z := λ db,
  if minGeneration <=? 0 then (Done 0, db) else
  match ans with
  | db_fails _ => (Fail ErrDatabase, db)
  | db_ok =>
    let kept := filter (λ '(_, r), minGeneration ≤ rec_Generation r) db in
    (Done (Z.of_nat (size db - size kept)), kept)
  end.

(** ** Lemmas *)

Section engine.
Context `{WriterOrder} {U : UpsertEngine}.

Lemma newer_fence ex cur : newer ex cur = fence_gt (record_fence ex) (record_fence cur).
Proof. done. Qed.

Lemma foldl_const {A B} (a : A) (l : list B) : foldl (λ row _, row) a l = a.
Proof. by induction l. Qed.

(** Copying every assigned column leaves the incoming row. *)
Lemma set_columns_all cols ex row :
  cols ≡ₚ upsertClause → pk ex = pk row →
  foldl (λ row c, set_column c ex row) row cols = ex.
Proof.
  intros Hp Hpk.
  assert (∀ a b r, set_column a ex (set_column b ex r) = set_column b ex (set_column a ex r))
    as Hcomm by (intros [] [] []; done).
  assert (∀ l l', l ≡ₚ l' → ∀ r, foldl (λ row c, set_column c ex row) r l
                               = foldl (λ row c, set_column c ex row) r l') as Hf.
  { induction 1 as [|x l l' _ IH|x y l|l1 l2 l3 _ IH1 _ IH2]; intros r; simpl; auto.
    - by rewrite Hcomm.
    - by rewrite IH1. }
  rewrite (Hf _ _ Hp). unfold pk in Hpk. destruct ex, row; simpl in *. by simplify_eq.
Qed.
End engine.

Section simultaneous.
Context `{WriterOrder} {U : UpsertEngine} {HU : SimultaneousUpdate U}.

(** The conflict clause keeps the row with the greater fence. *)
Lemma on_conflict_lww ex cur :
  pk ex = pk cur →
  on_conflict (arrange upsertClause) newer ex cur =
  if fence_gt (record_fence ex) (record_fence cur) then ex else cur.
Proof.
  intros Hpk. rewrite simultaneous, newer_fence. dcase.
  - apply set_columns_all; [apply arrange_perm|done].
  - apply foldl_const.
Qed.

Definition lww (new : EntryRecord) (old : option EntryRecord) : EntryRecord :=
  match old with
  | Some cur => if fence_gt (record_fence new) (record_fence cur) then new else cur
  | None => new
  end.

(** Rows are stored under their own primary key. *)
Definition table_wf (db : gmap (string * Z) EntryRecord) : Prop :=
  ∀ k r, db !! k = Some r → pk r = k.

Lemma upsert_row_lookup db r k :
  table_wf db →
  upsert_row db r !! k = if decide (k = pk r) then Some (lww r (db !! k)) else db !! k.
Proof.
  intros Hwf. unfold upsert_row. destruct (db !! pk r) as [cur|] eqn:Hc.
  - rewrite (on_conflict_lww r cur) by (symmetry; by apply Hwf).
    case_decide; [subst; by rewrite lookup_insert_eq, Hc|by rewrite lookup_insert_ne].
  - case_decide; [subst; by rewrite lookup_insert_eq, Hc|by rewrite lookup_insert_ne].
Qed.

Lemma lww_pk r old : (∀ cur, old = Some cur → pk cur = pk r) → pk (lww r old) = pk r.
Proof. intros Ho. destruct old; simpl; [dcase|]; auto. Qed.

Lemma upsert_row_wf db r : table_wf db → table_wf (upsert_row db r).
Proof.
  intros Hwf k r'. rewrite upsert_row_lookup by done. case_decide; [|apply Hwf].
  intros [= <-]. subst k. apply lww_pk. auto.
Qed.

Lemma upsert_rows_wf db l : table_wf db → table_wf (foldl upsert_row db l).
Proof. revert db. induction l; simpl; auto using upsert_row_wf. Qed.

(** The row of [k], if any, carries at least the fence [f]. *)
Definition row_ge (db : gmap (string * Z) EntryRecord) (k : string * Z) (f : fence) : Prop :=
  ∃ r, db !! k = Some r ∧ fence_ge (record_fence r) f.

Lemma lww_ge_new r old : fence_ge (record_fence (lww r old)) (record_fence r).
Proof. destruct old; simpl; [dcase; [apply fence_ge_refl|done]|apply fence_ge_refl]. Qed.

Lemma lww_ge_old r cur : fence_ge (record_fence (lww r (Some cur))) (record_fence cur).
Proof. simpl. dcase; [by apply fence_gt_ge|apply fence_ge_refl]. Qed.

Lemma upsert_row_ge db r k f : table_wf db → row_ge db k f → row_ge (upsert_row db r) k f.
Proof.
  intros Hwf (cur&Hc&Hge). unfold row_ge. rewrite upsert_row_lookup by done.
  case_decide; [|by exists cur]. exists (lww r (Some cur)). rewrite Hc. split; [done|].
  eapply fence_ge_trans; [apply lww_ge_old|done].
Qed.

Lemma upsert_row_ge_self db r : table_wf db → row_ge (upsert_row db r) (pk r) (record_fence r).
Proof.
  intros Hwf. unfold row_ge. rewrite upsert_row_lookup, decide_True by done.
  eexists. split; [done|]. apply lww_ge_new.
Qed.

Lemma upsert_rows_ge db l k f : table_wf db → row_ge db k f → row_ge (foldl upsert_row db l) k f.
Proof.
  revert db. induction l; simpl; auto using upsert_row_ge, upsert_row_wf.
Qed.

Lemma upsert_rows_ge_self db l r :
  table_wf db → r ∈ l → row_ge (foldl upsert_row db l) (pk r) (record_fence r).
Proof.
  revert db. induction l as [|x l IH]; intros db Hwf; [by intros ?%elem_of_nil|].
  intros [->|?]%elem_of_cons; simpl.
  - apply upsert_rows_ge; [by apply upsert_row_wf|]. by apply upsert_row_ge_self.
  - apply IH; [by apply upsert_row_wf|done].
Qed.

(** Every row of the new table was a row of the old one or an upserted record. *)
Lemma upsert_rows_origin db l k r :
  table_wf db → foldl upsert_row db l !! k = Some r → db !! k = Some r ∨ (r ∈ l ∧ pk r = k).
Proof.
  revert db. induction l as [|x l IH]; intros db Hwf; simpl; [by left|].
  intros [Hr|[? ?]]%IH; [|by right; split; [by right|]|by apply upsert_row_wf].
  rewrite upsert_row_lookup in Hr by done. case_decide; [|by left].
  simplify_eq. destruct (db !! pk x) as [cur|] eqn:Hc; simpl in *.
  - dcase; [|by left]. right. split; [by left|done].
  - right. split; [by left|done].
Qed.
End simultaneous.

(** ** Theorems *)

Section theorems.
Context `{WriterOrder} {U : UpsertEngine} {HU : SimultaneousUpdate U}.

(** What the table must hold for key [k] after the records were upserted: the
    candidate with the greatest fence among the old row and the records. *)
Definition is_winner (db : gmap (string * Z) EntryRecord) (records : list EntryRecord)
    (k : string * Z) (row : option EntryRecord) : Prop :=
  match row with
  | None => db !! k = None ∧ ∀ x, x ∈ records → pk x ≠ k
  | Some r =>
    (db !! k = Some r ∨ (r ∈ records ∧ pk r = k)) ∧
    (∀ cur, db !! k = Some cur → fence_ge (record_fence r) (record_fence cur)) ∧
    (∀ x, x ∈ records → pk x = k → fence_ge (record_fence r) (record_fence x))
  end.

Lemma upsert_rows_winner db l k :
  table_wf db → is_winner db l k (foldl upsert_row db l !! k).
Proof.
  intros Hwf. unfold is_winner. destruct (foldl upsert_row db l !! k) as [r|] eqn:Hr.
  - split; [by apply upsert_rows_origin|]. split.
    + intros cur Hc. destruct (upsert_rows_ge db l k (record_fence cur)) as (r'&?&?); [done| |].
      { exists cur. split; [done|apply fence_ge_refl]. }
      by simplify_eq.
    + intros x Hx <-. destruct (upsert_rows_ge_self db l x) as (r'&?&?); [done..|].
      by simplify_eq.
  - split.
    + destruct (db !! k) as [cur|] eqn:Hc; [|done].
      destruct (upsert_rows_ge db l k (record_fence cur)) as (r'&?&?); [done| |by simplify_eq].
      exists cur. split; [done|apply fence_ge_refl].
    + intros x Hx <-. destruct (upsert_rows_ge_self db l x) as (r'&?&?); [done..|].
      by simplify_eq.
Qed.


(** A stored row never regresses.  Whether the call succeeds or fails
    half way, every row present before is still there with a fence at least
    as great, so a delayed flush of an old owner cannot undo a newer write. *)
Theorem upsert_never_regresses ans db records k cur :
  table_wf db → db !! k = Some cur →
  ∃ r, (UpsertEntries ans records db).2 !! k = Some r ∧
       fence_ge (record_fence r) (record_fence cur).
Proof.
  intros Hwf Hc.
  assert (∀ l, row_ge (foldl upsert_row db l) k (record_fence cur)) as Hl.
  { intros l. apply upsert_rows_ge; [done|]. exists cur. split; [done|apply fence_ge_refl]. }
  unfold UpsertEntries. destruct records; [exact (Hl [])|]. destruct ans; apply Hl.
Qed.

(** No two different records with the same key carry the same fence. *)
Definition fences_unique (db : gmap (string * Z) EntryRecord) (l : list EntryRecord) : Prop :=
  ∀ x y, (x ∈ l ∨ db !! pk x = Some x) → (y ∈ l ∨ db !! pk y = Some y) →
         pk x = pk y → record_fence x = record_fence y → x = y.

Lemma winner_unique db l l' k a b :
  table_wf db → (∀ x, x ∈ l ↔ x ∈ l') → fences_unique db l →
  is_winner db l k a → is_winner db l' k b → a = b.
Proof.
  intros Hwf Hsame Huniq. unfold is_winner.
  destruct a as [x|], b as [y|]; [| | |done].
  - intros (Hx&Hxd&Hxl) (Hy&Hyd&Hyl). f_equal.
    assert ((x ∈ l ∨ db !! pk x = Some x) ∧ pk x = k) as [Hox Hpx].
    { destruct Hx as [Hx|[? <-]]; [|auto]. rewrite (Hwf _ _ Hx). auto. }
    assert ((y ∈ l ∨ db !! pk y = Some y) ∧ pk y = k) as [Hoy Hpy].
    { destruct Hy as [Hy|[? <-]]; [|rewrite Hsame; auto]. rewrite (Hwf _ _ Hy). auto. }
    apply Huniq; [done..|congruence|]. apply fence_ge_antisym.
    + destruct Hy as [?|[??]]; [auto|]. apply Hxl; [by apply Hsame|done].
    + destruct Hx as [?|[??]]; [auto|]. apply Hyl; [by apply Hsame|done].
  - intros ([|[??]]&_) [Hn Hl]; [congruence|]. exfalso. eapply Hl; [by apply Hsame|done].
  - intros [Hn Hl] ([|[??]]&_); [congruence|]. exfalso. eapply Hl; [by apply Hsame|done].
Qed.

(** Arrival order and retries do not matter.  When no two different
    records of one key carry the same fence, upserting the same records in
    any order, with repetitions, and after any partial failure of the batch,
    yields the same table as upserting them once. *)
Theorem upsert_order_irrelevant db records records' n :
  table_wf db → (∀ x, x ∈ records ↔ x ∈ records') → fences_unique db records →
  UpsertEntries db_ok records' (UpsertEntries (db_fails n) records db).2
  = UpsertEntries db_ok records db.
Proof.
  intros Hwf Hsame Huniq.
  assert (∀ l db, UpsertEntries db_ok l db = (Done tt, foldl upsert_row db l)) as Hok
    by (by intros []).
  assert ((UpsertEntries (db_fails n) records db).2 = foldl upsert_row db (take n records)) as ->
    by (destruct records; simpl; [by rewrite take_nil|done]).
  rewrite !Hok, <- foldl_app. f_equal. apply map_eq. intros k. symmetry.
  eapply (winner_unique db records (take n records ++ records'));
    [done| |done|by apply upsert_rows_winner..].
  intros x. rewrite elem_of_app, <- Hsame. split; [by right|].
  intros [(i&Hi&_)%elem_of_take|?]; [by eapply list_elem_of_lookup_2|done].
Qed.
End theorems.

(** A read of the backend finds a row exactly when it is stored, is not
    a tombstone and has not expired; a tombstone or an expired row reads as
    not found, and reading changes nothing. *)
Theorem load_returns_live_rows now ref db :
  Backend_LoadFromMySQL db_ok now ref db =
  (match db !! (ref_DMap ref, ref_HKey ref) with
   | Some rec => if rec_Tombstone rec || ((0 <? rec_TTL rec) && (rec_TTL rec <=? UnixMilli now))
                 then Fail ErrNotFound else Done rec
   | None => Fail ErrNotFound
   end, db).
Proof.
  unfold Backend_LoadFromMySQL, recordExpiredAt.
  destruct (db !! _) as [rec|]; [|done]. destruct (rec_Tombstone rec); [done|].
  destruct (Z.leb_spec (rec_TTL rec) 0), (Z.ltb_spec 0 (rec_TTL rec)); simpl; try lia; [done|].
  by destruct (_ <=? _).
Qed.

(** Purging below a generation deletes every committed row of the older
    generations from the database, keeps exactly the others, and counts the
    deleted ones; a generation that is not positive is a no-op. *)
Theorem purge_deletes_committed_rows minGeneration db :
  0 < minGeneration →
  ∃ n db', Backend_PurgeBelowGeneration db_ok minGeneration db = (Done (Z.of_nat n), db') ∧
    (∀ k r, db' !! k = Some r ↔ db !! k = Some r ∧ minGeneration ≤ rec_Generation r) ∧
    (size db = n + size db')%nat.
Proof.
  intros Hg. unfold Backend_PurgeBelowGeneration. rewrite (proj2 (Z.leb_gt _ _)) by done.
  eexists _, _. split; [done|]. split.
  - intros k r. by rewrite map_lookup_filter_Some.
  - set (P := λ '(_, r), _). pose proof (map_filter_subseteq P db) as Hs.
    apply map_subseteq_size in Hs. lia.
Qed.

(** On MySQL the clause tears rows.  If the database evaluates the
    assignments from left to right and receives them sorted by column name,
    then in the most ordinary case (same generation, epoch and writer, next
    owner_seq) the row takes the new value and the new owner_seq but keeps
    the old tombstone flag, ttl, timestamp and updated_at: deleting a key
    does not set its tombstone, and writing a deleted key does not clear it. *)
Theorem left_to_right_upsert_tears_rows `{WriterOrder} (U : UpsertEngine)
    (HL : LeftToRightUpdate U) ex cur :
  arrange upsertClause = sorted_by_name →
  rec_Generation ex = rec_Generation cur → rec_Epoch ex = rec_Epoch cur →
  rec_WriterID ex = rec_WriterID cur → rec_OwnerSeq cur < rec_OwnerSeq ex →
  let row := on_conflict (arrange upsertClause) newer ex cur in
  rec_EncodedEntry row = rec_EncodedEntry ex ∧ rec_OwnerSeq row = rec_OwnerSeq ex ∧
  rec_Tombstone row = rec_Tombstone cur ∧ rec_TTL row = rec_TTL cur ∧
  rec_Timestamp row = rec_Timestamp cur ∧ rec_UpdatedAt row = rec_UpdatedAt cur.
Proof.
  intros Ha Hg He Hw Hs. cbv zeta. rewrite Ha, left_to_right. unfold sorted_by_name.
  destruct ex as [d k h enc ttl ts tb g e s w u], cur as [d' k' h' enc' ttl' ts' tb' g' e' s' w' u'].
  simpl in Hg, He, Hw, Hs. subst g' e' w'.
  assert (∀ d1 k1 h1 v1 t1 x1 b1 u1 d2 k2 h2 v2 t2 x2 b2 u2 s1 s2,
    newer (mkRecord d1 k1 h1 v1 t1 x1 b1 g e s1 w u1) (mkRecord d2 k2 h2 v2 t2 x2 b2 g e s2 w u2)
    = (s2 <? s1)) as Hn.
  { intros. unfold newer. simpl.
    rewrite !Z.ltb_irrefl, !Z.eqb_refl, writer_irrefl, !andb_false_r, orb_false_r. done. }
  cbn [foldl set_column]. rewrite Hn, (proj2 (Z.ltb_lt s' s)) by done. cbn [set_column rec_EncodedEntry].
  repeat (rewrite Hn, ?(proj2 (Z.ltb_lt s' s)), ?Z.ltb_irrefl by done;
          cbn [set_column rec_EncodedEntry rec_Epoch rec_Generation rec_Key rec_OwnerSeq]).
  done.
Qed.

(** *** Witnesses *)

(** A database that evaluates right-hand sides on the old row. *)
Definition old_row_engine : UpsertEngine := {|
  arrange l := l;
  arrange_perm l := Permutation_refl l;
  on_conflict cols cond ex cur :=
    foldl (λ row c, if cond ex cur then set_column c ex row else row) cur cols |}.

#[export] Instance old_row_engine_simultaneous : SimultaneousUpdate old_row_engine.
Proof. by intros cols cond ex cur. Defined.

(** A database that assigns from left to right, the columns sorted by name. *)
Definition column_rank (c : column) : nat :=
  match c with
  | c_encoded_entry => 0 | c_epoch => 1 | c_generation => 2 | c_key => 3 | c_owner_seq => 4
  | c_timestamp => 5 | c_tombstone => 6 | c_ttl => 7 | c_updated_at => 8 | c_writer_id => 9
  end.
Definition column_le (a b : column) : Prop := (column_rank a ≤ column_rank b)%nat.
#[export] Instance column_le_dec a b : Decision (column_le a b).
Proof. unfold column_le. apply _. Defined.

Definition mysql_engine : UpsertEngine := {|
  arrange := merge_sort column_le;
  arrange_perm := merge_sort_Permutation column_le;
  on_conflict cols cond ex cur :=
    foldl (λ row c, if cond ex row then set_column c ex row else row) cur cols |}.

Lemma mysql_engine_left_to_right : LeftToRightUpdate mysql_engine.
Proof. by intros cols cond ex cur. Defined.

Definition row_set1 : EntryRecord :=
  mkRecord "d" "k" 7 [x61] 0 100 false 1 1 1 "w" 100.
Definition row_del2 : EntryRecord :=
  mkRecord "d" "k" 7 [] 0 0 true 1 1 2 "w" 200.

Lemma empty_table_wf : table_wf ∅.
Proof. intros k r. by rewrite lookup_empty. Qed.


Lemma one_row_wf : table_wf {[pk row_del2 := row_del2]}.
Proof. intros k r. by intros [<- <-]%lookup_singleton_Some. Qed.

Lemma upsert_never_regresses_witness :
  ∃ r, (UpsertEntries (U := old_row_engine) (db_fails 1) [row_set1]
          {[pk row_del2 := row_del2]}).2 !! pk row_del2 = Some r ∧
       fence_ge (record_fence r) (record_fence row_del2).
Proof.
  apply (upsert_never_regresses (U := old_row_engine) (db_fails 1) _ [row_set1]
           (pk row_del2) row_del2 one_row_wf).
  vm_compute. reflexivity.
Defined.

Lemma upsert_order_irrelevant_witness :
  UpsertEntries (U := old_row_engine) db_ok [row_del2; row_set1; row_del2]
    (UpsertEntries (U := old_row_engine) (db_fails 1) [row_set1; row_del2] ∅).2
  = UpsertEntries (U := old_row_engine) db_ok [row_set1; row_del2] ∅.
Proof.
  apply (upsert_order_irrelevant (U := old_row_engine)).
  - exact empty_table_wf.
  - set_solver.
  - intros x y Hx Hy _. rewrite lookup_empty in Hx, Hy.
    destruct Hx as [Hx|]; [|discriminate]. destruct Hy as [Hy|]; [|discriminate].
    apply elem_of_cons in Hx as [->|Hx%list_elem_of_singleton];
      apply elem_of_cons in Hy as [->|Hy%list_elem_of_singleton]; subst; done.
Defined.

Lemma purge_deletes_committed_rows_witness :
  ∃ n db', Backend_PurgeBelowGeneration db_ok 2 {[pk row_set1 := row_set1]}
             = (Done (Z.of_nat n), db') ∧
    (∀ k r, db' !! k = Some r ↔
       ({[pk row_set1 := row_set1]} : gmap (string * Z) EntryRecord) !! k = Some r ∧
       2 ≤ rec_Generation r) ∧
    (size ({[pk row_set1 := row_set1]} : gmap (string * Z) EntryRecord) = n + size db')%nat.
Proof. apply (purge_deletes_committed_rows 2 {[pk row_set1 := row_set1]}). reflexivity. Defined.

(** Deleting ["k"] on MySQL: the row stays live. *)
Lemma left_to_right_upsert_tears_rows_witness :
  let row := on_conflict (UpsertEngine := mysql_engine)
               (arrange (UpsertEngine := mysql_engine) upsertClause) newer row_del2 row_set1 in
  rec_EncodedEntry row = rec_EncodedEntry row_del2 ∧ rec_OwnerSeq row = rec_OwnerSeq row_del2 ∧
  rec_Tombstone row = rec_Tombstone row_set1 ∧ rec_TTL row = rec_TTL row_set1 ∧
  rec_Timestamp row = rec_Timestamp row_set1 ∧ rec_UpdatedAt row = rec_UpdatedAt row_set1.
Proof.
  apply (left_to_right_upsert_tears_rows mysql_engine mysql_engine_left_to_right
           row_del2 row_set1); vm_compute; reflexivity.
Defined.
