(* ===== verification/Sidecar.v ===== *)
(** * The sidecar: pending set, ring consumer and control operations
      ([internal/sidecar/control.go])

    The server's state is the mapped ring file, the set of entries popped but
    not yet flushed ([pending]) and the database behind the backend.  Every
    exported operation of [Server] is a method in [M server]; database calls
    take the answer of the database, the clock and the iteration order of the
    Go map as arguments.  [flushOnce] and [DrainPartition] are composed of the
    part before and the part after the database call, because the mutex of
    [pending] is not held across it and entries may arrive in between. *)

From S2P Require Import Prelude Records Oplog OplogRing Backend.

(** ** pending *)

Record pending := mkPending { p_bytes : Z; p_entries : gmap EntryRef Entry }.

Definition newPending : pending := mkPending 0 ∅.

Definition pendingEntryBytes (e : Entry) : Z :=
  u64 (slen (DMap e) + slen (Key e) + slen (WriterID e) + zlen (EncodedEntry e) + 64).

Definition put (e : Entry) (p : pending) : pending :=
  let ref := entryRef e in
  let bytes := match p_entries p !! ref with
               | Some existing => u64 (p_bytes p - pendingEntryBytes existing)
               | None => p_bytes p
               end in
  mkPending (u64 (bytes + pendingEntryBytes e)) (<[ref := e]> (p_entries p)).

(** Go iterates over a map in an unspecified order: [order] is that order. *)
Definition snapshot (order : list Entry → list Entry) (p : pending) : list Entry :=
  order (map_to_list (p_entries p)).*2.

Definition drop_pending (ref : EntryRef) (ownerSeq : Z) (p : pending) : pending :=
  match p_entries p !! ref with
  | Some e =>
    if OwnerSeq e <=? ownerSeq
    then mkPending (u64 (p_bytes p - pendingEntryBytes e)) (delete ref (p_entries p))
    else p
  | None => p
  end.

Definition get_pending (ref : EntryRef) (p : pending) : option Entry := p_entries p !! ref.

Definition purgeBelow (generation : Z) (p : pending) : Z * pending :=
  foldl (λ '(dropped, p) '(ref, e),
           if Generation e <? generation
           then (dropped + 1,
                 mkPending (u64 (p_bytes p - pendingEntryBytes e)) (delete ref (p_entries p)))
           else (dropped, p))
        (0, p) (map_to_list (p_entries p)).

Definition in_partition (dmap : string) (partitionID partitionCount : Z) (e : Entry) : bool :=
  bool_decide (DMap e = dmap) && (HKey e mod partitionCount =? partitionID).

Definition drainPartition (order : list Entry → list Entry)
    (dmap : string) (partitionID partitionCount : Z) (p : pending) : list Entry :=
  filter (λ e, in_partition dmap partitionID partitionCount e = true)
    (order (map_to_list (p_entries p)).*2).

Definition pending_size (p : pending) : Z * Z := (Z.of_nat (size (p_entries p)), p_bytes p).

(** ** Server *)

Record config := mkConfig {
  BatchSize : Z; IdlePoll : Z; FlushTimeout : Z; MaxPendingRecords : Z; MaxPendingBytes : Z }.

Definition withDefaults (c : config) : config := {|
  BatchSize := if BatchSize c <=? 0 then 256 else BatchSize c;
  IdlePoll := if IdlePoll c <=? 0 then 200 * 1000000 else IdlePoll c;
  FlushTimeout := if FlushTimeout c <=? 0 then 30 * 1000000000 else FlushTimeout c;
  MaxPendingRecords := MaxPendingRecords c;
  MaxPendingBytes := MaxPendingBytes c |}.

Record server := mkServer {
  srv_capacity : Z;                          (** capacity of the ring mapping *)
  srv_ring : list byte;
  srv_pending : pending;
  srv_db : gmap (string * Z) EntryRecord;
  srv_wake : bool;                           (** a token is waiting in [wakeCh] *)
  srv_cfg : config }.

Definition set_ring (f : list byte) (s : server) : server :=
  mkServer (srv_capacity s) f (srv_pending s) (srv_db s) (srv_wake s) (srv_cfg s).
Definition set_pending (p : pending) (s : server) : server :=
  mkServer (srv_capacity s) (srv_ring s) p (srv_db s) (srv_wake s) (srv_cfg s).
Definition set_db (db : gmap (string * Z) EntryRecord) (s : server) : server :=
  mkServer (srv_capacity s) (srv_ring s) (srv_pending s) db (srv_wake s) (srv_cfg s).
Definition set_wake (b : bool) (s : server) : server :=
  mkServer (srv_capacity s) (srv_ring s) (srv_pending s) (srv_db s) b (srv_cfg s).

Inductive server_err :=
| ErrRingPop (e : ring_err)
| ErrOplogDecode (e : oplog_err)
| ErrFlushMySQL (e : backend_err)
| ErrDrainFlush (e : backend_err)
| ErrBackend (e : backend_err)
| ErrNilRequest
| ErrNilConsumer
| ErrNilBackend
| ErrPartitionCountZero
| ErrPartitionOutOfRange.

(** [consumer] is the mapping (capacity and file) and [backend] the table
    behind it; [None] is Go's [nil]. *)
Definition NewServer (consumer : option (Z * list byte))
    (backend : option (gmap (string * Z) EntryRecord)) (cfg : config) :
    outcome server_err server :=
  match consumer with
  | None => Fail ErrNilConsumer
  | Some (capacity, ring) =>
    match backend with
    | None => Fail ErrNilBackend
    | Some db => Done (mkServer capacity ring newPending db false (withDefaults cfg))
    end
  end.

Section server.
Context `{WriterOrder} {U : UpsertEngine}.
Context (order : list Entry → list Entry).

Definition pendingFull (s : server) : bool :=
  let '(records, bytes) := pending_size (srv_pending s) in
  ((0 <? MaxPendingRecords (srv_cfg s)) && (MaxPendingRecords (srv_cfg s) <=? records))
  || ((0 <? MaxPendingBytes (srv_cfg s)) && (MaxPendingBytes (srv_cfg s) <=? bytes)).

Definition pendingLen (s : server) : Z := (pending_size (srv_pending s)).1.

(** [consumer.Pop()]; two iterations of its loop are enough on every ring the
    producer can leave behind ([pop_dequeues]). *)
Definition consumer_Pop : M server server_err (option (list byte)) := λ s,
  zoom srv_ring set_ring (wrap_err ErrRingPop (Pop 2 (srv_capacity s))) s.

Definition decode_payload (payload : list byte) : M server server_err Entry := λ s,
  match Decode payload with
  | Done e => (Done e, s)
  | Fail e => (Fail (ErrOplogDecode e), s)
  | Panic => (Panic, s)
  end.

(** The loop of [drainRing]; each iteration raises [count] by one and the
    loop ends when it reaches [batchSize], so [max 1 batchSize] iterations are
    all it can take and the case [O] is never reached from [drainRing]. *)
Fixpoint drain_loop (iterations : nat) (batchSize count : Z) : M server server_err Z :=
  match iterations with
  | O => mret count
  | S iterations =>
    full ← gets pendingFull;
    if (full : bool) then mret count else
    payload ← consumer_Pop;
    match payload with
    | None => mret count
    | Some payload =>
      entry ← decode_payload payload;
      modify (λ s, set_pending (put entry (srv_pending s)) s);;
      let count := count + 1 in
      if batchSize <=? count then mret count else drain_loop iterations batchSize count
    end
  end.

Definition drainRing : M server server_err Z := λ s,
  drain_loop (Z.to_nat (Z.max 1 (BatchSize (srv_cfg s)))) (BatchSize (srv_cfg s)) 0 s.

(** The database call of a flush and the drops after it. *)
Definition flush_upsert (wrap : backend_err → server_err) (ans : db_answer)
    (entries : list Entry) : M server server_err () :=
  zoom srv_db set_db (wrap_err wrap (UpsertEntries ans (recordFromEntry <$> entries))).

Definition drop_entries (entries : list Entry) (p : pending) : pending :=
  foldl (λ p e, drop_pending (entryRef e) (OwnerSeq e) p) p entries.

Definition flush_drops (entries : list Entry) : M server server_err () :=
  modify (λ s, set_pending (drop_entries entries (srv_pending s)) s).

Definition flushOnce (ans : db_answer) : M server server_err () :=
  entries ← gets (λ s, snapshot order (srv_pending s));
  match entries with
  | [] => mret tt
  | _ => flush_upsert ErrFlushMySQL ans entries;; flush_drops entries
  end.

(** One iteration of the [Run] loop, up to its [select]. *)
Definition Run_iteration (ans : db_answer) : M server server_err () :=
  drained ← drainRing;
  len ← gets pendingLen;
  if (0 <? drained) || (0 <? len) then flushOnce ans else mret tt.

(** [finalDrain] swallows every error; [None] is "out of fuel". *)
Fixpoint finalDrain (fuel : nat) (ans : nat → db_answer) (s : server) : option server :=
  match fuel with
  | O => None
  | S fuel =>
    match drainRing s with
    | (Done drained, s1) =>
      match flushOnce (ans fuel) s1 with
      | (Done _, s2) => if drained =? 0 then Some s2 else finalDrain fuel ans s2
      | (_, s2) => Some s2
      end
    | (_, s1) => Some s1
    end
  end.

(** [select { case s.wakeCh <- struct{}{}: default: }] on a channel of size 1. *)
Definition wake : M server server_err () := modify (set_wake true).

Definition Notify : M server server_err () := wake;; mret tt.

(** The response of [LoadFromMySQL]: [None] is [Found: false]. *)
Definition LoadFromMySQL (ans : db_answer) (now : Z) (req : option EntryRef) :
    M server server_err (option EntryRecord) :=
  match req with
  | None => fail ErrNilRequest
  | Some ref =>
    e ← gets (λ s, get_pending ref (srv_pending s));
    match e with
    | Some e =>
      let rec := recordFromEntry e in
      if rec_Tombstone rec || recordExpiredAt rec now then mret None else mret (Some rec)
    | None => λ s,
      match Backend_LoadFromMySQL ans now ref (srv_db s) with
      | (Done rec, db) =>
        (if rec_Tombstone rec || recordExpiredAt rec now then Done None else Done (Some rec),
         set_db db s)
      | (Fail ErrNotFound, db) => (Done None, set_db db s)
      | (Fail err, db) => (Fail (ErrBackend err), set_db db s)
      | (Panic, db) => (Panic, set_db db s)
      end
    end
  end.

Record DrainPartitionRequest := mkDrain {
  dr_DMap : string; dr_PartitionID : Z; dr_PartitionCount : Z }.

Definition DrainPartition (ans : db_answer) (req : option DrainPartitionRequest) :
    M server server_err () :=
  match req with
  | None => fail ErrNilRequest
  | Some req =>
    if dr_PartitionCount req =? 0 then fail ErrPartitionCountZero else
    if dr_PartitionCount req <=? dr_PartitionID req then fail ErrPartitionOutOfRange else
    drainRing;;
    subset ← gets (λ s, drainPartition order (dr_DMap req) (dr_PartitionID req)
                          (dr_PartitionCount req) (srv_pending s));
    match subset with
    | [] => mret tt
    | _ => flush_upsert ErrDrainFlush ans subset;; flush_drops subset
    end
  end.

Definition PurgeBelowGeneration (ans : db_answer) (req : option Z) : M server server_err Z :=
  match req with
  | None => fail ErrNilRequest
  | Some minGeneration =>
    if minGeneration <=? 0 then mret 0 else
    dropped ← (λ s, let '(dropped, p) := purgeBelow minGeneration (srv_pending s) in
                    (Done dropped, set_pending p s));
    purged ← zoom srv_db set_db
               (wrap_err ErrBackend (Backend_PurgeBelowGeneration ans minGeneration));
    mret (dropped + purged)
  end.

Definition Shutdown (ans : db_answer) : M server server_err () := flushOnce ans.
End server.

(** ** The pending set *)

Definition total_bytes (m : gmap EntryRef Entry) : Z :=
  map_fold (λ _ e acc, pendingEntryBytes e + acc) 0 m.

(** The byte counter is the total size of the entries (modulo the width of
    the counter) and every entry is filed under its own coordinates. *)
Record pending_wf (p : pending) : Prop := {
  pwf_bytes : p_bytes p = u64 (total_bytes (p_entries p));
  pwf_keys : ∀ ref e, p_entries p !! ref = Some e → entryRef e = ref }.

Lemma total_bytes_insert m ref e :
  m !! ref = None → total_bytes (<[ref := e]> m) = pendingEntryBytes e + total_bytes m.
Proof. intros. unfold total_bytes. by rewrite map_fold_insert_L by (intros; lia || done). Qed.

Lemma total_bytes_delete m ref e :
  m !! ref = Some e → total_bytes m = pendingEntryBytes e + total_bytes (delete ref m).
Proof. intros. unfold total_bytes. by rewrite (map_fold_delete_L _ _ ref e) by (intros; lia || done). Qed.

Lemma u64_sub_l a b : u64 (u64 a - b) = u64 (a - b).
Proof. unfold u64. by rewrite Zminus_mod_idemp_l. Qed.

Lemma newPending_wf : pending_wf newPending.
Proof. split; [done|]. intros ref e. simpl. by rewrite lookup_empty. Qed.

Lemma pending_delete_wf p ref e :
  pending_wf p → p_entries p !! ref = Some e →
  pending_wf (mkPending (u64 (p_bytes p - pendingEntryBytes e)) (delete ref (p_entries p))).
Proof.
  intros [Hb Hk] He. split; simpl.
  - rewrite Hb, u64_sub_l, (total_bytes_delete _ _ _ He). f_equal. lia.
  - intros ref' e' [_ ?]%lookup_delete_Some. auto.
Qed.

Lemma put_wf e p : pending_wf p → pending_wf (put e p).
Proof.
  intros Hwf. pose proof Hwf as [Hb Hk]. unfold put.
  destruct (p_entries p !! entryRef e) as [e'|] eqn:He; split; simpl.
  - destruct (pending_delete_wf _ _ _ Hwf He) as [Hd _]. simpl in Hd.
    rewrite Hd, u64_add_l, <- insert_delete_eq, total_bytes_insert by apply lookup_delete_eq.
    f_equal. lia.
  - intros ref x [[<- <-]|[? ?]]%lookup_insert_Some; auto.
  - rewrite Hb, u64_add_l, total_bytes_insert by done. f_equal. lia.
  - intros ref x [[<- <-]|[? ?]]%lookup_insert_Some; auto.
Qed.

Lemma drop_pending_wf ref seq p : pending_wf p → pending_wf (drop_pending ref seq p).
Proof.
  intros Hwf. unfold drop_pending. destruct (p_entries p !! ref) eqn:?; [|done].
  dcase; [|done]. by apply pending_delete_wf.
Qed.

Lemma drop_entries_wf l p : pending_wf p → pending_wf (drop_entries l p).
Proof. revert p. induction l; simpl; auto using drop_pending_wf. Qed.

(** [purgeBelow] keeps exactly the entries of the current generation on. *)
Lemma purge_fold g l dropped p :
  NoDup l.*1 → (∀ ref e, (ref, e) ∈ l → p_entries p !! ref = Some e) → pending_wf p →
  let '(n, p') := foldl (λ '(dropped, p) '(ref, e),
           if Generation e <? g
           then (dropped + 1,
                 mkPending (u64 (p_bytes p - pendingEntryBytes e)) (delete ref (p_entries p)))
           else (dropped, p)) (dropped, p) l in
  pending_wf p' ∧
  n = dropped + zlen (filter (λ '(_, e), Generation e < g) l) ∧
  (∀ ref e, p_entries p' !! ref = Some e ↔
     p_entries p !! ref = Some e ∧ ((ref, e) ∈ l → g ≤ Generation e)).
Proof.
  revert dropped p. induction l as [|[ref e] l IH]; intros dropped p Hnd Hl Hwf.
  { simpl. split_and!; [done|unfold zlen; simpl; lia|]. set_solver. }
  apply NoDup_cons in Hnd as [Hnin Hnd].
  assert (∀ e', (ref, e') ∉ l) as Hnin'.
  { intros e' ?. apply Hnin. apply list_elem_of_fmap. by exists (ref, e'). }
  cbn [foldl]. rewrite filter_cons. destruct (Z.ltb_spec (Generation e) g) as [Hg|Hg].
  - rewrite decide_True by done.
    specialize (IH (dropped + 1)
      (mkPending (u64 (p_bytes p - pendingEntryBytes e)) (delete ref (p_entries p)))).
    destruct foldl as [n p']. destruct IH as (?&Hn&He); [done| | |].
    { intros r e' Hr. apply lookup_delete_Some. split; [intros ->; by apply (Hnin' e')|].
      apply Hl. by right. }
    { apply pending_delete_wf; [done|]. apply Hl. by left. }
    split_and!; [done|rewrite Hn; unfold zlen; simpl; lia|].
    intros r x. rewrite He. simpl. rewrite lookup_delete_Some, elem_of_cons.
    split.
    + intros [[? ?] ?]. split; [done|]. intros [?|?]; [congruence|auto].
    + intros [Hr Hi]. split_and!; [|done|auto]. intros <-.
      assert (x = e) as -> by (rewrite (Hl ref e) in Hr by (by left); congruence).
      specialize (Hi (or_introl eq_refl)). lia.
  - rewrite decide_False by lia. specialize (IH dropped p).
    destruct foldl as [n p']. destruct IH as (?&Hn&He); [done| |done|].
    { intros. apply Hl. by right. }
    split_and!; [done..|]. intros r x. rewrite He, elem_of_cons. split.
    + intros [Hr Hi]. split; [done|]. intros [[= -> ->]|?]; [done|auto].
    + intros [Hr Hi]. split; [done|auto].
Qed.

Lemma purgeBelow_spec g p :
  pending_wf p →
  pending_wf (purgeBelow g p).2 ∧
  p_entries (purgeBelow g p).2 = filter (λ '(_, e), g ≤ Generation e) (p_entries p) ∧
  (purgeBelow g p).1 = zlen (filter (λ '(_, e), Generation e < g) (map_to_list (p_entries p))).
Proof.
  intros Hwf. pose proof (purge_fold g (map_to_list (p_entries p)) 0 p) as Hf.
  unfold purgeBelow in *. destruct foldl as [n p'].
  destruct Hf as (?&Hn&He); [apply NoDup_fst_map_to_list|by intros ?? ?%elem_of_map_to_list|done|].
  split_and!; [done| |done]. apply map_eq. intros ref. apply option_eq. intros e.
  rewrite He, map_lookup_filter_Some, elem_of_map_to_list. naive_solver.
Qed.

Lemma drop_pending_lookup ref seq p r e :
  p_entries (drop_pending ref seq p) !! r = Some e ↔
  p_entries p !! r = Some e ∧ (ref = r → seq < OwnerSeq e).
Proof.
  unfold drop_pending. destruct (p_entries p !! ref) as [x|] eqn:Hx.
  - destruct (Z.leb_spec (OwnerSeq x) seq); simpl.
    + rewrite lookup_delete_Some. split; [naive_solver|].
      intros [He Hs]. split; [|done]. intros <-. simplify_eq. specialize (Hs eq_refl). lia.
    + split; [|naive_solver]. intros He. split; [done|]. intros <-. by simplify_eq.
  - naive_solver.
Qed.

Lemma drop_entries_lookup l p r e :
  p_entries (drop_entries l p) !! r = Some e ↔
  p_entries p !! r = Some e ∧ ∀ f, f ∈ l → entryRef f = r → OwnerSeq f < OwnerSeq e.
Proof.
  unfold drop_entries. revert p. induction l as [|x l IH]; intros p; simpl.
  - split; [|naive_solver]. intros. split; [done|]. by intros f ?%elem_of_nil.
  - rewrite IH, drop_pending_lookup. setoid_rewrite elem_of_cons. naive_solver.
Qed.

(** ** The server *)

(** The ring holds the encodings of [es], which the sidecar has not seen yet. *)
Record server_wf (s : server) (es : list Entry) : Prop := {
  swf_ring : ∃ H T q, ring_wf (srv_capacity s) (srv_ring s) H T q ∧
                      Forall2 (λ payload e, Decode payload = Done e) q es;
  swf_pending : pending_wf (srv_pending s);
  swf_db : table_wf (srv_db s) }.

(** What the operations on the ring leave alone. *)
Definition same_frame (s s' : server) : Prop :=
  srv_capacity s' = srv_capacity s ∧ srv_db s' = srv_db s ∧
  srv_wake s' = srv_wake s ∧ srv_cfg s' = srv_cfg s.

Definition put_all (es : list Entry) (p : pending) : pending := foldl (λ p e, put e p) p es.

(** [e] is accounted for outside the ring: a pending entry of the same key or
    the row of its primary key carries at least its fence. *)
Definition covered `{WriterOrder} (s : server) (e : Entry) : Prop :=
  (∃ e', p_entries (srv_pending s) !! entryRef e = Some e' ∧
         fence_ge (entry_fence e') (entry_fence e)) ∨
  row_ge (srv_db s) (pk (recordFromEntry e)) (entry_fence e).

Section server_lemmas.
Context `{WriterOrder} {U : UpsertEngine} {HU : SimultaneousUpdate U}.
Context (order : list Entry → list Entry) (Horder : ∀ l, order l ≡ₚ l).

Lemma server_wf_put s es e :
  server_wf s es → server_wf (set_pending (put e (srv_pending s)) s) es.
Proof. intros [? ? ?]. split; [done|by apply put_wf|done]. Qed.

Lemma consumer_Pop_run s es :
  server_wf s es →
  match es with
  | [] => consumer_Pop s = (Done None, s)
  | e :: es' => ∃ payload f', consumer_Pop s = (Done (Some payload), set_ring f' s) ∧
                  Decode payload = Done e ∧ server_wf (set_ring f' s) es'
  end.
Proof.
  intros [(H'&T&q&Hwf&Hq) ? ?]. pose proof (Pop_run _ _ _ _ _ 2 Hwf ltac:(lia)) as Hp.
  unfold consumer_Pop, zoom, wrap_err. destruct Hq as [|payload e q es Hd Hq].
  - destruct Hp as [_ ->]. by destruct s.
  - destruct Hp as (f'&H1&->&Hwf'). exists payload, f'. split_and!; [done..|].
    split; [|done..]. by exists H1, T, q.
Qed.

(** One iteration of the drain loop. *)
Lemma drain_loop_step n batch count s es :
  server_wf s es →
  drain_loop (S n) batch count s =
  if pendingFull s then (Done count, s) else
  match es with
  | [] => (Done count, s)
  | e :: _ =>
    let s' := set_pending (put e (srv_pending s)) (set_ring (consumer_Pop s).2.(srv_ring) s) in
    if batch <=? count + 1 then (Done (count + 1), s') else drain_loop n batch (count + 1) s'
  end.
Proof.
  intros Hwf. pose proof (consumer_Pop_run _ _ Hwf) as Hp. cbn [drain_loop].
  erewrite bind_done by reflexivity. destruct (pendingFull s); [done|].
  destruct es as [|e es].
  - erewrite bind_done by exact Hp. done.
  - destruct Hp as (payload&f'&Hp&Hd&_). rewrite Hp. erewrite bind_done by exact Hp.
    unfold mbind at 1, M_bind at 1, decode_payload. rewrite Hd. by dcase.
Qed.

Lemma consumer_Pop_wf s e es :
  server_wf s (e :: es) →
  server_wf (set_pending (put e (srv_pending s)) (set_ring (consumer_Pop s).2.(srv_ring) s)) es.
Proof.
  intros Hwf. destruct (consumer_Pop_run _ _ Hwf) as (payload&f'&->&_&Hwf').
  exact (server_wf_put _ _ e Hwf').
Qed.

Lemma drain_loop_run n batch count s es :
  server_wf s es → (0 < n)%nat → batch ≤ count + Z.of_nat n →
  ∃ k s', drain_loop n batch count s = (Done (count + Z.of_nat k), s') ∧ (k ≤ n)%nat ∧
    server_wf s' (drop k es) ∧ (k ≤ length es)%nat ∧
    srv_pending s' = put_all (take k es) (srv_pending s) ∧ same_frame s s' ∧
    (batch ≤ count + Z.of_nat k ∨ k = length es ∨ pendingFull s' = true) ∧
    (pendingFull s = true → k = 0%nat).
Proof.
  revert count s es. induction n as [|n IH]; intros count s es Hwf Hn Hb; [lia|].
  rewrite (drain_loop_step _ _ _ _ _ Hwf).
  assert (∃ k s', (Done count, s) = (Done (E:=server_err) (count + Z.of_nat k), s') ∧ k = 0%nat ∧
            s' = s ∧ (k ≤ S n)%nat ∧ server_wf s' (drop k es) ∧ (k ≤ length es)%nat ∧
            srv_pending s' = put_all (take k es) (srv_pending s) ∧ same_frame s s') as
    (k&s'&He&Hk&->&Hstop).
  { exists 0%nat, s. replace (count + Z.of_nat 0) with count by lia.
    rewrite drop_0. split_and!; [done..|lia|done|lia|done|done]. }
  destruct (pendingFull s) eqn:Hfull; [exists k, s; rewrite He; naive_solver|].
  destruct es as [|e es]; [exists k, s; rewrite He; subst; naive_solver|].
  clear k He Hk Hstop. pose proof (consumer_Pop_wf _ _ _ Hwf) as Hwf'.
  set (s1 := set_pending _ _) in *. cbv zeta.
  assert (same_frame s s1) as Hfr by done.
  destruct (Z.leb_spec batch (count + 1)).
  - exists 1%nat, s1. rewrite skipn_cons, drop_0. simpl.
    split_and!; [done|lia|done|lia|done|done|left; lia|done].
  - destruct (IH (count + 1) s1 es) as (k&s'&->&Hk&?&?&Hp&?&Hst&_); [done|lia..|].
    exists (S k), s'. split_and!; [do 2 f_equal; lia|lia|done|simpl; lia| | | |done].
    + rewrite Hp. done.
    + unfold same_frame in *. naive_solver congruence.
    + destruct Hst as [?|[?|?]]; [left; lia|right; left; simpl; lia|by right; right].
Qed.

Lemma drainRing_run s es :
  server_wf s es → 0 < BatchSize (srv_cfg s) →
  ∃ k s', drainRing s = (Done (Z.of_nat k), s') ∧ Z.of_nat k ≤ BatchSize (srv_cfg s) ∧
    server_wf s' (drop k es) ∧ (k ≤ length es)%nat ∧
    srv_pending s' = put_all (take k es) (srv_pending s) ∧ same_frame s s' ∧
    (Z.of_nat k = BatchSize (srv_cfg s) ∨ k = length es ∨ pendingFull s' = true) ∧
    (pendingFull s = true → k = 0%nat).
Proof.
  intros Hwf Hb.
  destruct (drain_loop_run (Z.to_nat (Z.max 1 (BatchSize (srv_cfg s)))) (BatchSize (srv_cfg s))
    0 s es Hwf) as (k&s'&Hd&?&?&?&?&?&Hst&?); [lia..|].
  exists k, s'. split_and!; [done|lia|done..| |done].
  destruct Hst as [?|?]; [left; lia|by right].
Qed.

Lemma snapshot_elem p e : e ∈ snapshot order p ↔ ∃ ref, p_entries p !! ref = Some e.
Proof.
  unfold snapshot. rewrite Horder, list_elem_of_fmap. split.
  - intros ([ref e']&->&?%elem_of_map_to_list). by exists ref.
  - intros [ref He]. exists (ref, e). split; [done|]. by apply elem_of_map_to_list.
Qed.

Lemma snapshot_nil p : snapshot order p = [] → p_entries p = ∅.
Proof.
  intros Hs. apply map_eq. intros ref. rewrite lookup_empty.
  destruct (p_entries p !! ref) as [e|] eqn:He; [|done].
  assert (e ∈ snapshot order p) as Hin by (apply snapshot_elem; eauto).
  rewrite Hs in Hin. by apply elem_of_nil in Hin.
Qed.

Lemma drainPartition_elem d i n p e :
  e ∈ drainPartition order d i n p ↔
  (∃ ref, p_entries p !! ref = Some e) ∧ in_partition d i n e = true.
Proof.
  unfold drainPartition. rewrite list_elem_of_filter. pose proof (snapshot_elem p e) as Hs.
  unfold snapshot in Hs. rewrite Hs. tauto.
Qed.

(** A database call and the drops after it. *)
Lemma flush_batch_run wrap ans l s :
  l ≠ [] →
  (flush_upsert wrap ans l;; flush_drops l) s =
  match ans with
  | db_ok => (Done tt, set_pending (drop_entries l (srv_pending s))
                (set_db (foldl upsert_row (srv_db s) (recordFromEntry <$> l)) s))
  | db_fails n => (Fail (wrap ErrDatabase),
                   set_db (foldl upsert_row (srv_db s) (take n (recordFromEntry <$> l))) s)
  end.
Proof. intros Hl. destruct l as [|e l]; [done|]. by destruct ans. Qed.

Lemma flushOnce_run ans s :
  flushOnce order ans s =
  if decide (p_entries (srv_pending s) = ∅) then (Done tt, s) else
  (flush_upsert ErrFlushMySQL ans (snapshot order (srv_pending s));;
   flush_drops (snapshot order (srv_pending s))) s.
Proof.
  unfold flushOnce. erewrite bind_done by reflexivity.
  case_decide as Hd.
  - unfold snapshot. rewrite Hd, map_to_list_empty. simpl.
    by rewrite (proj1 (Permutation_nil_r _) (Horder [])).
  - destruct (snapshot order (srv_pending s)) as [|e l] eqn:Hs; [|done].
    by apply snapshot_nil in Hs.
Qed.

Lemma upsert_entry_covered db l e :
  table_wf db → e ∈ l →
  row_ge (foldl upsert_row db (recordFromEntry <$> l)) (pk (recordFromEntry e)) (entry_fence e).
Proof.
  intros Hwf He. apply (upsert_rows_ge_self db _ (recordFromEntry e)); [done|].
  by apply list_elem_of_fmap_2.
Qed.

Lemma drop_snapshot_empty p :
  pending_wf p → p_entries (drop_entries (snapshot order p) p) = ∅.
Proof.
  intros [_ Hk]. apply map_eq. intros ref. rewrite lookup_empty.
  destruct (p_entries (drop_entries _ p) !! ref) as [e|] eqn:He; [|done].
  apply drop_entries_lookup in He as [He Hlt].
  specialize (Hlt e). rewrite snapshot_elem in Hlt.
  specialize (Hlt (ex_intro _ ref He) (Hk _ _ He)). lia.
Qed.

Lemma pending_wf_empty p : pending_wf p → p_entries p = ∅ → p = newPending.
Proof. intros [Hb _] He. destruct p as [b m]. simpl in *. subst. done. Qed.

Lemma flush_empties p : pending_wf p → drop_entries (snapshot order p) p = newPending.
Proof.
  intros Hwf. apply pending_wf_empty; [by apply drop_entries_wf|].
  by apply drop_snapshot_empty.
Qed.
End server_lemmas.

(** ** Operations on well-formed states *)

Section operations.
Context `{WriterOrder} {U : UpsertEngine} {HU : SimultaneousUpdate U}.
Context (order : list Entry → list Entry) (Horder : ∀ l, order l ≡ₚ l).

Lemma set_db_wf s es l :
  server_wf s es → server_wf (set_db (foldl upsert_row (srv_db s) l) s) es.
Proof. intros [? ? ?]. split; [done..|]. by apply upsert_rows_wf. Qed.

Lemma flushOnce_ok s es :
  server_wf s es →
  ∃ s', flushOnce order db_ok s = (Done tt, s') ∧ server_wf s' es ∧
    srv_pending s' = newPending ∧
    srv_db s' = foldl upsert_row (srv_db s) (recordFromEntry <$> snapshot order (srv_pending s)) ∧
    srv_ring s' = srv_ring s ∧ srv_capacity s' = srv_capacity s ∧ srv_cfg s' = srv_cfg s.
Proof.
  intros Hwf. rewrite (flushOnce_run order Horder). case_decide as He.
  - exists s. split_and!; [done|done| | |done..].
    + apply pending_wf_empty; [apply Hwf|done].
    + unfold snapshot. rewrite He, map_to_list_empty. simpl.
      by rewrite (proj1 (Permutation_nil_r _) (Horder [])).
  - rewrite flush_batch_run; [|by intros ?%(snapshot_nil order Horder)].
    eexists. split; [done|]. destruct Hwf as [? Hp ?].
    simpl. rewrite (flush_empties order Horder) by done.
    split; [|done]. split; [done|apply newPending_wf|by apply upsert_rows_wf].
Qed.

Lemma newPending_not_full s : srv_pending s = newPending → pendingFull s = false.
Proof.
  unfold pendingFull, pending_size. intros ->. simpl. rewrite map_size_empty. simpl.
  apply orb_false_iff; split.
  - destruct (Z.ltb_spec 0 (MaxPendingRecords (srv_cfg s))); [|done].
    by apply Z.leb_gt.
  - destruct (Z.ltb_spec 0 (MaxPendingBytes (srv_cfg s))); [|done].
    by apply Z.leb_gt.
Qed.

Lemma pendingFull_frame s s' :
  srv_pending s' = srv_pending s → srv_cfg s' = srv_cfg s → pendingFull s' = pendingFull s.
Proof. unfold pendingFull. by intros -> ->. Qed.

Lemma put_size e p : (size (p_entries (put e p)) ≤ S (size (p_entries p)))%nat.
Proof.
  unfold put. simpl. destruct (p_entries p !! entryRef e) eqn:He.
  - rewrite map_size_insert_Some by done. lia.
  - rewrite map_size_insert_None by done. lia.
Qed.

(** Every entry of a pending set after puts was put or was there before. *)
Lemma put_all_origin l p ref e :
  p_entries (put_all l p) !! ref = Some e → e ∈ l ∨ p_entries p !! ref = Some e.
Proof.
  unfold put_all. revert p. induction l as [|x l IH]; intros p; simpl; [by right|].
  intros [?|Hp]%IH; [left; by right|]. simpl in Hp.
  apply lookup_insert_Some in Hp as [[_ <-]|[_ ?]]; [left; by left|by right].
Qed.

(** The record cap holds along the drain loop, whatever the ring contains. *)
Lemma drain_loop_bound n batch count s r s' :
  drain_loop n batch count s = (r, s') → 0 < MaxPendingRecords (srv_cfg s) →
  pendingLen s ≤ MaxPendingRecords (srv_cfg s) →
  srv_cfg s' = srv_cfg s ∧ pendingLen s' ≤ MaxPendingRecords (srv_cfg s).
Proof.
  revert count s. induction n as [|n IH]; intros count s; cbn [drain_loop].
  { intros [= _ <-]. done. }
  unfold mbind, M_bind, gets, modify. destruct (pendingFull s) eqn:Hfull; [by intros [= _ <-]|].
  unfold consumer_Pop, zoom. destruct (wrap_err _ _ _) as [[[payload|]| |] f];
    [|by intros [= _ <-]..].
  unfold decode_payload. destruct (Decode payload) as [e| |]; [|by intros [= _ <-]..].
  intros Hr Hmax Hlen. set (s1 := set_pending _ _) in Hr.
  assert (srv_cfg s1 = srv_cfg s) as Hcfg by done.
  assert (pendingLen s1 ≤ MaxPendingRecords (srv_cfg s)) as Hlen1.
  { pose proof (put_size e (srv_pending s)).
    unfold pendingLen, pending_size, pendingFull in *. simpl in *. apply orb_false_iff in Hfull as [Hfull _].
    rewrite (proj2 (Z.ltb_lt _ _)) in Hfull by done. simpl in Hfull. bools. lia. }
  destruct (batch <=? count + 1).
  - unfold mret, M_ret in Hr. simplify_eq. done.
  - rewrite <- Hcfg in Hmax, Hlen1. destruct (IH _ _ Hr Hmax Hlen1) as [-> ?].
    by rewrite <- Hcfg.
Qed.

(** [finalDrain] on a server whose database answers. *)
Lemma finalDrain_run fuel ans s es :
  server_wf s es → 0 < BatchSize (srv_cfg s) → pendingFull s = false →
  (∀ i, ans i = db_ok) → (length es + 1 < fuel)%nat →
  ∃ s', finalDrain order fuel ans s = Some s' ∧ server_wf s' [] ∧ srv_pending s' = newPending.
Proof.
  revert s es. induction fuel as [|fuel IH]; intros s es Hwf Hb Hfull Hans Hfuel; [lia|].
  cbn [finalDrain]. destruct (drainRing_run s es Hwf Hb)
    as (k&s1&->&Hk&Hwf1&Hlen&Hp1&(Hc1&_&_&Hcfg1)&Hstop&_).
  rewrite Hans. destruct (flushOnce_ok s1 _ Hwf1) as (s2&->&Hwf2&Hp2&_&_&_&Hcfg2).
  destruct (Z.eqb_spec (Z.of_nat k) 0) as [Hk0|Hk0].
  - exists s2. split_and!; [done| |done]. assert (k = 0)%nat as -> by lia.
    destruct es as [|e es]; [done|]. exfalso.
    destruct Hstop as [?|[?|Hf]]; [lia|done|].
    by rewrite (pendingFull_frame s s1 Hp1 Hcfg1), Hfull in Hf.
  - apply (IH s2 (drop k es)); [done|congruence|by apply newPending_not_full|done|].
    rewrite length_drop. lia.
Qed.
End operations.

(** ** Theorems *)

Inductive pending_op :=
| PPut (e : Entry)
| PDrop (ref : EntryRef) (ownerSeq : Z)
| PPurge (generation : Z).

Definition apply_op (p : pending) (op : pending_op) : pending :=
  match op with
  | PPut e => put e p
  | PDrop ref seq => drop_pending ref seq p
  | PPurge g => (purgeBelow g p).2
  end.

(** Through any sequence of puts, drops and purges the byte counter of the
    pending set equals the total size of its entries (so no update is counted
    twice and nothing stays counted after it left), and every entry is filed
    under its own coordinates. *)
Theorem pending_accounting ops : pending_wf (foldl apply_op newPending ops).
Proof.
  assert (∀ p, pending_wf p → pending_wf (foldl apply_op p ops)) as Hf;
    [|apply Hf, newPending_wf].
  induction ops as [|[e|ref seq|g] ops IH]; intros p Hp; simpl; [done|..]; apply IH.
  - by apply put_wf.
  - by apply drop_pending_wf.
  - by apply purgeBelow_spec.
Qed.

Section theorems.
Context `{WriterOrder} {U : UpsertEngine} {HU : SimultaneousUpdate U}.
Context (order : list Entry → list Entry) (Horder : ∀ l, order l ≡ₚ l).

(** [drainRing] moves a prefix of the ring, in order, into the pending set
    and touches nothing else.  It stops only at the batch size, at the end of
    the ring or at the pending cap, it does not move anything when the cap is
    already reached, and it reports exactly the number moved. *)
Theorem drain_ring_takes_a_prefix s es :
  server_wf s es → 0 < BatchSize (srv_cfg s) →
  ∃ k s', drainRing s = (Done (Z.of_nat k), s') ∧ Z.of_nat k ≤ BatchSize (srv_cfg s) ∧
    server_wf s' (drop k es) ∧ (k ≤ length es)%nat ∧
    srv_pending s' = put_all (take k es) (srv_pending s) ∧ same_frame s s' ∧
    (Z.of_nat k = BatchSize (srv_cfg s) ∨ k = length es ∨ pendingFull s' = true) ∧
    (pendingFull s = true → k = 0%nat).
Proof. apply drainRing_run. Qed.

(** Back-pressure.  With a record cap configured, [drainRing] never lets
    the pending set grow beyond it, whatever bytes the ring holds and however
    the call ends. *)
Theorem pending_stays_bounded s r s' :
  drainRing s = (r, s') → 0 < MaxPendingRecords (srv_cfg s) →
  pendingLen s ≤ MaxPendingRecords (srv_cfg s) →
  pendingLen s' ≤ MaxPendingRecords (srv_cfg s').
Proof.
  intros Hd Hm Hl. destruct (drain_loop_bound _ _ _ _ _ _ Hd Hm Hl) as [-> ?]. done.
Qed.

(** [flushOnce] either persists the whole pending set (every entry that was
    pending has a row with at least its fence, and the set is empty
    afterwards), or reports the database error and keeps every entry pending
    for the next round.  The ring is not touched. *)
Theorem flush_outcome ans s es :
  server_wf s es →
  let '(r, s') := flushOnce order ans s in
  server_wf s' es ∧ srv_ring s' = srv_ring s ∧
  match r with
  | Done _ => srv_pending s' = newPending ∧
      ∀ ref e, p_entries (srv_pending s) !! ref = Some e →
               row_ge (srv_db s') (pk (recordFromEntry e)) (entry_fence e)
  | Fail err => err = ErrFlushMySQL ErrDatabase ∧ srv_pending s' = srv_pending s
  | Panic => False
  end.
Proof.
  intros Hwf. destruct ans as [|n].
  - destruct (flushOnce_ok order Horder s es Hwf) as (s'&->&Hwf'&Hp&Hdb&Hr&_).
    split_and!; [done..|]. intros ref e He. rewrite Hdb.
    apply upsert_entry_covered; [apply Hwf|]. apply snapshot_elem; eauto.
  - rewrite (flushOnce_run order Horder). case_decide as He.
    + split_and!; [done|done|by apply pending_wf_empty; [apply Hwf|]|].
      rewrite He. intros ref e. by rewrite lookup_empty.
    + rewrite flush_batch_run by (by intros ?%(snapshot_nil order Horder)).
      split_and!; [|done..]. by apply set_db_wf.
Qed.

(** Read your writes across a flush.  An entry that is pending, newer than
    the stored row and alone on its primary key is what [LoadFromMySQL]
    answers, and it is still the answer after the flush moved it to the
    database: a deleted or expired value stays absent, a live one is returned
    with the same record. *)
Theorem load_stable_across_flush s es ref e now :
  server_wf s es → p_entries (srv_pending s) !! ref = Some e →
  (∀ ref' e', p_entries (srv_pending s) !! ref' = Some e' →
     pk (recordFromEntry e') = pk (recordFromEntry e) → ref' = ref) →
  (∀ r, srv_db s !! pk (recordFromEntry e) = Some r →
     fence_gt (entry_fence e) (record_fence r) = true) →
  let live := negb (rec_Tombstone (recordFromEntry e) || recordExpiredAt (recordFromEntry e) now) in
  let answer := if live then Some (recordFromEntry e) else None in
  (LoadFromMySQL db_ok now (Some ref) s).1 = Done answer ∧
  (LoadFromMySQL db_ok now (Some ref) (flushOnce order db_ok s).2).1 = Done answer.
Proof.
  intros Hwf He Halone Hnew. cbv zeta. split.
  { unfold LoadFromMySQL, mbind, M_bind, gets, get_pending. rewrite He.
    by destruct (_ || _). }
  destruct (flushOnce_ok order Horder s es Hwf) as (s'&->&Hwf'&Hp&Hdb&_). cbn [fst snd].
  assert (srv_db s' !! pk (recordFromEntry e) = Some (recordFromEntry e)) as Hrow.
  { rewrite Hdb. set (l := recordFromEntry <$> _).
    assert (recordFromEntry e ∈ l) as Hin.
    { apply list_elem_of_fmap_2, snapshot_elem; eauto. }
    pose proof (upsert_rows_winner (srv_db s) l (pk (recordFromEntry e)) (swf_db _ _ Hwf)) as Hwin.
    destruct (foldl upsert_row (srv_db s) l !! _) as [r|]; simpl in Hwin.
    - destruct Hwin as ([Hr|[Hr Hk]]&_&Hge).
      + specialize (Hge _ Hin eq_refl). specialize (Hnew _ Hr). unfold fence_ge in Hge.
        change (record_fence (recordFromEntry e)) with (entry_fence e) in Hge. congruence.
      + apply list_elem_of_fmap in Hr as (e'&->&[ref' He']%snapshot_elem); [|done].
        rewrite (Halone _ _ He' Hk) in He'. by simplify_eq.
    - destruct Hwin as [_ Hno]. by destruct (Hno _ Hin). }
  unfold LoadFromMySQL, mbind, M_bind, gets, get_pending. rewrite Hp. simpl (p_entries newPending).
  rewrite lookup_empty. unfold Backend_LoadFromMySQL.
  pose proof (pwf_keys _ (swf_pending _ _ Hwf) _ _ He) as <-.
  change (ref_DMap (entryRef e), ref_HKey (entryRef e)) with (pk (recordFromEntry e)).
  rewrite Hrow. destruct (rec_Tombstone (recordFromEntry e)) eqn:Ht; [done|].
  destruct (recordExpiredAt (recordFromEntry e) now) eqn:Hx; [done|]. by rewrite Ht, Hx.
Qed.

(** A successful [DrainPartition] leaves no pending entry of the partition:
    each entry of the partition that was pending or was taken from the ring by
    the call and not overwritten there has a row with at least its fence; the
    entries of other partitions stay pending, none is lost. *)
Theorem drain_partition_flushes ans d i n s es s' :
  server_wf s es → 0 < BatchSize (srv_cfg s) → 0 < n → i < n →
  DrainPartition order ans (Some (mkDrain d i n)) s = (Done tt, s') →
  ∃ k, let p1 := put_all (take k es) (srv_pending s) in
    server_wf s' (drop k es) ∧
    (∀ ref e, p_entries (srv_pending s') !! ref = Some e ↔
       p_entries p1 !! ref = Some e ∧ in_partition d i n e = false) ∧
    (∀ ref e, p_entries p1 !! ref = Some e → in_partition d i n e = true →
       row_ge (srv_db s') (pk (recordFromEntry e)) (entry_fence e)).
Proof.
  intros Hwf Hb Hn Hi. unfold DrainPartition. cbn [dr_DMap dr_PartitionID dr_PartitionCount].
  rewrite (proj2 (Z.eqb_neq _ _)), (proj2 (Z.leb_gt _ _)) by lia.
  destruct (drainRing_run s es Hwf Hb) as (k&s1&Hd&_&Hwf1&_&Hp1&_).
  erewrite bind_done by exact Hd. erewrite bind_done by reflexivity.
  intros Hr. exists k. cbv zeta. rewrite <- Hp1.
  pose proof (drainPartition_elem order Horder d i n (srv_pending s1)) as Hl.
  remember (drainPartition order d i n (srv_pending s1)) as l eqn:Hl0. clear Hl0.
  assert (∀ ref e, p_entries (srv_pending s1) !! ref = Some e → entryRef e = ref) as Hkeys.
  { apply Hwf1. }
  assert ((l = [] ∧ s' = s1) ∨ s' = set_pending (drop_entries l (srv_pending s1))
            (set_db (foldl upsert_row (srv_db s1) (recordFromEntry <$> l)) s1)) as [[Hnil ->]| ->].
  { destruct l as [|e l']; [left; by injection Hr as <-|]. rewrite flush_batch_run in Hr by done.
    right. destruct ans; by simplify_eq. }
  - assert (∀ ref e, p_entries (srv_pending s1) !! ref = Some e → in_partition d i n e = false) as Hno.
    { intros ref e He. apply not_true_iff_false. intros Ht.
      assert (e ∈ l) as Hin by (apply Hl; eauto). rewrite Hnil in Hin. by apply elem_of_nil in Hin. }
    split_and!; [done| |].
    + intros ref e. split; [|naive_solver]. intros He. split; [done|]. eauto.
    + intros ref e He Ht. rewrite (Hno _ _ He) in Ht. done.
  - destruct Hwf1 as [? ? ?]. split_and!.
    + split; [done|by apply drop_entries_wf|by apply upsert_rows_wf].
    + intros ref e. simpl. rewrite drop_entries_lookup. split.
      * intros [He Hlt]. split; [done|]. apply not_true_iff_false. intros Ht.
        specialize (Hlt e). rewrite Hl in Hlt. specialize (Hlt (conj (ex_intro _ ref He) Ht)).
        specialize (Hlt (Hkeys _ _ He)). lia.
      * intros [He Hf]. split; [done|]. intros f Hfl%Hl Hfr. destruct Hfl as [[ref' Hf'] Ht].
        rewrite <- (Hkeys _ _ Hf'), Hfr in Hf'. congruence.
    + intros ref e He Ht. simpl. apply upsert_entry_covered; [done|]. apply Hl. eauto.
Qed.

(** The drain behind a handoff is bounded.  When the ring holds more
    entries than one batch, [DrainPartition] reports success although the last
    acknowledged entry of the very partition it was asked to drain is still in
    the ring only: the database has no row for it. *)
Theorem drain_partition_leaves_ring_entries d i n s es e :
  server_wf s (es ++ [e]) → 0 < BatchSize (srv_cfg s) ≤ zlen es →
  0 < n → i < n → in_partition d i n e = true →
  srv_db s !! pk (recordFromEntry e) = None →
  (∀ x, x ∈ es ∨ (∃ ref, p_entries (srv_pending s) !! ref = Some x) →
        pk (recordFromEntry x) ≠ pk (recordFromEntry e)) →
  ∃ s' rest, DrainPartition order db_ok (Some (mkDrain d i n)) s = (Done tt, s') ∧
    server_wf s' (rest ++ [e]) ∧ srv_db s' !! pk (recordFromEntry e) = None.
Proof.
  intros Hwf [Hb Hlen] Hn Hi Hpart Hrow Hother.
  unfold DrainPartition. cbn [dr_DMap dr_PartitionID dr_PartitionCount].
  rewrite (proj2 (Z.eqb_neq _ _)), (proj2 (Z.leb_gt _ _)) by lia.
  destruct (drainRing_run s _ Hwf Hb) as (k&s1&Hd&Hk&Hwf1&_&Hp1&(_&Hdb1&_)&_).
  erewrite bind_done by exact Hd. erewrite bind_done by reflexivity.
  assert (k ≤ length es)%nat as Hk' by (unfold zlen in *; lia).
  rewrite drop_app_le in Hwf1 by done. rewrite take_app_le in Hp1 by done.
  remember (drainPartition order d i n (srv_pending s1)) as l eqn:Hl0.
  assert (∀ x, x ∈ l → pk (recordFromEntry x) ≠ pk (recordFromEntry e)) as Hl.
  { subst l. intros x [[ref Hx] _]%drainPartition_elem; [|done]. apply Hother.
    rewrite Hp1 in Hx. apply put_all_origin in Hx as [Hx|Hx]; [left|right; eauto].
    by eapply subseteq_take. }
  assert (foldl upsert_row (srv_db s1) (recordFromEntry <$> l) !! pk (recordFromEntry e) = None) as Hnone.
  { destruct (foldl _ _ _ !! _) as [r|] eqn:Hr; [|done].
    apply upsert_rows_origin in Hr as [Hr|[Hr Hkr]]; [congruence| |apply Hwf1].
    apply list_elem_of_fmap in Hr as (x&->&Hx). by destruct (Hl x Hx). }
  destruct l as [|x l'].
  - exists s1, (drop k es). split_and!; [done..|by rewrite Hdb1].
  - rewrite flush_batch_run by done. eexists _, (drop k es). split_and!; [done| |done].
    destruct Hwf1. split; [done|by apply drop_entries_wf|by apply upsert_rows_wf].
Qed.

Lemma purge_run s es g :
  server_wf s es → 0 < g →
  ∃ s', PurgeBelowGeneration db_ok (Some g) s =
          (Done (zlen (filter (λ '(_, e), Generation e < g) (map_to_list (p_entries (srv_pending s))))
                 + Z.of_nat (size (srv_db s) - size (srv_db s'))), s') ∧
    p_entries (srv_pending s') = filter (λ '(_, e), g ≤ Generation e) (p_entries (srv_pending s)) ∧
    srv_db s' = filter (λ '(_, r), g ≤ rec_Generation r) (srv_db s) ∧ server_wf s' es.
Proof.
  intros Hwf Hg. unfold PurgeBelowGeneration. rewrite (proj2 (Z.leb_gt _ _)) by lia.
  destruct (purgeBelow_spec g (srv_pending s) (swf_pending _ _ Hwf)) as (Hpw&Hpe&Hpn).
  unfold mbind, M_bind. destruct (purgeBelow g (srv_pending s)) as [dropped p]. simpl in Hpw, Hpe, Hpn.
  unfold zoom, wrap_err, Backend_PurgeBelowGeneration. rewrite (proj2 (Z.leb_gt _ _)) by lia.
  exists (set_db (filter (λ '(_, r), g ≤ rec_Generation r) (srv_db s)) (set_pending p s)).
  split_and!; [by rewrite <- Hpn|done|done|]. destruct Hwf as [? ? Ht].
  split; [done|done|]. simpl. intros k r [Hr _]%map_lookup_filter_Some. by apply Ht.
Qed.

(** [PurgeBelowGeneration] forgets every pending entry and every stored row
    of a generation below the requested one, keeps all others, and reports how
    many it removed. *)
Theorem purge_forgets_old_generations s es g :
  server_wf s es → 0 < g →
  ∃ s', PurgeBelowGeneration db_ok (Some g) s =
          (Done (zlen (filter (λ '(_, e), Generation e < g) (map_to_list (p_entries (srv_pending s))))
                 + Z.of_nat (size (srv_db s) - size (srv_db s'))), s') ∧
    p_entries (srv_pending s') = filter (λ '(_, e), g ≤ Generation e) (p_entries (srv_pending s)) ∧
    srv_db s' = filter (λ '(_, r), g ≤ rec_Generation r) (srv_db s) ∧ server_wf s' es.
Proof. apply purge_run. Qed.
End theorems.

(** *** Witnesses *)

Definition payload_of (e : Entry) : list byte := if Encode e is Done p then p else [].

(** The 4 KiB ring after the node appended [es]. *)
Definition ring_with (es : list Entry) : list byte :=
  foldl (λ f e, (Append 4096 (payload_of e) f).2) ring4k es.

Lemma cursor_ok_4096 p : cursor_ok 4096 p.
Proof. left. by exists (2 ^ 52). Qed.

Lemma ring_push f H T q payload :
  ring_wf 4096 f H T q → zlen payload ≤ maxPayload → (Append 4096 payload f).1 = Done tt →
  ∃ T', ring_wf 4096 (Append 4096 payload f).2 H T' (q ++ [payload]).
Proof.
  intros Hwf Hp Ha. pose proof (Append_refines _ _ _ _ _ payload Hwf Hp (cursor_ok_4096 _)) as Hr.
  destruct (Append 4096 payload f) as [[[]| |] f']; try done.
  destruct Hr as [? _]. eauto.
Qed.

Definition e1 : Entry := mkEntry 1 OpSet "users" "a" 7 [x61] 0 5 1 1 1 "pod" 100.
Definition e2 : Entry := mkEntry 1 OpSet "users" "b" 17 [x62] 0 6 1 1 2 "pod" 200.
Definition cfg1 : config := mkConfig 1 1 1 2 0.
Definition srv0 : server := mkServer 4096 (ring_with [e1; e2]) newPending ∅ false cfg1.
Definition srv1 : server := set_pending (put e1 newPending) srv0.

Lemma srv0_wf : server_wf srv0 [e1; e2].
Proof.
  destruct (ring_push ring4k 0 0 [] (payload_of e1) ring4k_wf) as [T1 H1];
    [vm_compute; discriminate|vm_compute; reflexivity|].
  destruct (ring_push _ 0 T1 _ (payload_of e2) H1) as [T2 H2];
    [vm_compute; discriminate|vm_compute; reflexivity|].
  split; [|apply newPending_wf|apply empty_table_wf].
  exists 0, T2, [payload_of e1; payload_of e2]. split; [exact H2|].
  repeat constructor; vm_compute; reflexivity.
Qed.

Lemma srv1_wf : server_wf srv1 [e1; e2].
Proof. apply (server_wf_put srv0), srv0_wf. Qed.

Lemma drain_ring_takes_a_prefix_witness :
  ∃ k s', drainRing srv0 = (Done (Z.of_nat k), s') ∧ Z.of_nat k ≤ 1 ∧
    server_wf s' (drop k [e1; e2]) ∧ (k ≤ 2)%nat ∧
    srv_pending s' = put_all (take k [e1; e2]) newPending ∧ same_frame srv0 s' ∧
    (Z.of_nat k = 1 ∨ k = 2%nat ∨ pendingFull s' = true) ∧ (pendingFull srv0 = true → k = 0%nat).
Proof. exact (drain_ring_takes_a_prefix srv0 [e1; e2] srv0_wf eq_refl). Defined.

Lemma pending_stays_bounded_witness :
  pendingLen (drainRing srv1).2 ≤ MaxPendingRecords (srv_cfg (drainRing srv1).2).
Proof.
  apply (pending_stays_bounded srv1 (drainRing srv1).1).
  - apply surjective_pairing.
  - reflexivity.
  - vm_compute. discriminate.
Defined.

Lemma flush_outcome_witness :
  let '(r, s') := flushOnce (U := old_row_engine) (λ l, l) db_ok srv1 in
  server_wf s' [e1; e2] ∧ srv_ring s' = srv_ring srv1 ∧
  match r with
  | Done _ => srv_pending s' = newPending ∧
      ∀ ref e, p_entries (srv_pending srv1) !! ref = Some e →
               row_ge (srv_db s') (pk (recordFromEntry e)) (entry_fence e)
  | Fail err => err = ErrFlushMySQL ErrDatabase ∧ srv_pending s' = srv_pending srv1
  | Panic => False
  end.
Proof.
  exact (flush_outcome (U := old_row_engine) (λ l, l) (λ l, Permutation_refl l) db_ok srv1 _ srv1_wf).
Defined.

Lemma load_stable_across_flush_witness :
  (LoadFromMySQL db_ok 0 (Some (entryRef e1)) srv1).1 = Done (Some (recordFromEntry e1)) ∧
  (LoadFromMySQL db_ok 0 (Some (entryRef e1))
     (flushOnce (U := old_row_engine) (λ l, l) db_ok srv1).2).1 = Done (Some (recordFromEntry e1)).
Proof.
  apply (load_stable_across_flush (U := old_row_engine) (λ l, l) (λ l, Permutation_refl l)
           srv1 [e1; e2] (entryRef e1) e1 0 srv1_wf).
  - vm_compute. reflexivity.
  - intros ref' e'. simpl. intros [[<- _]|[_ Hr]]%lookup_insert_Some; [done|].
    by rewrite lookup_empty in Hr.
  - intros r. simpl. by rewrite lookup_empty.
Defined.

Lemma drain_partition_flushes_witness :
  ∃ k, let p1 := put_all (take k [e1; e2]) (srv_pending srv1) in
    let s' := (DrainPartition (U := old_row_engine) (λ l, l) db_ok (Some (mkDrain "users" 7 10)) srv1).2 in
    server_wf s' (drop k [e1; e2]) ∧
    (∀ ref e, p_entries (srv_pending s') !! ref = Some e ↔
       p_entries p1 !! ref = Some e ∧ in_partition "users" 7 10 e = false) ∧
    (∀ ref e, p_entries p1 !! ref = Some e → in_partition "users" 7 10 e = true →
       row_ge (srv_db s') (pk (recordFromEntry e)) (entry_fence e)).
Proof.
  apply (drain_partition_flushes (U := old_row_engine) (λ l, l) (λ l, Permutation_refl l)
           db_ok "users" 7 10 srv1 [e1; e2] _ srv1_wf eq_refl eq_refl eq_refl).
  vm_compute. reflexivity.
Defined.

Lemma drain_partition_leaves_ring_entries_witness :
  ∃ s' rest, DrainPartition (U := old_row_engine) (λ l, l) db_ok (Some (mkDrain "users" 7 10)) srv0
               = (Done tt, s') ∧
    server_wf s' (rest ++ [e2]) ∧ srv_db s' !! pk (recordFromEntry e2) = None.
Proof.
  apply (drain_partition_leaves_ring_entries (U := old_row_engine) (λ l, l) (λ l, Permutation_refl l)
           "users" 7 10 srv0 [e1] e2 srv0_wf).
  - vm_compute. split; [reflexivity|discriminate].
  - reflexivity.
  - reflexivity.
  - reflexivity.
  - reflexivity.
  - intros x [->%list_elem_of_singleton|[ref Hx]]; [discriminate|].
    simpl in Hx. by rewrite lookup_empty in Hx.
Defined.

Lemma purge_forgets_old_generations_witness :
  ∃ s', PurgeBelowGeneration db_ok (Some 2) srv1 =
          (Done (zlen (filter (λ '(_, e), Generation e < 2) (map_to_list (p_entries (srv_pending srv1))))
                 + Z.of_nat (size (srv_db srv1) - size (srv_db s'))), s') ∧
    p_entries (srv_pending s') = filter (λ '(_, e), 2 ≤ Generation e) (p_entries (srv_pending srv1)) ∧
    srv_db s' = filter (λ '(_, r), 2 ≤ rec_Generation r) (srv_db srv1) ∧ server_wf s' [e1; e2].
Proof. exact (purge_forgets_old_generations srv1 [e1; e2] 2 srv1_wf eq_refl). Defined.
