(* ===== verification/SidecarSteps.v ===== *)
(** * The sidecar as a concurrent system

    The [Run] loop and the control RPCs of [internal/sidecar/control.go] run
    in different goroutines; what is atomic is one ring operation, one method
    of [pending] (its mutex) and one database statement.  [step] is that
    interleaving: the node appends, a drainer pops an entry and files it later,
    a flush or a partition drain takes its snapshot, its database call ends well
    or badly, and its drops happen one by one; a purge takes old generations out
    of the pending set and then out of the table.  The number of goroutines that
    drain at a time is a parameter: the ring is documented for one, and the
    code starts a second one with every [DrainPartition].

    The theorems: every operation of [Sidecar] is a run of steps; as long as
    one goroutine drains at a time and later entries of a key carry larger
    sequence numbers, no acknowledged entry that was not purged is ever lost, in
    any interleaving;
    two drainers lose one, and so does the drop after a flush when the sequence
    restarts (as it does after an epoch change). *)

From S2P Require Import Prelude Records Oplog OplogRing Backend Sidecar.

Record sys := mkSys {
  x_srv : server;
  x_flights : list (list Entry);   (** snapshots whose database call is under way *)
  x_flushed : list (list Entry);   (** persisted snapshots whose drops are under way *)
  x_held : list Entry;             (** popped and not filed yet *)
  x_acked : list Entry }.          (** every entry whose append succeeded, in order *)

Definition upsert_entries `{WriterOrder, UpsertEngine} (l : list Entry) (s : server) : server :=
  set_db (foldl upsert_row (srv_db s) (recordFromEntry <$> l)) s.

Section steps.
Context `{WriterOrder} {U : UpsertEngine}.
Context (order : list Entry → list Entry).

(** The snapshots the code takes: all of the pending set, or one partition. *)
Inductive takes (p : pending) : list Entry → Prop :=
| takes_all : takes p (snapshot order p)
| takes_partition d i n : takes p (drainPartition order d i n p).

(** The generations below which entries are purged are at most [floor]. *)
Context (floor : Z).

(** The goroutines that may drain the ring at the same time. *)
Context (drainers : nat).

Inductive step : sys → sys → Prop :=
| step_append s fl fd hd acked e payload f' :
    zlen payload ≤ maxPayload → Decode payload = Done e →
    Append (srv_capacity s) payload (srv_ring s) = (Done tt, f') →
    step (mkSys s fl fd hd acked) (mkSys (set_ring f' s) fl fd hd (acked ++ [e]))
| step_pop s fl fd hd acked payload e s' :
    (length hd < drainers)%nat →
    consumer_Pop s = (Done (Some payload), s') → Decode payload = Done e →
    step (mkSys s fl fd hd acked) (mkSys s' fl fd (hd ++ [e]) acked)
| step_put s fl fd hd1 e hd2 acked :
    step (mkSys s fl fd (hd1 ++ e :: hd2) acked)
         (mkSys (set_pending (put e (srv_pending s)) s) fl fd (hd1 ++ hd2) acked)
| step_snapshot s fl fd hd acked l :
    takes (srv_pending s) l →
    step (mkSys s fl fd hd acked) (mkSys s (l :: fl) fd hd acked)
| step_upserted s fl1 l fl2 fd hd acked :
    step (mkSys s (fl1 ++ l :: fl2) fd hd acked)
         (mkSys (upsert_entries l s) (fl1 ++ fl2) (l :: fd) hd acked)
| step_upsert_failed s fl1 l fl2 fd hd acked n :
    step (mkSys s (fl1 ++ l :: fl2) fd hd acked)
         (mkSys (upsert_entries (take n l) s) (fl1 ++ fl2) fd hd acked)
| step_drop s fl fd1 e l fd2 hd acked :
    step (mkSys s fl (fd1 ++ (e :: l) :: fd2) hd acked)
         (mkSys (set_pending (drop_pending (entryRef e) (OwnerSeq e) (srv_pending s)) s)
                fl (fd1 ++ l :: fd2) hd acked)
| step_flush_returns s fl fd1 fd2 hd acked :
    step (mkSys s fl (fd1 ++ [] :: fd2) hd acked) (mkSys s fl (fd1 ++ fd2) hd acked)
| step_purge_pending s fl fd hd acked g :
    g ≤ floor →
    step (mkSys s fl fd hd acked) (mkSys (set_pending (purgeBelow g (srv_pending s)).2 s) fl fd hd acked)
| step_purge_rows s fl fd hd acked g :
    g ≤ floor →
    step (mkSys s fl fd hd acked)
         (mkSys (set_db (filter (λ '(_, r), g ≤ rec_Generation r) (srv_db s)) s) fl fd hd acked)
| step_wake s fl fd hd acked b :
    step (mkSys s fl fd hd acked) (mkSys (set_wake b s) fl fd hd acked).
End steps.

(** Later entries of a key carry a fence at least as great and a larger
    sequence number: what one owner produces within one (generation, epoch). *)
Definition key_ordered `{WriterOrder} (a b : Entry) : Prop :=
  entryRef a = entryRef b →
  fence_ge (entry_fence b) (entry_fence a) ∧ OwnerSeq a < OwnerSeq b.

Definition owner_ordered `{WriterOrder} (l : list Entry) : Prop := StronglySorted key_ordered l.

(** [e] is still in the ring, or accounted for behind it. *)
Definition safe `{WriterOrder} (s : server) (e : Entry) : Prop :=
  (∃ es, server_wf s es ∧ e ∈ es) ∨ covered s e.

(** [e] is safe, or a drainer has it in its hands. *)
Definition kept `{WriterOrder} (x : sys) (e : Entry) : Prop :=
  safe (x_srv x) e ∨ e ∈ x_held x.

Lemma elem_mid {A} (x : A) l1 l2 : x ∈ l1 ++ x :: l2.
Proof. apply elem_of_app. right. by left. Qed.

Lemma elem_mid_weaken {A} (x y : A) l1 l2 : x ∈ l1 ++ l2 → x ∈ l1 ++ y :: l2.
Proof. rewrite !elem_of_app, elem_of_cons. tauto. Qed.

Section proofs.
Context `{WriterOrder} {U : UpsertEngine} {HU : SimultaneousUpdate U}.
Context (order : list Entry → list Entry) (Horder : ∀ l, order l ≡ₚ l).
Context (floor : Z).

(** The acknowledged entries are those accounted for behind the ring, the one
    in the hands of the drainer, and those in the ring. *)
Record inv (x : sys) : Prop := {
  inv_cap : (srv_capacity (x_srv x) | 2 ^ 64);
  inv_held : (length (x_held x) ≤ 1)%nat;
  inv_split : ∃ filed es, x_acked x = filed ++ x_held x ++ es ∧ server_wf (x_srv x) es ∧
    (∀ ref e, p_entries (srv_pending (x_srv x)) !! ref = Some e → e ∈ filed) ∧
    (∀ l e, l ∈ x_flights x → e ∈ l → e ∈ filed) ∧
    (∀ l e, l ∈ x_flushed x → e ∈ l →
       e ∈ filed ∧
       (floor ≤ Generation e → row_ge (srv_db (x_srv x)) (pk (recordFromEntry e)) (entry_fence e))) ∧
    (∀ e, e ∈ filed → floor ≤ Generation e → covered (x_srv x) e) }.

Lemma sorted_pair (l1 : list Entry) a l2 b :
  owner_ordered (l1 ++ a :: l2) → b ∈ l1 → key_ordered b a.
Proof.
  unfold owner_ordered. induction l1 as [|c l1 IH]; simpl; intros Hs Hb; [by apply elem_of_nil in Hb|].
  apply StronglySorted_inv in Hs as [Hs Hall].
  apply elem_of_cons in Hb as [->|Hb]; [|auto].
  rewrite Forall_forall in Hall. apply Hall, elem_mid.
Qed.

(** Of two acknowledged entries of a key, the one with the larger sequence
    number has the larger fence. *)
Lemma ordered_by_seq l a b :
  owner_ordered l → a ∈ l → b ∈ l → entryRef a = entryRef b → OwnerSeq a ≤ OwnerSeq b →
  fence_ge (entry_fence b) (entry_fence a).
Proof.
  unfold owner_ordered. induction 1 as [|x l Hs IH Hall]; intros Ha Hb Hr Hle;
    [by apply elem_of_nil in Ha|].
  rewrite Forall_forall in Hall.
  apply elem_of_cons in Ha as [->|Ha], Hb as [->|Hb].
  - apply fence_ge_refl.
  - by apply Hall.
  - destruct (Hall a Ha (eq_sym Hr)). lia.
  - auto.
Qed.

Lemma covered_upsert s l e : table_wf (srv_db s) → covered s e → covered (upsert_entries l s) e.
Proof. intros Hwf [Hp|Hr]; [by left|right]. by apply upsert_rows_ge. Qed.

(** Filing [e] on top of older entries keeps everything accounted for. *)
Lemma covered_put s e x :
  (∀ e', p_entries (srv_pending s) !! entryRef e = Some e' →
         fence_ge (entry_fence e) (entry_fence e')) →
  covered s x → covered (set_pending (put e (srv_pending s)) s) x.
Proof.
  intros Hnew [(e'&He'&Hge)|Hr]; [|by right]. left. simpl.
  destruct (decide (entryRef e = entryRef x)) as [Heq|Hne].
  - rewrite <- Heq, lookup_insert_eq. exists e. split; [done|].
    rewrite <- Heq in He'. eapply fence_ge_trans; [by apply Hnew|done].
  - rewrite lookup_insert_ne by done. by exists e'.
Qed.

Lemma covered_put_self s e : covered (set_pending (put e (srv_pending s)) s) e.
Proof. left. simpl. rewrite lookup_insert_eq. exists e. split; [done|apply fence_ge_refl]. Qed.

(** Dropping what is persisted keeps everything accounted for, when the
    dropped entry is not newer than the persisted one. *)
Lemma covered_drop s f x :
  (floor ≤ Generation f → row_ge (srv_db s) (pk (recordFromEntry f)) (entry_fence f)) →
  floor ≤ Generation x →
  (∀ e, p_entries (srv_pending s) !! entryRef f = Some e → OwnerSeq e ≤ OwnerSeq f →
        fence_ge (entry_fence f) (entry_fence e)) →
  covered s x →
  covered (set_pending (drop_pending (entryRef f) (OwnerSeq f) (srv_pending s)) s) x.
Proof.
  intros Hrow Hgen Hold [(e&He&Hge)|Hr]; [|by right].
  destruct (p_entries (drop_pending (entryRef f) (OwnerSeq f) (srv_pending s)) !! entryRef x)
    as [e'|] eqn:Hd.
  - left. exists e'. split; [done|]. apply drop_pending_lookup in Hd as [Hd _]. by simplify_eq.
  - right. simpl. destruct (decide (entryRef f = entryRef x ∧ OwnerSeq e ≤ OwnerSeq f)) as [[Hf Hle]|Hn].
    + assert (fence_ge (entry_fence f) (entry_fence x)) as Hfx.
      { eapply fence_ge_trans; [|done]. apply Hold; [by rewrite Hf|done]. }
      destruct Hrow as (r&Hr&Hrge); [pose proof (fence_ge_gen _ _ Hfx); simpl in *; lia|].
      exists r. split.
      * rewrite <- Hr. unfold entryRef in Hf. unfold pk, recordFromEntry. simpl. congruence.
      * by eapply fence_ge_trans.
    + exfalso. apply eq_None_not_Some in Hd. apply Hd. exists e.
      apply drop_pending_lookup. split; [done|]. intros Hf.
      destruct (decide (OwnerSeq e ≤ OwnerSeq f)); [tauto|lia].
Qed.

(** A purge below the generation of [x] keeps [x] accounted for. *)
Lemma covered_purge_pending s g x :
  pending_wf (srv_pending s) → g ≤ Generation x → covered s x →
  covered (set_pending (purgeBelow g (srv_pending s)).2 s) x.
Proof.
  intros Hwf Hg [(e&He&Hge)|Hr]; [left|by right]. exists e. split; [|done]. simpl.
  destruct (purgeBelow_spec g _ Hwf) as (_&->&_). apply map_lookup_filter_Some. split; [done|].
  pose proof (fence_ge_gen _ _ Hge). simpl in *. lia.
Qed.

Lemma row_ge_purge db g k f :
  g ≤ f_gen f → row_ge db k f → row_ge (filter (λ '(_, r), g ≤ rec_Generation r) db) k f.
Proof.
  intros Hg (r&Hr&Hge). exists r. split; [|done]. apply map_lookup_filter_Some. split; [done|].
  pose proof (fence_ge_gen _ _ Hge). simpl in *. lia.
Qed.

Lemma purge_rows_wf s es g :
  server_wf s es → server_wf (set_db (filter (λ '(_, r), g ≤ rec_Generation r) (srv_db s)) s) es.
Proof.
  intros [? ? Ht]. split; [done|done|]. simpl. intros k r [Hr _]%map_lookup_filter_Some. by apply Ht.
Qed.

Lemma purge_pending_wf s es g :
  server_wf s es → server_wf (set_pending (purgeBelow g (srv_pending s)).2 s) es.
Proof. intros []. split; [done|by apply purgeBelow_spec|done]. Qed.

Lemma takes_pending p l e : takes order p l → e ∈ l → ∃ ref, p_entries p !! ref = Some e.
Proof.
  intros [|d i n] He.
  - by apply (snapshot_elem order Horder) in He.
  - by apply (drainPartition_elem order Horder) in He as [? _].
Qed.

Lemma upsert_entries_wf s es l : server_wf s es → server_wf (upsert_entries l s) es.
Proof. apply set_db_wf. Qed.

Lemma inv_append s fl fd hd acked e payload f' :
  inv (mkSys s fl fd hd acked) → zlen payload ≤ maxPayload → Decode payload = Done e →
  Append (srv_capacity s) payload (srv_ring s) = (Done tt, f') →
  inv (mkSys (set_ring f' s) fl fd hd (acked ++ [e])).
Proof.
  intros [Hcap Hhd (filed&es&Hacked&Hwf&Hinv)] Hp Hd Ha. simpl in *. split; [done..|].
  exists filed, (es ++ [e]). simpl. split; [by rewrite Hacked, !app_assoc|]. split; [|done].
  destruct Hwf as [(H1&T&q&Hr&Hq) ? ?]. split; [|done..]. simpl.
  pose proof (Append_refines _ _ _ _ _ payload Hr Hp (or_introl Hcap)) as Hap. rewrite Ha in Hap.
  destruct Hap as [Hr' _]. eexists H1, _, _. split; [exact Hr'|].
  apply Forall2_app; [done|]. by constructor.
Qed.

(** The drainer pops an entry ... *)
Lemma inv_pop s fl fd acked payload e s' :
  inv (mkSys s fl fd [] acked) → consumer_Pop s = (Done (Some payload), s') → Decode payload = Done e →
  inv (mkSys s' fl fd [e] acked).
Proof.
  intros [Hcap _ (filed&es&Hacked&Hwf&Hinv)] Hpop Hd. simpl in *.
  pose proof (consumer_Pop_run _ _ Hwf) as Hrun. destruct es as [|e0 es].
  { rewrite Hpop in Hrun. simplify_eq. }
  destruct Hrun as (payload'&f'&Hrun&Hd'&Hwf'). rewrite Hpop in Hrun. simplify_eq.
  assert (e = e0) as -> by congruence. split; [done|simpl; lia|]. by exists filed, es.
Qed.

(** ... and files it. *)
Lemma inv_put s fl fd acked e :
  inv (mkSys s fl fd [e] acked) → owner_ordered acked →
  inv (mkSys (set_pending (put e (srv_pending s)) s) fl fd [] acked).
Proof.
  intros [Hcap _ (filed&es&Hacked&Hwf&Hpend&Hfl&Hfd&Hcov)] Hord. simpl in *. subst acked.
  split; [done|simpl; lia|]. exists (filed ++ [e]), es. simpl. split; [by rewrite <- app_assoc|].
  split; [by apply server_wf_put|]. split_and!.
  - intros ref x. rewrite lookup_insert_Some. intros [[_ <-]|[_ Hx]]; [apply elem_mid|].
    apply elem_of_app. left. eauto.
  - intros l x Hl Hx. apply elem_of_app. left. eauto.
  - intros l x Hl Hx. destruct (Hfd l x Hl Hx). split; [apply elem_of_app; by left|done].
  - intros x [Hx| ->%list_elem_of_singleton]%elem_of_app Hge; [|apply covered_put_self].
    apply covered_put; [|by apply Hcov].
    intros e' He'. apply (sorted_pair filed e es e' Hord); [eauto|].
    by apply (pwf_keys _ (swf_pending _ _ Hwf) _ _ He').
Qed.

(** A flush that has stored its snapshot drops an entry of it. *)
Lemma inv_drop s fl fd1 e l fd2 hd acked :
  inv (mkSys s fl (fd1 ++ (e :: l) :: fd2) hd acked) → owner_ordered acked →
  inv (mkSys (set_pending (drop_pending (entryRef e) (OwnerSeq e) (srv_pending s)) s)
        fl (fd1 ++ l :: fd2) hd acked).
Proof.
  intros [Hcap Hhd (filed&es&Hacked&Hwf&Hpend&Hfl&Hfd&Hcov)] Hord. simpl in *. split; [done..|].
  simpl in *. destruct (Hfd (e :: l) e) as [Hep Herow]; [apply elem_mid|by left|].
  exists filed, es. split_and!; [done| | |done| |].
  - destruct Hwf. split; [done|by apply drop_pending_wf|done].
  - intros ref x [Hx _]%drop_pending_lookup. eauto.
  - intros l' x Hl Hx. apply elem_of_app in Hl as [Hl|[->|Hl]%elem_of_cons].
    + apply (Hfd l'); [apply elem_of_app; by left|done].
    + apply (Hfd (e :: l)); [apply elem_mid|by right].
    + apply (Hfd l'); [apply elem_of_app; right; by right|done].
  - intros x Hx Hge. apply covered_drop; [done|done| |auto]. intros e' He' Hle.
    apply (ordered_by_seq acked e' e Hord); [subst acked; apply elem_of_app; left; eauto..| |done].
    apply (pwf_keys _ (swf_pending _ _ Hwf) _ _ He').
Qed.

Lemma inv_step x x' : inv x → owner_ordered (x_acked x') → step order floor 1 x x' → inv x'.
Proof.
  intros Hinv Hord Hstep. destruct Hstep as [s fl fd hd acked e payload f' Hp Hd Ha
    |s fl fd hd acked payload e s' Hlt Hpop Hd|s fl fd hd1 e hd2 acked|s fl fd hd acked l Htake
    |s fl1 l fl2 fd hd acked|s fl1 l fl2 fd hd acked n|s fl fd1 e l fd2 hd acked
    |s fl fd1 fd2 hd acked|s fl fd hd acked g Hg|s fl fd hd acked g Hg|s fl fd hd acked b].
  - by eapply inv_append.
  - destruct hd; [|simpl in Hlt; lia]. by eapply inv_pop.
  - pose proof (inv_held _ Hinv) as Hhd. simpl in Hhd. rewrite length_app in Hhd. simpl in Hhd.
    destruct hd1, hd2; simpl in Hhd; try lia. by apply inv_put.
  - destruct Hinv as [Hcap Hhd (filed&es&Hacked&Hwf&Hpend&Hfl&Hfd&Hcov)]. split; [done..|].
    exists filed, es. simpl in *. split_and!; [done..| |done|done].
    intros l' e [->|?]%elem_of_cons He; [|eauto].
    destruct (takes_pending _ _ _ Htake He). eauto.
  - destruct Hinv as [Hcap Hhd (filed&es&Hacked&Hwf&Hpend&Hfl&Hfd&Hcov)]. split; [done..|].
    exists filed, es. simpl in *. split_and!; [done|by apply upsert_entries_wf|done|..].
    + intros l' e Hl He. apply (Hfl l'); [by apply elem_mid_weaken|done].
    + intros l' e [->|Hl]%elem_of_cons He.
      * split; [apply (Hfl l); [apply elem_mid|done]|]. intros _. by apply upsert_entry_covered; [apply Hwf|].
      * destruct (Hfd _ _ Hl He). split; [done|]. intros Hge. apply upsert_rows_ge; [apply Hwf|auto].
    + intros e He Hge. apply covered_upsert; [apply Hwf|auto].
  - destruct Hinv as [Hcap Hhd (filed&es&Hacked&Hwf&Hpend&Hfl&Hfd&Hcov)]. split; [done..|].
    exists filed, es. simpl in *. split_and!; [done|by apply upsert_entries_wf|done|..].
    + intros l' e Hl He. apply (Hfl l'); [by apply elem_mid_weaken|done].
    + intros l' e Hl He. destruct (Hfd _ _ Hl He). split; [done|].
      intros Hge. apply upsert_rows_ge; [apply Hwf|auto].
    + intros e He Hge. apply covered_upsert; [apply Hwf|auto].
  - by apply inv_drop.
  - destruct Hinv as [Hcap Hhd (filed&es&Hacked&Hwf&Hpend&Hfl&Hfd&Hcov)]. split; [done..|].
    exists filed, es. simpl in *. split_and!; [done..| |done].
    intros l' x Hl Hx. apply (Hfd l'); [by apply elem_mid_weaken|done].
  - destruct Hinv as [Hcap Hhd (filed&es&Hacked&Hwf&Hpend&Hfl&Hfd&Hcov)]. split; [done..|].
    exists filed, es. simpl in *. split_and!; [done|by apply purge_pending_wf| |done|done|].
    + intros ref e. destruct (purgeBelow_spec g _ (swf_pending _ _ Hwf)) as (_&->&_).
      intros [He _]%map_lookup_filter_Some. eauto.
    + intros e He Hge. apply covered_purge_pending; [apply Hwf|lia|auto].
  - destruct Hinv as [Hcap Hhd (filed&es&Hacked&Hwf&Hpend&Hfl&Hfd&Hcov)]. split; [done..|].
    exists filed, es. simpl in *. split_and!; [done|by apply purge_rows_wf|done|done|..].
    + intros l e Hl He. destruct (Hfd l e Hl He) as [? Hrow]. split; [done|]. intros Hge.
      apply row_ge_purge; [simpl; lia|auto].
    + intros e He Hge. destruct (Hcov e He Hge) as [Hp|Hr]; [by left|right].
      apply row_ge_purge; [simpl; lia|done].
  - destruct Hinv as [Hcap Hhd (filed&es&Hacked&Hwf&Hrest)]. split; [done..|].
    exists filed, es. split; [done|]. split; [|done]. by destruct Hwf.
Qed.

Lemma step_acked x x' : step order floor 1 x x' → ∃ l, x_acked x' = x_acked x ++ l.
Proof. intros []; simpl; first [by eexists|exists []; by rewrite app_nil_r]. Qed.

Lemma inv_steps x x' : inv x → owner_ordered (x_acked x') → rtc (step order floor 1) x x' → inv x'.
Proof.
  intros Hinv Hord Hsteps. induction Hsteps as [|x y z Hxy Hyz IH]; [done|].
  apply IH; [|done]. apply (inv_step x y); [done| |done].
  assert (∃ l, x_acked z = x_acked y ++ l) as [l Hl].
  { clear -Hyz. induction Hyz as [|a b c Hab _ [l IH]]; [exists []; by rewrite app_nil_r|].
    apply step_acked in Hab as [l' Hl']. exists (l' ++ l). by rewrite IH, Hl', app_assoc. }
  unfold owner_ordered in *. rewrite Hl in Hord. by apply StronglySorted_app_1_l in Hord.
Qed.

Lemma inv_kept x e : inv x → e ∈ x_acked x → floor ≤ Generation e → kept x e.
Proof.
  intros [_ _ (filed&es&->&Hwf&_&_&_&Hcov)] [He|[He|He]%elem_of_app]%elem_of_app Hge;
    [left; right; auto|by right|left; left; eauto].
Qed.

(** A server that starts on an empty ring with nothing pending. *)
Lemma inv_init s :
  (srv_capacity s | 2 ^ 64) → server_wf s [] → srv_pending s = newPending →
  inv (mkSys s [] [] [] []).
Proof.
  intros Hc Hwf Hp. split; [done|simpl; lia|]. exists [], []. simpl. rewrite Hp. split_and!; [done..| | | |].
  - intros ref e He. simpl in He. by rewrite lookup_empty in He.
  - by intros l e ?%elem_of_nil.
  - by intros l e ?%elem_of_nil.
  - by intros e ?%elem_of_nil.
Qed.

(** *** The operations are runs *)

Lemma set_pending_id s : set_pending (srv_pending s) s = s.
Proof. by destruct s. Qed.
Lemma set_db_id s : set_db (srv_db s) s = s.
Proof. by destruct s. Qed.

Lemma drain_loop_steps n batch count s es fl fd a :
  server_wf s es →
  rtc (step order floor 1) (mkSys s fl fd [] a) (mkSys (drain_loop n batch count s).2 fl fd [] a) ∧
  ∃ es', server_wf (drain_loop n batch count s).2 es'.
Proof.
  revert count s es. induction n as [|n IH]; intros count s es Hwf.
  { split; [done|]. by exists es. }
  rewrite (drain_loop_step _ _ _ _ _ Hwf). destruct (pendingFull s); [split; [done|by exists es]|].
  destruct es as [|e es]; [split; [done|by exists []]|].
  pose proof (consumer_Pop_wf _ _ _ Hwf) as Hwf'.
  destruct (consumer_Pop_run _ _ Hwf) as (payload&f'&Hpop&Hd&_).
  set (s1 := set_pending _ _) in *.
  assert (rtc (step order floor 1) (mkSys s fl fd [] a) (mkSys s1 fl fd [] a)) as Hst.
  { subst s1. rewrite Hpop. eapply rtc_l; [by eapply (step_pop order floor 1); [simpl; lia|..]|].
    apply rtc_once, (step_put order floor 1 (set_ring f' s) fl fd [] e []). }
  cbv zeta. destruct (batch <=? count + 1); cbn [snd].
  - split; [done|by exists es].
  - destruct (IH (count + 1) s1 es Hwf') as [Hr ?]. split; [|done]. by etrans.
Qed.

Lemma drops_steps n l s fl fd hd a :
  rtc (step order floor n) (mkSys s fl (l :: fd) hd a)
    (mkSys (set_pending (drop_entries l (srv_pending s)) s) fl fd hd a).
Proof.
  revert s. induction l as [|e l IH]; intros s.
  - simpl. rewrite set_pending_id. apply rtc_once, (step_flush_returns order floor n s fl [] fd hd a).
  - eapply rtc_l; [apply (step_drop order floor n s fl [] e l fd hd a)|].
    apply (IH (set_pending (drop_pending (entryRef e) (OwnerSeq e) (srv_pending s)) s)).
Qed.

Lemma flush_steps n wrap ans l s fl fd hd a :
  takes order (srv_pending s) l → l ≠ [] →
  rtc (step order floor n) (mkSys s fl fd hd a)
    (mkSys ((flush_upsert wrap ans l;; flush_drops l) s).2 fl fd hd a).
Proof.
  intros Ht Hl. rewrite flush_batch_run by done.
  eapply rtc_l; [by apply (step_snapshot order floor n s fl fd hd a l)|]. destruct ans as [|m]; cbn [snd].
  - eapply rtc_l; [apply (step_upserted order floor n s [] l fl fd hd a)|].
    apply (drops_steps n l (upsert_entries l s)).
  - rewrite <- fmap_take. apply rtc_once, (step_upsert_failed order floor n s [] l fl fd hd a m).
Qed.

Lemma flushOnce_steps n ans s fl fd hd a :
  rtc (step order floor n) (mkSys s fl fd hd a) (mkSys (flushOnce order ans s).2 fl fd hd a).
Proof.
  rewrite (flushOnce_run order Horder). case_decide; [done|].
  apply flush_steps; [constructor|]. by intros ?%(snapshot_nil order Horder).
Qed.

(** The handlers and the body of the [Run] loop, as one goroutine runs them. *)
Inductive rpc :=
| CallRun (ans : db_answer)
| CallDrainPartition (ans : db_answer) (req : option DrainPartitionRequest)
| CallLoad (ans : db_answer) (now : Z) (req : option EntryRef)
| CallPurge (ans : db_answer) (req : option Z)
| CallShutdown (ans : db_answer)
| CallNotify.

(** A purge of generations up to [floor]. *)
Definition purges_below (c : rpc) : Prop :=
  if c is CallPurge _ (Some g) then g ≤ floor else True.

Definition exec (c : rpc) (s : server) : server :=
  match c with
  | CallRun ans => (Run_iteration order ans s).2
  | CallDrainPartition ans req => (DrainPartition order ans req s).2
  | CallLoad ans now req => (LoadFromMySQL ans now req s).2
  | CallPurge ans req => (PurgeBelowGeneration ans req s).2
  | CallShutdown ans => (Shutdown order ans s).2
  | CallNotify => (Notify s).2
  end.

Lemma exec_steps c s es fl fd a :
  server_wf s es → purges_below c → rtc (step order floor 1) (mkSys s fl fd [] a) (mkSys (exec c s) fl fd [] a).
Proof.
  intros Hwf Hc. destruct c as [ans|ans req|ans now req|ans req|ans|]; cbn [exec].
  - unfold Run_iteration, mbind, M_bind, drainRing.
    destruct (drain_loop_steps (Z.to_nat (Z.max 1 (BatchSize (srv_cfg s)))) (BatchSize (srv_cfg s))
      0 s es fl fd a Hwf) as [Hd _].
    destruct (drain_loop _ _ _ s) as [[drained| |] s1]; [|done..].
    simpl. dcase; [|done]. etrans; [exact Hd|apply flushOnce_steps].
  - unfold DrainPartition. destruct req as [[d i n]|]; [|done]. cbn [dr_DMap dr_PartitionID dr_PartitionCount].
    destruct (n =? 0); [done|]. destruct (n <=? i); [done|].
    unfold mbind at 1, M_bind at 1, drainRing.
    destruct (drain_loop_steps (Z.to_nat (Z.max 1 (BatchSize (srv_cfg s)))) (BatchSize (srv_cfg s))
      0 s es fl fd a Hwf) as [Hd _].
    destruct (drain_loop _ _ _ s) as [[drained| |] s1]; [|done..].
    etrans; [exact Hd|]. erewrite bind_done by reflexivity.
    destruct (drainPartition order d i n (srv_pending s1)) as [|e l] eqn:Hl; [done|].
    apply flush_steps; [|done]. rewrite <- Hl. constructor.
  - unfold LoadFromMySQL. destruct req as [ref|]; [|done].
    unfold mbind, M_bind, gets. destruct (get_pending ref (srv_pending s)) as [e|].
    + by dcase.
    + unfold Backend_LoadFromMySQL. destruct ans; [|by rewrite set_db_id].
      destruct (srv_db s !! _) as [r|]; [|by rewrite set_db_id].
      repeat (dcase; [by rewrite set_db_id|]). by rewrite set_db_id.
  - destruct req as [g|]; [|done]. cbn [purges_below] in Hc. unfold PurgeBelowGeneration.
    destruct (g <=? 0) eqn:Hg; [done|]. unfold mbind, M_bind.
    pose proof (step_purge_pending order floor 1 s fl fd [] a g Hc) as Hp.
    destruct (purgeBelow g (srv_pending s)) as [dropped p]. cbn [snd] in Hp.
    unfold zoom, wrap_err, Backend_PurgeBelowGeneration. rewrite Hg. destruct ans as [|n]; cbn [snd].
    + eapply rtc_l; [exact Hp|]. apply rtc_once, (step_purge_rows order floor 1 (set_pending p s) fl fd [] a g Hc).
    + rewrite set_db_id. by apply rtc_once.
  - apply flushOnce_steps.
  - apply rtc_once, (step_wake order floor 1 s fl fd [] a true).
Qed.

Lemma finalDrain_steps fuel ans s s' es fl fd a :
  server_wf s es → finalDrain order fuel ans s = Some s' →
  rtc (step order floor 1) (mkSys s fl fd [] a) (mkSys s' fl fd [] a).
Proof.
  revert s es. induction fuel as [|fuel IH]; intros s es Hwf; [done|]. cbn [finalDrain].
  unfold drainRing. edestruct (drain_loop_steps (Z.to_nat (Z.max 1 (BatchSize (srv_cfg s))))
    (BatchSize (srv_cfg s)) 0 s es fl fd a Hwf) as [Hd [es1 Hwf1]].
  destruct (drain_loop _ _ _ s) as [[drained| |] s1]; [|by intros [= <-]..]. cbn [snd] in *.
  pose proof (flushOnce_steps 1 (ans fuel) s1 fl fd [] a) as Hf.
  destruct (flushOnce order (ans fuel) s1) as [[[]| |] s2] eqn:Hfl; cbn [snd] in Hf.
  - destruct (drained =? 0).
    + intros [= <-]. by etrans.
    + intros Hs. assert (server_wf s2 es1) as Hwf2.
      { rewrite (flushOnce_run order Horder) in Hfl. case_decide; [by simplify_eq|].
        rewrite flush_batch_run in Hfl by (by intros ?%(snapshot_nil order Horder)).
        destruct (ans fuel); simplify_eq. destruct Hwf1.
        split; [done|by apply drop_entries_wf|by apply upsert_rows_wf]. }
      etrans; [exact Hd|]. etrans; [exact Hf|]. by eapply IH.
  - intros [= <-]. by etrans.
  - intros [= <-]. by etrans.
Qed.

Lemma ring_empty_unique s es : server_wf s [] → server_wf s es → es = [].
Proof.
  intros H0 H1. pose proof (consumer_Pop_run _ _ H0) as Hn.
  pose proof (consumer_Pop_run _ _ H1) as Hp. destruct es as [|e es]; [done|].
  destruct Hp as (?&?&Hp&_). rewrite Hn in Hp. simplify_eq.
Qed.
End proofs.

(** ** Theorems *)

Section theorems.
Context `{WriterOrder} {U : UpsertEngine} {HU : SimultaneousUpdate U}.
Context (order : list Entry → list Entry) (Horder : ∀ l, order l ≡ₚ l).
Context (floor : Z).


(** Refinement.  On a well-formed server every handler and every iteration
    of the [Run] loop, on each of its paths, is a run of the step relation
    that leaves the other goroutines' calls and the acknowledged entries
    alone. *)
Theorem operations_are_runs c s es fl fd acked :
  server_wf s es → purges_below floor c →
  rtc (step order floor 1) (mkSys s fl fd [] acked) (mkSys (exec order c s) fl fd [] acked).
Proof. by apply exec_steps. Qed.

(** Cooperative shutdown persists everything.  When the database answers
    and the pending set is below its cap, [finalDrain] terminates (after at
    most one iteration per entry of the ring and one more) with the ring and
    the pending set empty and a row with at least the fence of every entry
    acknowledged since the start that no purge asked for. *)
Theorem final_drain_persists_everything fuel ans s es acked :
  inv floor (mkSys s [] [] [] acked) → owner_ordered acked → server_wf s es →
  0 < BatchSize (srv_cfg s) → pendingFull s = false → (∀ i, ans i = db_ok) →
  (length es + 1 < fuel)%nat →
  ∃ s', finalDrain order fuel ans s = Some s' ∧ server_wf s' [] ∧ srv_pending s' = newPending ∧
    ∀ e, e ∈ acked → floor ≤ Generation e → row_ge (srv_db s') (pk (recordFromEntry e)) (entry_fence e).
Proof.
  intros Hinv Ho Hwf Hb Hfull Hans Hfuel.
  destruct (finalDrain_run order Horder fuel ans s es Hwf Hb Hfull Hans Hfuel) as (s'&Hf&Hwf'&Hp).
  exists s'. split_and!; [done..|]. intros e He Hge.
  pose proof (finalDrain_steps order Horder floor fuel ans s s' es [] [] acked Hwf Hf) as Hr.
  destruct (inv_steps order Horder floor _ (mkSys s' [] [] [] acked) Hinv Ho Hr) as [_ _ (filed&es'&Ha&Hwf''&_&_&_&Hcov)].
  simpl in *. rewrite (ring_empty_unique _ _ Hwf' Hwf''), app_nil_r in Ha. subst acked.
  destruct (Hcov e He Hge) as [(e'&He'&_)|]; [|done]. rewrite Hp in He'. simpl in He'.
  by rewrite lookup_empty in He'.
Qed.

(** The row of a key after an older entry of the key was flushed. *)
Lemma stale_row db e e' :
  table_wf db → fence_gt (entry_fence e') (entry_fence e) = true →
  (∀ r, db !! pk (recordFromEntry e') = Some r → fence_gt (entry_fence e') (record_fence r) = true) →
  ¬ row_ge (foldl upsert_row db [recordFromEntry e]) (pk (recordFromEntry e')) (entry_fence e').
Proof.
  intros Hwf Hgt Hdb (r&Hr&Hge). apply (upsert_rows_origin db [recordFromEntry e]) in Hr; [|done].
  unfold fence_ge in Hge. destruct Hr as [Hr|[->%list_elem_of_singleton _]].
  - rewrite (Hdb _ Hr) in Hge. done.
  - change (record_fence (recordFromEntry e)) with (entry_fence e) in Hge. congruence.
Qed.

Lemma snapshot_single p e : p_entries p = {[entryRef e := e]} → snapshot order p = [e].
Proof.
  intros Hp. unfold snapshot. rewrite Hp, map_to_list_singleton. simpl.
  apply Permutation_singleton_r. apply Horder.
Qed.


(** The premise on sequence numbers is needed.  [drop] compares sequence
    numbers only, and the sequence restarts when the epoch changes.  When a
    newer entry of the same key, with a smaller sequence number, is popped
    between the database call of a flush and its drop, the drop discards it:
    the ring and the pending set are empty and the row does not carry it. *)
Theorem drop_loses_newer_epoch s e e' acked :
  server_wf s [e'] → p_entries (srv_pending s) = {[entryRef e := e]} →
  entryRef e' = entryRef e → fence_gt (entry_fence e') (entry_fence e) = true →
  OwnerSeq e' ≤ OwnerSeq e →
  (∀ r, srv_db s !! pk (recordFromEntry e') = Some r →
        fence_gt (entry_fence e') (record_fence r) = true) →
  ∃ s', rtc (step order floor 1) (mkSys s [] [] [] acked) (mkSys s' [] [] [] acked) ∧
    server_wf s' [] ∧ srv_pending s' = newPending ∧
    ¬ row_ge (srv_db s') (pk (recordFromEntry e')) (entry_fence e').
Proof.
  intros Hwf Hpend Href Hgt Hseq Hdb.
  pose proof (snapshot_single _ _ Hpend) as Hsnap.
  set (s1 := upsert_entries [e] s).
  assert (server_wf s1 [e']) as Hwf1 by (by apply upsert_entries_wf).
  destruct (consumer_Pop_run _ _ Hwf1) as (payload&f'&Hpop&Hd&Hwf2).
  set (s2 := set_pending (put e' (srv_pending s1)) (set_ring f' s1)).
  set (s3 := set_pending (drop_pending (entryRef e) (OwnerSeq e) (srv_pending s2)) s2).
  assert (server_wf s3 []) as Hwf3.
  { apply (server_wf_put _ _ e') in Hwf2. destruct Hwf2. split; [done|by apply drop_pending_wf|done]. }
  exists s3. split_and!; [|done| |].
  - eapply rtc_l; [by apply (step_snapshot order floor 1 s [] [] [] acked [e]); rewrite <- Hsnap; constructor|].
    eapply rtc_l; [apply (step_upserted order floor 1 s [] [e] [] [] [] acked)|].
    eapply rtc_l; [by eapply (step_pop order floor 1 s1 [] [[e]]); [simpl; lia|..]|].
    eapply rtc_l; [apply (step_put order floor 1 (set_ring f' s1) [] [[e]] [] e' [])|].
    apply (drops_steps order floor 1 [e] s2).
  - apply pending_wf_empty; [apply Hwf3|]. apply map_eq. intros ref. rewrite lookup_empty.
    destruct (p_entries (srv_pending s3) !! ref) as [x|] eqn:Hx; [|done]. exfalso.
    apply drop_pending_lookup in Hx as [Hx Hlt]. simpl in Hx. rewrite Hpend, Href in Hx.
    apply lookup_insert_Some in Hx as [[<- <-]|[Hne Hx]]; [specialize (Hlt eq_refl); lia|].
    apply lookup_singleton_Some in Hx as [? _]. done.
  - apply (stale_row (srv_db s)); [apply Hwf|done..].
Qed.
End theorems.

(** *** Witnesses *)

Definition srv_empty : server := mkServer 4096 ring4k newPending ∅ false cfg1.

Lemma srv_empty_wf : server_wf srv_empty [].
Proof.
  split; [|apply newPending_wf|apply empty_table_wf].
  exists 0, 0, []. split; [exact ring4k_wf|constructor].
Qed.

Lemma divide_4096 : (4096 | 2 ^ 64).
Proof. by exists (2 ^ 52). Qed.


Lemma operations_are_runs_witness :
  rtc (step (U := old_row_engine) (λ l, l) 1 1) (mkSys srv0 [] [] [] [e1; e2])
    (mkSys (exec (U := old_row_engine) (λ l, l) (CallRun db_ok) srv0) [] [] [] [e1; e2]).
Proof.
  exact (operations_are_runs (U := old_row_engine) (λ l, l) (λ l, Permutation_refl l)
    1 (CallRun db_ok) srv0 [e1; e2] [] [] [e1; e2] srv0_wf I).
Defined.

Lemma srv0_inv : inv 1 (mkSys srv0 [] [] [] [e1; e2]).
Proof.
  split; [exact divide_4096|simpl; lia|]. exists [], [e1; e2]. simpl. split_and!; [done|exact srv0_wf|..].
  - intros ref e He. by rewrite lookup_empty in He.
  - by intros l e ?%elem_of_nil.
  - by intros l e ?%elem_of_nil.
  - by intros e ?%elem_of_nil.
Qed.

Lemma e1_e2_ordered : owner_ordered [e1; e2].
Proof. repeat constructor. Qed.

Lemma final_drain_persists_everything_witness :
  ∃ s', finalDrain (U := old_row_engine) (λ l, l) 4 (λ _, db_ok) srv0 = Some s' ∧
    server_wf s' [] ∧ srv_pending s' = newPending ∧
    ∀ e, e ∈ [e1; e2] → 1 ≤ Generation e → row_ge (srv_db s') (pk (recordFromEntry e)) (entry_fence e).
Proof.
  apply (final_drain_persists_everything (U := old_row_engine) (λ l, l) (λ l, Permutation_refl l)
    1 4 (λ _, db_ok) srv0 [e1; e2] [e1; e2] srv0_inv e1_e2_ordered srv0_wf);
    [reflexivity..|simpl; lia].
Defined.

(** The key of [e1] written again under the next epoch, with a fresh sequence. *)
Definition e1_old : Entry := mkEntry 1 OpSet "users" "a" 7 [x61] 0 5 1 1 5 "pod" 100.
Definition e1_new : Entry := mkEntry 1 OpSet "users" "a" 7 [x62] 0 9 1 2 1 "pod" 300.
Definition srv_race : server :=
  mkServer 4096 (ring_with [e1_new]) (put e1_old newPending) ∅ false cfg1.

Lemma srv_race_wf : server_wf srv_race [e1_new].
Proof.
  destruct (ring_push ring4k 0 0 [] (payload_of e1_new) ring4k_wf) as [T1 H1];
    [vm_compute; discriminate|vm_compute; reflexivity|].
  split; [|apply put_wf, newPending_wf|apply empty_table_wf].
  exists 0, T1, [payload_of e1_new]. split; [exact H1|]. repeat constructor.
Qed.

Lemma drop_loses_newer_epoch_witness :
  ∃ s', rtc (step (U := old_row_engine) (λ l, l) 1 1) (mkSys srv_race [] [] [] [e1_old; e1_new])
          (mkSys s' [] [] [] [e1_old; e1_new]) ∧
    server_wf s' [] ∧ srv_pending s' = newPending ∧
    ¬ row_ge (srv_db s') (pk (recordFromEntry e1_new)) (entry_fence e1_new).
Proof.
  apply (drop_loses_newer_epoch (U := old_row_engine) (λ l, l) (λ l, Permutation_refl l) 1
    srv_race e1_old e1_new [e1_old; e1_new] srv_race_wf); try reflexivity.
  - vm_compute. discriminate.
  - intros r. simpl. by rewrite lookup_empty.
Defined.

(** Two writes of one key in a row. *)
Definition e1_next : Entry := mkEntry 1 OpSet "users" "a" 7 [x62] 0 9 1 1 2 "pod" 300.
Definition srv_two : server := mkServer 4096 (ring_with [e1; e1_next]) newPending ∅ false cfg1.

Lemma srv_two_wf : server_wf srv_two [e1; e1_next].
Proof.
  destruct (ring_push ring4k 0 0 [] (payload_of e1) ring4k_wf) as [T1 H1];
    [vm_compute; discriminate|vm_compute; reflexivity|].
  destruct (ring_push _ 0 T1 _ (payload_of e1_next) H1) as [T2 H2];
    [vm_compute; discriminate|vm_compute; reflexivity|].
  split; [|apply newPending_wf|apply empty_table_wf].
  exists 0, T2, [payload_of e1; payload_of e1_next]. split; [exact H2|]. repeat constructor.
Qed.

