(* ===== verification/SidecarMain.v ===== *)
(** * The sidecar process ([cmd/olric-sidecar/main.go])

    The boot of a sidecar: it opens the ring left in the shared volume, or
    creates one, opens the database and builds the server.  What the operating
    system and the database answer are arguments.  A container restart is a
    boot on the file and the table the previous process left behind. *)

From S2P Require Import Prelude Json Strings Durations Records OplogRing Oplog Backend Sidecar.

(** ** Environment *)

(** This [main] trims what it reads. *)
Definition sidecar_envString (getenv : env) (name fallback : string) : string :=
  let value := getenv name in if String.eqb value "" then fallback else TrimSpace value.

Definition sidecar_ring_path (getenv : env) : string :=
  sidecar_envString getenv "RING_PATH" "/var/lib/olricstack/shared/oplog.ring".
Definition sidecar_socket_path (getenv : env) : string :=
  sidecar_envString getenv "CONTROL_SOCKET" "/var/lib/olricstack/shared/oplog.sock".
Definition ring_capacity (getenv : env) : Z :=
  u64 (envInt getenv "RING_CAPACITY_BYTES" (16 * 1024 * 1024)).

Definition server_config (getenv : env) : config := {|
  BatchSize := envInt getenv "CONSUMER_BATCH_SIZE" 256;
  IdlePoll := envDuration getenv "CONSUMER_IDLE_POLL" (200 * 1000000);
  FlushTimeout := envDuration getenv "CONSUMER_FLUSH_TIMEOUT" (30 * 1000000000);
  MaxPendingRecords := envIntAllowZero getenv "MAX_PENDING_RECORDS" 0;
  MaxPendingBytes := u64 (envIntAllowZero getenv "MAX_PENDING_BYTES" 0) |}.

(** ** Boot *)

Inductive boot_err :=
| ErrMkdir | ErrStat
| ErrCreateRing (e : ring_err) | ErrOpenRing (e : ring_err)
| ErrDSNRequired | ErrOpenMySQL | ErrMigrate
| ErrBuildServer (e : server_err).

(** What the boot finds: the ring file ([None] when [os.Stat] fails with another
    error than "not exist"), and the table ([None] when it cannot be opened). *)
Record host := mkHost {
  host_os : os_answers;
  host_mkdir_ok : bool;
  host_ring : option (option (list byte));
  host_db : option (gmap (string * Z) EntryRecord);
  host_migrate_ok : bool }.

(** The ring file after the stat-or-create. *)
Definition boot_ring (getenv : env) (h : host) : outcome boot_err (list byte) :=
  if negb (host_mkdir_ok h) then Fail ErrMkdir else
  match host_ring h with
  | None => Fail ErrStat
  | Some (Some f) => Done f
  | Some None =>
    match Create (host_os h) (ring_capacity getenv) with
    | Done f => Done f
    | Fail e => Fail (ErrCreateRing e)
    | Panic => Panic
    end
  end.

Definition buildBackend (getenv : env) (h : host) :
    outcome boot_err (gmap (string * Z) EntryRecord) :=
  if String.eqb (getenv "MYSQL_DSN") "" then Fail ErrDSNRequired else
  match host_db h with
  | None => Fail ErrOpenMySQL
  | Some db => if host_migrate_ok h then Done db else Fail ErrMigrate
  end.

Definition boot (getenv : env) (h : host) : outcome boot_err server :=
  match boot_ring getenv h with
  | Done f =>
    match openMapping (host_os h) f with
    | Done capacity =>
      match buildBackend getenv h with
      | Done db =>
        match NewServer (Some (capacity, f)) (Some db) (server_config getenv) with
        | Done s => Done s
        | Fail e => Fail (ErrBuildServer e)
        | Panic => Panic
        end
      | Fail e => Fail e
      | Panic => Panic
      end
    | Fail e => Fail (ErrOpenRing e)
    | Panic => Panic
    end
  | Fail e => Fail e
  | Panic => Panic
  end.

(** ** The header of the file *)

(** The part of the file [openMapping] reads is that of a ring of [capacity]. *)
Definition header_ok (capacity : Z) (f : list byte) : Prop :=
  slice 0 4 f = le_bytes 4 magic ∧ slice 4 4 f = le_bytes 4 version ∧
  slice 8 8 f = le_bytes 8 capacity.

(** A computation on the file that writes behind that part and inside the file. *)
Definition keeps_header {A} (m : M (list byte) ring_err A) : Prop :=
  ∀ f, headerSize ≤ zlen f → zlen (m f).2 = zlen f ∧ slice 0 16 (m f).2 = slice 0 16 f.

Lemma keeps_bind {A B} (m : M (list byte) ring_err A) (k : A → M (list byte) ring_err B) :
  keeps_header m → (∀ a, keeps_header (k a)) → keeps_header (m ≫= k).
Proof.
  intros Hm Hk f Hf. unfold mbind, M_bind. destruct (Hm f Hf) as [Hl Hs].
  destruct (m f) as [[a| |] f']; cbn [snd] in *; [|done..].
  destruct (Hk a f') as [Hl' Hs']; [lia|]. split; [lia|congruence].
Qed.

Lemma keeps_ret {A} (a : A) : keeps_header (mret a).
Proof. by intros f. Qed.

Lemma keeps_fail {A} e : keeps_header (fail (A:=A) e).
Proof. by intros f. Qed.

Lemma keeps_load off : keeps_header (LoadUint64 off).
Proof. by intros f. Qed.

Lemma keeps_uint32 a : keeps_header (Uint32 a).
Proof. intros f Hf. unfold Uint32. by destruct (in_bounds _ _ _). Qed.

Lemma keeps_copy_out a n : keeps_header (copy_out a n).
Proof. intros f Hf. unfold copy_out. by destruct (in_bounds _ _ _). Qed.

(** A write of [bs] at [off]. *)
Lemma splice_keeps off (bs f : list byte) :
  16 ≤ off → off + zlen bs ≤ zlen f →
  zlen (splice off bs f) = zlen f ∧ slice 0 16 (splice off bs f) = slice 0 16 f.
Proof.
  intros Ho Hb. pose proof (zlen_nonneg bs). split; [apply zlen_splice; lia|].
  apply slice_splice_other; lia.
Qed.

Lemma keeps_store off v : 16 ≤ off → off + 8 ≤ headerSize → keeps_header (StoreUint64 off v).
Proof.
  intros Ho Hb f Hf. apply splice_keeps; [done|]. rewrite zlen_le_bytes. lia.
Qed.

Lemma keeps_put a v : 16 ≤ a → keeps_header (PutUint32 a v).
Proof.
  intros Ha f Hf. unfold PutUint32, in_bounds. dcase; [|done]. bools.
  apply splice_keeps; [done|]. rewrite zlen_le_bytes. lia.
Qed.

Lemma keeps_copy_in a n src : 16 ≤ a → 0 ≤ n → keeps_header (copy_in a n src).
Proof.
  intros Ha Hn f Hf. unfold copy_in, in_bounds. dcase; [|done]. bools.
  apply splice_keeps; [done|]. unfold zlen in *. rewrite length_take. lia.
Qed.

Create HintDb header discriminated.
#[export] Hint Resolve keeps_bind keeps_ret keeps_fail keeps_load keeps_uint32 keeps_copy_out
  keeps_put keeps_copy_in : header.

(** The offset of a ring position behind the header. *)
Lemma base_ge capacity p : cap_ok capacity → 0 ≤ p < capacity → 16 ≤ i64 (headerSize + i64 p).
Proof.
  intros (_&_&?) Hp. unfold headerSize, maxInt64 in *.
  rewrite (i64_small p), i64_small by (unfold minInt64, maxInt64; lia). lia.
Qed.

Lemma Append_keeps capacity payload : cap_ok capacity → keeps_header (Append capacity payload).
Proof.
  intros Hc. unfold Append. pose proof (u32_range (zlen payload)).
  assert (0 < capacity) by (destruct Hc as (_&?&_); unfold minCapacity in *; lia).
  dcase; [apply keeps_fail|]. dcase; [apply keeps_fail|].
  apply keeps_bind; [apply keeps_load|]. intros head. apply keeps_bind; [apply keeps_load|]. intros tail.
  dcase; [apply keeps_fail|].
  pose proof (base_ge capacity (tail mod capacity) Hc ltac:(apply Z.mod_pos_bound; lia)).
  pose proof (base_ge capacity 0 Hc ltac:(lia)).
  apply keeps_bind; [dcase; eauto 6 with header lia|]. intros _.
  match goal with |- context [i64 (headerSize + i64 ?p)] => set (base := i64 (headerSize + i64 p)) end.
  assert (16 ≤ base) by (unfold base; dcase; done).
  repeat (apply keeps_bind; [first [apply keeps_put|apply keeps_copy_in]; lia|intros _]).
  apply keeps_store; unfold tailOff, headerSize; lia.
Qed.

Lemma Pop_keeps fuel capacity : keeps_header (Pop fuel capacity).
Proof.
  assert (∀ v, keeps_header (StoreUint64 headOff v)) as Hst
    by (intros v; apply keeps_store; unfold headOff, headerSize; lia).
  induction fuel as [|fuel IH]; cbn [Pop]; [apply keeps_fail|].
  apply keeps_bind; [apply keeps_load|]. intros tail. apply keeps_bind; [apply keeps_load|]. intros head.
  dcase; [apply keeps_ret|]. apply keeps_bind; [apply keeps_uint32|]. intros len.
  dcase; [by apply keeps_bind|]. do 2 (dcase; [apply keeps_fail|]).
  apply keeps_bind; [apply keeps_uint32|]. intros crc. apply keeps_bind; [apply keeps_copy_out|]. intros q.
  dcase; [apply keeps_fail|]. apply keeps_bind; [done|]. intros _. apply keeps_ret.
Qed.

Lemma header_ok_slice capacity f f' :
  slice 0 16 f' = slice 0 16 f → header_ok capacity f → header_ok capacity f'.
Proof.
  intros Hs (H0&H4&H8). unfold header_ok.
  assert (∀ o n, 0 ≤ o → 0 ≤ n → o + n ≤ 16 → slice o n f' = slice o n f) as He.
  { intros o n ? ? ?. apply slice_ext; [done..|]. intros i Hi.
    apply (f_equal (λ l, l !! i)) in Hs. by rewrite !lookup_slice in Hs by lia. }
  by rewrite !He by lia.
Qed.

Lemma Create_header os capacity f :
  0 ≤ capacity ≤ maxInt64 - 71 → Create os capacity = Done f → header_ok (alignUp capacity) f.
Proof. intros Hc Hf. by destruct (Create_run _ _ _ Hc Hf) as (_&_&?&?&?&_). Qed.

Lemma openMapping_run os capacity f H T q :
  open_ok os = true → mmap_ok os = true → ring_wf capacity f H T q → header_ok capacity f →
  openMapping os f = Done capacity.
Proof.
  intros Ho Hm Hwf (H0&H4&H8). pose proof (wf_len _ _ _ _ _ Hwf) as Hlen.
  destruct (wf_cap _ _ _ _ _ Hwf) as (_&?&?). unfold openMapping, minCapacity, headerSize, maxInt64 in *.
  rewrite Ho, Hm, H0, H4, H8, Hlen. cbn [negb]. rewrite (proj2 (Z.ltb_ge _ _)) by lia.
  change (le_val (le_bytes 4 magic) =? magic) with true.
  change (le_val (le_bytes 4 version) =? version) with true. cbn [negb].
  rewrite le_val_le_bytes, Z.mod_small by (change (256 ^ Z.of_nat 8) with (2 ^ 64); lia).
  by rewrite (i64_small capacity), i64_small, Z.eqb_refl by (unfold minInt64, maxInt64; lia).
Qed.

(** Appends and pops in any order leave the header alone. *)
Lemma run_keeps_header capacity ops f acks pops f' :
  cap_ok capacity → headerSize ≤ zlen f → run capacity ops f = Some (acks, pops, f') →
  zlen f' = zlen f ∧ slice 0 16 f' = slice 0 16 f.
Proof.
  intros Hc. revert f acks pops. induction ops as [|[payload|] ops IH]; intros f acks pops Hf; cbn [run].
  { by intros [= _ _ <-]. }
  - destruct (Append_keeps capacity payload Hc f Hf) as [Hl Hs].
    destruct (Append _ _ _) as [[[]|[]|] f1]; cbn [snd] in *; try done;
      (destruct (run capacity ops f1) as [[[a p] f2]|] eqn:Hr; [|done]); intros [= <- <- <-];
      (destruct (IH f1 a p ltac:(lia) Hr); split; [lia|congruence]).
  - destruct (Pop_keeps 2 capacity f Hf) as [Hl Hs].
    destruct (Pop _ _ _) as [[[q|]| |] f1]; cbn [snd] in *; try done;
      (destruct (run capacity ops f1) as [[[a p] f2]|] eqn:Hr; [|done]); intros [= <- <- <-];
      (destruct (IH f1 a p ltac:(lia) Hr); split; [lia|congruence]).
Qed.

Lemma drain_loop_keeps_header n batch count s :
  headerSize ≤ zlen (srv_ring s) →
  slice 0 16 (srv_ring (drain_loop n batch count s).2) = slice 0 16 (srv_ring s).
Proof.
  revert count s. induction n as [|n IH]; intros count s Hf; [done|]. cbn [drain_loop].
  erewrite bind_done by reflexivity. destruct (pendingFull s); [done|].
  destruct (Pop_keeps 2 (srv_capacity s) (srv_ring s) Hf) as [Hl Hs].
  unfold mbind at 1, M_bind at 1, consumer_Pop, zoom, wrap_err.
  destruct (Pop _ _ _) as [[[payload|]| |] f]; cbn [snd] in *; try done.
  unfold mbind at 1, M_bind at 1, decode_payload. destruct (Decode payload); [|done..].
  erewrite bind_done by reflexivity. cbv zeta. destruct (batch <=? count + 1); [done|].
  rewrite IH; [done|]. cbn. lia.
Qed.

(** A host whose system calls work and that has the table [db]. *)
Definition working_host (h : host) (db : gmap (string * Z) EntryRecord) : Prop :=
  open_ok (host_os h) = true ∧ mmap_ok (host_os h) = true ∧ host_mkdir_ok h = true ∧
  host_db h = Some db ∧ host_migrate_ok h = true.

(** The server a boot on an existing ring builds. *)
Lemma boot_existing getenv h db capacity f H T q :
  working_host h db → host_ring h = Some (Some f) → getenv "MYSQL_DSN" ≠ "" →
  ring_wf capacity f H T q → header_ok capacity f →
  boot getenv h = Done (mkServer capacity f newPending db false (withDefaults (server_config getenv))).
Proof.
  intros (Ho&Hm&Hk&Hd&Hg) Hr Hdsn Hwf Hh. unfold boot, boot_ring. rewrite Hk, Hr. cbn [negb].
  rewrite (openMapping_run _ _ _ _ _ _ Ho Hm Hwf Hh). unfold buildBackend.
  rewrite (proj2 (String.eqb_neq _ _) Hdsn). by rewrite Hd, Hg.
Qed.

(** ** Theorems *)

(** A restarted sidecar finds the ring as it was.  After any interleaving of
    appends and pops on a ring created by [Create], a boot on the same file
    opens it with its capacity and continues with exactly the acknowledged
    payloads that were not popped, in order; nothing is created anew. *)
Theorem restart_keeps_ring os capacity f ops :
  0 ≤ capacity ≤ maxInt64 - 71 → Create os capacity = Done f →
  Forall (λ op, if op is OpAppend payload then zlen payload ≤ maxPayload else True) ops →
  cursor_ok (alignUp capacity) (alignUp capacity * Z.of_nat (length ops)) →
  ∃ acks pops rest f' H T,
    run (alignUp capacity) ops f = Some (acks, pops, f') ∧ acks = pops ++ rest ∧
    ∀ getenv h db,
      working_host h db → host_ring h = Some (Some f') → getenv "MYSQL_DSN" ≠ "" →
      ∃ s, boot getenv h = Done s ∧ srv_ring s = f' ∧ srv_capacity s = alignUp capacity ∧
        srv_db s = db ∧ ring_wf (srv_capacity s) (srv_ring s) H T rest.
Proof.
  intros Hc Hf Hops Hcur. pose proof (Create_wf _ _ _ Hc Hf) as Hwf.
  destruct (run_refines _ ops _ _ _ _ Hwf Hops Hcur) as (acks&pops&f'&H&T&rest&Hrun&Hq&Hwf').
  exists acks, pops, rest, f', H, T. split; [done|]. split; [done|]. intros getenv h db Hh Hr Hdsn.
  exists (mkServer (alignUp capacity) f' newPending db false (withDefaults (server_config getenv))).
  split; [|done]. eapply boot_existing; [done..|]. pose proof (wf_cap _ _ _ _ _ Hwf) as Hcap.
  assert (headerSize ≤ zlen f) as Hlen.
  { rewrite (wf_len _ _ _ _ _ Hwf). destruct Hcap as (_&?&_). unfold minCapacity in *. lia. }
  destruct (run_keeps_header _ _ _ _ _ _ Hcap Hlen Hrun) as [_ Hs].
  eapply header_ok_slice; [exact Hs|]. by eapply Create_header.
Qed.

(** A sidecar restart forgets what was drained.  [drainRing] moves
    acknowledged entries from the ring to memory.  When the process dies before
    they are flushed and boots again, it has the rest of the ring, an empty
    pending set and the old table: the drained entries are gone, although the
    Pod and its shared volume lived on. *)
Theorem restart_forgets_pending getenv h s es n s' :
  server_wf s es → 0 < BatchSize (srv_cfg s) → header_ok (srv_capacity s) (srv_ring s) →
  drainRing s = (Done n, s') →
  working_host h (srv_db s') → host_ring h = Some (Some (srv_ring s')) → getenv "MYSQL_DSN" ≠ "" →
  ∃ s2, boot getenv h = Done s2 ∧ server_wf s2 (drop (Z.to_nat n) es) ∧
    srv_pending s2 = newPending ∧ srv_db s2 = srv_db s.
Proof.
  intros Hwf Hb Hh Hd Hhost Hr Hdsn.
  destruct (drainRing_run s es Hwf Hb) as (k&s1&Hd1&_&Hwf1&_&_&(Hcap&Hdb&_)&_).
  rewrite Hd in Hd1. injection Hd1 as -> <-. rewrite Nat2Z.id.
  destruct (swf_ring _ _ Hwf1) as (H'&T&q&Hring&Hq).
  destruct (swf_ring _ _ Hwf) as (Hd0&T0&q0&Hring0&_).
  assert (header_ok (srv_capacity s') (srv_ring s')) as Hh'.
  { rewrite Hcap. eapply header_ok_slice; [|exact Hh].
    assert (srv_ring s' = srv_ring (drainRing s).2) as -> by (by rewrite Hd).
    apply drain_loop_keeps_header. rewrite (wf_len _ _ _ _ _ Hring0).
    destruct (wf_cap _ _ _ _ _ Hring0) as (_&?&_). unfold minCapacity in *. lia. }
  eexists. split; [by eapply boot_existing|]. cbn. split_and!; [|done..].
  split; [by exists H', T, q|apply newPending_wf|exact (swf_db _ _ Hwf1)].
Qed.

(** *** Witnesses *)

Definition dsn_env : env := λ name, if String.eqb name "MYSQL_DSN" then "root@/olric" else "".

Definition restart_host (f : list byte) : host := mkHost os_fine true (Some (Some f)) (Some ∅) true.

Lemma restart_keeps_ring_witness :
  ∃ acks pops rest f' H T,
    run 4096 [OpAppend [x61]; OpAppend [x62]; OpPop] ring4k = Some (acks, pops, f') ∧
    acks = pops ++ rest ∧
    ∀ getenv h db,
      working_host h db → host_ring h = Some (Some f') → getenv "MYSQL_DSN" ≠ "" →
      ∃ s, boot getenv h = Done s ∧ srv_ring s = f' ∧ srv_capacity s = 4096 ∧
        srv_db s = db ∧ ring_wf (srv_capacity s) (srv_ring s) H T rest.
Proof.
  apply (restart_keeps_ring os_fine 4096 ring4k [OpAppend [x61]; OpAppend [x62]; OpPop]).
  - unfold maxInt64. lia.
  - exact ring4k_create.
  - repeat constructor; vm_compute; discriminate.
  - left. by exists (2 ^ 52).
Defined.

Lemma srv0_header : header_ok 4096 (srv_ring srv0).
Proof. repeat split; vm_compute; reflexivity. Qed.

Lemma srv0_drained_one : (drainRing srv0).1 = Done 1.
Proof. vm_compute. reflexivity. Qed.

Lemma restart_forgets_pending_witness :
  ∃ s2, boot dsn_env (restart_host (srv_ring (drainRing srv0).2)) = Done s2 ∧ server_wf s2 [e2] ∧
    srv_pending s2 = newPending ∧ srv_db s2 = ∅.
Proof.
  exact (restart_forgets_pending dsn_env (restart_host (srv_ring (drainRing srv0).2)) srv0 [e1; e2] 1
    (drainRing srv0).2 srv0_wf eq_refl srv0_header (pair_of_fst _ _ srv0_drained_one) (conj eq_refl (conj eq_refl (conj eq_refl
    (conj eq_refl eq_refl)))) eq_refl ltac:(discriminate)).
Defined.
