(* ===== verification/SidecarProcess.v ===== *)
(** * The life of a sidecar process ([Server.Run] in
      [internal/sidecar/control.go], [cmd/olric-sidecar/main.go])

    [Run] drains and flushes until its context is cancelled or an operation
    fails; [main] waits for a signal, for the gRPC server or for [Run].  Between
    two operations of the loop the producer appends and control handlers run:
    these activities, the answers of the database and what ends each wait are
    the turns of a run. *)

From S2P Require Import Prelude Json Strings Durations Records Oplog OplogRing Backend Sidecar SidecarSteps SidecarMain.

(** ** The loop *)

(** What happens next to the loop. *)
Inductive activity :=
| ActRpc (c : rpc)
| ActAppend (payload : list byte).

(** What ends the [select] at the end of an iteration. *)
Inductive wakeup := Cancelled | Woken | Polled.

Record turn := mkTurn {
  tn_before : list activity;
  tn_flush : db_answer;
  tn_waiting : list activity;
  tn_wakeup : wakeup }.

(** How [Run] returned, or that it has not yet. *)
Inductive run_end := RunRunning | RunCancelled | RunFailed (e : server_err) | RunPanicked.

Section process.
Context `{WriterOrder} {U : UpsertEngine}.
Context (order : list Entry → list Entry).

(** An activity and the entry it acknowledges. *)
Definition act (a : activity) (s : server) : list Entry * server :=
  match a with
  | ActRpc c => ([], exec order c s)
  | ActAppend payload =>
    match Append (srv_capacity s) payload (srv_ring s) with
    | (Done _, f) => (match Decode payload with Done e => [e] | _ => [] end, set_ring f s)
    | (_, f) => ([], set_ring f s)
    end
  end.

Fixpoint acts (l : list activity) (s : server) : list Entry * server :=
  match l with
  | [] => ([], s)
  | a :: l => let '(es, s) := act a s in let '(es', s) := acts l s in (es ++ es', s)
  end.

(** [Run]: how it ended, the entries acknowledged meanwhile and the server it
    leaves.  [drain] answers the flushes of the final drain, which has [fuel]
    iterations; [None] is "out of fuel". *)
Fixpoint Run (fuel : nat) (drain : nat → db_answer) (turns : list turn) (s : server) :
    option (run_end * list Entry * server) :=
  match turns with
  | [] => Some (RunRunning, [], s)
  | t :: turns =>
    let '(es, s) := acts (tn_before t) s in
    match Run_iteration order (tn_flush t) s with
    | (Fail e, s) => Some (RunFailed e, es, s)
    | (Panic, s) => Some (RunPanicked, es, s)
    | (Done _, s) =>
      let '(es', s) := acts (tn_waiting t) s in
      match tn_wakeup t with
      | Cancelled => s ← finalDrain order fuel drain s; Some (RunCancelled, es ++ es', s)
      | Woken => '(r, es'', s) ← Run fuel drain turns (set_wake false s); Some (r, es ++ es' ++ es'', s)
      | Polled => '(r, es'', s) ← Run fuel drain turns s; Some (r, es ++ es' ++ es'', s)
      end
    end
  end.

(** ** main *)

(** What ends the [select] of [main]: a signal (the context is cancelled, the
    gRPC server stops and [main] waits for [Run]), the end of the gRPC server,
    or the end of [Run]. *)
Inductive main_wakeup := MainSignal | MainServe (failed : bool) | MainConsumer.

(** The exit code when [main] woke up for [w] and [Run] stands at [r];
    [canceled e] is [errors.Is(err, context.Canceled)].  [None]: [main] still
    waits for [Run]. *)
Definition main_exit (canceled : server_err → bool) (w : main_wakeup) (r : run_end) : option Z :=
  match w, r with
  | _, RunPanicked => Some 2
  | MainServe failed, _ => Some (if failed then 1 else 0)
  | _, RunRunning => None
  | MainSignal, _ => Some 0
  | MainConsumer, RunCancelled => Some 0
  | MainConsumer, RunFailed e => Some (if canceled e then 0 else 1)
  end.

(** A process from its boot to its end: the exit code, what was acknowledged
    and what it leaves behind.  A boot error is [log.Fatalf], and so is a socket
    that cannot be listened on. *)
Definition sidecar_main (getenv : env) (h : host) (listening : bool) (canceled : server_err → bool)
    (w : main_wakeup) (fuel : nat) (drain : nat → db_answer) (turns : list turn) :
    option (Z * list Entry * option server) :=
  match boot getenv h with
  | Done s =>
    if negb listening then Some (1, [], Some s) else
    '(r, es, s) ← Run fuel drain turns s;
    code ← main_exit canceled w r;
    Some (code, es, Some s)
  | Fail _ => Some (1, [], None)
  | Panic => Some (2, [], None)
  end.
End process.

(** ** Steps keep a server well formed *)

Section proofs.
Context `{WriterOrder} {U : UpsertEngine} {HU : SimultaneousUpdate U}.
Context (order : list Entry → list Entry) (Horder : ∀ l, order l ≡ₚ l).
Context (floor : Z).

(** A server on a ring of a capacity that divides [2^64], with the settings [c]. *)
Definition serving (capacity : Z) (c : config) (s : server) : Prop :=
  srv_capacity s = capacity ∧ srv_cfg s = c ∧ ∃ es, server_wf s es.

Lemma step_serving capacity c x x' :
  (capacity | 2 ^ 64) → serving capacity c (x_srv x) → step order floor 1 x x' → serving capacity c (x_srv x').
Proof.
  intros Hdiv (Hcap&Hcfg&es&Hwf) Hstep. unfold serving.
  destruct Hstep as [s fl fd hd acked e payload f' Hp Hd Ha|s fl fd hd acked payload e s' Hlt Hpop Hd
    |s fl fd hd1 e hd2 acked|s fl fd hd acked l|s fl1 l fl2 fd hd acked|s fl1 l fl2 fd hd acked n
    |s fl fd1 e l fd2 hd acked|s fl fd1 fd2 hd acked|s fl fd hd acked g Hg|s fl fd hd acked g Hg
    |s fl fd hd acked b]; cbn [x_srv] in *.
  - split_and!; [done..|]. exists (es ++ [e]). destruct Hwf as [(H1&T&q&Hr&Hq) ? ?].
    rewrite Hcap in Hr, Ha. split; [|done..]. cbn. rewrite Hcap.
    pose proof (Append_refines _ _ _ _ _ payload Hr Hp (or_introl Hdiv)) as Hap. rewrite Ha in Hap.
    destruct Hap as [Hr' _]. eexists H1, _, _. split; [exact Hr'|]. apply Forall2_app; [done|]. by constructor.
  - pose proof (consumer_Pop_run _ _ Hwf) as Hrun. rewrite Hpop in Hrun. destruct es as [|e0 es]; [simplify_eq|].
    destruct Hrun as (payload'&f'&Hrun&Hd'&Hwf'). simplify_eq. split_and!; [done..|by exists es].
  - split_and!; [done..|exists es; by apply server_wf_put].
  - by split_and!; [..|exists es].
  - split_and!; [done..|exists es; by apply set_db_wf].
  - split_and!; [done..|exists es; by apply set_db_wf].
  - split_and!; [done..|]. exists es. destruct Hwf. split; [done|by apply drop_pending_wf|done].
  - by split_and!; [..|exists es].
  - split_and!; [done..|exists es; by apply purge_pending_wf].
  - split_and!; [done..|exists es; by apply purge_rows_wf].
  - split_and!; [done..|]. exists es. by destruct Hwf.
Qed.

Lemma steps_serving capacity c x x' :
  (capacity | 2 ^ 64) → serving capacity c (x_srv x) → rtc (step order floor 1) x x' →
  serving capacity c (x_srv x').
Proof. intros Hd Hs. induction 1; [done|]. eauto using step_serving. Qed.

Lemma run_serving capacity c s acked s' acked' :
  (capacity | 2 ^ 64) → serving capacity c s →
  rtc (step order floor 1) (mkSys s [] [] [] acked) (mkSys s' [] [] [] acked') → serving capacity c s'.
Proof. intros Hd Hs Hr. by apply (steps_serving capacity c _ _ Hd) in Hr. Qed.

(** *** A run of the loop is a run of the system *)

(** The producer appends encodings of entries, and purges go up to [floor]. *)
Definition proper_activity (a : activity) : Prop :=
  match a with
  | ActAppend payload => zlen payload ≤ maxPayload ∧ ∃ e, Decode payload = Done e
  | ActRpc c => purges_below floor c
  end.

Definition proper_turn (t : turn) : Prop :=
  Forall proper_activity (tn_before t) ∧ Forall proper_activity (tn_waiting t).

Section loop.
Context (capacity : Z) (c : config) (Hdiv : (capacity | 2 ^ 64)).

Lemma act_steps a s acked :
  serving capacity c s → proper_activity a →
  rtc (step order floor 1) (mkSys s [] [] [] acked) (mkSys (act order a s).2 [] [] [] (acked ++ (act order a s).1)).
Proof.
  intros (Hcap&Hcfg&es&Hwf) Ha. destruct a as [r|payload]; cbn [act].
  { rewrite app_nil_r. by eapply exec_steps. }
  destruct Ha as [Hp [e Hd]]. destruct (swf_ring _ _ Hwf) as (H1&T&q&Hr&_). rewrite Hcap in *.
  pose proof (Append_refines _ _ _ _ _ payload Hr Hp (or_introl Hdiv)) as Hap. rewrite Hd.
  destruct (Append capacity payload (srv_ring s)) as [[[]|err|] f'] eqn:Happ; cbn [fst snd]; [| |done].
  - apply rtc_once. by eapply step_append; [..|rewrite Hcap].
  - rewrite app_nil_r. assert (f' = srv_ring s) as -> by (by destruct err; try done; destruct Hap).
    by destruct s.
Qed.

Lemma acts_steps l s acked :
  serving capacity c s → Forall proper_activity l →
  rtc (step order floor 1) (mkSys s [] [] [] acked) (mkSys (acts order l s).2 [] [] [] (acked ++ (acts order l s).1)).
Proof.
  intros Hs Hl. revert s acked Hs. induction Hl as [|a l Ha Hl IH]; intros s acked Hs.
  { cbn. by rewrite app_nil_r. }
  cbn [acts]. pose proof (act_steps a s acked Hs Ha) as Hst.
  destruct (act order a s) as [e1 s1]. cbn [fst snd] in Hst.
  pose proof (run_serving _ _ _ _ _ _ Hdiv Hs Hst) as Hs1. specialize (IH s1 (acked ++ e1) Hs1).
  destruct (acts order l s1) as [e2 s2]. cbn [fst snd] in *. rewrite app_assoc. by etrans.
Qed.

Lemma acts_serving l s :
  serving capacity c s → Forall proper_activity l → serving capacity c (acts order l s).2.
Proof. intros Hs Hl. exact (run_serving _ _ _ _ _ _ Hdiv Hs (acts_steps l s [] Hs Hl)). Qed.

Lemma iteration_steps ans s acked :
  serving capacity c s →
  rtc (step order floor 1) (mkSys s [] [] [] acked) (mkSys (Run_iteration order ans s).2 [] [] [] acked).
Proof. intros (_&_&es&Hwf). exact (exec_steps order Horder floor (CallRun ans) s es [] [] acked Hwf I). Qed.

Lemma iteration_serving ans s :
  serving capacity c s → serving capacity c (Run_iteration order ans s).2.
Proof. intros Hs. exact (run_serving _ _ _ _ _ _ Hdiv Hs (iteration_steps ans s [] Hs)). Qed.

Lemma wake_serving b s : serving capacity c s → serving capacity c (set_wake b s).
Proof. intros (?&?&es&[]). split_and!; [done..|]. by exists es. Qed.

Lemma Run_steps fuel drain turns s acked r acks s' :
  serving capacity c s → Forall proper_turn turns →
  Run order fuel drain turns s = Some (r, acks, s') →
  rtc (step order floor 1) (mkSys s [] [] [] acked) (mkSys s' [] [] [] (acked ++ acks)).
Proof.
  intros Hs Ht. revert s acked acks Hs. induction Ht as [|t turns [Hb Hw] Ht IH]; intros s acked acks Hs; cbn [Run].
  { intros [= <- <- <-]. by rewrite app_nil_r. }
  pose proof (acts_steps _ s acked Hs Hb) as Hst1. pose proof (acts_serving _ s Hs Hb) as Hs1.
  destruct (acts order (tn_before t) s) as [es1 s1]. cbn [fst snd] in *.
  pose proof (iteration_steps (tn_flush t) s1 (acked ++ es1) Hs1) as Hst2.
  pose proof (iteration_serving (tn_flush t) s1 Hs1) as Hs2.
  destruct (Run_iteration order (tn_flush t) s1) as [[[]|e|] s2]; cbn [snd] in *;
    [|intros [= <- <- <-]; by etrans..].
  pose proof (acts_steps _ s2 (acked ++ es1) Hs2 Hw) as Hst3. pose proof (acts_serving _ s2 Hs2 Hw) as Hs3.
  destruct (acts order (tn_waiting t) s2) as [es3 s3]. cbn [fst snd] in *. rewrite <- app_assoc in Hst3.
  destruct (tn_wakeup t).
  - destruct (finalDrain order fuel drain s3) as [s4|] eqn:Hf; [|done]. intros [= <- <- <-].
    destruct Hs3 as (_&_&es&Hwf). pose proof (finalDrain_steps order Horder floor _ _ _ _ _ [] []
      (acked ++ es1 ++ es3) Hwf Hf). do 3 (etrans; [done|]). done.
  - destruct (Run order fuel drain turns (set_wake false s3)) as [[[r' es5] s5]|] eqn:Hr; [|done].
    intros [= -> <- ->]. specialize (IH _ (acked ++ es1 ++ es3) _ (wake_serving false _ Hs3) Hr).
    rewrite <- !app_assoc in IH. do 3 (etrans; [done|]). eapply rtc_l; [apply step_wake|done].
  - destruct (Run order fuel drain turns s3) as [[[r' es5] s5]|] eqn:Hr; [|done].
    intros [= -> <- ->]. specialize (IH _ (acked ++ es1 ++ es3) _ Hs3 Hr).
    rewrite <- !app_assoc in IH. by do 3 (etrans; [done|]).
Qed.

(** *** A run whose database answers *)

Context (Hbatch : 0 < BatchSize c).

Lemma iteration_ok s :
  serving capacity c s → ∃ s', Run_iteration order db_ok s = (Done tt, s') ∧ serving capacity c s'.
Proof.
  intros Hs. pose proof (iteration_serving db_ok s Hs) as Hs'. destruct Hs as (_&Hcfg&es&Hwf).
  assert ((Run_iteration order db_ok s).1 = Done tt) as Hd.
  { unfold Run_iteration. destruct (drainRing_run s es Hwf) as (k&s1&Hd&_&Hwf1&_); [by rewrite Hcfg|].
    erewrite bind_done by exact Hd. erewrite bind_done by reflexivity. dcase; [|done].
    by destruct (flushOnce_ok order Horder s1 _ Hwf1) as (s2&->&_). }
  destruct (Run_iteration order db_ok s) as [[[]| |] s']; [|done..]. by exists s'.
Qed.

(** Without caps the pending set is never full. *)
Lemma uncapped_not_full s :
  MaxPendingRecords (srv_cfg s) = 0 → MaxPendingBytes (srv_cfg s) = 0 → pendingFull s = false.
Proof. unfold pendingFull. by intros -> ->. Qed.

Lemma Run_cancelled drain turns t s :
  MaxPendingRecords c = 0 → MaxPendingBytes c = 0 →
  serving capacity c s → Forall proper_turn (turns ++ [t]) →
  Forall (λ t, tn_flush t = db_ok) (turns ++ [t]) → Forall (λ t, tn_wakeup t ≠ Cancelled) turns →
  tn_wakeup t = Cancelled → (∀ i, drain i = db_ok) →
  ∃ n, ∀ fuel, (n ≤ fuel)%nat →
    ∃ acks s', Run order fuel drain (turns ++ [t]) s = Some (RunCancelled, acks, s') ∧
      server_wf s' [] ∧ srv_pending s' = newPending.
Proof.
  intros Hrec Hbytes Hs Ht Hok Hw Hc Hdrain. revert s Hs. induction turns as [|t' turns IH]; intros s Hs.
  - apply Forall_inv in Ht as [Hb Hwt], Hok. cbn [app Run].
    pose proof (acts_serving _ s Hs Hb) as Hs1. destruct (acts order (tn_before t) s) as [es1 s1].
    rewrite Hok. destruct (iteration_ok s1 Hs1) as (s2&->&Hs2).
    pose proof (acts_serving _ s2 Hs2 Hwt) as Hs3. destruct (acts order (tn_waiting t) s2) as [es3 s3].
    destruct Hs3 as (_&Hcfg&es&Hwf). cbn [snd] in *. rewrite Hc. exists (length es + 2)%nat. intros fuel Hf.
    destruct (finalDrain_run order Horder fuel drain s3 es Hwf) as (s4&->&Hwf4&Hp4);
      [by rewrite Hcfg|by apply uncapped_not_full; rewrite Hcfg|done|lia|]. cbn. eauto.
  - apply Forall_cons in Ht as [[Hb Hwt] Ht], Hok as [Hok1 Hok], Hw as [Hw1 Hw]. cbn [app Run].
    pose proof (acts_serving _ s Hs Hb) as Hs1. destruct (acts order (tn_before t') s) as [es1 s1].
    rewrite Hok1. destruct (iteration_ok s1 Hs1) as (s2&->&Hs2).
    pose proof (acts_serving _ s2 Hs2 Hwt) as Hs3. destruct (acts order (tn_waiting t') s2) as [es3 s3].
    cbn [snd] in *. destruct (tn_wakeup t'); [done|..].
    + destruct (IH Ht Hok Hw _ (wake_serving false _ Hs3)) as [n Hn]. exists n. intros fuel Hf.
      destruct (Hn fuel Hf) as (acks&s'&->&?&?). cbn. eauto.
    + destruct (IH Ht Hok Hw _ Hs3) as [n Hn]. exists n. intros fuel Hf.
      destruct (Hn fuel Hf) as (acks&s'&->&?&?). cbn. eauto.
Qed.
End loop.

(** A server that starts with nothing pending: what its ring holds is
    acknowledged. *)
Lemma inv_start s es :
  (srv_capacity s | 2 ^ 64) → server_wf s es → srv_pending s = newPending → inv floor (mkSys s [] [] [] es).
Proof.
  intros Hc Hwf Hp. split; [done|cbn; lia|]. exists [], es. cbn. rewrite Hp. split_and!; [done..| | | |].
  - intros ref e He. cbn in He. by rewrite lookup_empty in He.
  - by intros l e ?%elem_of_nil.
  - by intros l e ?%elem_of_nil.
  - by intros e ?%elem_of_nil.
Qed.

(** An emptied server of the invariant has a row for everything acknowledged. *)
Lemma drained_rows s acked e :
  inv floor (mkSys s [] [] [] acked) → server_wf s [] → srv_pending s = newPending → e ∈ acked →
  floor ≤ Generation e →
  row_ge (srv_db s) (pk (recordFromEntry e)) (entry_fence e).
Proof.
  intros [_ _ (filed&es&Ha&Hwf'&_&_&_&Hcov)] Hwf Hp He Hge. cbn in *.
  rewrite (ring_empty_unique _ _ Hwf Hwf'), app_nil_r in Ha. subst acked.
  destruct (Hcov e He Hge) as [(e'&He'&_)|]; [|done]. rewrite Hp in He'. cbn in He'.
  by rewrite lookup_empty in He'.
Qed.

Lemma boot_server getenv h s :
  boot getenv h = Done s → srv_pending s = newPending ∧ srv_cfg s = withDefaults (server_config getenv).
Proof.
  unfold boot. destruct (boot_ring getenv h) as [f| |]; [|done..].
  destruct (openMapping _ f) as [capacity| |]; [|done..]. destruct (buildBackend getenv h); [|done..].
  by intros [= <-].
Qed.

Lemma put_all_nonempty l p : l ≠ [] → p_entries (put_all l p) ≠ ∅.
Proof.
  intros Hl. destruct (exists_last Hl) as (l'&e&->). unfold put_all. rewrite foldl_app. cbn.
  apply insert_non_empty.
Qed.

Lemma drainRing_full s : 0 < BatchSize (srv_cfg s) → pendingFull s = true → drainRing s = (Done 0, s).
Proof.
  intros Hb Hfull. unfold drainRing. destruct (Z.to_nat _) eqn:Hn; [lia|]. cbn [drain_loop].
  erewrite bind_done by reflexivity. by rewrite Hfull.
Qed.

(** More fuel does not change a finished run. *)
Lemma finalDrain_mono fuel fuel' drain s s' :
  (∀ i, drain i = db_ok) → (fuel ≤ fuel')%nat →
  finalDrain order fuel drain s = Some s' → finalDrain order fuel' drain s = Some s'.
Proof.
  intros Hd. revert fuel' s. induction fuel as [|fuel IH]; intros [|fuel'] s Hle; try done; [lia|]. cbn [finalDrain].
  rewrite !Hd. repeat case_match; try done. apply IH. lia.
Qed.

Lemma Run_mono fuel fuel' drain turns s r :
  (∀ i, drain i = db_ok) → (fuel ≤ fuel')%nat →
  Run order fuel drain turns s = Some r → Run order fuel' drain turns s = Some r.
Proof.
  intros Hd Hle. revert s r. induction turns as [|t turns IH]; intros s r; [done|]. cbn [Run].
  destruct (acts order (tn_before t) s) as [es s1]. destruct (Run_iteration order (tn_flush t) s1) as [[|e|] s2]; try done.
  destruct (acts order (tn_waiting t) s2) as [es' s3]. destruct (tn_wakeup t).
  - destruct (finalDrain order fuel drain s3) as [s4|] eqn:Hf; [|done].
    by rewrite (finalDrain_mono _ _ _ _ _ Hd Hle Hf).
  - destruct (Run order fuel drain turns _) as [[[r' es''] s4]|] eqn:Hr; [|done]. by rewrite (IH _ _ Hr).
  - destruct (Run order fuel drain turns _) as [[[r' es''] s4]|] eqn:Hr; [|done]. by rewrite (IH _ _ Hr).
Qed.

Lemma sidecar_main_mono getenv h listening canceled w fuel fuel' drain turns r :
  (∀ i, drain i = db_ok) → (fuel ≤ fuel')%nat →
  sidecar_main order getenv h listening canceled w fuel drain turns = Some r →
  sidecar_main order getenv h listening canceled w fuel' drain turns = Some r.
Proof.
  intros Hd Hle. unfold sidecar_main. destruct (boot getenv h) as [s| |]; [|done..]. destruct (negb listening); [done|].
  destruct (Run order fuel drain turns s) as [x|] eqn:Hr; [|done]. by rewrite (Run_mono _ _ _ _ _ _ Hd Hle Hr).
Qed.

Lemma withDefaults_batch cfg : 0 < BatchSize (withDefaults cfg).
Proof. cbn. dcase; bools; lia. Qed.
End proofs.

(** ** Theorems *)

Section theorems.
Context `{WriterOrder} {U : UpsertEngine} {HU : SimultaneousUpdate U}.
Context (order : list Entry → list Entry) (Horder : ∀ l, order l ≡ₚ l).
Context (floor : Z).

(** A process that is signalled between two turns. *)
Lemma signalled_exit getenv h canceled s es turns t drain :
  boot getenv h = Done s → (srv_capacity s | 2 ^ 64) → server_wf s es →
  MaxPendingRecords (srv_cfg s) = 0 → MaxPendingBytes (srv_cfg s) = 0 →
  Forall (proper_turn floor) (turns ++ [t]) → Forall (λ t, tn_flush t = db_ok) (turns ++ [t]) →
  Forall (λ t, tn_wakeup t ≠ Cancelled) turns → tn_wakeup t = Cancelled → (∀ i, drain i = db_ok) →
  ∃ n, ∀ fuel, (n ≤ fuel)%nat →
    ∃ acks s', sidecar_main order getenv h true canceled MainSignal fuel drain (turns ++ [t])
               = Some (0, acks, Some s') ∧
      server_wf s' [] ∧ srv_pending s' = newPending ∧ srv_capacity s' = srv_capacity s ∧
      (owner_ordered (es ++ acks) → ∀ e, e ∈ es ++ acks → floor ≤ Generation e →
       row_ge (srv_db s') (pk (recordFromEntry e)) (entry_fence e)).
Proof.
  intros Hboot Hdiv Hwf Hrec Hbytes Ht Hok Hw Hc Hdrain. destruct (boot_server _ _ _ Hboot) as [Hp Hcfg].
  assert (0 < BatchSize (srv_cfg s)) as Hb by (rewrite Hcfg; apply withDefaults_batch).
  assert (serving (srv_capacity s) (srv_cfg s) s) as Hs by (split_and!; [done..|by exists es]).
  destruct (Run_cancelled order Horder floor _ _ Hdiv Hb drain turns t s Hrec Hbytes Hs Ht Hok Hw Hc Hdrain) as [n Hn].
  exists n. intros fuel Hf. destruct (Hn fuel Hf) as (acks&s'&Hrun&Hwf'&Hp'). exists acks, s'.
  unfold sidecar_main. rewrite Hboot. cbn [negb]. rewrite Hrun. split_and!; [done..| |].
  { by destruct (run_serving order floor _ _ s es s' (es ++ acks) Hdiv Hs ltac:(by eapply Run_steps)). }
  intros Ho e He Hge. eapply (drained_rows floor); [|done..|exact He|exact Hge].
  eapply inv_steps; [done|by apply inv_start|exact Ho|]. by eapply Run_steps.
Qed.


(** C32: a signal during a flush loses what the flush had drained.  [Run] hands
    its cancellable context to [flushOnce]; when that flush fails, [Run] returns
    its error without the final drain, [main], woken by the signal, ignores the
    error and exits with code 0, and the next process finds the rest of the
    ring, nothing pending and the old table: the entries drained in that turn
    (at least one) are gone. *)
Theorem signal_during_flush_loses getenv h canceled s es fuel drain waiting w turns :
  server_wf s es → 0 < BatchSize (srv_cfg s) → header_ok (srv_capacity s) (srv_ring s) →
  pendingFull s = false → es ≠ [] →
  ∃ err s' k, Run order fuel drain (mkTurn [] (db_fails 0) waiting w :: turns) s = Some (RunFailed err, [], s') ∧
    main_exit canceled MainSignal (RunFailed err) = Some 0 ∧ (0 < k)%nat ∧
    (working_host h (srv_db s') → host_ring h = Some (Some (srv_ring s')) → getenv "MYSQL_DSN" ≠ "" →
     ∃ s2, boot getenv h = Done s2 ∧ server_wf s2 (drop k es) ∧
       srv_pending s2 = newPending ∧ srv_db s2 = srv_db s).
Proof.
  intros Hwf Hb Hh Hfull Hes.
  destruct (drainRing_run s es Hwf Hb) as (k&s1&Hd&_&_&Hk&Hp1&(_&Hdb&_&Hcfg)&Hstop&_).
  assert (0 < k)%nat as Hk0.
  { destruct k; [exfalso|lia]. destruct Hstop as [?|[Hl|Hf]]; [lia|by destruct es|].
    by rewrite (pendingFull_frame s s1 Hp1 Hcfg), Hfull in Hf. }
  assert (p_entries (srv_pending s1) ≠ ∅) as Hne.
  { rewrite Hp1. apply put_all_nonempty. destruct es, k; try done; lia. }
  eexists (ErrFlushMySQL ErrDatabase), s1, k. split_and!; [|done..|].
  - cbn [Run acts tn_before tn_flush]. unfold Run_iteration. erewrite bind_done by exact Hd.
    erewrite bind_done by reflexivity. rewrite (proj2 (Z.ltb_lt 0 (Z.of_nat k))) by lia. cbn [orb].
    rewrite (flushOnce_run order Horder), decide_False by done.
    rewrite flush_batch_run by (by intros ?%(snapshot_nil order Horder)).
    by destruct s1.
  - intros Hhost Hr Hdsn. rewrite <- (Nat2Z.id k). by eapply restart_forgets_pending.
Qed.

(** The final drain stops at a full pending set.  [drainRing] takes nothing
    while the pending set is at a cap, and [finalDrain] reads that as an empty
    ring: after one flush it returns with the ring as it was. *)
Theorem final_drain_stops_at_cap fuel ans s es :
  server_wf s es → 0 < BatchSize (srv_cfg s) → pendingFull s = true → ans fuel = db_ok →
  ∃ s', finalDrain order (S fuel) ans s = Some s' ∧ server_wf s' es ∧
    srv_pending s' = newPending ∧ srv_ring s' = srv_ring s.
Proof.
  intros Hwf Hb Hfull Hans. cbn [finalDrain].
  rewrite (drainRing_full s Hb Hfull), Hans.
  destruct (flushOnce_ok order Horder s es Hwf) as (s2&->&Hwf2&Hp2&_&Hr&_). by exists s2.
Qed.
End theorems.

(** *** Witnesses *)

Definition booted : server :=
  mkServer 4096 (ring_with [e1]) newPending ∅ false (withDefaults (server_config dsn_env)).

Lemma booted_boot : boot dsn_env (restart_host (ring_with [e1])) = Done booted.
Proof. vm_compute. reflexivity. Qed.

Lemma booted_wf : server_wf booted [e1].
Proof.
  destruct (ring_push ring4k 0 0 [] (payload_of e1) ring4k_wf) as [T1 H1];
    [vm_compute; discriminate|vm_compute; reflexivity|].
  split; [|apply newPending_wf|apply empty_table_wf].
  exists 0, T1, [payload_of e1]. split; [exact H1|]. repeat constructor.
Qed.

Definition late_set : turn := mkTurn [ActAppend (payload_of e2)] db_ok [ActRpc CallNotify] Cancelled.


Definition interrupted_flush : option (run_end * list Entry * server) :=
  Run (U := old_row_engine) (λ l, l) 1 (λ _, db_ok) [mkTurn [] (db_fails 0) [] Cancelled] srv0.

Lemma signal_during_flush_loses_witness :
  ∃ err s' k, interrupted_flush = Some (RunFailed err, [], s') ∧
    main_exit (λ _, true) MainSignal (RunFailed err) = Some 0 ∧ (0 < k)%nat ∧
    (working_host (restart_host (srv_ring (drainRing srv0).2)) (srv_db s') →
     host_ring (restart_host (srv_ring (drainRing srv0).2)) = Some (Some (srv_ring s')) →
     dsn_env "MYSQL_DSN" ≠ "" →
     ∃ s2, boot dsn_env (restart_host (srv_ring (drainRing srv0).2)) = Done s2 ∧
       server_wf s2 (drop k [e1; e2]) ∧ srv_pending s2 = newPending ∧ srv_db s2 = ∅).
Proof.
  exact (signal_during_flush_loses (U := old_row_engine) (λ l, l) (λ l, Permutation_refl l) dsn_env
    (restart_host (srv_ring (drainRing srv0).2)) (λ _, true) srv0 [e1; e2] 1 (λ _, db_ok) [] Cancelled []
    srv0_wf eq_refl srv0_header eq_refl ltac:(discriminate)).
Defined.

Definition srv_full : server :=
  set_pending (put e2 (put e1 newPending)) srv0.

Lemma final_drain_stops_at_cap_witness :
  ∃ s', finalDrain (U := old_row_engine) (λ l, l) 1 (λ _, db_ok) srv_full = Some s' ∧
    server_wf s' [e1; e2] ∧ srv_pending s' = newPending ∧ srv_ring s' = srv_ring srv_full.
Proof.
  apply (final_drain_stops_at_cap (U := old_row_engine) (λ l, l) (λ l, Permutation_refl l) 0 (λ _, db_ok)
    srv_full [e1; e2]); [|reflexivity..].
  destruct srv0_wf. split; [done|apply put_wf, put_wf, newPending_wf|done].
Defined.
