(* ===== verification/Messages.v ===== *)
(** * The topology protocol ([api/topology/v1/topology.proto], [topology.pb.go])

    The messages watchdog and nodes exchange.  Enumerations are open in
    protobuf: a field holds any 32-bit integer, the names below are the
    declared values.  Also the clock arithmetic both sides use. *)

From S2P Require Import Prelude Records Json.

(** ** Enumerations *)

Definition NODE_STATE_UNSPECIFIED : Z := 0.
Definition NODE_STATE_JOINING : Z := 1.
Definition NODE_STATE_READY : Z := 2.
Definition NODE_STATE_SUSPECT : Z := 3.
Definition NODE_STATE_UNREACHABLE : Z := 4.
Definition NODE_STATE_DRAINING : Z := 5.
Definition NODE_STATE_LEAVING : Z := 6.
Definition NODE_STATE_REMOVED : Z := 7.

(** [NodeState_name]. *)
Definition NodeState_names : list (Z * string) :=
  [(0, "NODE_STATE_UNSPECIFIED"); (1, "NODE_STATE_JOINING"); (2, "NODE_STATE_READY");
   (3, "NODE_STATE_SUSPECT"); (4, "NODE_STATE_UNREACHABLE"); (5, "NODE_STATE_DRAINING");
   (6, "NODE_STATE_LEAVING"); (7, "NODE_STATE_REMOVED")]%string.

(** [NodeState.String]: the declared name, or the number. *)
Definition NodeState_String (s : Z) : string :=
  match list_find (λ p, p.1 = s) NodeState_names with
  | Some (_, (_, n)) => n
  | None => string_of_bytes (appendInt s)
  end.

(** [NodeState_value]. *)
Definition NodeState_value (n : string) : option Z :=
  (λ p, p.2.1) <$> list_find (λ p, p.2 = n) NodeState_names.

Definition WATCHDOG_ROLE_UNSPECIFIED : Z := 0.
Definition WATCHDOG_ROLE_PRIMARY : Z := 1.
Definition WATCHDOG_ROLE_STANDBY : Z := 2.

Definition TOPOLOGY_REASON_EVENT : Z := 1.
Definition TOPOLOGY_REASON_BOOKWORM : Z := 2.
Definition TOPOLOGY_REASON_PRUNE : Z := 3.
Definition TOPOLOGY_REASON_RECONCILE : Z := 4.
Definition TOPOLOGY_REASON_PRIMARY_CHANGE : Z := 5.

(** ** Messages *)

Record Heartbeat := mkHeartbeat {
  hb_StackId : string;
  hb_NodeId : string;
  hb_PodName : string;
  hb_PodIp : string;
  hb_Incarnation : Z;
  hb_ObservedEpoch : Z;
  hb_State : Z;
  hb_ProtocolVersion : string }.

Record Member := mkMember {
  m_NodeId : string;
  m_PodName : string;
  m_PodIp : string;
  m_Incarnation : Z;
  m_State : Z;
  m_LastSeenUnixMs : Z }.

Record TopologyEnvelope := mkEnvelope {
  env_StackId : string;
  env_Members : list Member;
  env_Epoch : Z;
  env_Reason : Z;
  env_ValidUntilUnixMs : Z;
  env_WatchdogId : string;
  env_WatchdogGeneration : Z;
  env_WatchdogRole : Z }.

(** ** Time *)

(** The zero [time.Time] (January 1, year 1, UTC) and its test. *)
Definition zero_time : Z := -62135596800 * 1000000000.
Definition IsZero (t : Z) : bool := t =? zero_time.

(** [t.Sub(u)] saturates at the range of a [time.Duration]. *)
Definition Sub (t u : Z) : Z := Z.max minInt64 (Z.min maxInt64 (t - u)).

Lemma Sub_gt t u d : minInt64 ≤ d < maxInt64 → (d < Sub t u ↔ d < t - u).
Proof. unfold Sub, minInt64, maxInt64. lia. Qed.
