(* ===== verification/Lease.v ===== *)
(** * The serving lease of a node ([internal/node/subscriber.go])

    [LeaseTracker] and what the topology subscription does to it.  A state of
    the tracker is one of its fields' values under [mu]; the subscription is a
    fold over the envelopes the stream delivers with the clock at delivery. *)

From S2P Require Import Prelude Records Messages.

Inductive lease_err :=
| ErrTopologyLeaseExpired | ErrTopologyNotPrimary | ErrStaleTopologyEpoch
| ErrStaleWatchdogGeneration
| ErrJoin          (** [Joiner.Join] failed *)
| ErrHeartbeatSend (** the heartbeat goroutine reported an error *)
| ErrDial | ErrWatch | ErrRecv (** no connection, no stream, the stream ended *)
| ErrStackIDRequired | ErrNodeIDRequired | ErrPodIPRequired.

(** ** LeaseTracker *)

Record LeaseTracker := mkLease {
  l_generation : Z;
  l_epoch : Z;
  l_validUntilUnixMs : Z }.

Definition NewLeaseTracker : LeaseTracker := mkLease 0 0 0.

Definition Apply (envelope : TopologyEnvelope) (now : Z) : M LeaseTracker lease_err () := λ l,
  if negb (env_WatchdogRole envelope =? WATCHDOG_ROLE_PRIMARY)
  then (Fail ErrTopologyNotPrimary, l) else
  if env_ValidUntilUnixMs envelope <=? UnixMilli now then (Fail ErrTopologyLeaseExpired, l) else
  if env_WatchdogGeneration envelope <? l_generation l
  then (Fail ErrStaleWatchdogGeneration, l) else
  if l_generation l <? env_WatchdogGeneration envelope
  then (Done tt, mkLease (env_WatchdogGeneration envelope) (env_Epoch envelope)
                         (env_ValidUntilUnixMs envelope)) else
  if env_Epoch envelope <? l_epoch l then (Fail ErrStaleTopologyEpoch, l) else
  (Done tt, mkLease (l_generation l) (env_Epoch envelope) (env_ValidUntilUnixMs envelope)).

Definition Revoke (l : LeaseTracker) : LeaseTracker := mkLease (l_generation l) (l_epoch l) 0.

Definition ServingAllowed (now : Z) (l : LeaseTracker) : bool :=
  UnixMilli now <? l_validUntilUnixMs l.

Definition SnapshotForWrite (now : Z) (l : LeaseTracker) : Z * Z * bool :=
  if l_validUntilUnixMs l <=? UnixMilli now then (0, 0, false)
  else (l_generation l, l_epoch l, true).

Definition VerifyFence (generation epoch now : Z) (l : LeaseTracker) : bool :=
  if l_validUntilUnixMs l <=? UnixMilli now then false else
  if negb (l_generation l =? generation) then false else
  if l_epoch l <? epoch then false else true.

(** [WaitExpired]: [None] while it polls, given the ticks and whether the
    context is cancelled after each. *)
Fixpoint WaitExpired (ticks : list (Z * bool)) (l : Z → LeaseTracker) : option bool :=
  match ticks with
  | [] => None
  | (now, cancelled) :: ticks =>
    if negb (ServingAllowed now (l now)) then Some true else
    if cancelled then Some false else WaitExpired ticks l
  end.

Definition shouldRevokeLease (err : lease_err) : bool :=
  match err with
  | ErrTopologyLeaseExpired | ErrTopologyNotPrimary | ErrStaleTopologyEpoch
  | ErrStaleWatchdogGeneration => true
  | _ => false
  end.

(** ** Subscriber *)

Record SubscriberConfig := mkSubCfg {
  sc_StackID : string;
  sc_NodeID : string;
  sc_PodName : string;
  sc_PodIP : string;
  sc_Incarnation : Z;
  sc_ProtocolVersion : string;
  sc_HeartbeatInterval : Z }.

(** [now] is [time.Now()]. *)
Definition Subscriber_withDefaults (now : Z) (c : SubscriberConfig) : SubscriberConfig := {|
  sc_StackID := sc_StackID c; sc_NodeID := sc_NodeID c; sc_PodName := sc_PodName c;
  sc_PodIP := sc_PodIP c;
  sc_Incarnation := if sc_Incarnation c <=? 0 then i64 now else sc_Incarnation c;
  sc_ProtocolVersion := if String.eqb (sc_ProtocolVersion c) "" then "v2"
                        else sc_ProtocolVersion c;
  sc_HeartbeatInterval := if sc_HeartbeatInterval c <=? 0 then 10 * 1000000000
                          else sc_HeartbeatInterval c |}.

Definition NewSubscriber (now : Z) (c : SubscriberConfig) (lease : option LeaseTracker) :
    outcome lease_err (SubscriberConfig * LeaseTracker) :=
  let c := Subscriber_withDefaults now c in
  if String.eqb (sc_StackID c) "" then Fail ErrStackIDRequired else
  if String.eqb (sc_NodeID c) "" then Fail ErrNodeIDRequired else
  if String.eqb (sc_PodIP c) "" then Fail ErrPodIPRequired else
  Done (c, default NewLeaseTracker lease).

Definition sendHeartbeat (c : SubscriberConfig) (observedEpoch : Z) : Heartbeat :=
  mkHeartbeat (sc_StackID c) (sc_NodeID c) (sc_PodName c) (sc_PodIP c) (sc_Incarnation c)
    observedEpoch NODE_STATE_READY (sc_ProtocolVersion c).

(** The state of [Run]: the lease and the epoch the heartbeats report. *)
Record subscription := mkSubscription { sub_lease : LeaseTracker; sub_observed : Z }.

Definition set_lease (l : LeaseTracker) (s : subscription) : subscription :=
  mkSubscription l (sub_observed s).

(** One iteration of the receive loop of [Run] on a received envelope:
    [join_ok] is the answer of the joiner, [hb_failed] whether the heartbeat
    goroutine has reported an error.  [Fail] leaves the loop. *)
Definition receive (envelope : TopologyEnvelope) (now : Z) (join_ok hb_failed : bool) :
    M subscription lease_err () := λ s,
  match Apply envelope now (sub_lease s) with
  | (Done _, l) =>
    let s := mkSubscription l (env_Epoch envelope) in
    if negb join_ok then (Fail ErrJoin, s) else
    if hb_failed then (Fail ErrHeartbeatSend, s) else (Done tt, s)
  | (Fail err, l) =>
    (Fail err, set_lease (if shouldRevokeLease err then Revoke l else l) s)
  | (Panic, l) => (Panic, set_lease l s)
  end.

(** What a stream brings: envelopes (with the clock and the answers [receive]
    takes), ticks of the heartbeat goroutine, its end; and the data plane may
    revoke the lease meanwhile. *)
Inductive stream_event :=
| SeEnvelope (envelope : TopologyEnvelope) (now : Z) (join_ok hb_failed : bool)
| SeTick
| SeRevoke
| SeClosed.

(** The loop of [Run]: the heartbeats sent, why it ended and what it left. *)
Fixpoint Run_loop (c : SubscriberConfig) (evs : list stream_event) (s : subscription) :
    list Heartbeat * lease_err * subscription :=
  match evs with
  | [] | SeClosed :: _ => ([], ErrRecv, s)
  | SeTick :: evs =>
    let '(hbs, err, s') := Run_loop c evs s in (sendHeartbeat c (sub_observed s) :: hbs, err, s')
  | SeRevoke :: evs => Run_loop c evs (set_lease (Revoke (sub_lease s)) s)
  | SeEnvelope env now join_ok hb_failed :: evs =>
    match receive env now join_ok hb_failed s with
    | (Done _, s) => Run_loop c evs s
    | (Fail err, s) => ([], err, s)
    | (Panic, s) => ([], ErrRecv, s)
    end
  end.

(** [Run]: [opened] and [greeted] say whether the stream opens and takes the
    first heartbeat. *)
Definition Subscriber_Run (c : SubscriberConfig) (opened greeted : bool) (evs : list stream_event)
    (l : LeaseTracker) : list Heartbeat * lease_err * LeaseTracker :=
  if negb opened then ([], ErrWatch, l) else
  if negb greeted then ([], ErrHeartbeatSend, l) else
  let '(hbs, err, s) := Run_loop c evs (mkSubscription l 0) in
  (sendHeartbeat c 0 :: hbs, err, sub_lease s).

(** What a node goes through: envelopes arrive, the lease is revoked by the
    data plane, or a new stream is opened (which leaves the lease as it is). *)
Inductive lease_event :=
| EvEnvelope (envelope : TopologyEnvelope) (now : Z) (join_ok hb_failed : bool)
| EvRevoke.

Definition lease_step (s : subscription) (ev : lease_event) : subscription :=
  match ev with
  | EvEnvelope env now join_ok hb_failed => (receive env now join_ok hb_failed s).2
  | EvRevoke => set_lease (Revoke (sub_lease s)) s
  end.

(** ** Lemmas *)

(** The order on (generation, epoch). *)
Definition lease_le (a b : LeaseTracker) : Prop :=
  l_generation a < l_generation b ∨
  (l_generation a = l_generation b ∧ l_epoch a ≤ l_epoch b).

#[export] Instance lease_le_preorder : PreOrder lease_le.
Proof. split; [intros l; right; lia|intros a b c; unfold lease_le; lia]. Qed.

(** What [Apply] accepts. *)
Definition acceptable (env : TopologyEnvelope) (now : Z) (l : LeaseTracker) : Prop :=
  env_WatchdogRole env = WATCHDOG_ROLE_PRIMARY ∧ UnixMilli now < env_ValidUntilUnixMs env ∧
  (l_generation l < env_WatchdogGeneration env ∨
   (l_generation l = env_WatchdogGeneration env ∧ l_epoch l ≤ env_Epoch env)).

Definition accepted (env : TopologyEnvelope) : LeaseTracker :=
  mkLease (env_WatchdogGeneration env) (env_Epoch env) (env_ValidUntilUnixMs env).

Lemma Apply_run env now l :
  (acceptable env now l ∧ Apply env now l = (Done tt, accepted env)) ∨
  (¬ acceptable env now l ∧ ∃ err, Apply env now l = (Fail err, l) ∧ shouldRevokeLease err = true).
Proof.
  unfold Apply, acceptable, accepted.
  destruct (Z.eqb_spec (env_WatchdogRole env) WATCHDOG_ROLE_PRIMARY); cbn [negb];
    [|right; split; [tauto|by eexists]].
  destruct (Z.leb_spec (env_ValidUntilUnixMs env) (UnixMilli now));
    [right; split; [lia|by eexists]|].
  destruct (Z.ltb_spec (env_WatchdogGeneration env) (l_generation l));
    [right; split; [lia|by eexists]|].
  destruct (Z.ltb_spec (l_generation l) (env_WatchdogGeneration env));
    [left; split; [lia|done]|].
  destruct (Z.ltb_spec (env_Epoch env) (l_epoch l)); [right; split; [lia|by eexists]|].
  left. split; [lia|]. do 2 f_equal. lia.
Qed.

Lemma lease_step_run s ev :
  (∃ env now j h, ev = EvEnvelope env now j h ∧ acceptable env now (sub_lease s) ∧
     sub_lease (lease_step s ev) = accepted env) ∨
  sub_lease (lease_step s ev) = Revoke (sub_lease s).
Proof.
  destruct ev as [env now j h|]; [|by right]. unfold lease_step, receive.
  destruct (Apply_run env now (sub_lease s)) as [[Hacc ->]|[_ (err&->&Hrev)]].
  - left. exists env, now, j, h. split_and!; [done..|]. by destruct j, h.
  - right. by rewrite Hrev.
Qed.

Lemma lease_step_le s ev : lease_le (sub_lease s) (sub_lease (lease_step s ev)).
Proof.
  destruct (lease_step_run s ev) as [(env&now&j&h&->&Hacc&->)| ->].
  - destruct Hacc as (_&_&Hle). exact Hle.
  - right. simpl. lia.
Qed.

Lemma lease_steps_le s evs : lease_le (sub_lease s) (sub_lease (foldl lease_step s evs)).
Proof.
  revert s. induction evs as [|ev evs IH]; intros s; [done|]. simpl.
  etrans; [apply lease_step_le|apply IH].
Qed.

(** A stream is a sequence of lease events. *)
Lemma Run_loop_events c evs s :
  ∃ evs', (Run_loop c evs s).2 = foldl lease_step s evs' ∧
    ∀ env t j h, EvEnvelope env t j h ∈ evs' → SeEnvelope env t j h ∈ evs.
Proof.
  revert s. induction evs as [|[env t j h| | |] evs IH]; intros s.
  - exists []. split; [done|]. by intros ???? ?%elem_of_nil.
  - cbn [Run_loop]. destruct (receive env t j h s) as [[[]|err|] s'] eqn:Hr.
    + destruct (IH s') as (evs'&->&Hin). exists (EvEnvelope env t j h :: evs'). cbn [foldl lease_step].
      rewrite Hr. split; [done|]. intros ???? [?|?%Hin]%elem_of_cons; [simplify_eq; left|by right].
    + exists [EvEnvelope env t j h]. cbn [foldl lease_step]. rewrite Hr. split; [done|].
      intros ???? ?%list_elem_of_singleton. simplify_eq. left.
    + exists [EvEnvelope env t j h]. cbn [foldl lease_step]. rewrite Hr. split; [done|].
      intros ???? ?%list_elem_of_singleton. simplify_eq. left.
  - cbn [Run_loop]. destruct (IH s) as (evs'&He&Hin). exists evs'.
    destruct (Run_loop c evs s) as [[hbs err] s']. split; [done|]. intros. right. by eapply Hin.
  - cbn [Run_loop]. destruct (IH (set_lease (Revoke (sub_lease s)) s)) as (evs'&He&Hin).
    exists (EvRevoke :: evs'). split; [done|]. intros ???? [?|?%Hin]%elem_of_cons; [done|by right].
  - exists []. split; [done|]. by intros ???? ?%elem_of_nil.
Qed.

Lemma serving_after_revoke now l : 0 ≤ now → ServingAllowed now (Revoke l) = false.
Proof.
  intros Hn. apply Z.ltb_ge. simpl. unfold UnixMilli. apply Z.div_pos; lia.
Qed.

(** What a serving lease comes from. *)
Lemma serving_origin s evs t :
  0 ≤ t → ServingAllowed t (sub_lease (foldl lease_step s evs)) = true →
  sub_lease (foldl lease_step s evs) = sub_lease s ∨
  ∃ env t0 j h, EvEnvelope env t0 j h ∈ evs ∧ env_WatchdogRole env = WATCHDOG_ROLE_PRIMARY ∧
    UnixMilli t < env_ValidUntilUnixMs env ∧ sub_lease (foldl lease_step s evs) = accepted env.
Proof.
  intros Ht. destruct evs as [|ev evs _] using rev_ind; [by left|]. rewrite foldl_app. cbn [foldl].
  destruct (lease_step_run (foldl lease_step s evs) ev) as [(env&t0&j&h&->&Hacc&->)| ->]; intros Hs.
  - right. exists env, t0, j, h. unfold ServingAllowed in Hs. simpl in Hs. bools.
    destruct Hacc. split_and!; [set_solver|done..].
  - by rewrite serving_after_revoke in Hs.
Qed.

(** ** Theorems *)

(** The fence a node stamps with never goes back.  Over any sequence of
    envelopes (from any watchdog, in any order, duplicated or delayed) and
    revocations, the pair (generation, epoch) only grows in lexicographic
    order. *)
Theorem fence_monotone s evs : lease_le (sub_lease s) (sub_lease (foldl lease_step s evs)).
Proof. apply lease_steps_le. Qed.

(** A node serves only under a live lease of a primary.  After any history,
    [ServingAllowed] and [SnapshotForWrite] say yes only when the last event
    was an envelope that was accepted: sent by a primary, valid beyond its
    delivery and beyond now, and not older than anything accepted before; the
    fence handed out is the one of that envelope. *)
Theorem serving_needs_live_primary evs ev s now :
  0 ≤ now → let l := sub_lease (foldl lease_step s (evs ++ [ev])) in
  ServingAllowed now l = true →
  ∃ env t j h, ev = EvEnvelope env t j h ∧
    acceptable env t (sub_lease (foldl lease_step s evs)) ∧
    UnixMilli now < env_ValidUntilUnixMs env ∧
    SnapshotForWrite now l = (env_WatchdogGeneration env, env_Epoch env, true).
Proof.
  intros Hn. cbv zeta. rewrite foldl_app. cbn [foldl]. intros Hs.
  destruct (lease_step_run (foldl lease_step s evs) ev) as [(env&t&j&h&->&Hacc&Hl)|Hl];
    rewrite Hl in Hs |- *.
  - exists env, t, j, h. unfold ServingAllowed in Hs. simpl in Hs. bools.
    split_and!; [done..|]. unfold SnapshotForWrite. simpl.
    by rewrite (proj2 (Z.leb_gt _ _)) by lia.
  - by rewrite serving_after_revoke in Hs.
Qed.

(** A deposed primary cannot get its lease back.  Once an envelope of
    generation [g] was accepted, an envelope of a smaller generation is
    rejected and revokes the lease, whatever happened in between. *)
Theorem deposed_primary_is_rejected s evs env now j h t :
  env_WatchdogGeneration env < l_generation (sub_lease s) → 0 ≤ t →
  let s' := foldl lease_step s evs in
  (∃ err, receive env now j h s' = (Fail err, set_lease (Revoke (sub_lease s')) s')) ∧
  ServingAllowed t (sub_lease (receive env now j h s').2) = false.
Proof.
  intros Hg Ht. cbv zeta. pose proof (lease_steps_le s evs) as Hle.
  set (s' := foldl lease_step s evs) in *.
  destruct (Apply_run env now (sub_lease s')) as [[(_&_&Hacc) _]|[_ (err&Hr&Hrev)]].
  { unfold lease_le in Hle. lia. }
  assert (receive env now j h s' = (Fail err, set_lease (Revoke (sub_lease s')) s')) as ->.
  { unfold receive. by rewrite Hr, Hrev. }
  split; [by exists err|]. simpl. by apply serving_after_revoke.
Qed.

(** The in-lock check is as strong as it claims.  When a fence was handed
    out by [SnapshotForWrite] and [VerifyFence] accepts it after any further
    events, the lease is live at that moment, the generation has not changed
    and the epoch has not gone back. *)
Theorem verify_fence_sound s evs t0 t g e :
  SnapshotForWrite t0 (sub_lease s) = (g, e, true) →
  VerifyFence g e t (sub_lease (foldl lease_step s evs)) = true →
  let l := sub_lease (foldl lease_step s evs) in
  l_generation l = l_generation (sub_lease s) ∧ e ≤ l_epoch l ∧ ServingAllowed t l = true.
Proof.
  unfold SnapshotForWrite, VerifyFence, ServingAllowed. dcase; [done|]. intros [= <- <-].
  repeat (dcase; [done|]). intros _. bools. split_and!; [done..|]. by apply Z.ltb_lt.
Qed.

(** *** Witnesses *)

Definition env_g1 : TopologyEnvelope := mkEnvelope "s" [] 4 1 1000 "w1" 1 WATCHDOG_ROLE_PRIMARY.
Definition env_g2 : TopologyEnvelope := mkEnvelope "s" [] 0 1 1000 "w2" 2 WATCHDOG_ROLE_PRIMARY.
Definition fresh_node : subscription := mkSubscription NewLeaseTracker 0.

Lemma serving_needs_live_primary_witness :
  ∃ env t j h, EvEnvelope env_g2 0 true false = EvEnvelope env t j h ∧
    acceptable env t (sub_lease (foldl lease_step fresh_node [EvEnvelope env_g1 0 true false])) ∧
    UnixMilli 5 < env_ValidUntilUnixMs env ∧
    SnapshotForWrite 5 (sub_lease (foldl lease_step fresh_node
      ([EvEnvelope env_g1 0 true false] ++ [EvEnvelope env_g2 0 true false])))
    = (env_WatchdogGeneration env, env_Epoch env, true).
Proof.
  apply (serving_needs_live_primary [EvEnvelope env_g1 0 true false]
    (EvEnvelope env_g2 0 true false) fresh_node 5); [lia|reflexivity].
Defined.

Lemma deposed_primary_is_rejected_witness :
  let s' := foldl lease_step (mkSubscription (accepted env_g2) 0) [EvRevoke] in
  (∃ err, receive env_g1 0 true false s' = (Fail err, set_lease (Revoke (sub_lease s')) s')) ∧
  ServingAllowed 5 (sub_lease (receive env_g1 0 true false s').2) = false.
Proof.
  apply (deposed_primary_is_rejected (mkSubscription (accepted env_g2) 0) [EvRevoke] env_g1 0 true
    false 5); [reflexivity|lia].
Defined.

Lemma verify_fence_sound_witness :
  let l := sub_lease (foldl lease_step (mkSubscription (accepted env_g2) 0)
             [EvEnvelope env_g2 7 true false]) in
  l_generation l = 2 ∧ 0 ≤ l_epoch l ∧ ServingAllowed 9 l = true.
Proof.
  apply (verify_fence_sound (mkSubscription (accepted env_g2) 0)
    [EvEnvelope env_g2 7 true false] 0 9 2 0); reflexivity.
Defined.
