(* ===== verification/Engine.v ===== *)
(** * The in-memory storage engine of a node ([internal/olricstore])

    [Entry] with its binary encoding ([entry.go]) and [Engine] ([engine.go]):
    a map from 64-bit hashes to entries that the fork of Olric drives through
    the storage interface.  The engine clones entries on the way in and out,
    so values never alias; msgpack, which packs a transfer, is not code of
    this repository and is the parameter [Msgpack]. *)

From S2P Require Import Prelude.

(** ** Entry *)

Record StorageEntry := mkSE {
  se_key : string;
  se_value : list byte;
  se_ttl : Z;
  se_timestamp : Z;
  se_lastAccess : Z }.

Definition zero_se : StorageEntry := mkSE "" [] 0 0 0.

Definition SE_Encode (e : StorageEntry) : list byte :=
  byte_of_Z (slen (se_key e)) :: bytes_of_string (se_key e)
  ++ be_bytes 8 (u64 (se_ttl e)) ++ be_bytes 8 (u64 (se_timestamp e))
  ++ be_bytes 8 (u64 (se_lastAccess e)) ++ be_bytes 4 (u32 (zlen (se_value e))) ++ se_value e.

(** [binary.BigEndian.Uint64(buf[offset:])] and [Uint32]: they panic when the
    slice has fewer bytes. *)
Definition read_be (n : Z) (offset : Z) (buf : list byte) : outcome () Z :=
  if in_bounds offset (offset + n) buf then Done (be_val (slice offset n buf)) else Panic.

(** [Decode]; [spare] are the bytes between the length and the capacity of the
    buffer, which Go allows the expressions [buf[a:b]] to reach. *)
Definition SE_Decode (spare buf : list byte) : outcome () StorageEntry :=
  match buf with
  | [] => Panic
  | b :: _ =>
    let keyLen := Z_of_byte b in
    if negb (in_bounds 1 (1 + keyLen) (buf ++ spare)) then Panic else
    let key := string_of_bytes (slice 1 keyLen (buf ++ spare)) in
    let offset := 1 + keyLen in
    match read_be 8 offset buf, read_be 8 (offset + 8) buf, read_be 8 (offset + 16) buf,
          read_be 4 (offset + 24) buf with
    | Done ttl, Done timestamp, Done lastAccess, Done valueLen =>
      let offset := offset + 28 in
      if negb (in_bounds offset (offset + valueLen) (buf ++ spare)) then Panic else
      Done (mkSE key (slice offset valueLen (buf ++ spare)) (i64 ttl) (i64 timestamp)
                 (i64 lastAccess))
    | _, _, _, _ => Panic
    end
  end.

(** ** Engine *)

Definition engine : Type := gmap Z StorageEntry.

Inductive engine_err := ErrKeyNotFound | ErrCallback | ErrMsgpack | ErrNotPositioned | ErrPattern.

Definition cloneEntry (e : StorageEntry) : StorageEntry :=
  mkSE (se_key e) (se_value e) (se_ttl e) (se_timestamp e) (se_lastAccess e).

(** *** Making an engine *)

Definition New : gmap Z StorageEntry := ∅.

(** [None] is the nil map of an [Engine] literal. *)
Definition Engine_Start (entries : option (gmap Z StorageEntry)) : gmap Z StorageEntry := default ∅ entries.

Definition Engine_NewEntry : StorageEntry := zero_se.
Definition Engine_Name : string := "olricstack-shm-engine".

(** The engine of another fragment shares the logger only. *)
Definition Engine_Fork : M (gmap Z StorageEntry) engine_err (gmap Z StorageEntry) := mret ∅.

Definition Engine_Compaction : M (gmap Z StorageEntry) engine_err bool := mret false.
Definition Engine_Close : M (gmap Z StorageEntry) engine_err () := mret ().

(** *** Operations on one key *)

Definition Engine_Put (hkey : Z) (entry : StorageEntry) : M (gmap Z StorageEntry) engine_err () := λ e,
  (Done tt, <[hkey := cloneEntry entry]> e).

Definition Engine_PutRaw (hkey : Z) (raw : list byte) : M (gmap Z StorageEntry) engine_err () := λ e,
  match SE_Decode [] raw with
  | Done entry => Engine_Put hkey entry e
  | _ => (Panic, e)
  end.

Definition Engine_Get (hkey : Z) : M (gmap Z StorageEntry) engine_err StorageEntry := λ e,
  match e !! hkey with
  | Some entry => (Done (cloneEntry entry), e)
  | None => (Fail ErrKeyNotFound, e)
  end.

Definition Engine_GetRaw (hkey : Z) : M (gmap Z StorageEntry) engine_err (list byte) :=
  entry ← Engine_Get hkey; mret (SE_Encode entry).

Definition Engine_GetTTL (hkey : Z) : M (gmap Z StorageEntry) engine_err Z :=
  entry ← Engine_Get hkey; mret (se_ttl entry).

Definition Engine_GetLastAccess (hkey : Z) : M (gmap Z StorageEntry) engine_err Z :=
  entry ← Engine_Get hkey; mret (se_lastAccess entry).

Definition Engine_GetKey (hkey : Z) : M (gmap Z StorageEntry) engine_err string :=
  entry ← Engine_Get hkey; mret (se_key entry).

Definition Engine_Delete (hkey : Z) : M (gmap Z StorageEntry) engine_err () := λ e,
  (Done tt, delete hkey e).

Definition Engine_UpdateTTL (hkey : Z) (entry : StorageEntry) :
    M (gmap Z StorageEntry) engine_err () := λ e,
  match e !! hkey with
  | None => (Fail ErrKeyNotFound, e)
  | Some current =>
    (Done tt, <[hkey := cloneEntry (mkSE (se_key current) (se_value current) (se_ttl entry)
                                     (se_timestamp entry) (se_lastAccess entry))]> e)
  end.

Definition Engine_Check (hkey : Z) (e : gmap Z StorageEntry) : bool := bool_decide (is_Some (e !! hkey)).

(** [Stats.Inuse] and [Stats.Length]. *)
Definition Engine_Stats (e : gmap Z StorageEntry) : Z * Z :=
  (map_fold (λ _ entry acc, i64 (acc + (slen (se_key entry) + zlen (se_value entry) + 32))) 0 e,
   Z.of_nat (size e)).

Definition Engine_Destroy : M (gmap Z StorageEntry) engine_err () := λ _, (Done tt, ∅).

Definition by_hash (a b : Z * StorageEntry) : Prop := a.1 ≤ b.1.
#[export] Instance by_hash_dec a b : Decision (by_hash a b).
Proof. unfold by_hash. apply _. Defined.

(** The entries with [hkey >= cursor], sorted by hash. *)
Definition items_from (cursor : Z) (e : gmap Z StorageEntry) : list (Z * StorageEntry) :=
  merge_sort by_hash (filter (λ '(h, _), cursor ≤ h) (map_to_list e)).

(** The emitting loop of [scan]: [emit] is the callback with its own state,
    [re] the compiled pattern when there is one. *)
Fixpoint scan_loop {S} (emit : S → StorageEntry → S * bool) (re : option (string → bool))
    (count emitted : Z) (items : list (Z * StorageEntry)) (s : S) : S * Z :=
  match items with
  | [] => (s, 0)
  | (hkey, entry) :: rest =>
    if match re with Some m => negb (m (se_key entry)) | None => false end
    then scan_loop emit re count emitted rest s else
    let '(s, more) := emit s (cloneEntry entry) in
    if negb more then (s, hkey) else
    if count <=? emitted + 1 then
      (s, match rest with (next, _) :: _ => next | [] => 0 end)
    else scan_loop emit re count (emitted + 1) rest s
  end.

Definition Engine_scan {S} (cursor count : Z) (re : option (string → bool))
    (emit : S → StorageEntry → S * bool) (e : gmap Z StorageEntry) (s : S) : S * Z :=
  let items := items_from cursor e in
  let count := if count <=? 0 then zlen items else count in
  scan_loop emit re count 0 items s.

Definition Engine_Scan {S} (cursor count : Z) (emit : S → StorageEntry → S * bool)
    (e : gmap Z StorageEntry) (s : S) : S * Z :=
  Engine_scan cursor count None emit e s.

(** [compile] is [regexp.Compile]. *)
Definition Engine_ScanRegexMatch {S} (compile : string → option (string → bool)) (cursor : Z) (pattern : string)
    (count : Z) (emit : S → StorageEntry → S * bool) (e : gmap Z StorageEntry) (s : S) : outcome engine_err (S * Z) :=
  match compile pattern with
  | None => Fail ErrPattern
  | Some re => Done (Engine_scan cursor count (Some re) emit e s)
  end.

(** [Range] visits a copy of the map in the [order] of Go's map iteration,
    until the callback [f] returns false. *)
Fixpoint range_loop {S} (f : S → Z → StorageEntry → S * bool) (items : list (Z * StorageEntry)) (s : S) : S :=
  match items with
  | [] => s
  | (hkey, entry) :: items => let '(s, more) := f s hkey entry in if more then range_loop f items s else s
  end.

Definition Engine_Range {S} (order : list (Z * StorageEntry) → list (Z * StorageEntry))
    (f : S → Z → StorageEntry → S * bool) (e : gmap Z StorageEntry) (s : S) : S :=
  range_loop f (order (prod_map id cloneEntry <$> map_to_list e)) s.

Definition Engine_RangeHKey {S} (order : list (Z * StorageEntry) → list (Z * StorageEntry))
    (f : S → Z → S * bool) (e : gmap Z StorageEntry) (s : S) : S :=
  Engine_Range order (λ s hkey _, f s hkey) e s.

(** *** Transfer of a fragment *)

Record transferItem := mkItem { ti_HKey : Z; ti_Raw : list byte }.

(** What the engine relies on of msgpack: what was marshalled unmarshals. *)
Class Msgpack := {
  msgpack_marshal : list transferItem → list byte;
  msgpack_unmarshal : list byte → option (list transferItem);
  msgpack_round_trip : ∀ items, msgpack_unmarshal (msgpack_marshal items) = Some items }.

Record transferIterator := mkIter { it_items : list transferItem; it_next : bool }.

Definition TransferIterator (e : gmap Z StorageEntry) : transferIterator :=
  mkIter ((λ '(hkey, entry), mkItem hkey (SE_Encode entry)) <$>
          merge_sort by_hash (map_to_list e)) false.

Definition it_Next (i : transferIterator) : bool * transferIterator :=
  if it_next i || match it_items i with [] => true | _ => false end
  then (false, i) else (true, mkIter (it_items i) true).

Definition it_Export `{Msgpack} (i : transferIterator) : outcome engine_err (list byte) :=
  if negb (it_next i) then Fail ErrNotPositioned else Done (msgpack_marshal (it_items i)).

Definition it_Drop (i : transferIterator) (e : gmap Z StorageEntry) : gmap Z StorageEntry :=
  foldl (λ e item, delete (ti_HKey item) e) e (it_items i).

(** [Import] on a receiver with state [S]; [f] is the fork's callback. *)
Fixpoint import_items {S} (f : Z → StorageEntry → M S engine_err ()) (items : list transferItem) :
    M S engine_err () :=
  match items with
  | [] => mret tt
  | item :: items =>
    match SE_Decode [] (ti_Raw item) with
    | Done entry => f (ti_HKey item) entry;; import_items f items
    | _ => panic
    end
  end.

Definition Engine_Import `{Msgpack} {S} (data : list byte) (f : Z → StorageEntry → M S engine_err ()) :
    M S engine_err () :=
  match msgpack_unmarshal data with
  | None => fail ErrMsgpack
  | Some items => import_items f items
  end.

(** ** Lemmas on the encoding *)

(** Values of their Go types, and a key and a value the encoding can frame. *)
Definition se_typed (e : StorageEntry) : Prop :=
  minInt64 ≤ se_ttl e ≤ maxInt64 ∧ minInt64 ≤ se_timestamp e ≤ maxInt64 ∧
  minInt64 ≤ se_lastAccess e ≤ maxInt64 ∧ zlen (se_value e) < 2 ^ 32.

Lemma slice_app_exact {A} (l1 l2 l3 : list A) off n :
  off = zlen l1 → n = zlen l2 → slice off n (l1 ++ l2 ++ l3) = l2.
Proof.
  intros -> ->. unfold slice, zlen. rewrite !Nat2Z.id, drop_app_length. by rewrite take_app_length.
Qed.

Lemma read_be_app n m F z l1 l3 off :
  F = be_bytes n z → m = Z.of_nat n → off = zlen l1 →
  read_be m off (l1 ++ F ++ l3) = Done (z mod 256 ^ Z.of_nat n).
Proof.
  intros -> -> ->. unfold read_be. pose proof (zlen_nonneg l1). pose proof (zlen_nonneg l3).
  rewrite in_bounds_true by zl.
  by rewrite slice_app_exact, be_val_be_bytes by (done || by rewrite zlen_be_bytes).
Qed.

Lemma i64_of_u64 z : minInt64 ≤ z ≤ maxInt64 → i64 (u64 z mod 256 ^ Z.of_nat 8) = z.
Proof.
  intros Hz. change (256 ^ Z.of_nat 8) with (2 ^ 64).
  rewrite Z.mod_small by apply u64_range. rewrite i64_u64. by apply i64_small.
Qed.

Lemma SE_round_trip spare e :
  se_typed e → slen (se_key e) < 256 → SE_Decode spare (SE_Encode e) = Done e.
Proof.
  intros (Ht&Hs&Hl&Hv) Hk. destruct e as [key value ttl ts la].
  cbn [se_key se_value se_ttl se_timestamp se_lastAccess] in *.
  unfold SE_Encode, SE_Decode. cbn [se_key se_value se_ttl se_timestamp se_lastAccess].
  set (k := byte_of_Z (slen key)). set (kb := bytes_of_string key).
  assert (0 ≤ slen key) as Hk0 by (unfold slen; lia).
  assert (Z_of_byte k = slen key) as Hkl.
  { subst k. rewrite Z_of_byte_of_Z. by apply Z.mod_small. }
  assert (zlen kb = slen key) as Hkb by apply zlen_bytes_of_string.
  pose proof (zlen_nonneg value) as Hv0. pose proof (zlen_nonneg spare) as Hsp.
  set (A := be_bytes 8 (u64 ttl)). set (B := be_bytes 8 (u64 ts)). set (C := be_bytes 8 (u64 la)).
  set (D := be_bytes 4 (u32 (zlen value))).
  assert (zlen A = 8 ∧ zlen B = 8 ∧ zlen C = 8 ∧ zlen D = 4) as (HA&HB&HC&HD)
    by (unfold A, B, C, D; by rewrite !zlen_be_bytes).
  rewrite !Hkl. rewrite in_bounds_true by zl. change (negb true) with false. cbv iota.
  replace (slice 1 (slen key) ((k :: kb ++ A ++ B ++ C ++ D ++ value) ++ spare)) with kb.
  2: { symmetry. cbn [app]. rewrite <- app_assoc.
       apply (slice_app_exact [k] kb); [done|by rewrite Hkb]. }
  change (k :: kb ++ A ++ B ++ C ++ D ++ value) with ((k :: kb) ++ A ++ B ++ C ++ D ++ value).
  rewrite (read_be_app 8 8 A (u64 ttl) (k :: kb)) by (done || zl).
  replace ((k :: kb) ++ A ++ B ++ C ++ D ++ value) with
    (((k :: kb) ++ A) ++ B ++ C ++ D ++ value) by (by rewrite <- !app_assoc).
  rewrite (read_be_app 8 8 B (u64 ts) ((k :: kb) ++ A)) by (done || zl).
  replace (((k :: kb) ++ A) ++ B ++ C ++ D ++ value) with
    (((k :: kb) ++ A ++ B) ++ C ++ D ++ value) by (by rewrite <- !app_assoc).
  rewrite (read_be_app 8 8 C (u64 la) ((k :: kb) ++ A ++ B)) by (done || zl).
  replace (((k :: kb) ++ A ++ B) ++ C ++ D ++ value) with
    (((k :: kb) ++ A ++ B ++ C) ++ D ++ value) by (by rewrite <- !app_assoc).
  rewrite (read_be_app 4 4 D (u32 (zlen value)) ((k :: kb) ++ A ++ B ++ C)) by (done || zl).
  replace (u32 (zlen value) mod 256 ^ Z.of_nat 4) with (zlen value).
  2: { change (256 ^ Z.of_nat 4) with (2 ^ 32). rewrite u32_small by lia. symmetry.
       apply Z.mod_small. lia. }
  rewrite !i64_of_u64 by done. rewrite in_bounds_true by zl. change (negb true) with false. cbv iota.
  match goal with |- context [slice ?o ?n ?l] => replace (slice o n l) with value end.
  - unfold kb. by rewrite string_bytes.
  - symmetry.
    rewrite <- (slice_app_exact ((k :: kb) ++ A ++ B ++ C ++ D) value spare
      (1 + slen key + 28) (zlen value)) at 3 by zl.
    f_equal. by rewrite <- !app_assoc.
Qed.

(** The key of a decoded entry is at most 255 bytes long. *)
Lemma SE_Decode_key spare buf e : SE_Decode spare buf = Done e → slen (se_key e) < 256.
Proof.
  unfold SE_Decode. destruct buf as [|b buf]; [done|].
  destruct (in_bounds 1 _ _) eqn:Hb; [|done]. cbn [negb].
  destruct (read_be 8 _ _); try done. destruct (read_be 8 _ _); try done.
  destruct (read_be 8 _ _); try done. destruct (read_be 4 _ _); try done.
  dcase; [done|]. intros [= <-]. cbn [se_key].
  rewrite <- zlen_bytes_of_string, bytes_string.
  unfold in_bounds in Hb. bools. pose proof (Z_of_byte_range b).
  cbn [app] in *. rewrite zlen_slice by lia. lia.
Qed.

(** ** Lemmas on sorted items *)

Definition sorted_items (e : gmap Z StorageEntry) : list (Z * StorageEntry) :=
  merge_sort by_hash (map_to_list e).

#[export] Instance by_hash_trans : Transitive by_hash.
Proof. intros a b c. unfold by_hash. lia. Qed.
#[export] Instance by_hash_total : Total by_hash.
Proof. intros a b. unfold by_hash. lia. Qed.

Lemma sorted_items_perm e : sorted_items e ≡ₚ map_to_list e.
Proof. apply merge_sort_Permutation. Qed.

Lemma sorted_items_nodup e : NoDup (sorted_items e).*1.
Proof. rewrite sorted_items_perm. apply NoDup_fst_map_to_list. Qed.

Lemma sorted_items_sorted e : StronglySorted by_hash (sorted_items e).
Proof. apply (StronglySorted_merge_sort by_hash). Qed.

Lemma filter_sorted (P : Z * StorageEntry → Prop) `{∀ x, Decision (P x)} l :
  StronglySorted by_hash l → StronglySorted by_hash (filter P l).
Proof.
  induction 1 as [|x l Hs IH Hall]; [constructor|]. rewrite filter_cons. case_decide; [|done].
  constructor; [done|]. rewrite Forall_forall in *. intros y [_ Hy]%list_elem_of_filter. auto.
Qed.

(** Sorting the selected entries selects from the sorted entries. *)
Lemma items_from_filter c e : items_from c e = filter (λ '(h, _), c ≤ h) (sorted_items e).
Proof.
  apply (StronglySorted_unique_strong by_hash).
  - intros [h x] [h' x'] Hx Hx' H1 H2. unfold by_hash in *. simpl in *. assert (h = h') as -> by lia.
    unfold items_from in Hx. rewrite merge_sort_Permutation in Hx.
    apply list_elem_of_filter in Hx as [_ Hx%elem_of_map_to_list].
    apply list_elem_of_filter in Hx' as [_ Hx']. rewrite sorted_items_perm in Hx'.
    apply elem_of_map_to_list in Hx'. congruence.
  - apply (StronglySorted_merge_sort by_hash).
  - apply filter_sorted, sorted_items_sorted.
  - unfold items_from. rewrite merge_sort_Permutation. by rewrite sorted_items_perm.
Qed.

(** From the hash of an entry on, the entries are the rest of the list. *)
Lemma items_from_suffix e l1 h x l2 :
  sorted_items e = l1 ++ (h, x) :: l2 → items_from h e = (h, x) :: l2.
Proof.
  intros He. rewrite items_from_filter, He, filter_app.
  pose proof (sorted_items_sorted e) as Hs. pose proof (sorted_items_nodup e) as Hn.
  rewrite He in Hs, Hn. rewrite fmap_app in Hn. apply NoDup_app in Hn as (_&Hdis&_).
  assert (filter (λ '(h', _), h ≤ h') l1 = []) as ->.
  { destruct (filter _ l1) as [|[h' x'] l'] eqn:Hf; [done|exfalso].
    assert ((h', x') ∈ filter (λ '(h', _), h ≤ h') l1) as Hin by (rewrite Hf; by left).
    apply list_elem_of_filter in Hin as [Hle Hin].
    assert (h' = h) as ->.
    { clear -Hs Hin Hle. induction l1 as [|y l1 IH]; [by apply elem_of_nil in Hin|].
      simpl in Hs. apply StronglySorted_inv in Hs as [Hs Hall].
      apply elem_of_cons in Hin as [<-|Hin]; [|auto].
      rewrite Forall_forall in Hall. specialize (Hall (h, x)).
      unfold by_hash in Hall. simpl in Hall. specialize (Hall ltac:(apply elem_of_app; right; by left)).
      lia. }
    apply (Hdis h); [by apply (list_elem_of_fmap_2 fst l1 (h, x'))|by left]. }
  simpl. rewrite filter_cons_True by done. f_equal.
  assert (StronglySorted by_hash ((h, x) :: l2)) as Hs2 by (by apply StronglySorted_app_1_r in Hs).
  apply StronglySorted_inv in Hs2 as [_ Hall]. clear -Hall.
  induction Hall as [|[h' x'] l2 Hh _ IH]; [done|]. by rewrite filter_cons_True, IH by done.
Qed.

(** *** Scanning in pages *)

Definition collect (acc : list StorageEntry) (x : StorageEntry) : list StorageEntry * bool :=
  (acc ++ [x], true).

(** A client that scans until the cursor comes back as 0. *)
Fixpoint scan_pages (fuel : nat) (cursor count : Z) (e : gmap Z StorageEntry)
    (acc : list StorageEntry) : option (list StorageEntry) :=
  match fuel with
  | O => None
  | S fuel =>
    let '(acc, cursor) := Engine_scan cursor count None collect e acc in
    if cursor =? 0 then Some acc else scan_pages fuel cursor count e acc
  end.

Lemma cloneEntry_id x : cloneEntry x = x.
Proof. by destruct x. Qed.

Lemma scan_loop_collect count emitted items acc :
  0 ≤ emitted < count →
  scan_loop collect None count emitted items acc =
  (acc ++ take (Z.to_nat (count - emitted)) items.*2,
   match drop (Z.to_nat (count - emitted)) items with (next, _) :: _ => next | [] => 0 end).
Proof.
  revert emitted acc. induction items as [|[h x] items IH]; intros emitted acc Hc.
  { simpl. by rewrite take_nil, drop_nil, app_nil_r. }
  cbn [scan_loop]. unfold collect at 1. cbn [negb]. rewrite cloneEntry_id.
  destruct (Z.leb_spec count (emitted + 1)).
  - replace (count - emitted) with 1 by lia. simpl. by rewrite drop_0.
  - rewrite IH by lia. replace (Z.to_nat (count - emitted)) with (S (Z.to_nat (count - (emitted + 1)))) by lia.
    simpl. by rewrite <- app_assoc.
Qed.

(** Hashes after the first one are positive, so never the end-of-scan cursor. *)
Lemma later_hash_pos e l1 p l2 h x :
  (∀ h x, e !! h = Some x → 0 ≤ h) → sorted_items e = l1 ++ p :: l2 → (h, x) ∈ l2 → 0 < h.
Proof.
  intros Hpos Hall Hx. destruct p as [h0 x0].
  pose proof (sorted_items_sorted e) as Hs. pose proof (sorted_items_nodup e) as Hnd.
  rewrite Hall in Hs, Hnd. apply StronglySorted_app_1_r, StronglySorted_inv in Hs as [_ Hs].
  rewrite Forall_forall in Hs. specialize (Hs _ Hx). unfold by_hash in Hs. simpl in Hs.
  assert (0 ≤ h0).
  { apply (Hpos h0 x0), elem_of_map_to_list. rewrite <- sorted_items_perm, Hall.
    apply elem_of_app. right. by left. }
  assert (h ≠ h0); [|lia]. intros ->.
  rewrite fmap_app in Hnd. apply NoDup_app in Hnd as (_&_&Hnd). simpl in Hnd.
  apply NoDup_cons in Hnd as [Hnin _]. apply Hnin. by apply (list_elem_of_fmap_2 fst l2 (h0, x)).
Qed.

Lemma scan_pages_from fuel count e l1 l2 cursor acc :
  (∀ h x, e !! h = Some x → 0 ≤ h) → 0 < count →
  sorted_items e = l1 ++ l2 → items_from cursor e = l2 → (length l2 < fuel)%nat →
  scan_pages fuel cursor count e acc = Some (acc ++ l2.*2).
Proof.
  intros Hpos Hc. revert l1 l2 cursor acc. induction fuel as [|fuel IH];
    intros l1 l2 cursor acc Hall Hfrom Hfuel; [lia|].
  cbn [scan_pages]. unfold Engine_scan. rewrite Hfrom, (proj2 (Z.leb_gt _ _)) by done.
  rewrite scan_loop_collect, Z.sub_0_r by lia. set (n := Z.to_nat count).
  destruct (drop n l2) as [|[h x] rest] eqn:Hd.
  - change (0 =? 0) with true. cbv iota. do 2 f_equal. apply take_ge. rewrite length_fmap.
    apply (f_equal length) in Hd. rewrite length_drop in Hd. simpl in Hd. lia.
  - assert (sorted_items e = (l1 ++ take n l2) ++ (h, x) :: rest) as Hall'.
    { rewrite Hall, <- app_assoc, <- Hd, take_drop. done. }
    assert (0 < h) as Hh.
    { destruct l2 as [|p l2]; [by rewrite drop_nil in Hd|].
      apply (later_hash_pos e l1 p l2 h x Hpos Hall).
      assert (n = S (n - 1)) as Hn by lia. rewrite Hn in Hd. simpl in Hd.
      rewrite <- (take_drop (n - 1) l2), Hd. apply elem_of_app. right. by left. }
    rewrite (proj2 (Z.eqb_neq _ _)) by lia.
    rewrite (IH (l1 ++ take n l2) ((h, x) :: rest)); [|done|by eapply items_from_suffix|].
    + rewrite <- Hd, <- app_assoc, <- fmap_take, <- fmap_app, take_drop. done.
    + apply (f_equal length) in Hd. rewrite length_drop in Hd. simpl in *. lia.
Qed.

(** *** Transfer *)

Definition insert_items (l : list (Z * StorageEntry)) (m : gmap Z StorageEntry) : gmap Z StorageEntry :=
  foldl (λ m '(h, x), <[h := x]> m) m l.

Lemma insert_items_nodup l m :
  NoDup l.*1 → (∀ h, h ∈ l.*1 → m !! h = None) → insert_items l m = list_to_map l ∪ m.
Proof.
  unfold insert_items. revert m. induction l as [|[h x] l IH]; intros m Hnd Hm; simpl.
  { by rewrite (left_id ∅ (∪)). }
  apply NoDup_cons in Hnd as [Hnin Hnd]. rewrite IH; [|done|].
  - rewrite <- insert_union_r, <- insert_union_l by (by apply not_elem_of_list_to_map).
    done.
  - intros h' Hh'. rewrite lookup_insert_ne by (intros ->; done). apply Hm. by right.
Qed.

Lemma insert_sorted_items e : insert_items (sorted_items e) ∅ = e.
Proof.
  rewrite insert_items_nodup; [|apply sorted_items_nodup|intros; apply lookup_empty].
  rewrite (right_id ∅ (∪)).
  rewrite (list_to_map_proper _ (map_to_list e)); [apply list_to_map_to_list| |].
  - apply sorted_items_nodup.
  - apply sorted_items_perm.
Qed.

Lemma import_put l m :
  (∀ h x, (h, x) ∈ l → se_typed x ∧ slen (se_key x) < 256) →
  import_items Engine_Put ((λ '(h, x), mkItem h (SE_Encode x)) <$> l) m
  = (Done tt, insert_items l m).
Proof.
  unfold insert_items. revert m. induction l as [|[h x] l IH]; intros m Hl; [done|].
  destruct (Hl h x) as [Ht Hk]; [by left|]. cbn [fmap list_fmap import_items ti_Raw ti_HKey foldl].
  rewrite SE_round_trip by done. erewrite bind_done by reflexivity. rewrite cloneEntry_id.
  apply IH. intros h1 x1 ?. apply (Hl h1). by right.
Qed.

Lemma drop_items l (e : gmap Z StorageEntry) :
  (∀ h x, e !! h = Some x → (h, x) ∈ l) →
  foldl (λ e item, delete (ti_HKey item) e) e ((λ '(h, x), mkItem h (SE_Encode x)) <$> l) = ∅.
Proof.
  intros Hl. apply map_eq. intros h. rewrite lookup_empty.
  assert (∀ e' : gmap Z StorageEntry, (∀ x, e' !! h = Some x → (h, x) ∈ l) →
    foldl (λ e item, delete (ti_HKey item) e) e' ((λ '(h, x), mkItem h (SE_Encode x)) <$> l) !! h
      = None) as Hf; [|by apply Hf; eauto].
  clear Hl e. induction l as [|[h' x'] l IH]; intros e Hl; simpl.
  { destruct (e !! h) as [x|]; [|done]. specialize (Hl x eq_refl). by apply elem_of_nil in Hl. }
  apply IH. intros x [Hne Hx]%lookup_delete_Some.
  apply Hl in Hx. apply elem_of_cons in Hx as [[= -> _]|]; [congruence|done].
Qed.

(** *** Ranging *)

(** A callback that notes what it is shown and goes on while [more] says so. *)
Definition visit (more : Z → StorageEntry → bool) (acc : list (Z * StorageEntry)) (hkey : Z) (entry : StorageEntry) :
    list (Z * StorageEntry) * bool :=
  (acc ++ [(hkey, entry)], more hkey entry).

Lemma range_loop_visit more items acc :
  ∃ seen rest, range_loop (visit more) items acc = acc ++ seen ∧ items = seen ++ rest ∧
    (rest = [] ∨ ∃ h x, last seen = Some (h, x) ∧ more h x = false).
Proof.
  revert acc. induction items as [|[h x] items IH]; intros acc.
  { exists [], []. rewrite app_nil_r. auto. }
  cbn. destruct (more h x) eqn:Hm.
  - destruct (IH (acc ++ [(h, x)])) as (seen & rest & -> & -> & Hlast).
    exists ((h, x) :: seen), rest. split_and!; [by rewrite <-app_assoc|done|].
    destruct Hlast as [->|(h' & x' & Hl & Hm')]; [by left|right]. exists h', x'. split; [|done].
    rewrite last_cons. by rewrite Hl.
  - exists [(h, x)], items. split_and!; [done|done|right]. by exists h, x.
Qed.

Lemma cloned_items (e : gmap Z StorageEntry) : prod_map id cloneEntry <$> map_to_list e = map_to_list e.
Proof. rewrite <-(list_fmap_id (map_to_list e)) at 2. apply list_fmap_ext. by intros _ [h []] _. Qed.

(** ** Theorems *)

(** [Range] shows its callback every entry once, in any order, and stops early
    only right after the callback asked it to. *)
Theorem range_visits_each_once order more e :
  (∀ l, order l ≡ₚ l) →
  ∃ rest, Engine_Range order (visit more) e [] ++ rest ≡ₚ map_to_list e ∧
    (rest = [] ∨ ∃ h x, last (Engine_Range order (visit more) e []) = Some (h, x) ∧ more h x = false).
Proof.
  intros Horder. unfold Engine_Range. rewrite cloned_items.
  destruct (range_loop_visit more (order (map_to_list e)) []) as (seen & rest & -> & Hitems & Hlast).
  exists rest. split; [|done]. cbn [app]. by rewrite <-Hitems.
Qed.

(** The binary form of an entry round-trips for keys of up to 255 bytes,
    whatever bytes the buffer has beyond its length. *)
Theorem entry_round_trip spare e :
  se_typed e → slen (se_key e) < 256 → SE_Decode spare (SE_Encode e) = Done e.
Proof. apply SE_round_trip. Qed.

(** Longer keys do not survive.  The length byte wraps around, so decoding
    the encoding of an entry with a key of 256 bytes or more panics or returns
    an entry with another key; the engine accepts such keys. *)
Theorem long_keys_do_not_round_trip spare e h m :
  256 ≤ slen (se_key e) →
  Engine_Put h e m = (Done tt, <[h := e]> m) ∧
  ∀ e', SE_Decode spare (SE_Encode e) = Done e' → se_key e' ≠ se_key e.
Proof.
  intros Hk. split; [unfold Engine_Put; by rewrite cloneEntry_id|].
  intros e' Hd%SE_Decode_key Heq. rewrite Heq in Hd. lia.
Qed.

(** Scanning in pages visits everything once.  A client that starts at
    cursor 0 and follows the returned cursors sees every entry exactly once,
    in the order of the hashes, for any page size, and the scan ends (after
    at most one page per entry and one more). *)
Theorem scan_pages_cover fuel count e :
  (∀ h x, e !! h = Some x → 0 ≤ h) → 0 < count → (size e < fuel)%nat →
  ∃ l, scan_pages fuel 0 count e [] = Some l.*2 ∧ l ≡ₚ map_to_list e ∧ StronglySorted by_hash l.
Proof.
  intros Hpos Hc Hf. exists (sorted_items e).
  split_and!; [|apply sorted_items_perm|apply sorted_items_sorted].
  apply (scan_pages_from fuel count e [] (sorted_items e)); [done..| |].
  - rewrite items_from_filter, filter_all; [done|]. rewrite Forall_forall. intros [h x] Hx.
    rewrite sorted_items_perm in Hx. apply elem_of_map_to_list in Hx. eauto.
  - rewrite sorted_items_perm, length_map_to_list. done.
Qed.

Section transfer.
Context `{Msgpack}.

(** A transfer from the iterator to the drop. *)
Lemma transfer_run e :
  e ≠ ∅ → (∀ h x, e !! h = Some x → se_typed x ∧ slen (se_key x) < 256) →
  ∃ it data, it_Next (TransferIterator e) = (true, it) ∧ it_Export it = Done data ∧
    Engine_Import data Engine_Put ∅ = (Done tt, e) ∧ it_Drop it e = ∅ ∧
    (it_Next it).1 = false.
Proof.
  intros Hne Hok. set (l := sorted_items e).
  assert (∀ h x, (h, x) ∈ l ↔ e !! h = Some x) as Hl.
  { intros h x. unfold l. by rewrite sorted_items_perm, elem_of_map_to_list. }
  exists (mkIter ((λ '(h, x), mkItem h (SE_Encode x)) <$> l) true).
  eexists. split_and!; [|reflexivity| | |done].
  - unfold it_Next, TransferIterator. fold (sorted_items e). fold l. cbn [it_next it_items orb].
    destruct l as [|[h x] l'] eqn:He; [exfalso|done]. apply Hne, map_eq. intros h.
    rewrite lookup_empty. destruct (e !! h) as [x|] eqn:Hx; [|done].
    apply Hl in Hx. by apply elem_of_nil in Hx.
  - unfold Engine_Import. rewrite msgpack_round_trip. cbn [it_items].
    rewrite import_put by (intros ?? ?%Hl; eauto). f_equal. apply insert_sorted_items.
  - unfold it_Drop. cbn [it_items]. apply drop_items. intros. by apply Hl.
Qed.

(** A fragment transfer moves everything.  For a non-empty engine the
    iterator positions once, the exported data imported into an empty engine
    rebuilds exactly the same entries, and the drop afterwards empties the
    sender; the iterator then has nothing more to offer. *)
Theorem transfer_moves_everything e :
  e ≠ ∅ → (∀ h x, e !! h = Some x → se_typed x ∧ slen (se_key x) < 256) →
  ∃ it data, it_Next (TransferIterator e) = (true, it) ∧ it_Export it = Done data ∧
    Engine_Import data Engine_Put ∅ = (Done tt, e) ∧ it_Drop it e = ∅ ∧
    (it_Next it).1 = false.
Proof. apply transfer_run. Qed.
End transfer.

(** *** Witnesses *)

Definition se_sample : StorageEntry := mkSE "k" [x61; x62] (-5) 7 9.

Lemma entry_round_trip_witness : SE_Decode [x00] (SE_Encode se_sample) = Done se_sample.
Proof. apply (entry_round_trip [x00] se_sample); [repeat split; vm_compute; discriminate|reflexivity]. Defined.

Definition se_long : StorageEntry :=
  mkSE (string_of_bytes (replicate 256 x61)) [x62] 0 0 0.

Lemma long_keys_do_not_round_trip_witness :
  Engine_Put 1 se_long ∅ = (Done tt, <[1 := se_long]> ∅) ∧
  ∀ e', SE_Decode [] (SE_Encode se_long) = Done e' → se_key e' ≠ se_key se_long.
Proof. apply (long_keys_do_not_round_trip [] se_long 1 ∅). vm_compute. discriminate. Defined.

Definition engine2 : gmap Z StorageEntry := <[5 := se_sample]> (<[3 := zero_se]> ∅).

Lemma range_visits_each_once_witness :
  ∃ rest, Engine_Range reverse (visit (λ h _, h =? 3)) engine2 [] ++ rest ≡ₚ map_to_list engine2 ∧
    (rest = [] ∨ ∃ h x, last (Engine_Range reverse (visit (λ h _, h =? 3)) engine2 []) = Some (h, x) ∧ (h =? 3) = false).
Proof. apply (range_visits_each_once reverse (λ h _, h =? 3) engine2). intros l. apply reverse_Permutation. Defined.

Lemma scan_pages_cover_witness :
  ∃ l, scan_pages 3 0 1 engine2 [] = Some l.*2 ∧ l ≡ₚ map_to_list engine2 ∧ StronglySorted by_hash l.
Proof.
  apply (scan_pages_cover 3 1 engine2); [|lia|vm_compute; lia].
  intros h x. unfold engine2. rewrite !lookup_insert_Some, lookup_empty.
  intros [[<- _]|[_ [[<- _]|[_ ?]]]]; [lia|lia|discriminate].
Defined.

(** A packing of transfers: the binary digits of a number for the list. *)
#[export] Instance byte_countable : Countable byte :=
  inj_countable' Z_of_byte byte_of_Z byte_of_Z_of_byte.
#[export] Instance transferItem_eq_dec : EqDecision transferItem.
Proof. solve_decision. Defined.
#[export] Instance transferItem_countable : Countable transferItem.
Proof.
  refine (inj_countable' (λ i, (ti_HKey i, ti_Raw i)) (λ '(h, r), mkItem h r) _). by intros [].
Defined.

Fixpoint bits_of_pos (p : positive) : list byte :=
  match p with xH => [] | xO p => x00 :: bits_of_pos p | xI p => x01 :: bits_of_pos p end.
Fixpoint pos_of_bits (l : list byte) : positive :=
  match l with [] => xH | x00 :: l => xO (pos_of_bits l) | _ :: l => xI (pos_of_bits l) end.

Lemma pos_bits p : pos_of_bits (bits_of_pos p) = p.
Proof. induction p; simpl; congruence. Qed.

#[export] Instance bits_msgpack : Msgpack := {|
  msgpack_marshal items := bits_of_pos (encode items);
  msgpack_unmarshal l := decode (pos_of_bits l);
  msgpack_round_trip items := eq_trans (f_equal decode (pos_bits (encode items))) (decode_encode items) |}.

Lemma transfer_moves_everything_witness :
  ∃ it data, it_Next (TransferIterator engine2) = (true, it) ∧ it_Export it = Done data ∧
    Engine_Import data Engine_Put ∅ = (Done tt, engine2) ∧ it_Drop it engine2 = ∅ ∧
    (it_Next it).1 = false.
Proof.
  apply (transfer_moves_everything engine2); [discriminate|].
  intros h x. unfold engine2. rewrite !lookup_insert_Some, lookup_empty.
  intros [[_ <-]|[_ [[_ <-]|[_ ?]]]]; [..|discriminate]; repeat split; vm_compute; discriminate.
Defined.
