(* ===== verification/Hook.v ===== *)
(** * The durable hook of a node ([internal/stringkv/durable_hook.go],
      [sequencer.go])

    The state of a node as the hook sees it: the lease, the owner sequencer
    and the producer side of the ring.  The clock, the answers of the control
    RPC and what happens to the ring while an append waits are arguments.
    The hook is called by the fork's write path, which is modelled in
    [Dmap]. *)

From S2P Require Import Prelude Records Json Oplog OplogRing Messages Lease Engine.

(** ** MemoryFenceSequencer *)

Record sequencer := mkSeq { q_generation : Z; q_epoch : Z; q_seq : Z }.

Definition NewMemoryFenceSequencer : sequencer := mkSeq 0 0 0.

Inductive hook_err :=
| ErrInvalidFence
| ErrOwnerSequenceRollback
| ErrLeaseExpired
| ErrRingAlmostFull
| ErrRingAppend (e : ring_err)
| ErrBudgetExceeded
| ErrContextDone
| ErrEncodeOplog
| ErrNilEntry
| ErrLoadMiss
| ErrNotFoundOnMiss
| ErrDrainHandoff
| ErrNilRing | ErrNilLease | ErrNilSequence | ErrWriterRequired
| OutOfRetries.

Definition Stamp (generation epoch : Z) : M sequencer hook_err (Z * Z * Z) := λ s,
  if (generation <=? 0) || (epoch <? 0) then (Fail ErrInvalidFence, s) else
  if (q_generation s <? generation) || ((generation =? q_generation s) && (q_epoch s <? epoch)) then
    let s := mkSeq generation epoch 1 in (Done (q_generation s, q_epoch s, q_seq s), s)
  else if (generation =? q_generation s) && (epoch =? q_epoch s) then
    let s := mkSeq (q_generation s) (q_epoch s) (i64 (q_seq s + 1)) in
    (Done (q_generation s, q_epoch s, q_seq s), s)
  else (Fail ErrOwnerSequenceRollback, s).

(** ** DurableHook *)

(** The fields of [olricconfig.DurableOperation] the hook reads or writes. *)
Record DurableOperation := mkOp {
  op_DMap : string;
  op_Key : string;
  op_HKey : Z;
  op_Entry : option StorageEntry;
  op_FenceGeneration : Z;
  op_FenceEpoch : Z }.

Record hook := mkHook {
  h_lease : LeaseTracker;
  h_seq : sequencer;
  h_capacity : Z;
  h_ring : list byte;
  h_writerID : string;
  h_budget : Z;
  h_onFatal : bool;               (** an [OnFatal] callback is configured *)
  h_fatal : option hook_err }.    (** the error it was called with, at most once *)

Definition set_hook_lease (l : LeaseTracker) (h : hook) : hook :=
  mkHook l (h_seq h) (h_capacity h) (h_ring h) (h_writerID h) (h_budget h) (h_onFatal h) (h_fatal h).
Definition set_seq (q : sequencer) (h : hook) : hook :=
  mkHook (h_lease h) q (h_capacity h) (h_ring h) (h_writerID h) (h_budget h) (h_onFatal h) (h_fatal h).
Definition set_hook_ring (f : list byte) (h : hook) : hook :=
  mkHook (h_lease h) (h_seq h) (h_capacity h) f (h_writerID h) (h_budget h) (h_onFatal h) (h_fatal h).
Definition set_fatal (e : option hook_err) (h : hook) : hook :=
  mkHook (h_lease h) (h_seq h) (h_capacity h) (h_ring h) (h_writerID h) (h_budget h) (h_onFatal h) e.

(** [Config.withDefaults] and [NewDurableHook]; [None] is Go's [nil]. *)
Definition NewDurableHook (ring : option (Z * list byte)) (lease : option LeaseTracker)
    (sequence : option sequencer) (writerID : string) (budget : Z) (onFatal : bool) :
    outcome hook_err hook :=
  match ring with
  | None => Fail ErrNilRing
  | Some (capacity, file) =>
    match lease with
    | None => Fail ErrNilLease
    | Some lease =>
      match sequence with
      | None => Fail ErrNilSequence
      | Some sequence =>
        if String.eqb writerID "" then Fail ErrWriterRequired else
        Done (mkHook lease sequence capacity file writerID
                (if budget <=? 0 then 5 * 1000000000 else budget) onFatal None)
      end
    end
  end.

Definition concurrentBuffer : Z := 64 * 1024.
Definition jsonOverhead : Z := 256.

Definition estimateOplogSize (op : DurableOperation) (h : hook) : Z :=
  let size := u64 (slen (op_DMap op) + slen (op_Key op) + slen (h_writerID h) + jsonOverhead) in
  match op_Entry op with
  | Some e => u64 (size + u64 (zlen (SE_Encode e) * 2))
  | None => size
  end.

Definition set_fence (g e : Z) (op : DurableOperation) : DurableOperation :=
  mkOp (op_DMap op) (op_Key op) (op_HKey op) (op_Entry op) g e.

(** [stamp]; [now] is the hook's clock.  A failing [Pending] cannot happen. *)
Definition stamp (now : Z) (op : DurableOperation) : M hook hook_err DurableOperation := λ h,
  let '(g, e, ok) := SnapshotForWrite now (h_lease h) in
  if negb ok then (Fail ErrLeaseExpired, h) else
  let op := set_fence g e op in
  let estimatedSize := estimateOplogSize op h in
  match Pending (h_ring h) with
  | (Done pending, _) =>
    let free := u64 (h_capacity h - pending) in
    if free <? u64 (estimatedSize + concurrentBuffer) then (Fail ErrRingAlmostFull, h)
    else (Done op, h)
  | _ => (Panic, h)
  end.

Definition BeforeSet (now : Z) (op : DurableOperation) : M hook hook_err DurableOperation :=
  match op_Entry op with None => fail ErrNilEntry | Some _ => stamp now op end.
Definition BeforeDelete (now : Z) (op : DurableOperation) : M hook hook_err DurableOperation :=
  stamp now op.
Definition BeforeExpire (now : Z) (op : DurableOperation) : M hook hook_err DurableOperation :=
  match op_Entry op with None => fail ErrNilEntry | Some _ => stamp now op end.

Definition VerifyAfterLock (now : Z) (op : DurableOperation) : M hook hook_err () := λ h,
  if op_FenceGeneration op =? 0 then (Done tt, h) else
  if negb (VerifyFence (op_FenceGeneration op) (op_FenceEpoch op) now (h_lease h))
  then (Fail ErrLeaseExpired, h) else (Done tt, h).

(** One wait between two attempts: the clock after the failed attempt, whether
    the request's context is done, and what the consumer did to the ring while
    the producer slept. *)
Record wait := mkWait { w_now : Z; w_cancelled : bool; w_ring : list byte → list byte }.

(** The retry loop; the waits are the environment's, [OutOfRetries] is the end
    of the list, not a result of the code. *)
Fixpoint append_retry (deadline : Z) (payload : list byte) (waits : list wait) :
    M hook hook_err () := λ h,
  match Append (h_capacity h) payload (h_ring h) with
  | (Done _, f) => (Done tt, set_hook_ring f h)
  | (Fail ErrRingFull, f) =>
    match waits with
    | [] => (Fail OutOfRetries, set_hook_ring f h)
    | w :: waits =>
      if deadline <? w_now w then (Fail ErrBudgetExceeded, set_hook_ring f h) else
      if w_cancelled w then (Fail ErrContextDone, set_hook_ring f h) else
      append_retry deadline payload waits (set_hook_ring (w_ring w f) h)
    end
  | (Fail err, f) => (Fail (ErrRingAppend err), set_hook_ring f h)
  | (Panic, f) => (Panic, set_hook_ring f h)
  end.

Definition appendWithBudget (now : Z) (payload : list byte) (waits : list wait) :
    M hook hook_err () := λ h,
  append_retry (now + h_budget h) payload waits h.

(** The entry [publish] builds for a stamped operation. *)
Definition publish_entry (op : DurableOperation) (kind : string) (g e s : Z) (now : Z)
    (writerID : string) : Entry :=
  mkEntry 0 kind (op_DMap op) (op_Key op) (op_HKey op)
    (match op_Entry op with Some x => SE_Encode x | None => [] end)
    (match op_Entry op with Some x => se_ttl x | None => 0 end)
    (match op_Entry op with Some x => se_timestamp x | None => 0 end)
    g e s writerID (i64 now).

(** [publish]; the answer of [Notify] is ignored by the code. *)
Definition publish (now : Z) (op : DurableOperation) (kind : string) (waits : list wait) :
    M hook hook_err () :=
  fence ← zoom h_seq set_seq (Stamp (op_FenceGeneration op) (op_FenceEpoch op));
  let '(g, e, s) := fence in
  writerID ← gets h_writerID;
  match Encode (publish_entry op kind g e s now writerID) with
  | Done payload => appendWithBudget now payload waits
  | _ => fail ErrEncodeOplog
  end.

(** [fatal]: the callback runs at most once. *)
Definition fatal (err : hook_err) (h : hook) : hook :=
  if negb (h_onFatal h) then h else
  match h_fatal h with None => set_fatal (Some err) h | Some _ => h end.

(** [AfterSet], [AfterDelete] and [AfterExpire] are the same code with their
    own operation. *)
Definition after (kind : string) (now : Z) (op : DurableOperation) (mutation_failed : bool)
    (waits : list wait) : M hook hook_err () := λ h,
  if mutation_failed then (Done tt, h) else
  match publish now op kind waits h with
  | (Fail err, h) => (Fail err, fatal err h)
  | r => r
  end.

Definition AfterSet := after OpSet.
Definition AfterDelete := after OpDelete.
Definition AfterExpire := after OpExpire.

(** The answer of the sidecar to a load: an RPC error, absent, or a record. *)
Inductive load_answer := load_error | load_absent | load_found (rec : EntryRecord).

(** [LoadOnMiss]; [spare] is the spare capacity of the received buffer. *)
Definition LoadOnMiss (control : option load_answer) (op : DurableOperation) (spare : list byte) :
    outcome hook_err StorageEntry :=
  match control with
  | None => Fail ErrNotFoundOnMiss
  | Some load_error => Fail ErrLoadMiss
  | Some load_absent => Fail ErrNotFoundOnMiss
  | Some (load_found record) =>
    if rec_Tombstone record then Fail ErrNotFoundOnMiss else
    match op_Entry op with
    | None => Fail ErrNilEntry
    | Some _ =>
      match rec_EncodedEntry record with
      | [] => Fail ErrNotFoundOnMiss
      | buf => match SE_Decode spare buf with Done e => Done e | _ => Panic end
      end
    end
  end.

(** [DrainForHandoff]: [control] is the sidecar's answer to [DrainPartition]. *)
Definition DrainForHandoff (control : option bool) (partitionCount : Z) : outcome hook_err () :=
  match control with
  | None => Done tt
  | Some ok => if partitionCount =? 0 then Done tt else
               if (ok : bool) then Done tt else Fail ErrDrainHandoff
  end.

(** ** Lemmas on the sequencer *)

(** The order on stamped triples. *)
Definition triple_lt (a b : Z * Z * Z) : Prop :=
  let '(g, e, s) := a in let '(g', e', s') := b in
  g < g' ∨ (g = g' ∧ (e < e' ∨ (e = e' ∧ s < s'))).

#[export] Instance triple_lt_trans : Transitive triple_lt.
Proof. intros [[g e] s] [[g' e'] s'] [[g'' e''] s'']. simpl. lia. Qed.

Definition seq_triple (s : sequencer) : Z * Z * Z := (q_generation s, q_epoch s, q_seq s).

Definition seq_ok (s : sequencer) : Prop := 0 ≤ q_seq s < maxInt64.

Lemma Stamp_run g e s :
  seq_ok s →
  match Stamp g e s with
  | (Done t, s') => t = seq_triple s' ∧ triple_lt (seq_triple s) t ∧
                    q_generation s' = g ∧ q_epoch s' = e ∧ 0 < g ∧ 0 ≤ e ∧ 0 < q_seq s'
  | (Fail err, s') => s' = s ∧
      (err = ErrInvalidFence ∧ (g ≤ 0 ∨ e < 0) ∨
       err = ErrOwnerSequenceRollback ∧ 0 < g ∧ 0 ≤ e ∧
       (g < q_generation s ∨ (g = q_generation s ∧ e < q_epoch s)))
  | (Panic, _) => False
  end.
Proof.
  unfold Stamp, seq_ok, seq_triple, triple_lt. intros Hs.
  destruct (Z.leb_spec g 0); [simpl; split; [done|left; split; [done|lia]]|].
  destruct (Z.ltb_spec e 0); [simpl; split; [done|left; split; [done|lia]]|]. simpl.
  destruct (Z.ltb_spec (q_generation s) g); simpl; [split_and!; (done || lia)|].
  destruct (Z.eqb_spec g (q_generation s)); simpl.
  - destruct (Z.ltb_spec (q_epoch s) e); simpl; [split_and!; (done || lia)|].
    destruct (Z.eqb_spec e (q_epoch s)); simpl.
    + rewrite i64_small by (unfold minInt64, maxInt64 in *; lia). split_and!; (done || lia).
    + split; [done|]. right. split_and!; (done || lia).
  - split; [done|]. right. split_and!; (done || lia).
Qed.

(** A run of stamp requests: the triples handed out, and the final state. *)
Fixpoint run_stamps (reqs : list (Z * Z)) (s : sequencer) : list (Z * Z * Z) * sequencer :=
  match reqs with
  | [] => ([], s)
  | (g, e) :: reqs =>
    match Stamp g e s with
    | (Done t, s') => let '(ts, s'') := run_stamps reqs s' in (t :: ts, s'')
    | (_, s') => run_stamps reqs s'
    end
  end.

Lemma Stamp_seq_bound g e s r s' :
  0 ≤ q_seq s → q_seq s + 1 ≤ maxInt64 → Stamp g e s = (r, s') →
  0 ≤ q_seq s' ∧ q_seq s' ≤ q_seq s + 1.
Proof.
  unfold Stamp. intros Hs Hm. dcase; [intros [= _ <-]; lia|].
  dcase; [intros [= _ <-]; simpl; lia|].
  dcase; [intros [= _ <-]; simpl|intros [= _ <-]; lia].
  rewrite i64_small by (unfold minInt64, maxInt64 in *; lia). lia.
Qed.

Lemma run_stamps_sorted reqs s :
  0 ≤ q_seq s → q_seq s + Z.of_nat (length reqs) < maxInt64 →
  StronglySorted triple_lt (run_stamps reqs s).1 ∧
  Forall (triple_lt (seq_triple s)) (run_stamps reqs s).1.
Proof.
  revert s. induction reqs as [|[g e] reqs IH]; intros s H0 Hm; [split; constructor|].
  cbn [run_stamps length] in *. rewrite Nat2Z.inj_succ in Hm.
  assert (seq_ok s) as Hok by (unfold seq_ok; lia).
  pose proof (Stamp_run g e s Hok) as Hr. destruct (Stamp g e s) as [[t| |] s'] eqn:Hs.
  - destruct Hr as (->&Hlt&_).
    destruct (Stamp_seq_bound _ _ _ _ _ H0 ltac:(lia) Hs) as [H0' Hm'].
    destruct (IH s' H0' ltac:(lia)) as [Hsort Hall].
    destruct (run_stamps reqs s') as [ts s'']. cbn [fst] in *.
    split; [by constructor|]. constructor; [done|].
    eapply Forall_impl; [exact Hall|]. intros t Ht. by etrans.
  - destruct Hr as [-> _]. apply IH; lia.
  - done.
Qed.

(** ** Lemmas on publishing *)

(** What the consumer may do to the ring while the producer waits: pop. *)
Definition consumer_pops (capacity : Z) (step : list byte → list byte) : Prop :=
  ∀ f H T q, ring_wf capacity f H T q →
  ∃ H' q1 q2, q = q1 ++ q2 ∧ ring_wf capacity (step f) H' T q2.

Section publish.
Context (capacity : Z) (Hcap : (capacity | 2 ^ 64)).

Lemma append_retry_run deadline payload waits h H T q :
  ring_wf capacity (h_ring h) H T q → h_capacity h = capacity → zlen payload ≤ maxPayload →
  Forall (λ w, consumer_pops capacity (w_ring w)) waits →
  ∃ f H' T' q1 q2, q = q1 ++ q2 ∧
    match append_retry deadline payload waits h with
    | (Done _, h') => h' = set_hook_ring f h ∧ ring_wf capacity f H' T' (q2 ++ [payload])
    | (Fail err, h') => h' = set_hook_ring f h ∧ ring_wf capacity f H' T' q2 ∧
        (err = ErrRingAppend ErrPayloadTooLarge ∨ err = ErrBudgetExceeded ∨
         err = ErrContextDone ∨ err = OutOfRetries)
    | (Panic, _) => False
    end.
Proof.
  intros Hwf Hc Hp. revert h H T q Hwf Hc. induction waits as [|w waits IH];
    intros h H T q Hwf Hc Hw;
    pose proof (Append_refines _ _ _ _ _ payload Hwf Hp (or_introl Hcap)) as Ha;
    assert (∀ err, (err = ErrRingAppend ErrPayloadTooLarge ∨ err = ErrBudgetExceeded ∨
        err = ErrContextDone ∨ err = OutOfRetries) →
      ∃ f H' T' q1 q2, q = q1 ++ q2 ∧ set_hook_ring (h_ring h) h = set_hook_ring f h ∧
        ring_wf capacity f H' T' q2 ∧
        (err = ErrRingAppend ErrPayloadTooLarge ∨ err = ErrBudgetExceeded ∨
         err = ErrContextDone ∨ err = OutOfRetries)) as Hstay
      by (intros err Herr; by exists (h_ring h), H, T, [], q);
    cbn [append_retry]; rewrite Hc; destruct (Append capacity payload (h_ring h)) as [[[]|[]|] f];
    try done; try (destruct Ha as [-> _]; apply Hstay; tauto).
  - destruct Ha as [Hwf' _]. by eexists f, _, _, [], q.
  - destruct Ha as [Hwf' _]. by eexists f, _, _, [], q.
  - destruct Ha as [-> _]. apply Forall_cons in Hw as [Hw1 Hw].
    destruct (deadline <? w_now w); [apply Hstay; tauto|].
    destruct (w_cancelled w); [apply Hstay; tauto|].
    destruct (Hw1 _ _ _ _ Hwf) as (H1&q1&q2&->&Hwf1).
    destruct (IH (set_hook_ring (w_ring w (h_ring h)) h) _ _ _ Hwf1 Hc Hw)
      as (f'&H'&T'&q3&q4&->&Hres).
    exists f', H', T', (q1 ++ q3), q4. rewrite app_assoc. split; [done|].
    by destruct append_retry as [[[]| |] h'].
Qed.
End publish.

(** A hook on a ring that holds [q]. *)
Record hook_wf (h : hook) (q : list (list byte)) : Prop := {
  hwf_ring : ∃ H T, ring_wf (h_capacity h) (h_ring h) H T q;
  hwf_cap : (h_capacity h | 2 ^ 64);
  hwf_seq : seq_ok (h_seq h);
  hwf_writer : h_writerID h ≠ "" }.

Definition op_raw (op : DurableOperation) : list byte :=
  match op_Entry op with Some x => SE_Encode x | None => [] end.

(** An operation the fork can hand to the hook: its fields have their Go
    types, and even fully escaped its encoding fits a frame of the ring. *)
Record op_ok (op : DurableOperation) (kind : string) (writerID : string) : Prop := {
  ook_kind : known_op kind = true;
  ook_dmap : op_DMap op ≠ "";
  ook_hkey : 0 ≤ op_HKey op < 2 ^ 64;
  ook_fence : op_FenceGeneration op ≤ maxInt64 ∧ op_FenceEpoch op ≤ maxInt64;
  ook_entry : ∀ x, op_Entry op = Some x → se_typed x;
  ook_size : 6 * (slen (op_DMap op) + slen (op_Key op) + slen writerID)
             + 2 * zlen (op_raw op) + 300 ≤ maxPayload }.

(** The entry a stamped operation puts on the wire, as the consumer reads it. *)
Definition wire_entry (op : DurableOperation) (kind : string) (t : Z * Z * Z) (now : Z)
    (writerID : string) : Entry :=
  let '(g, e, s) := t in json_entry (set_version currentVersion (publish_entry op kind g e s now writerID)).

Lemma publish_entry_typed op kind g e s now w :
  op_ok op kind w → 0 < g ≤ maxInt64 → 0 ≤ e ≤ maxInt64 → 0 < s ≤ maxInt64 →
  entry_typed (publish_entry op kind g e s now w).
Proof.
  intros [_ _ Hh _ Hx _] Hg He Hs. unfold entry_typed, int64_ok, minInt64, maxInt64 in *.
  pose proof (i64_range now). unfold minInt64, maxInt64 in *.
  destruct (op_Entry op) as [x|] eqn:Hop; unfold publish_entry; rewrite Hop; simpl.
  - destruct (Hx x eq_refl) as (?&?&_). unfold minInt64, maxInt64 in *. split_and!; lia.
  - split_and!; lia.
Qed.

Lemma publish_entry_fenced op kind g e s now w :
  op_ok op kind w → 0 < g → 0 < s → w ≠ "" → fenced (publish_entry op kind g e s now w).
Proof. intros [] ???. unfold fenced, publish_entry. simpl. split_and!; (done || lia). Qed.

(** The size of what [publish] appends. *)
Lemma publish_payload_size op kind g e s now w payload :
  op_ok op kind w → w ≠ "" → 0 < g ≤ maxInt64 → 0 ≤ e ≤ maxInt64 → 0 < s ≤ maxInt64 →
  Encode (publish_entry op kind g e s now w) = Done payload →
  zlen payload ≤ quoted_size (op_DMap op) + quoted_size (op_Key op) + quoted_size w
                 + zlen (base64_encode (op_raw op)) + 238.
Proof.
  intros Hop Hw Hg He Hs [= <-].
  apply (payload_size (publish_entry op kind g e s now w)); [| |simpl; lia].
  - by apply publish_entry_typed.
  - apply publish_entry_fenced; (done || lia).
Qed.

(** A stamped operation is encoded in a payload the ring takes and the consumer
    decodes. *)
Lemma published_payload op kind s g e n s' now w payload :
  op_ok op kind w → w ≠ "" → seq_ok s →
  Stamp (op_FenceGeneration op) (op_FenceEpoch op) s = (Done (g, e, n), s') →
  Encode (publish_entry op kind g e n now w) = Done payload →
  zlen payload ≤ maxPayload ∧ Decode payload = Done (wire_entry op kind (g, e, n) now w).
Proof.
  intros Hop Hw Hseq Hstamp Henc. pose proof (Stamp_run (op_FenceGeneration op) (op_FenceEpoch op) s Hseq) as Hst.
  rewrite Hstamp in Hst. destruct Hst as ([= -> -> ->]&_&Hg&He&Hg0&He0&Hs0). unfold seq_ok in Hseq.
  destruct (Stamp_seq_bound _ _ _ _ _ (proj1 Hseq) ltac:(lia) Hstamp) as [_ Hsb].
  destruct (ook_fence _ _ _ Hop) as [Hgm Hem]. split.
  - pose proof (publish_payload_size op kind (q_generation s') (q_epoch s') (q_seq s') now w payload Hop Hw ltac:(lia) ltac:(lia) ltac:(lia) Henc).
    pose proof (ook_size _ _ _ Hop). pose proof (zlen_nonneg (op_raw op)). pose proof (base64_length (op_raw op)).
    pose proof (quoted_size_bound (op_DMap op)). pose proof (quoted_size_bound (op_Key op)).
    pose proof (quoted_size_bound w). lia.
  - apply Decode_Encode; [| |done]; [apply publish_entry_typed|apply publish_entry_fenced]; (done || lia).
Qed.

Lemma publish_run now op kind waits h q :
  hook_wf h q → op_ok op kind (h_writerID h) →
  Forall (λ w, consumer_pops (h_capacity h) (w_ring w)) waits →
  match publish now op kind waits h with
  | (Done _, h') => ∃ payload H' T' q1 q2, q = q1 ++ q2 ∧
      ring_wf (h_capacity h) (h_ring h') H' T' (q2 ++ [payload]) ∧
      Decode payload = Done (wire_entry op kind (seq_triple (h_seq h')) now (h_writerID h)) ∧
      triple_lt (seq_triple (h_seq h)) (seq_triple (h_seq h')) ∧
      q_generation (h_seq h') = op_FenceGeneration op ∧ q_epoch (h_seq h') = op_FenceEpoch op ∧
      h' = set_hook_ring (h_ring h') (set_seq (h_seq h') h)
  | (Fail err, h') => ∃ H' T' q1 q2, q = q1 ++ q2 ∧
      ring_wf (h_capacity h) (h_ring h') H' T' q2 ∧
      h' = set_hook_ring (h_ring h') (set_seq (h_seq h') h)
  | (Panic, _) => False
  end.
Proof.
  intros [(H&T&Hr) Hcap Hseq Hw] Hop Hwaits. unfold publish, mbind at 1, M_bind at 1, zoom.
  pose proof (Stamp_run (op_FenceGeneration op) (op_FenceEpoch op) (h_seq h) Hseq) as Hst.
  destruct (Stamp _ _ (h_seq h)) as [[t|err|] s'] eqn:Hstamp; [| |done].
  2: { destruct Hst as [-> _]. exists H, T, [], q. split_and!; [done..|]. by destruct h. }
  destruct Hst as (->&Hlt&Hg&He&_). unfold seq_triple at 1. erewrite bind_done by reflexivity.
  cbn [h_writerID set_seq]. destruct (Encode _) as [payload| |] eqn:Henc; [|done..].
  destruct (published_payload _ _ _ _ _ _ _ _ _ _ Hop Hw Hseq Hstamp Henc) as [Hsize Hdec].
  unfold appendWithBudget.
  destruct (append_retry_run (h_capacity h) Hcap (now + h_budget (set_seq s' h)) payload waits
    (set_seq s' h) H T q Hr eq_refl Hsize Hwaits) as (f&H'&T'&q1&q2&->&Hres).
  destruct append_retry as [[[]| |] h']; [| |done].
  - destruct Hres as [-> Hr']. exists payload, H', T', q1, q2. by split_and!.
  - destruct Hres as (->&Hr'&_). by exists H', T', q1, q2.
Qed.

(** An append that waits for nobody leaves what was in the ring before it. *)
Lemma publish_alone now op kind h q h' :
  hook_wf h q → op_ok op kind (h_writerID h) → publish now op kind [] h = (Done tt, h') →
  ∃ payload H T, ring_wf (h_capacity h) (h_ring h') H T (q ++ [payload]) ∧
    Decode payload = Done (wire_entry op kind (seq_triple (h_seq h')) now (h_writerID h)) ∧
    triple_lt (seq_triple (h_seq h)) (seq_triple (h_seq h')) ∧
    q_generation (h_seq h') = op_FenceGeneration op ∧ q_epoch (h_seq h') = op_FenceEpoch op ∧
    0 < q_seq (h_seq h') ≤ q_seq (h_seq h) + 1 ∧
    h' = set_hook_ring (h_ring h') (set_seq (h_seq h') h).
Proof.
  intros [(H&T&Hr) Hcap Hseq Hw] Hop. unfold publish, mbind at 1, M_bind at 1, zoom.
  pose proof (Stamp_run (op_FenceGeneration op) (op_FenceEpoch op) (h_seq h) Hseq) as Hst.
  destruct (Stamp _ _ (h_seq h)) as [[t|err|] s'] eqn:Hstamp; [|done..].
  destruct Hst as (->&Hlt&Hg&He&_&_&Hpos). unfold seq_ok in Hseq.
  destruct (Stamp_seq_bound _ _ _ _ _ (proj1 Hseq) ltac:(lia) Hstamp) as [_ Hb].
  unfold seq_triple at 1. erewrite bind_done by reflexivity.
  cbn [h_writerID set_seq]. destruct (Encode _) as [payload| |] eqn:Henc; [|done..].
  destruct (published_payload _ _ _ _ _ _ _ _ _ _ Hop Hw Hseq Hstamp Henc) as [Hsize Hdec].
  unfold appendWithBudget. cbn [append_retry h_capacity h_ring set_seq].
  pose proof (Append_refines _ _ _ _ _ payload Hr Hsize (or_introl Hcap)) as Ha.
  destruct (Append _ _ _) as [[[]|[]|] f]; try done. intros [= <-]. destruct Ha as [Hwf _].
  by eexists payload, _, _.
Qed.

(** What a successful [stamp] has seen. *)
Lemma stamp_run now op h q :
  hook_wf h q → h_capacity h < 2 ^ 63 →
  match stamp now op h with
  | (Done op', h') => h' = h ∧ op' = set_fence (l_generation (h_lease h)) (l_epoch (h_lease h)) op ∧
      ServingAllowed now (h_lease h) = true ∧
      ∃ H T, ring_wf (h_capacity h) (h_ring h) H T q ∧
        u64 (estimateOplogSize op' h + concurrentBuffer) ≤ h_capacity h - (T - H)
  | (Fail err, h') => h' = h ∧ (err = ErrLeaseExpired ∧ ServingAllowed now (h_lease h) = false ∨
                                err = ErrRingAlmostFull)
  | (Panic, _) => False
  end.
Proof.
  intros [(H&T&Hr) _ _ _] Hc. unfold stamp, SnapshotForWrite, ServingAllowed.
  destruct (Z.leb_spec (l_validUntilUnixMs (h_lease h)) (UnixMilli now)); cbn [negb].
  { split; [done|]. left. split; [done|]. by apply Z.ltb_ge. }
  rewrite (Pending_run _ _ _ _ _ Hr).
  destruct (wf_order _ _ _ _ _ Hr). pose proof (wf_used _ _ _ _ _ Hr).
  rewrite (u64_small (h_capacity h - (T - H))) by lia.
  dcase; [split; [done|by right]|]. bools. split_and!; [done..|by apply Z.ltb_lt|].
  exists H, T. split; [done|lia].
Qed.

(** What [AfterX] does after a mutation that succeeded. *)
Lemma after_run kind now op waits h q :
  hook_wf h q → op_ok op kind (h_writerID h) → h_onFatal h = true →
  Forall (λ w, consumer_pops (h_capacity h) (w_ring w)) waits →
  match after kind now op false waits h with
  | (Done _, h') => h_fatal h' = h_fatal h ∧ ∃ payload H T q1 q2, q = q1 ++ q2 ∧
      ring_wf (h_capacity h) (h_ring h') H T (q2 ++ [payload]) ∧
      Decode payload = Done (wire_entry op kind (seq_triple (h_seq h')) now (h_writerID h)) ∧
      triple_lt (seq_triple (h_seq h)) (seq_triple (h_seq h'))
  | (Fail err, h') => h_fatal h' ≠ None ∧ ∃ H T q1 q2, q = q1 ++ q2 ∧
      ring_wf (h_capacity h) (h_ring h') H T q2
  | (Panic, _) => False
  end.
Proof.
  intros Hwf Hop Hfat Hwaits. unfold after.
  pose proof (publish_run now op kind waits h q Hwf Hop Hwaits) as Hp.
  destruct (publish now op kind waits h) as [[[]|err|] h']; [| |done].
  - destruct Hp as (payload&H'&T'&q1&q2&->&Hr&Hd&Hlt&_&_&Heq).
    split; [by rewrite Heq|]. by exists payload, H', T', q1, q2.
  - destruct Hp as (H'&T'&q1&q2&->&Hr&Heq).
    assert (h_onFatal h' = true) as Hf by (by rewrite Heq).
    unfold fatal. rewrite Hf. cbn [negb]. split; [by destruct (h_fatal h') eqn:Hn; [rewrite Hn|]|].
    exists H', T', q1, q2. split; [done|]. by destruct (h_fatal h').
Qed.

(** What a load of a published record gives back. *)
Lemma load_restores op x kind t now w template spare :
  op_Entry op = Some x → se_typed x → slen (se_key x) < 256 → json_string kind ≠ OpDelete →
  op_Entry template ≠ None →
  LoadOnMiss (Some (load_found (recordFromEntry (wire_entry op kind t now w)))) template spare
  = Done x.
Proof.
  intros Hx Ht Hk Hd Htmpl. destruct t as [[g e] s]. unfold LoadOnMiss, wire_entry.
  cbn [recordFromEntry rec_Tombstone rec_EncodedEntry json_entry set_version publish_entry Op EncodedEntry].
  rewrite bool_decide_eq_false_2 by done. destruct (op_Entry template); [|done]. rewrite Hx.
  pose proof (SE_round_trip spare x Ht Hk) as Hrt.
  destruct (SE_Encode x) as [|b l] eqn:He; [by unfold SE_Encode in He|]. by rewrite Hrt.
Qed.

(** ** Theorems *)

(** C19: owner fences are strictly increasing.  Whatever sequence of fence
    windows is requested, in order, out of order or repeated, the triples
    (generation, epoch, sequence) the sequencer hands out are strictly
    increasing in lexicographic order, so no two writes of one process carry
    the same fence (for up to [2^63] stamps). *)
Theorem stamps_strictly_increase reqs s :
  0 ≤ q_seq s → q_seq s + Z.of_nat (length reqs) < maxInt64 →
  StronglySorted triple_lt (run_stamps reqs s).1 ∧
  Forall (triple_lt (seq_triple s)) (run_stamps reqs s).1.
Proof. apply run_stamps_sorted. Qed.

(** An acknowledged write is in the oplog, an unlogged one stops the node.
    When the in-memory mutation succeeded, [AfterSet], [AfterDelete] and
    [AfterExpire] either return success with the complete entry, under a fresh
    fence, at the back of the ring (behind what the consumer has left), or
    return an error with nothing added to the ring and the fatal callback
    called.  They never panic. *)
Theorem acknowledged_iff_logged kind now op waits h q :
  hook_wf h q → op_ok op kind (h_writerID h) → h_onFatal h = true →
  Forall (λ w, consumer_pops (h_capacity h) (w_ring w)) waits →
  match after kind now op false waits h with
  | (Done _, h') => h_fatal h' = h_fatal h ∧ ∃ payload H T q1 q2, q = q1 ++ q2 ∧
      ring_wf (h_capacity h) (h_ring h') H T (q2 ++ [payload]) ∧
      Decode payload = Done (wire_entry op kind (seq_triple (h_seq h')) now (h_writerID h)) ∧
      triple_lt (seq_triple (h_seq h)) (seq_triple (h_seq h'))
  | (Fail err, h') => h_fatal h' ≠ None ∧ ∃ H T q1 q2, q = q1 ++ q2 ∧
      ring_wf (h_capacity h) (h_ring h') H T q2
  | (Panic, _) => False
  end.
Proof. apply after_run. Qed.

(** A string JSON writes without escapes. *)
Definition plain (s : string) : Prop := quoted_size s = slen s.

(** Admission control reserves room.  When [stamp] admits a write whose
    names need no JSON escapes and whose estimated size is at most 65504
    bytes, and neither the ring nor the sequencer's window moves before it is
    published, the publish succeeds at the first attempt: the estimate bounds
    the payload and the reserve covers the bytes skipped at the ring's end. *)
Theorem admitted_write_is_logged now now' op op' kind h q :
  hook_wf h q → h_capacity h < 2 ^ 63 → stamp now op h = (Done op', h) →
  op_ok op' kind (h_writerID h) →
  plain (op_DMap op) → plain (op_Key op) → plain (h_writerID h) →
  estimateOplogSize op' h ≤ 65504 →
  0 < l_generation (h_lease h) → 0 ≤ l_epoch (h_lease h) →
  q_generation (h_seq h) < l_generation (h_lease h) ∨
    (q_generation (h_seq h) = l_generation (h_lease h) ∧ q_epoch (h_seq h) ≤ l_epoch (h_lease h)) →
  (publish now' op' kind [] h).1 = Done tt.
Proof.
  intros Hwf Hc Hs Hop Hp1 Hp2 Hp3 He Hg Hep Hw. pose proof (stamp_run now op h q Hwf Hc) as Hrun.
  rewrite Hs in Hrun. destruct Hrun as (_&Hop'&_&H&T&Hr&Hfree).
  destruct Hwf as [_ _ Hseq Hwr].
  assert (op_FenceGeneration op' = l_generation (h_lease h) ∧
    op_FenceEpoch op' = l_epoch (h_lease h) ∧ op_DMap op' = op_DMap op ∧ op_Key op' = op_Key op)
    as (Hfg&Hfe&Hod&Hok) by (by subst op').
  unfold publish, mbind at 1, M_bind at 1, zoom.
  pose proof (Stamp_run (op_FenceGeneration op') (op_FenceEpoch op') (h_seq h) Hseq) as Hst.
  destruct (Stamp _ _ (h_seq h)) as [[t|err|] s'] eqn:Hstamp; [| |done]; [|exfalso; lia].
  destruct Hst as (->&_&Hg'&He'&Hg0&He0&Hs0). unfold seq_triple.
  erewrite bind_done by reflexivity. cbn [h_writerID set_seq]. unfold seq_ok in Hseq.
  destruct (Stamp_seq_bound _ _ _ _ _ (proj1 Hseq) ltac:(lia) Hstamp) as [_ Hsb].
  destruct (ook_fence _ _ _ Hop) as [Hgm Hem].
  destruct (Encode _) as [payload| |] eqn:Henc; [|done..].
  pose proof (publish_payload_size op' kind (q_generation s') (q_epoch s') (q_seq s')
    now' (h_writerID h) payload Hop Hwr ltac:(lia) ltac:(lia) ltac:(lia) Henc) as Hsize.
  rewrite Hod, Hok in Hsize. unfold plain in *. rewrite Hp1, Hp2, Hp3 in Hsize.
  assert (zlen payload ≤ estimateOplogSize op' h) as Hest.
  { unfold estimateOplogSize in *. rewrite Hod, Hok in *. unfold op_raw in Hsize. unfold jsonOverhead in *.
    pose proof (ook_size _ _ _ Hop) as Hsz. unfold op_raw, maxPayload in Hsz. rewrite Hod, Hok in Hsz.
    assert (∀ s, 0 ≤ slen s) as Hsl by (intros; unfold slen; lia).
    pose proof (Hsl (op_DMap op)). pose proof (Hsl (op_Key op)). pose proof (Hsl (h_writerID h)).
    destruct (op_Entry op') as [x|].
    - pose proof (base64_length (SE_Encode x)). pose proof (zlen_nonneg (SE_Encode x)).
      assert (4 ≤ zlen (SE_Encode x)).
      { unfold SE_Encode. pose proof (zlen_nonneg (se_value x)). pose proof (Hsl (se_key x)). zl. }
      rewrite (u64_small (zlen (SE_Encode x) * 2)), (u64_small (slen _ + _ + _ + _)), u64_small by lia.
      lia.
    - cbv iota in Hsize, Hsz. change (zlen (@nil byte)) with 0 in Hsz. change (zlen (base64_encode [])) with 0 in Hsize. rewrite u64_small by lia. lia. }
  assert (zlen payload ≤ maxPayload) as Hmax by (unfold maxPayload; lia).
  pose proof (entry_size_spec payload Hmax) as [Hes _]. pose proof (zlen_nonneg payload).
  unfold concurrentBuffer in Hfree. rewrite u64_small in Hfree by lia.
  pose proof (wf_order _ _ _ _ _ Hr).
  unfold appendWithBudget. cbn [append_retry h_capacity h_ring set_seq].
  rewrite (Append_run _ _ _ _ _ Hr) by done.
  rewrite (proj2 (Z.ltb_ge _ _)) by lia. rewrite (proj2 (Z.ltb_ge _ _)); [done|].
  unfold needed_bytes. dcase; bools; lia.
Qed.

(** The estimate is not the upper bound its comment claims: JSON escapes a
    control character in a key as six characters, so a key of 300 of them
    encodes to more than twice the estimate. *)
Theorem estimate_is_not_an_upper_bound :
  ∃ op h payload,
    Encode (publish_entry op OpSet 1 0 1 0 (h_writerID h)) = Done payload ∧
    2 * estimateOplogSize op h < zlen payload.
Proof.
  exists (mkOp "d" (string_of_bytes (replicate 300 x01)) 0 None 1 0).
  exists (mkHook NewLeaseTracker NewMemoryFenceSequencer 4096 [] "w" 0 true None).
  eexists. split; [reflexivity|]. vm_compute. reflexivity.
Qed.

(** An epoch advance is not harmless.  A write stamped under epoch [e] whose
    mutation runs after another write was published under a later epoch of the
    same generation passes [VerifyAfterLock] (the comment there calls the
    advance harmless), but its publish is then rejected as a sequence
    rollback: the client sees an error although memory was mutated, nothing is
    logged, and the fatal callback stops the node. *)
Theorem epoch_advance_kills_inflight_write kind now op waits h :
  0 < op_FenceGeneration op → 0 ≤ op_FenceEpoch op →
  l_generation (h_lease h) = op_FenceGeneration op →
  op_FenceEpoch op < l_epoch (h_lease h) → ServingAllowed now (h_lease h) = true →
  q_generation (h_seq h) = op_FenceGeneration op → q_epoch (h_seq h) = l_epoch (h_lease h) →
  h_onFatal h = true → h_fatal h = None →
  VerifyAfterLock now op h = (Done tt, h) ∧
  after kind now op false waits h =
    (Fail ErrOwnerSequenceRollback, set_fatal (Some ErrOwnerSequenceRollback) h).
Proof.
  intros Hg He Hlg Hle Hs Hqg Hqe Hf Hn. split.
  - unfold VerifyAfterLock, VerifyFence, ServingAllowed in *. bools.
    rewrite (proj2 (Z.eqb_neq _ _)), (proj2 (Z.leb_gt _ _)), (proj2 (Z.eqb_eq _ _)) by lia.
    cbn [negb]. by rewrite (proj2 (Z.ltb_ge _ _)) by lia.
  - unfold after, publish, mbind at 1, M_bind at 1, zoom, Stamp.
    rewrite (proj2 (Z.leb_gt _ _)), (proj2 (Z.ltb_ge (op_FenceEpoch op) 0)) by lia. cbn [orb].
    rewrite (proj2 (Z.ltb_ge _ _)), (proj2 (Z.eqb_eq _ _)) by lia. cbn [orb andb].
    rewrite (proj2 (Z.ltb_ge _ _)), (proj2 (Z.eqb_neq _ _)) by lia.
    unfold fatal. cbn [h_onFatal set_seq h_fatal]. rewrite Hf, Hn. cbn [negb].
    by destruct h.
Qed.

(** The retry loop of an append ends.  When every wait takes at least the
    millisecond the code sleeps, an append decides within the budget: after
    more waits than the budget has milliseconds, plus two, it has succeeded or
    failed for good. *)
Theorem append_with_budget_terminates now payload waits h :
  0 < h_budget h →
  (∀ i w, waits !! i = Some w → now + Z.of_nat i * 1000000 ≤ w_now w) →
  h_budget h < (Z.of_nat (length waits) - 1) * 1000000 →
  (appendWithBudget now payload waits h).1 ≠ Fail OutOfRetries.
Proof.
  unfold appendWithBudget. intros Hb0 Hclock Hbudget.
  assert (∀ l i h', (∀ j w, l !! j = Some w → now + Z.of_nat (i + j) * 1000000 ≤ w_now w) →
    h_budget h < (Z.of_nat (i + length l) - 1) * 1000000 → l ≠ [] →
    (append_retry (now + h_budget h) payload l h').1 ≠ Fail OutOfRetries) as Hgen.
  { induction l as [|w l IH]; intros i h' Hl Hb Hne; [done|].
    cbn [append_retry]. destruct (Append _ _ _) as [[?|[]|] f]; try done.
    pose proof (Hl 0%nat w eq_refl) as Hw. rewrite Nat.add_0_r in Hw.
    destruct (Z.ltb_spec (now + h_budget h) (w_now w)); [done|]. destruct (w_cancelled w); [done|].
    assert (l ≠ []) as Hl0 by (intros ->; simpl in Hb; lia).
    apply (IH (S i)); [|simpl in Hb; lia|done].
    intros j w' Hj. replace (S i + j)%nat with (i + S j)%nat by lia. by apply Hl. }
  apply (Hgen _ 0%nat); [done|done|]. intros ->. simpl in Hbudget. lia.
Qed.

(** A miss restores what was published.  When the sidecar answers a miss
    with the record of an entry published for a set, [LoadOnMiss] rebuilds the
    stored entry exactly: key, value, TTL and time stamps. *)
Theorem miss_restores_published op x kind t now w template spare :
  op_Entry op = Some x → se_typed x → slen (se_key x) < 256 → json_string kind ≠ OpDelete →
  op_Entry template ≠ None →
  LoadOnMiss (Some (load_found (recordFromEntry (wire_entry op kind t now w)))) template spare
  = Done x.
Proof. apply load_restores. Qed.

(** *** Witnesses *)

Definition lease_live : LeaseTracker := mkLease 3 2 1000.
Definition sample_op : DurableOperation := mkOp "users" "k" 7 (Some se_sample) 3 2.
Definition hook0 : hook :=
  mkHook lease_live NewMemoryFenceSequencer 4096 ring4k "pod" 1000000 true None.

Lemma hook0_wf : hook_wf hook0 [].
Proof.
  split; [exists 0, 0; exact ring4k_wf|by exists (2 ^ 52)|by vm_compute|done].
Qed.

Lemma stamps_strictly_increase_witness :
  StronglySorted triple_lt (run_stamps [(1, 0); (1, 0); (2, 5); (1, 9)] NewMemoryFenceSequencer).1 ∧
  Forall (triple_lt (seq_triple NewMemoryFenceSequencer))
    (run_stamps [(1, 0); (1, 0); (2, 5); (1, 9)] NewMemoryFenceSequencer).1.
Proof.
  apply (stamps_strictly_increase [(1, 0); (1, 0); (2, 5); (1, 9)] NewMemoryFenceSequencer);
    [simpl; lia|reflexivity].
Defined.

Lemma sample_op_ok : op_ok sample_op OpSet "pod".
Proof.
  split; [done|done|by vm_compute|done| |vm_compute; discriminate].
  intros x [= <-]. repeat split; vm_compute; discriminate.
Qed.

Lemma acknowledged_iff_logged_witness :
  match after OpSet 5 sample_op false [] hook0 with
  | (Done _, h') => h_fatal h' = None ∧ ∃ payload H T q1 q2, [] = q1 ++ q2 ∧
      ring_wf 4096 (h_ring h') H T (q2 ++ [payload]) ∧
      Decode payload = Done (wire_entry sample_op OpSet (seq_triple (h_seq h')) 5 "pod") ∧
      triple_lt (seq_triple (h_seq hook0)) (seq_triple (h_seq h'))
  | (Fail err, h') => h_fatal h' ≠ None ∧ ∃ H T q1 q2, [] = q1 ++ q2 ∧
      ring_wf 4096 (h_ring h') H T q2
  | (Panic, _) => False
  end.
Proof.
  exact (acknowledged_iff_logged OpSet 5 sample_op [] hook0 [] hook0_wf sample_op_ok eq_refl
    (Forall_nil_2 _)).
Defined.

Lemma epoch_advance_kills_inflight_write_witness :
  let h := mkHook lease_live (mkSeq 3 2 1) 4096 ring4k "pod" 1000000 true None in
  let op := mkOp "users" "k" 7 (Some se_sample) 3 1 in
  VerifyAfterLock 0 op h = (Done tt, h) ∧
  after OpSet 0 op false [] h =
    (Fail ErrOwnerSequenceRollback, set_fatal (Some ErrOwnerSequenceRollback) h).
Proof.
  apply (epoch_advance_kills_inflight_write OpSet 0 (mkOp "users" "k" 7 (Some se_sample) 3 1) []
    (mkHook lease_live (mkSeq 3 2 1) 4096 ring4k "pod" 1000000 true None)); done.
Defined.

Lemma append_with_budget_terminates_witness :
  (appendWithBudget 0 [] (replicate 3 (mkWait 3000000 false (λ f, f))) hook0).1 ≠ Fail OutOfRetries.
Proof.
  apply (append_with_budget_terminates 0 [] (replicate 3 (mkWait 3000000 false (λ f, f))) hook0).
  - reflexivity.
  - intros i w [-> Hi]%lookup_replicate_1. cbn [w_now]. lia.
  - reflexivity.
Defined.

Lemma miss_restores_published_witness :
  LoadOnMiss (Some (load_found (recordFromEntry (wire_entry sample_op OpSet (3, 2, 1) 0 "pod"))))
    sample_op [] = Done se_sample.
Proof.
  apply (miss_restores_published sample_op se_sample OpSet (3, 2, 1) 0 "pod" sample_op []).
  - reflexivity.
  - repeat split; vm_compute; discriminate.
  - reflexivity.
  - vm_compute. discriminate.
  - discriminate.
Defined.

(** A 128 KiB ring, large enough for the reserve of 64 KiB. *)
Definition ring128k : list byte := if Create os_fine 131072 is Done f then f else [].

Lemma ring128k_wf : ring_wf 131072 ring128k 0 0 [].
Proof.
  apply (Create_wf os_fine 131072 ring128k); [unfold maxInt64; lia|].
  unfold ring128k. assert (∃ f, Create os_fine 131072 = Done f) as [f ->]; [|done].
  eexists. unfold Create. reflexivity.
Qed.

Definition hook128 : hook :=
  mkHook lease_live NewMemoryFenceSequencer 131072 ring128k "pod" 1000000 true None.

Lemma hook128_wf : hook_wf hook128 [].
Proof. split; [exists 0, 0; exact ring128k_wf|by exists (2 ^ 47)|by vm_compute|done]. Qed.

Lemma hook128_stamp : stamp 0 sample_op hook128 = (Done sample_op, hook128).
Proof. unfold stamp. cbn [h_ring hook128]. rewrite (Pending_run _ _ _ _ _ ring128k_wf). reflexivity. Qed.

Lemma admitted_write_is_logged_witness : (publish 9 sample_op OpSet [] hook128).1 = Done tt.
Proof.
  apply (admitted_write_is_logged 0 9 sample_op sample_op OpSet hook128 [] hook128_wf);
    [reflexivity|exact hook128_stamp|exact sample_op_ok|reflexivity|reflexivity|reflexivity
    |vm_compute; discriminate|reflexivity|vm_compute; discriminate|left; reflexivity].
Defined.
