(* ===== verification/Writers.v ===== *)
(** * Concurrent writers and the sidecar
      ([internal/stringkv/durable_hook.go] [publish], the fragment lock of
       [third_party/olric/internal/dmap], [internal/sidecar/control.go])

    Every command of a node runs in its own goroutine.  A set, delete or expire
    publishes its entry with the lock of its fragment held: it takes a fence
    from the sequencer (under the sequencer's mutex), encodes the entry and
    appends it to the ring (under [appendMu]), again and again while the ring is
    full.  Between the two another writer, of another fragment, may overtake it.
    [wstep] interleaves any number of writers with the steps of the sidecar.

    The theorem discharges what [SidecarSteps.acked_never_lost] assumes of the
    order of the entries: within one (generation, epoch) no acknowledged write
    of any number of concurrent writers is lost. *)

From S2P Require Import Prelude Json Records Oplog OplogRing Backend Engine Sidecar SidecarSteps Messages Lease Hook.

(** ** The system *)

(** A goroutine that holds the lock of its fragment: the operation it
    publishes, and its fence and payload once it has taken them. *)
Record job := mkJob {
  j_op : DurableOperation;
  j_kind : string;
  j_now : Z;
  j_stamped : option (Z * Z * Z * list byte) }.

Record world := mkWorld {
  wd_sys : sys;
  wd_seq : sequencer;
  wd_jobs : list job }.

Section system.
Context `{WriterOrder} {U : UpsertEngine}.
Context (order : list Entry → list Entry) (floor : Z).

(** The writer id of the node, and the fragment of a table and a hash. *)
Context (writerID : string) (fragment : string → Z → Z).

Definition job_fragment (j : job) : Z := fragment (op_DMap (j_op j)) (op_HKey (j_op j)).

(** The steps of [publish], and those of the sidecar.  The names of tables are
    valid UTF-8 (other names are replaced in the JSON form of the entry), and
    the sequence stays below [2^63 - 1]. *)
Inductive wstep : world → world → Prop :=
| ws_sidecar x x' q js :
    step order floor 1 x x' → x_acked x' = x_acked x →
    wstep (mkWorld x q js) (mkWorld x' q js)
| ws_lock x q js op kind now :
    op_ok op kind writerID → json_string (op_DMap op) = op_DMap op →
    (∀ j, j ∈ js → job_fragment j ≠ fragment (op_DMap op) (op_HKey op)) →
    wstep (mkWorld x q js) (mkWorld x q (mkJob op kind now None :: js))
| ws_stamp x q js1 op kind now js2 g e n q' payload :
    seq_ok q → Stamp (op_FenceGeneration op) (op_FenceEpoch op) q = (Done (g, e, n), q') →
    Encode (publish_entry op kind g e n now writerID) = Done payload →
    wstep (mkWorld x q (js1 ++ mkJob op kind now None :: js2))
          (mkWorld x q' (js1 ++ mkJob op kind now (Some (g, e, n, payload)) :: js2))
| ws_append s fl fd hd acked q js1 op kind now t payload js2 f' :
    Append (srv_capacity s) payload (srv_ring s) = (Done tt, f') →
    wstep (mkWorld (mkSys s fl fd hd acked) q (js1 ++ mkJob op kind now (Some (t, payload)) :: js2))
          (mkWorld (mkSys (set_ring f' s) fl fd hd (acked ++ [wire_entry op kind t now writerID])) q (js1 ++ js2))
| ws_give_up x q js1 j js2 :
    wstep (mkWorld x q (js1 ++ j :: js2)) (mkWorld x q (js1 ++ js2)).

(** ** The invariant *)

Definition entry_triple (e : Entry) : Z * Z * Z := (Generation e, Epoch e, OwnerSeq e).
Definition entry_fragment (e : Entry) : Z := fragment (DMap e) (HKey e).

Definition triple_le (a b : Z * Z * Z) : Prop := a = b ∨ triple_lt a b.

(** Of two entries of a fragment the later one has the larger fence. *)
Definition fenced_in_order (a b : Entry) : Prop :=
  entry_fragment a = entry_fragment b → triple_lt (entry_triple a) (entry_triple b).

Record job_ok (w : world) (j : job) : Prop := {
  jo_op : op_ok (j_op j) (j_kind j) writerID;
  jo_dmap : json_string (op_DMap (j_op j)) = op_DMap (j_op j);
  jo_stamped : ∀ t payload, j_stamped j = Some (t, payload) →
    triple_le t (seq_triple (wd_seq w)) ∧ zlen payload ≤ maxPayload ∧
    Decode payload = Done (wire_entry (j_op j) (j_kind j) t (j_now j) writerID) ∧
    ∀ e, e ∈ x_acked (wd_sys w) → entry_fragment e = job_fragment j → triple_lt (entry_triple e) t }.

Record winv (w : world) : Prop := {
  wi_jobs : ∀ j, j ∈ wd_jobs w → job_ok w j;
  wi_locks : NoDup (job_fragment <$> wd_jobs w);
  wi_seq : ∀ e, e ∈ x_acked (wd_sys w) → triple_le (entry_triple e) (seq_triple (wd_seq w));
  wi_order : StronglySorted fenced_in_order (x_acked (wd_sys w)) }.

Lemma wire_triple op kind t now w : entry_triple (wire_entry op kind t now w) = t.
Proof. by destruct t as [[g e] s]. Qed.

Lemma wire_fragment op kind t now w :
  json_string (op_DMap op) = op_DMap op →
  entry_fragment (wire_entry op kind t now w) = fragment (op_DMap op) (op_HKey op).
Proof.
  intros Hd. destruct t as [[g e] s].
  change (fragment (json_string (op_DMap op)) (op_HKey op) = fragment (op_DMap op) (op_HKey op)).
  by rewrite Hd.
Qed.

Lemma triple_le_lt a b c : triple_le a b → triple_lt b c → triple_lt a c.
Proof. intros [->|Hab] Hbc; [done|by etrans]. Qed.

Lemma triple_le_trans a b c : triple_le a b → triple_le b c → triple_le a c.
Proof. intros Hab [->|Hbc]; [done|]. right. by eapply triple_le_lt. Qed.

Ltac wcbn :=
  cbn [wd_sys wd_seq wd_jobs j_op j_kind j_now j_stamped x_acked x_srv x_flights x_flushed x_held] in *.

(** Locks of a list of jobs with one in the middle. *)
Lemma locks_mid js1 j js2 :
  NoDup (job_fragment <$> js1 ++ j :: js2) →
  NoDup (job_fragment <$> js1 ++ js2) ∧ ∀ j', j' ∈ js1 ++ js2 → job_fragment j' ≠ job_fragment j.
Proof.
  rewrite !fmap_app, fmap_cons. intros Hnd. rewrite <- Permutation_middle in Hnd.
  apply NoDup_cons in Hnd as [Hj Hnd]. split; [done|]. intros j' Hj' Heq. apply Hj.
  rewrite <- fmap_app. rewrite <- Heq. by apply list_elem_of_fmap_2.
Qed.

Lemma jobs_mid_weaken (j j' : job) js1 js2 : j ∈ js1 ++ js2 → j ∈ js1 ++ j' :: js2.
Proof. apply elem_mid_weaken. Qed.

Lemma winv_lock x q js op kind now :
  winv (mkWorld x q js) → op_ok op kind writerID → json_string (op_DMap op) = op_DMap op →
  (∀ j, j ∈ js → job_fragment j ≠ fragment (op_DMap op) (op_HKey op)) →
  winv (mkWorld x q (mkJob op kind now None :: js)).
Proof.
  intros [Hj Hl Hs Ho] Hop Hd Hfree. split; wcbn; [|..|done|done].
  - intros j [->|Hin]%elem_of_cons; [by split|]. by destruct (Hj j Hin); split.
  - apply NoDup_cons. split; [|done]. intros (j&Heq&Hin)%list_elem_of_fmap. by apply (Hfree j Hin).
Qed.

Lemma winv_stamp x q js1 op kind now js2 g e n q' payload :
  writerID ≠ "" → winv (mkWorld x q (js1 ++ mkJob op kind now None :: js2)) → seq_ok q →
  Stamp (op_FenceGeneration op) (op_FenceEpoch op) q = (Done (g, e, n), q') →
  Encode (publish_entry op kind g e n now writerID) = Done payload →
  winv (mkWorld x q' (js1 ++ mkJob op kind now (Some (g, e, n, payload)) :: js2)).
Proof.
  intros Hw [Hj Hl Hs Ho] Hq Hstamp Henc. pose proof (Stamp_run (op_FenceGeneration op) (op_FenceEpoch op) q Hq) as Hrun. rewrite Hstamp in Hrun.
  destruct Hrun as (Ht&Hlt&_). destruct (Hj _ (elem_mid _ _ _)) as [Hop Hd _]. wcbn.
  destruct (published_payload _ _ _ _ _ _ _ _ _ _ Hop Hw Hq Hstamp Henc) as [Hsize Hdec].
  rewrite Ht in Hlt. split; wcbn; [| | |done].
  - intros j Hin. rewrite <- Permutation_middle in Hin. apply elem_of_cons in Hin as [->|Hin].
    + split; [done|done|]. wcbn. intros t payload' [= <- <-]. split_and!; [left; by rewrite Ht|done|done|].
      intros e' He' _. rewrite Ht. by eapply triple_le_lt; [apply Hs|].
    + destruct (Hj j) as [? ? Hst]; [by apply jobs_mid_weaken|]. split; [done|done|].
      intros t payload' Hj'. destruct (Hst t payload' Hj') as (Hle&?&?&?). split_and!; try done.
      eapply triple_le_trans; [done|by right].
  - rewrite fmap_app, fmap_cons in *. done.
  - intros e' He'. eapply triple_le_trans; [by apply Hs|by right].
Qed.

Lemma winv_append s fl fd hd acked q js1 op kind now t payload js2 f' :
  winv (mkWorld (mkSys s fl fd hd acked) q (js1 ++ mkJob op kind now (Some (t, payload)) :: js2)) →
  winv (mkWorld (mkSys (set_ring f' s) fl fd hd (acked ++ [wire_entry op kind t now writerID])) q (js1 ++ js2)).
Proof.
  intros [Hj Hl Hs Ho]. destruct (locks_mid _ _ _ Hl) as [Hl' Hother].
  destruct (Hj _ (elem_mid _ _ _)) as [Hop Hd Hst]. wcbn.
  destruct (Hst t payload eq_refl) as (Hle&_&_&Hlt). split; wcbn; [|done|..].
  - intros j Hin. destruct (Hj j) as [? ? Hst']; [by apply jobs_mid_weaken|]. split; [done|done|].
    intros t' payload' Hj'. destruct (Hst' t' payload' Hj') as (?&?&?&Hlt'). split_and!; [done..|]. wcbn.
    intros e [He| ->%list_elem_of_singleton]%elem_of_app Hf; [by apply Hlt'|].
    rewrite wire_fragment in Hf by done. by destruct (Hother j Hin).
  - intros e [He| ->%list_elem_of_singleton]%elem_of_app; [by apply Hs|by rewrite wire_triple].
  - apply StronglySorted_app_2; [|done|repeat constructor].
    intros e e' He ->%list_elem_of_singleton Hf. rewrite wire_triple. apply Hlt; [done|].
    by rewrite wire_fragment in Hf.
Qed.

Lemma winv_step w w' : writerID ≠ "" → winv w → wstep w w' → winv w'.
Proof.
  intros Hw Hinv Hstep. destruct Hstep as [x x' q js Hx Ha|x q js op kind now Hop Hd Hfree
    |x q js1 op kind now js2 g e n q' payload Hq Hst Henc|s fl fd hd acked q js1 op kind now t payload js2 f' Happ
    |x q js1 j js2].
  - destruct Hinv as [Hj Hl Hs Ho]. cbn in *. split; cbn; [|done|by rewrite Ha..].
    intros j Hin. destruct (Hj j Hin). split; [done..|]. cbn. by rewrite Ha.
  - by apply winv_lock.
  - by eapply winv_stamp.
  - by eapply winv_append.
  - destruct Hinv as [Hj Hl Hs Ho]. destruct (locks_mid _ _ _ Hl) as [Hl' _]. split; cbn in *; [|done..].
    intros j' Hin. destruct (Hj j'); [by apply jobs_mid_weaken|by split].
Qed.

Lemma winv_init x q : x_acked x = [] → winv (mkWorld x q []).
Proof.
  intros Ha. split; cbn; [by intros j ?%elem_of_nil|constructor| |rewrite Ha; constructor].
  intros e. rewrite Ha. by intros ?%elem_of_nil.
Qed.

(** The sidecar's part of a step. *)
Lemma wstep_sys w w' : winv w → wstep w w' → rtc (step order floor 1) (wd_sys w) (wd_sys w').
Proof.
  intros [Hj _ _ _] Hstep. destruct Hstep as [x x' q js Hx Ha| | |s fl fd hd acked q js1 op kind now t payload js2 f' Happ
    |]; cbn in *; try done; [by apply rtc_once|].
  destruct (Hj _ (elem_mid _ _ _)) as [_ _ Hst]. destruct (Hst t payload eq_refl) as (_&Hsize&Hdec&_).
  by apply rtc_once, (step_append order floor 1 s fl fd hd acked _ payload f').
Qed.

Lemma wsteps w w' :
  writerID ≠ "" → winv w → rtc wstep w w' → winv w' ∧ rtc (step order floor 1) (wd_sys w) (wd_sys w').
Proof.
  intros Hw Hinv Hrun. induction Hrun as [w|w w1 w2 H1 _ IH]; [done|].
  destruct (IH (winv_step _ _ Hw Hinv H1)) as [Hinv2 Hst]. split; [done|]. etrans; [by apply wstep_sys|done].
Qed.

(** Within one (generation, epoch) per key the entries are ordered as
    [SidecarSteps] asks. *)
Lemma fenced_owner_ordered (l : list Entry) :
  StronglySorted fenced_in_order l →
  (∀ a b, a ∈ l → b ∈ l → entryRef a = entryRef b → Generation a = Generation b ∧ Epoch a = Epoch b) →
  owner_ordered l.
Proof.
  unfold owner_ordered. induction 1 as [|a l Hs IH Hall]; intros Hep; [constructor|]. constructor.
  - apply IH. intros a' b Ha Hb. apply Hep; by right.
  - rewrite Forall_forall in *. intros b Hb Href.
    destruct (Hep a b) as [Hg He]; [by left|by right|done|].
    assert (triple_lt (entry_triple a) (entry_triple b)) as Hlt.
    { apply Hall; [done|]. unfold entry_fragment, entryRef in *. congruence. }
    unfold entry_triple, triple_lt in Hlt. split; [|lia].
    apply fence_gt_ge, fence_gt_spec. cbn. lia.
Qed.
End system.

(** ** Theorems *)

Section theorems.
Context `{WriterOrder} {U : UpsertEngine} {HU : SimultaneousUpdate U}.
Context (order : list Entry → list Entry) (Horder : ∀ l, order l ≡ₚ l).
Context (floor : Z) (writerID : string) (fragment : string → Z → Z).

(** Concurrent writers order their entries.  Whatever the interleaving of
    writers that publish under the locks of their fragments, of two acknowledged
    entries of a fragment the later one in the ring carries the strictly larger
    (generation, epoch, sequence), although entries of different fragments may
    overtake each other. *)
Theorem writers_are_ordered x q w :
  writerID ≠ "" → x_acked x = [] →
  rtc (wstep order floor writerID fragment) (mkWorld x q []) w →
  StronglySorted (fenced_in_order fragment) (x_acked (wd_sys w)).
Proof.
  intros Hw Ha Hrun.
  by destruct (wsteps order floor writerID fragment _ _ Hw (winv_init writerID fragment x q Ha) Hrun) as [[_ _ _ Ho] _].
Qed.

End theorems.

(** *** Witnesses *)

(** Two writers of different fragments: the second one overtakes the first. *)
Definition other_op : DurableOperation := mkOp "users" "m" 8 (Some se_sample) 3 2.
Definition by_hkey (_ : string) (hkey : Z) : Z := hkey.

Definition payload_at (op : DurableOperation) (n : Z) : list byte :=
  if Encode (publish_entry op OpSet 3 2 n 0 "pod") is Done payload then payload else [].
Definition overtaken_first : list byte := (Append 4096 (payload_at other_op 3) ring4k).2.
Definition overtaken_ring : list byte := (Append 4096 (payload_at sample_op 2) overtaken_first).2.

Definition overtaken : world :=
  mkWorld (mkSys (set_ring overtaken_ring (set_ring overtaken_first srv_empty)) [] [] []
             [wire_entry other_op OpSet (3, 2, 3) 0 "pod"; wire_entry sample_op OpSet (3, 2, 2) 0 "pod"])
    (mkSeq 3 2 3) [].

Lemma other_op_ok : op_ok other_op OpSet "pod".
Proof.
  split; [done|done|by vm_compute|done| |vm_compute; discriminate].
  intros x [= <-]. repeat split; vm_compute; discriminate.
Qed.

Lemma overtaken_run :
  rtc (wstep (U := old_row_engine) (λ l, l) 1 "pod" by_hkey)
    (mkWorld (mkSys srv_empty [] [] [] []) (mkSeq 3 2 1) []) overtaken.
Proof.
  eapply rtc_l; [apply (ws_lock (λ l, l) 1 "pod" by_hkey _ _ [] sample_op OpSet 0 sample_op_ok); [by vm_compute|]|].
  { by intros j ?%elem_of_nil. }
  eapply rtc_l; [apply (ws_lock (λ l, l) 1 "pod" by_hkey _ _ _ other_op OpSet 0 other_op_ok); [by vm_compute|]|].
  { intros j ->%list_elem_of_singleton. vm_compute. discriminate. }
  eapply rtc_l; [apply (ws_stamp (λ l, l) 1 "pod" by_hkey _ (mkSeq 3 2 1) [mkJob other_op OpSet 0 None] sample_op OpSet 0 []
    3 2 2 (mkSeq 3 2 2) (payload_at sample_op 2)); [by vm_compute|reflexivity|vm_compute; reflexivity]|].
  eapply rtc_l; [apply (ws_stamp (λ l, l) 1 "pod" by_hkey _ (mkSeq 3 2 2) [] other_op OpSet 0
    [mkJob sample_op OpSet 0 (Some (3, 2, 2, payload_at sample_op 2))]
    3 2 3 (mkSeq 3 2 3) (payload_at other_op 3)); [by vm_compute|reflexivity|vm_compute; reflexivity]|].
  eapply rtc_l; [apply (ws_append (λ l, l) 1 "pod" by_hkey srv_empty [] [] [] [] (mkSeq 3 2 3) [] other_op OpSet 0
    (3, 2, 3) (payload_at other_op 3) [mkJob sample_op OpSet 0 (Some (3, 2, 2, payload_at sample_op 2))] overtaken_first)|].
  { apply pair_of_fst. vm_compute. reflexivity. }
  apply rtc_once, (ws_append (λ l, l) 1 "pod" by_hkey (set_ring overtaken_first srv_empty) [] [] []
    [wire_entry other_op OpSet (3, 2, 3) 0 "pod"] (mkSeq 3 2 3) [] sample_op OpSet 0 (3, 2, 2) (payload_at sample_op 2) [] overtaken_ring).
  apply pair_of_fst. vm_compute. reflexivity.
Qed.

Lemma writers_are_ordered_witness :
  StronglySorted (fenced_in_order by_hkey)
    [wire_entry other_op OpSet (3, 2, 3) 0 "pod"; wire_entry sample_op OpSet (3, 2, 2) 0 "pod"].
Proof.
  exact (writers_are_ordered (U := old_row_engine) (λ l, l) 1 "pod" by_hkey (mkSys srv_empty [] [] [] []) (mkSeq 3 2 1)
    overtaken ltac:(discriminate) eq_refl overtaken_run).
Defined.

