(* ===== verification/ControlRpc.v ===== *)
(** * The control RPC between a node and its sidecar
      ([internal/sidecar/control.go], [transport.go]; the adapters of
      [cmd/olric-node/main.go])

    Requests and responses are JSON; the server decodes, runs the method of
    [Sidecar] and encodes.  gRPC is not code of this repository: the class
    [UnaryTransport] states what its documentation says of a unary call.  What
    the database and the clock answer during a call are arguments. *)

From S2P Require Import Prelude Json Times Records Oplog OplogRing Backend Sidecar Messages Lease Engine Hook.

(** ** Structs in JSON *)

(** [json.Unmarshal] into a struct whose fields have [names]: members are
    stored one after the other, unknown ones are skipped. *)
Fixpoint store_fields {A} (names : list string) (store : string → json → A → option A)
    (ms : list (list byte * json)) (a : A) : option A :=
  match ms with
  | [] => Some a
  | m :: ms =>
    a ← match match_field names m.1 with Some n => store n m.2 a | None => Some a end;
    store_fields names store ms a
  end.

Definition store_struct {A} (names : list string) (store : string → json → A → option A)
    (v : json) (old : A) : option A :=
  match v with
  | JObj ms => store_fields names store ms old
  | JNull => Some old
  | _ => None
  end.

(** [jsonCodec]; [None] is an error. *)
Class Message (A : Type) := {
  Marshal : A → option (list byte);
  Unmarshal : list byte → option A }.

(** ** Messages *)

Record NotifyRequest := mkNotify { nr_Pending : Z }.
Record Empty := mkEmpty {}.
Record LoadRequest := mkLoad { lr_DMap : string; lr_Key : string; lr_HKey : Z }.
Record LoadResponse := mkLoaded { resp_Found : bool; resp_Record : EntryRecord }.
Record PurgeRequest := mkPurge { pr_MinGeneration : Z }.
Record PurgeResponse := mkPurged { ps_Purged : Z }.

Definition zero_record : EntryRecord := mkRecord "" "" 0 [] 0 0 false 0 0 0 "" zero_time.

Definition store_notify (n : string) (v : json) (r : NotifyRequest) : option NotifyRequest :=
  if String.eqb n "pending" then mkNotify <$> store_uint 64 v (nr_Pending r) else Some r.

Definition store_load (n : string) (v : json) (r : LoadRequest) : option LoadRequest :=
  let 'mkLoad dmap key hkey := r in
  if String.eqb n "dmap" then dmap ← store_string v dmap; Some (mkLoad dmap key hkey)
  else if String.eqb n "key" then key ← store_string v key; Some (mkLoad dmap key hkey)
  else if String.eqb n "hkey" then hkey ← store_uint 64 v hkey; Some (mkLoad dmap key hkey)
  else Some r.

Definition store_drain (n : string) (v : json) (r : DrainPartitionRequest) : option DrainPartitionRequest :=
  let 'mkDrain dmap id count := r in
  if String.eqb n "dmap" then dmap ← store_string v dmap; Some (mkDrain dmap id count)
  else if String.eqb n "partition_id" then id ← store_uint 64 v id; Some (mkDrain dmap id count)
  else if String.eqb n "partition_count" then count ← store_uint 64 v count; Some (mkDrain dmap id count)
  else Some r.

Definition store_purge (n : string) (v : json) (r : PurgeRequest) : option PurgeRequest :=
  if String.eqb n "min_generation" then mkPurge <$> store_int64 v (pr_MinGeneration r) else Some r.

Definition store_purged (n : string) (v : json) (r : PurgeResponse) : option PurgeResponse :=
  if String.eqb n "purged" then mkPurged <$> store_int64 v (ps_Purged r) else Some r.

(** The members of a row; a nil slice is [null], a time is text. *)
Definition record_members (r : EntryRecord) : option (list (string * field)) :=
  updated ← format_time (rec_UpdatedAt r);
  Some [("dmap", FStr (rec_DMap r)); ("key", FStr (rec_Key r)); ("hkey", FInt (rec_HKey r));
        ("encoded_entry", match rec_EncodedEntry r with [] => FNull | l => FBytes l end);
        ("ttl", FInt (rec_TTL r)); ("timestamp", FInt (rec_Timestamp r));
        ("tombstone", FBool (rec_Tombstone r)); ("generation", FInt (rec_Generation r));
        ("epoch", FInt (rec_Epoch r)); ("owner_seq", FInt (rec_OwnerSeq r));
        ("writer_id", FStr (rec_WriterID r)); ("updated_at", FStr (string_of_bytes updated))].

Definition record_names : list string :=
  ["dmap"; "key"; "hkey"; "encoded_entry"; "ttl"; "timestamp"; "tombstone"; "generation"; "epoch";
   "owner_seq"; "writer_id"; "updated_at"].

(** [time.Parse] on a text that is not of the strict form. *)
Class TimeParse := time_Parse : list byte → option Z.

Section control.
Context `{TimeParse}.

Definition store_record (n : string) (v : json) (r : EntryRecord) : option EntryRecord :=
  let 'mkRecord dmap key hkey enc ttl ts tomb gen epoch seq wid upd := r in
  if String.eqb n "dmap" then
    dmap ← store_string v dmap; Some (mkRecord dmap key hkey enc ttl ts tomb gen epoch seq wid upd)
  else if String.eqb n "key" then
    key ← store_string v key; Some (mkRecord dmap key hkey enc ttl ts tomb gen epoch seq wid upd)
  else if String.eqb n "hkey" then
    hkey ← store_uint 64 v hkey; Some (mkRecord dmap key hkey enc ttl ts tomb gen epoch seq wid upd)
  else if String.eqb n "encoded_entry" then
    enc ← store_bytes v enc; Some (mkRecord dmap key hkey enc ttl ts tomb gen epoch seq wid upd)
  else if String.eqb n "ttl" then
    ttl ← store_int64 v ttl; Some (mkRecord dmap key hkey enc ttl ts tomb gen epoch seq wid upd)
  else if String.eqb n "timestamp" then
    ts ← store_int64 v ts; Some (mkRecord dmap key hkey enc ttl ts tomb gen epoch seq wid upd)
  else if String.eqb n "tombstone" then
    tomb ← store_bool v tomb; Some (mkRecord dmap key hkey enc ttl ts tomb gen epoch seq wid upd)
  else if String.eqb n "generation" then
    gen ← store_int64 v gen; Some (mkRecord dmap key hkey enc ttl ts tomb gen epoch seq wid upd)
  else if String.eqb n "epoch" then
    epoch ← store_int64 v epoch; Some (mkRecord dmap key hkey enc ttl ts tomb gen epoch seq wid upd)
  else if String.eqb n "owner_seq" then
    seq ← store_int64 v seq; Some (mkRecord dmap key hkey enc ttl ts tomb gen epoch seq wid upd)
  else if String.eqb n "writer_id" then
    wid ← store_string v wid; Some (mkRecord dmap key hkey enc ttl ts tomb gen epoch seq wid upd)
  else if String.eqb n "updated_at" then
    upd ← store_time time_Parse v upd; Some (mkRecord dmap key hkey enc ttl ts tomb gen epoch seq wid upd)
  else Some r.

Definition store_loaded (n : string) (v : json) (r : LoadResponse) : option LoadResponse :=
  let 'mkLoaded found rec := r in
  if String.eqb n "found" then found ← store_bool v found; Some (mkLoaded found rec)
  else if String.eqb n "record" then
    rec ← store_struct record_names store_record v rec; Some (mkLoaded found rec)
  else Some r.

(** [omitempty] never omits a struct. *)
Definition marshal_loaded (r : LoadResponse) : option (list byte) :=
  ms ← record_members (resp_Record r);
  Some (x7b :: marshal_member ("found", FBool (resp_Found r)) ++ x2c ::
        appendString (bytes_of_string "record") ++ x3a :: marshal_object ms ++ [x7d]).

#[global] Instance Message_Notify : Message NotifyRequest := {|
  Marshal r := Some (marshal_object [("pending", FInt (nr_Pending r))]);
  Unmarshal data := v ← parse_json data; store_struct ["pending"] store_notify v (mkNotify 0) |}.
#[global] Instance Message_Empty : Message Empty := {|
  Marshal _ := Some (marshal_object []);
  Unmarshal data := v ← parse_json data; store_struct [] (λ _ _ a, Some a) v mkEmpty |}.
#[global] Instance Message_Load : Message LoadRequest := {|
  Marshal r := Some (marshal_object [("dmap", FStr (lr_DMap r)); ("key", FStr (lr_Key r)); ("hkey", FInt (lr_HKey r))]);
  Unmarshal data := v ← parse_json data; store_struct ["dmap"; "key"; "hkey"] store_load v (mkLoad "" "" 0) |}.
#[global] Instance Message_Loaded : Message LoadResponse := {|
  Marshal := marshal_loaded;
  Unmarshal data := v ← parse_json data;
    store_struct ["found"; "record"] store_loaded v (mkLoaded false zero_record) |}.
#[global] Instance Message_Drain : Message DrainPartitionRequest := {|
  Marshal r := Some (marshal_object [("dmap", FStr (dr_DMap r)); ("partition_id", FInt (dr_PartitionID r));
    ("partition_count", FInt (dr_PartitionCount r))]);
  Unmarshal data := v ← parse_json data;
    store_struct ["dmap"; "partition_id"; "partition_count"] store_drain v (mkDrain "" 0 0) |}.
#[global] Instance Message_Purge : Message PurgeRequest := {|
  Marshal r := Some (marshal_object [("min_generation", FInt (pr_MinGeneration r))]);
  Unmarshal data := v ← parse_json data; store_struct ["min_generation"] store_purge v (mkPurge 0) |}.
#[global] Instance Message_Purged : Message PurgeResponse := {|
  Marshal r := Some (marshal_object [("purged", FInt (ps_Purged r))]);
  Unmarshal data := v ← parse_json data; store_struct ["purged"] store_purged v (mkPurged 0) |}.

(** ** The socket ([internal/sidecar/transport.go]) *)

Inductive transport_err := ErrSocketPathEmpty | ErrListenSocket | ErrDialSocket | ErrCloseConn.

(** The arguments are the answers of [net.Listen], [grpc.DialContext] and
    [conn.Close]. *)
Definition Listen (listens : string → bool) (socketPath : string) : outcome transport_err () :=
  if String.eqb socketPath "" then Fail ErrSocketPathEmpty else
  if listens socketPath then Done tt else Fail ErrListenSocket.

Definition Dial (dials : string → bool) (socketPath : string) : outcome transport_err () :=
  if String.eqb socketPath "" then Fail ErrSocketPathEmpty else
  if dials ("unix:" +:+ socketPath) then Done tt else Fail ErrDialSocket.

(** [Close] of a client; [None] is a nil client or one without a connection. *)
Definition Client_Close (closes : option bool) : outcome transport_err () :=
  if closes is Some false then Fail ErrCloseConn else Done tt.

(** ** The server *)

Inductive rpc_err :=
| RpcTransport               (** the call did not get through *)
| RpcMarshal | RpcUnmarshal  (** a codec error on either side *)
| RpcUnimplemented
| RpcStatus (e : server_err) (** the handler returned an error *).

Definition handler : Type := list byte → M server rpc_err (list byte).

Definition decode {A} `{Message A} (data : list byte) : M server rpc_err A :=
  match Unmarshal data with Some a => mret a | None => fail RpcUnmarshal end.
Definition encode {A} `{Message A} (a : A) : M server rpc_err (list byte) :=
  match Marshal a with Some data => mret data | None => fail RpcMarshal end.

Context `{WriterOrder} {U : UpsertEngine} (order : list Entry → list Entry).

(** What the database and the clock answer during a call. *)
Context (ans : db_answer) (now : Z).

Definition notifyHandler : handler := λ data,
  in_ ← decode (A := NotifyRequest) data;
  wrap_err RpcStatus Notify;; encode mkEmpty.

Definition loadHandler : handler := λ data,
  in_ ← decode (A := LoadRequest) data;
  found ← wrap_err RpcStatus
    (LoadFromMySQL ans now (Some (mkRef (lr_DMap in_) (lr_Key in_) (lr_HKey in_))));
  encode match found with Some rec => mkLoaded true rec | None => mkLoaded false zero_record end.

Definition drainHandler : handler := λ data,
  in_ ← decode (A := DrainPartitionRequest) data;
  wrap_err RpcStatus (DrainPartition order ans (Some in_));; encode mkEmpty.

Definition purgeHandler : handler := λ data,
  in_ ← decode (A := PurgeRequest) data;
  purged ← wrap_err RpcStatus (PurgeBelowGeneration ans (Some (pr_MinGeneration in_)));
  encode (mkPurged purged).

Definition shutdownHandler : handler := λ data,
  in_ ← decode (A := Empty) data;
  wrap_err RpcStatus (Shutdown order ans);; encode mkEmpty.

Definition ServiceName : string := "sidecar.v1.OplogControl".

(** The methods [RegisterOplogControlServer] registers. *)
Definition oplogControl_methods : list (string * handler) :=
  [("Notify", notifyHandler); ("LoadFromMySQL", loadHandler); ("DrainPartition", drainHandler);
   ("PurgeBelowGeneration", purgeHandler); ("Shutdown", shutdownHandler)].

Definition full_method (name : string) : string := ("/" ++ ServiceName ++ "/" ++ name)%string.

Definition serve (method : string) : handler :=
  match list_find (λ m, full_method m.1 = method) oplogControl_methods with
  | Some (_, (_, h)) => h
  | None => λ _, fail RpcUnimplemented
  end.
End control.

(** ** The client *)

(** How a unary call ends: its answer arrives, it never reaches the server, or
    the server ran the handler and the answer was lost. *)
Inductive delivery := delivered | not_sent | answer_lost.

(** [grpc.ClientConn.Invoke] against a server: the handler of the method runs at
    most once on exactly the bytes sent, and the caller gets exactly its bytes
    or an error. *)
Class UnaryTransport := {
  Invoke : delivery → (string → handler) → string → handler;
  invoke_delivered : ∀ srv method data s, Invoke delivered srv method data s = srv method data s;
  invoke_not_sent : ∀ srv method data s, Invoke not_sent srv method data s = (Fail RpcTransport, s);
  invoke_answer_lost : ∀ srv method data s,
    Invoke answer_lost srv method data s = (Fail RpcTransport, (srv method data s).2) }.

Section client.
Context `{TimeParse} `{WriterOrder} {U : UpsertEngine} (order : list Entry → list Entry).
Context `{UnaryTransport}.
Context (ans : db_answer) (now : Z) (fate : delivery).

(** [cc.Invoke] with the JSON codec on both ends. *)
Definition call {I O} `{Message I, Message O} (method : string) (in_ : I) : M server rpc_err O :=
  data ← encode in_;
  reply ← Invoke fate (serve order ans now) (full_method method) data;
  decode reply.

Definition oplogControlClient_Notify (in_ : NotifyRequest) : M server rpc_err Empty :=
  call "Notify" in_.
Definition oplogControlClient_LoadFromMySQL (in_ : LoadRequest) : M server rpc_err LoadResponse :=
  call "LoadFromMySQL" in_.
Definition oplogControlClient_DrainPartition (in_ : DrainPartitionRequest) : M server rpc_err Empty :=
  call "DrainPartition" in_.
Definition oplogControlClient_PurgeBelowGeneration (in_ : PurgeRequest) : M server rpc_err PurgeResponse :=
  call "PurgeBelowGeneration" in_.
Definition oplogControlClient_Shutdown (in_ : Empty) : M server rpc_err Empty :=
  call "Shutdown" in_.

(** [sidecar.Client]. *)
Definition Client_Notify (pending : Z) : M server rpc_err () :=
  oplogControlClient_Notify (mkNotify pending);; mret tt.
Definition Client_LoadFromMySQL (req : LoadRequest) : M server rpc_err LoadResponse :=
  oplogControlClient_LoadFromMySQL req.
Definition Client_DrainPartition (req : DrainPartitionRequest) : M server rpc_err () :=
  oplogControlClient_DrainPartition req;; mret tt.
Definition Client_PurgeBelowGeneration (minGeneration : Z) : M server rpc_err Z :=
  resp ← oplogControlClient_PurgeBelowGeneration (mkPurge minGeneration);
  mret (ps_Purged resp).
Definition Client_Shutdown : M server rpc_err () := oplogControlClient_Shutdown mkEmpty;; mret tt.

(** The adapters of the node; [None] is [false]. *)
Definition controlAdapter_Notify (pending : Z) : M server rpc_err () := Client_Notify pending.
Definition controlAdapter_LoadFromMySQL (dmap key : string) (hkey : Z) :
    M server rpc_err (option EntryRecord) :=
  resp ← Client_LoadFromMySQL (mkLoad dmap key hkey);
  if resp_Found resp then mret (Some (resp_Record resp)) else mret None.
Definition controlAdapter_DrainPartition (dmap : string) (partitionID partitionCount : Z) :
    M server rpc_err () :=
  Client_DrainPartition (mkDrain dmap partitionID partitionCount).
Definition sidecarPurger_PurgeBelowGeneration (minGeneration : Z) : M server rpc_err Z :=
  Client_PurgeBelowGeneration minGeneration.
End client.

(** What the hook sees of a load. *)
Definition answer_of (r : outcome rpc_err (option EntryRecord)) : load_answer :=
  match r with Done (Some rec) => load_found rec | Done None => load_absent | _ => load_error end.

(** ** Round trips of the messages *)

Lemma store_fields_member {A} names (store : string → json → A → option A) n f ms a a' :
  match_field names (to_valid_utf8 (bytes_of_string n)) = Some n →
  store n (field_json f) a = Some a' →
  store_fields names store (member_json (n, f) :: ms) a = store_fields names store ms a'.
Proof. intros Hn Hs. cbn [store_fields member_json fst snd]. by rewrite Hn, Hs. Qed.

(** Stores the members one by one: the branch of the name is evaluated, the
    value is read back by the lemmas on numbers and byte slices. *)
Ltac store_branch :=
  repeat match goal with
  | |- context [String.eqb ?a ?b] =>
    let r := eval vm_compute in (String.eqb a b) in change (String.eqb a b) with r; cbv iota
  end;
  rewrite ?store_int64_appendInt by (done || lia);
  rewrite ?(store_uint_appendInt 64) by (done || lia);
  reflexivity.
Ltac store_members store :=
  rewrite ?fmap_cons, ?fmap_nil;
  repeat (erewrite store_fields_member;
    [|vm_compute; reflexivity|unfold store; cbn [field_json]; store_branch]);
  cbn [store_fields].
Ltac round_trip store :=
  rewrite parse_marshal_object by (repeat constructor; simpl; unfold int64_ok, minInt64, maxInt64 in *; lia);
  cbn [mbind option_bind store_struct]; store_members store; try done.

Definition json_ref (r : EntryRef) : EntryRef :=
  mkRef (json_string (ref_DMap r)) (json_string (ref_Key r)) (ref_HKey r).

Section messages.
Context `{TimeParse}.

Lemma load_request_round_trip d k h data :
  0 ≤ h < 2 ^ 64 → Marshal (mkLoad d k h) = Some data →
  Unmarshal data = Some (mkLoad (json_string d) (json_string k) h).
Proof.
  intros Hh <-%(inj Some). cbn [Unmarshal Message_Load lr_DMap lr_Key lr_HKey]. round_trip store_load.
Qed.

Lemma drain_request_round_trip d i n data :
  0 ≤ i < 2 ^ 64 → 0 ≤ n < 2 ^ 64 → Marshal (mkDrain d i n) = Some data →
  Unmarshal data = Some (mkDrain (json_string d) i n).
Proof.
  intros Hi Hn <-%(inj Some). cbn [Unmarshal Message_Drain dr_DMap dr_PartitionID dr_PartitionCount].
  round_trip store_drain.
Qed.

Lemma notify_request_round_trip n data :
  0 ≤ n < 2 ^ 64 → Marshal (mkNotify n) = Some data → Unmarshal data = Some (mkNotify n).
Proof. intros Hn <-%(inj Some). cbn [Unmarshal Message_Notify nr_Pending]. round_trip store_notify. Qed.

Lemma purge_request_round_trip n data :
  int64_ok n → Marshal (mkPurge n) = Some data → Unmarshal data = Some (mkPurge n).
Proof. intros Hn <-%(inj Some). cbn [Unmarshal Message_Purge pr_MinGeneration]. round_trip store_purge. Qed.

Lemma purge_response_round_trip n data :
  int64_ok n → Marshal (mkPurged n) = Some data → Unmarshal data = Some (mkPurged n).
Proof. intros Hn <-%(inj Some). cbn [Unmarshal Message_Purged ps_Purged]. round_trip store_purged. Qed.

Lemma empty_round_trip data : Marshal mkEmpty = Some data → Unmarshal data = Some mkEmpty.
Proof. intros <-%(inj Some). by vm_compute. Qed.
End messages.

(** A row with values of its Go types and a time JSON can write. *)
Record record_typed (r : EntryRecord) : Prop := {
  rt_hkey : 0 ≤ rec_HKey r < 2 ^ 64;
  rt_ttl : int64_ok (rec_TTL r);
  rt_timestamp : int64_ok (rec_Timestamp r);
  rt_generation : int64_ok (rec_Generation r);
  rt_epoch : int64_ok (rec_Epoch r);
  rt_seq : int64_ok (rec_OwnerSeq r);
  rt_updated : is_Some (format_time (rec_UpdatedAt r)) }.

(** A row after a trip through JSON. *)
Definition json_record (r : EntryRecord) : EntryRecord :=
  mkRecord (json_string (rec_DMap r)) (json_string (rec_Key r)) (rec_HKey r) (rec_EncodedEntry r)
    (rec_TTL r) (rec_Timestamp r) (rec_Tombstone r) (rec_Generation r) (rec_Epoch r) (rec_OwnerSeq r)
    (json_string (rec_WriterID r)) (rec_UpdatedAt r).

Lemma entry_record_typed e : entry_typed e → record_typed (recordFromEntry e).
Proof. intros (?&?&?&?&?&?&?&Hu). constructor; [done..|]. by apply format_time_int64. Qed.

Lemma zero_record_typed : record_typed zero_record.
Proof. constructor; [done..|]. apply format_zero_time. Qed.

Section responses.
Context `{TimeParse}.

Lemma store_record_members r ms :
  record_typed r → record_members r = Some ms →
  store_fields record_names store_record (member_json <$> ms) zero_record = Some (json_record r).
Proof.
  intros [? ? ? ? ? ? [text Hu]]. unfold record_members. rewrite Hu. intros <-%(inj Some).
  assert (store_time time_Parse (field_json (FStr (string_of_bytes text))) zero_time
    = Some (rec_UpdatedAt r)) as Htime.
  { cbn [field_json store_time]. rewrite bytes_string, ascii_valid by (by eapply format_time_ascii).
    by rewrite (time_round_trip _ _ Hu). }
  assert (store_bytes (field_json match rec_EncodedEntry r with [] => FNull | l => FBytes l end) []
    = Some (rec_EncodedEntry r)) as Henc.
  { destruct (rec_EncodedEntry r); [done|]. apply base64_round_trip. }
  unfold zero_record. rewrite ?fmap_cons, ?fmap_nil.
  repeat (erewrite store_fields_member;
    [|vm_compute; reflexivity|unfold store_record; first [by rewrite Htime|by rewrite Henc|cbn [field_json]; store_branch]]).
  done.
Qed.

Lemma load_response_round_trip found r :
  record_typed r →
  ∃ data, Marshal (mkLoaded found r) = Some data ∧ Unmarshal data = Some (mkLoaded found (json_record r)).
Proof.
  intros Hr. pose proof (rt_updated r Hr) as [text Hu].
  assert (∃ ms, record_members r = Some ms) as [ms Hms].
  { unfold record_members. rewrite Hu. by eexists. }
  assert (Forall (λ m, field_ok m.2) ms) as Hok.
  { destruct Hr. unfold record_members in Hms. rewrite Hu in Hms. apply (inj Some) in Hms as <-.
    repeat constructor; simpl; try (unfold int64_ok, minInt64, maxInt64 in *; lia).
    by destruct (rec_EncodedEntry r). }
  eexists. cbn [Marshal Unmarshal Message_Loaded]. unfold marshal_loaded. cbn [resp_Record resp_Found].
  rewrite Hms. split; [reflexivity|]. rewrite parse_marshal_nested by done.
  cbn [mbind option_bind store_struct].
  erewrite store_fields_member; [|vm_compute; reflexivity|unfold store_loaded; cbn [field_json]; store_branch].
  cbn [store_fields fst snd].
  change (match_field ["found"; "record"] (to_valid_utf8 (bytes_of_string "record"))) with (Some "record").
  cbv iota. unfold store_loaded.
  change (String.eqb "record" "found") with false. change (String.eqb "record" "record") with true.
  cbv iota. cbn [store_struct]. by rewrite (store_record_members r ms).
Qed.
End responses.

(** ** Calls *)

(** A method of the server as a client sees it through a call. *)
Definition through {A} (fate : delivery) (m : M server server_err A) : M server rpc_err A := λ s,
  match fate with
  | delivered => wrap_err RpcStatus m s
  | not_sent => (Fail RpcTransport, s)
  | answer_lost => (Fail RpcTransport, (m s).2)
  end.

Section calls.
Context `{TimeParse} `{WriterOrder} {U : UpsertEngine} (order : list Entry → list Entry).
Context `{UnaryTransport}.

(** A call whose handler runs [m] and encodes [f] of its result, which the
    client decodes to [g]. *)
Lemma call_through {I O A} `{Message I, Message O} (method : string) (in_ : I) data ans now fate
    (m : M server server_err A) (f g : A → O) s :
  Marshal in_ = Some data →
  (∀ s, serve order ans now (full_method method) data s =
        (a ← wrap_err RpcStatus m; encode (f a)) s) →
  (∀ a s', m s = (Done a, s') → ∃ reply, Marshal (f a) = Some reply ∧ Unmarshal reply = Some (g a)) →
  call order ans now fate method in_ s = (a ← through fate m; mret (g a)) s.
Proof.
  intros Hm Hserve Hreply. unfold call, encode at 1. rewrite Hm.
  unfold mbind, M_bind, mret, M_ret, through.
  destruct fate; [rewrite invoke_delivered|by rewrite invoke_not_sent|].
  - rewrite Hserve. unfold mbind, M_bind, wrap_err.
    destruct (m s) as [[a|e|] s'] eqn:Ha; [|done..].
    destruct (Hreply a s' eq_refl) as (reply&Hr&Hd).
    unfold encode, decode. rewrite Hr. unfold mret, M_ret. by rewrite Hd.
  - rewrite invoke_answer_lost, Hserve. unfold mbind, M_bind, wrap_err.
    destruct (m s) as [[a|e|] s'] eqn:Ha; [|done..]. unfold encode. cbn [fst snd].
    by destruct (Marshal (f a)).
Qed.

Lemma empty_reply (s : server) {A} (m : M server server_err A) :
  ∀ a s', m s = (Done a, s') →
  ∃ reply, Marshal mkEmpty = Some reply ∧ Unmarshal reply = Some mkEmpty.
Proof. intros. eexists. split; [reflexivity|]. by apply empty_round_trip. Qed.
Context (ans : db_answer) (now : Z) (fate : delivery).

Ltac same_run m s :=
  unfold mbind, M_bind, through, wrap_err; by destruct fate; destruct (m s) as [[a|e|] s']; [destruct a|..].

Lemma load_through dmap key hkey s :
  let load := LoadFromMySQL ans now (Some (json_ref (mkRef dmap key hkey))) in
  0 ≤ hkey < 2 ^ 64 → (∀ rec s', load s = (Done (Some rec), s') → record_typed rec) →
  controlAdapter_LoadFromMySQL order ans now fate dmap key hkey s =
  through fate (found ← load; mret (json_record <$> found)) s.
Proof.
  intros load Hh Ht. unfold controlAdapter_LoadFromMySQL, Client_LoadFromMySQL, oplogControlClient_LoadFromMySQL.
  destruct (Marshal (mkLoad dmap key hkey)) as [data|] eqn:Hm; [|done].
  pose proof (load_request_round_trip _ _ _ _ Hh Hm) as Hu.
  set (resp := λ found, match found with Some rec => mkLoaded true rec | None => mkLoaded false zero_record end).
  set (resp' := λ found, match found with Some rec => mkLoaded true (json_record rec) | None => mkLoaded false (json_record zero_record) end).
  unfold mbind at 1, M_bind at 1.
  rewrite (call_through "LoadFromMySQL" _ data ans now fate load resp resp' s Hm).
  - unfold mbind, M_bind, through, wrap_err.
    by destruct fate; destruct (load s) as [[[rec|]|e|] s'].
  - intros s2. change (serve order ans now (full_method "LoadFromMySQL")) with (loadHandler ans now).
    unfold loadHandler, decode. rewrite Hu. unfold mbind at 1, M_bind at 1, mret at 1, M_ret at 1. done.
  - intros [rec|] s' Hs; [apply load_response_round_trip; by eapply Ht|].
    apply load_response_round_trip, zero_record_typed.
Qed.

Lemma drain_through dmap i n s :
  0 ≤ i < 2 ^ 64 → 0 ≤ n < 2 ^ 64 →
  controlAdapter_DrainPartition order ans now fate dmap i n s =
  through fate (DrainPartition order ans (Some (mkDrain (json_string dmap) i n))) s.
Proof.
  intros Hi Hn. unfold controlAdapter_DrainPartition, Client_DrainPartition, oplogControlClient_DrainPartition.
  destruct (Marshal (mkDrain dmap i n)) as [data|] eqn:Hm; [|done].
  pose proof (drain_request_round_trip _ _ _ _ Hi Hn Hm) as Hu.
  set (m := DrainPartition order ans _). unfold mbind at 1, M_bind at 1.
  rewrite (call_through "DrainPartition" _ data ans now fate m (λ _, mkEmpty) (λ _, mkEmpty) s Hm).
  - same_run m s.
  - intros s2. change (serve order ans now (full_method "DrainPartition")) with (drainHandler order ans).
    unfold drainHandler, decode. rewrite Hu. done.
  - apply empty_reply.
Qed.

Lemma purge_through g s :
  let purge := PurgeBelowGeneration ans (Some g) in
  int64_ok g → (∀ n s', purge s = (Done n, s') → int64_ok n) →
  sidecarPurger_PurgeBelowGeneration order ans now fate g s = through fate purge s.
Proof.
  intros m Hg Hn. unfold sidecarPurger_PurgeBelowGeneration, Client_PurgeBelowGeneration,
    oplogControlClient_PurgeBelowGeneration.
  destruct (Marshal (mkPurge g)) as [data|] eqn:Hm; [|done].
  pose proof (purge_request_round_trip _ _ Hg Hm) as Hu. unfold mbind at 1, M_bind at 1.
  rewrite (call_through "PurgeBelowGeneration" _ data ans now fate m mkPurged mkPurged s Hm).
  - same_run m s.
  - intros s2. change (serve order ans now (full_method "PurgeBelowGeneration")) with (purgeHandler ans).
    unfold purgeHandler, decode. rewrite Hu. done.
  - intros n s' Hs. eexists. split; [reflexivity|]. apply purge_response_round_trip; [by eapply Hn|done].
Qed.

Lemma notify_through n s :
  0 ≤ n < 2 ^ 64 → controlAdapter_Notify order ans now fate n s = through fate Notify s.
Proof.
  intros Hn. unfold controlAdapter_Notify, Client_Notify, oplogControlClient_Notify.
  destruct (Marshal (mkNotify n)) as [data|] eqn:Hm; [|done].
  pose proof (notify_request_round_trip _ _ Hn Hm) as Hu. unfold mbind at 1, M_bind at 1.
  rewrite (call_through "Notify" _ data ans now fate Notify (λ _, mkEmpty) (λ _, mkEmpty) s Hm).
  - by destruct fate.
  - intros s2. change (serve order ans now (full_method "Notify")) with notifyHandler.
    unfold notifyHandler, decode. rewrite Hu. done.
  - apply empty_reply.
Qed.

Lemma shutdown_through s :
  Client_Shutdown order ans now fate s = through fate (Shutdown order ans) s.
Proof.
  unfold Client_Shutdown, oplogControlClient_Shutdown.
  destruct (Marshal mkEmpty) as [data|] eqn:Hm; [|done].
  pose proof (empty_round_trip _ Hm) as Hu. set (m := Shutdown order ans).
  unfold mbind at 1, M_bind at 1.
  rewrite (call_through "Shutdown" _ data ans now fate m (λ _, mkEmpty) (λ _, mkEmpty) s Hm).
  - same_run m s.
  - intros s2. change (serve order ans now (full_method "Shutdown")) with (shutdownHandler order ans).
    unfold shutdownHandler, decode. rewrite Hu. done.
  - apply empty_reply.
Qed.


(** ** Theorems *)

End calls.

(** ** Witness *)

Definition strict_time : TimeParse := λ _, None.

(** A transport with the documented behaviour. *)
#[export, refine] Instance plain_transport : UnaryTransport := {|
  Invoke fate srv method data := λ s,
    match fate with
    | delivered => srv method data s
    | not_sent => (Fail RpcTransport, s)
    | answer_lost => (Fail RpcTransport, (srv method data s).2)
    end |}.
Proof. all: done. Defined.

