(* ===== verification/Dmap.v ===== *)
(** * The owner's read and write path in the fork
      ([third_party/olric/internal/dmap]: [put.go], [delete.go], [expire.go],
      [get.go], [fragment.go])

    The partition owner of a key holds a fragment (the storage engine of
    [Engine]) and calls the durable hook of [Hook] around every mutation.  An
    operation reads the clock at several points and lets other operations run
    while it does not hold the fragment's lock: both are arguments, [world] is
    whatever happened to the owner in the unlocked window.  The answers of
    other members are arguments too.

    A node configures a durable hook, no eviction policy and no read repair, so
    the branches of the fork for a nil hook, for LRU eviction and for read
    repair are left out.  Creating the fragment of a partition yields an empty
    engine and is not a step of its own. *)

From stdpp Require Import sorting.
From S2P Require Import Prelude Records Json Oplog OplogRing Messages Lease Engine Hook.

Inductive dmap_err :=
| DErrKeyFound
| DErrKeyNotFound
| DErrWriteQuorum
| DErrReadQuorum
| DErrServerGone
| DErrReplicationMode
| DErrPeer                    (** what another member or the way to it answered *)
| DErrHook (e : hook_err).

Abbreviation frag := (gmap Z StorageEntry).

(** The owner of a partition: the node's hook and the fragment. *)
Record owner := mkOwner { o_hook : hook; o_frag : frag }.

Definition set_o_hook (h : hook) (o : owner) : owner := mkOwner h (o_frag o).
Definition set_o_frag (f : frag) (o : owner) : owner := mkOwner (o_hook o) f.

Definition with_hook {A} (m : M hook hook_err A) : M owner dmap_err A :=
  zoom o_hook set_o_hook (wrap_err DErrHook m).
Definition on_frag {A} (m : M frag dmap_err A) : M owner dmap_err A := zoom o_frag set_o_frag m.

(** ** Options and environment of a write *)

Record PutConfig := mkPutConfig {
  HasEX : bool; EX : Z;
  HasPX : bool; PX : Z;
  HasEXAT : bool; EXAT : Z;
  HasPXAT : bool; PXAT : Z;
  HasNX : bool;
  HasXX : bool;
  OnlyUpdateTTL : bool }.

Definition no_options : PutConfig :=
  mkPutConfig false 0 false 0 false 0 false 0 false false false.

Record env := mkEnv {
  e_putConfig : PutConfig;
  e_hkey : Z;
  e_timestamp : Z;
  e_dmap : string;
  e_key : string;
  e_value : list byte;
  e_timeout : Z }.

Definition set_timeout (t : Z) (e : env) : env :=
  mkEnv (e_putConfig e) (e_hkey e) (e_timestamp e) (e_dmap e) (e_key e) (e_value e) t.

(** What a backup owner answers to a synchronous put. *)
Inductive replica_answer := ra_stored | ra_refused | ra_unreachable.

(** The replication the configuration asks for, with what its backup owners do:
    in asynchronous mode, whether this member is still alive before each one. *)
Inductive replication :=
| single_replica
| async_replicas (alive : list bool)
| sync_replicas (answers : list replica_answer)
| unknown_mode.

Record dmap_config := mkDMapConfig {
  dc_ttlDuration : Z;
  dc_maxIdleDuration : Z;
  dc_WriteQuorum : Z;
  dc_ReadQuorum : Z }.

(** ** Expiry *)

Definition isKeyExpired (now ttl : Z) : bool :=
  if ttl =? 0 then false else ttl <=? Z.quot (i64 now) 1000000.

Definition prepareTTL (now : Z) (e : env) : Z :=
  let c := e_putConfig e in
  if HasEX c then Z.quot (i64 (EX c + i64 now)) 1000000 else
  if HasPX c then Z.quot (i64 (PX c + i64 now)) 1000000 else
  if HasEXAT c then Z.quot (EXAT c) 1000000 else
  if HasPXAT c then Z.quot (PXAT c) 1000000 else
  if negb (e_timeout e =? 0) then Z.quot (i64 (e_timeout e + i64 now)) 1000000 else 0.

Definition isKeyIdleOnFragment (now : Z) (c : dmap_config) (hkey : Z) (f : frag) : bool :=
  if dc_maxIdleDuration c =? 0 then false else
  match Engine_GetLastAccess hkey f with
  | (Done lastAccess, _) =>
    isKeyExpired now (Z.quot (i64 (dc_maxIdleDuration c + lastAccess)) 1000000)
  | _ => false
  end.

(** ** Put *)

Definition prepareEntry (now : Z) (e : env) : StorageEntry :=
  mkSE (e_key e) (e_value e) (prepareTTL now e) (e_timestamp e) 0.

Definition storage_err (e : engine_err) : dmap_err :=
  match e with ErrKeyNotFound => DErrKeyNotFound | _ => DErrPeer end.

Definition putEntryOnFragment (onlyUpdateTTL : bool) (hkey : Z) (nt : StorageEntry) :
    M frag dmap_err () :=
  wrap_err storage_err
    (if onlyUpdateTTL then Engine_UpdateTTL hkey nt else Engine_Put hkey nt).

(** The loop over the backup owners in asynchronous mode. *)
Fixpoint async_backups (alive : list bool) : M frag dmap_err () :=
  match alive with
  | [] => mret tt
  | a :: alive => if negb a then fail DErrServerGone else async_backups alive
  end.

Definition asyncPutOnCluster (alive : list bool) (onlyTTL : bool) (hkey : Z) (nt : StorageEntry) :
    M frag dmap_err () :=
  putEntryOnFragment onlyTTL hkey nt;; async_backups alive.

(** The loop over the backup owners in synchronous mode: how many stored it. *)
Fixpoint sync_backups (answers : list replica_answer) (successful : Z) : M frag dmap_err Z :=
  match answers with
  | [] => mret successful
  | ra_unreachable :: _ => fail DErrPeer
  | ra_refused :: answers => sync_backups answers successful
  | ra_stored :: answers => sync_backups answers (successful + 1)
  end.

Definition syncPutOnCluster (quorum : Z) (answers : list replica_answer) (onlyTTL : bool) (hkey : Z)
    (nt : StorageEntry) : M frag dmap_err () :=
  successful ← sync_backups answers 0;
  successful ← ((λ f, match putEntryOnFragment onlyTTL hkey nt f with
                      | (Done _, f) => (Done (successful + 1), f)
                      | (_, f) => (Done successful, f)
                      end) : M frag dmap_err Z);
  if quorum <=? successful then mret tt else fail DErrWriteQuorum.

Definition putOnClusterAfterDurable (c : dmap_config) (r : replication) (onlyTTL : bool) (hkey : Z)
    (nt : StorageEntry) : M frag dmap_err () :=
  match r with
  | async_replicas alive => asyncPutOnCluster alive onlyTTL hkey nt
  | sync_replicas answers => syncPutOnCluster (dc_WriteQuorum c) answers onlyTTL hkey nt
  | unknown_mode => fail DErrReplicationMode
  | single_replica => putEntryOnFragment onlyTTL hkey nt
  end.

Definition checkPutConditions (now : Z) (e : env) : M frag dmap_err () := λ f,
  let nx :=
    if HasNX (e_putConfig e) then
      match Engine_GetTTL (e_hkey e) f with
      | (Done ttl, _) => if negb (isKeyExpired now ttl) then Some DErrKeyFound else None
      | (Fail ErrKeyNotFound, _) => None
      | (Fail err, _) => Some (storage_err err)
      | (Panic, _) => None
      end
    else None in
  match nx with
  | Some err => (Fail err, f)
  | None =>
    if HasXX (e_putConfig e) && negb (Engine_Check (e_hkey e) f) then
      match Engine_GetTTL (e_hkey e) f with
      | (Done ttl, _) => if isKeyExpired now ttl then (Fail DErrKeyNotFound, f) else (Done tt, f)
      | (Fail err, _) => (Fail (storage_err err), f)
      | (Panic, _) => (Panic, f)
      end
    else (Done tt, f)
  end.

(** Where a write reads the clock, and what other operations of the node do
    meanwhile: to everything before it has the fragment's lock, and only to the
    hook (its lease, sequencer and ring are shared by all fragments) once it
    has. *)
Record schedule := mkSchedule {
  t_prepare : Z;      (** [prepareTTL] *)
  t_before : Z;       (** [BeforeSet], [BeforeDelete], [BeforeExpire] *)
  t_verify : Z;       (** [VerifyAfterLock] *)
  t_check : Z;        (** [checkPutConditions] *)
  t_after : Z;        (** [AfterSet], [AfterDelete], [AfterExpire] *)
  s_lock : owner → owner;         (** before the lock is taken *)
  s_verify : hook → hook;         (** before [VerifyAfterLock] *)
  s_after : hook → hook }.        (** before [AfterX] *)

Definition elsewhere (g : hook → hook) : M owner dmap_err () :=
  modify (λ o, set_o_hook (g (o_hook o)) o).

(** [VerifyAfterLock] under the fragment's lock; on its error the prepared
    record is aborted and the error returned. *)
Definition verified (kind : string) (t : schedule) (op : DurableOperation) (body : M owner dmap_err ()) :
    M owner dmap_err () := λ o,
  match (elsewhere (s_verify t);; with_hook (VerifyAfterLock (t_verify t) op)) o with
  | (Fail vErr, o) => (Fail vErr, (with_hook (after kind (t_after t) op true []) o).2)
  | (Panic, o) => (Panic, o)
  | (Done _, o) => body o
  end.

(** The mutation, then the hook's [AfterX] with the mutation's result; the
    mutation's error goes before the hook's. *)
Definition durably (kind : string) (t : schedule) (waits : list wait) (op : DurableOperation)
    (mutation : M owner dmap_err ()) : M owner dmap_err () := λ o,
  match mutation o with
  | (Panic, o) => (Panic, o)
  | (Done _, o) => (elsewhere (s_after t);; with_hook (after kind (t_after t) op false waits)) o
  | (Fail mutErr, o) => (Fail mutErr, (with_hook (after kind (t_after t) op true waits) o).2)
  end.

Definition durable_op (e : env) (entry : option StorageEntry) : DurableOperation :=
  mkOp (e_dmap e) (e_key e) (e_hkey e) entry 0 0.

(** What runs under the lock for a set whose record is prepared. *)
Definition set_locked (c : dmap_config) (r : replication) (t : schedule) (waits : list wait) (e : env)
    (nt : StorageEntry) (op : DurableOperation) : M owner dmap_err () :=
  verified OpSet t op (λ o,
    match on_frag (checkPutConditions (t_check t) e) o with
    | (Fail err, o) => (Fail err, (with_hook (AfterSet (t_after t) op true waits) o).2)
    | (Panic, o) => (Panic, o)
    | (Done _, o) =>
      durably OpSet t waits op (on_frag (putOnClusterAfterDurable c r false (e_hkey e) nt)) o
    end).

(** What runs under the lock for an expire. *)
Definition expire_locked (c : dmap_config) (r : replication) (t : schedule) (waits : list wait) (e : env)
    (nt : StorageEntry) : M owner dmap_err () :=
  on_frag (checkPutConditions (t_check t) e);;
  current ← on_frag (wrap_err storage_err (Engine_Get (e_hkey e)));
  let current := mkSE (se_key current) (se_value current) (se_ttl nt) (se_timestamp nt)
                   (se_lastAccess nt) in
  op ← with_hook (BeforeExpire (t_before t) (durable_op e (Some current)));
  durably OpExpire t waits op (on_frag (putOnClusterAfterDurable c r true (e_hkey e) nt)).

Definition effective_timeout (c : dmap_config) (e : env) : env :=
  if negb (dc_ttlDuration c =? 0) && (e_timeout e =? 0) then set_timeout (dc_ttlDuration c) e else e.

Definition putOnCluster (c : dmap_config) (r : replication) (t : schedule) (waits : list wait) (e : env) : M owner dmap_err () :=
  let e := effective_timeout c e in
  let nt := prepareEntry (t_prepare t) e in
  if OnlyUpdateTTL (e_putConfig e)
  then modify (s_lock t);; expire_locked c r t waits e nt
  else op ← with_hook (BeforeSet (t_before t) (durable_op e (Some nt)));
       modify (s_lock t);; set_locked c r t waits e nt op.

(** [Expire]'s environment. *)
Definition expire_env (dmap key : string) (hkey timestamp timeout : Z) : env :=
  mkEnv (mkPutConfig false 0 false 0 false 0 false 0 false false true) hkey timestamp dmap key []
    timeout.

(** ** Delete *)

(** The answers of the previous owners, newest first, until one fails. *)
Definition deleteFromPreviousOwners (answers : list bool) : M frag dmap_err () :=
  if forallb id answers then mret tt else fail DErrPeer.

Definition deleteBackupOnCluster (answers : list bool) : M frag dmap_err () :=
  if forallb id answers then mret tt else fail DErrPeer.

Definition deleteOnCluster (hkey : Z) (previous backups : list bool) : M frag dmap_err () :=
  deleteFromPreviousOwners previous;;
  deleteBackupOnCluster backups;;
  wrap_err storage_err (Engine_Delete hkey).

Definition deleteKey (previous backups : list bool) (t : schedule) (waits : list wait)
    (dmap key : string) (hkey : Z) : M owner dmap_err () := λ o,
  let resident := Engine_Check hkey (o_frag o) in
  (op ← with_hook (BeforeDelete (t_before t) (mkOp dmap key hkey None 0 0));
   verified OpDelete t op
     (if negb resident
      then elsewhere (s_after t);; with_hook (AfterDelete (t_after t) op false waits)
      else durably OpDelete t waits op (on_frag (deleteOnCluster hkey previous backups)))) o.

(** ** Get *)

(** [sort.Slice] of the versions with the comparison [>=] on time stamps: a
    permutation, and decreasing when no two time stamps are equal.  Between
    equal ones [>=] is no order and nothing is said. *)
Class VersionSort := {
  sortVersions : list StorageEntry → list StorageEntry;
  sortVersions_perm l : sortVersions l ≡ₚ l;
  sortVersions_sorted l : NoDup (se_timestamp <$> l) →
    StronglySorted (λ a b, se_timestamp b < se_timestamp a) (sortVersions l) }.

Definition lookupOnThisNode (hkey : Z) (f : frag) : option StorageEntry :=
  match Engine_Get hkey f with (Done value, _) => Some value | _ => None end.

Definition sanitizeAndSortVersions `{VersionSort} (versions : list (option StorageEntry)) :
    list StorageEntry :=
  let sanitized := omap id versions in
  if zlen sanitized <=? 1 then sanitized else sortVersions sanitized.

(** [lookupOnOwners], and [lookupOnReplicas] when the quorum asks for it;
    [previous] and [replicas] are the versions the other members answered. *)
Definition versions_of (c : dmap_config) (hkey : Z) (previous replicas : list StorageEntry)
    (f : frag) : list (option StorageEntry) :=
  let versions := lookupOnThisNode hkey f :: (Some <$> previous) in
  if 1 <=? dc_ReadQuorum c then versions ++ (Some <$> replicas) else versions.

Definition getOnCluster `{VersionSort} (c : dmap_config) (now : Z) (hkey : Z)
    (previous replicas : list StorageEntry) (f : frag) : outcome dmap_err StorageEntry :=
  let versions := versions_of c hkey previous replicas f in
  if zlen versions <? dc_ReadQuorum c then Fail DErrReadQuorum else
  match sanitizeAndSortVersions versions with
  | [] => Fail DErrKeyNotFound
  | (winner :: _) as sorted =>
    if zlen sorted <? dc_ReadQuorum c then Fail DErrReadQuorum else
    if isKeyExpired now (se_ttl winner) || isKeyIdleOnFragment now c hkey f
    then Fail DErrKeyNotFound else Done winner
  end.

(** The refill under the fragment's lock after [LoadOnMiss]. *)
Definition refill (hkey : Z) (entry : StorageEntry) : M frag dmap_err StorageEntry := λ f,
  match Engine_Get hkey f with
  | (Done existing, f) => (Done existing, f)
  | _ => (putEntryOnFragment false hkey entry;; mret entry) f
  end.

Definition load_err (e : hook_err) : dmap_err :=
  match e with ErrNotFoundOnMiss => DErrKeyNotFound | e => DErrHook e end.

Definition Get `{VersionSort} (c : dmap_config) (now : Z) (previous replicas : list StorageEntry)
    (control : option load_answer) (spare : list byte) (world : owner → owner)
    (dmap key : string) (hkey : Z) : M owner dmap_err StorageEntry := λ o,
  match getOnCluster c now hkey previous replicas (o_frag o) with
  | Fail DErrKeyNotFound =>
    match LoadOnMiss control (mkOp dmap key hkey (Some (mkSE "" [] 0 0 0)) 0 0) spare with
    | Done entry => (modify world;; on_frag (refill hkey entry)) o
    | Fail err => (Fail (load_err err), o)
    | Panic => (Panic, o)
    end
  | r => (r, o)
  end.

(** ** Move *)

(** The hand-over of a fragment: [owners] say whether they accept the payload
    they are sent, [control] is the sidecar's answer to the drain. *)
Definition Move `{Msgpack} (control : option bool) (partitionCount : Z)
    (owners : list (list byte → bool)) : M frag dmap_err () := λ f,
  match DrainForHandoff control partitionCount with
  | Fail err => (Fail (DErrHook err), f)
  | Panic => (Panic, f)
  | Done _ =>
    let '(more, i) := it_Next (TransferIterator f) in
    if negb more then (Done tt, f) else
    match it_Export i with
    | Done payload =>
      if forallb (λ accepts : list byte → bool, accepts payload) owners
      then (Done tt, it_Drop i f) else (Fail DErrPeer, f)
    | Fail err => (Fail (storage_err err), f)
    | Panic => (Panic, f)
    end
  end.

(** ** Lemmas on the write path *)

(** Operations elsewhere on the node keep the hook in order. *)
Definition harmless (g : hook → hook) : Prop := ∀ h q, hook_wf h q →
  (∃ q', hook_wf (g h) q') ∧ h_capacity (g h) = h_capacity h ∧
  h_writerID (g h) = h_writerID h ∧ h_onFatal (g h) = h_onFatal h.

Definition harmless_schedule (t : schedule) : Prop :=
  (∀ f, harmless (λ h, o_hook (s_lock t (mkOwner h f)))) ∧ harmless (s_verify t) ∧ harmless (s_after t).

(** The newest record of the ring is the operation's, under the newest fence. *)
Definition logged (kind : string) (op : DurableOperation) (h : hook) : Prop :=
  ∃ now q payload H T, ring_wf (h_capacity h) (h_ring h) H T (q ++ [payload]) ∧
    Decode payload = Done (wire_entry op kind (seq_triple (h_seq h)) now (h_writerID h)).

(** The hook of a node that serves: in order, of a usable size and with a
    callback for fatal errors. *)
Definition serving_hook (w : string) (cap : Z) (h : hook) : Prop :=
  (∃ q, hook_wf h q) ∧ h_capacity h = cap ∧ h_writerID h = w ∧ h_onFatal h = true.

Lemma harmless_serving g w cap h : harmless g → serving_hook w cap h → serving_hook w cap (g h).
Proof.
  intros Hg ([q Hq]&Hc&Hw&Hf). destruct (Hg _ _ Hq) as (?&?&?&?).
  unfold serving_hook. split_and!; congruence || done.
Qed.

Lemma op_ok_fence op kind w g e :
  op_ok op kind w → g ≤ maxInt64 → e ≤ maxInt64 → op_ok (set_fence g e op) kind w.
Proof. intros [] ??. by split. Qed.

(** The hook [AfterX] leaves behind when it succeeds, with what it logged. *)
Definition published (kind : string) (t : schedule) (waits : list wait) (op : DurableOperation)
    (h h' : hook) : Prop :=
  after kind (t_after t) op false waits (s_after t h) = (Done tt, h') ∧ logged kind op h'.

Lemma after_logs kind now op waits w cap h :
  serving_hook w cap h → op_ok op kind w →
  Forall (λ x, consumer_pops cap (w_ring x)) waits →
  match after kind now op false waits h with
  | (Done _, h') => logged kind op h'
  | (Fail _, h') => h_fatal h' ≠ None
  | (Panic, _) => False
  end.
Proof.
  intros ([q Hq]&<-&<-&Hf) Hop Hw. pose proof (after_run kind now op waits h q Hq Hop Hf Hw) as Hr.
  pose proof (publish_run now op kind waits h q Hq Hop Hw) as Hp. unfold after in *.
  destruct (publish now op kind waits h) as [[[]|?|] h']; [|by destruct Hr|done].
  destruct Hr as (_&payload&H&T&q1&q2&_&Hwf&Hd&_).
  destruct Hp as (_&_&_&_&_&_&_&_&_&_&_&Heq).
  exists now, q2, payload, H, T. rewrite Heq at 1 4. by cbn.
Qed.

(** [verified] either runs its body on the hook the verification saw, or
    returns an error and leaves the owner as it was. *)
Lemma verified_run w cap t kind op body o :
  harmless_schedule t → serving_hook w cap (o_hook o) → op_FenceGeneration op ≠ 0 →
  let o1 := set_o_hook (s_verify t (o_hook o)) o in
  serving_hook w cap (o_hook o1) ∧
  if VerifyFence (op_FenceGeneration op) (op_FenceEpoch op) (t_verify t) (h_lease (o_hook o1))
  then verified kind t op body o = body o1
  else verified kind t op body o = (Fail (DErrHook ErrLeaseExpired), o1).
Proof.
  intros Ht Hs Hg o1. destruct Ht as (_&Hv&_). split; [by apply harmless_serving|].
  unfold verified, elsewhere. erewrite bind_done by reflexivity. fold o1.
  unfold with_hook, zoom, wrap_err, VerifyAfterLock. rewrite (proj2 (Z.eqb_neq _ _)) by done.
  destruct (VerifyFence _ _ _ _); cbn [negb].
  - f_equal.
  - f_equal.
Qed.

Lemma stamped_run w cap t (op : DurableOperation) o :
  serving_hook w cap (o_hook o) → cap < 2 ^ 63 →
  match with_hook (stamp (t_before t) op) o with
  | (Done op', o') => o' = o ∧
      op' = set_fence (l_generation (h_lease (o_hook o))) (l_epoch (h_lease (o_hook o))) op
  | (Fail _, o') => o' = o
  | (Panic, _) => False
  end.
Proof.
  intros ([q Hq]&<-&_&_) Hc. pose proof (stamp_run (t_before t) op _ _ Hq Hc) as Hr.
  unfold with_hook, zoom, wrap_err.
  destruct (stamp _ _ _) as [[op'|e|] h']; [| |done].
  - destruct Hr as (->&->&_). by destruct o.
  - destruct Hr as (->&_). by destruct o.
Qed.
Section durably.
Context (w : string) (cap : Z) (t : schedule) (waits : list wait).
Context (Ht : harmless_schedule t).
Context (Hw : Forall (λ x, consumer_pops cap (w_ring x)) waits).

Lemma elsewhere_after_run kind op o :
  serving_hook w cap (o_hook o) → op_ok op kind w →
  match (elsewhere (s_after t);; with_hook (after kind (t_after t) op false waits)) o with
  | (Done _, o') => o_frag o' = o_frag o ∧ published kind t waits op (o_hook o) (o_hook o')
  | (Fail _, o') => o_frag o' = o_frag o ∧ h_fatal (o_hook o') ≠ None
  | (Panic, _) => False
  end.
Proof.
  intros Hs Hop. destruct Ht as (_&_&Ha).
  pose proof (after_logs kind (t_after t) op waits w cap _ (harmless_serving _ _ _ _ Ha Hs) Hop Hw) as Hr.
  unfold elsewhere. erewrite bind_done by reflexivity.
  unfold with_hook, zoom, wrap_err, published. cbn [o_hook set_o_hook].
  by destruct (after _ _ _ _ _ _) as [[[]| |]?].
Qed.

Lemma durably_run kind op (m : M frag dmap_err ()) o :
  serving_hook w cap (o_hook o) → op_ok op kind w →
  match m (o_frag o) with
  | (Done _, f) =>
    match durably kind t waits op (on_frag m) o with
    | (Done _, o') => o_frag o' = f ∧ published kind t waits op (o_hook o) (o_hook o')
    | (Fail _, o') => o_frag o' = f ∧ h_fatal (o_hook o') ≠ None
    | (Panic, _) => False
    end
  | (Fail err, f) => durably kind t waits op (on_frag m) o = (Fail err, set_o_frag f o)
  | (Panic, _) => True
  end.
Proof.
  intros Hs Hop. unfold durably, on_frag, zoom. destruct (m (o_frag o)) as [[[]|?|] f]; [| |done].
  - apply (elsewhere_after_run kind op (set_o_frag f o) Hs Hop).
  - by destruct o.
Qed.

End durably.

(** Whatever the replication, a mutation that can be stored locally is, unless
    an error comes back. *)
Lemma put_mutation c r onlyTTL hkey nt f f1 :
  putEntryOnFragment onlyTTL hkey nt f = (Done tt, f1) →
  match putOnClusterAfterDurable c r onlyTTL hkey nt f with
  | (Done _, f') => f' = f1
  | (Fail _, f') => r ≠ single_replica ∧ (f' = f ∨ f' = f1)
  | (Panic, _) => False
  end.
Proof.
  intros Hput.
  destruct r as [|alive|answers|]; cbn [putOnClusterAfterDurable]; [by rewrite Hput| | |by split; [|left]].
  - unfold asyncPutOnCluster. rewrite (bind_done _ _ _ _ _ Hput).
    assert (∀ f, (async_backups alive f).2 = f ∧ (async_backups alive f).1 ≠ Panic) as Hb
      by (intros f'; induction alive as [|[] alive IH]; [done|exact IH|done]).
    specialize (Hb f1). destruct (async_backups _ _) as [[] f'], Hb as [Hf Hn]; simpl in Hf; subst f';
      [done|by split; [|right]|done].
  - unfold syncPutOnCluster.
    assert (∀ n, (sync_backups answers n f).2 = f ∧ (sync_backups answers n f).1 ≠ Panic) as Hb
      by (induction answers as [|[] answers IH]; intros n; [done|apply IH|apply IH|done]).
    specialize (Hb 0). unfold mbind, M_bind. destruct (sync_backups _ _ _) as [[n| |] f'], Hb as [Hf Hn];
      simpl in Hf; subst f'; [|by split; [|left]|done].
    rewrite Hput. by destruct (_ <=? _); [|split; [|right]].
Qed.

Lemma put_entry_stores hkey nt f :
  putEntryOnFragment false hkey nt f = (Done tt, <[hkey := nt]> f).
Proof. unfold putEntryOnFragment, wrap_err, Engine_Put. by rewrite cloneEntry_id. Qed.

(** A stored entry with the times of another. *)
Definition retimed (x nt : StorageEntry) : StorageEntry :=
  mkSE (se_key x) (se_value x) (se_ttl nt) (se_timestamp nt) (se_lastAccess nt).

Lemma put_entry_retimes hkey nt f x :
  f !! hkey = Some x → putEntryOnFragment true hkey nt f = (Done tt, <[hkey := retimed x nt]> f).
Proof.
  intros Hx. unfold putEntryOnFragment, wrap_err, Engine_UpdateTTL. rewrite Hx.
  by rewrite cloneEntry_id.
Qed.

Lemma check_conditions_pure now e f : (checkPutConditions now e f).2 = f ∧ (checkPutConditions now e f).1 ≠ Panic.
Proof.
  unfold checkPutConditions, Engine_GetTTL, Engine_Get, Engine_Check, mbind, M_bind.
  destruct (f !! e_hkey e) as [x|]; cbn; repeat (dcase; cbn); done.
Qed.

(** The entry a write stores, and the operation it logs. *)
Definition stored_entry (c : dmap_config) (t : schedule) (e : env) : StorageEntry :=
  prepareEntry (t_prepare t) (effective_timeout c e).

Definition logged_op (e : env) (entry : option StorageEntry) (l : LeaseTracker) : DurableOperation :=
  set_fence (l_generation l) (l_epoch l) (durable_op e entry).

Definition lease_typed (l : LeaseTracker) : Prop :=
  0 < l_generation l ≤ maxInt64 ∧ l_epoch l ≤ maxInt64.

Lemma effective_timeout_fields c e :
  e_putConfig (effective_timeout c e) = e_putConfig e ∧ e_hkey (effective_timeout c e) = e_hkey e ∧
  ∀ x, durable_op (effective_timeout c e) x = durable_op e x.
Proof. unfold effective_timeout. by dcase. Qed.

Section outcomes.
Context (w : string) (cap : Z) (c : dmap_config) (r : replication) (t : schedule) (waits : list wait).
Context (Hcap : cap < 2 ^ 63) (Ht : harmless_schedule t).
Context (Hw : Forall (λ x, consumer_pops cap (w_ring x)) waits).

Lemma lock_serving o : serving_hook w cap (o_hook o) → serving_hook w cap (o_hook (s_lock t o)).
Proof.
  intros Hs. destruct Ht as (Hl&_), o as [h f]. exact (harmless_serving _ _ _ _ (Hl f) Hs).
Qed.

Lemma set_run e o :
  serving_hook w cap (o_hook o) → OnlyUpdateTTL (e_putConfig e) = false →
  lease_typed (h_lease (o_hook o)) → op_ok (durable_op e (Some (stored_entry c t e))) OpSet w →
  let nt := stored_entry c t e in
  let op := logged_op e (Some nt) (h_lease (o_hook o)) in
  let o1 := s_lock t o in
  let h1 := s_verify t (o_hook o1) in
  match putOnCluster c r t waits e o with
  | (Done _, o') => o_frag o' = <[e_hkey e := nt]> (o_frag o1) ∧ published OpSet t waits op h1 (o_hook o') ∧
      VerifyFence (op_FenceGeneration op) (op_FenceEpoch op) (t_verify t) (h_lease h1) = true
  | (Fail _, o') =>
      o' = o ∨ o' = set_o_hook h1 o1 ∨
      o_frag o' = <[e_hkey e := nt]> (o_frag o1) ∧
        (h_fatal (o_hook o') ≠ None ∨ r ≠ single_replica ∧ o_hook o' = h1)
  | (Panic, _) => False
  end.
Proof.
  intros Hs Hset [Hg He] Hop nt op o1 h1. unfold putOnCluster.
  destruct (effective_timeout_fields c e) as (Hc&Hk&Hd). rewrite Hc, Hset, Hd.
  fold (stored_entry c t e). fold nt. cbn [durable_op op_Entry BeforeSet].
  pose proof (stamped_run w cap t (durable_op e (Some nt)) o Hs Hcap) as Hst.
  unfold mbind at 1, M_bind at 1.
  destruct (with_hook _ o) as [[op'|?|] o'] eqn:Hwith; [| |done].
  2: { rewrite Hst. by left. }
  destruct Hst as [-> ->]. fold (logged_op e (Some nt) (h_lease (o_hook o))). fold op.
  erewrite bind_done by reflexivity. fold o1.
  pose proof (lock_serving o Hs) as Hs1. fold o1 in Hs1. unfold set_locked.
  set (body := λ o, _).
  destruct (verified_run w cap t OpSet op body o1 Ht Hs1 ltac:(unfold op; simpl; lia)) as [Hs2 Hv].
  cbn [o_hook set_o_hook] in Hs2, Hv. fold h1 in Hs2, Hv.
  destruct (VerifyFence _ _ _ _) eqn:Hf; rewrite Hv; [|by right; left].
  unfold body, on_frag at 1, zoom. cbn [o_frag set_o_hook].
  destruct (check_conditions_pure (t_check t) (effective_timeout c e) (o_frag o1)) as [Hp Hnp].
  destruct (checkPutConditions _ _ _) as [[[]| |] f]; [| |done]; simpl in Hp; subst f.
  2: by right; left.
  rewrite Hk. change (set_o_frag (o_frag o1) (set_o_hook h1 o1)) with (set_o_hook h1 o1).
  assert (op_ok op OpSet w) as Hop' by (apply op_ok_fence; [done|lia..]).
  pose proof (durably_run w cap t waits Ht Hw OpSet op
    (putOnClusterAfterDurable c r false (e_hkey e) nt) (set_o_hook h1 o1) Hs2 Hop') as Hr.
  pose proof (put_mutation c r _ _ _ _ _ (put_entry_stores (e_hkey e) nt (o_frag o1))) as Hm. cbn [o_frag set_o_hook] in Hr.
  destruct (putOnClusterAfterDurable _ _ _ _ _ _) as [[[]|?|] f]; [subst f| |done].
  - destruct (durably _ _ _ _ _ _) as [[[]|?|] o']; [|right; right|done].
    + by destruct Hr.
    + destruct Hr. split; [done|by left].
  - rewrite Hr. destruct Hm as [Hr1 [->| ->]]; [right; left|right; right]; [done|].
    split; [done|right; by split].
Qed.

Lemma expire_run e o :
  serving_hook w cap (o_hook o) → OnlyUpdateTTL (e_putConfig e) = true →
  let nt := stored_entry c t e in
  let o1 := s_lock t o in
  let l := h_lease (o_hook o1) in
  lease_typed l →
  (∀ x, o_frag o1 !! e_hkey e = Some x → op_ok (durable_op e (Some (retimed x nt))) OpExpire w) →
  match putOnCluster c r t waits e o with
  | (Done _, o') => ∃ x, o_frag o1 !! e_hkey e = Some x ∧
      o_frag o' = <[e_hkey e := retimed x nt]> (o_frag o1) ∧
      published OpExpire t waits (logged_op e (Some (retimed x nt)) l) (o_hook o1) (o_hook o')
  | (Fail _, o') => o' = o1 ∨ ∃ x, o_frag o1 !! e_hkey e = Some x ∧
      o_frag o' = <[e_hkey e := retimed x nt]> (o_frag o1) ∧
      (h_fatal (o_hook o') ≠ None ∨ r ≠ single_replica ∧ o_hook o' = o_hook o1)
  | (Panic, _) => False
  end.
Proof.
  intros Hs Hexp nt o1 l [Hg He] Hop. unfold putOnCluster.
  destruct (effective_timeout_fields c e) as (Hc&Hk&Hd). rewrite Hc, Hexp.
  fold (stored_entry c t e). fold nt. erewrite bind_done by reflexivity. fold o1.
  pose proof (lock_serving o Hs) as Hs1. fold o1 in Hs1. unfold expire_locked.
  destruct (check_conditions_pure (t_check t) (effective_timeout c e) (o_frag o1)) as [Hp Hnp].
  unfold mbind at 1, M_bind at 1, on_frag at 1, zoom.
  destruct (checkPutConditions _ _ _) as [[[]| |] f]; [| |done]; simpl in Hp; subst f.
  2: left; by destruct o1.
  replace (set_o_frag (o_frag o1) o1) with o1 by (by destruct o1). rewrite Hk.
  unfold mbind at 1, M_bind at 1, on_frag at 1, zoom, wrap_err, Engine_Get.
  destruct (o_frag o1 !! e_hkey e) as [x|] eqn:Hx.
  2: left; by destruct o1.
  replace (set_o_frag (o_frag o1) o1) with o1 by (by destruct o1). rewrite cloneEntry_id, Hd.
  cbn [durable_op op_Entry BeforeExpire]. fold (retimed x nt).
  pose proof (stamped_run w cap t (durable_op e (Some (retimed x nt))) o1 Hs1 Hcap) as Hst.
  unfold mbind at 1, M_bind at 1. unfold durable_op in Hst at 1.
  destruct (with_hook _ o1) as [[op'|?|] o']; [| |done].
  2: by left.
  destruct Hst as [-> ->]. set (op := set_fence _ _ _).
  assert (op_ok op OpExpire w) as Hop' by (apply op_ok_fence; [by apply Hop|fold l; lia..]).
  pose proof (durably_run w cap t waits Ht Hw OpExpire op
    (putOnClusterAfterDurable c r true (e_hkey e) nt) o1 Hs1 Hop') as Hr.
  pose proof (put_mutation c r _ _ _ _ _ (put_entry_retimes (e_hkey e) nt (o_frag o1) x Hx)) as Hm.
  destruct (putOnClusterAfterDurable _ _ _ _ _ _) as [[[]|?|] f]; [subst f| |done].
  - destruct (durably _ _ _ _ _ _) as [[[]|?|] o']; [exists x|right; exists x|done].
    + by destruct Hr.
    + destruct Hr. split_and!; [done..|by left].
  - rewrite Hr. destruct Hm as [Hr1 [->| ->]]; [left; by destruct o1|right; exists x].
    split_and!; [done..|right; by split].
Qed.
End outcomes.

Lemma delete_mutation hkey previous backups f :
  match deleteOnCluster hkey previous backups f with
  | (Done _, f') => f' = delete hkey f
  | (Fail _, f') => f' = f
  | (Panic, _) => False
  end.
Proof.
  unfold deleteOnCluster, deleteFromPreviousOwners, deleteBackupOnCluster, mbind, M_bind.
  by destruct (forallb id previous), (forallb id backups).
Qed.

Lemma delete_run w cap t waits previous backups dmap key hkey o :
  cap < 2 ^ 63 → harmless_schedule t → Forall (λ x, consumer_pops cap (w_ring x)) waits →
  serving_hook w cap (o_hook o) → lease_typed (h_lease (o_hook o)) →
  op_ok (mkOp dmap key hkey None 0 0) OpDelete w →
  let l := h_lease (o_hook o) in
  let op := mkOp dmap key hkey None (l_generation l) (l_epoch l) in
  let h1 := s_verify t (o_hook o) in
  match deleteKey previous backups t waits dmap key hkey o with
  | (Done _, o') => o_frag o' = delete hkey (o_frag o) ∧ published OpDelete t waits op h1 (o_hook o') ∧
      VerifyFence (l_generation l) (l_epoch l) (t_verify t) (h_lease h1) = true
  | (Fail _, o') => o' = o ∨ o' = set_o_hook h1 o ∨
      o_frag o' = delete hkey (o_frag o) ∧ h_fatal (o_hook o') ≠ None
  | (Panic, _) => False
  end.
Proof.
  intros Hcap Ht Hw Hs [Hg He] Hop l op h1. fold l in Hg, He. unfold deleteKey, BeforeDelete.
  pose proof (stamped_run w cap t (mkOp dmap key hkey None 0 0) o Hs Hcap) as Hst.
  unfold mbind at 1, M_bind at 1.
  destruct (with_hook _ o) as [[op'|?|] o']; [| |done].
  2: by left.
  destruct Hst as [-> ->]. change (set_fence _ _ _) with op.
  assert (op_ok op OpDelete w) as Hop' by (apply (op_ok_fence (mkOp dmap key hkey None 0 0)); [done|lia..]).
  match goal with |- context [verified OpDelete t op ?b o] => set (body := b) end.
  destruct (verified_run w cap t OpDelete op body o Ht Hs ltac:(unfold op; simpl; lia)) as [Hs2 Hv].
  cbn [o_hook set_o_hook] in Hs2, Hv. fold h1 in Hs2, Hv. cbn [op op_FenceGeneration op_FenceEpoch] in Hv.
  destruct (VerifyFence _ _ _ _) eqn:Hf; rewrite Hv; [|by right; left].
  unfold body, Engine_Check. destruct (o_frag o !! hkey) as [x|] eqn:Hx; cbn.
  - pose proof (durably_run w cap t waits Ht Hw OpDelete op
      (deleteOnCluster hkey previous backups) (set_o_hook h1 o) Hs2 Hop') as Hr.
    pose proof (delete_mutation hkey previous backups (o_frag o)) as Hm. cbn [o_frag set_o_hook] in Hr.
    destruct (deleteOnCluster _ _ _ _) as [[[]|?|] f]; [subst f| |done].
    + destruct (durably _ _ _ _ _ _) as [[[]|?|] o']; [|by right; right|done].
      by destruct Hr.
    + rewrite Hr, Hm. by right; left.
  - pose proof (elsewhere_after_run w cap t waits Ht Hw OpDelete op (set_o_hook h1 o) Hs2 Hop') as Hr.
    rewrite (delete_id _ _ Hx). unfold AfterDelete.
    cbn [negb]. destruct ((elsewhere _;; _) _) as [[[]|?|] o']; [|right; right|done]; by destruct Hr.
Qed.

(** ** Lemmas on reads and on moves *)

Lemma sorted_winner `{VersionSort} versions x l :
  NoDup (se_timestamp <$> omap id versions) → sanitizeAndSortVersions versions = x :: l →
  x ∈ omap id versions ∧ ∀ y, y ∈ omap id versions → se_timestamp y ≤ se_timestamp x.
Proof.
  intros Hnd. unfold sanitizeAndSortVersions. destruct (Z.leb_spec (zlen (omap id versions)) 1) as [Hl|_].
  - intros Heq. rewrite Heq in *. rewrite zlen_cons in Hl. destruct l as [|y l].
    + split; [by left|]. by intros y ->%list_elem_of_singleton.
    + rewrite zlen_cons in Hl. pose proof (zlen_nonneg l). lia.
  - intros Heq. pose proof (sortVersions_perm (omap id versions)) as Hp.
    pose proof (sortVersions_sorted _ Hnd) as Hs. rewrite Heq in Hp, Hs.
    split; [rewrite <-Hp; by left|]. intros y. rewrite <-Hp.
    apply StronglySorted_inv in Hs as [_ Hs]. rewrite Forall_forall in Hs.
    intros [->|Hy]%elem_of_cons; [lia|]. apply Hs in Hy. lia.
Qed.

(** A read the owner answers alone. *)
Lemma get_resident `{VersionSort} c now hkey f x :
  f !! hkey = Some x → dc_ReadQuorum c ≤ 1 → dc_maxIdleDuration c = 0 →
  getOnCluster c now hkey [] [] f =
  if isKeyExpired now (se_ttl x) then Fail DErrKeyNotFound else Done x.
Proof.
  intros Hx Hq Hi. unfold getOnCluster.
  assert (versions_of c hkey [] [] f = [Some x]) as ->.
  { unfold versions_of, lookupOnThisNode, Engine_Get. rewrite Hx, cloneEntry_id.
    by destruct (1 <=? dc_ReadQuorum c). }
  change (zlen [Some x]) with 1. rewrite (proj2 (Z.ltb_ge _ _)) by lia.
  change (sanitizeAndSortVersions [Some x]) with [x]. cbv beta iota. change (zlen [x]) with 1.
  rewrite (proj2 (Z.ltb_ge _ _)) by lia. unfold isKeyIdleOnFragment. rewrite Hi.
  by destruct (isKeyExpired _ _).
Qed.

Lemma get_local `{VersionSort} c now hkey f x :
  f !! hkey = Some x → dc_ReadQuorum c ≤ 1 → dc_maxIdleDuration c = 0 →
  isKeyExpired now (se_ttl x) = false → getOnCluster c now hkey [] [] f = Done x.
Proof. intros Hx Hq Hi He. by rewrite (get_resident _ _ _ _ x), He. Qed.

Lemma get_nowhere `{VersionSort} c now hkey f :
  f !! hkey = None → dc_ReadQuorum c ≤ 1 → getOnCluster c now hkey [] [] f = Fail DErrKeyNotFound.
Proof.
  intros Hx Hq. unfold getOnCluster.
  assert (versions_of c hkey [] [] f = [None]) as ->.
  { unfold versions_of, lookupOnThisNode, Engine_Get. rewrite Hx. by destruct (1 <=? dc_ReadQuorum c). }
  change (zlen [None]) with 1. by rewrite (proj2 (Z.ltb_ge _ _)) by lia.
Qed.

Lemma refill_run hkey entry f :
  refill hkey entry f = match f !! hkey with
                        | Some x => (Done x, f)
                        | None => (Done entry, <[hkey := entry]> f)
                        end.
Proof.
  unfold refill, Engine_Get. destruct (f !! hkey); [by rewrite cloneEntry_id|].
  by rewrite (bind_done _ _ _ _ _ (put_entry_stores hkey entry f)).
Qed.

(** ** Theorems *)

(** C8: a set is durable or without effect.  A set on the owner of its key
    returns success only when the fragment holds the new entry, the newest
    record of the ring is that entry under a fresh fence, and the lease the
    record was prepared under was still live under the fragment's lock.
    When it returns an error the owner is as it was at the lock (nothing
    stored, nothing logged), or the entry is stored and the node's fatal
    callback has run, or, with backups configured, the entry is stored and
    neither is the case.  It never panics. *)
Theorem set_is_durable w cap c r t waits e o :
  cap < 2 ^ 63 → harmless_schedule t → Forall (λ x, consumer_pops cap (w_ring x)) waits →
  serving_hook w cap (o_hook o) → OnlyUpdateTTL (e_putConfig e) = false →
  lease_typed (h_lease (o_hook o)) → op_ok (durable_op e (Some (stored_entry c t e))) OpSet w →
  let nt := stored_entry c t e in
  let op := logged_op e (Some nt) (h_lease (o_hook o)) in
  let o1 := s_lock t o in
  let h1 := s_verify t (o_hook o1) in
  match putOnCluster c r t waits e o with
  | (Done _, o') => o_frag o' = <[e_hkey e := nt]> (o_frag o1) ∧ logged OpSet op (o_hook o') ∧
      VerifyFence (op_FenceGeneration op) (op_FenceEpoch op) (t_verify t) (h_lease h1) = true
  | (Fail _, o') =>
      o' = o ∨ o' = set_o_hook h1 o1 ∨
      o_frag o' = <[e_hkey e := nt]> (o_frag o1) ∧
        (h_fatal (o_hook o') ≠ None ∨ r ≠ single_replica ∧ o_hook o' = h1)
  | (Panic, _) => False
  end.
Proof.
  intros Hcap Ht Hw Hs Hset Hl Hop nt op o1 h1.
  pose proof (set_run w cap c r t waits Hcap Ht Hw e o Hs Hset Hl Hop) as Hr. cbv zeta in Hr.
  destruct (putOnCluster _ _ _ _ _ _) as [[]?]; [|done..]. by destruct Hr as (?&[_ ?]&?).
Qed.



(** A failed quorum leaves an unlogged write.  With a synchronous backup
    that refuses and a write quorum of two, a set fails, but its entry is in
    the fragment and is what the next get returns, while nothing was logged
    and the fatal callback was not called. *)
Theorem failed_quorum_leaves_unlogged_write `{VersionSort} w cap c t waits e o :
  cap < 2 ^ 63 → serving_hook w cap (o_hook o) →
  dc_WriteQuorum c = 2 → dc_ReadQuorum c = 1 → dc_maxIdleDuration c = 0 → dc_ttlDuration c = 0 →
  e_putConfig e = no_options → e_timeout e = 0 → s_lock t = id → s_verify t = id →
  (with_hook (stamp (t_before t) (durable_op e (Some (stored_entry c t e)))) o).1 =
    Done (logged_op e (Some (stored_entry c t e)) (h_lease (o_hook o))) →
  VerifyFence (l_generation (h_lease (o_hook o))) (l_epoch (h_lease (o_hook o))) (t_verify t)
    (h_lease (o_hook o)) = true →
  let o' := set_o_frag (<[e_hkey e := stored_entry c t e]> (o_frag o)) o in
  putOnCluster c (sync_replicas [ra_refused]) t waits e o = (Fail DErrWriteQuorum, o') ∧
  ∀ now control spare world,
    Get c now [] [] control spare world (e_dmap e) (e_key e) (e_hkey e) o' =
    (Done (stored_entry c t e), o').
Proof.
  intros Hcap Hs Hwq Hrq Hidle Httl Hpc Hto Hlk Hvf Hst Hv o'. set (nt := stored_entry c t e) in *.
  assert (effective_timeout c e = e) as He by (unfold effective_timeout; by rewrite Httl).
  assert (se_ttl nt = 0) as Hz
    by (unfold nt, stored_entry, prepareEntry, prepareTTL; rewrite He, Hpc, Hto; done).
  split.
  - pose proof (stamped_run w cap t (durable_op e (Some nt)) o Hs Hcap) as Hrun.
    unfold putOnCluster. rewrite He, Hpc. unfold nt, stored_entry in *. rewrite He in *.
    cbn [no_options OnlyUpdateTTL BeforeSet durable_op op_Entry]. unfold mbind at 1, M_bind at 1.
    change (mkOp _ _ _ (Some _) 0 0) with (durable_op e (Some (prepareEntry (t_prepare t) e))).
    destruct (with_hook _ o) as [[op|?|] o2]; try done. destruct Hrun as [-> ->].
    erewrite bind_done by reflexivity. rewrite Hlk. unfold set_locked, verified, elsewhere.
    erewrite bind_done by reflexivity. rewrite Hvf. unfold with_hook at 1, zoom, wrap_err, VerifyAfterLock.
    cbn [o_hook set_o_hook]. unfold id at 1 2 3 4. cbn [op_FenceGeneration op_FenceEpoch set_fence].
    rewrite Hv. cbn [negb]. destruct o as [h f], (_ =? 0);
      unfold on_frag, zoom, checkPutConditions; rewrite Hpc;
      cbn [no_options HasNX HasXX andb o_frag o_hook set_o_hook set_o_frag];
      unfold durably, zoom, putOnClusterAfterDurable, syncPutOnCluster, mbind, M_bind;
      cbn [sync_backups o_frag o_hook set_o_frag]; unfold mret, M_ret;
      rewrite put_entry_stores, Hwq; unfold o', nt, stored_entry; rewrite He; done.
  - unfold o'. clear o' Hst. clearbody nt. intros now control spare world. unfold Get.
    rewrite (get_local c now _ _ nt); [done|apply lookup_insert_eq|lia|done|].
    unfold isKeyExpired. by rewrite Hz.
Qed.

(** A set that meets a live lease and room in the ring succeeds. *)
Lemma set_succeeds c t e o op :
  let nt := stored_entry c t e in let h := o_hook o in
  OnlyUpdateTTL (e_putConfig e) = false → HasNX (e_putConfig e) = false → HasXX (e_putConfig e) = false →
  s_lock t = id → s_verify t = id → s_after t = id →
  stamp (t_before t) (durable_op e (Some nt)) h = (Done op, h) →
  VerifyFence (op_FenceGeneration op) (op_FenceEpoch op) (t_verify t) (h_lease h) = true →
  (publish (t_after t) op OpSet [] h).1 = Done tt →
  (putOnCluster c single_replica t [] e o).1 = Done tt.
Proof.
  destruct o as [h f]. intros nt h0 Hset Hnx Hxx Hlk Hvf Haf Hst Hv Hpub. unfold h0 in *. cbn [o_hook] in *.
  unfold putOnCluster. destruct (effective_timeout_fields c e) as (Hc&Hk&Hd). rewrite Hc, Hset, Hd.
  fold (stored_entry c t e). fold nt. cbn [BeforeSet durable_op op_Entry].
  unfold mbind at 1, M_bind at 1, with_hook at 1, zoom, wrap_err.
  change (mkOp _ _ _ (Some nt) 0 0) with (durable_op e (Some nt)). cbn [o_hook]. rewrite Hst.
  erewrite bind_done by reflexivity. rewrite Hlk. unfold set_locked, verified, elsewhere.
  erewrite bind_done by reflexivity. rewrite Hvf. unfold with_hook at 1, zoom, wrap_err, VerifyAfterLock.
  unfold id. cbn [o_hook set_o_hook]. rewrite Hv. cbn [negb].
  destruct (op_FenceGeneration op =? 0); unfold on_frag, zoom, checkPutConditions; rewrite Hc, Hnx, Hxx;
    cbn [andb]; unfold durably, zoom, putOnClusterAfterDurable; rewrite put_entry_stores;
    unfold elsewhere; (erewrite bind_done by reflexivity); rewrite Haf;
    unfold with_hook, zoom, wrap_err, after; unfold id; cbn [o_hook set_o_hook set_o_frag];
    destruct (publish _ _ _ _ h) as [[[]| |] h']; done.
Qed.

(** A get returns the newest version.  When the versions of the owners and
    replicas have different time stamps, the entry a get returns without
    loading is one of them, none is newer, and it has not expired. *)
Theorem get_returns_newest `{VersionSort} c now hkey previous replicas f x :
  NoDup (se_timestamp <$> omap id (versions_of c hkey previous replicas f)) →
  getOnCluster c now hkey previous replicas f = Done x →
  Some x ∈ versions_of c hkey previous replicas f ∧
  (∀ y, Some y ∈ versions_of c hkey previous replicas f → se_timestamp y ≤ se_timestamp x) ∧
  isKeyExpired now (se_ttl x) = false.
Proof.
  intros Hnd. unfold getOnCluster. set (vs := versions_of _ _ _ _ _) in *.
  destruct (_ <? _); [done|]. destruct (sanitizeAndSortVersions vs) as [|y l] eqn:Hs; [done|].
  destruct (_ <? _); [done|]. destruct (isKeyExpired now (se_ttl y)) eqn:He; [done|].
  cbn [orb]. destruct (isKeyIdleOnFragment _ _ _ _); [done|]. intros [= ->].
  destruct (sorted_winner vs x l Hnd Hs) as [Hx Hmax].
  assert (∀ z, Some z ∈ vs ↔ z ∈ omap id vs) as Hv.
  { intros z. rewrite list_elem_of_omap. split; [by exists (Some z)|]. by intros ([a|]&Ha&[= ->]). }
  split_and!; [by apply Hv| |done]. intros z Hz%Hv. by apply Hmax.
Qed.

(** A get on an owner without the key, given the answer for a logged set. *)
Lemma get_restores `{VersionSort} c t e l tm sq w w' now spare o2 :
  op_ok (durable_op e (Some (stored_entry c t e))) OpSet w → slen (e_key e) < 256 →
  dc_ReadQuorum c ≤ 1 → o_frag o2 !! e_hkey e = None →
  let op := logged_op e (Some (stored_entry c t e)) l in
  Get c now [] [] (Some (load_found (recordFromEntry (wire_entry op OpSet sq tm w')))) spare id (e_dmap e)
    (e_key e) (e_hkey e) o2 =
  (Done (stored_entry c t e), set_o_frag (<[e_hkey e := stored_entry c t e]> (o_frag o2)) o2).
Proof.
  intros Hop Hk Hq Hx op. unfold Get. rewrite get_nowhere by done.
  rewrite (load_restores op (stored_entry c t e));
    [|done|by apply (ook_entry _ _ _ Hop)|unfold stored_entry, effective_timeout; by dcase|done|done].
  erewrite bind_done by reflexivity. unfold on_frag, zoom. rewrite refill_run.
  destruct o2 as [h f]. unfold id. cbn [o_frag] in *. by rewrite Hx.
Qed.

(** A refill never overwrites.  A get that misses in memory and whose load
    finds a record returns the entry that became resident while it was loading
    and leaves the owner alone; only when there is none does it store and
    return the loaded one. *)
Theorem refill_never_overwrites `{VersionSort} c now previous replicas control spare world dmap key
    hkey entry o :
  getOnCluster c now hkey previous replicas (o_frag o) = Fail DErrKeyNotFound →
  LoadOnMiss control (mkOp dmap key hkey (Some (mkSE EmptyString [] 0 0 0)) 0 0) spare = Done entry →
  Get c now previous replicas control spare world dmap key hkey o =
  match o_frag (world o) !! hkey with
  | Some x => (Done x, world o)
  | None => (Done entry, set_o_frag (<[hkey := entry]> (o_frag (world o))) (world o))
  end.
Proof.
  intros Hg Hl. unfold Get. rewrite Hg, Hl. erewrite bind_done by reflexivity.
  unfold on_frag, zoom. rewrite refill_run. destruct (world o) as [h f].
  cbn [o_frag]. by destruct (f !! hkey).
Qed.

(** C37: a refill can undo a delete.  A delete of a key that is not in memory,
    running while a get of the key waits for its load, succeeds and logs a
    tombstone; the get then finds no entry in the fragment, stores the one it
    loaded before the delete and returns it.  The node goes on answering with
    it, and the newest record of the ring says that the key is deleted. *)
Theorem refill_undoes_delete `{VersionSort} w cap c now control spare t waits dmap key hkey o entry o1 :
  cap < 2 ^ 63 → harmless_schedule t → Forall (λ x, consumer_pops cap (w_ring x)) waits →
  serving_hook w cap (o_hook o) → lease_typed (h_lease (o_hook o)) →
  op_ok (mkOp dmap key hkey None 0 0) OpDelete w →
  dc_ReadQuorum c ≤ 1 → o_frag o !! hkey = None →
  LoadOnMiss control (mkOp dmap key hkey (Some (mkSE "" [] 0 0 0)) 0 0) spare = Done entry →
  deleteKey [] [] t waits dmap key hkey o = (Done tt, o1) →
  let o' := set_o_frag (<[hkey := entry]> (o_frag o1)) o1 in
  Get c now [] [] control spare (λ o, (deleteKey [] [] t waits dmap key hkey o).2) dmap key hkey o =
    (Done entry, o') ∧
  logged OpDelete (mkOp dmap key hkey None (l_generation (h_lease (o_hook o))) (l_epoch (h_lease (o_hook o))))
    (o_hook o').
Proof.
  intros Hcap Ht Hw Hs Hl Hop Hq Hx Hload Hdel o'.
  pose proof (delete_run w cap t waits [] [] dmap key hkey o Hcap Ht Hw Hs Hl Hop) as Hr. cbv zeta in Hr.
  rewrite Hdel in Hr. destruct Hr as (Hfr&[_ Hlog]&_). split; [|done].
  unfold Get. rewrite get_nowhere, Hload by done. erewrite bind_done by reflexivity.
  rewrite Hdel. cbn [snd]. unfold on_frag, zoom. rewrite refill_run, Hfr, lookup_delete_eq.
  unfold o'. by rewrite Hfr.
Qed.

(** A move is all or nothing.  A fragment changes only when the sidecar has
    drained its partition and every new owner has accepted a payload from
    which the whole fragment can be rebuilt; then it is empty.  Otherwise an
    error comes back and the fragment is as it was. *)
Theorem move_is_all_or_nothing `{Msgpack} control n owners f :
  (∀ h x, f !! h = Some x → se_typed x ∧ slen (se_key x) < 256) →
  match Move control n owners f with
  | (Done _, f') => f' = ∅ ∧ DrainForHandoff control n = Done tt ∧
      (f ≠ ∅ → ∃ payload, Engine_Import payload Engine_Put ∅ = (Done tt, f) ∧
               Forall (λ accepts, accepts payload = true) owners)
  | (Fail _, f') => f' = f
  | (Panic, _) => False
  end.
Proof.
  intros Hok. unfold Move.
  destruct (DrainForHandoff control n) as [[]|?|] eqn:Hd; [|done|].
  2: { unfold DrainForHandoff in Hd. by destruct control as [[]|], (n =? 0). }
  destruct (decide (f = ∅)) as [->|Hne].
  - replace (it_Next (TransferIterator ∅)) with (false, TransferIterator ∅); [done|].
    unfold TransferIterator. by rewrite map_to_list_empty.
  - destruct (transfer_run f Hne Hok) as (it&data&->&->&Himp&Hdrop&_). cbn [negb].
    destruct (forallb _ owners) eqn:Hall; [|done]. split_and!; [done..|].
    intros _. exists data. split; [done|]. apply Forall_forall. intros a Ha.
    by apply (proj1 (forallb_forall _ _) Hall), list_elem_of_In.
Qed.

(** *** Witnesses *)

Definition quiet : schedule := mkSchedule 5 5 5 5 5 id id id.
Definition config1 : dmap_config := mkDMapConfig 0 0 1 1.
Definition owner128 : owner := mkOwner hook128 ∅.
Definition env_set : env := mkEnv no_options 7 5 "users" "k" [x61; x62] 0.

Lemma quiet_harmless : harmless_schedule quiet.
Proof. repeat split; by eauto. Qed.

Lemma owner128_serving : serving_hook "pod" 131072 (o_hook owner128).
Proof. split; [by exists []; exact hook128_wf|done]. Qed.

Lemma env_set_ok kind x :
  known_op kind = true → (∀ y, x = Some y → se_typed y) →
  zlen (op_raw (durable_op env_set x)) ≤ 100 → op_ok (durable_op env_set x) kind "pod".
Proof.
  intros Hk Ht Hz. split; [done|done|by vm_compute|done|exact Ht|]. unfold maxPayload.
  change (slen (op_DMap (durable_op env_set x))) with 5. change (slen (op_Key (durable_op env_set x))) with 1.
  change (slen "pod") with 3. lia.
Qed.

Lemma env_set_stored_ok : op_ok (durable_op env_set (Some (stored_entry config1 quiet env_set))) OpSet "pod".
Proof.
  apply env_set_ok; [done| |vm_compute; discriminate].
  intros y [= <-]. repeat split; vm_compute; discriminate.
Qed.

Lemma lease_live_typed : lease_typed lease_live.
Proof. repeat split; vm_compute; (done || discriminate). Qed.

Lemma set_is_durable_witness :
  let nt := mkSE "k" [x61; x62] 0 5 0 in
  match putOnCluster config1 single_replica quiet [] env_set owner128 with
  | (Done _, o') => o_frag o' = <[7 := nt]> ∅ ∧
      logged OpSet (mkOp "users" "k" 7 (Some nt) 3 2) (o_hook o') ∧ VerifyFence 3 2 5 lease_live = true
  | (Fail _, o') => o' = owner128 ∨ o' = owner128 ∨ o_frag o' = <[7 := nt]> ∅ ∧
      (h_fatal (o_hook o') ≠ None ∨ single_replica ≠ single_replica ∧ o_hook o' = hook128)
  | (Panic, _) => False
  end.
Proof.
  exact (set_is_durable "pod" 131072 config1 single_replica quiet [] env_set owner128 eq_refl
    quiet_harmless (Forall_nil_2 _) owner128_serving eq_refl lease_live_typed env_set_stored_ok).
Defined.

Definition env_expire : env := expire_env "users" "k" 7 5 1000000.
Definition owner_k : owner := mkOwner hook128 (<[7 := se_sample]> ∅).

Lemma env_expire_ok x :
  o_frag owner_k !! 7 = Some x →
  op_ok (durable_op env_expire (Some (retimed x (stored_entry config1 quiet env_expire)))) OpExpire "pod".
Proof.
  intros [= <-]. apply env_set_ok; [done| |vm_compute; discriminate].
  intros y [= <-]. repeat split; vm_compute; discriminate.
Qed.


Lemma env_delete_ok : op_ok (mkOp "users" "k" 7 None 0 0) OpDelete "pod".
Proof. apply (env_set_ok OpDelete None); [done..|vm_compute; discriminate]. Qed.


(** A sorting of the versions. *)
Definition newer_first (a b : StorageEntry) : Prop := se_timestamp b ≤ se_timestamp a.
#[local] Instance newer_first_dec a b : Decision (newer_first a b).
Proof. unfold newer_first. apply _. Defined.
#[local] Instance newer_first_total : Total newer_first.
Proof. intros a b. unfold newer_first. lia. Qed.
#[local] Instance newer_first_trans : Transitive newer_first.
Proof. intros a b c. unfold newer_first. lia. Qed.

Lemma newer_first_strict l :
  NoDup (se_timestamp <$> l) → StronglySorted newer_first l →
  StronglySorted (λ a b, se_timestamp b < se_timestamp a) l.
Proof.
  induction l as [|x l IH]; intros Hnd Hs; [constructor|].
  apply NoDup_cons in Hnd as [Hx Hnd]. apply StronglySorted_inv in Hs as [Hs Hall].
  constructor; [by apply IH|]. rewrite Forall_forall in Hall |- *. intros y Hy.
  pose proof (Hall y Hy) as Hle. unfold newer_first in Hle.
  assert (se_timestamp y ≠ se_timestamp x); [|lia]. intros Heq. apply Hx. rewrite <-Heq.
  by apply list_elem_of_fmap_2.
Qed.

#[local] Instance merge_version_sort : VersionSort.
Proof.
  refine {| sortVersions := merge_sort newer_first |}; [apply merge_sort_Permutation|].
  intros l Hnd. apply newer_first_strict.
  - by rewrite merge_sort_Permutation.
  - apply Sorted_StronglySorted, Sorted_merge_sort; apply _.
Defined.

Lemma get_returns_newest_witness :
  let old := mkSE "k" [x61] 0 1 0 in let new := mkSE "k" [x62] 0 2 0 in
  let vs := versions_of config1 7 [new] [] (<[7 := old]> ∅) in
  Some new ∈ vs ∧ (∀ y, Some y ∈ vs → se_timestamp y ≤ 2) ∧ isKeyExpired 5 0 = false.
Proof.
  apply (get_returns_newest config1 5 7 [mkSE "k" [x62] 0 2 0] [] (<[7 := mkSE "k" [x61] 0 1 0]> ∅)
    (mkSE "k" [x62] 0 2 0)).
  - vm_compute. repeat constructor; set_solver.
  - reflexivity.
Defined.

Definition other_set : owner → owner := λ o, set_o_frag (<[7 := mkSE "k" [x7a] 0 9 0]> (o_frag o)) o.

Lemma refill_never_overwrites_witness :
  Get config1 5 [] [] (Some (load_found (recordFromEntry (wire_entry sample_op OpSet (3, 2, 1) 0 "pod"))))
    [] other_set "users" "k" 7 owner128 = (Done (mkSE "k" [x7a] 0 9 0), other_set owner128).
Proof.
  apply (refill_never_overwrites config1 5 [] []
    (Some (load_found (recordFromEntry (wire_entry sample_op OpSet (3, 2, 1) 0 "pod")))) [] other_set
    "users" "k" 7 se_sample owner128); reflexivity.
Defined.

Definition example_delete : outcome dmap_err () * owner :=
  deleteKey [] [] quiet [] "users" "k" 7 owner128.

Lemma example_delete_eq : deleteKey [] [] quiet [] "users" "k" 7 owner128 = (Done tt, example_delete.2).
Proof.
  assert (example_delete = deleteKey [] [] quiet [] "users" "k" 7 owner128) as <- by reflexivity.
  assert (example_delete.1 = Done tt) as H by (vm_compute; reflexivity).
  exact (pair_of_fst example_delete (Done tt) H).
Qed.

Lemma refill_undoes_delete_witness :
  let o' := set_o_frag (<[7 := se_sample]> (o_frag example_delete.2)) example_delete.2 in
  Get config1 5 [] [] (Some (load_found (recordFromEntry (wire_entry sample_op OpSet (3, 2, 1) 0 "pod"))))
    [] (λ o, (deleteKey [] [] quiet [] "users" "k" 7 o).2) "users" "k" 7 owner128 = (Done se_sample, o') ∧
  logged OpDelete (mkOp "users" "k" 7 None 3 2) (o_hook o').
Proof.
  exact (refill_undoes_delete "pod" 131072 config1 5
    (Some (load_found (recordFromEntry (wire_entry sample_op OpSet (3, 2, 1) 0 "pod")))) [] quiet [] "users"
    "k" 7 owner128 se_sample example_delete.2 eq_refl quiet_harmless (Forall_nil_2 _) owner128_serving
    lease_live_typed env_delete_ok ltac:(vm_compute; discriminate) eq_refl eq_refl example_delete_eq).
Defined.

Definition example_set : outcome dmap_err () * owner :=
  putOnCluster config1 single_replica quiet [] env_set owner128.

Lemma example_set_done : example_set.1 = Done tt.
Proof. vm_compute. reflexivity. Qed.

Lemma example_set_eq : putOnCluster config1 single_replica quiet [] env_set owner128 = (Done tt, example_set.2).
Proof.
  assert (example_set = putOnCluster config1 single_replica quiet [] env_set owner128) as <- by reflexivity.
  exact (pair_of_fst example_set (Done tt) example_set_done).
Qed.

Definition config2 : dmap_config := mkDMapConfig 0 0 2 1.

Lemma failed_quorum_leaves_unlogged_write_witness :
  let nt := mkSE "k" [x61; x62] 0 5 0 in
  let o' := mkOwner hook128 (<[7 := nt]> ∅) in
  putOnCluster config2 (sync_replicas [ra_refused]) quiet [] env_set owner128 = (Fail DErrWriteQuorum, o') ∧
  ∀ now control spare world, Get config2 now [] [] control spare world "users" "k" 7 o' = (Done nt, o').
Proof.
  apply (failed_quorum_leaves_unlogged_write "pod" 131072 config2 quiet [] env_set owner128 eq_refl
    owner128_serving); [reflexivity..| |reflexivity].
  vm_compute. reflexivity.
Defined.

Lemma move_is_all_or_nothing_witness :
  match Move (Some true) 271 [λ _, true] (o_frag owner_k) with
  | (Done _, f') => f' = ∅ ∧ DrainForHandoff (Some true) 271 = Done tt ∧
      (o_frag owner_k ≠ ∅ → ∃ payload, Engine_Import payload Engine_Put ∅ = (Done tt, o_frag owner_k) ∧
               Forall (λ accepts, accepts payload = true) [λ _ : list byte, true])
  | (Fail _, f') => f' = o_frag owner_k
  | (Panic, _) => False
  end.
Proof.
  apply (move_is_all_or_nothing (Some true) 271 [λ _, true] (o_frag owner_k)).
  change (o_frag owner_k) with (<[7 := se_sample]> (∅ : frag)).
  intros h x [[<- <-]|[_ Hn]]%lookup_insert_Some; [|by rewrite lookup_empty in Hn].
  repeat split; vm_compute; (done || discriminate).
Defined.
