(* ===== verification/Maintenance.v ===== *)
(** * Background work on fragments
      ([third_party/olric/internal/dmap]: [fragment.go], [eviction.go],
      [janitor.go], [compaction.go])

    Olric runs three workers over the fragments of a node: eviction drops
    expired entries, the janitor drops empty fragments, compaction asks the
    storage engine to reorganise itself.  A write holds a pointer to its
    fragment from before it takes the fragment's lock, so fragments live in a
    heap and a partition maps names to addresses.  None of the workers logs
    anything: what they remove from memory can be loaded again. *)

From S2P Require Import Prelude Strings Records Json Oplog OplogRing Messages Lease Engine Hook Dmap.

(** ** Fragments *)

(** [fr_closed]: the fragment's context is cancelled. *)
Record fragment := mkFragment { fr_storage : frag; fr_closed : bool }.

Definition set_storage (s : frag) (f : fragment) : fragment := mkFragment s (fr_closed f).

Inductive fragment_err := FErrNotClosed | FErrStorage (e : engine_err).

Definition on_storage {A} (m : M frag engine_err A) : M fragment fragment_err A :=
  zoom fr_storage set_storage (wrap_err FErrStorage m).

Definition fragment_Stats (f : fragment) : Z * Z := Engine_Stats (fr_storage f).

Definition fragment_Compaction : M fragment fragment_err bool := λ f,
  if fr_closed f then (Done false, f) else on_storage Engine_Compaction f.

Definition fragment_Destroy : M fragment fragment_err () := λ f,
  if fr_closed f then on_storage Engine_Destroy f else (Fail FErrNotClosed, f).

(** The deferred [cancel] runs whatever [Close] returns. *)
Definition fragment_Close : M fragment fragment_err () := λ f,
  let '(r, f) := on_storage Engine_Close f in (r, mkFragment (fr_storage f) true).

(** ** Partitions *)

(** The addresses of the fragments of a partition by name, and the heap. *)
Record partition := mkPartition {
  pt_map : gmap string nat;
  pt_heap : gmap nat fragment }.

Definition fragmentName (name : string) : string := "dmap." +:+ name.

(** [newFragment]: the fork of the engine, at a fresh address. *)
Definition newFragment (p : partition) : nat * partition :=
  let id := fresh (dom (pt_heap p)) in
  (id, mkPartition (pt_map p) (<[id := mkFragment (Engine_Start None) false]> (pt_heap p))).

Definition loadFragment (name : string) (p : partition) : option nat := pt_map p !! fragmentName name.

Definition loadOrCreateFragment (name : string) (p : partition) : nat * partition :=
  match loadFragment name p with
  | Some id => (id, p)
  | None => let '(id, p) := newFragment p in
            (id, mkPartition (<[fragmentName name := id]> (pt_map p)) (pt_heap p))
  end.

(** An operation on the fragment at an address. *)
Definition on_fragment {E A} (id : nat) (m : M fragment E A) : M partition E A := λ p,
  match pt_heap p !! id with
  | None => (Panic, p)
  | Some f => let '(r, f) := m f in (r, mkPartition (pt_map p) (<[id := f]> (pt_heap p)))
  end.

(** What a read of this node finds of a key. *)
Definition lookup_on (name : string) (hkey : Z) (p : partition) : option StorageEntry :=
  id ← loadFragment name p; f ← pt_heap p !! id; fr_storage f !! hkey.

(** ** The janitor *)

Definition wipeOutFragment (name : string) (id : nat) : M partition fragment_err () :=
  on_fragment id fragment_Close;;
  on_fragment id fragment_Destroy;;
  modify (λ p, mkPartition (delete name (pt_map p)) (pt_heap p)).

(** The callback of the range over the partition's map. *)
Definition janitor_visit (p : partition) (item : string * nat) : partition :=
  let '(name, id) := item in
  if negb (String.prefix "dmap." name) then p else
  match pt_heap p !! id with
  | None => p
  | Some f => if negb ((fragment_Stats f).2 =? 0) then p else (wipeOutFragment name id p).2
  end.

(** [order] is the order of the range. *)
Definition janitor (order : list (string * nat) → list (string * nat)) (p : partition) : partition :=
  foldl janitor_visit p (order (map_to_list (pt_map p))).

(** ** Eviction *)

Section eviction.
Context (c : dmap_config).
(** The clock at the n-th key, and the answers of other members for a key. *)
Context (clock : Z → Z) (previous backups : Z → list bool).

Definition maxKeyCount : Z := 20.
Definition maxTotalCount : Z := 100.

(** The callback of [RangeHKey]: the number of keys seen, and the storage. *)
Definition evict_visit (s : Z * frag) (hkey : Z) : (Z * frag) * bool :=
  let '(keyCount, f) := s in
  let keyCount := keyCount + 1 in
  if maxKeyCount <=? keyCount then ((keyCount, f), false) else
  match Engine_GetTTL hkey f, Engine_GetKey hkey f with
  | (Done ttl, _), (Done key, _) =>
    if isKeyExpired (clock keyCount) ttl || isKeyIdleOnFragment (clock keyCount) c hkey f
    then ((keyCount, (deleteOnCluster hkey (previous hkey) (backups hkey) f).2), true)
    else ((keyCount, f), true)
  | _, _ => ((keyCount, f), true)
  end.

(** One call of the closure [janitor]: whether to call it again; its [count]
    is never raised. *)
Definition evict_pass (order : list (Z * StorageEntry) → list (Z * StorageEntry)) (totalCount : Z)
    (f : frag) : bool * Z * frag :=
  if maxTotalCount <? totalCount then (false, totalCount, f) else
  let count := 0 in
  let '(_, f) := Engine_RangeHKey order evict_visit f (0, f) in
  (maxKeyCount / 4 <=? count, totalCount + count, f).

(** The loop of [scanFragmentForEviction]; [stopped] says whether the fragment
    or the server is gone before a pass, [None] is "out of fuel". *)
Fixpoint scanFragmentForEviction (fuel : nat) (stopped : nat → bool)
    (order : list (Z * StorageEntry) → list (Z * StorageEntry)) (totalCount : Z) (f : frag) : option frag :=
  match fuel with
  | O => None
  | S fuel =>
    if stopped fuel then Some f else
    let '(again, totalCount, f) := evict_pass order totalCount f in
    if (again : bool) then scanFragmentForEviction fuel stopped order totalCount f else Some f
  end.
End eviction.

(** ** Compaction *)

(** The loop of [callCompactionOnFragment]: [stopped] says whether the server's
    context is done after a round, [None] is "out of fuel". *)
Fixpoint callCompactionOnFragment (fuel : nat) (stopped : nat → bool) (f : fragment) :
    option (bool * fragment) :=
  match fuel with
  | O => None
  | S fuel =>
    match fragment_Compaction f with
    | (Done false, f) => if stopped fuel then Some (false, f) else callCompactionOnFragment fuel stopped f
    | (_, f) => Some (true, f)
    end
  end.

(** ** Lemmas *)

Lemma stats_empty (f : fragment) : (fragment_Stats f).2 = 0 ↔ fr_storage f = ∅.
Proof.
  unfold fragment_Stats, Engine_Stats. cbn [snd]. rewrite <- map_size_empty_iff. lia.
Qed.

Lemma wipe_out_run name id p f :
  pt_heap p !! id = Some f → fr_storage f = ∅ →
  wipeOutFragment name id p =
  (Done tt, mkPartition (delete name (pt_map p)) (<[id := mkFragment ∅ true]> (pt_heap p))).
Proof.
  intros Hf He. unfold wipeOutFragment, mbind, M_bind, on_fragment at 1. rewrite Hf.
  unfold fragment_Close, on_storage, zoom, wrap_err, Engine_Close, mret, M_ret. cbn [set_storage fr_storage].
  unfold on_fragment. cbn [pt_heap pt_map]. rewrite lookup_insert_eq. unfold fragment_Destroy. cbn [fr_closed].
  unfold on_storage, zoom, wrap_err, Engine_Destroy, modify. cbn. by rewrite insert_insert_eq.
Qed.

(** Every name has an address of its own, and a fragment there. *)
Record partition_wf (p : partition) : Prop := {
  pw_inj : ∀ n n' id, pt_map p !! n = Some id → pt_map p !! n' = Some id → n = n';
  pw_heap : ∀ n id, pt_map p !! n = Some id → is_Some (pt_heap p !! id) }.

Lemma janitor_visit_run p name id :
  partition_wf p → pt_map p !! name = Some id →
  let p' := janitor_visit p (name, id) in
  partition_wf p' ∧ (∀ n i, n ≠ name → pt_map p !! n = Some i → pt_map p' !! n = Some i) ∧
  ∀ d hkey, lookup_on d hkey p' = lookup_on d hkey p.
Proof.
  intros [Hinj Hheap] Hid p'. unfold p', janitor_visit.
  destruct (negb (String.prefix "dmap." name)); [done|].
  destruct (pt_heap p !! id) as [f|] eqn:Hf; [|done].
  destruct (Z.eqb_spec (fragment_Stats f).2 0) as [He|]; [|done]. apply stats_empty in He. cbn [negb].
  rewrite (wipe_out_run name id p f Hf He). cbn [snd]. split_and!.
  - split; cbn [pt_map pt_heap].
    + intros n n' i [_ Hn]%lookup_delete_Some [_ Hn']%lookup_delete_Some. by eapply Hinj.
    + intros n i [Hne Hn]%lookup_delete_Some. destruct (decide (i = id)) as [->|].
      * destruct Hne. by eapply Hinj.
      * rewrite lookup_insert_ne by done. by eapply Hheap.
  - intros n i Hne Hn. cbn [pt_map]. by rewrite lookup_delete_ne.
  - intros d hkey. unfold lookup_on, loadFragment. cbn [pt_map pt_heap].
    destruct (decide (fragmentName d = name)) as [->|Hne].
    + rewrite lookup_delete_eq, Hid. cbn [mbind option_bind]. rewrite Hf. cbn [mbind option_bind].
      by rewrite He, lookup_empty.
    + rewrite lookup_delete_ne by done. destruct (pt_map p !! fragmentName d) as [i|] eqn:Hi; [|done].
      cbn [mbind option_bind]. rewrite lookup_insert_ne; [done|]. intros ->. destruct Hne. by eapply Hinj.
Qed.

Lemma janitor_run l p :
  NoDup l.*1 → (∀ n i, (n, i) ∈ l → pt_map p !! n = Some i) → partition_wf p →
  let p' := foldl janitor_visit p l in
  partition_wf p' ∧ ∀ d hkey, lookup_on d hkey p' = lookup_on d hkey p.
Proof.
  revert p. induction l as [|[name id] l IH]; intros p Hnd Hl Hwf; [done|]. cbn [foldl].
  apply NoDup_cons in Hnd as [Hn Hnd].
  destruct (janitor_visit_run p name id Hwf (Hl _ _ ltac:(by left))) as (Hwf'&Hkeep&Hlook).
  destruct (IH (janitor_visit p (name, id)) Hnd) as [Hwf2 Hlook2]; [|done|].
  - intros n i Hni. apply Hkeep; [|apply Hl; by right]. intros ->. apply Hn.
    by apply (list_elem_of_fmap_2 fst) in Hni.
  - split; [done|]. intros d hkey. by rewrite Hlook2.
Qed.

Lemma fragment_name_prefix d : String.prefix "dmap." (fragmentName d) = true.
Proof. unfold fragmentName. by destruct d. Qed.

(** A visit touches its own name and address only. *)
Lemma janitor_visits_elsewhere l p name id :
  (∀ n i, (n, i) ∈ l → n ≠ name ∧ i ≠ id) →
  pt_map (foldl janitor_visit p l) !! name = pt_map p !! name ∧
  pt_heap (foldl janitor_visit p l) !! id = pt_heap p !! id.
Proof.
  revert p. induction l as [|[n i] l IH]; intros p Hl; [done|]. cbn [foldl].
  destruct (Hl n i ltac:(by left)) as [Hn Hi].
  destruct (IH (janitor_visit p (n, i)) ltac:(intros; apply Hl; by right)) as [-> ->].
  unfold janitor_visit. destruct (negb (String.prefix "dmap." n)); [done|].
  destruct (pt_heap p !! i) as [f|] eqn:Hf; [|done].
  destruct (Z.eqb_spec (fragment_Stats f).2 0) as [He%stats_empty|]; [|done]. cbn [negb].
  rewrite (wipe_out_run n i p f Hf He). cbn [snd pt_map pt_heap].
  by rewrite lookup_delete_ne, lookup_insert_ne.
Qed.

Lemma janitor_drops order p d id f :
  (∀ l, order l ≡ₚ l) → partition_wf p → loadFragment d p = Some id →
  pt_heap p !! id = Some f → fr_storage f = ∅ →
  loadFragment d (janitor order p) = None ∧ pt_heap (janitor order p) !! id = Some (mkFragment ∅ true).
Proof.
  intros Horder Hwf Hid Hf He. unfold loadFragment, janitor in *.
  assert (Hin : (fragmentName d, id) ∈ order (map_to_list (pt_map p)))
    by (rewrite Horder; by apply elem_of_map_to_list).
  assert (Hnd : NoDup (order (map_to_list (pt_map p))).*1) by (rewrite Horder; apply NoDup_fst_map_to_list).
  assert (Hall : ∀ n i, (n, i) ∈ order (map_to_list (pt_map p)) → pt_map p !! n = Some i)
    by (intros n i; rewrite Horder; apply elem_of_map_to_list).
  apply list_elem_of_split in Hin as (l1&l2&Heq). rewrite Heq in *. clear Heq.
  rewrite fmap_app, fmap_cons, NoDup_app, NoDup_cons in Hnd. destruct Hnd as (_&Hl1&Hl2&_).
  assert (Hother : ∀ n i, (n, i) ∈ l1 ∨ (n, i) ∈ l2 → n ≠ fragmentName d ∧ i ≠ id).
  { intros n i Hni. assert (n ≠ fragmentName d) as Hne.
    { intros ->. destruct Hni as [Hni|Hni]; apply (list_elem_of_fmap_2 fst) in Hni; [|done].
      eapply Hl1; [done|by left]. }
    split; [done|]. intros ->. apply Hne. eapply (pw_inj p Hwf); [|done]. apply Hall. set_solver. }
  rewrite foldl_app. cbn [foldl].
  destruct (janitor_visits_elsewhere l1 p (fragmentName d) id) as [Hm1 Hh1]; [by eauto|].
  set (q := foldl janitor_visit p l1) in *. rewrite Hf in Hh1.
  destruct (janitor_visits_elsewhere l2 (janitor_visit q (fragmentName d, id)) (fragmentName d) id) as [-> ->];
    [by eauto|].
  unfold janitor_visit. rewrite fragment_name_prefix. cbn [negb]. rewrite Hh1.
  rewrite (proj2 (Z.eqb_eq _ _)) by (by apply stats_empty). cbn [negb].
  rewrite (wipe_out_run _ id q f Hh1 He). cbn [snd pt_map pt_heap].
  split; [apply lookup_delete_eq|apply lookup_insert_eq].
Qed.

Lemma load_or_create_run d p :
  partition_wf p →
  let '(id, p') := loadOrCreateFragment d p in partition_wf p' ∧ loadFragment d p' = Some id.
Proof.
  intros [Hinj Hheap]. unfold loadOrCreateFragment. destruct (loadFragment d p) as [id|] eqn:Hl; [done|].
  cbn [newFragment]. unfold newFragment. cbn [pt_map pt_heap].
  pose proof (is_fresh (dom (pt_heap p))) as Hfresh. set (id := fresh _) in *.
  assert (Hnew : ∀ n, pt_map p !! n ≠ Some id).
  { intros n Hn. destruct Hfresh. by apply elem_of_dom, (Hheap n). }
  split; [split|apply lookup_insert_eq]; cbn [pt_map pt_heap].
  - intros n n' i [[<- <-]|[? Hn]]%lookup_insert_Some [[<- ?]|[? Hn']]%lookup_insert_Some; try done.
    + by destruct (Hnew n').
    + subst i. by destruct (Hnew n).
    + by eapply Hinj.
  - intros n i [[<- <-]|[? Hn]]%lookup_insert_Some; [rewrite lookup_insert_eq; eauto|].
    rewrite lookup_insert_ne by (intros <-; by destruct (Hnew n)). by eapply Hheap.
Qed.

(** A partition with an empty fragment of the map "kv". *)
Definition example_partition : partition := (loadOrCreateFragment "kv" (mkPartition ∅ ∅)).2.

Lemma example_partition_wf : partition_wf example_partition.
Proof.
  unfold example_partition. pose proof (load_or_create_run "kv" (mkPartition ∅ ∅)) as Hrun.
  destruct (loadOrCreateFragment _ _) as [id p]. apply Hrun. by split; intros ??; rewrite ?lookup_empty.
Qed.

(** *** Eviction *)

Section eviction_lemmas.
Context (c : dmap_config) (clock : Z → Z) (previous backups : Z → list bool).

(** Why an entry may leave memory at the n-th key of a pass. *)
Definition evictable (n : Z) (x : StorageEntry) : Prop :=
  isKeyExpired (clock n) (se_ttl x) = true ∨
  dc_maxIdleDuration c ≠ 0 ∧
  isKeyExpired (clock n) (Z.quot (i64 (dc_maxIdleDuration c + se_lastAccess x)) 1000000) = true.

Definition forgets (f f' : frag) : Prop :=
  f' ⊆ f ∧ ∀ hkey x, f !! hkey = Some x → f' !! hkey = None → ∃ n, 0 < n < maxKeyCount ∧ evictable n x.

Lemma evict_visit_run f0 n f hkey :
  0 ≤ n < maxKeyCount → forgets f0 f →
  let '((n', f'), more) := evict_visit c clock previous backups (n, f) hkey in
  n' = n + 1 ∧ forgets f0 f' ∧ (more = true → n' < maxKeyCount).
Proof.
  intros Hn [Hsub Hgone]. cbn [evict_visit].
  destruct (Z.leb_spec maxKeyCount (n + 1)); [done|].
  unfold Engine_GetTTL, Engine_GetKey, Engine_Get, mbind, M_bind.
  destruct (f !! hkey) as [x|] eqn:Hx; [|by split_and!]. rewrite cloneEntry_id. cbn [mret M_ret].
  destruct (_ || _) eqn:Hex; [|by split_and!]. split_and!; [done| |done].
  pose proof (delete_mutation hkey (previous hkey) (backups hkey) f) as Hd.
  destruct (deleteOnCluster _ _ _ f) as [[| |] f']; cbn [snd]; [subst f'|by subst f'|done].
  split; [etrans; [apply delete_subseteq|done]|]. intros h y Hy Hnone.
  destruct (decide (h = hkey)) as [->|Hne]; [|rewrite lookup_delete_ne in Hnone by done; eauto].
  pose proof (lookup_weaken _ _ _ _ Hx Hsub) as Hx0. rewrite Hy in Hx0. injection Hx0 as ->.
  exists (n + 1). split; [lia|]. apply orb_true_iff in Hex as [?|Hidle]; [by left|right].
  unfold isKeyIdleOnFragment in Hidle. destruct (Z.eqb_spec (dc_maxIdleDuration c) 0); [done|].
  split; [done|]. unfold Engine_GetLastAccess, Engine_Get, mbind, M_bind in Hidle.
  rewrite Hx, cloneEntry_id in Hidle. exact Hidle.
Qed.

Lemma evict_range_run f0 (items : list (Z * StorageEntry)) n f :
  0 ≤ n < maxKeyCount → forgets f0 f →
  forgets f0 (range_loop (λ s hkey _, evict_visit c clock previous backups s hkey) items (n, f)).2.
Proof.
  revert n f. induction items as [|[hkey x] items IH]; intros n f Hn Hf; [done|]. cbn [range_loop].
  pose proof (evict_visit_run f0 n f hkey Hn Hf) as Hv.
  destruct (evict_visit _ _ _ _ _ _) as [[n' f'] [|]]; destruct Hv as (->&Hf'&Hlt); [|done].
  apply IH; [|done]. specialize (Hlt eq_refl). lia.
Qed.
End eviction_lemmas.

(** ** Theorems *)

(** C23: Eviction forgets what has expired and nothing else.  A scan of a fragment
    ends after one pass; what is left is part of what was there, and every entry
    that is gone had expired, or had been idle for too long, when the scan came
    to it. *)
Theorem eviction_forgets_expired c clock previous backups fuel stopped order total f :
  (∀ i, stopped i = false) → total ≤ maxTotalCount →
  ∃ f', scanFragmentForEviction c clock previous backups (S fuel) stopped order total f = Some f' ∧
    forgets c clock f f'.
Proof.
  intros Hst Htotal. cbn [scanFragmentForEviction]. rewrite Hst. unfold evict_pass.
  rewrite (proj2 (Z.ltb_ge _ _)) by done. unfold Engine_RangeHKey, Engine_Range.
  pose proof (evict_range_run c clock previous backups f
    (order (prod_map id cloneEntry <$> map_to_list f)) 0 f ltac:(done) ltac:(split; [done|congruence])) as Hr.
  destruct (range_loop _ _ _) as [n f']. cbn. eauto.
Qed.

Lemma eviction_forgets_expired_witness :
  ∃ f', scanFragmentForEviction (mkDMapConfig 0 0 1 1) (λ _, 10) (λ _, []) (λ _, []) 1 (λ _, false) id 0
          {[7 := mkSE "k" [] 5 1 0]} = Some f' ∧
    forgets (mkDMapConfig 0 0 1 1) (λ _, 10) {[7 := mkSE "k" [] 5 1 0]} f'.
Proof.
  by apply (eviction_forgets_expired (mkDMapConfig 0 0 1 1) (λ _, 10) (λ _, []) (λ _, []) 0 (λ _, false) id 0
    {[7 := mkSE "k" [] 5 1 0]}).
Defined.

(** The janitor keeps every entry: on a partition whose fragments have addresses
    of their own, what a read finds of any key is the same before and after it. *)
Theorem janitor_keeps_entries order p d hkey :
  (∀ l, order l ≡ₚ l) → partition_wf p → lookup_on d hkey (janitor order p) = lookup_on d hkey p.
Proof.
  intros Horder Hwf. unfold janitor. apply janitor_run; [| |done].
  - rewrite Horder. apply NoDup_fst_map_to_list.
  - intros n i. rewrite Horder. apply elem_of_map_to_list.
Qed.

Lemma janitor_keeps_entries_witness :
  lookup_on "kv" 7 (janitor reverse example_partition) = lookup_on "kv" 7 example_partition.
Proof.
  apply (janitor_keeps_entries reverse example_partition "kv" 7);
    [apply reverse_Permutation|apply example_partition_wf].
Defined.

(** C39: The janitor can orphan a write.  A write loads its fragment before it takes
    the fragment's lock, and the durable record of a set is prepared in between.
    When the janitor comes to the fragment in that time and finds it empty, the
    write still succeeds, but in a fragment that no read looks at. *)
Theorem janitor_orphans_a_write order d hkey nt p id p1 :
  (∀ l, order l ≡ₚ l) → partition_wf p → loadOrCreateFragment d p = (id, p1) →
  fr_storage <$> pt_heap p1 !! id = Some ∅ →
  let '(r, p2) :=
    on_fragment id (zoom fr_storage set_storage (putEntryOnFragment false hkey nt)) (janitor order p1) in
  r = Done tt ∧ (f ← pt_heap p2 !! id; fr_storage f !! hkey) = Some nt ∧ lookup_on d hkey p2 = None.
Proof.
  intros Horder Hwf Hl Hempty. pose proof (load_or_create_run d p Hwf) as Hrun. rewrite Hl in Hrun.
  destruct Hrun as [Hwf1 Hid]. destruct (pt_heap p1 !! id) as [f|] eqn:Hf; [|done].
  injection Hempty as He. destruct (janitor_drops order p1 d id f Horder Hwf1 Hid Hf He) as [Hnone Hclosed].
  unfold on_fragment. rewrite Hclosed. unfold zoom. rewrite put_entry_stores. split_and!; [done| |].
  - cbn [pt_heap]. rewrite lookup_insert_eq. cbn. apply lookup_insert_eq.
  - unfold lookup_on, loadFragment in *. cbn [pt_map]. by rewrite Hnone.
Qed.

Lemma janitor_orphans_a_write_witness :
  let '(r, p2) :=
    on_fragment 0 (zoom fr_storage set_storage (putEntryOnFragment false 7 (mkSE "k" [] 0 1 0)))
      (janitor id example_partition) in
  r = Done tt ∧ (f ← pt_heap p2 !! 0%nat; fr_storage f !! 7) = Some (mkSE "k" [] 0 1 0) ∧
  lookup_on "kv" 7 p2 = None.
Proof.
  apply (janitor_orphans_a_write id "kv" 7 (mkSE "k" [] 0 1 0) example_partition 0%nat example_partition).
  - done.
  - apply example_partition_wf.
  - by vm_compute.
  - by vm_compute.
Defined.

(** C40: Compaction never ends: the engine of a node reports every time that there is
    more to do, so a worker that has come to a fragment stays with it until the
    node stops, and leaves the fragment as it is. *)
Theorem compaction_never_ends fuel stopped f :
  (∀ i, stopped i = false) → callCompactionOnFragment fuel stopped f = None.
Proof.
  intros Hst. induction fuel as [|fuel IH]; [done|]. cbn [callCompactionOnFragment].
  unfold fragment_Compaction. destruct (fr_closed f) eqn:Hc; [by rewrite Hst|].
  unfold on_storage, zoom, wrap_err, Engine_Compaction, mret, M_ret. rewrite Hst.
  replace (set_storage (fr_storage f) f) with f; [done|]. by destruct f.
Qed.

Lemma compaction_never_ends_witness :
  callCompactionOnFragment 100 (λ _, false) (mkFragment ∅ false) = None.
Proof. by apply (compaction_never_ends 100 (λ _, false) (mkFragment ∅ false)). Defined.
