(* ===== verification/EndToEnd.v ===== *)
(** * A write on its way through the system

    The parts put together: the write path of the owner ([Dmap], [Hook],
    [OplogRing]), the consumer and the flush of the sidecar that maps the same
    ring ([Sidecar], [Backend]), the control RPC ([ControlRpc]) and the read
    path of a node that has lost, or never had, the entry in memory ([Dmap]).
    The node and its sidecar share nothing but the ring file and the RPC; two
    pods share nothing but the database. *)

From S2P Require Import Prelude Json Times Records Oplog OplogRing Backend Sidecar Messages Lease Engine Hook ControlRpc Dmap.

Lemma put_all_last es e p : p_entries (put_all (es ++ [e]) p) !! entryRef e = Some e.
Proof. unfold put_all. rewrite foldl_app. apply lookup_insert_eq. Qed.

(** A sidecar maps the ring of a node; every record in it decodes. *)
Record attached (s : server) (h : hook) : Prop := {
  at_capacity : srv_capacity s = h_capacity h;
  at_ring : srv_ring s = h_ring h;
  at_server : ∃ es, server_wf s es;
  at_batch : 0 < BatchSize (srv_cfg s) }.

(** A drain of the ring that stopped because the ring was empty: fewer entries
    than a batch, and the pending set has room. *)
Definition drained_to (s s1 : server) : Prop :=
  ∃ n, drainRing s = (Done n, s1) ∧ n < BatchSize (srv_cfg s) ∧ pendingFull s1 = false.

(** After the drain, what was logged last is pending under its key. *)
Lemma drained_pending s s1 h kind op :
  attached s h → logged kind op h → drained_to s s1 →
  ∃ now, let e := wire_entry op kind (seq_triple (h_seq h)) now (h_writerID h) in
    p_entries (srv_pending s1) !! entryRef e = Some e ∧ entry_typed e ∧ srv_db s1 = srv_db s ∧
    ∃ es, server_wf s1 es.
Proof.
  intros [Hc Hr [es' Hs] Hb] (now&q&payload&H&T&Hwf&Hd) (n&Hdr&Hn&Hfull).
  exists now. set (e := wire_entry _ _ _ _ _) in *. cbv zeta.
  assert (∃ es, es' = es ++ [e]) as [es ->].
  { destruct (swf_ring _ _ Hs) as (H'&T'&q'&Hwf'&Hes). rewrite Hc, Hr in Hwf'.
    rewrite <- (ring_wf_unique _ _ _ _ _ _ _ _ Hwf Hwf') in Hes.
    apply Forall2_app_inv_l in Hes as (es&es2&_&Hes2&->). exists es. f_equal.
    apply Forall2_cons_inv_l in Hes2 as (e'&es3&Hd'&->%Forall2_nil_inv_l&->). congruence. }
  destruct (drainRing_run s _ Hs Hb) as (k&s'&Hk&_&Hwf'&Hlen&Hpend&Hframe&Hstop&_).
  rewrite Hdr in Hk. simplify_eq.
  assert (k = length (es ++ [e])) as -> by (destruct Hstop as [?|[?|?]]; [lia|done|congruence]).
  rewrite take_ge in Hpend by lia.
  split_and!; [rewrite Hpend; apply put_all_last|by apply (Decode_accepts payload)|by apply Hframe|by eexists].
Qed.

(** A logged entry has been through JSON already. *)
Lemma wire_record_json op kind t now w :
  json_record (recordFromEntry (wire_entry op kind t now w)) = recordFromEntry (wire_entry op kind t now w).
Proof.
  destruct t as [[g e] s]. unfold json_record, recordFromEntry, wire_entry.
  cbn [json_entry rec_DMap rec_Key rec_HKey rec_EncodedEntry rec_TTL rec_Timestamp rec_Tombstone
       rec_Generation rec_Epoch rec_OwnerSeq rec_WriterID rec_UpdatedAt DMap Key HKey WriterID].
  by rewrite !json_string_idem.
Qed.

Lemma wire_entry_ref op kind t now w :
  entryRef (wire_entry op kind t now w) = json_ref (mkRef (op_DMap op) (op_Key op) (op_HKey op)).
Proof. by destruct t as [[g e] s]. Qed.

Lemma wire_record_alive op x kind t now w now' :
  op_Entry op = Some x → json_string kind ≠ OpDelete → alive (se_ttl x) now' →
  let rec := recordFromEntry (wire_entry op kind t now w) in
  rec_Tombstone rec || recordExpiredAt rec now' = false.
Proof.
  intros Hx Hk Ha. destruct t as [[g e] s]. cbv zeta.
  unfold recordExpiredAt, wire_entry, recordFromEntry.
  cbn [rec_Tombstone rec_TTL json_entry set_version publish_entry Op TTL]. rewrite Hx.
  rewrite bool_decide_eq_false_2 by done. unfold alive in Ha. destruct (Z.leb_spec (se_ttl x) 0); [done|].
  apply Z.leb_gt. lia.
Qed.

Section end_to_end.
Context `{TimeParse} `{WriterOrder} {U : UpsertEngine} {HU : SimultaneousUpdate U}.
Context (order : list Entry → list Entry) (Horder : ∀ l, order l ≡ₚ l).
Context `{UnaryTransport} `{VersionSort}.

(** What a node gets from a sidecar whose method answers with a logged entry. *)
Lemma answered_load op kind t tm w ans now s s' :
  0 ≤ op_HKey op < 2 ^ 64 → let e := wire_entry op kind t tm w in entry_typed e →
  LoadFromMySQL ans now (Some (entryRef e)) s = (Done (Some (recordFromEntry e)), s') →
  controlAdapter_LoadFromMySQL order ans now delivered (op_DMap op) (op_Key op) (op_HKey op) s
  = (Done (Some (recordFromEntry e)), s').
Proof.
  intros Hh e Ht Hl. unfold e in *. rewrite wire_entry_ref in Hl.
  rewrite load_through; [|done|].
  - unfold through, wrap_err, mbind, M_bind. rewrite Hl. cbn [fmap option_fmap option_map].
    by rewrite wire_record_json.
  - intros rec s2 Hl'. rewrite Hl in Hl'. simplify_eq. by apply entry_record_typed.
Qed.

(** The fence of the last logged operation. *)
Definition last_fence (h : hook) : fence :=
  let '(g, e, s) := seq_triple (h_seq h) in mkFence g e s (json_string (h_writerID h)).

(** Everything a successful set has been shown to need. *)
Record good_set (w : string) (cap : Z) (c : dmap_config) (t : schedule) (waits : list wait) (e : env)
    (o : owner) : Prop := {
  gs_cap : cap < 2 ^ 63;
  gs_schedule : harmless_schedule t;
  gs_waits : Forall (λ x, consumer_pops cap (w_ring x)) waits;
  gs_hook : serving_hook w cap (o_hook o);
  gs_set : OnlyUpdateTTL (e_putConfig e) = false;
  gs_lease : lease_typed (h_lease (o_hook o));
  gs_op : op_ok (durable_op e (Some (stored_entry c t e))) OpSet w;
  gs_key : slen (e_key e) < 256;
  gs_quorum : dc_ReadQuorum c ≤ 1 }.

Lemma good_set_logged w cap c r t waits e o o' :
  good_set w cap c t waits e o → putOnCluster c r t waits e o = (Done tt, o') →
  logged OpSet (logged_op e (Some (stored_entry c t e)) (h_lease (o_hook o))) (o_hook o').
Proof.
  intros [Hcap Ht Hw Hs Hset Hl Hop _ _] Hput.
  pose proof (set_run w cap c r t waits Hcap Ht Hw e o Hs Hset Hl Hop) as Hr. cbv zeta in Hr.
  rewrite Hput in Hr. by destruct Hr as (_&[_ ?]&_).
Qed.

(** Read your writes through the sidecar.  Once a set has succeeded and the
    sidecar on the same ring has drained it, a node that does not hold the key
    in memory (it restarted, or the partition moved) reads, over the control
    RPC, exactly the entry that was set, whatever bytes the key is made of; the
    read puts it back in memory and leaves the sidecar as it was. *)
Theorem set_is_readable_through_sidecar w cap c r t waits e o o' s s1 ans now' :
  good_set w cap c t waits e o → putOnCluster c r t waits e o = (Done tt, o') →
  attached s (o_hook o') → drained_to s s1 → alive (se_ttl (stored_entry c t e)) now' →
  let answer :=
    controlAdapter_LoadFromMySQL order ans now' delivered (e_dmap e) (e_key e) (e_hkey e) s1 in
  answer.2 = s1 ∧
  ∀ now spare o2, o_frag o2 !! e_hkey e = None →
    Get c now [] [] (Some (answer_of answer.1)) spare id (e_dmap e) (e_key e) (e_hkey e) o2 =
    (Done (stored_entry c t e), set_o_frag (<[e_hkey e := stored_entry c t e]> (o_frag o2)) o2).
Proof.
  intros Hg Hput Hat Hdr Ha. set (op := logged_op e (Some (stored_entry c t e)) (h_lease (o_hook o))).
  pose proof (good_set_logged _ _ _ _ _ _ _ _ _ Hg Hput) as Hlog. fold op in Hlog.
  destruct (drained_pending _ _ _ _ _ Hat Hlog Hdr) as (tm&Hp&Ht&_). cbv zeta in *.
  set (sq := seq_triple _) in *. set (w' := h_writerID _) in *.
  pose proof (answered_load op OpSet sq tm w' ans now' s1 s1) as Hl. cbv zeta in Hl.
  cbn [op logged_op durable_op set_fence op_DMap op_Key op_HKey] in Hl. fold op in Hl.
  rewrite Hl; [|apply (ook_hkey _ _ _ (gs_op _ _ _ _ _ _ _ Hg))|done|].
  - split; [done|]. intros now spare o2 Hx. cbn [fst answer_of].
    destruct Hg. by eapply get_restores.
  - unfold LoadFromMySQL, mbind, M_bind, gets, get_pending. rewrite Hp.
    by rewrite (wire_record_alive op (stored_entry c t e)).
Qed.

Lemma wire_entry_fence op kind h now :
  entry_fence (wire_entry op kind (seq_triple (h_seq h)) now (h_writerID h)) = last_fence h.
Proof. done. Qed.

(** A sidecar without the key in its pending set answers from the database. *)
Lemma load_from_db ans now ref s s' :
  srv_db s' = srv_db s → p_entries (srv_pending s) !! ref = None →
  p_entries (srv_pending s') !! ref = None →
  (LoadFromMySQL ans now (Some ref) s').1 = (LoadFromMySQL ans now (Some ref) s).1.
Proof.
  intros Hdb Hs Hs'. unfold LoadFromMySQL, mbind, M_bind, gets, get_pending. rewrite Hs, Hs', Hdb.
  by destruct (Backend_LoadFromMySQL ans now ref (srv_db s)) as [[|[]|] ?].
Qed.

End end_to_end.

(** ** Witnesses *)

Lemma single_record cap f H T q payload :
  ring_wf cap f H T (q ++ [payload]) → (Pop 2 cap (Pop 2 cap f).2).1 = Done None → q = [].
Proof.
  intros Hwf Hp. pose proof (Pop_run _ _ _ _ _ 2 Hwf ltac:(lia)) as Hr.
  destruct q as [|p q]; [done|]. cbn [app] in Hr. destruct Hr as (f'&H'&He&Hwf').
  rewrite He in Hp. pose proof (Pop_run _ _ _ _ _ 2 Hwf' ltac:(lia)) as Hr. cbn [snd] in Hp.
  destruct (q ++ [payload]) eqn:Hq; [by destruct q|]. destruct Hr as (?&?&Hr&_).
  rewrite Hr in Hp. done.
Qed.

Lemma example_good_set : good_set "pod" 131072 config1 quiet [] env_set owner128.
Proof.
  split; [done|apply quiet_harmless|constructor|apply owner128_serving|done|apply lease_live_typed|
    apply env_set_stored_ok|done|done].
Qed.

(** The sidecar of the node after [example_set], before and after its drain. *)
Definition example_sidecar : server :=
  mkServer 131072 (h_ring (o_hook example_set.2)) newPending ∅ false (withDefaults (mkConfig 0 0 0 0 0)).
Definition example_drain_run : outcome server_err Z * server := drainRing example_sidecar.
Definition example_drained : server := example_drain_run.2.

Lemma example_drain : drained_to example_sidecar example_drained.
Proof.
  exists 1. split_and!; [|vm_compute; reflexivity..].
  assert (example_drain_run = drainRing example_sidecar) as <- by reflexivity.
  assert (example_drain_run.1 = Done 1) as H by (vm_compute; reflexivity).
  exact (pair_of_fst example_drain_run (Done 1) H).
Qed.

Lemma example_attached : attached example_sidecar (o_hook example_set.2).
Proof.
  split; [vm_compute; reflexivity|unfold example_sidecar; cbn [srv_ring]; reflexivity| |vm_compute; reflexivity].
  destruct (good_set_logged _ _ _ _ _ _ _ _ _ example_good_set example_set_eq)
    as (now&q&payload&H&T&Hwf&Hd).
  assert (h_capacity (o_hook example_set.2) = 131072) as Hc by (vm_compute; reflexivity).
  rewrite Hc in Hwf.
  assert ((Pop 2 131072 (Pop 2 131072 (h_ring (o_hook example_set.2))).2).1 = Done None) as Hpop
    by (vm_compute; reflexivity).
  rewrite (single_record _ _ _ _ _ _ Hwf Hpop) in Hwf. cbn [app] in Hwf.
  eexists [_]. split; [|apply newPending_wf|apply empty_table_wf].
  exists H, T, [payload]. split; [exact Hwf|]. constructor; [exact Hd|constructor].
Qed.

#[local] Existing Instance merge_version_sort.
#[local] Existing Instance strict_time.
#[local] Existing Instance old_row_engine.

Lemma set_is_readable_through_sidecar_witness :
  (controlAdapter_LoadFromMySQL id db_ok 0 delivered (e_dmap env_set) (e_key env_set) (e_hkey env_set)
     example_drained).2 = example_drained ∧
  ∀ now spare o2, o_frag o2 !! e_hkey env_set = None →
    Get config1 now [] []
      (Some (answer_of (controlAdapter_LoadFromMySQL id db_ok 0 delivered (e_dmap env_set) (e_key env_set)
         (e_hkey env_set) example_drained).1)) spare id (e_dmap env_set) (e_key env_set) (e_hkey env_set) o2 =
    (Done (stored_entry config1 quiet env_set),
     set_o_frag (<[e_hkey env_set := stored_entry config1 quiet env_set]> (o_frag o2)) o2).
Proof.
  apply (set_is_readable_through_sidecar id "pod" 131072 config1 single_replica quiet [] env_set owner128
    example_set.2 example_sidecar example_drained db_ok 0 example_good_set example_set_eq example_attached
    example_drain).
  left. vm_compute. discriminate.
Defined.

(** The flush of that sidecar, and a sidecar of another pod. *)
Definition example_flush_run : outcome server_err () * server := flushOnce id db_ok example_drained.
Definition example_flushed : server := example_flush_run.2.
Definition other_sidecar : server :=
  mkServer 4096 ring4k newPending (srv_db example_flushed) false cfg1.

Lemma example_flush : flushOnce id db_ok example_drained = (Done tt, example_flushed).
Proof.
  assert (example_flush_run = flushOnce id db_ok example_drained) as <- by reflexivity.
  assert (example_flush_run.1 = Done tt) as H by (vm_compute; reflexivity).
  exact (pair_of_fst example_flush_run (Done tt) H).
Qed.

Lemma example_alone :
  (map_to_list (p_entries (srv_pending example_drained))).*1 = [mkRef "users" "k" 7].
Proof. vm_compute. reflexivity. Qed.

