(* ===== verification/StringKV.v ===== *)
(** * The string key/value service and its RESP front end
      ([internal/stringkv/service.go], [olric_adapter.go], [resp_server.go])

    [Service] gates every operation by the lease; [OlricProvider] adapts the
    DMaps of Olric; [RESPServer] parses commands and writes replies.  The
    embedded Olric client is behind the Go interface [olric.DMap]: the record
    [olric_dmaps] of its operations on a state of its own.  The connection is
    what redcon gives a handler: the arguments of a command, and the reply the
    handler writes. *)

From S2P Require Import Prelude Json Strings Records Messages Lease.

(** ** Errors *)

Inductive kv_err :=
| ErrKeyNotFound                   (** [olric.ErrKeyNotFound] *)
| ErrNotFound
| ErrServingLeaseExpired
| ErrTTL
| DeadlineExceeded
| Canceled
| ErrMsg (msg : string).           (** any other error, with its message *)

(** ** The Olric client *)

(** [olric.PX]: a put option. *)
Inductive put_option := PX (ttl : Z).

(** The operations of the client on the state [W] of the cluster: [NewDMap],
    and the methods of the DMap with the given name.  [Get] returns a response
    that [String] decodes. *)
Record olric_dmaps (W : Type) := mkDMaps {
  NewDMap : string → M W kv_err ();
  inner_Get : string → string → M W kv_err (outcome kv_err string);
  inner_Put : string → string → string → list put_option → M W kv_err ();
  inner_Delete : string → string → M W kv_err Z;
  inner_Expire : string → string → Z → M W kv_err () }.
Arguments NewDMap {W}.
Arguments inner_Get {W}.
Arguments inner_Put {W}.
Arguments inner_Delete {W}.
Arguments inner_Expire {W}.

Section kv.
Context {W : Type} (olric : olric_dmaps W).

(** [errors.Is(err, olric.ErrKeyNotFound)]. *)
Definition map_not_found (e : kv_err) : kv_err :=
  match e with ErrKeyNotFound => ErrNotFound | e => e end.

Definition olricDMap_Get (dmap key : string) : M W kv_err string :=
  resp ← wrap_err map_not_found (inner_Get olric dmap key);
  match resp with
  | Done value => mret value
  | Fail (ErrMsg msg) => fail (ErrMsg ("decode olric string value: " +:+ msg))
  | Fail e => fail e
  | Panic => panic
  end.

Definition olricDMap_Set (dmap key value : string) (ttl : Z) : M W kv_err () :=
  let options := if 0 <? ttl then [PX ttl] else [] in
  inner_Put olric dmap key value options.

Definition olricDMap_Delete (dmap key : string) : M W kv_err () :=
  wrap_err map_not_found (inner_Delete olric dmap key);; mret ().

Definition olricDMap_Expire (dmap key : string) (ttl : Z) : M W kv_err () :=
  wrap_err map_not_found (inner_Expire olric dmap key ttl).

(** ** Service *)

(** The arguments say whether the interfaces are not nil. *)
Definition NewOlricProvider (client : bool) : outcome kv_err () :=
  if client then Done tt else Fail (ErrMsg "olric client is nil").

Definition NewService (dmaps lease : bool) : outcome kv_err () :=
  if negb dmaps then Fail (ErrMsg "dmap provider is nil") else
  if negb lease then Fail (ErrMsg "lease is nil") else Done tt.

(** [lease] is the tracker of the node and [now] the clock at the call. *)
Definition requireLease (lease : LeaseTracker) (now : Z) : M W kv_err () :=
  if ServingAllowed now lease then mret () else fail ErrServingLeaseExpired.

Definition Service_Get (lease : LeaseTracker) (now : Z) (dmap key : string) : M W kv_err string :=
  requireLease lease now;; NewDMap olric dmap;; olricDMap_Get dmap key.

Definition Service_Set (lease : LeaseTracker) (now : Z) (dmap key value : string) (ttl : Z) :
    M W kv_err () :=
  requireLease lease now;; NewDMap olric dmap;; olricDMap_Set dmap key value ttl.

(** [err != nil && !errors.Is(err, ErrNotFound)]. *)
Definition ignore_not_found (m : M W kv_err ()) : M W kv_err () := λ w,
  match m w with
  | (Fail ErrNotFound, w') => (Done tt, w')
  | r => r
  end.

Definition Service_Delete (lease : LeaseTracker) (now : Z) (dmap key : string) : M W kv_err () :=
  requireLease lease now;; NewDMap olric dmap;; ignore_not_found (olricDMap_Delete dmap key).

Definition Service_Expire (lease : LeaseTracker) (now : Z) (dmap key : string) (ttl : Z) :
    M W kv_err () :=
  if ttl <=? 0 then fail ErrTTL else
  requireLease lease now;; NewDMap olric dmap;; olricDMap_Expire dmap key ttl.

(** ** RESP *)

(** What a handler writes to the connection. *)
Inductive reply :=
| WriteError (msg : string) | WriteString (s : string) | WriteBulk (s : string) | WriteInt (n : Z)
| WriteRaw (s : string).

Definition argString (arg : list byte) : string := string_of_bytes arg.

Definition upper_byte (b : byte) : byte :=
  if in_range 0x61 0x7A b then byte_of_Z (Z_of_byte b - 32) else b.

(** [strings.ToUpper], as far as it yields ASCII: letters, and the two other
    runes whose upper case is an ASCII letter (U+017F, long s, and U+0131,
    dotless i).  No other non-ASCII rune maps to ASCII; they are left alone. *)
Fixpoint ToUpper_bytes (l : list byte) : list byte :=
  match l with
  | xc5 :: ((xbf :: r) as r') => x53 :: ToUpper_bytes r
  | xc4 :: ((xb1 :: r) as r') => x49 :: ToUpper_bytes r
  | b :: r => upper_byte b :: ToUpper_bytes r
  | [] => []
  end.
Definition ToUpper (arg : list byte) : string := string_of_bytes (ToUpper_bytes arg).

Definition nanosPerSecond : Z := 1000000000.
Definition nanosPerMilli : Z := 1000000.

(** [parseSetTTL]: the duration, or the message of the error. *)
Fixpoint parse_ttl (ttl : Z) (args : list (list byte)) : string + Z :=
  match args with
  | [] => inr ttl
  | arg :: rest =>
    let option := ToUpper arg in
    if String.eqb option "EX" || String.eqb option "PX" then
      match rest with
      | [] => inl ("missing value for " +:+ option)
      | v :: rest =>
        match strconv_ParseInt (argString v) with
        | None => inl ("invalid " +:+ option +:+ " value")
        | Some value =>
          if value <=? 0 then inl ("invalid " +:+ option +:+ " value") else
          parse_ttl (i64 (value * (if String.eqb option "EX" then nanosPerSecond else nanosPerMilli)))
            rest
        end
      end
    else inl ("unsupported SET option " +:+ option)
  end.

Definition parseSetTTL (args : list (list byte)) : string + Z := parse_ttl 0 args.

Definition error_message (e : kv_err) : string :=
  match e with
  | ErrKeyNotFound => "key not found"
  | ErrNotFound => "string kv value not found"
  | ErrServingLeaseExpired => "string kv serving lease is expired"
  | ErrTTL => "ttl must be positive"
  | DeadlineExceeded => "context deadline exceeded"
  | Canceled => "context canceled"
  | ErrMsg msg => msg
  end.

Definition crlf : string := string_of_bytes [x0d; x0a].

Definition writeServiceError (e : kv_err) : reply :=
  match e with
  | ErrNotFound => WriteRaw ("_" +:+ crlf)
  | ErrServingLeaseExpired => WriteError "TRYAGAIN serving lease is expired"
  | DeadlineExceeded => WriteError "TIMEOUT command timed out"
  | Canceled => WriteError "ERR command canceled"
  | e => WriteError ("ERR " +:+ error_message e)
  end.

(** The reply of a handler that calls the service; the handler panics when
    the service does. *)
Definition reply_of {A} (m : M W kv_err A) (ok : A → reply) : M W kv_err reply := λ w,
  match m w with
  | (Done a, w') => (Done (ok a), w')
  | (Fail e, w') => (Done (writeServiceError e), w')
  | (Panic, w') => (Panic, w')
  end.

Definition hello_reply : string :=
  "%4" +:+ crlf +:+ "$6" +:+ crlf +:+ "server" +:+ crlf +:+ "$10" +:+ crlf +:+ "olricstack" +:+ crlf
  +:+ "$7" +:+ crlf +:+ "version" +:+ crlf +:+ "$3" +:+ crlf +:+ "0.1" +:+ crlf +:+ "$5" +:+ crlf
  +:+ "proto" +:+ crlf +:+ ":3" +:+ crlf +:+ "$4" +:+ crlf +:+ "mode" +:+ crlf +:+ "$10" +:+ crlf
  +:+ "standalone" +:+ crlf.

Definition handleHello (args : list (list byte)) : reply :=
  match args with
  | [_] => WriteRaw hello_reply
  | [_; v] => if negb (String.eqb (argString v) "3")
              then WriteError "NOPROTO unsupported protocol version" else WriteRaw hello_reply
  | _ => WriteError "ERR wrong number of arguments for 'hello' command"
  end.

Definition handlePing (args : list (list byte)) : reply :=
  match args with
  | [_] => WriteString "PONG"
  | [_; v] => WriteBulk (argString v)
  | _ => WriteError "ERR wrong number of arguments for 'ping' command"
  end.

(** The service and the default DMap of a server; [clock] gives the time of
    the n-th lease check of a command. *)
Variables (lease : LeaseTracker) (clock : nat → Z) (defaultDMap : string).

Definition handleGet (args : list (list byte)) : M W kv_err reply :=
  match args with
  | [_; key] => reply_of (Service_Get lease (clock 0) defaultDMap (argString key)) WriteBulk
  | _ => mret (WriteError "ERR wrong number of arguments for 'get' command")
  end.

Definition handleSet (args : list (list byte)) : M W kv_err reply :=
  match args with
  | _ :: key :: value :: options =>
    match parseSetTTL options with
    | inl msg => mret (WriteError ("ERR " +:+ msg))
    | inr ttl => reply_of (Service_Set lease (clock 0) defaultDMap (argString key) (argString value) ttl)
                   (λ _, WriteString "OK")
    end
  | _ => mret (WriteError "ERR wrong number of arguments for 'set' command")
  end.

(** The loop of [handleDel] over the keys left, [n] of them deleted. *)
Fixpoint delete_keys (n : nat) (keys : list (list byte)) : M W kv_err Z :=
  match keys with
  | [] => mret (Z.of_nat n)
  | key :: keys =>
    Service_Delete lease (clock n) defaultDMap (argString key);; delete_keys (S n) keys
  end.

Definition handleDel (args : list (list byte)) : M W kv_err reply :=
  match args with
  | _ :: _ :: _ => reply_of (delete_keys 0 (tail args)) WriteInt
  | _ => mret (WriteError "ERR wrong number of arguments for 'del' command")
  end.

Definition handleExpire (args : list (list byte)) : M W kv_err reply :=
  match args with
  | [_; key; v] =>
    match strconv_ParseInt (argString v) with
    | None => mret (WriteError "ERR invalid expire time")
    | Some seconds =>
      if seconds <=? 0 then mret (WriteError "ERR invalid expire time") else
      λ w, match Service_Expire lease (clock 0) defaultDMap (argString key)
                   (i64 (seconds * nanosPerSecond)) w with
           | (Done _, w') => (Done (WriteInt 1), w')
           | (Fail ErrNotFound, w') => (Done (WriteInt 0), w')
           | (Fail e, w') => (Done (writeServiceError e), w')
           | (Panic, w') => (Panic, w')
           end
    end
  | _ => mret (WriteError "ERR wrong number of arguments for 'expire' command")
  end.

(** [handle] on a server that is not stopping. *)
Definition handle (args : list (list byte)) : M W kv_err reply :=
  match args with
  | [] => mret (WriteError "ERR empty command")
  | name :: _ =>
    let name := ToUpper name in
    if String.eqb name "HELLO" then mret (handleHello args) else
    if String.eqb name "PING" then mret (handlePing args) else
    if String.eqb name "GET" then handleGet args else
    if String.eqb name "SET" then handleSet args else
    if String.eqb name "DEL" then handleDel args else
    if String.eqb name "EXPIRE" then handleExpire args else
    mret (WriteError "ERR unsupported command")
  end.
End kv.

(** ** Configuration *)

Definition DefaultDMap : string := "__default__".
Definition DefaultRESPShutdownGrace : Z := 2 * nanosPerSecond.

Record RESPServerConfig := mkRESPConfig {
  rc_Addr : string; rc_DefaultDMap : string; rc_CommandTimeout : Z; rc_ShutdownGrace : Z }.

(** The settings a server runs with; [false] for a nil service. *)
Definition NewRESPServer (service : bool) (cfg : RESPServerConfig) : outcome kv_err RESPServerConfig :=
  if negb service then Fail (ErrMsg "string kv service is nil") else
  if String.eqb (rc_Addr cfg) "" then Fail (ErrMsg "resp listen address is empty") else
  Done (mkRESPConfig (rc_Addr cfg)
    (if String.eqb (rc_DefaultDMap cfg) "" then DefaultDMap else rc_DefaultDMap cfg)
    (if rc_CommandTimeout cfg <=? 0 then 5 * nanosPerSecond else rc_CommandTimeout cfg)
    (if rc_ShutdownGrace cfg <=? 0 then DefaultRESPShutdownGrace else rc_ShutdownGrace cfg)).

(** ** Shutdown *)

(** The handlers of the connections, the goroutine of [ListenAndServe] and the
    one of [Shutdown] around [stopping], [running], [mu] and [inflight].  A
    handler that holds the read lock has loaded [stopping] ([seen]) and has not
    yet added itself to [inflight]. *)
Inductive shutdown_pc :=
| SIdle | SFlagged
| SReturned                        (** the server was not running: nothing to wait for *)
| SWaiting | SClosed (clean : bool).

Record resp_state := mkResp {
  rs_stopping : bool;
  rs_running : bool;
  rs_seen_open : nat;              (** handlers under the read lock that saw [false] *)
  rs_seen_stopping : nat;          (** handlers under the read lock that saw [true] *)
  rs_inflight : nat;               (** handlers between [Add] and [Done] *)
  rs_shutdown : shutdown_pc }.

Definition resp_init : resp_state := mkResp false false 0 0 0 SIdle.

Inductive resp_step : resp_state → resp_state → Prop :=
| serve_starts b r o t n pc : resp_step (mkResp b r o t n pc) (mkResp b true o t n pc)
| serve_returns b r o t n pc : resp_step (mkResp b r o t n pc) (mkResp b false o t n pc)
| handle_load b r o t n pc :
    resp_step (mkResp b r o t n pc)
      (if b then mkResp b r o (S t) n pc else mkResp b r (S o) t n pc)
| handle_add b r o t n pc : resp_step (mkResp b r (S o) t n pc) (mkResp b r o t (S n) pc)
| handle_reject b r o t n pc : resp_step (mkResp b r o (S t) n pc) (mkResp b r o t n pc)
| handle_done b r o t n pc : resp_step (mkResp b r o t (S n) pc) (mkResp b r o t n pc)
| shutdown_flag r o t n : resp_step (mkResp false r o t n SIdle) (mkResp true r o t n SFlagged)
| shutdown_idle b o t n : resp_step (mkResp b false o t n SFlagged) (mkResp b false o t n SReturned)
| shutdown_barrier b n : resp_step (mkResp b true 0 0 n SFlagged) (mkResp b true 0 0 n SWaiting)
| shutdown_drained b r o t : resp_step (mkResp b r o t 0 SWaiting) (mkResp b r o t 0 (SClosed true))
| shutdown_grace b r o t n : resp_step (mkResp b r o t n SWaiting) (mkResp b r o t n (SClosed false)).

(** After the barrier no handler can add itself. *)
Definition resp_inv (s : resp_state) : Prop :=
  match rs_shutdown s with
  | SIdle => rs_stopping s = false
  | SFlagged | SReturned => rs_stopping s = true
  | SWaiting | SClosed false => rs_stopping s = true ∧ rs_seen_open s = 0%nat
  | SClosed true => rs_stopping s = true ∧ rs_seen_open s = 0%nat ∧ rs_inflight s = 0%nat
  end.

Lemma resp_inv_step s s' : resp_inv s → resp_step s s' → resp_inv s'.
Proof.
  intros Hinv Hstep. destruct Hstep as [b r o t n pc|b r o t n pc|b r o t n pc|b r o t n pc
    |b r o t n pc|b r o t n pc| | | | |]; unfold resp_inv in *; cbn in *; try naive_solver lia.
  all: destruct pc as [| | | |[]]; destruct b; cbn in *; naive_solver lia.
Qed.

Lemma resp_inv_run s s' : resp_inv s → rtc resp_step s s' → resp_inv s'.
Proof. intros Hinv Hrun. induction Hrun; eauto using resp_inv_step. Qed.

Lemma closed_stays s s' :
  rtc resp_step s s' → rs_shutdown s = SClosed true → rs_shutdown s' = SClosed true.
Proof.
  intros Hrun. induction Hrun as [|s s1 s' Hs _ IH]; [done|]. intros Hc. apply IH.
  destruct Hs as [| |b r o t n pc| | | | | | | |]; cbn in *; try done. by destruct b.
Qed.

(** [onAccept] *)
Definition onAccept (s : resp_state) : bool := negb (rs_stopping s).

(** The errors of redcon's server: [net.ErrClosed], or one with a message. *)
Inductive listen_err := NetErrClosed | ListenMsg (msg : string).

Definition isListenerClosed (err : option listen_err) : bool :=
  match err with
  | None => false
  | Some NetErrClosed => true
  | Some (ListenMsg msg) => String.eqb msg "not serving"
  end.

(** What ends the [select]s of [ServeRESP]: its context is cancelled and
    [Shutdown] returns, or does not within its grace window, or the listener
    returns. *)
Inductive serve_wakeup :=
| ServeShutdown (err : option listen_err) | ServeGraceExceeded | ServeReturned (err : option listen_err).

Definition listen_result (err : option listen_err) : outcome kv_err () :=
  match err with
  | Some e =>
    if isListenerClosed err then Done tt
    else Fail (ErrMsg (if e is ListenMsg msg then msg else "use of closed network connection"))
  | None => Done tt
  end.

Definition ServeRESP (service : bool) (cfg : RESPServerConfig) (w : serve_wakeup) : outcome kv_err () :=
  match NewRESPServer service cfg with
  | Done _ =>
    match w with
    | ServeShutdown err | ServeReturned err => listen_result err
    | ServeGraceExceeded => Fail (ErrMsg "resp server shutdown exceeded grace window")
    end
  | Fail e => Fail e
  | Panic => Panic
  end.

(** ** Replies *)

Section replies.
Context {W : Type} (olric : olric_dmaps W) (lease : LeaseTracker) (clock : nat → Z) (dmap : string).

(** The commands that reach the service. *)
Definition data_command (args : list (list byte)) : bool :=
  match args with
  | [] => false
  | name :: _ => let n := ToUpper name in
    String.eqb n "GET" || String.eqb n "SET" || String.eqb n "DEL" || String.eqb n "EXPIRE"
  end.

Lemma requireLease_none {A} (k : () → M W kv_err A) now w :
  ServingAllowed now lease = false → (requireLease lease now ≫= k) w = (Fail ErrServingLeaseExpired, w).
Proof. intros Hs. unfold requireLease. by rewrite Hs. Qed.

Lemma handleSet_none args w :
  ServingAllowed (clock 0) lease = false →
  ∃ msg, handleSet olric lease clock dmap args w = (Done (WriteError msg), w).
Proof.
  intros Hs. unfold handleSet. destruct args as [|a0 [|key [|value options]]]; eauto.
  destruct (parseSetTTL options) as [msg|ttl]; [eauto|].
  unfold reply_of, Service_Set. rewrite requireLease_none by done. eauto.
Qed.

Lemma handleExpire_none args w :
  ServingAllowed (clock 0) lease = false →
  ∃ msg, handleExpire olric lease clock dmap args w = (Done (WriteError msg), w).
Proof.
  intros Hs. unfold handleExpire. destruct args as [|a0 [|key [|v [|x l]]]]; try by eexists.
  destruct (strconv_ParseInt _); [|eauto]. destruct (_ <=? 0); [eauto|].
  unfold Service_Expire. destruct (_ <=? 0); [eauto|]. rewrite requireLease_none by done. eauto.
Qed.

Lemma handle_none args w :
  (∀ n, ServingAllowed (clock n) lease = false) →
  ∃ r, handle olric lease clock dmap args w = (Done r, w) ∧
       (data_command args = true → ∃ msg, r = WriteError msg).
Proof.
  intros Hs. unfold handle, data_command. destruct args as [|name args]; [eauto|].
  destruct (String.eqb_spec (ToUpper name) "HELLO") as [->|]; [by eexists|].
  destruct (String.eqb_spec (ToUpper name) "PING") as [->|]; [by eexists|].
  destruct (String.eqb (ToUpper name) "GET").
  { unfold handleGet. destruct args as [|key [|]]; cbn [orb]; eauto.
    unfold reply_of, Service_Get. rewrite requireLease_none by done. eauto. }
  destruct (String.eqb (ToUpper name) "SET").
  { destruct (handleSet_none (name :: args) w) as [msg ->]; eauto. }
  destruct (String.eqb (ToUpper name) "DEL").
  { unfold handleDel. destruct args as [|key keys]; cbn [orb]; eauto.
    unfold reply_of. cbn [delete_keys tail]. unfold mbind at 1, M_bind at 1.
    unfold Service_Delete. rewrite requireLease_none by done. eauto. }
  destruct (String.eqb (ToUpper name) "EXPIRE").
  { destruct (handleExpire_none (name :: args) w) as [msg ->]; eauto. }
  eauto.
Qed.

(** C22: without a lease a node touches nothing: whatever the command, the
    state of Olric is left as it is and every data command is answered with an
    error. *)
Theorem no_lease_no_effect args w :
  (∀ n, ServingAllowed (clock n) lease = false) →
  ∃ r, handle olric lease clock dmap args w = (Done r, w) ∧
       (data_command args = true → ∃ msg, r = WriteError msg).
Proof. apply handle_none. Qed.

Lemma reply_ok_inv {A} (m : M W kv_err A) (ok : A → reply) w r w' :
  reply_of m ok w = (Done r, w') →
  (∃ a, m w = (Done a, w') ∧ r = ok a) ∨ ∃ e, m w = (Fail e, w') ∧ r = writeServiceError e.
Proof. unfold reply_of. destruct (m w) as [[a|e|] w1]; intros [=]; subst; eauto. Qed.

Lemma writeServiceError_not_ok e s : writeServiceError e ≠ WriteString s.
Proof. by destruct e. Qed.

Lemma handle_set name key value options ttl w w1 w' :
  ToUpper name = "SET" → parseSetTTL options = inr ttl → ServingAllowed (clock 0) lease = true →
  NewDMap olric dmap w = (Done tt, w1) →
  inner_Put olric dmap (argString key) (argString value) (if 0 <? ttl then [PX ttl] else []) w1 =
    (Done tt, w') →
  handle olric lease clock dmap (name :: key :: value :: options) w = (Done (WriteString "OK"), w').
Proof.
  intros Hname Hp Hs Hn Hput. unfold handle. rewrite Hname.
  cbn [String.eqb Ascii.eqb Bool.eqb]. cbn. unfold handleSet. rewrite Hp.
  unfold reply_of, Service_Set, requireLease, olricDMap_Set, mbind, M_bind. rewrite Hs. cbn.
  by rewrite Hn, Hput.
Qed.

End replies.

(** ** Expiry options *)

(** The options of a SET as the client means them: seconds or milliseconds. *)
Definition set_options (l : list (bool * Z)) : list (list byte) :=
  l ≫= λ '(seconds, value),
    [bytes_of_string (if (seconds : bool) then "EX" else "PX"); bytes_of_string (FormatInt value)].

Definition option_nanos (o : bool * Z) : Z := o.2 * (if o.1 then nanosPerSecond else nanosPerMilli).

Lemma parse_ttl_options ttl l :
  Forall (λ o, 0 < o.2 ∧ option_nanos o ≤ maxInt64) l →
  parse_ttl ttl (set_options l) = inr (default ttl (option_nanos <$> last l)).
Proof.
  intros Hl. revert ttl. induction Hl as [|[s v] l [Hv Hn] _ IH]; intros ttl; [done|].
  cbn [option_nanos fst snd] in *. unfold set_options. cbn [mbind list_bind app].
  assert (v ≤ maxInt64) by (unfold option_nanos, nanosPerSecond, nanosPerMilli in Hn; cbn in Hn; destruct s; lia).
  destruct s; cbn [parse_ttl].
  all: rewrite !bytes_string || idtac.
  all: unfold argString; rewrite string_bytes, ParseInt_FormatInt by (unfold minInt64, maxInt64 in *; lia).
  all: change (ToUpper (bytes_of_string "EX")) with "EX"; change (ToUpper (bytes_of_string "PX")) with "PX".
  all: cbn [String.eqb orb]; cbn -[i64 nanosPerSecond nanosPerMilli Z.mul Z.leb FormatInt].
  all: rewrite (proj2 (Z.leb_gt v 0)) by lia.
  all: fold (set_options l); rewrite IH; f_equal.
  all: rewrite i64_small by
    (unfold option_nanos, nanosPerSecond, nanosPerMilli, minInt64 in *; cbn [fst snd] in *; lia).
  all: rewrite last_cons; by destruct (last l).
Qed.

(** A SET with expiries keeps the last one: for any list of EX and PX
    options whose durations fit in 64 bits of nanoseconds, [parseSetTTL]
    succeeds with the duration of the last option, or none without options. *)
Theorem set_expiry_is_last_option l :
  Forall (λ o, 0 < o.2 ∧ option_nanos o ≤ maxInt64) l →
  parseSetTTL (set_options l) = inr (default 0 (option_nanos <$> last l)).
Proof. apply parse_ttl_options. Qed.

Lemma set_expiry_is_last_option_witness :
  parseSetTTL (set_options [(true, 60); (false, 1500)]) = inr 1500000000.
Proof.
  apply (set_expiry_is_last_option [(true, 60); (false, 1500)]).
  repeat constructor; vm_compute; congruence.
Defined.

(** A DMap that keeps the last put, for the examples. *)
Definition last_put : olric_dmaps (option (string * string * list put_option)) :=
  mkDMaps _ (λ _, mret ()) (λ _ _, fail ErrKeyNotFound)
    (λ _ key value options, modify (λ _, Some (key, value, options)))
    (λ _ _, mret 1) (λ _ _ _, mret ()).

Definition held_lease : LeaseTracker := mkLease 1 1 5000.

(** A long expiry is dropped: the product of an accepted number of seconds
    and a second wraps around, so that SET k v EX 9223372037 is answered OK and
    stored without an expiry. *)
Theorem long_expiry_is_dropped :
  handle last_put held_lease (λ _, 0) "m"
    (bytes_of_string <$> ["SET"; "k"; "v"; "EX"; "9223372037"]) None =
  (Done (WriteString "OK"), Some ("k", "v", [])).
Proof. vm_compute. reflexivity. Qed.

Lemma no_lease_no_effect_witness :
  ∃ r, handle last_put NewLeaseTracker (λ _, 1000000) "m"
         (bytes_of_string <$> ["set"; "k"; "v"]) None = (Done r, None) ∧
       ∃ msg, r = WriteError msg.
Proof.
  destruct (no_lease_no_effect last_put NewLeaseTracker (λ _, 1000000) "m"
    (bytes_of_string <$> ["set"; "k"; "v"]) None) as (r&Hr&Hmsg); [vm_compute; reflexivity|].
  exists r. split; [exact Hr|]. apply Hmsg. vm_compute. reflexivity.
Defined.

(** A clean shutdown drains: once [Shutdown] closes the server without
    running out of its grace time, no handler is between [Add] and [Done], and
    none ever gets there again, in every interleaving. *)
Theorem clean_shutdown_drains s s' :
  rtc resp_step resp_init s → rs_shutdown s = SClosed true → rtc resp_step s s' →
  rs_inflight s' = 0%nat ∧ rs_seen_open s' = 0%nat.
Proof.
  intros Hinit Hclosed Hrun. pose proof (resp_inv_run resp_init s eq_refl Hinit) as Hinv.
  pose proof (closed_stays s s' Hrun Hclosed) as Hc. pose proof (resp_inv_run _ _ Hinv Hrun) as Hinv'.
  unfold resp_inv in Hinv'. rewrite Hc in Hinv'. naive_solver.
Qed.

Lemma clean_shutdown_drains_witness : rs_inflight (mkResp true true 0 0 0 (SClosed true)) = 0%nat.
Proof.
  refine (proj1 (clean_shutdown_drains (mkResp true true 0 0 0 (SClosed true)) _ _ eq_refl (rtc_refl _ _))).
  eapply rtc_l; [apply (serve_starts false false 0 0 0 SIdle)|].
  eapply rtc_l; [apply (handle_load false true 0 0 0 SIdle)|].
  eapply rtc_l; [apply (handle_add false true 0 0 0 SIdle)|].
  eapply rtc_l; [apply (shutdown_flag true 0 0 1)|].
  eapply rtc_l; [apply (shutdown_barrier true 1)|].
  eapply rtc_l; [apply (handle_done true true 0 0 0 SWaiting)|].
  eapply rtc_l; [apply (shutdown_drained true true 0 0)|]. apply rtc_refl.
Defined.
