(* ===== verification/Embedded.v ===== *)
(** * The embedded Olric client of a node
      ([third_party/olric/embedded_client.go], [olric.go], [get_response.go]; the
      entry points [Put], [Expire], [Get] and [Delete] of
      [third_party/olric/internal/dmap])

    The RESP server of [StringKV] calls Olric through the Go interface
    [olric.DMap].  Here is the implementation a node passes to it: the embedded
    client, on the state of a pod, which is the owner of [Dmap] and the sidecar
    of [Sidecar] around one ring file.  The node owns every partition; the
    fragments of a DMap have disjoint hashes and are one map.  What the clocks,
    the database and the way to the sidecar answer during a command is a
    [call]. *)

From S2P Require Import Prelude Json Strings Times Records Oplog OplogRing Backend Sidecar Messages Lease Engine Hook ControlRpc Dmap StringKV.

(** ** The pod *)

(** The two mappings of the ring are the same file: [pod_node] and
    [pod_oplog] carry over what one side does to it. *)
Record pod := mkPod { pod_owner : owner; pod_sidecar : server }.

Definition pod_node {E A} (m : M owner E A) : M pod E A := λ p,
  let '(r, o) := m (pod_owner p) in
  (r, mkPod o (set_ring (h_ring (o_hook o)) (pod_sidecar p))).

Definition pod_oplog {E A} (m : M server E A) : M pod E A := λ p,
  let '(r, s) := m (pod_sidecar p) in
  (r, mkPod (set_o_hook (set_hook_ring (srv_ring s) (o_hook (pod_owner p))) (pod_owner p)) s).

(** ** Hashes *)

(** [partitions.SetHashFunc]: the hash of Olric's configuration. *)
Class Hasher := {
  Sum64 : list byte → Z;
  Sum64_range : ∀ l, 0 ≤ Sum64 l < 2 ^ 64 }.

(** [partitions.HKey] *)
Definition HKey `{Hasher} (name key : string) : Z := Sum64 (bytes_of_string (name +:+ key)).

(** ** Errors *)

(** [err.Error()] of the errors of package [dmap]; [text] is the text of those
    of the hook and of other members, which carry values. *)
Definition dmap_text (text : dmap_err → string) (e : dmap_err) : string :=
  match e with
  | DErrKeyFound => "key found"
  | DErrKeyNotFound => "key not found"
  | DErrWriteQuorum => "write quorum cannot be reached"
  | DErrReadQuorum => "read quorum cannot be reached"
  | DErrServerGone => "server is gone"
  | e => text e
  end.

(** An error of package [dmap] as it is: [errors.Is] finds none of the errors
    of package [olric] in it.  The hook's [ErrLeaseExpired] is the one of the
    service, and a done context shows as its own error. *)
Definition raw_error (done : kv_err) (text : dmap_err → string) (e : dmap_err) : kv_err :=
  match e with
  | DErrHook ErrLeaseExpired => ErrServingLeaseExpired
  | DErrHook ErrContextDone => done
  | e => ErrMsg (dmap_text text e)
  end.

(** [convertDMapError]: the errors of package [olric] have the same texts. *)
Definition convertDMapError (done : kv_err) (text : dmap_err → string) (e : dmap_err) : kv_err :=
  match e with
  | DErrKeyNotFound => StringKV.ErrKeyNotFound
  | e => raw_error done text e
  end.

(** ** Values *)

(** [resp.Encode] of a string, and [GetResponse.String]. *)
Definition encode_value (value : string) : list byte := bytes_of_string value.
Definition response_String (x : StorageEntry) : outcome kv_err string := Done (string_of_bytes (se_value x)).

(** ** The client *)

(** What a command meets on its way. *)
Record call := mkCall {
  k_schedule : schedule;              (** the clocks of a write *)
  k_waits : list wait;                (** the waits of its append *)
  k_timestamp : Z;                    (** the clock in [newEnv] *)
  k_read : Z;                         (** the clock of a read in memory *)
  k_load : Z;                         (** the sidecar's clock in a load *)
  k_answer : db_answer;               (** the database in a load *)
  k_fate : delivery;                  (** the control RPC of a load *)
  k_spare : list byte;
  k_operable : option string;         (** the error of the checks of [NewDMap] *)
  k_timed_out : bool;                 (** how the context of the command ends *)
  k_text : dmap_err → string }.

Definition k_done (k : call) : kv_err := if k_timed_out k then DeadlineExceeded else Canceled.

Section client.
Context `{TimeParse} `{WriterOrder} {U : UpsertEngine} (order : list Entry → list Entry).
Context `{UnaryTransport} `{VersionSort} `{Hasher} (c : dmap_config) (k : call).

(** The options of [Put], applied one after the other. *)
Definition apply_option (pc : PutConfig) (o : put_option) : PutConfig :=
  match o with
  | StringKV.PX px => mkPutConfig (HasEX pc) (EX pc) true px (HasEXAT pc) (EXAT pc) (HasPXAT pc) (PXAT pc)
                        (HasNX pc) (HasXX pc) (OnlyUpdateTTL pc)
  end.

(** [DMap.Put]: the environment of a put. *)
Definition put_env (dmap key value : string) (options : list put_option) : env :=
  mkEnv (foldl apply_option no_options options) (HKey dmap key) (k_timestamp k) dmap key
    (encode_value value) 0.

Definition EmbeddedDMap_Put (dmap key value : string) (options : list put_option) : M pod kv_err () :=
  pod_node (wrap_err (convertDMapError (k_done k) (k_text k))
    (putOnCluster c single_replica (k_schedule k) (k_waits k) (put_env dmap key value options))).

(** [EmbeddedDMap.Expire] returns the error of [DMap.Expire] as it is. *)
Definition EmbeddedDMap_Expire (dmap key : string) (timeout : Z) : M pod kv_err () :=
  pod_node (wrap_err (raw_error (k_done k) (k_text k))
    (putOnCluster c single_replica (k_schedule k) (k_waits k)
       (expire_env dmap key (HKey dmap key) (k_timestamp k) timeout))).

(** [EmbeddedDMap.Delete] with one key, whose owner this node is. *)
Definition EmbeddedDMap_Delete (dmap key : string) : M pod kv_err Z :=
  pod_node (wrap_err (raw_error (k_done k) (k_text k))
    (deleteKey [] [] (k_schedule k) (k_waits k) dmap key (HKey dmap key)));; mret 1.

(** The load of a miss goes over the control RPC, and only on a miss. *)
Definition EmbeddedDMap_Get (dmap key : string) : M pod kv_err (outcome kv_err string) := λ p,
  let load := controlAdapter_LoadFromMySQL order (k_answer k) (k_load k) (k_fate k) dmap key
                (HKey dmap key) (pod_sidecar p) in
  let s := match getOnCluster c (k_read k) (HKey dmap key) [] [] (o_frag (pod_owner p)) with
           | Fail DErrKeyNotFound => load.2
           | _ => pod_sidecar p
           end in
  match wrap_err (convertDMapError (k_done k) (k_text k))
          (Get c (k_read k) [] [] (Some (answer_of load.1)) (k_spare k) id dmap key (HKey dmap key))
          (pod_owner p) with
  | (Done x, o) => (Done (response_String x), mkPod o s)
  | (Fail e, o) => (Fail e, mkPod o s)
  | (Panic, o) => (Panic, mkPod o s)
  end.

(** [EmbeddedClient.NewDMap]: the checks that the cluster is operable. *)
Definition EmbeddedClient_NewDMap (dmap : string) : M pod kv_err () :=
  match k_operable k with None => mret tt | Some msg => fail (ErrMsg msg) end.

Definition embedded : olric_dmaps pod :=
  mkDMaps _ EmbeddedClient_NewDMap EmbeddedDMap_Get EmbeddedDMap_Put EmbeddedDMap_Delete
    EmbeddedDMap_Expire.

(** ** Theorems *)

(** C38: EXPIRE of a key that is not in memory is answered with an error.  The
    embedded client hands on the error of package [dmap] unconverted, so the
    adapter does not see [olric.ErrKeyNotFound] in it, and the reply is the
    error "ERR key not found" where the server means to reply 0.  It makes no
    difference whether the sidecar has the key: an expire does not load it. *)
Theorem expire_of_missing_key_is_an_error lease clock d name key seconds n p :
  ToUpper name = "EXPIRE" → strconv_ParseInt (argString seconds) = Some n →
  0 < n → 0 < i64 (n * nanosPerSecond) → ServingAllowed (clock 0%nat) lease = true →
  k_operable k = None → s_lock (k_schedule k) = id → srv_ring (pod_sidecar p) = h_ring (o_hook (pod_owner p)) →
  o_frag (pod_owner p) !! HKey d (argString key) = None →
  handle embedded lease clock d [name; key; seconds] p = (Done (WriteError "ERR key not found"), p).
Proof.
  intros Hname Hsec Hn Hns Hserve Hop Hlock Hring Hmiss. unfold handle. rewrite Hname. cbn.
  unfold handleExpire. rewrite Hsec, (proj2 (Z.leb_gt n 0)) by lia.
  unfold Service_Expire. rewrite (proj2 (Z.leb_gt _ 0)) by lia.
  unfold requireLease. rewrite Hserve. erewrite bind_done by reflexivity.
  unfold NewDMap, embedded, EmbeddedClient_NewDMap. rewrite Hop. erewrite bind_done by reflexivity.
  unfold olricDMap_Expire, wrap_err at 1. cbn [inner_Expire embedded].
  unfold EmbeddedDMap_Expire, pod_node, wrap_err, putOnCluster.
  destruct (effective_timeout_fields c (expire_env d (argString key) (HKey d (argString key)) (k_timestamp k)
    (i64 (n * nanosPerSecond)))) as (->&Hk&_). cbn [e_putConfig expire_env OnlyUpdateTTL].
  erewrite bind_done by reflexivity. rewrite Hlock. unfold expire_locked, id.
  unfold mbind at 1, M_bind at 1, on_frag at 1, zoom, checkPutConditions.
  rewrite (proj1 (effective_timeout_fields c _)). cbn [e_putConfig expire_env HasNX HasXX andb].
  unfold mbind, M_bind, on_frag, zoom, wrap_err, Engine_Get. cbn [o_frag set_o_frag].
  rewrite Hk. cbn [e_hkey expire_env]. rewrite Hmiss. cbn [storage_err raw_error dmap_text map_not_found].
  destruct p as [[h f] []]. cbn in *. by subst.
Qed.
End client.

(** *** Witnesses *)

(** A hash for examples with one key. *)
Definition hash_seven : Hasher.
Proof. refine {| Sum64 := λ _, 7 |}. intros l. split; [discriminate|reflexivity]. Defined.

Definition call_at (now : Z) : call :=
  mkCall (mkSchedule now now now now now id id id) [] now now now db_ok delivered [] None false (λ _, "").

(** A pod with nothing in it. *)
Definition pod128 : pod :=
  mkPod owner128 (mkServer 131072 (h_ring hook128) newPending ∅ false (withDefaults (mkConfig 0 0 0 0 0))).

#[local] Existing Instance hash_seven.
#[local] Existing Instance merge_version_sort.
#[local] Existing Instance strict_time.
#[local] Existing Instance old_row_engine.

Lemma expire_of_missing_key_is_an_error_witness :
  handle (embedded id config1 (call_at 5)) lease_live (λ _, 5) "users"
    (bytes_of_string <$> ["EXPIRE"; "k"; "10"]) pod128 = (Done (WriteError "ERR key not found"), pod128).
Proof.
  apply (expire_of_missing_key_is_an_error id config1 (call_at 5) lease_live (λ _, 5) "users"
    (bytes_of_string "EXPIRE") (bytes_of_string "k") (bytes_of_string "10") 10 pod128);
    try reflexivity; vm_compute; reflexivity.
Defined.
