(* ===== verification/Routing.v ===== *)
(** * Deletes across members
      ([third_party/olric/internal/dmap]: [deleteKeys] of [delete.go],
      [delete_handlers.go])

    Every key has one owner among the members.  A delete groups its keys by
    owner, deletes its own keys itself and sends the others to their owner,
    whose command handler runs the same function. *)

From S2P Require Import Prelude Strings Records Json Oplog OplogRing Messages Lease Engine Hook Dmap Embedded.

(** The owner state of every member. *)
Abbreviation members := (gmap string owner).

(** [EUnreachable]: the command got no answer; [ERemote]: [ConvertError] of what
    the handler wrote; [EFuel]: the command is still being handed on. *)
Inductive route_err := ELocal (e : dmap_err) | ERemote (e : route_err) | EUnreachable | EFuel.

(** What a member's owner path meets while it deletes a key. *)
Record delete_call := mkDeleteCall {
  dc_previous : list bool;
  dc_backups : list bool;
  dc_schedule : schedule;
  dc_waits : list wait }.

Section routing.
Context `{Hasher}.
(** The name of the map, the owner of a hash in the routing table of a member,
    whether a member answers, and what it meets for a key. *)
Context (d : string) (owner_of : string → Z → string) (reachable : string → bool).
Context (meets : string → string → delete_call).
(** The order in which a range visits the map of the members. *)
Context (order : list (string * list string) → list (string * list string)).

Definition at_member (m : string) (run : M owner dmap_err ()) : M members route_err () := λ c,
  match c !! m with
  | None => (Panic, c)
  | Some o => let '(r, o) := wrap_err ELocal run o in (r, <[m := o]> c)
  end.

Definition delete_at (m key : string) : M members route_err () :=
  let x := meets m key in
  at_member m (deleteKey (dc_previous x) (dc_backups x) (dc_schedule x) (dc_waits x) d key (HKey d key)).

Fixpoint delete_each (m : string) (keys : list string) : M members route_err () :=
  match keys with
  | [] => mret tt
  | key :: keys => delete_at m key;; delete_each m keys
  end.

(** The first loop of [deleteKeys]. *)
Definition by_owner (this : string) (keys : list string) : gmap string (list string) :=
  foldl (λ ms key, let m := owner_of this (HKey d key) in <[m := default [] (ms !! m) ++ [key]]> ms) ∅ keys.

(** The second loop: [send] is the command to another member, [count] the
    number of keys. *)
Fixpoint visit_members (this : string) (count : Z) (send : string → list string → M members route_err Z)
    (groups : list (string * list string)) : M members route_err Z :=
  match groups with
  | [] => mret count
  | (m, distributedKeys) :: groups =>
    if String.eqb m this then delete_each m distributedKeys;; visit_members this count send groups
    else if negb (reachable m) then fail EUnreachable
    else wrap_err ERemote (send m distributedKeys);; mret 0
  end.

(** [deleteKeys] and [delCommandHandler]: a command that arrives at another
    member uses one unit of fuel. *)
Fixpoint deleteKeys (fuel : nat) (this : string) (keys : list string) : M members route_err Z :=
  match fuel with
  | O => fail EFuel
  | S fuel => visit_members this (zlen keys) (deleteKeys fuel) (order (map_to_list (by_owner this keys)))
  end.

(** ** Lemmas *)

(** Only the members of a set have changed. *)
Definition only (ms : string → Prop) (c c' : members) : Prop := ∀ m, ¬ ms m → c' !! m = c !! m.

Lemma only_trans (ms : string → Prop) c1 c2 c3 : only ms c1 c2 → only ms c2 c3 → only ms c1 c3.
Proof. intros H1 H2 m Hm. by rewrite H2, H1. Qed.

Lemma only_mono (ms ms' : string → Prop) c c' : (∀ m, ms m → ms' m) → only ms c c' → only ms' c c'.
Proof. intros Hm Ho m Hn. apply Ho. eauto. Qed.

Lemma delete_at_only m key c : only (eq m) c (delete_at m key c).2.
Proof.
  intros m' Hne. unfold delete_at, at_member. destruct (c !! m) as [o|]; [|done].
  destruct (wrap_err _ _ _) as [r o']. by apply lookup_insert_ne.
Qed.

Lemma delete_each_only m keys c : only (eq m) c (delete_each m keys c).2.
Proof.
  revert c. induction keys as [|key keys IH]; intros c; [done|]. cbn [delete_each].
  pose proof (delete_at_only m key c) as H1. unfold mbind, M_bind.
  destruct (delete_at m key c) as [[[]| |] c1]; [|done..]. by eapply only_trans.
Qed.

(** All members have the same routing table. *)
Definition agree : Prop := ∀ m m' hkey, owner_of m hkey = owner_of m' hkey.

Definition owned (this m : string) (keys : list string) : list string :=
  filter (λ key, owner_of this (HKey d key) = m) keys.

Lemma by_owner_lookup this keys m :
  by_owner this keys !! m = match owned this m keys with [] => None | ks => Some ks end.
Proof.
  unfold by_owner. revert m. induction keys as [|key keys IH] using rev_ind; intros m; [done|].
  rewrite foldl_app. cbn [foldl]. set (ms := foldl _ _ _) in *.
  unfold owned. rewrite filter_app, filter_cons, filter_nil. fold (owned this m keys).
  destruct (decide (owner_of this (HKey d key) = m)) as [->|Hne].
  - rewrite lookup_insert_eq, IH. by destruct (owned this m keys).
  - by rewrite lookup_insert_ne, IH, app_nil_r.
Qed.

Section routed.
Context (Hagree : agree) (Horder : ∀ l, order l ≡ₚ l).

(** A member that owns all the keys deletes them itself. *)
Lemma owner_deletes fuel m keys c :
  keys ≠ [] → Forall (λ key, owner_of m (HKey d key) = m) keys →
  deleteKeys (S fuel) m keys c = (delete_each m keys;; mret (zlen keys)) c.
Proof.
  intros Hne Hall. cbn [deleteKeys].
  assert (by_owner m keys = {[m := keys]}) as ->.
  { apply map_eq. intros m'. rewrite by_owner_lookup. destruct (decide (m' = m)) as [->|Hm].
    - rewrite lookup_singleton_eq. assert (owned m m keys = keys) as ->; [|by destruct keys].
      clear Hne. induction Hall as [|key keys Hk _ IH]; [done|]. unfold owned. rewrite filter_cons_True by done.
      by f_equal.
    - rewrite lookup_singleton_ne by done. assert (owned m m' keys = []) as ->; [|done].
      clear Hne. induction Hall as [|key keys Hk _ IH]; [done|]. unfold owned.
      rewrite filter_cons_False by congruence. exact IH. }
  rewrite map_to_list_singleton.
  assert (order [(m, keys)] = [(m, keys)]) as -> by (apply Permutation_singleton_r; apply Horder).
  cbn [visit_members]. by rewrite String.eqb_refl.
Qed.

Lemma visited_groups this keys m ks :
  (m, ks) ∈ order (map_to_list (by_owner this keys)) →
  ks = owned this m keys ∧ ks ≠ [] ∧ Forall (λ key, owner_of m (HKey d key) = m) ks.
Proof.
  rewrite Horder, elem_of_map_to_list, by_owner_lookup.
  destruct (owned this m keys) as [|k0 l] eqn:Ho; [done|]. intros [= <-]. split_and!; [done..|].
  rewrite <- Ho. apply Forall_forall. intros key [Hk _]%list_elem_of_filter. by rewrite (Hagree m this).
Qed.

Lemma deleteKeys_reach fuel this keys c :
  ∃ m, only (λ x, x = this ∨ x = m) c (deleteKeys (S (S fuel)) this keys c).2.
Proof.
  pose proof (visited_groups this keys) as Hg.
  change (deleteKeys (S (S fuel)) this keys) with
    (visit_members this (zlen keys) (deleteKeys (S fuel)) (order (map_to_list (by_owner this keys)))).
  revert c. induction (order (map_to_list (by_owner this keys))) as [|[m ks] groups IH]; intros c;
    [by exists this|].
  cbn [visit_members]. destruct (String.eqb_spec m this) as [->|Hm].
  - pose proof (delete_each_only this ks c) as H1. unfold mbind, M_bind.
    destruct (delete_each this ks c) as [[[]| |] c1]; [|by exists this; intros x Hx; apply H1; naive_solver..].
    destruct (IH (λ m ks Hin, Hg m ks ltac:(by right)) c1) as [m Hm]. exists m.
    eapply only_trans; [|exact Hm]. eapply only_mono; [|exact H1]. naive_solver.
  - exists m. destruct (negb (reachable m)); [done|].
    destruct (Hg m ks ltac:(by left)) as (_&Hne&Hall). unfold wrap_err, mbind at 1, M_bind at 1.
    rewrite (owner_deletes fuel m ks c Hne Hall). pose proof (delete_each_only m ks c) as H1. unfold mbind, M_bind.
    destruct (delete_each m ks c) as [[[]| |] c1]; intros x Hx; apply H1; naive_solver.
Qed.
End routed.

(** ** Theorems *)

(** A delete of one key reaches its owner.  Whatever member it is issued at,
    it is the owner's delete of that key; a member that had to send it counts
    no deleted key. *)
Theorem delete_of_one_key_reaches_owner fuel this key c :
  agree → (∀ l, order l ≡ₚ l) → let m := owner_of this (HKey d key) in reachable m = true →
  deleteKeys (S (S fuel)) this [key] c =
  (if String.eqb m this then delete_at m key;; mret 1 else wrap_err ERemote (delete_at m key);; mret 0) c.
Proof.
  intros Hagree Horder m Hr. assert (m = owner_of m (HKey d key)) as Hm by apply Hagree.
  assert (∀ fuel c, deleteKeys (S fuel) m [key] c = (delete_at m key;; mret 1) c) as Hown.
  { intros fuel' c'. rewrite (owner_deletes Horder) by (done || by constructor). cbn [delete_each].
    unfold mbind, M_bind. by destruct (delete_at m key c') as [[[]| |] ?]. }
  destruct (String.eqb_spec m this) as [Heq|Hne]; [rewrite <- Heq at 1; apply Hown|].
  change (deleteKeys (S (S fuel)) this [key]) with
    (visit_members this 1 (deleteKeys (S fuel)) (order (map_to_list (by_owner this [key])))).
  unfold by_owner. cbn [foldl]. fold m. rewrite lookup_empty, insert_empty, map_to_list_singleton. cbn [default app].
  assert (order [(m, [key])] = [(m, [key])]) as -> by (apply Permutation_singleton_r; apply Horder).
  cbn [visit_members]. rewrite (proj2 (String.eqb_neq m this)), Hr by done. cbn [negb].
  unfold wrap_err, mbind, M_bind. rewrite Hown. unfold mbind, M_bind.
  by destruct (delete_at m key c) as [[[]| |] ?].
Qed.

(** A delete reaches at most one other member: it returns after the first
    command it has sent.  Of any two other members one is as it was, whatever
    keys of theirs the delete was to remove. *)
Theorem delete_misses_a_member fuel this keys m1 m2 c :
  agree → (∀ l, order l ≡ₚ l) → m1 ≠ this → m2 ≠ this → m1 ≠ m2 →
  let c' := (deleteKeys (S (S fuel)) this keys c).2 in c' !! m1 = c !! m1 ∨ c' !! m2 = c !! m2.
Proof.
  intros Hagree Horder H1 H2 Hne c'.
  destruct (deleteKeys_reach Hagree Horder fuel this keys c) as [m Hm].
  destruct (decide (m1 = m)) as [->|]; [right|left]; apply Hm; naive_solver.
Qed.
End routing.

(** *** Witnesses *)

(** A hash for examples with keys of different lengths. *)
Definition hash_length : Hasher.
Proof. refine {| Sum64 l := zlen l `mod` 2 ^ 64 |}. intros l. by apply Z.mod_pos_bound. Defined.

#[local] Existing Instance hash_length.

Definition example_owner (_ : string) (hkey : Z) : string := if hkey =? 6 then "pod-1" else "pod-2".
Definition example_members : members := {["pod-1" := owner128; "pod-2" := owner128]}.
Definition example_meets (_ _ : string) : delete_call := mkDeleteCall [] [] (mkSchedule 5 5 5 5 5 id id id) [].

Lemma delete_of_one_key_reaches_owner_witness :
  deleteKeys "users" example_owner (λ _, true) example_meets id 2 "pod-1" ["kk"] example_members =
  (wrap_err ERemote (delete_at "users" example_meets "pod-2" "kk");; mret 0) example_members.
Proof.
  assert (example_owner "pod-1" (HKey "users" "kk") = "pod-2") as Ho by (vm_compute; reflexivity).
  pose proof (delete_of_one_key_reaches_owner "users" example_owner (λ _, true) example_meets id 0 "pod-1" "kk"
    example_members ltac:(done) ltac:(done) eq_refl) as Hrun.
  rewrite Ho in Hrun. exact Hrun.
Defined.

Lemma delete_misses_a_member_witness :
  let run := deleteKeys "users" example_owner (λ _, true) example_meets id 2 "pod-0" ["k"; "kk"] example_members in
  run.1 = Done 0 ∧
  owned "users" example_owner "pod-0" "pod-1" ["k"; "kk"] = ["k"] ∧
  owned "users" example_owner "pod-0" "pod-2" ["k"; "kk"] = ["kk"] ∧
  (run.2 !! "pod-1" = example_members !! "pod-1" ∨ run.2 !! "pod-2" = example_members !! "pod-2").
Proof.
  split_and!; [by vm_compute..|].
  apply (delete_misses_a_member "users" example_owner (λ _, true) example_meets id 0 "pod-0" ["k"; "kk"] "pod-1" "pod-2");
    done.
Defined.
