(* ===== verification/Session.v ===== *)
(** * RESP commands over a key/value store

    What the RESP server of [StringKV] promises its clients, given what the
    store behind it promises the server.  [KVStore] is that interface: an
    implementation of [olric.DMap] whose states represent maps from keys to
    values with an expiry.  [permits] says which replies a client may see and
    what they do to the map; [handle_run] shows that the server, over any
    store, gives no other.  [Cache] shows that a pod is such a store. *)

From S2P Require Import Prelude Strings Records Messages Lease StringKV.

(** ** The interface *)

(** The contents of a DMap: values, with the millisecond they expire at. *)
Abbreviation contents := (gmap string (string * Z)).

(** The millisecond an entry written at [now] expires at, 0 for never. *)
Definition expiry (options : list put_option) (now : Z) : Z :=
  match last options with
  | Some (PX px) => Z.quot (i64 (px + i64 now)) 1000000
  | None => 0
  end.

(** The clock where a command stamps, where it reads, and where the sidecar
    answers a read that was not in memory. *)
Record instants := mkInstants { i_write : Z; i_read : Z; i_load : Z }.

(** [rep n w m]: the state [w] holds [m] and can stamp [n] more writes;
    [settled w]: reads see every write before them; [broken w]: the node has
    called its fatal callback; [fits]: the key and value are of a size that can
    be stored. *)
Class KVStore {W} (d : string) (rep : nat → W → contents → Prop) (settled broken : W → Prop)
    (fits : string → string → Prop) (olric : olric_dmaps W) (i : instants) : Prop := {
  kv_weaken n w m : rep (S n) w m → rep n w m;
  kv_NewDMap w : NewDMap olric d w = (Done tt, w) ∨ ∃ msg, NewDMap olric d w = (Fail (ErrMsg msg), w);
  kv_Get n key value w m : rep n w m → settled w → fits key value →
    match inner_Get olric d key w with
    | (Done (Done v), w') => rep n w' m ∧ ∃ ttl, m !! key = Some (v, ttl) ∧ alive ttl (i_read i)
    | (Fail ErrKeyNotFound, w') => rep n w' m ∧ ∀ v ttl, m !! key = Some (v, ttl) → ¬ alive ttl (i_load i)
    | (Fail e, w') => rep n w' m ∧ e ≠ ErrNotFound
    | _ => False
    end;
  kv_Put n key value options w m : rep (S n) w m → fits key value →
    match inner_Put olric d key value options w with
    | (Done _, w') => rep n w' (<[key := (value, expiry options (i_write i))]> m)
    | (Fail e, w') => e ≠ ErrNotFound ∧ (rep n w' m ∨ broken w')
    | (Panic, _) => False
    end;
  kv_Delete n key value w m : rep (S n) w m → fits key value →
    match inner_Delete olric d key w with
    | (Done _, w') => rep n w' (delete key m)
    | (Fail e, w') => e ≠ ErrNotFound ∧ e ≠ ErrKeyNotFound ∧ (rep n w' m ∨ broken w')
    | (Panic, _) => False
    end;
  kv_Expire n key value ttl w m : rep (S n) w m → fits key value → 0 < ttl →
    match inner_Expire olric d key ttl w with
    | (Done _, w') => ∃ v old, m !! key = Some (v, old) ∧
        rep n w' (<[key := (v, expiry [PX ttl] (i_write i))]> m)
    | (Fail e, w') => e ≠ ErrNotFound ∧ (rep n w' m ∨ broken w' ∧ e ≠ ErrKeyNotFound)
    | (Panic, _) => False
    end }.

(** ** The specification *)

Definition delete_all (keys : list string) (m : contents) : contents := foldl (λ m k, delete k m) m keys.

(** The duration of a command's options, as the adapter passes it on. *)
Definition set_put_options (ttl : Z) : list put_option := if 0 <? ttl then [PX ttl] else [].

Inductive permits (i : instants) (m : contents) : list (list byte) → reply → contents → Prop :=
| permits_get name key v ttl :
    ToUpper name = "GET" → m !! argString key = Some (v, ttl) → alive ttl (i_read i) →
    permits i m [name; key] (WriteBulk v) m
| permits_get_none name key :
    ToUpper name = "GET" → (∀ v ttl, m !! argString key = Some (v, ttl) → ¬ alive ttl (i_load i)) →
    permits i m [name; key] (WriteRaw ("_" +:+ crlf)) m
| permits_set name key value options ttl :
    ToUpper name = "SET" → parseSetTTL options = inr ttl →
    permits i m (name :: key :: value :: options) (WriteString "OK")
      (<[argString key := (argString value, expiry (set_put_options ttl) (i_write i))]> m)
| permits_del name keys :
    ToUpper name = "DEL" → keys ≠ [] →
    permits i m (name :: keys) (WriteInt (zlen keys)) (delete_all (argString <$> keys) m)
| permits_del_some name keys keys' msg :
    ToUpper name = "DEL" →
    permits i m (name :: keys ++ keys') (WriteError msg) (delete_all (argString <$> keys) m)
| permits_expire name key v old seconds n :
    ToUpper name = "EXPIRE" → strconv_ParseInt (argString seconds) = Some n →
    m !! argString key = Some (v, old) →
    permits i m [name; key; seconds] (WriteInt 1)
      (<[argString key := (v, expiry [PX (i64 (n * nanosPerSecond))] (i_write i))]> m)
| permits_expire_none name key seconds :
    ToUpper name = "EXPIRE" → permits i m [name; key; seconds] (WriteInt 0) m
| permits_error args msg : permits i m args (WriteError msg) m
| permits_other args r :
    data_command args = false → permits i m args r m.

(** The keys a command is about, with the value it stores. *)
Definition touches (args : list (list byte)) : list (string * string) :=
  match args with
  | [] => []
  | name :: rest =>
    if String.eqb (ToUpper name) "SET" then
      match rest with key :: value :: _ => [(argString key, argString value)] | _ => [] end
    else if String.eqb (ToUpper name) "DEL" then (λ key, (argString key, "")) <$> rest
    else match rest with key :: _ => [(argString key, "")] | [] => [] end
  end.

Definition sized (fits : string → string → Prop) (args : list (list byte)) : Prop :=
  ∀ key value, (key, value) ∈ touches args → fits key value.

(** A command that reads. *)
Definition reads (args : list (list byte)) : Prop :=
  match args with name :: _ => ToUpper name = "GET" | [] => False end.

(** ** The server *)

Section refinement.
Context {W : Type} (d : string) (rep : nat → W → contents → Prop) (settled broken : W → Prop).
Context (fits : string → string → Prop) (olric : olric_dmaps W) (i : instants).
Context `{!KVStore d rep settled broken fits olric i}.
Context (lease : LeaseTracker) (clock : nat → Z).

(** What a command leaves behind: a reply the map permits, or a broken node
    that answers with an error. *)
Definition refines (n : nat) (args : list (list byte)) (m : contents) (out : outcome kv_err reply * W) : Prop :=
  match out with
  | (Done r, w') => (∃ m', permits i m args r m' ∧ rep n w' m') ∨ broken w' ∧ ∃ msg, r = WriteError msg
  | _ => False
  end.

Lemma kv_weaken_le n n' w m : (n ≤ n')%nat → rep n' w m → rep n w m.
Proof. induction 1; [done|]. intros Hr%kv_weaken. auto. Qed.

Lemma service_error e : e ≠ ErrNotFound → ∃ msg, writeServiceError e = WriteError msg.
Proof. intros He. destruct e; try done; eexists; reflexivity. Qed.

Lemma refines_error n args m w' e :
  e ≠ ErrNotFound → rep n w' m ∨ broken w' → refines n args m (Done (writeServiceError e), w').
Proof.
  intros [msg ->]%service_error [Hr|Hb]; [left; exists m; by split; [apply permits_error|]|right; eauto].
Qed.

(** A service method: its lease check and [NewDMap], then its body. *)
Lemma service_run {A} now (body : M W kv_err A) w :
  let out := (requireLease lease now;; NewDMap olric d;; body) w in
  out = body w ∨ ∃ e, e ≠ ErrNotFound ∧ e ≠ ErrKeyNotFound ∧ out = (Fail e, w).
Proof.
  cbv zeta. unfold requireLease. destruct (ServingAllowed now lease); [|right; exists ErrServingLeaseExpired; by split_and!].
  erewrite bind_done by reflexivity. destruct (kv_NewDMap w) as [Hn|[msg Hn]].
  - left. by rewrite (bind_done _ _ _ _ _ Hn).
  - right. exists (ErrMsg msg). split_and!; [done..|]. unfold mbind, M_bind. by rewrite Hn.
Qed.

Lemma get_refines n name key w m :
  ToUpper name = "GET" → rep n w m → settled w → sized fits [name; key] →
  refines n [name; key] m (handleGet olric lease clock d [name; key] w).
Proof.
  intros Hn Hr Hs Hf. unfold handleGet, reply_of, Service_Get.
  destruct (service_run (clock 0) (olricDMap_Get olric d (argString key)) w) as [->|(e&He&_&->)];
    [|by apply refines_error; [|left]].
  unfold olricDMap_Get, mbind, M_bind, wrap_err.
  pose proof (kv_Get n (argString key) EmptyString w m Hr Hs ltac:(apply Hf; unfold touches; rewrite Hn; by left)) as Hg.
  destruct (inner_Get _ _ _ _) as [[[v| |]|e|] w']; try done.
  - destruct Hg as (Hr'&ttl&Hm&Ha). left. exists m. split; [|done]. by eapply permits_get.
  - destruct e; cbn [map_not_found]; try (apply refines_error; [done|left; by destruct Hg]).
    + destruct Hg as [Hr' Hm]. left. exists m. split; [|done]. by apply permits_get_none.
    + by destruct Hg.
Qed.

Lemma set_refines n name key value options w m :
  ToUpper name = "SET" → rep (S n) w m → sized fits (name :: key :: value :: options) →
  refines n (name :: key :: value :: options) m
    (handleSet olric lease clock d (name :: key :: value :: options) w).
Proof.
  intros Hn Hr Hf. unfold handleSet.
  destruct (parseSetTTL options) as [msg|ttl] eqn:Hp; [left; exists m; split; [apply permits_error|by apply kv_weaken]|].
  unfold reply_of, Service_Set.
  destruct (service_run (clock 0) (olricDMap_Set olric d (argString key) (argString value) ttl) w)
    as [->|(e&He&_&->)]; [|apply refines_error; [done|left; by apply kv_weaken]].
  unfold olricDMap_Set. fold (set_put_options ttl).
  pose proof (kv_Put n (argString key) (argString value) (set_put_options ttl) w m Hr
    ltac:(apply Hf; unfold touches; rewrite Hn; by left)) as Hput.
  destruct (inner_Put _ _ _ _ _ _) as [[[]|e|] w']; [|by apply refines_error; apply Hput|done].
  left. eexists. split; [by apply permits_set|done].
Qed.

Lemma expire_refines n name key seconds w m :
  ToUpper name = "EXPIRE" → rep (S n) w m → sized fits [name; key; seconds] →
  refines n [name; key; seconds] m (handleExpire olric lease clock d [name; key; seconds] w).
Proof.
  intros Hn Hr Hf. unfold handleExpire.
  destruct (strconv_ParseInt _) as [z|] eqn:Hp; [|left; exists m; split; [apply permits_error|by apply kv_weaken]].
  destruct (z <=? 0); [left; exists m; split; [apply permits_error|by apply kv_weaken]|].
  unfold Service_Expire. set (ttl := i64 (z * nanosPerSecond)).
  destruct (Z.leb_spec ttl 0); [left; exists m; split; [apply permits_error|by apply kv_weaken]|].
  destruct (service_run (clock 0) (olricDMap_Expire olric d (argString key) ttl) w)
    as [->|(e&He&_&->)].
  2: { pose proof (refines_error n [name; key; seconds] m w e He (or_introl (kv_weaken _ _ _ Hr))) as Hx. by destruct e. }
  unfold olricDMap_Expire, wrap_err.
  pose proof (kv_Expire n (argString key) EmptyString ttl w m Hr ltac:(apply Hf; unfold touches; rewrite Hn; by left)
    ltac:(lia)) as Hx.
  destruct (inner_Expire _ _ _ _ _) as [[[]|e|] w']; [| |done].
  - destruct Hx as (v&old&Hm&Hr'). left. eexists. split; [by eapply permits_expire|done].
  - destruct Hx as [He [Hx|[Hx Hk]]].
    + pose proof (refines_error n [name; key; seconds] m w' e He (or_introl Hx)) as Hy.
      destruct e; cbn [map_not_found]; try done.
      left. exists m. by split; [apply permits_expire_none|].
    + pose proof (refines_error n [name; key; seconds] m w' e He (or_intror Hx)) as Hy. by destruct e.
Qed.

(** The loop of [handleDel], after [i] keys. *)
Lemma delete_keys_refines n j keys w m :
  rep (n + length keys) w m → (∀ k, k ∈ keys → ∃ v, fits (argString k) v) →
  match delete_keys olric lease clock d j keys w with
  | (Done r, w') => r = Z.of_nat j + zlen keys ∧ rep n w' (delete_all (argString <$> keys) m)
  | (Fail e, w') => e ≠ ErrNotFound ∧
      ((∃ gone left, keys = gone ++ left ∧ rep n w' (delete_all (argString <$> gone) m)) ∨ broken w')
  | (Panic, _) => False
  end.
Proof.
  revert j w m. induction keys as [|key keys IH]; intros j w m Hr Hf.
  { rewrite Nat.add_0_r in Hr. split; [unfold zlen; simpl; lia|done]. }
  cbn [delete_keys]. unfold mbind at 1, M_bind at 1, Service_Delete.
  destruct (service_run (clock j) (ignore_not_found (olricDMap_Delete olric d (argString key))) w)
    as [->|(e&He&_&->)].
  2: { split; [done|]. left. exists [], (key :: keys). split; [done|]. eapply kv_weaken_le, Hr. lia. }
  destruct (Hf key ltac:(by left)) as [v Hv]. cbn [length] in Hr; rewrite Nat.add_succ_r in Hr.
  pose proof (kv_Delete (n + length keys) (argString key) v w m Hr Hv) as Hd.
  unfold ignore_not_found, olricDMap_Delete, mbind, M_bind, wrap_err.
  destruct (inner_Delete _ _ _ _) as [[z|e|] w1]; [| |done].
  - specialize (IH (S j) w1 (delete (argString key) m) Hd ltac:(intros k Hk; apply Hf; by right)).
    unfold mret, M_ret in *.
    destruct (delete_keys _ _ _ _ (S j) keys w1) as [[r|e|] w']; [| |done].
    + destruct IH as [-> Hr']. split; [rewrite zlen_cons; lia|done].
    + destruct IH as [He [(dn&lf&->&Hr')|Hb]]; split; [done| |done|by right].
      left. by exists (key :: dn), lf.
  - destruct Hd as (He&Hk&Hx). destruct e; try done; (split; [done|]);
      (destruct Hx as [Hx|Hx]; [left; exists [], (key :: keys)|by right]);
      (split; [done|]; eapply kv_weaken_le, Hx; lia).
Qed.

Lemma del_refines n name keys w m :
  ToUpper name = "DEL" → rep (n + length keys) w m → sized fits (name :: keys) →
  refines n (name :: keys) m (handleDel olric lease clock d (name :: keys) w).
Proof.
  intros Hn Hr Hf. unfold handleDel. destruct keys as [|key keys].
  { left. exists m. rewrite Nat.add_0_r in Hr. by split; [apply permits_error|]. }
  cbn [tail]. unfold reply_of.
  pose proof (delete_keys_refines n 0 (key :: keys) w m Hr) as Hd.
  specialize (Hd ltac:(intros k Hk; exists EmptyString; apply Hf; unfold touches; rewrite Hn; by apply (list_elem_of_fmap_2 (λ key, (argString key, EmptyString))))).
  destruct (delete_keys _ _ _ _ _ _ _) as [[r|e|] w']; [| |done].
  - destruct Hd as [-> Hr']. left. eexists. split; [|done]. by apply permits_del.
  - destruct Hd as [[msg ->]%service_error [(dn&lf&->&Hr')|Hb]]; [left|right; eauto].
    eexists. split; [|done]. by apply permits_del_some.
Qed.

(** A command stamps at most one write for each of its arguments. *)
Lemma handle_run n args w m :
  rep (n + length args) w m → sized fits args → (reads args → settled w) →
  refines n args m (handle olric lease clock d args w).
Proof.
  intros Hr Hf Hs. unfold handle. destruct args as [|name args].
  { left. exists m. rewrite Nat.add_0_r in Hr. by split; [apply permits_error|]. }
  assert (∀ j, (j ≤ S (length args))%nat → rep (n + j) w m) as Hrep
    by (intros j Hj; eapply kv_weaken_le, Hr; cbn [length]; lia).
  assert (rep n w m) as Hr0 by (eapply kv_weaken_le, Hr; lia).
  assert (∀ r, data_command (name :: args) = false → refines n (name :: args) m (Done r, w)) as Hother
    by (intros r Hd; left; exists m; by split; [apply permits_other|]).
  assert (∀ msg, refines n (name :: args) m (Done (WriteError msg), w)) as Herr
    by (intros msg; left; exists m; by split; [apply permits_error|]).
  destruct (String.eqb_spec (ToUpper name) "HELLO") as [Hn|_].
  { apply Hother. unfold data_command. by rewrite Hn. }
  destruct (String.eqb_spec (ToUpper name) "PING") as [Hn|_].
  { apply Hother. unfold data_command. by rewrite Hn. }
  destruct (String.eqb_spec (ToUpper name) "GET") as [Hn|_].
  { destruct args as [|key [|]]; try apply Herr. by apply get_refines; [..|apply Hs|]. }
  pose proof (Hrep 1%nat ltac:(lia)) as Hr1. rewrite Nat.add_1_r in Hr1.
  destruct (String.eqb_spec (ToUpper name) "SET") as [Hn|_].
  { destruct args as [|key [|value options]]; try apply Herr. by apply set_refines. }
  destruct (String.eqb_spec (ToUpper name) "DEL") as [Hn|_].
  { apply del_refines; [done| |done]. apply Hrep. lia. }
  destruct (String.eqb_spec (ToUpper name) "EXPIRE") as [Hn|_]; [|apply Herr].
  destruct args as [|key [|seconds [|]]]; try apply Herr. by apply expire_refines.
Qed.
End refinement.
