(* ===== verification/Cache.v ===== *)
(** * A pod is a key/value store

    The memory of a node is a cache of what its sidecar knows: the ring, the
    pending set and the database.  [cache_inv] says so, [appended] shows that a
    write keeps it, [load_newest] that a read through the sidecar agrees with
    it, and the steps of the sidecar (drain, flush) and the loss of memory
    leave the contents alone.  So the embedded client of [Embedded] is a
    [KVStore], and a client of the RESP server talks to a string map, as long as
    the sidecar has drained the ring before a read that misses in memory. *)

From S2P Require Import Prelude Json Times Records Oplog OplogRing Backend Sidecar Messages Lease Engine Hook ControlRpc Dmap EndToEnd StringKV Embedded Session.

(** ** Fences *)

Definition entry_triple (e : Entry) : Z * Z * Z := (Generation e, Epoch e, OwnerSeq e).
Definition row_triple (r : EntryRecord) : Z * Z * Z := (rec_Generation r, rec_Epoch r, rec_OwnerSeq r).

Definition entry_lt (a b : Entry) : Prop := triple_lt (entry_triple a) (entry_triple b).

Lemma triple_fence_gt `{WriterOrder} r e :
  triple_lt (row_triple r) (entry_triple e) → fence_gt (entry_fence e) (record_fence r) = true.
Proof.
  rewrite fence_gt_spec. unfold row_triple, entry_triple, triple_lt. cbn. intuition lia.
Qed.

(** A triple below every stamp to come under the lease. *)
Definition spent (l : LeaseTracker) (q : sequencer) (t : Z * Z * Z) : Prop :=
  t = seq_triple q ∨ triple_lt t (seq_triple q) ∨ triple_lt t (l_generation l, l_epoch l, 1).

Lemma spent_lt l q q' t :
  spent l q t → triple_lt (seq_triple q) (seq_triple q') → q_generation q' = l_generation l →
  q_epoch q' = l_epoch l → 0 < q_seq q' → triple_lt t (seq_triple q').
Proof.
  intros [->|[Hlt|Hlt]] Hq Hg He Hs; [done|by etrans|].
  destruct t as [[g e] s]. unfold seq_triple, triple_lt in *. lia.
Qed.

(** ** Puts into the pending set *)

(** Whether a key is among the entries put does not depend on the set. *)
Lemma put_all_cases es ref :
  (∃ e, ∀ p, p_entries (put_all es p) !! ref = Some e) ∨
  (∀ p, p_entries (put_all es p) !! ref = p_entries p !! ref).
Proof.
  induction es as [|x es IH] using rev_ind; [by right|].
  assert (∀ p, p_entries (put_all (es ++ [x]) p) = <[entryRef x := x]> (p_entries (put_all es p))) as Hs
    by (intros p; unfold put_all; by rewrite foldl_app).
  destruct (decide (entryRef x = ref)) as [<-|Hne].
  - left. exists x. intros p. rewrite Hs. apply lookup_insert_eq.
  - destruct IH as [[e He]|He]; [left; exists e|right]; intros p; rewrite Hs, lookup_insert_ne; auto.
Qed.

Lemma put_all_app es es' p : put_all (es ++ es') p = put_all es' (put_all es p).
Proof. unfold put_all. by rewrite foldl_app. Qed.

Lemma put_all_snoc es e p ref :
  p_entries (put_all (es ++ [e]) p) !! ref =
  if decide (entryRef e = ref) then Some e else p_entries (put_all es p) !! ref.
Proof.
  rewrite put_all_app. cbn [put_all foldl put p_entries].
  case_decide as Hr; [rewrite Hr; apply lookup_insert_eq|by apply lookup_insert_ne].
Qed.

Section cache.
Context `{TimeParse} `{WriterOrder} {U : UpsertEngine} {HU : SimultaneousUpdate U}.
Context (order : list Entry → list Entry) (Horder : ∀ l, order l ≡ₚ l).
Context `{UnaryTransport} `{VersionSort} `{Hasher}.

(** A node with writer id [w] and a ring of capacity [cap], serving the DMap
    [d] with the default settings; no two of the keys in use have the same
    hash. *)
Context (w : string) (cap : Z) (c : dmap_config) (d : string).
Context (Hcap : cap < 2 ^ 63) (Hd : d ≠ "").
Context (Hquorum : dc_ReadQuorum c ≤ 1) (Hidle : dc_maxIdleDuration c = 0) (Httl : dc_ttlDuration c = 0).
Context (used : string → Prop).
Context (Hinj : ∀ k k', used k → used k' → HKey d k = HKey d k' → k = k').

(** ** What the sidecar knows of a key *)

Definition key_ref (k : string) : EntryRef := json_ref (mkRef d k (HKey d k)).
Definition row_key (k : string) : string * Z := (json_string d, HKey d k).

(** The newest record of a key, the entries [es] of the ring included. *)
Definition newest (s : server) (es : list Entry) (k : string) : option EntryRecord :=
  match p_entries (put_all es (srv_pending s)) !! key_ref k with
  | Some e => Some (recordFromEntry e)
  | None => srv_db s !! row_key k
  end.

Definition fits (k v : string) : Prop :=
  used k ∧ slen k < 256 ∧ 6 * (slen d + slen k + slen w) + 2 * (29 + slen k + slen v) + 300 ≤ maxPayload.

Definition sound (k : string) (x : StorageEntry) : Prop :=
  se_key x = k ∧ se_typed x ∧ fits k (string_of_bytes (se_value x)).

(** An entry as a write of the key [k] logs it: a tombstone, or the entry [x]. *)
Definition writes (k : string) (ox : option StorageEntry) (e : Entry) : Prop :=
  ∃ op kind t now w', e = wire_entry op kind t now w' ∧ entry_typed e ∧
    op_DMap op = d ∧ op_Key op = k ∧ op_HKey op = HKey d k ∧
    match ox with
    | None => kind = OpDelete
    | Some x => json_string kind ≠ OpDelete ∧ op_Entry op = Some x ∧ sound k x
    end.

Definition describes (k : string) (r : option EntryRecord) (ox : option StorageEntry) : Prop :=
  match r with
  | None => ox = None
  | Some r => ∃ e, writes k ox e ∧ r = recordFromEntry e
  end.

Lemma key_ref_inj k k' : used k → used k' → key_ref k = key_ref k' → k = k'.
Proof. intros ?? [= _ Hk]. by apply Hinj. Qed.

Lemma writes_ref k ox e : writes k ox e → entryRef e = key_ref k.
Proof.
  intros (op&kind&t&now&w'&->&_&Hdm&Hk&Hh&_). rewrite wire_entry_ref. unfold key_ref. by rewrite Hdm, Hk, Hh.
Qed.

Lemma ref_row_key e k : entryRef e = key_ref k → pk (recordFromEntry e) = row_key k.
Proof. intros [= Hdm _ Hh]. unfold pk, row_key. cbn. by rewrite Hdm, Hh. Qed.

(** ** The invariant *)

(** [es] are the entries in the ring, [full] the entries of the DMap. *)
Record cache_inv (p : pod) (es : list Entry) (full : string → option StorageEntry) : Prop := {
  ci_hook : serving_hook w cap (o_hook (pod_owner p));
  ci_lease : lease_typed (h_lease (o_hook (pod_owner p)));
  ci_capacity : srv_capacity (pod_sidecar p) = cap;
  ci_ring : srv_ring (pod_sidecar p) = h_ring (o_hook (pod_owner p));
  ci_server : server_wf (pod_sidecar p) es;
  ci_batch : 0 < BatchSize (srv_cfg (pod_sidecar p));
  (** every entry is one of a key of the DMap *)
  ci_es : ∀ e, e ∈ es → ∃ k, used k ∧ entryRef e = key_ref k;
  ci_pending : ∀ ref e, p_entries (srv_pending (pod_sidecar p)) !! ref = Some e →
    ∃ k, used k ∧ ref = key_ref k;
  (** the sidecar knows the contents, and memory holds part of them *)
  ci_full : ∀ k, used k → describes k (newest (pod_sidecar p) es k) (full k);
  ci_memory : ∀ k x, used k → o_frag (pod_owner p) !! HKey d k = Some x → full k = Some x;
  (** fences increase from the rows over the pending set to the ring *)
  ci_sorted : StronglySorted entry_lt es;
  ci_pending_lt : ∀ ref e e', p_entries (srv_pending (pod_sidecar p)) !! ref = Some e → e' ∈ es →
    entry_lt e e';
  ci_row_lt : ∀ k row e', used k → srv_db (pod_sidecar p) !! row_key k = Some row → e' ∈ es →
    triple_lt (row_triple row) (entry_triple e');
  ci_row_pending : ∀ k row e, used k → srv_db (pod_sidecar p) !! row_key k = Some row →
    p_entries (srv_pending (pod_sidecar p)) !! key_ref k = Some e →
    row = recordFromEntry e ∨ triple_lt (row_triple row) (entry_triple e);
  (** and none is one the node could stamp again *)
  ci_spent_es : ∀ e, e ∈ es → spent (h_lease (o_hook (pod_owner p))) (h_seq (o_hook (pod_owner p))) (entry_triple e);
  ci_spent_pending : ∀ ref e, p_entries (srv_pending (pod_sidecar p)) !! ref = Some e →
    spent (h_lease (o_hook (pod_owner p))) (h_seq (o_hook (pod_owner p))) (entry_triple e);
  ci_spent_rows : ∀ k row, used k → srv_db (pod_sidecar p) !! row_key k = Some row →
    spent (h_lease (o_hook (pod_owner p))) (h_seq (o_hook (pod_owner p))) (row_triple row) }.

(** ** A logged write *)

Definition set_key (k : string) (ox : option StorageEntry) (full : string → option StorageEntry) :
    string → option StorageEntry := λ k', if decide (k' = k) then ox else full k'.

(** What [writes] asks of an operation and its kind. *)
Definition logs (k : string) (ox : option StorageEntry) (kind : string) (op : DurableOperation) : Prop :=
  used k ∧ op_ok op kind w ∧ op_DMap op = d ∧ op_Key op = k ∧ op_HKey op = HKey d k ∧
  match ox with
  | None => kind = OpDelete
  | Some x => json_string kind ≠ OpDelete ∧ op_Entry op = Some x ∧ sound k x
  end.

(** The ring and the sequencer after [AfterX] has succeeded. *)
Lemma logged_write s es k ox kind now op h h' :
  serving_hook w cap h → srv_capacity s = cap → srv_ring s = h_ring h → server_wf s es →
  q_seq (h_seq h) + 1 < maxInt64 → logs k ox kind op → after kind now op false [] h = (Done tt, h') →
  ∃ e, writes k ox e ∧ entry_triple e = seq_triple (h_seq h') ∧
    triple_lt (seq_triple (h_seq h)) (seq_triple (h_seq h')) ∧
    q_generation (h_seq h') = op_FenceGeneration op ∧ q_epoch (h_seq h') = op_FenceEpoch op ∧
    0 < q_seq (h_seq h') ≤ q_seq (h_seq h) + 1 ∧ h_lease h' = h_lease h ∧ serving_hook w cap h' ∧
    server_wf (set_ring (h_ring h') s) (es ++ [e]).
Proof.
  intros ([q Hq]&Hc&Hw&Hfat) Hsc Hsr [(hd0&tl0&q0&Hr0&Hes) Hpw Hdw] Hseq (_&Hop&Hdm&Hk&Hh&Hox) Haft.
  pose proof Hq as [(hd1&tl1&Hr1) Hcap64 Hsq Hwn]. rewrite Hsc, Hsr, <- Hc in Hr0.
  rewrite <- (ring_wf_unique _ _ _ _ _ _ _ _ Hr1 Hr0) in Hes.
  assert (publish now op kind [] h = (Done tt, h')) as Hpub.
  { unfold after in Haft. by destruct (publish _ _ _ _ _) as [[[]| |]?]. }
  rewrite <- Hw in Hop. destruct (publish_alone _ _ _ _ _ _ Hq Hop Hpub)
    as (payload&HH&TT&Hr&Hdec&Hlt&Hg'&He'&Hb&Hh').
  exists (wire_entry op kind (seq_triple (h_seq h')) now (h_writerID h)).
  assert (h_lease h' = h_lease h ∧ h_capacity h' = h_capacity h ∧ h_writerID h' = h_writerID h ∧
          h_onFatal h' = h_onFatal h) as (Hl'&Hc'&Hw'&Hf') by (by rewrite Hh').
  split_and!; try done; try lia.
  - exists op, kind, (seq_triple (h_seq h')), now, (h_writerID h). split_and!; try done.
    by apply (Decode_accepts payload).
  - split_and!; [|congruence..]. exists (q ++ [payload]).
    split; [exists HH, TT; by rewrite Hc'|by rewrite Hc'|split; lia|by rewrite Hw'].
  - split; [|done..]. exists HH, TT, (q ++ [payload]). cbn [srv_capacity srv_ring set_ring].
    rewrite Hsc, <- Hc. split; [done|]. apply Forall2_app; [done|by repeat constructor].
Qed.

Lemma appended p es full k ox kind now op h' f' :
  cache_inv p es full → q_seq (h_seq (o_hook (pod_owner p))) + 1 < maxInt64 → logs k ox kind op →
  op_FenceGeneration op = l_generation (h_lease (o_hook (pod_owner p))) →
  op_FenceEpoch op = l_epoch (h_lease (o_hook (pod_owner p))) →
  after kind now op false [] (o_hook (pod_owner p)) = (Done tt, h') →
  (∀ k' x, used k' → f' !! HKey d k' = Some x → set_key k ox full k' = Some x) →
  q_seq (h_seq h') ≤ q_seq (h_seq (o_hook (pod_owner p))) + 1 ∧
  ∃ e, cache_inv (mkPod (mkOwner h' f') (set_ring (h_ring h') (pod_sidecar p))) (es ++ [e])
         (set_key k ox full).
Proof.
  intros Hinv Hseq Hlogs Hg He Haft Hf.
  destruct p as [[h f] s], Hinv. cbn [pod_owner pod_sidecar o_hook o_frag] in *.
  destruct (logged_write s es k ox kind now op h h') as (e&Hwr&Het&Hlt&Hg'&He'&[Hpos Hle]&Hl'&Hsv&Hwf);
    [done..|]. split; [done|]. exists e. destruct Hlogs as [Hused _].
  assert (∀ t, spent (h_lease h) (h_seq h) t → triple_lt t (entry_triple e)) as Hnew.
  { intros t Ht. rewrite Het. eapply spent_lt; [done|done|congruence|congruence|done]. }
  assert (∀ t, spent (h_lease h) (h_seq h) t → spent (h_lease h') (h_seq h') t) as Hold.
  { intros t Ht. right; left. rewrite <- Het. by apply Hnew. }
  split; cbn [pod_owner pod_sidecar o_hook o_frag srv_capacity srv_ring srv_pending srv_db srv_cfg set_ring];
    try done.
  - by rewrite Hl'.
  - intros e' [?| ->%list_elem_of_singleton]%elem_of_app; [by apply ci_es0|]. exists k. split; [done|by eapply writes_ref].
  - intros k' Hused'. unfold newest, set_key. cbn [srv_pending set_ring srv_db].
    rewrite put_all_snoc, (writes_ref _ _ _ Hwr).
    destruct (decide (key_ref k = key_ref k')) as [->%key_ref_inj|Hne]; [|done..|].
    + rewrite decide_True by done. by exists e.
    + rewrite decide_False by congruence. by apply ci_full0.
  - apply StronglySorted_app_2; [|done|by repeat constructor].
    intros e1 e2 He1 ->%list_elem_of_singleton. by apply Hnew, ci_spent_es0.
  - intros ref e1 e2 He1 [?| ->%list_elem_of_singleton]%elem_of_app; [by eapply ci_pending_lt0|].
    eapply Hnew, ci_spent_pending0, He1.
  - intros k' row e2 Hk' Hrow [?| ->%list_elem_of_singleton]%elem_of_app; [by eapply ci_row_lt0|].
    eapply Hnew, ci_spent_rows0, Hrow. done.
  - intros e' [?| ->%list_elem_of_singleton]%elem_of_app; [by apply Hold, ci_spent_es0|by left].
  - eauto.
  - eauto.
Qed.

(** ** The sidecar's own steps *)

Lemma serving_ring h f hd tl q :
  serving_hook w cap h → ring_wf cap f hd tl q → serving_hook w cap (set_hook_ring f h).
Proof.
  intros ([q0 [_ Hc64 Hsq Hwn]]&Hc&Hw&Hf) Hr. split_and!; [|done..]. exists q.
  split; [|done..]. exists hd, tl. cbn [h_capacity h_ring set_hook_ring]. by rewrite Hc.
Qed.

Lemma drained p es full :
  cache_inv p es full →
  ∃ n s', drainRing (pod_sidecar p) = (Done (Z.of_nat n), s') ∧ (n ≤ length es)%nat ∧
    cache_inv (pod_oplog drainRing p).2 (drop n es) full.
Proof.
  intros Hinv. destruct p as [[h f] s], Hinv. cbn [pod_owner pod_sidecar o_hook o_frag] in *.
  destruct (drainRing_run s es ci_server0 ci_batch0) as (n&s'&Hdr&_&Hwf&Hn&Hp&(Hc&Hdb&_&Hcfg)&_).
  exists n, s'. split_and!; [done..|]. unfold pod_oplog. cbn [pod_owner pod_sidecar]. rewrite Hdr.
  assert (∀ e, e ∈ drop n es → e ∈ es) as Hdrop.
  { intros e He. rewrite <- (take_drop n es). apply elem_of_app. by right. }
  assert (∀ e, e ∈ take n es → e ∈ es) as Htake.
  { intros e He. rewrite <- (take_drop n es). apply elem_of_app. by left. }
  assert (StronglySorted entry_lt (take n es ++ drop n es)) as Hs by (by rewrite take_drop).
  rewrite StronglySorted_app in Hs. destruct Hs as (Hlt&_&Hs).
  assert (∀ ref e, p_entries (srv_pending s') !! ref = Some e →
    e ∈ take n es ∧ entryRef e = ref ∨ p_entries (srv_pending s) !! ref = Some e) as Horig.
  { intros ref e He. pose proof (pwf_keys _ (swf_pending _ _ Hwf) _ _ He) as Hr. rewrite Hp in He.
    apply put_all_origin in He as [?|?]; auto. }
  destruct (swf_ring _ _ Hwf) as (hd&tl&q&Hr&_).
  split; cbn [snd pod_owner pod_sidecar o_hook o_frag set_o_hook]; try done.
  - eapply serving_ring; [done|]. rewrite <- ci_capacity0, <- Hc. exact Hr.
  - congruence.
  - by rewrite Hcfg.
  - auto.
  - intros ref e [[He <-]|?]%Horig; eauto.
  - intros k Hk. unfold newest. rewrite Hp, Hdb, <- put_all_app, take_drop. by apply ci_full0.
  - intros ref e e' [[He _]|He]%Horig He'; [by apply Hlt|eauto].
  - rewrite Hdb. eauto.
  - rewrite Hdb. intros k row e Hk Hrow [[He _]|He]%Horig; [right|]; eauto.
  - auto.
  - intros ref e [[He _]|He]%Horig; [by apply ci_spent_es0, Htake|eauto].
  - rewrite Hdb. eauto.
Qed.

(** Rows after an upsert of pending entries: only a key's own entry can
    replace its row, and does when it is among them. *)
Lemma upserted p es full l k :
  cache_inv p es full → used k →
  (∀ e, e ∈ l → ∃ ref, p_entries (srv_pending (pod_sidecar p)) !! ref = Some e) →
  let db := srv_db (pod_sidecar p) in
  let db' := foldl upsert_row db (recordFromEntry <$> l) in
  match p_entries (srv_pending (pod_sidecar p)) !! key_ref k with
  | None => db' !! row_key k = db !! row_key k
  | Some e => (db' !! row_key k = db !! row_key k ∨ db' !! row_key k = Some (recordFromEntry e)) ∧
              (e ∈ l → db' !! row_key k = Some (recordFromEntry e))
  end.
Proof.
  intros Hinv Hk Hl db db'. pose proof (swf_db _ _ (ci_server _ _ _ Hinv)) as Hdb. fold db in Hdb.
  pose proof (pwf_keys _ (swf_pending _ _ (ci_server _ _ _ Hinv))) as Hkeys.
  assert (∀ e, e ∈ l → pk (recordFromEntry e) = row_key k →
    p_entries (srv_pending (pod_sidecar p)) !! key_ref k = Some e) as Hown.
  { intros e [ref He]%Hl Hpk. destruct (ci_pending _ _ _ Hinv _ _ He) as (k'&Hk'&->).
    assert (entryRef e = key_ref k') as Hr by eauto.
    rewrite (ref_row_key _ _ Hr) in Hpk. injection Hpk as Hh. by apply Hinj in Hh as <-. }
  assert (db' !! row_key k = db !! row_key k ∨
    ∃ e, e ∈ l ∧ pk (recordFromEntry e) = row_key k ∧ db' !! row_key k = Some (recordFromEntry e)) as Hcases.
  { destruct (db' !! row_key k) as [r|] eqn:Hr.
    - apply upsert_rows_origin in Hr as [Hr|[Hr Hpk]]; [by left|right|done].
      apply list_elem_of_fmap in Hr as (e&->&He). eauto.
    - left. destruct (db !! row_key k) as [r|] eqn:Hr0; [|done].
      destruct (upsert_rows_ge db (recordFromEntry <$> l) (row_key k) (record_fence r) Hdb) as (r'&Hr'&_).
      { exists r. split; [done|apply fence_ge_refl]. }
      fold db' in Hr'. congruence. }
  destruct (p_entries _ !! key_ref k) as [e|] eqn:He.
  - assert (pk (recordFromEntry e) = row_key k) as Hpk by (apply ref_row_key; eauto).
    split.
    + destruct Hcases as [?|(e'&He'&Hpk'&?)]; [by left|right]. specialize (Hown _ He' Hpk'). congruence.
    + intros Hin. destruct Hcases as [Hsame|(e'&He'&Hpk'&?)].
      * destruct (upsert_rows_ge_self db (recordFromEntry <$> l) (recordFromEntry e) Hdb) as (r&Hr&Hge);
          [by apply list_elem_of_fmap_2|]. rewrite Hpk in Hr. fold db' in Hr.
        rewrite Hr in Hsame |- *. symmetry in Hsame.
        destruct (ci_row_pending _ _ _ Hinv k r e Hk Hsame He) as [->|Hlt]; [done|].
        apply triple_fence_gt in Hlt. unfold fence_ge in Hge.
        change (record_fence (recordFromEntry e)) with (entry_fence e) in Hge. congruence.
      * specialize (Hown _ He' Hpk'). congruence.
  - destruct Hcases as [?|(e'&He'&Hpk'&?)]; [done|]. specialize (Hown _ He' Hpk'). congruence.
Qed.

(** A flush of pending entries [l], which keeps the pending set (its database
    call failed) or empties it (the call wrote every entry). *)
Lemma flush_keeps p es full l pend :
  cache_inv p es full →
  let s := pod_sidecar p in
  (∀ e, e ∈ l → ∃ ref, p_entries (srv_pending s) !! ref = Some e) →
  pend = srv_pending s ∨
    pend = newPending ∧ (∀ ref e, p_entries (srv_pending s) !! ref = Some e → e ∈ l) →
  cache_inv (mkPod (pod_owner p)
    (set_pending pend (set_db (foldl upsert_row (srv_db s) (recordFromEntry <$> l)) s))) es full.
Proof.
  intros Hinv s Hl Hpend. pose proof (λ k Hk, upserted p es full l k Hinv Hk Hl) as Hup. cbv zeta in Hup.
  set (db' := foldl upsert_row _ _) in *. fold s in Hup.
  assert (∀ k row, used k → db' !! row_key k = Some row →
    srv_db s !! row_key k = Some row ∨
    ∃ e, p_entries (srv_pending s) !! key_ref k = Some e ∧ row = recordFromEntry e) as Hrows.
  { intros k row Hk Hrow. specialize (Hup k Hk). destruct (p_entries _ !! key_ref k) as [e|].
    - destruct Hup as [[Hs|Hs] _]; rewrite Hs in Hrow; [by left|right]. simplify_eq. eauto.
    - rewrite Hup in Hrow. by left. }
  assert (∀ ref e, p_entries pend !! ref = Some e → p_entries (srv_pending s) !! ref = Some e) as Hsub.
  { intros ref e He. destruct Hpend as [->|[-> _]]; [done|]. cbn in He. by rewrite lookup_empty in He. }
  destruct p as [[h f] s0], Hinv. cbn [pod_owner pod_sidecar o_hook o_frag] in *. subst s.
  destruct ci_server0 as [Hring Hpw Hdw].
  split; cbn [pod_owner pod_sidecar o_hook o_frag srv_capacity srv_ring srv_pending srv_db srv_cfg set_db set_pending];
    try done; eauto.
  - split; [done| |by apply upsert_rows_wf]. destruct Hpend as [->|[-> _]]; [done|apply newPending_wf].
  - intros k Hused. replace (newest _ es k) with (newest s0 es k); [by apply ci_full0|].
    unfold newest. cbn [srv_pending srv_db set_db set_pending].
    destruct (put_all_cases es (key_ref k)) as [[e He]|He]; [by rewrite !He|]. rewrite !He.
    specialize (Hup k Hused). destruct (p_entries (srv_pending s0) !! key_ref k) as [e|] eqn:Hk.
    + destruct Hpend as [->|[-> Hall]]; [by rewrite Hk|]. cbn [newPending p_entries].
      rewrite lookup_empty. symmetry. apply Hup. eauto.
    + assert (p_entries pend !! key_ref k = None) as ->; [|by rewrite Hup].
      destruct Hpend as [->|[-> _]]; [done|apply lookup_empty].
  - intros k row e' Hk [?|(e&He&->)]%Hrows He'; [by eapply ci_row_lt0| |done].
    exact (ci_pending_lt0 _ _ _ He He').
  - intros k row e Hk Hrow He%Hsub. apply Hrows in Hrow as [?|(e1&He1&->)]; [by eapply ci_row_pending0| |done].
    left. congruence.
  - intros k row Hk [?|(e&He&->)]%Hrows; [by eapply ci_spent_rows0| |done]. exact (ci_spent_pending0 _ _ He).
Qed.

Lemma flush_inv p es full ans :
  cache_inv p es full → cache_inv (mkPod (pod_owner p) (flushOnce order ans (pod_sidecar p)).2) es full.
Proof.
  intros Hinv. rewrite (flushOnce_run order Horder). case_decide as He; [by destruct p|].
  set (s := pod_sidecar p) in *. rewrite flush_batch_run.
  2: { intros Hnil%(snapshot_nil order Horder). done. }
  destruct ans as [|n]; cbn [snd].
  - rewrite (flush_empties order Horder) by apply (ci_server _ _ _ Hinv).
    apply flush_keeps; [done| |right; split; [done|]]; intros *.
    + apply (snapshot_elem order Horder).
    + intros ?. apply (snapshot_elem order Horder). eauto.
  - rewrite <- fmap_take. set (l := take n _).
    pose proof (flush_keeps p es full l (srv_pending s) Hinv) as Hk. cbv zeta in Hk. fold s in Hk.
    replace (set_db _ s) with (set_pending (srv_pending s)
      (set_db (foldl upsert_row (srv_db s) (recordFromEntry <$> l)) s)) by done.
    apply Hk; [|by left]. intros e Hin. apply (snapshot_elem order Horder).
    unfold l in Hin. rewrite <- (take_drop n). apply elem_of_app. by left.
Qed.

Lemma flushed p es full ans :
  cache_inv p es full → cache_inv (pod_oplog (flushOnce order ans) p).2 es full.
Proof.
  intros Hinv%(flush_inv _ _ _ ans). pose proof (ci_ring _ _ _ Hinv) as Hr.
  unfold pod_oplog. destruct (flushOnce _ _ _) as [r s']. cbn [snd pod_owner pod_sidecar] in *.
  rewrite Hr. by destruct p as [[[] f] s].
Qed.

(** ** Reads through the sidecar *)

(** What the newest record of a key means for a load. *)
Lemma describes_load k e ox now template spare :
  writes k ox e → op_Entry template ≠ None →
  let rec := recordFromEntry e in
  json_record rec = rec ∧ record_typed rec ∧
  if rec_Tombstone rec || recordExpiredAt rec now
  then ∀ x, ox = Some x → ¬ alive (se_ttl x) now
  else ∃ x, ox = Some x ∧ alive (se_ttl x) now ∧ LoadOnMiss (Some (load_found rec)) template spare = Done x.
Proof.
  intros (op&kind&t&tm&w'&->&Ht&_&_&_&Hox) Htmpl rec. unfold rec. split_and!.
  - apply wire_record_json.
  - by apply entry_record_typed.
  - destruct ox as [x|].
    + destruct Hox as (Hk&Hx&<-&Hty&_&Hlen&_).
      assert (alive (se_ttl x) now ∨ ¬ alive (se_ttl x) now) as [Ha|Ha] by (unfold alive; lia).
      * rewrite (wire_record_alive op x) by done. exists x. split_and!; [done..|]. by apply (load_restores op).
      * assert (recordExpiredAt (recordFromEntry (wire_entry op kind t tm w')) now = true) as ->.
        { destruct t as [[g e] q]. unfold recordExpiredAt, wire_entry, recordFromEntry.
          cbn [rec_TTL json_entry set_version publish_entry TTL]. rewrite Hx. unfold alive in Ha.
          destruct (Z.leb_spec (se_ttl x) 0); [tauto|]. apply Z.leb_le. lia. }
        rewrite orb_true_r. by intros x' [= <-].
    + subst kind. destruct t as [[g e] q]. unfold wire_entry, recordFromEntry.
      cbn [rec_Tombstone json_entry set_version publish_entry Op]. rewrite bool_decide_eq_true_2; [done|].
      vm_compute. reflexivity.
Qed.

(** A load of a key whose entries have all left the ring. *)
Lemma load_newest s k ox ans now fate template spare :
  describes k (newest s [] k) ox → op_Entry template ≠ None →
  let load := controlAdapter_LoadFromMySQL order ans now fate d k (HKey d k) s in
  load.2 = s ∧
  match answer_of load.1 with
  | load_error => ans ≠ db_ok ∨ fate ≠ delivered
  | load_absent => ∀ x, ox = Some x → ¬ alive (se_ttl x) now
  | load_found rec => ∃ x, ox = Some x ∧ alive (se_ttl x) now ∧
      LoadOnMiss (Some (load_found rec)) template spare = Done x
  end.
Proof.
  intros Hde Htmpl.
  assert ((LoadFromMySQL ans now (Some (key_ref k)) s).2 = s ∧
    match (LoadFromMySQL ans now (Some (key_ref k)) s).1 with
    | Done None => ∀ x, ox = Some x → ¬ alive (se_ttl x) now
    | Done (Some rec) => json_record rec = rec ∧ record_typed rec ∧ ∃ x, ox = Some x ∧
        alive (se_ttl x) now ∧ LoadOnMiss (Some (load_found rec)) template spare = Done x
    | Fail _ => ans ≠ db_ok
    | Panic => False
    end) as [Hs Hl].
  { unfold newest in Hde. cbn [put_all foldl] in Hde.
    unfold LoadFromMySQL, mbind, M_bind, gets, get_pending.
    destruct (p_entries (srv_pending s) !! key_ref k) as [e|].
    - destruct Hde as (e'&Hwr&->). pose proof (describes_load k e' ox now template spare Hwr Htmpl) as (?&?&Hx).
      by destruct (_ || _).
    - unfold Backend_LoadFromMySQL. cbn [key_ref json_ref ref_DMap ref_HKey]. fold (row_key k).
      destruct ans; [|by destruct s]. destruct (srv_db s !! row_key k) as [r|].
      + destruct Hde as (e&Hwr&->). pose proof (describes_load k e ox now template spare Hwr Htmpl) as (?&?&Hx).
        destruct (rec_Tombstone _) eqn:Hto; [by destruct s|].
        destruct (recordExpiredAt _ now) eqn:Hex; [by destruct s|]. rewrite Hto, Hex. by destruct s.
      + simpl in Hde. subst ox. by destruct s. }
  cbv zeta. rewrite load_through; [|apply Sum64_range|].
  - fold (key_ref k). unfold through, wrap_err, mbind, M_bind.
    destruct (LoadFromMySQL ans now (Some (key_ref k)) s) as [[[rec|]|e|] s'];
      cbn [fst snd] in Hs, Hl; subst s'; destruct fate; unfold mret, M_ret;
      cbn [fst snd answer_of fmap option_fmap option_map]; try done; auto.
    destruct Hl as (->&_&?). done.
  - intros rec s' Hl'. fold (key_ref k) in Hl'. rewrite Hl' in Hl. by destruct Hl as (_&?&_).
Qed.

(** ** The pod as a store *)

Definition shown (x : StorageEntry) : string * Z := (string_of_bytes (se_value x), se_ttl x).

Definition holds (n : nat) (p : pod) (m : contents) : Prop := ∃ es full,
  cache_inv p es full ∧ q_seq (h_seq (o_hook (pod_owner p))) + Z.of_nat n < maxInt64 ∧
  ∀ k, used k → m !! k = shown <$> full k.

(** The sidecar has drained the ring. *)
Definition settled (p : pod) : Prop := ∃ hd tl, ring_wf cap (srv_ring (pod_sidecar p)) hd tl [].

Definition broken (p : pod) : Prop := h_fatal (o_hook (pod_owner p)) ≠ None.

(** A command that runs alone on the node, with a clock that does not go back. *)
Record lone (k : call) : Prop := {
  lone_lock : s_lock (k_schedule k) = id;
  lone_verify : s_verify (k_schedule k) = id;
  lone_after : s_after (k_schedule k) = id;
  lone_waits : k_waits k = [];
  lone_timestamp : minInt64 ≤ k_timestamp k ≤ maxInt64;
  lone_read : 0 ≤ k_read k ≤ maxInt64;
  lone_load : k_read k ≤ k_load k }.

Definition call_instants (k : call) : instants :=
  mkInstants (t_prepare (k_schedule k)) (k_read k) (k_load k).

Lemma settled_empty p es full : cache_inv p es full → settled p → es = [].
Proof.
  intros Hinv (hd&tl&Hr). destruct (swf_ring _ _ (ci_server _ _ _ Hinv)) as (hd'&tl'&q&Hq&Hes).
  rewrite (ci_capacity _ _ _ Hinv) in Hq. rewrite <- (ring_wf_unique _ _ _ _ _ _ _ _ Hr Hq) in Hes.
  by apply Forall2_nil_inv_l in Hes.
Qed.

Lemma full_sound p es full k x : cache_inv p es full → used k → full k = Some x → sound k x.
Proof.
  intros Hinv Hk Hx. pose proof (ci_full _ _ _ Hinv k Hk) as Hde. rewrite Hx in Hde.
  destruct (newest _ _ _) as [r|]; [|done]. destruct Hde as (e0&(op&kind&t&now&w'&_&_&_&_&_&_&_&?)&_). done.
Qed.

(** Memory may hold any part of the contents. *)
Lemma memory p es full f :
  cache_inv p es full → (∀ k x, used k → f !! HKey d k = Some x → full k = Some x) →
  cache_inv (mkPod (set_o_frag f (pod_owner p)) (pod_sidecar p)) es full.
Proof. intros [] Hf. by split. Qed.

Lemma lone_harmless k : lone k → harmless_schedule (k_schedule k).
Proof.
  intros []. unfold harmless_schedule. rewrite lone_lock0, lone_verify0, lone_after0.
  repeat split; by eauto.
Qed.

Lemma same_pod p es full :
  cache_inv p es full → mkPod (pod_owner p) (set_ring (h_ring (o_hook (pod_owner p))) (pod_sidecar p)) = p.
Proof. intros Hinv. pose proof (ci_ring _ _ _ Hinv) as Hr. destruct p as [o []]. cbn in *. by subst. Qed.

Lemma SE_Encode_zlen x : zlen (SE_Encode x) = 29 + slen (se_key x) + zlen (se_value x).
Proof.
  unfold SE_Encode. rewrite zlen_cons, !zlen_app, zlen_bytes_of_string, !zlen_be_bytes. lia.
Qed.

(** The operation of a write whose entry has its size. *)
Lemma entry_op_ok k x kind :
  known_op kind = true → sound k x → op_ok (mkOp d k (HKey d k) (Some x) 0 0) kind w.
Proof.
  intros Hk (<-&Ht&_&_&Hs). split; [done|done|apply Sum64_range|done|by intros ? [= <-]|].
  unfold op_raw. cbn [op_DMap op_Key op_Entry]. rewrite SE_Encode_zlen.
  rewrite <- (zlen_bytes_of_string (string_of_bytes (se_value x))), bytes_string in Hs. lia.
Qed.

Lemma tombstone_op_ok k v : fits k v → op_ok (mkOp d k (HKey d k) None 0 0) OpDelete w.
Proof.
  intros (_&_&Hs). split; [done|done|apply Sum64_range|done|done|]. cbn [op_DMap op_Key op_raw op_Entry].
  change (zlen []) with 0. rewrite <- (zlen_bytes_of_string k), <- (zlen_bytes_of_string v) in Hs.
  rewrite <- (zlen_bytes_of_string k). pose proof (zlen_nonneg (bytes_of_string k)).
  pose proof (zlen_nonneg (bytes_of_string v)). lia.
Qed.

Lemma options_expiry options now :
  prepareTTL now (mkEnv (foldl apply_option no_options options) 0 0 "" "" [] 0) = expiry options now.
Proof.
  destruct options as [|o options _] using rev_ind; [done|].
  rewrite foldl_app. unfold expiry. rewrite last_snoc. destruct o as [px]. cbn [foldl apply_option].
  assert (HasEX (foldl apply_option no_options options) = false) as Hex.
  { induction options as [|[] options IH] using rev_ind; [done|]. by rewrite foldl_app. }
  unfold prepareTTL. cbn [e_putConfig HasEX HasPX Dmap.PX]. by rewrite Hex.
Qed.

Lemma options_set options :
  let pc := foldl apply_option no_options options in
  OnlyUpdateTTL pc = false ∧ HasNX pc = false ∧ HasXX pc = false.
Proof. cbv zeta. induction options as [|[] options IH] using rev_ind; [done|]. by rewrite foldl_app. Qed.

Lemma quot_i64 a : minInt64 ≤ Z.quot (i64 a) 1000000 ≤ maxInt64.
Proof.
  pose proof (i64_range a). unfold minInt64, maxInt64 in *. split.
  - apply Z.quot_le_lower_bound; lia.
  - apply Z.quot_le_upper_bound; lia.
Qed.

(** What an operation leaves behind: a logged write, or nothing. *)
Lemma holds_write n p es full key ox kind now op o' m' :
  cache_inv p es full → q_seq (h_seq (o_hook (pod_owner p))) + Z.of_nat (S n) < maxInt64 →
  logs key ox kind op →
  op_FenceGeneration op = l_generation (h_lease (o_hook (pod_owner p))) →
  op_FenceEpoch op = l_epoch (h_lease (o_hook (pod_owner p))) →
  after kind now op false [] (o_hook (pod_owner p)) = (Done tt, o_hook o') →
  (∀ k' x, used k' → o_frag o' !! HKey d k' = Some x → set_key key ox full k' = Some x) →
  (∀ k', used k' → m' !! k' = shown <$> set_key key ox full k') →
  holds n (mkPod o' (set_ring (h_ring (o_hook o')) (pod_sidecar p))) m'.
Proof.
  intros Hinv Hseq Hlogs Hg He Haft Hf Hm'.
  destruct (appended p es full key ox kind now op (o_hook o') (o_frag o') Hinv ltac:(lia) Hlogs Hg He Haft Hf)
    as [Hle [e Hinv']].
  destruct o' as [h' f']. exists (es ++ [e]), (set_key key ox full). split_and!; [done|cbn in *; lia|done].
Qed.

Lemma holds_same n p m :
  holds (S n) p m →
  holds n (mkPod (pod_owner p) (set_ring (h_ring (o_hook (pod_owner p))) (pod_sidecar p))) m.
Proof.
  intros (es&full&Hinv&Hseq&Hm). rewrite (same_pod _ _ _ Hinv). exists es, full. split_and!; [done|lia|done].
Qed.

Lemma owner_eta o : set_o_hook (o_hook o) o = o.
Proof. by destruct o. Qed.

Lemma memory_set p es full key x k' y :
  cache_inv p es full → used key → used k' → <[HKey d key := x]> (o_frag (pod_owner p)) !! HKey d k' = Some y →
  set_key key (Some x) full k' = Some y.
Proof.
  intros Hinv Hu Hu'. unfold set_key. case_decide as Hkk; [subst k'; by rewrite lookup_insert_eq|].
  rewrite lookup_insert_ne; [by apply (ci_memory _ _ _ Hinv)|]. intros Hh. by apply Hinj in Hh.
Qed.

Lemma contents_set (m : contents) full key x k' :
  (∀ k', used k' → m !! k' = shown <$> full k') → used k' → <[key := shown x]> m !! k' = shown <$> set_key key (Some x) full k'.
Proof.
  intros Hm Hu. unfold set_key.
  case_decide; [subst k'; by rewrite lookup_insert_eq|rewrite lookup_insert_ne; auto].
Qed.

Section laws.
Context (k : call) (Hk : lone k).

Lemma lone_waits_pop : Forall (λ x, consumer_pops cap (w_ring x)) (k_waits k).
Proof. rewrite (lone_waits _ Hk). constructor. Qed.

Lemma put_stored key value options :
  fits key value →
  let e := put_env k d key value options in
  let nt := stored_entry c (k_schedule k) e in
  durable_op e (Some nt) = mkOp d key (HKey d key) (Some nt) 0 0 ∧
  shown nt = (value, expiry options (t_prepare (k_schedule k))) ∧ sound key nt ∧
  OnlyUpdateTTL (e_putConfig e) = false.
Proof.
  intros Hf e nt.
  assert (nt = mkSE key (bytes_of_string value) (expiry options (t_prepare (k_schedule k))) (k_timestamp k) 0)
    as Hnt.
  { unfold nt, stored_entry, prepareEntry, effective_timeout. rewrite Httl. cbn [negb andb Z.eqb].
    f_equal. by rewrite <- options_expiry. }
  assert (OnlyUpdateTTL (e_putConfig e) = false) as Hset by apply options_set.
  clearbody nt. subst nt. split_and!; try done.
  - unfold shown. cbn [se_value se_ttl]. by rewrite string_bytes.
  - split; [done|]. split; [|by cbn [se_value]; rewrite string_bytes].
    split; [unfold expiry; cbn [se_ttl]; destruct (last options) as [[px]|]; [apply quot_i64|done]|].
    split; [apply (lone_timestamp _ Hk)|]. split; [done|]. destruct Hf as (_&_&Hf).
    cbn [se_value]. rewrite zlen_bytes_of_string. unfold maxPayload in Hf.
    rewrite <- (zlen_bytes_of_string key), <- (zlen_bytes_of_string d), <- (zlen_bytes_of_string w) in Hf.
    pose proof (zlen_nonneg (bytes_of_string key)). pose proof (zlen_nonneg (bytes_of_string d)).
    pose proof (zlen_nonneg (bytes_of_string w)). lia.
Qed.

(** The errors a client sees are none of those that mean "no such key". *)
Lemma converted_error e :
  raw_error (k_done k) (k_text k) e ≠ ErrNotFound ∧
  raw_error (k_done k) (k_text k) e ≠ StringKV.ErrKeyNotFound ∧
  convertDMapError (k_done k) (k_text k) e ≠ ErrNotFound.
Proof. unfold k_done. destruct e as [| | | | | | |[]], (k_timed_out k); done. Qed.

Lemma put_law n key value options p m :
  holds (S n) p m → fits key value →
  match EmbeddedDMap_Put c k d key value options p with
  | (Done _, p') => holds n p' (<[key := (value, expiry options (t_prepare (k_schedule k)))]> m)
  | (Fail e, p') => e ≠ ErrNotFound ∧ (holds n p' m ∨ broken p')
  | (Panic, _) => False
  end.
Proof.
  intros Hp Hf. pose proof Hp as (es&full&Hinv&Hseq&Hm). unfold EmbeddedDMap_Put, pod_node, wrap_err.
  set (e := put_env k d key value options).
  destruct (put_stored key value options Hf) as (Hdo&Hsh&Hso&Hset). cbv zeta in *. fold e in Hdo, Hsh, Hso, Hset.
  set (nt := stored_entry c (k_schedule k) e) in *.
  assert (op_ok (durable_op e (Some nt)) OpSet w) as Hop by (rewrite Hdo; by apply entry_op_ok).
  pose proof (set_run w cap c single_replica _ (k_waits k) Hcap (lone_harmless k Hk) lone_waits_pop e
    (pod_owner p) (ci_hook _ _ _ Hinv) Hset (ci_lease _ _ _ Hinv) Hop) as Hr.
  rewrite (lone_lock _ Hk), (lone_verify _ Hk) in Hr. unfold id in Hr. cbv zeta in Hr. fold nt in Hr.
  destruct (putOnCluster _ _ _ _ _ _) as [[[]|err|] o']; [| |done].
  - destruct Hr as (Hfr&[Haft _]&_). rewrite (lone_waits _ Hk), (lone_after _ Hk) in Haft. rewrite <- Hsh.
    eapply (holds_write n p es full key (Some nt)); [done|done| | | |exact Haft|..]; [|done|done|..].
    + split; [apply Hf|]. split; [apply op_ok_fence; [done|apply (ci_lease _ _ _ Hinv)..]|].
      unfold logged_op. rewrite Hdo. by split_and!.
    + intros k' x Hu. rewrite Hfr. change (e_hkey e) with (HKey d key). apply memory_set with es; [done|apply Hf|done].
    + intros k' Hu. by apply contents_set.
  - split; [apply converted_error|]. rewrite owner_eta in Hr.
    destruct Hr as [->|[->|[_ [?|[? _]]]]]; [left; by apply holds_same..|by right|done].
Qed.

Lemma delete_law n key value p m :
  holds (S n) p m → fits key value →
  match EmbeddedDMap_Delete k d key p with
  | (Done _, p') => holds n p' (delete key m)
  | (Fail e, p') => e ≠ ErrNotFound ∧ e ≠ StringKV.ErrKeyNotFound ∧ (holds n p' m ∨ broken p')
  | (Panic, _) => False
  end.
Proof.
  intros Hp Hf. pose proof Hp as (es&full&Hinv&Hseq&Hm).
  unfold EmbeddedDMap_Delete, mbind, M_bind, pod_node, wrap_err, mret, M_ret.
  pose proof (tombstone_op_ok key value Hf) as Hop.
  pose proof (delete_run w cap _ (k_waits k) [] [] d key (HKey d key) (pod_owner p) Hcap
    (lone_harmless k Hk) lone_waits_pop (ci_hook _ _ _ Hinv) (ci_lease _ _ _ Hinv) Hop) as Hr.
  rewrite (lone_verify _ Hk) in Hr. unfold id in Hr. cbv zeta in Hr.
  destruct (deleteKey _ _ _ _ _ _ _ _) as [[[]|err|] o']; [| |done].
  - destruct Hr as (Hfr&[Haft _]&_). rewrite (lone_waits _ Hk), (lone_after _ Hk) in Haft.
    eapply (holds_write n p es full key None); [done|done| | | |exact Haft|..]; [|done|done|..].
    + split; [apply Hf|]. split; [|by split_and!]. apply (op_ok_fence (mkOp d key (HKey d key) None 0 0));
        [done|apply (ci_lease _ _ _ Hinv)..].
    + intros k' x Hu. rewrite Hfr. unfold set_key. case_decide as Hkk; [subst k'; by rewrite lookup_delete_eq|].
      intros [_ Hx]%lookup_delete_Some. by apply (ci_memory _ _ _ Hinv).
    + intros k' Hu. unfold set_key.
      case_decide; [subst k'; by rewrite lookup_delete_eq|rewrite lookup_delete_ne; auto].
  - split_and!; [apply converted_error..|]. rewrite owner_eta in Hr.
    destruct Hr as [->|[->|[_ ?]]]; [left; by apply holds_same..|by right].
Qed.

Lemma expire_stored key ttl x :
  0 < ttl → sound key x →
  let e := expire_env d key (HKey d key) (k_timestamp k) ttl in
  let nt := stored_entry c (k_schedule k) e in
  durable_op e (Some (retimed x nt)) = mkOp d key (HKey d key) (Some (retimed x nt)) 0 0 ∧
  shown (retimed x nt) = ((shown x).1, expiry [StringKV.PX ttl] (t_prepare (k_schedule k))) ∧
  sound key (retimed x nt).
Proof.
  intros Hpos (Hkx&Hty&Hfit) e nt.
  assert (nt = mkSE key [] (expiry [StringKV.PX ttl] (t_prepare (k_schedule k))) (k_timestamp k) 0) as ->.
  { unfold nt, stored_entry, prepareEntry, effective_timeout. rewrite Httl. cbn [negb andb Z.eqb].
    f_equal. unfold prepareTTL, expiry, e. cbn [e_putConfig expire_env HasEX HasPX HasEXAT HasPXAT e_timeout last].
    by rewrite (proj2 (Z.eqb_neq ttl 0)) by lia. }
  split_and!; [done|done|].
  split; [done|]. split; [|done]. destruct Hty as (_&_&_&Hlen).
  split; [unfold expiry; cbn [retimed se_ttl last]; apply quot_i64|].
  split; [apply (lone_timestamp _ Hk)|]. by split.
Qed.

Lemma expire_law n key value ttl p m :
  holds (S n) p m → fits key value → 0 < ttl →
  match EmbeddedDMap_Expire c k d key ttl p with
  | (Done _, p') => ∃ v old, m !! key = Some (v, old) ∧
      holds n p' (<[key := (v, expiry [StringKV.PX ttl] (t_prepare (k_schedule k)))]> m)
  | (Fail e, p') => e ≠ ErrNotFound ∧ (holds n p' m ∨ broken p' ∧ e ≠ StringKV.ErrKeyNotFound)
  | (Panic, _) => False
  end.
Proof.
  intros Hp Hf Hpos. pose proof Hp as (es&full&Hinv&Hseq&Hm).
  unfold EmbeddedDMap_Expire, pod_node, wrap_err.
  set (e := expire_env d key (HKey d key) (k_timestamp k) ttl).
  set (nt := stored_entry c (k_schedule k) e).
  assert (∀ x, o_frag (pod_owner p) !! HKey d key = Some x → sound key x) as Hso.
  { intros x Hx%(ci_memory _ _ _ Hinv); [|apply Hf]. eapply full_sound; [done|apply Hf|done]. }
  pose proof (λ x Hx, expire_stored key ttl x Hpos (Hso x Hx)) as Hst. cbv zeta in Hst. fold e nt in Hst.
  assert (∀ x, o_frag (pod_owner p) !! e_hkey e = Some x →
    op_ok (durable_op e (Some (retimed x nt))) OpExpire w) as Hop.
  { intros x (->&_&?)%Hst. by apply entry_op_ok. }
  pose proof (expire_run w cap c single_replica _ (k_waits k) Hcap (lone_harmless k Hk) lone_waits_pop e
    (pod_owner p) (ci_hook _ _ _ Hinv) eq_refl) as Hr.
  cbv zeta in Hr. rewrite (lone_lock _ Hk) in Hr. unfold id in Hr.
  specialize (Hr (ci_lease _ _ _ Hinv) Hop). fold nt in Hr.
  destruct (putOnCluster _ _ _ _ _ _) as [[[]|err|] o']; [| |done].
  - destruct Hr as (x&Hx&Hfr&[Haft _]). rewrite (lone_waits _ Hk), (lone_after _ Hk) in Haft.
    change (e_hkey e) with (HKey d key) in Hx, Hfr. destruct (Hst x Hx) as (Hdo&Hsh&Hsr).
    exists (shown x).1, (se_ttl x).
    pose proof (ci_memory _ _ _ Hinv _ _ (proj1 Hf) Hx) as Hfull.
    split; [by rewrite Hm, Hfull by apply Hf|]. rewrite <- Hsh.
    eapply (holds_write n p es full key (Some (retimed x nt))); [done|done| | | |exact Haft|..]; [|done|done|..].
    + split; [apply Hf|].
      split; [apply op_ok_fence; [rewrite Hdo; by apply entry_op_ok|apply (ci_lease _ _ _ Hinv)..]|].
      unfold logged_op. rewrite Hdo. by split_and!.
    + intros k' y Hu. rewrite Hfr. apply memory_set with es; [done|apply Hf|done].
    + intros k' Hu. by apply contents_set.
  - split; [apply converted_error|].
    destruct Hr as [->|(x&_&_&[?|[? _]])]; [left; by apply holds_same| |done].
    right. split; [done|apply converted_error].
Qed.

(** A read in memory says "expired" only of an entry the sidecar will not give
    back, unless its expiry lies before 1970. *)
Lemma expired_not_alive ttl :
  isKeyExpired (k_read k) ttl = true → alive ttl (k_load k) → ttl < 0.
Proof.
  unfold isKeyExpired. destruct (Z.eqb_spec ttl 0) as [|Hz]; [done|]. intros Hle%Z.leb_le [?|Hlt]; [lia|].
  destruct (lone_read _ Hk) as [H0' Hmax]. unfold maxInt64 in Hmax.
  rewrite i64_small in Hle by (unfold minInt64, maxInt64; lia).
  rewrite Z.quot_div_nonneg in Hle by lia. unfold UnixMilli in Hlt.
  pose proof (Z.div_le_mono (k_read k) (k_load k) 1000000 ltac:(lia) (lone_load _ Hk)). lia.
Qed.

Lemma unexpired_alive ttl : isKeyExpired (k_read k) ttl = false → alive ttl (k_read k).
Proof.
  unfold isKeyExpired, alive. destruct (Z.eqb_spec ttl 0) as [|Hz]; [lia|]. intros Hle%Z.leb_gt.
  destruct (lone_read _ Hk) as [H0' Hmax]. unfold maxInt64 in Hmax.
  rewrite i64_small in Hle by (unfold minInt64, maxInt64; lia).
  rewrite Z.quot_div_nonneg in Hle by lia. by right.
Qed.

Lemma get_law n key value p m :
  holds n p m → settled p → fits key value →
  match EmbeddedDMap_Get order c k d key p with
  | (Done (Done v), p') => holds n p' m ∧ ∃ ttl, m !! key = Some (v, ttl) ∧ alive ttl (k_read k)
  | (Fail StringKV.ErrKeyNotFound, p') => holds n p' m ∧
      ∀ v ttl, m !! key = Some (v, ttl) → ¬ alive ttl (k_load k)
  | (Fail e, p') => holds n p' m ∧ e ≠ ErrNotFound
  | _ => False
  end.
Proof.
  intros Hp Hset [Hu _]. pose proof Hp as (es&full&Hinv&Hseq&Hm).
  pose proof (settled_empty _ _ _ Hinv Hset) as ->. unfold EmbeddedDMap_Get, wrap_err.
  set (template := mkOp d key (HKey d key) (Some (mkSE "" [] 0 0 0)) 0 0).
  destruct (load_newest (pod_sidecar p) key (full key) (k_answer k) (k_load k) (k_fate k) template
    (k_spare k) (ci_full _ _ _ Hinv key Hu) ltac:(done)) as [Hs Hl].
  set (load := controlAdapter_LoadFromMySQL _ _ _ _ _ _ _ _) in *.
  replace (match getOnCluster _ _ _ _ _ _ with Fail DErrKeyNotFound => load.2 | _ => pod_sidecar p end)
    with (pod_sidecar p) by (rewrite Hs; by repeat case_match).
  assert (mkPod (pod_owner p) (pod_sidecar p) = p) as Heta by (by destruct p).
  unfold Get. fold template.
  destruct (o_frag (pod_owner p) !! HKey d key) as [x|] eqn:Hx.
  - pose proof (ci_memory _ _ _ Hinv _ _ Hu Hx) as Hfull. rewrite (get_resident c _ _ _ x) by done.
    destruct (isKeyExpired (k_read k) (se_ttl x)) eqn:Hex.
    2: { cbn [response_String]. rewrite Heta. split; [done|]. exists (se_ttl x).
         split; [by rewrite Hm, Hfull by done|]. by apply unexpired_alive. }
    destruct (answer_of load.1) as [| |rec].
    + cbn. rewrite Heta. by split.
    + cbn. rewrite Heta. split; [done|]. intros v ttl. rewrite Hm, Hfull by done. intros [= _ <-]. by apply Hl.
    + destruct Hl as (x'&Hx'&Ha&->). assert (x' = x) as -> by congruence. erewrite bind_done by reflexivity.
      unfold on_frag, zoom. rewrite refill_run. unfold id. rewrite Hx. cbn [response_String].
      replace (set_o_frag (o_frag (pod_owner p)) (pod_owner p)) with (pod_owner p) by (by destruct (pod_owner p)).
      rewrite Heta. split; [done|]. exists (se_ttl x). split; [by rewrite Hm, Hfull by done|].
      eapply alive_earlier, Ha. apply (lone_load _ Hk).
  - rewrite get_nowhere by done. destruct (answer_of load.1) as [| |rec].
    + cbn. rewrite Heta. by split.
    + cbn. rewrite Heta. split; [done|]. intros v ttl. rewrite Hm by done. destruct (full key) as [x|] eqn:Hfull; [|done].
      intros [= _ <-]. by apply Hl.
    + destruct Hl as (x&Hfull&Ha&->). erewrite bind_done by reflexivity. unfold on_frag, zoom.
      rewrite refill_run. unfold id. rewrite Hx. cbn [response_String]. split.
      * exists [], full. split_and!; [|done|done]. apply memory; [done|].
        intros k' y Hu'. destruct (decide (k' = key)) as [->|Hne].
        -- rewrite lookup_insert_eq. congruence.
        -- rewrite lookup_insert_ne; [by apply (ci_memory _ _ _ Hinv)|]. intros Hh. by apply Hinj in Hh.
      * exists (se_ttl x). split; [by rewrite Hm, Hfull by done|]. eapply alive_earlier, Ha. apply (lone_load _ Hk).
Qed.

#[export] Instance pod_KVStore : KVStore d holds settled broken fits (embedded order c k) (call_instants k).
Proof.
  split.
  - intros n p m (es&full&?&?&?). exists es, full. split_and!; [done|lia|done].
  - intros p. cbn. unfold EmbeddedClient_NewDMap. destruct (k_operable k); [right; by eexists|by left].
  - intros n key value p m. apply get_law.
  - intros n key value options p m. apply put_law.
  - intros n key value p m. apply delete_law.
  - intros n key value ttl p m. apply expire_law.
Qed.
End laws.

(** ** Sessions *)

(** What happens between the commands of a client: the sidecar drains the ring
    or flushes, memory is lost in part (eviction), the lease is renewed, and
    the node process is replaced by one with a newer lease. *)
Inductive background : pod → pod → Prop :=
| bg_drain p : background p (pod_oplog drainRing p).2
| bg_flush ans p : background p (pod_oplog (flushOnce order ans) p).2
| bg_forget f p : f ⊆ o_frag (pod_owner p) →
    background p (mkPod (set_o_frag f (pod_owner p)) (pod_sidecar p))
| bg_lease l p :
    let l0 := h_lease (o_hook (pod_owner p)) in
    lease_typed l → l_generation l0 < l_generation l ∨
      l_generation l0 = l_generation l ∧ l_epoch l0 ≤ l_epoch l →
    background p (mkPod (set_o_hook (set_hook_lease l (o_hook (pod_owner p))) (pod_owner p)) (pod_sidecar p))
| bg_restart l budget p :
    let h := o_hook (pod_owner p) in
    h_fatal h = None → lease_typed l →
    triple_lt (l_generation (h_lease h), l_epoch (h_lease h), 1) (l_generation l, l_epoch l, 1) →
    triple_lt (q_generation (h_seq h), q_epoch (h_seq h), 1) (l_generation l, l_epoch l, 1) →
    background p (mkPod (mkOwner (mkHook l NewMemoryFenceSequencer (h_capacity h) (h_ring h) (h_writerID h)
                                    budget true None) ∅) (pod_sidecar p)).

(** A client's session with a node that serves: commands that run alone, each
    with its reply, and background steps in any number between them.  A read
    comes after the sidecar has drained the ring. *)
Inductive session : pod → list (call * list (list byte) * reply) → pod → Prop :=
| session_end p : session p [] p
| session_background p p1 trace p' :
    background p p1 → session p1 trace p' → session p trace p'
| session_command p k clock args r p1 trace p' :
    h_fatal (o_hook (pod_owner p)) = None → lone k → sized fits args → (reads args → settled p) →
    handle (embedded order c k) (h_lease (o_hook (pod_owner p))) clock d args p = (Done r, p1) →
    session p1 trace p' → session p ((k, args, r) :: trace) p'.

Fixpoint permitted (m : contents) (trace : list (call * list (list byte) * reply)) (m' : contents) : Prop :=
  match trace with
  | [] => m' = m
  | (k, args, r) :: trace => ∃ m1, permits (call_instants k) m args r m1 ∧ permitted m1 trace m'
  end.

(** The number of writes a session can stamp. *)
Fixpoint cost (trace : list (call * list (list byte) * reply)) : nat :=
  match trace with [] => 0 | (_, args, _) :: trace => length args + cost trace end.

Lemma spent_lease l l' q t :
  l_generation l < l_generation l' ∨ l_generation l = l_generation l' ∧ l_epoch l ≤ l_epoch l' →
  spent l q t → spent l' q t.
Proof.
  intros Hl [?|[?|Hlt]]; [by left|by right; left|right; right].
  destruct t as [[g e] s]. unfold triple_lt in *. lia.
Qed.

Lemma spent_restart l q l' t :
  triple_lt (l_generation l, l_epoch l, 1) (l_generation l', l_epoch l', 1) →
  triple_lt (q_generation q, q_epoch q, 1) (l_generation l', l_epoch l', 1) →
  spent l q t → spent l' NewMemoryFenceSequencer t.
Proof.
  intros Hl Hq Ht. right; right. destruct t as [[g e] s]. unfold spent, seq_triple, triple_lt in *.
  destruct Ht as [[= -> -> ->]|[|]]; lia.
Qed.

Lemma background_holds n p p' m : holds n p m → background p p' → holds n p' m.
Proof.
  intros (es&full&Hinv&Hseq&Hm) Hb. destruct Hb as [p|ans p|f p Hf|l p l0 Hl Hle|l budget p h Hfat Hl Hle Hq].
  - destruct (drained _ _ _ Hinv) as (j&s'&Hdr&_&Hinv'). exists (drop j es), full. split_and!; [done| |done].
    unfold pod_oplog. by rewrite Hdr.
  - exists es, full. split_and!; [by apply flushed| |done]. unfold pod_oplog. by destruct (flushOnce _ _ _).
  - exists es, full. split_and!; [|done|done]. apply memory; [done|]. intros k x Hu Hx.
    apply (ci_memory _ _ _ Hinv); [done|]. by eapply lookup_weaken.
  - exists es, full. split_and!; [|done|done]. destruct p as [[h f] s], Hinv.
    destruct ci_hook0 as ([q [Hr Hc64 Hsq Hwn]]&Hc&Hw&Hfat).
    split; try done; cbn [pod_owner o_hook o_frag pod_sidecar h_lease h_seq h_ring set_o_hook set_hook_lease] in *.
    + split_and!; [|done..]. exists q. by split.
    + intros e He. eapply spent_lease; eauto.
    + intros ref e He. eapply spent_lease; eauto.
    + intros k row Hk Hrow. eapply spent_lease; eauto.
  - exists es, full. split_and!; [| |done].
    + destruct p as [[h0 f] s], Hinv. cbn [pod_owner o_hook o_frag pod_sidecar] in *.
      destruct ci_hook0 as ([q [Hr Hc64 Hsq Hwn]]&Hc&Hw&_).
      split; try done; cbn [pod_owner o_hook o_frag pod_sidecar h_lease h_seq h_ring] in *.
      * split_and!; [|done..]. exists q. by split.
      * intros e He. eapply spent_restart; eauto.
      * intros ref e He. eapply spent_restart; eauto.
      * intros k row Hk Hrow. eapply spent_restart; eauto.
    + destruct (ci_hook _ _ _ Hinv) as ([q Hwf]&_). pose proof (hwf_seq _ _ Hwf) as Hok. unfold seq_ok in Hok.
      cbn. lia.
Qed.

Lemma background_broken p p' : broken p → background p p' → broken p'.
Proof.
  unfold broken. intros Hb Hs. destruct Hs as [p|ans p|f p Hf|l p l0 Hl Hle|l budget p h Hfat Hl Hle Hq]; try done.
  - unfold pod_oplog. by destruct (drainRing _).
  - unfold pod_oplog. by destruct (flushOnce _ _ _).
Qed.

Lemma session_broken p trace p' : broken p → session p trace p' → trace = [] ∧ broken p'.
Proof.
  intros Hb Hs. induction Hs as [p|p p1 trace p' Hbg _ IH|p k clock args r p1 trace p' Hfat]; [done| |].
  - apply IH. by eapply background_broken.
  - by destruct Hb.
Qed.

Lemma session_run n p trace p' m :
  session p trace p' → holds (n + cost trace) p m →
  (∃ m', permitted m trace m' ∧ holds n p' m') ∨
  broken p' ∧ ∃ trace1 k args msg m', trace = trace1 ++ [(k, args, WriteError msg)] ∧ permitted m trace1 m'.
Proof.
  intros Hs. revert m.
  induction Hs as [p|p p1 trace p' Hbg Hs IH|p k clock args r p1 trace p' Hfat Hlone Hsz Hset Hh Hs IH];
    intros m Hp.
  - left. exists m. rewrite Nat.add_0_r in Hp. done.
  - apply IH. by eapply background_holds.
  - cbn [cost] in Hp. rewrite (Nat.add_comm (length args)), Nat.add_assoc in Hp.
    pose proof (pod_KVStore k Hlone) as Hkv.
    pose proof (handle_run d holds settled broken fits (embedded order c k) (call_instants k)
      (h_lease (o_hook (pod_owner p))) clock (n + cost trace) args p m Hp Hsz Hset) as Hr.
    rewrite Hh in Hr. destruct Hr as [(m1&Hpm&Hp1)|[Hb [msg ->]]].
    + destruct (IH m1 Hp1) as [(m'&Hm'&Hp')|[Hb (tr1&k'&args'&msg&m'&->&Hm')]].
      * left. exists m'. split; [|done]. by exists m1.
      * right. split; [done|]. exists ((k, args, r) :: tr1), k', args', msg, m'. split; [done|]. by exists m1.
    + destruct (session_broken _ _ _ Hb Hs) as [-> Hb']. right. split; [done|].
      by exists [], k, args, msg, m.
Qed.

(** ** Theorems *)


(** An executable sign that the ring is drained. *)
Lemma pop_settled n p m :
  holds n p m → (Pop 2 cap (srv_ring (pod_sidecar p))).1 = Done None → settled p.
Proof.
  intros (es&full&Hinv&_) Hpop. destruct (swf_ring _ _ (ci_server _ _ _ Hinv)) as (hd&tl&q&Hr&_).
  rewrite (ci_capacity _ _ _ Hinv) in Hr. pose proof (Pop_run _ _ _ _ _ 2 Hr ltac:(lia)) as Hrun.
  exists hd, tl. destruct q as [|x q]; [done|]. destruct Hrun as (f'&hd'&He&_). by rewrite He in Hpop.
Qed.

(** The hook admits a write of up to 64 KB on an empty ring. *)
Lemma settled_stamp p es full now key x :
  cache_inv p es full → settled p → used key → sound key x →
  let h := o_hook (pod_owner p) in let l := h_lease h in
  ServingAllowed now l = true →
  slen d + slen key + slen w + 256 + 2 * zlen (SE_Encode x) ≤ 65504 → 131040 ≤ cap →
  let op := mkOp d key (HKey d key) (Some x) (l_generation l) (l_epoch l) in
  stamp now (mkOp d key (HKey d key) (Some x) 0 0) h = (Done op, h) ∧ estimateOplogSize op h ≤ 65504.
Proof.
  intros Hinv (hd&tl&Hr) Hu (Hkx&_) h l Hserve Hsize Hc op.
  destruct (ci_hook _ _ _ Hinv) as ([q Hq]&Hcp&Hw&_). fold h in Hq, Hcp, Hw.
  destruct (Pop_run _ _ _ _ _ 2 Hr ltac:(lia)) as [-> _].
  assert (estimateOplogSize op h = slen d + slen key + slen w + 256 + 2 * zlen (SE_Encode x)) as Hest.
  { unfold estimateOplogSize, op, jsonOverhead. cbn [op_DMap op_Key op_Entry]. rewrite Hw.
    assert (∀ s, 0 ≤ slen s) as Hs by (intros; unfold slen; lia). pose proof (zlen_nonneg (SE_Encode x)).
    pose proof (Hs d). pose proof (Hs key). pose proof (Hs w).
    rewrite (u64_small (slen d + slen key + slen w + 256)), (u64_small (zlen (SE_Encode x) * 2)) by lia.
    rewrite u64_small by lia. lia. }
  split; [|lia]. unfold stamp, SnapshotForWrite. fold l.
  unfold ServingAllowed in Hserve. apply Z.ltb_lt in Hserve. rewrite (proj2 (Z.leb_gt _ _)) by lia. cbn [negb].
  change (set_fence _ _ _) with op. rewrite Hest. rewrite (ci_ring _ _ _ Hinv) in Hr. fold h in Hr.
  rewrite (Pending_run _ _ _ _ _ Hr). rewrite Hcp, Z.sub_diag, Z.sub_0_r. unfold concurrentBuffer.
  pose proof (zlen_nonneg (SE_Encode x)).
  assert (∀ s, 0 ≤ slen s) as Hs by (intros; unfold slen; lia).
  pose proof (Hs d). pose proof (Hs key). pose proof (Hs w).
  rewrite (u64_small cap), u64_small by lia. by rewrite (proj2 (Z.ltb_ge _ _)) by lia.
Qed.

(** C5: a pod that has drained its ring accepts writes.  A SET whose names need
    no escapes and whose record is estimated at 64 KB or less is answered OK and
    is in the map, when the lease is live at each of its checks and not older
    than the writes before it. *)
Theorem settled_pod_accepts_sets n p m k clock name key value options ttl :
  let h := o_hook (pod_owner p) in let l := h_lease h in
  holds (S n) p m → settled p → lone k → k_operable k = None →
  ToUpper name = "SET" → parseSetTTL options = inr ttl → fits (argString key) (argString value) →
  plain d → plain (argString key) → plain w →
  slen d + slen (argString key) + slen w + 256 + 2 * (29 + slen (argString key) + slen (argString value)) ≤ 65504 →
  131040 ≤ cap → 0 ≤ l_epoch l →
  q_generation (h_seq h) < l_generation l ∨ q_generation (h_seq h) = l_generation l ∧ q_epoch (h_seq h) ≤ l_epoch l →
  ServingAllowed (clock 0%nat) l = true → ServingAllowed (t_before (k_schedule k)) l = true →
  ServingAllowed (t_verify (k_schedule k)) l = true →
  ∃ p', handle (embedded order c k) l clock d (name :: key :: value :: options) p = (Done (WriteString "OK"), p') ∧
    holds n p' (<[argString key := (argString value, expiry (set_put_options ttl) (t_prepare (k_schedule k)))]> m).
Proof.
  intros h l Hp Hset Hk Hop Hname Hparse Hf Hpd Hpk Hpw Hsize Hc He Hwin Hs0 Hs1 Hs2.
  pose proof (put_law k Hk n (argString key) (argString value) (set_put_options ttl) p m Hp Hf) as Hlaw.
  assert ((EmbeddedDMap_Put c k d (argString key) (argString value) (set_put_options ttl) p).1 = Done tt) as Hdone.
  { destruct Hp as (es&full&Hinv&_).
    destruct (put_stored k Hk (argString key) (argString value) (set_put_options ttl) Hf) as (Hdo&Hsh&Hso&Hupd).
    set (e := put_env k d (argString key) (argString value) (set_put_options ttl)) in *.
    set (nt := stored_entry c (k_schedule k) e) in *.
    assert (zlen (SE_Encode nt) = 29 + slen (argString key) + slen (argString value)) as Hz.
    { rewrite SE_Encode_zlen, (proj1 Hso). 
      assert (string_of_bytes (se_value nt) = argString value) as <- by exact (f_equal fst Hsh).
      by rewrite <- (zlen_bytes_of_string (string_of_bytes (se_value nt))), bytes_string. }
    destruct (settled_stamp p es full (t_before (k_schedule k)) (argString key) nt Hinv Hset (proj1 Hf) Hso Hs1
      ltac:(lia) Hc) as [Hst Hest]. fold h l in Hst, Hest. rewrite <- Hdo in Hst.
    destruct (ci_hook _ _ _ Hinv) as ([q Hq]&Hcp&Hw&_). fold h in Hq, Hcp, Hw.
    destruct (options_set (set_put_options ttl)) as (_&Hnx&Hxx).
    pose proof (set_succeeds c (k_schedule k) e (pod_owner p) _ Hupd Hnx Hxx (lone_lock _ Hk) (lone_verify _ Hk)
      (lone_after _ Hk) Hst) as Hsucc. cbn [op_FenceGeneration op_FenceEpoch] in Hsucc. fold h l in Hsucc.
    unfold EmbeddedDMap_Put, pod_node, wrap_err. fold e. rewrite (lone_waits _ Hk).
    assert ((putOnCluster c single_replica (k_schedule k) [] e (pod_owner p)).1 = Done tt) as Hput.
    { apply Hsucc.
      - unfold VerifyFence. unfold ServingAllowed in Hs2. apply Z.ltb_lt in Hs2.
        rewrite (proj2 (Z.leb_gt _ _)), Z.eqb_refl, Z.ltb_irrefl by lia. done.
      - rewrite Hdo in Hst. destruct (ci_lease _ _ _ Hinv) as [[Hg0 Hg1] He1]. fold h l in Hg0, Hg1, He1.
        eapply (admitted_write_is_logged _ _ _ _ OpSet h q Hq); [lia|exact Hst| |..]; try done; try by rewrite Hw.
        rewrite Hw. apply (op_ok_fence (mkOp d (argString key) (HKey d (argString key)) (Some nt) 0 0));
          [by apply entry_op_ok|lia|lia]. }
    destruct (putOnCluster _ _ _ _ _ _) as [[[]| |] o']; done. }
  destruct (EmbeddedDMap_Put _ _ _ _ _ _ _) as [[[]| |] p'] eqn:Hput; try done.
  exists p'. split; [|exact Hlaw]. apply (handle_set _ _ _ _ _ _ _ _ ttl p p); try done.
  cbn. unfold EmbeddedClient_NewDMap. by rewrite Hop.
Qed.

(** C36: a deleted key comes back.  A DEL is acknowledged with its tombstone in
    the ring; until the sidecar has drained it, a GET finds nothing in memory,
    loads the entry of before the delete from the sidecar, answers with it and
    puts it back in memory.  From then on the node answers with the deleted
    value, whatever becomes of the tombstone, while the sidecar and every other
    node know the key as deleted. *)
Theorem deleted_key_comes_back n p m key v ttl k1 k2 z p1 :
  holds (S n) p m → settled p → fits key "" → m !! key = Some (v, ttl) →
  lone k1 → EmbeddedDMap_Delete k1 d key p = (Done z, p1) →
  lone k2 → k_answer k2 = db_ok → k_fate k2 = delivered → alive ttl (k_load k2) →
  holds n p1 (delete key m) ∧
  ∃ p2, EmbeddedDMap_Get order c k2 d key p1 = (Done (Done v), p2) ∧
    ∀ p3 k3, o_frag (pod_owner p3) = o_frag (pod_owner p2) → isKeyExpired (k_read k3) ttl = false →
      EmbeddedDMap_Get order c k3 d key p3 = (Done (Done v), p3).
Proof.
  intros Hp Hset Hf Hv Hk1 Hdel Hk2 Hans Hfate Ha.
  pose proof (delete_law k1 Hk1 n key "" p m Hp Hf) as Hd1. rewrite Hdel in Hd1. split; [done|].
  destruct Hp as (es&full&Hinv&_&Hm). pose proof (settled_empty _ _ _ Hinv Hset) as ->.
  destruct Hf as [Hu _]. rewrite Hm in Hv by done. destruct (full key) as [x|] eqn:Hx; [|done].
  injection Hv as <- <-.
  assert (o_frag (pod_owner p1) !! HKey d key = None ∧
          newest (pod_sidecar p1) [] key = newest (pod_sidecar p) [] key) as [Hgone Hnew].
  { unfold EmbeddedDMap_Delete, mbind, M_bind, pod_node, wrap_err, mret, M_ret in Hdel.
    pose proof (delete_run w cap _ (k_waits k1) [] [] d key (HKey d key) (pod_owner p) Hcap
      (lone_harmless k1 Hk1) (lone_waits_pop k1 Hk1) (ci_hook _ _ _ Hinv) (ci_lease _ _ _ Hinv)
      (tombstone_op_ok key (string_of_bytes (se_value x)) ltac:(by eapply full_sound))) as Hr. cbv zeta in Hr.
    destruct (deleteKey _ _ _ _ _ _ _ _) as [[[]|err|] o']; try done. injection Hdel as _ <-.
    destruct Hr as (Hfr&_). cbn [pod_owner pod_sidecar]. rewrite Hfr. by rewrite lookup_delete_eq. }
  pose proof (ci_full _ _ _ Hinv key Hu) as Hde. rewrite <- Hnew, Hx in Hde.
  set (template := mkOp d key (HKey d key) (Some (mkSE "" [] 0 0 0)) 0 0).
  destruct (load_newest (pod_sidecar p1) key (Some x) (k_answer k2) (k_load k2) (k_fate k2) template
    (k_spare k2) Hde ltac:(done)) as [Hs Hl].
  unfold EmbeddedDMap_Get at 1, wrap_err, Get. rewrite get_nowhere by done. fold template.
  set (load := controlAdapter_LoadFromMySQL _ _ _ _ _ _ _ _) in *. rewrite Hans, Hfate in Hl.
  destruct (answer_of load.1) as [| |rec]; [by destruct Hl|by destruct (Hl x)|].
  destruct Hl as (x'&[= <-]&_&->). erewrite bind_done by reflexivity. unfold on_frag, zoom.
  rewrite refill_run. unfold id. rewrite Hgone. eexists. split; [reflexivity|].
  intros p3 k3 Hfr Hex. unfold EmbeddedDMap_Get, wrap_err, Get. cbn [pod_owner set_o_frag o_frag] in Hfr.
  rewrite Hfr, (get_resident c _ _ _ x), Hex by (done || apply lookup_insert_eq). by destruct p3.
Qed.
End cache.

(** *** Witnesses *)

#[local] Existing Instance hash_seven.
#[local] Existing Instance merge_version_sort.
#[local] Existing Instance strict_time.
#[local] Existing Instance old_row_engine.

Definition only_k (k : string) : Prop := k = "k".

Lemma only_k_inj k k' : only_k k → only_k k' → HKey "users" k = HKey "users" k' → k = k'.
Proof. unfold only_k. congruence. Qed.

Lemma pod128_holds (n : nat) : Z.of_nat n < maxInt64 → holds "pod" 131072 "users" only_k n pod128 ∅.
Proof.
  intros Hn. exists [], (λ _, None). split_and!; [|cbn; lia|done].
  assert (∀ ref e, p_entries newPending !! ref = Some e → False) as Hp.
  { intros ref e He. cbn in He. by rewrite lookup_empty in He. }
  assert (∀ k (row : EntryRecord), (∅ : gmap (string * Z) EntryRecord) !! k = Some row → False) as Hdb.
  { intros k row Hr. by rewrite lookup_empty in Hr. }
  split; cbn [pod128 pod_owner pod_sidecar srv_pending srv_db srv_ring srv_capacity].
  - apply owner128_serving.
  - apply lease_live_typed.
  - reflexivity.
  - reflexivity.
  - destruct (hwf_ring _ _ hook128_wf) as (hd&tl&Hr).
    split; [exists hd, tl, []; split; [exact Hr|constructor]|apply newPending_wf|apply empty_table_wf].
  - vm_compute. reflexivity.
  - intros e He. by apply elem_of_nil in He.
  - intros ref e He. by destruct (Hp _ _ He).
  - intros k _. unfold newest. cbn [pod_sidecar pod128 put_all foldl srv_pending srv_db newPending p_entries].
    by rewrite lookup_empty, lookup_empty.
  - intros k x _ Hx. cbn in Hx. by rewrite lookup_empty in Hx.
  - constructor.
  - intros ref e e' He. by destruct (Hp _ _ He).
  - intros k row e' _ Hr. by destruct (Hdb _ _ Hr).
  - intros k row e _ Hr. by destruct (Hdb _ _ Hr).
  - intros e He. by apply elem_of_nil in He.
  - intros ref e He. by destruct (Hp _ _ He).
  - intros k row _ Hr. by destruct (Hdb _ _ Hr).
Qed.

Lemma call_at_lone now : 0 ≤ now ≤ maxInt64 → lone (call_at now).
Proof. intros Hn. unfold minInt64, maxInt64 in *. split; cbn; (done || unfold minInt64, maxInt64; lia). Qed.

(** SET k ab; the sidecar drains; the entry is evicted; GET k. *)
Definition set_args : list (list byte) := bytes_of_string <$> ["SET"; "k"; "ab"].
Definition get_args : list (list byte) := bytes_of_string <$> ["GET"; "k"].
#[local] Abbreviation example_command now args p :=
  (handle (embedded id config1 (call_at now%Z)) (h_lease (o_hook (pod_owner p))) (λ _, now%Z) "users" args p)
  (only parsing).

Definition pod_set : pod := (example_command 5 set_args pod128).2.
Definition pod_drained : pod := (pod_oplog drainRing pod_set).2.
Definition pod_evicted : pod := mkPod (set_o_frag ∅ (pod_owner pod_drained)) (pod_sidecar pod_drained).
Definition pod_read : pod := (example_command 6 get_args pod_evicted).2.

Lemma pod_set_eq : example_command 5 set_args pod128 = (Done (WriteString "OK"), pod_set).
Proof.
  assert ((example_command 5 set_args pod128).1 = Done (WriteString "OK")) as H by (vm_compute; reflexivity).
  exact (pair_of_fst _ _ H).
Qed.

Lemma pod_read_eq : example_command 6 get_args pod_evicted = (Done (WriteBulk "ab"), pod_read).
Proof.
  assert ((example_command 6 get_args pod_evicted).1 = Done (WriteBulk "ab")) as H by (vm_compute; reflexivity).
  exact (pair_of_fst _ _ H).
Qed.

Lemma example_sized args value :
  touches args = [("k", value)] → slen value < 1000 → sized (fits "pod" "users" only_k) args.
Proof.
  intros Ht Hv k v. rewrite Ht, list_elem_of_singleton. intros [= -> ->]. split; [done|].
  change (slen "k") with 1. change (slen "users") with 5. change (slen "pod") with 3. unfold maxPayload. lia.
Qed.

Lemma example_refines now (n : nat) args p m :
  0 ≤ now ≤ maxInt64 → holds "pod" 131072 "users" only_k (n + length args) p m →
  sized (fits "pod" "users" only_k) args → (reads args → settled 131072 p) →
  refines (holds "pod" 131072 "users" only_k) broken (call_instants (call_at now)) n args m
    (example_command now args p).
Proof.
  intros Hnow Hp Hsz Hset. pose proof (pod_KVStore id "pod" 131072 config1 "users" eq_refl ltac:(discriminate)
    ltac:(vm_compute; discriminate) eq_refl eq_refl only_k only_k_inj (call_at now) (call_at_lone now Hnow)) as Hkv.
  exact (handle_run "users" (holds "pod" 131072 "users" only_k) (settled 131072) broken
    (fits "pod" "users" only_k) (embedded id config1 (call_at now)) (call_instants (call_at now))
    (h_lease (o_hook (pod_owner p))) (λ _, now) n args p m Hp Hsz Hset).
Qed.

Lemma pod_set_holds (n : nat) :
  Z.of_nat n < 1000 → holds "pod" 131072 "users" only_k n pod_set {["k" := ("ab", 0)]}.
Proof.
  intros Hn. assert (Z.of_nat (n + length set_args) < maxInt64) as Hl
    by (change (length set_args) with 3%nat; unfold maxInt64; lia).
  pose proof (example_refines 5 n set_args pod128 ∅ ltac:(unfold maxInt64; lia) (pod128_holds _ Hl)
    (example_sized set_args "ab" eq_refl eq_refl) ltac:(intros Hr; by vm_compute in Hr)) as Hr.
  rewrite pod_set_eq in Hr. destruct Hr as [(m'&Hperm&Hp)|[Hb [msg Hmsg]]]; [|done].
  inversion Hperm; subst; [|done..].
  match goal with Hp0 : parseSetTTL [] = inr _ |- _ => injection Hp0 as <- end. exact Hp.
Qed.

Lemma pod_drained_holds (n : nat) :
  Z.of_nat n < 1000 → holds "pod" 131072 "users" only_k n pod_drained {["k" := ("ab", 0)]}.
Proof.
  intros Hn. eapply (background_holds id (λ l, Permutation_refl l)); [apply only_k_inj|by apply pod_set_holds|].
  unfold pod_drained. apply bg_drain.
Qed.

Lemma settled_sidecar o s cap : settled cap (mkPod o s) ↔ ∃ hd tl, ring_wf cap (srv_ring s) hd tl [].
Proof. done. Qed.

Lemma pod_drained_settled : settled 131072 pod_drained.
Proof.
  apply (pop_settled "pod" 131072 "users" only_k 0 pod_drained {["k" := ("ab", 0)]}).
  - by apply pod_drained_holds.
  - vm_compute. reflexivity.
Qed.

Definition example_trace : list (call * list (list byte) * reply) :=
  [(call_at 5, set_args, WriteString "OK"); (call_at 6, get_args, WriteBulk "ab")].

Lemma pod_evicted_settled : settled 131072 pod_evicted.
Proof. unfold pod_evicted. apply settled_sidecar. exact pod_drained_settled. Qed.

Lemma set_step : background id pod_set pod_drained.
Proof. unfold pod_drained. apply bg_drain. Qed.

Lemma forget_step : background id pod_drained pod_evicted.
Proof. unfold pod_evicted. apply bg_forget, map_empty_subseteq. Qed.

Lemma pod_evicted_serves : h_fatal (o_hook (pod_owner pod_evicted)) = None.
Proof. vm_compute. reflexivity. Qed.

Lemma example_lone now : 0 ≤ now < 100 → lone (call_at now).
Proof. intros Hn. apply call_at_lone. unfold maxInt64. lia. Qed.

Lemma example_session_read :
  session id "pod" 131072 config1 "users" only_k pod_evicted [(call_at 6, get_args, WriteBulk "ab")] pod_read.
Proof.
  apply (session_command id "pod" 131072 config1 "users" only_k pod_evicted (call_at 6) (λ _, 6) get_args
    (WriteBulk "ab") pod_read [] pod_read pod_evicted_serves (example_lone 6 ltac:(lia))
    (example_sized get_args "" eq_refl eq_refl) (λ _, pod_evicted_settled) pod_read_eq).
  apply session_end.
Qed.

Lemma example_session : session id "pod" 131072 config1 "users" only_k pod128 example_trace pod_read.
Proof.
  assert (reads set_args → settled 131072 pod128) as Hrd by (intros Hr; by vm_compute in Hr).
  apply (session_command id "pod" 131072 config1 "users" only_k pod128 (call_at 5) (λ _, 5) set_args
    (WriteString "OK") pod_set [(call_at 6, get_args, WriteBulk "ab")] pod_read eq_refl
    (example_lone 5 ltac:(lia)) (example_sized set_args "ab" eq_refl eq_refl) Hrd pod_set_eq).
  exact (session_background _ _ _ _ _ _ _ _ _ _ set_step
    (session_background _ _ _ _ _ _ _ _ _ _ forget_step example_session_read)).
Qed.


(** DEL k after that drain, and a GET before the next one. *)
Definition pod_deleted : pod := (EmbeddedDMap_Delete (call_at 6) "users" "k" pod_drained).2.

Lemma pod_deleted_eq : EmbeddedDMap_Delete (call_at 6) "users" "k" pod_drained = (Done 1, pod_deleted).
Proof.
  assert ((EmbeddedDMap_Delete (call_at 6) "users" "k" pod_drained).1 = Done 1) as H by (vm_compute; reflexivity).
  exact (pair_of_fst _ _ H).
Qed.

Lemma deleted_key_comes_back_witness :
  holds "pod" 131072 "users" only_k 0 pod_deleted (delete "k" {["k" := ("ab", 0)]}) ∧
  ∃ p2, EmbeddedDMap_Get id config1 (call_at 7) "users" "k" pod_deleted = (Done (Done "ab"), p2) ∧
    ∀ p3 k3, o_frag (pod_owner p3) = o_frag (pod_owner p2) → isKeyExpired (k_read k3) 0 = false →
      EmbeddedDMap_Get id config1 k3 "users" "k" p3 = (Done (Done "ab"), p3).
Proof.
  apply (deleted_key_comes_back id "pod" 131072 config1 "users" eq_refl ltac:(discriminate)
    ltac:(vm_compute; discriminate) eq_refl only_k only_k_inj 0 pod_drained {["k" := ("ab", 0)]} "k" "ab"
    0 (call_at 6) (call_at 7) 1 pod_deleted).
  - by apply pod_drained_holds.
  - exact pod_drained_settled.
  - apply (example_sized get_args "" eq_refl eq_refl "k" ""). by left.
  - apply lookup_insert_eq.
  - apply call_at_lone. unfold maxInt64. lia.
  - exact pod_deleted_eq.
  - apply call_at_lone. unfold maxInt64. lia.
  - reflexivity.
  - reflexivity.
  - left. discriminate.
Defined.

Lemma settled_pod_accepts_sets_witness :
  ∃ p', example_command 5 set_args pod128 = (Done (WriteString "OK"), p') ∧
    holds "pod" 131072 "users" only_k 0 p' {["k" := ("ab", 0)]}.
Proof.
  apply (settled_pod_accepts_sets id "pod" 131072 config1 "users" eq_refl ltac:(discriminate) eq_refl
    only_k only_k_inj 0 pod128 ∅ (call_at 5) (λ _, 5) (bytes_of_string "SET") (bytes_of_string "k")
    (bytes_of_string "ab") [] 0).
  - by apply pod128_holds.
  - destruct (hwf_ring _ _ hook128_wf) as (hd&tl&Hr). exists hd, tl. exact Hr.
  - apply call_at_lone. unfold maxInt64. lia.
  - reflexivity.
  - reflexivity.
  - reflexivity.
  - apply (example_sized set_args "ab" eq_refl eq_refl "k" "ab"). by left.
  - reflexivity.
  - reflexivity.
  - reflexivity.
  - by vm_compute.
  - lia.
  - by vm_compute.
  - left. by vm_compute.
  - reflexivity.
  - reflexivity.
  - reflexivity.
Defined.
