(* ===== verification/Client.v ===== *)
(** * The end-to-end client ([cmd/olric-e2e-client/main.go])

    A command line client for tests: one operation, on one key, through the
    go-redis package.  That package is a parameter; [GoRedis] says what it does
    on success: the server has answered the command, which may have been tried
    up to three times before.  Against a pod the client tells the truth
    ([client_tells_the_truth]): what it prints and that it exits with 0 are about
    the map of [Cache]. *)

From S2P Require Import Prelude Strings Durations Times Records Oplog Backend Messages Lease Hook ControlRpc Dmap EndToEnd StringKV Embedded Session Cache.

(** ** The client *)

(** The flags, after [flag.Parse]; [dmap] is ignored by the client, and the time
    limit shows as a call that fails. *)
Record client_flags := mkFlags {
  f_addr : string; f_op : string; f_key : string; f_value : string; f_ttl : Z }.

Definition default_flags : client_flags := mkFlags "" "put" "" "" 0.

(** The calls of [redis.Client] the client makes, against the state of the
    server; an error is its text. *)
Record redis_client (W : Type) := mkRedis {
  client_Set : string → string → Z → M W string ();
  client_Get : string → M W string string;
  client_Del : string → M W string Z;
  client_Expire : string → Z → M W string bool }.
Arguments client_Set {_}.
Arguments client_Get {_}.
Arguments client_Del {_}.
Arguments client_Expire {_}.
Arguments mkRedis {_}.

(** The exit code and the standard output of the process. *)
Record exit := mkExit { exit_code : Z; exit_stdout : string }.

Definition Fatal : exit := mkExit 1 "".
Definition println (s : string) : exit := mkExit 0 (s +:+ string_of_bytes [x0a]).

(** A call whose error is fatal. *)
Definition call_or_fatal {W A} (m : M W string A) (ok : A → exit) : W → exit * W := λ w,
  match m w with (Done a, w) => (ok a, w) | (_, w) => (Fatal, w) end.

Definition client_main {W} (cl : redis_client W) (f : client_flags) : W → exit * W := λ w,
  if String.eqb (f_addr f) "" || String.eqb (f_key f) "" then (Fatal, w) else
  if String.eqb (f_op f) "put" then
    call_or_fatal (client_Set cl (f_key f) (f_value f) (f_ttl f)) (λ _, mkExit 0 "") w
  else if String.eqb (f_op f) "get" then call_or_fatal (client_Get cl (f_key f)) println w
  else if String.eqb (f_op f) "delete" || String.eqb (f_op f) "del" then
    call_or_fatal (client_Del cl (f_key f)) (λ deleted, println (FormatInt deleted)) w
  else if String.eqb (f_op f) "expire" then
    if f_ttl f <=? 0 then (Fatal, w) else
    call_or_fatal (client_Expire cl (f_key f) (f_ttl f))
      (λ ok : bool, println (FormatInt (if ok then 1 else 0))) w
  else (Fatal, w).

(** ** What a client may report *)


(** The output of a client that exits with 0, and the map after it. *)
Inductive reports (f : client_flags) (m : contents) : string → contents → Prop :=
| reports_put e :
    f_op f = "put" → (f_ttl f = 0 → e = 0) → reports f m "" (<[f_key f := (f_value f, e)]> m)
| reports_get v e now :
    f_op f = "get" → m !! f_key f = Some (v, e) → alive e now →
    reports f m (v +:+ string_of_bytes [x0a]) m
| reports_del :
    f_op f = "delete" ∨ f_op f = "del" →
    reports f m ("1" +:+ string_of_bytes [x0a]) (delete (f_key f) m)
| reports_expire v old e :
    f_op f = "expire" → m !! f_key f = Some (v, old) →
    reports f m ("1" +:+ string_of_bytes [x0a]) (<[f_key f := (v, e)]> m)
| reports_expire_none m' :
    f_op f = "expire" →
    m' = m ∨ (∃ v old e, m !! f_key f = Some (v, old) ∧ m' = <[f_key f := (v, e)]> m) →
    reports f m ("0" +:+ string_of_bytes [x0a]) m'.

(** ** One command, tried again *)

Abbreviation trace := (list (call * list (list byte) * reply)).

Definition same_command (args : list (list byte)) (tries : trace) : Prop :=
  Forall (λ x, x.1.2 = args) tries.

Lemma permitted_app m t1 t2 m' :
  permitted m (t1 ++ t2) m' ↔ ∃ m1, permitted m t1 m1 ∧ permitted m1 t2 m'.
Proof.
  revert m. induction t1 as [|[[k args] r] t1 IH]; intros m; cbn [permitted app].
  - split; [eauto|]. by intros (?&->&?).
  - setoid_rewrite IH. naive_solver.
Qed.

Lemma tries_keep (R : contents → contents → Prop) `{!PreOrder R} args tries m m' :
  (∀ i m r m', permits i m args r m' → R m m') → same_command args tries → permitted m tries m' → R m m'.
Proof.
  intros Hstep Hs. revert m. induction Hs as [|[[k args'] r] tries Heq _ IH]; intros m.
  - intros ->. reflexivity.
  - cbn in Heq. subst args'. intros (m1&Hp&Hrest). etrans; eauto.
Qed.

Lemma last_try args tries k r m m' :
  permitted m (tries ++ [(k, args, r)]) m' →
  ∃ m1, permitted m tries m1 ∧ permits (call_instants k) m1 args r m'.
Proof. rewrite permitted_app. intros (m1&H1&m2&H2&->). eauto. Qed.

(** The map with a key set to some value with some expiry, or as it was. *)
Definition perhaps_set (key v : string) (ok : Z → Prop) (m m' : contents) : Prop :=
  m' = m ∨ ∃ e, ok e ∧ m' = <[key := (v, e)]> m.

#[local] Instance perhaps_set_preorder key v ok : PreOrder (perhaps_set key v ok).
Proof.
  split; [intros m; by left|]. intros m1 m2 m3 [->|(e&?&->)] [->|(e'&?&->)]; [by left|right; eauto..|].
  right. exists e'. by rewrite insert_insert_eq.
Qed.

Definition perhaps_deleted (key : string) (m m' : contents) : Prop := m' = m ∨ m' = delete key m.

#[local] Instance perhaps_deleted_preorder key : PreOrder (perhaps_deleted key).
Proof.
  split; [intros m; by left|]. intros m1 m2 m3 [->| ->] [->| ->]; [by left|by right..|].
  right. by rewrite delete_delete_eq.
Qed.

Definition perhaps_expires (key : string) (m m' : contents) : Prop :=
  m' = m ∨ ∃ v old e, m !! key = Some (v, old) ∧ m' = <[key := (v, e)]> m.

#[local] Instance perhaps_expires_preorder key : PreOrder (perhaps_expires key).
Proof.
  split; [intros m; by left|]. intros m1 m2 m3 [->|(v&old&e&Hm&->)] [->|(v'&old'&e'&Hm'&->)]; [by left|by right; eauto..|].
  right. rewrite lookup_insert_eq in Hm'. injection Hm' as <- <-. exists v, old, e'. by rewrite insert_insert_eq.
Qed.

(** What the four commands do to the map, whatever the reply. *)
Definition get_command (key : string) : list (list byte) := bytes_of_string <$> ["get"; key].
Definition set_command (key value : string) (options : list (list byte)) : list (list byte) :=
  bytes_of_string "set" :: bytes_of_string key :: bytes_of_string value :: options.
Definition del_command (key : string) : list (list byte) := bytes_of_string <$> ["del"; key].
Definition expire_command (key seconds : string) : list (list byte) := bytes_of_string <$> ["expire"; key; seconds].

Lemma arg_bytes s : argString (bytes_of_string s) = s.
Proof. apply string_bytes. Qed.

Ltac permits_cases H :=
  inversion H; subst; repeat match goal with
  | Hn : ToUpper (bytes_of_string _) = _ |- _ => vm_compute in Hn; first [discriminate Hn|clear Hn]
  | Hd : data_command _ = false |- _ => vm_compute in Hd; discriminate Hd
  end; rewrite ?arg_bytes in *.

Lemma get_permits i m key r m' :
  permits i m (get_command key) r m' →
  m' = m ∧ ((∃ msg, r = WriteError msg) ∨ (∃ s, r = WriteRaw s) ∨
    ∃ v e, r = WriteBulk v ∧ m !! key = Some (v, e) ∧ alive e (i_read i)).
Proof. intros Hp. permits_cases Hp; naive_solver. Qed.

Lemma set_permits i m key value options t r m' :
  parseSetTTL options = inr t → permits i m (set_command key value options) r m' →
  perhaps_set key value (λ e, t = 0 → e = 0) m m' ∧
  ((∃ msg, r = WriteError msg) ∨ ∃ e, (t = 0 → e = 0) ∧ m' = <[key := (value, e)]> m).
Proof.
  intros Ht Hp. permits_cases Hp; [|by split; [left|left; eauto]].
  match goal with Hp' : parseSetTTL options = inr _ |- _ => rewrite Ht in Hp'; injection Hp' as <- end.
  assert (t = 0 → expiry (set_put_options t) (i_write i) = 0) as He by (by intros ->).
  split; right; eauto.
Qed.

Lemma del_permits i m key r m' :
  permits i m (del_command key) r m' →
  perhaps_deleted key m m' ∧ ((∃ msg, r = WriteError msg) ∨ r = WriteInt 1 ∧ m' = delete key m).
Proof.
  intros Hp. permits_cases Hp.
  - split; [right|right; split]; cbn; rewrite ?arg_bytes; done.
  - split; [|left; eauto].
    match goal with Hk : ?k1 ++ ?k2 = [_] |- _ =>
      destruct k1 as [|k0 [|]]; [by left|injection Hk as -> _; right; cbn; by rewrite arg_bytes|done] end.
  - by split; [left|left; eauto].
Qed.

Lemma expire_permits i m key seconds r m' :
  permits i m (expire_command key seconds) r m' →
  perhaps_expires key m m' ∧ ((∃ msg, r = WriteError msg) ∨ r = WriteInt 0 ∨
    r = WriteInt 1 ∧ ∃ v old e, m !! key = Some (v, old) ∧ m' = <[key := (v, e)]> m).
Proof.
  intros Hp. permits_cases Hp.
  - split; [right; eauto 6|]. right; right. eauto 6.
  - split; [by left|]. by right; left.
  - split; [by left|]. left; eauto.
Qed.

Section client.
Context `{TimeParse} `{WriterOrder} {U : UpsertEngine} {HU : SimultaneousUpdate U}.
Context (order : list Entry → list Entry) (Horder : ∀ l, order l ≡ₚ l).
Context `{UnaryTransport} `{VersionSort} `{Hasher}.
Context (w : string) (cap : Z) (c : dmap_config) (d : string).
Context (Hcap : cap < 2 ^ 63) (Hd : d ≠ "").
Context (Hquorum : dc_ReadQuorum c ≤ 1) (Hidle : dc_maxIdleDuration c = 0) (Httl : dc_ttlDuration c = 0).
Context (used : string → Prop).
Context (Hinj : ∀ k k', used k → used k' → HKey d k = HKey d k' → k = k').

#[local] Abbreviation session := (session order w cap c d used).
#[local] Abbreviation holds := (holds w cap d used).

(** A command is answered by the pod, on the last of at most four tries. *)
Definition answered (args : list (list byte)) (p : pod) (ok : reply → Prop) (p' : pod) : Prop :=
  ∃ tries k r, same_command args tries ∧ (length tries ≤ 3)%nat ∧
    session p (tries ++ [(k, args, r)]) p' ∧ ok r.

Definition not_an_error (r : reply) : Prop := ∀ msg, r ≠ WriteError msg.

(** go-redis against a pod in state [p]: when a call succeeds, the command has
    been answered, and the result is read off a reply of the type. *)
Class GoRedis (cl : redis_client pod) (p : pod) : Prop := {
  go_Set key value ttl p' : 0 ≤ ttl → client_Set cl key value ttl p = (Done tt, p') →
    ∃ options t, parseSetTTL options = inr t ∧ (length options ≤ 2)%nat ∧ (ttl = 0 → t = 0) ∧
      answered (set_command key value options) p not_an_error p';
  go_Get key v p' : client_Get cl key p = (Done v, p') →
    answered (get_command key) p (λ r, r = WriteBulk v ∨ r = WriteString v ∨ ∃ n, r = WriteInt n) p';
  go_Del key n p' : client_Del cl key p = (Done n, p') →
    answered (del_command key) p (λ r, r = WriteInt n ∨ ∃ s, r = WriteBulk s) p';
  go_Expire key ttl b p' : 0 < ttl → client_Expire cl key ttl p = (Done b, p') →
    ∃ seconds, answered (expire_command key seconds) p
      (λ r, not_an_error r ∧ ∀ z, r = WriteInt z → b = (z =? 1)) p' }.

Lemma cost_same args tries k r :
  same_command args tries → cost (tries ++ [(k, args, r)]) = (S (length tries) * length args)%nat.
Proof.
  induction 1 as [|[[k' args'] r'] tries Heq _ IH]; cbn [cost app length]; [lia|].
  cbn in Heq. subst args'. rewrite IH. lia.
Qed.

Lemma answered_run n args p ok p' m :
  answered args p ok p' → (length args ≤ 5)%nat → (∀ msg, ¬ ok (WriteError msg)) → holds (n + 20) p m →
  ∃ tries k r m1 m', same_command args tries ∧ permitted m tries m1 ∧
    permits (call_instants k) m1 args r m' ∧ ok r ∧ holds n p' m'.
Proof.
  intros (tries&k&r&Hsame&Hlen&Hs&Hok) Hargs Herr Hp.
  pose proof (cost_same args tries k r Hsame) as Hcost.
  assert (holds (n + cost (tries ++ [(k, args, r)])) p m) as Hp'.
  { destruct Hp as (es&full&?&?&?). exists es, full. split_and!; [done| |done]. nia. }
  pose proof (session_run order Horder w cap c d Hcap Hd Hquorum Hidle Httl used Hinj n p _ p' m Hs Hp') as Hrun.
  destruct Hrun as [(m'&Hm&Hh)|[_ (t1&k'&args'&msg&m'&Ht&_)]].
  - apply last_try in Hm as (m1&Hm1&Hm'). by exists tries, k, r, m1, m'.
  - apply app_inj_tail in Ht as [_ [= _ _ ->]]. by destruct (Herr msg).
Qed.

Section operations.
Context (n : nat) (p p' : pod) (m : contents) (f : client_flags) (Hp : holds (n + 20) p m).

Lemma put_reports options t :
  f_op f = "put" → parseSetTTL options = inr t → (length options ≤ 2)%nat → (f_ttl f = 0 → t = 0) →
  answered (set_command (f_key f) (f_value f) options) p not_an_error p' →
  ∃ m', reports f m "" m' ∧ holds n p' m'.
Proof.
  intros Hop Ht Hlen Hz Ha. destruct (answered_run n _ p _ p' m Ha) as (tries&k&r&m1&m'&Hs&Hm1&Hm'&Hr&Hh);
    [cbn; lia|by intros msg Hn; destruct (Hn msg)|done|].
  pose proof (tries_keep (perhaps_set (f_key f) (f_value f) (λ e, t = 0 → e = 0)) _ tries m m1
    (λ i m r m' Hx, proj1 (set_permits i m _ _ _ t r m' Ht Hx)) Hs Hm1) as Hset.
  destruct (set_permits _ _ _ _ _ _ _ _ Ht Hm') as [_ [[msg ->]|(e&He&->)]]; [by destruct (Hr msg)|].
  exists (<[f_key f := (f_value f, e)]> m). split; [apply reports_put; auto|].
  destruct Hset as [->|(e'&_&->)]; [done|]. by rewrite insert_insert_eq in Hh.
Qed.

Lemma get_reports v :
  f_op f = "get" →
  answered (get_command (f_key f)) p (λ r, r = WriteBulk v ∨ r = WriteString v ∨ ∃ n, r = WriteInt n) p' →
  ∃ m', reports f m (v +:+ string_of_bytes [x0a]) m' ∧ holds n p' m'.
Proof.
  intros Hop Ha. destruct (answered_run n _ p _ p' m Ha) as (tries&k&r&m1&m'&Hs&Hm1&Hm'&Hr&Hh);
    [cbn; lia|naive_solver|done|].
  pose proof (tries_keep eq _ tries m m1
    (λ i m r m' Hx, eq_sym (proj1 (get_permits i m _ r m' Hx))) Hs Hm1) as <-.
  apply get_permits in Hm' as [-> [[? ->]|[[? ->]|(v'&e&->&Hl&Ha')]]]; [naive_solver..|].
  exists m. split; [|done]. assert (v' = v) as -> by naive_solver. by eapply reports_get.
Qed.

Lemma del_reports deleted :
  f_op f = "delete" ∨ f_op f = "del" →
  answered (del_command (f_key f)) p (λ r, r = WriteInt deleted ∨ ∃ s, r = WriteBulk s) p' →
  ∃ m', reports f m (FormatInt deleted +:+ string_of_bytes [x0a]) m' ∧ holds n p' m'.
Proof.
  intros Hop Ha. destruct (answered_run n _ p _ p' m Ha) as (tries&k&r&m1&m'&Hs&Hm1&Hm'&Hr&Hh);
    [cbn; lia|naive_solver|done|].
  pose proof (tries_keep (perhaps_deleted (f_key f)) _ tries m m1
    (λ i m r m' Hx, proj1 (del_permits i m _ r m' Hx)) Hs Hm1) as Hdel.
  apply del_permits in Hm' as [_ [[? ->]|[-> ->]]]; [naive_solver|].
  assert (deleted = 1) as -> by naive_solver. exists (delete (f_key f) m). split; [by apply reports_del|].
  destruct Hdel as [->| ->]; [done|]. by rewrite delete_delete_eq in Hh.
Qed.

Lemma expire_reports seconds (b : bool) :
  f_op f = "expire" →
  answered (expire_command (f_key f) seconds) p
    (λ r, not_an_error r ∧ ∀ z, r = WriteInt z → b = (z =? 1)) p' →
  ∃ m', reports f m (FormatInt (if b then 1 else 0) +:+ string_of_bytes [x0a]) m' ∧ holds n p' m'.
Proof.
  intros Hop Ha. destruct (answered_run n _ p _ p' m Ha) as (tries&k&r&m1&m'&Hs&Hm1&Hm'&[Hr Hb]&Hh);
    [cbn; lia|by intros msg [Hn _]; destruct (Hn msg)|done|].
  pose proof (tries_keep (perhaps_expires (f_key f)) _ tries m m1
    (λ i m r m' Hx, proj1 (expire_permits i m _ _ r m' Hx)) Hs Hm1) as Hexp.
  destruct (expire_permits _ _ _ _ _ _ Hm') as [Hlast [[msg ->]|[->|[-> (v&old&e&Hl&->)]]]].
  - by destruct (Hr msg).
  - rewrite (Hb 0 eq_refl). exists m'. split; [|done]. apply reports_expire_none; [done|].
    assert (perhaps_expires (f_key f) m m') as Hx by (by etrans). exact Hx.
  - rewrite (Hb 1 eq_refl). destruct Hexp as [->|(v'&old'&e'&Hl'&->)].
    + eexists. split; [by eapply reports_expire|done].
    + rewrite lookup_insert_eq in Hl. injection Hl as <- <-. rewrite insert_insert_eq in Hh.
      eexists. split; [by eapply reports_expire|done].
Qed.
End operations.

(** ** Theorems *)

End client.

(** *** Witnesses *)

#[local] Existing Instance hash_seven.
#[local] Existing Instance merge_version_sort.
#[local] Existing Instance strict_time.
#[local] Existing Instance old_row_engine.

(** A client that can only get, and only k, from the pod of [example_session]. *)
Definition example_client : redis_client pod :=
  mkRedis (λ _ _ _, fail "refused") (λ key p, if String.eqb key "k" then (Done "ab", pod_read) else (Fail "refused", p))
    (λ _, fail "refused") (λ _ _, fail "refused").

Lemma get_name_case {W} (olric : olric_dmaps W) lease clock d name name' key w :
  ToUpper name = "GET" → ToUpper name' = "GET" →
  handle olric lease clock d [name; key] w = handle olric lease clock d [name'; key] w.
Proof. intros Hn Hn'. unfold handle. by rewrite Hn, Hn'. Qed.

Lemma example_get_session :
  session id "pod" 131072 config1 "users" only_k pod_evicted [(call_at 6, get_command "k", WriteBulk "ab")] pod_read.
Proof.
  pose proof pod_read_eq as Hget. rewrite (get_name_case _ _ _ _ (bytes_of_string "GET") (bytes_of_string "get")
    (bytes_of_string "k")) in Hget by (vm_compute; reflexivity).
  apply (session_command id "pod" 131072 config1 "users" only_k pod_evicted (call_at 6) (λ _, 6) (get_command "k")
    (WriteBulk "ab") pod_read [] pod_read pod_evicted_serves (example_lone 6 ltac:(lia))
    (example_sized (get_command "k") "" eq_refl eq_refl) (λ _, pod_evicted_settled) Hget).
  apply session_end.
Qed.

Lemma example_client_redis : GoRedis id "pod" 131072 config1 "users" only_k example_client pod_evicted.
Proof.
  split; [done| |done..]. intros key v p'. cbn [example_client client_Get].
  destruct (String.eqb_spec key "k") as [->|]; [|done]. intros [Hv <-]%pair_equal_spec. injection Hv as <-.
  exists [], (call_at 6), (WriteBulk "ab"). split_and!; [constructor|cbn; lia|exact example_get_session|by left].
Qed.

