(* ===== verification/Node.v ===== *)
(** * The node process ([cmd/olric-node/main.go])

    What a node does with the topology it receives: [olricJoiner.Join] purges
    the sidecar when a new watchdog generation appears and joins the peers of
    the envelope.  The sidecar's [PurgeBelowGeneration] RPC and the Olric
    database's [Join] are arguments.  Also the identity of a writer, the wait
    for the shared files, the reconnecting topology subscription, and the
    settings the process and its database run with. *)

From S2P Require Import Prelude Json Strings Durations Records Messages Lease OplogRing Oplog Backend Sidecar.

(** ** Identity *)

Definition hex_digit (n : Z) : byte := if n <? 10 then byte_of_Z (48 + n) else byte_of_Z (87 + n).

(** [hex.EncodeToString]. *)
Definition EncodeToString (l : list byte) : string :=
  string_of_bytes (l ≫= λ b, [hex_digit (Z_of_byte b / 16); hex_digit (Z_of_byte b mod 16)]).

(** [buf] are the eight random bytes. *)
Definition newWriterID (getenv : env) (buf : list byte) : string :=
  let prefix := envString getenv "NODE_ID" (getenv "POD_NAME") in
  let prefix := if String.eqb prefix "" then "node" else prefix in
  prefix +:+ "-" +:+ EncodeToString buf.

(** [waitForFile]: one element per turn of the loop, with what [os.Stat] says,
    the clock, and whether the context ends during the pause. *)
Inductive wait_result := FilePresent | FileMissing | WaitCancelled.
Fixpoint waitForFile (deadline : Z) (turns : list (bool * Z * bool)) : option wait_result :=
  match turns with
  | [] => None
  | (present, now, cancelled) :: turns =>
    if present then Some FilePresent else
    if deadline <? now then Some FileMissing else
    if cancelled then Some WaitCancelled else waitForFile deadline turns
  end.

(** ** Peers *)

(** The loop of [topologyPeers] with the peers found so far: [seen] in Go is
    the set of the elements of [peers]. *)
Definition add_peer (nodeID : string) (memberlistPort : Z) (peers : list string) (m : Member) :
    list string :=
  if String.eqb (m_NodeId m) "" || String.eqb (m_NodeId m) nodeID then peers else
  let podIP := TrimSpace (m_PodIp m) in
  if String.eqb podIP "" then peers else
  let peer := JoinHostPort podIP (FormatInt memberlistPort) in
  if bool_decide (peer ∈ peers) then peers else peers ++ [peer].

Definition topologyPeers (envelope : TopologyEnvelope) (nodeID : string) (memberlistPort : Z) :
    list string :=
  foldl (add_peer nodeID memberlistPort) [] (env_Members envelope).

(** ** olricJoiner *)

Record olricJoiner := mkJoiner {
  j_db : bool;                     (** [j.db != nil] *)
  j_nodeID : string;
  j_memberlistPort : Z;
  j_purger : bool;                 (** [j.purger != nil] *)
  j_lastPurgedGen : Z }.

Section join.
(** The purge RPC on the state [P] of the sidecar ([None] for an error), and
    whether joining a list of peers succeeds. *)
Context {P : Type} (purge : Z → P → option Z * P) (db_join : list string → bool).

Inductive join_err := ErrJoinPeers (peers : list string).

Definition set_purged (g : Z) (j : olricJoiner) : olricJoiner :=
  mkJoiner (j_db j) (j_nodeID j) (j_memberlistPort j) (j_purger j) g.

Definition Join_purge (envGen : Z) (s : olricJoiner * P) : olricJoiner * P :=
  let '(j, p) := s in
  if j_purger j && (j_lastPurgedGen j <? envGen) then
    let '(answer, p) := purge envGen p in
    match answer with
    | None => (j, p)
    | Some _ => (set_purged envGen j, p)
    end
  else (j, p).

Definition Join (envelope : TopologyEnvelope) : M (olricJoiner * P) join_err () := λ s,
  let s := Join_purge (env_WatchdogGeneration envelope) s in
  let j := s.1 in
  let peers := topologyPeers envelope (j_nodeID j) (j_memberlistPort j) in
  if bool_decide (peers = []) || negb (j_db j) then (Done tt, s) else
  if db_join peers then (Done tt, s) else (Fail (ErrJoinPeers peers), s).
End join.

(** ** The subscription *)

(** [envInt64] has the body of [envInt]. *)
Definition envInt64 (getenv : env) (name : string) (fallback : Z) : Z := envInt getenv name fallback.

(** [runTopologySubscription] starts only with these set, and then with this
    configuration and joiner; [now] is the clock. *)
Definition subscription_enabled (getenv : env) : bool :=
  negb (String.eqb (getenv "STACK_ID") "" || String.eqb (getenv "WATCHDOG_SVC_NAME") ""
        || String.eqb (getenv "POD_IP") "").

Definition joiner_of (getenv : env) (db control : bool) : olricJoiner :=
  mkJoiner db (envString getenv "NODE_ID" (getenv "POD_NAME"))
    (envInt getenv "OLRIC_MEMBERLIST_ADVERTISE_PORT"
       (envInt getenv "OLRIC_ADVERTISE_PORT" (envInt getenv "OLRIC_MEMBERLIST_BIND_PORT" 3322)))
    control 0.

Definition subscriber_config (getenv : env) (now : Z) : SubscriberConfig := {|
  sc_StackID := getenv "STACK_ID";
  sc_NodeID := envString getenv "NODE_ID" (getenv "POD_NAME");
  sc_PodName := getenv "POD_NAME";
  sc_PodIP := getenv "POD_IP";
  sc_Incarnation := envInt64 getenv "NODE_INCARNATION" (i64 now);
  sc_ProtocolVersion := "v2";
  sc_HeartbeatInterval := envDuration getenv "HEARTBEAT_INTERVAL" (10 * 1000000000) |}.

(** One attempt to subscribe: whether the dial, the stream and the first
    heartbeat succeed, and what the stream brings. *)
Record session := mkSession {
  ss_dialed : bool; ss_opened : bool; ss_greeted : bool; ss_events : list stream_event }.

Definition subscribeOnce (c : SubscriberConfig) (x : session) (l : LeaseTracker) :
    list Heartbeat * lease_err * LeaseTracker :=
  if negb (ss_dialed x) then ([], ErrDial, l)
  else Subscriber_Run c (ss_opened x) (ss_greeted x) (ss_events x) l.

(** The reconnecting loop: every error is logged, and the next attempt starts
    on the same lease tracker. *)
Fixpoint subscribe_loop (c : SubscriberConfig) (xs : list session) (l : LeaseTracker) :
    list Heartbeat * LeaseTracker :=
  match xs with
  | [] => ([], l)
  | x :: xs =>
    let '(hbs, _, l) := subscribeOnce c x l in
    let '(hbs', l) := subscribe_loop c xs l in (hbs ++ hbs', l)
  end.

(** [runTopologySubscription] up to the end of the process; [now] is the clock
    at its start. *)
Definition runTopologySubscription (getenv : env) (now : Z) (xs : list session) (l : LeaseTracker) :
    list Heartbeat * LeaseTracker :=
  if negb (subscription_enabled getenv) then ([], l) else
  match NewSubscriber now (subscriber_config getenv now) (Some l) with
  | Done (c, l) => subscribe_loop c xs l
  | _ => ([], l)
  end.

(** ** The embedded database *)

(** What [startOlric] sets of Olric's configuration. *)
Record olricConfig := mkOlricConfig {
  oc_BindAddr : string; oc_BindPort : Z;
  oc_MemberlistAddr : string; oc_MemberlistPort : Z;
  oc_AdvertiseAddr : string; oc_AdvertisePort : Z;
  oc_Peers : list string;
  oc_ReplicaCount : Z; oc_WriteQuorum : Z; oc_ReadQuorum : Z; oc_MemberCountQuorum : Z }.

Definition olric_config (getenv : env) : olricConfig :=
  let addr := envString getenv "OLRIC_BIND_ADDR" "0.0.0.0" in
  let mlPort := envInt getenv "OLRIC_MEMBERLIST_BIND_PORT" 3322 in
  mkOlricConfig addr (envInt getenv "OLRIC_BIND_PORT" 3320)
    (envString getenv "OLRIC_MEMBERLIST_BIND_ADDR" addr) mlPort
    (envString getenv "OLRIC_ADVERTISE_ADDR" (getenv "POD_IP"))
    (envInt getenv "OLRIC_ADVERTISE_PORT" mlPort)
    (envCSV getenv "OLRIC_PEERS")
    (envInt getenv "OLRIC_REPLICA_COUNT" 1) (envInt getenv "OLRIC_WRITE_QUORUM" 1)
    (envInt getenv "OLRIC_READ_QUORUM" 1)
    (i32 (envInt getenv "OLRIC_MEMBER_COUNT_QUORUM" 1)).

(** The paths [main] opens, the address it serves RESP on, and the budget of an
    append. *)
Definition ring_path (getenv : env) : string :=
  envString getenv "RING_PATH" "/var/lib/olricstack/shared/oplog.ring".
Definition socket_path (getenv : env) : string :=
  envString getenv "CONTROL_SOCKET" "/var/lib/olricstack/shared/oplog.sock".
Definition resp_addr (getenv : env) : string :=
  JoinHostPort (envString getenv "RESP_BIND_ADDR" "0.0.0.0")
    (FormatInt (envInt getenv "RESP_BIND_PORT" 3321)).
Definition append_budget (getenv : env) : Z :=
  envDuration getenv "RING_APPEND_BUDGET" (5 * 1000000000).

(** [sidecarPurger]: the RPC of the sidecar, an error as [None]. *)
Definition sidecarPurger (ans : db_answer) (minGeneration : Z) (s : server) : option Z * server :=
  match PurgeBelowGeneration ans (Some minGeneration) s with
  | (Done n, s') => (Some n, s')
  | (_, s') => (None, s')
  end.

(** ** Theorems *)

(** Whether a member is a peer to join. *)
Definition joinable (nodeID : string) (m : Member) : Prop :=
  m_NodeId m ≠ "" ∧ m_NodeId m ≠ nodeID ∧ TrimSpace (m_PodIp m) ≠ "".

Lemma add_peers_spec nodeID port ms peers :
  NoDup peers →
  let peers' := foldl (add_peer nodeID port) peers ms in
  NoDup peers' ∧ ∀ p, p ∈ peers' ↔ p ∈ peers ∨
    ∃ m, m ∈ ms ∧ joinable nodeID m ∧ p = JoinHostPort (TrimSpace (m_PodIp m)) (FormatInt port).
Proof.
  revert peers. induction ms as [|m ms IH]; intros peers Hnd; cbn; [set_solver|].
  destruct (IH (add_peer nodeID port peers m)) as [Hnd' Hin].
  { unfold add_peer. repeat case_match; try done. apply NoDup_app. split_and!; [done| |apply NoDup_singleton].
    bools. intros p Hp. rewrite list_elem_of_singleton. by intros ->. }
  split; [done|]. intros p. rewrite Hin. clear Hin IH.
  assert (p ∈ add_peer nodeID port peers m ↔ p ∈ peers ∨
    (joinable nodeID m ∧ p = JoinHostPort (TrimSpace (m_PodIp m)) (FormatInt port))) as ->.
  { unfold add_peer, joinable.
    destruct (String.eqb_spec (m_NodeId m) ""); [naive_solver|].
    destruct (String.eqb_spec (m_NodeId m) nodeID); [naive_solver|]. cbn [orb].
    destruct (String.eqb_spec (TrimSpace (m_PodIp m)) ""); [naive_solver|].
    case_bool_decide; [naive_solver|]. rewrite elem_of_app, list_elem_of_singleton. naive_solver. }
  setoid_rewrite elem_of_cons. naive_solver.
Qed.

(** The peers a node joins are exactly the addresses of the other members
    that have an id and an address, each once, and never the node's own id. *)
Theorem peers_exact envelope nodeID port :
  NoDup (topologyPeers envelope nodeID port) ∧
  ∀ p, p ∈ topologyPeers envelope nodeID port ↔
    ∃ m, m ∈ env_Members envelope ∧ joinable nodeID m ∧
      p = JoinHostPort (TrimSpace (m_PodIp m)) (FormatInt port).
Proof.
  destruct (add_peers_spec nodeID port (env_Members envelope) []) as [Hnd Hin]; [constructor|].
  split; [done|]. intros p. unfold topologyPeers. rewrite Hin. set_solver.
Qed.

Lemma Join_state {P} (purge : Z → P → option Z * P) db_join envelope s :
  (Join purge db_join envelope s).2 = Join_purge purge (env_WatchdogGeneration envelope) s.
Proof. unfold Join. by repeat case_match. Qed.

(** One attempt, as lease events. *)
Lemma subscribeOnce_events c x l :
  ∃ evs, (subscribeOnce c x l).2 = sub_lease (foldl lease_step (mkSubscription l 0) evs) ∧
    ∀ env t j h, EvEnvelope env t j h ∈ evs → SeEnvelope env t j h ∈ ss_events x.
Proof.
  assert (∃ evs, l = sub_lease (foldl lease_step (mkSubscription l 0) evs) ∧
    ∀ env t j h, EvEnvelope env t j h ∈ evs → SeEnvelope env t j h ∈ ss_events x) as Hnone.
  { exists []. split; [done|]. by intros ???? ?%elem_of_nil. }
  unfold subscribeOnce, Subscriber_Run.
  destruct (ss_dialed x); cbn [negb]; [|exact Hnone].
  destruct (ss_opened x); cbn [negb]; [|exact Hnone].
  destruct (ss_greeted x); cbn [negb]; [|exact Hnone].
  destruct (Run_loop_events c (ss_events x) (mkSubscription l 0)) as (evs&He&Hin).
  destruct (Run_loop c _ _) as [[hbs err] s]. exists evs. split; [|done]. simpl in *. by rewrite He.
Qed.

(** Where the lease of a node comes from, over all attempts. *)
Lemma subscribe_loop_run c xs l t :
  0 ≤ t → let l' := (subscribe_loop c xs l).2 in
  lease_le l l' ∧
  (ServingAllowed t l' = true → l' = l ∨
     ∃ x env t0 j h, x ∈ xs ∧ SeEnvelope env t0 j h ∈ ss_events x ∧
       env_WatchdogRole env = WATCHDOG_ROLE_PRIMARY ∧ UnixMilli t < env_ValidUntilUnixMs env ∧
       l' = accepted env).
Proof.
  intros Ht. cbv zeta. revert l. induction xs as [|x xs IH]; intros l; [split; [done|by left]|].
  cbn [subscribe_loop]. destruct (subscribeOnce_events c x l) as (evs&He&Hin).
  destruct (subscribeOnce c x l) as [[hbs err] l1]. cbn [snd] in He.
  destruct (IH l1) as [Hle Hs]. destruct (subscribe_loop c xs l1) as [hbs' l']. cbn [snd] in *. split.
  - etrans; [|exact Hle]. rewrite He. apply (lease_steps_le (mkSubscription l 0)).
  - intros Hserve. destruct (Hs Hserve) as [->|(x'&env&t0&j&h&?&?)].
    + rewrite He in Hserve |- *. destruct (serving_origin _ _ _ Ht Hserve) as [?|(env&t0&j&h&Hev&?)]; [by left|].
      right. exists x, env, t0, j, h. split; [left|]. split; [by apply Hin|done].
    + right. exists x', env, t0, j, h. split; [by right|done].
Qed.

(** C15: a node serves only while a primary says so, across reconnections.
    However often the topology stream fails to open, breaks or is rejected, the
    fence (generation, epoch) of the node never goes back, and a node that
    started without a lease serves at a moment only if one of the streams
    delivered an envelope of a primary that is valid beyond that moment, and
    under exactly the fence of that envelope. *)
Theorem lease_survives_reconnects getenv now xs l t :
  0 ≤ t → let l' := (runTopologySubscription getenv now xs l).2 in
  lease_le l l' ∧
  (l = NewLeaseTracker → ServingAllowed t l' = true →
     ∃ x env t0 j h, x ∈ xs ∧ SeEnvelope env t0 j h ∈ ss_events x ∧
       env_WatchdogRole env = WATCHDOG_ROLE_PRIMARY ∧ UnixMilli t < env_ValidUntilUnixMs env ∧
       SnapshotForWrite t l' = (env_WatchdogGeneration env, env_Epoch env, true)).
Proof.
  intros Ht. cbv zeta. unfold runTopologySubscription.
  assert (ServingAllowed t NewLeaseTracker = false) as Hno by (by apply (serving_after_revoke t NewLeaseTracker)).
  assert (lease_le l l ∧ (l = NewLeaseTracker → ServingAllowed t l = true → False)) as [Hle Hnone].
  { split; [done|]. intros ->. by rewrite Hno. }
  destruct (subscription_enabled getenv); cbn [negb]; [|split; [done|by intros ? []%Hnone]].
  unfold NewSubscriber. repeat (dcase; [split; [done|by intros ? []%Hnone]|]).
  destruct (subscribe_loop_run (Subscriber_withDefaults now (subscriber_config getenv now)) xs l t Ht)
    as [? Hs]. split; [done|]. intros Hl Hserve.
  set (l' := (subscribe_loop _ _ _).2) in *. change (ServingAllowed t l' = true) in Hserve.
  destruct (Hs Hserve) as [He|(x&env&t0&j&h&?&?&?&?&He)]; [rewrite He in Hserve; by destruct Hnone|].
  exists x, env, t0, j, h. split_and!; [done..|]. rewrite He. unfold SnapshotForWrite. simpl.
  by rewrite (proj2 (Z.leb_gt _ _)) by lia.
Qed.

(** C34: a node that learns of a new watchdog generation erases everything
    durable of the generations before: once its sidecar answers the purge,
    neither the pending set nor the database holds an entry of a lower
    generation, acknowledged and committed ones included, and the purge is not
    repeated for that generation. *)
Theorem new_generation_erases_old_data db_join envelope j s es j' s' :
  server_wf s es → j_purger j = true → j_lastPurgedGen j < env_WatchdogGeneration envelope →
  0 < env_WatchdogGeneration envelope →
  (Join (sidecarPurger db_ok) db_join envelope (j, s)).2 = (j', s') →
  j_lastPurgedGen j' = env_WatchdogGeneration envelope ∧
  srv_db s' = filter (λ '(_, r), env_WatchdogGeneration envelope ≤ rec_Generation r) (srv_db s) ∧
  p_entries (srv_pending s') =
    filter (λ '(_, e), env_WatchdogGeneration envelope ≤ Generation e) (p_entries (srv_pending s)).
Proof.
  intros Hwf Hp Hlt H0. rewrite Join_state. unfold Join_purge. rewrite Hp, (proj2 (Z.ltb_lt _ _) Hlt).
  cbn [andb]. unfold sidecarPurger.
  destruct (purge_run s es _ Hwf H0) as (s1&->&Hpe&Hdb&_). intros [= <- <-]. done.
Qed.

Definition envelope_g2 : TopologyEnvelope :=
  mkEnvelope "stack" [] 1 TOPOLOGY_REASON_EVENT 1000 "watchdog" 2 WATCHDOG_ROLE_PRIMARY.

Lemma new_generation_erases_old_data_witness :
  let s' := (Join (sidecarPurger db_ok) (λ _, true) envelope_g2
               (mkJoiner true "node-0" 3322 true 1, srv1)).2 in
  srv_db s'.2 = filter (λ '(_, r), 2 ≤ rec_Generation r) (srv_db srv1).
Proof.
  exact (proj1 (proj2 (new_generation_erases_old_data (λ _, true) envelope_g2
    (mkJoiner true "node-0" 3322 true 1) srv1 [e1; e2] _ _ srv1_wf eq_refl eq_refl eq_refl
    (surjective_pairing _)))).
Defined.

(** A node whose first attempt fails and whose second one is served. *)
Definition node_env_vars : env := λ n,
  if String.eqb n "STACK_ID" then "s" else if String.eqb n "WATCHDOG_SVC_NAME" then "w:1" else
  if String.eqb n "POD_IP" then "10.0.0.1" else if String.eqb n "POD_NAME" then "n" else "".
Definition two_attempts : list session :=
  [mkSession false true true []; mkSession true true true [SeEnvelope env_g1 0 true false; SeTick]].

Lemma lease_survives_reconnects_witness :
  ServingAllowed 0 (runTopologySubscription node_env_vars 0 two_attempts NewLeaseTracker).2 = true ∧
  ∃ x env t0 j h, x ∈ two_attempts ∧ SeEnvelope env t0 j h ∈ ss_events x ∧
    env_WatchdogRole env = WATCHDOG_ROLE_PRIMARY ∧ UnixMilli 0 < env_ValidUntilUnixMs env ∧
    SnapshotForWrite 0 (runTopologySubscription node_env_vars 0 two_attempts NewLeaseTracker).2 =
    (env_WatchdogGeneration env, env_Epoch env, true).
Proof.
  split; [vm_compute; reflexivity|].
  apply (lease_survives_reconnects node_env_vars 0 two_attempts NewLeaseTracker 0 (Z.le_refl 0));
    [reflexivity|vm_compute; reflexivity].
Defined.
