(* ===== verification/Pod.v ===== *)
(** * A Pod: node and sidecar on one volume
      ([cmd/olric-node/main.go], [cmd/olric-sidecar/main.go], [ring.Create])

    Both containers start together and share a volume with the ring file and
    the control socket.  [volume_states] are the states the volume goes through
    while the sidecar boots, one per system call or memory write that changes
    it; the node waits for both files, opens the ring, dials the sidecar and
    starts.  [node_after] and [OnFatal] are the node's reaction to a write it
    could not log.

    The theorems: a node that saw the socket opens a complete ring, with the
    capacity the sidecar uses; a sidecar killed inside [Create] leaves a file
    no later boot accepts; and a node that could not log a write stops
    admitting writes, until the next envelope of the primary. *)

From S2P Require Import Prelude Json Strings Durations Records Messages Lease OplogRing Oplog Engine Backend Sidecar SidecarMain Hook ControlRpc StringKV Node.

(** ** The volume while the sidecar boots *)

Record volume := mkVolume { v_ring : option (list byte); v_socket : bool }.

(** The states of the file inside [Create]: created or truncated to nothing,
    extended with zeros, and after each write of the header. *)
Definition create_states (capacity : Z) : list (list byte) :=
  let zeros := replicate (Z.to_nat (headerSize + capacity)) x00 in
  let magic_written := splice 0 (le_bytes 4 magic) zeros in
  let version_written := splice 4 (le_bytes 4 version) magic_written in
  let capacity_written := splice 8 (le_bytes 8 capacity) version_written in
  let head_written := splice 16 (le_bytes 8 0) capacity_written in
  [[]; zeros; magic_written; version_written; capacity_written; head_written;
   splice 24 (le_bytes 8 0) head_written].

(** A sidecar that finds an empty volume and boots: the ring is made, the
    rest of the boot leaves the volume alone, and the socket is listened on. *)
Definition volume_states (capacity : Z) : list volume :=
  mkVolume None false :: ((λ f, mkVolume (Some f) false) <$> create_states capacity) ++
  [mkVolume (last (create_states capacity)) true].

(** ** The boot of a node *)

(** How [startOlric] ends: [olric.New] fails, the database has started, its
    [Start] returned, or the context was cancelled. *)
Inductive olric_start := OlricNewFailed | OlricStarted | OlricStartFailed | OlricCancelled.

Definition startOlric (x : olric_start) : bool :=
  match x with OlricStarted => true | _ => false end.

Inductive node_err :=
| ErrWaitRing (r : wait_result) | ErrWaitSocket (r : wait_result)
| ErrOpenProducer (e : ring_err) | ErrDialSidecar (e : transport_err) | ErrCreateHook (e : hook_err)
| ErrStartOlric (x : olric_start) | ErrCreateService (e : kv_err).

(** What the node finds: the polls of the two waits, the operating system's
    answers, the ring file when it opens it, the dial, eight random bytes and
    the start of the database. *)
Record node_world := mkNodeWorld {
  nw_now : Z;
  nw_ring_polls : list (bool * Z * bool);
  nw_socket_now : Z;
  nw_socket_polls : list (bool * Z * bool);
  nw_os : os_answers;
  nw_ring : list byte;
  nw_dials : string → bool;
  nw_random : list byte;
  nw_olric : olric_start }.

(** A running node: its hook (with the lease and the ring) and whether its
    context is cancelled. *)
Record node := mkNode { n_hook : hook; n_cancelled : bool }.

(** [main] up to its bootstrap message; [None] while it still waits.  Every
    error is [log.Fatalf]. *)
Definition node_boot (getenv : env) (x : node_world) : option (outcome node_err node) :=
  r ← waitForFile (nw_now x + 30 * 1000000000) (nw_ring_polls x);
  if negb (if r is FilePresent then true else false) then Some (Fail (ErrWaitRing r)) else
  r ← waitForFile (nw_socket_now x + 30 * 1000000000) (nw_socket_polls x);
  if negb (if r is FilePresent then true else false) then Some (Fail (ErrWaitSocket r)) else
  Some (
    match openMapping (nw_os x) (nw_ring x) with
    | Done capacity =>
      match Dial (nw_dials x) (socket_path getenv) with Fail e => Fail (ErrDialSidecar e) | Panic => Panic | Done _ =>
      match NewDurableHook (Some (capacity, nw_ring x)) (Some NewLeaseTracker)
              (Some NewMemoryFenceSequencer) (newWriterID getenv (nw_random x)) (append_budget getenv) true with
      | Done h =>
        if negb (startOlric (nw_olric x)) then Fail (ErrStartOlric (nw_olric x)) else
        match NewOlricProvider true, NewService true true with
        | Done _, Done _ => Done (mkNode h false)
        | Fail e, _ | _, Fail e => Fail (ErrCreateService e)
        | _, _ => Panic
        end
      | Fail e => Fail (ErrCreateHook e)
      | Panic => Panic
      end
      end
    | Fail e => Fail (ErrOpenProducer e)
    | Panic => Panic
    end).

(** ** A write that cannot be logged *)

(** The [OnFatal] callback: revoke the lease, cancel the context. *)
Definition OnFatal (n : node) : node :=
  mkNode (set_hook_lease (Revoke (h_lease (n_hook n))) (n_hook n)) true.

(** [AfterSet], [AfterDelete] or [AfterExpire] in a running node: the callback
    runs when the hook calls it. *)
Definition node_after (kind : string) (now : Z) (op : DurableOperation) (mutation_failed : bool)
    (waits : list wait) (n : node) : outcome hook_err () * node :=
  let '(r, h) := after kind now op mutation_failed waits (n_hook n) in
  (r, if bool_decide (h_fatal (n_hook n) = None ∧ h_fatal h ≠ None)
      then OnFatal (mkNode h (n_cancelled n)) else mkNode h (n_cancelled n)).

(** An envelope that reaches the node's lease. *)
Definition node_receive (envelope : TopologyEnvelope) (now : Z) (n : node) : node :=
  mkNode (set_hook_lease (Apply envelope now (h_lease (n_hook n))).2 (n_hook n)) (n_cancelled n).

(** ** Lemmas *)

Lemma create_states_last os capacity f :
  0 ≤ capacity ≤ maxInt64 - 71 → Create os capacity = Done f → last (create_states (alignUp capacity)) = Some f.
Proof.
  unfold maxInt64. intros Hc. unfold Create. destruct (Z.ltb_spec capacity minCapacity) as [|Hmin]; [done|].
  change (if capacity mod 8 =? 0 then capacity else u64 (capacity + (8 - capacity mod 8)))
    with (alignUp capacity).
  destruct (alignUp_spec capacity ltac:(lia)) as [Ha _]. unfold minCapacity, headerSize in *.
  rewrite (i64_small (alignUp capacity)), i64_small by (unfold minInt64, maxInt64; lia).
  destruct (open_ok os); [|done]. cbn [negb]. destruct (_ || _); [done|]. destruct (mmap_ok os); [|done].
  intros [= <-]. reflexivity.
Qed.

(** Only the last state of the boot has the socket. *)
Lemma volume_socket capacity k v :
  volume_states capacity !! k = Some v → v_socket v = true → k = 8%nat.
Proof. do 9 (destruct k as [|k]; [cbn; by intros [= <-]|]). done. Qed.

Lemma volume_booted capacity v :
  volume_states capacity !! 8%nat = Some v → v_ring v = last (create_states capacity).
Proof. by intros [= <-]. Qed.

Lemma newWriterID_nonempty getenv buf : newWriterID getenv buf ≠ "".
Proof.
  unfold newWriterID. destruct (if String.eqb _ "" then _ else _) as [|c s]; done.
Qed.

Lemma socket_path_nonempty getenv : socket_path getenv ≠ "".
Proof.
  unfold socket_path, envString. destruct (String.eqb_spec (getenv "CONTROL_SOCKET") ""); done.
Qed.

(** What [openMapping] makes of the files [Create] leaves when it does not
    finish. *)
Lemma unfinished_unopened os capacity f :
  0 < capacity → headerSize + capacity ≤ maxInt64 → f ∈ take 4 (create_states capacity) →
  ∃ e, openMapping os f = Fail e.
Proof.
  intros Hc Hmax Hin. unfold openMapping. destruct (open_ok os); [|by eexists]. cbn [negb].
  assert (zlen (replicate (Z.to_nat (headerSize + capacity)) x00) = headerSize + capacity) as Hz.
  { unfold zlen. rewrite length_replicate. unfold headerSize in *. lia. }
  assert (∀ o n, slice o n (replicate (Z.to_nat (headerSize + capacity)) x00) =
    replicate (length (slice o n (replicate (Z.to_nat (headerSize + capacity)) x00))) x00) as Hzero.
  { intros o n. unfold slice. rewrite drop_replicate, take_replicate, length_replicate. done. }
  assert (headerSize = 64) as Hh by done. unfold create_states in Hin. cbn [take] in Hin.
  repeat (apply elem_of_cons in Hin as [->|Hin]); [by eexists|..|by apply elem_of_nil in Hin];
    rewrite ?zlen_splice, Hz by zl; rewrite (proj2 (Z.ltb_ge _ _)) by lia;
    (destruct (mmap_ok os); [|by eexists]); cbn [negb].
  - rewrite Hzero, le_val_replicate. by eexists.
  - rewrite slice_splice_eq by zl. change (le_val (le_bytes 4 magic) =? magic) with true. cbn [negb].
    rewrite slice_splice_other by zl. rewrite (Hzero 4 4), le_val_replicate. by eexists.
  - rewrite (slice_splice_other _ _ _ 0) by zl. rewrite slice_splice_eq by zl.
    change (le_val (le_bytes 4 magic) =? magic) with true. cbn [negb].
    rewrite slice_splice_eq by zl. change (le_val (le_bytes 4 version) =? version) with true. cbn [negb].
    do 2 rewrite slice_splice_other by zl. rewrite (Hzero 8 8), le_val_replicate.
    change (i64 (headerSize + i64 0)) with 64. rewrite (proj2 (Z.eqb_neq _ _)) by lia. by eexists.
Qed.

(** ** Theorems *)

(** A node opens the complete ring.  The sidecar boots on an empty volume;
    the node polls for the ring file and then for the socket.  Once it saw the
    socket, the file it opens, then or later in the boot, is the one [Create]
    finished: the node boots with the capacity the sidecar has, on an empty
    well-formed ring, and serves nothing until it has a lease. *)
Theorem node_opens_complete_ring os capacity f k k' v v' getenv x :
  0 ≤ capacity ≤ maxInt64 - 71 → Create os capacity = Done f →
  volume_states (alignUp capacity) !! k = Some v → v_socket v = true → (k ≤ k')%nat →
  volume_states (alignUp capacity) !! k' = Some v' → v_ring v' = Some (nw_ring x) →
  waitForFile (nw_now x + 30 * 1000000000) (nw_ring_polls x) = Some FilePresent →
  waitForFile (nw_socket_now x + 30 * 1000000000) (nw_socket_polls x) = Some FilePresent →
  open_ok (nw_os x) = true → mmap_ok (nw_os x) = true → nw_dials x ("unix:" +:+ socket_path getenv) = true → nw_olric x = OlricStarted →
  ∃ n, node_boot getenv x = Some (Done n) ∧ h_ring (n_hook n) = f ∧
    h_capacity (n_hook n) = alignUp capacity ∧ ring_wf (h_capacity (n_hook n)) (h_ring (n_hook n)) 0 0 [] ∧
    ∀ t, 0 ≤ t → ServingAllowed t (h_lease (n_hook n)) = false.
Proof.
  intros Hc Hf Hv Hs Hk Hv' Hr Hw1 Hw2 Ho Hm Hd Hol.
  assert (k' = 8)%nat as ->.
  { apply volume_socket in Hv; [|done]. apply lookup_lt_Some in Hv'. cbn in Hv'. lia. }
  rewrite (volume_booted _ _ Hv'), (create_states_last os capacity f Hc Hf) in Hr. injection Hr as Hr.
  pose proof (Create_wf _ _ _ Hc Hf) as Hwf.
  unfold node_boot. rewrite Hw1. cbn. rewrite Hw2. cbn. rewrite <- Hr.
  rewrite (openMapping_run _ _ _ _ _ _ Ho Hm Hwf (Create_header _ _ _ Hc Hf)). unfold Dial.
  rewrite (proj2 (String.eqb_neq _ _) (socket_path_nonempty getenv)), Hd. cbn.
  rewrite (proj2 (String.eqb_neq _ _) (newWriterID_nonempty getenv (nw_random x))), Hol.
  eexists. split; [done|]. split_and!; [done..|]. intros t Ht.
  exact (serving_after_revoke t NewLeaseTracker Ht).
Qed.

(** A sidecar killed inside [Create] does not come back.  If the process
    dies before the header of the new ring is complete, the file exists, so no
    later boot creates it again, and every later boot on this volume fails to
    open it. *)
Theorem interrupted_create_blocks_boot getenv h capacity f :
  0 < capacity → headerSize + capacity ≤ maxInt64 → f ∈ take 4 (create_states capacity) →
  host_mkdir_ok h = true → host_ring h = Some (Some f) →
  ∃ e, boot getenv h = Fail (ErrOpenRing e).
Proof.
  intros Hc Hmax Hf Hmk Hr. destruct (unfinished_unopened (host_os h) capacity f Hc Hmax Hf) as [e He].
  exists e. unfold boot, boot_ring. rewrite Hmk, Hr. cbn [negb]. by rewrite He.
Qed.

(** C35: an unlogged write stops the node, until the next envelope.  When a
    mutation succeeded and its entry could not be logged, the node's context is
    cancelled and its lease revoked: from then on it admits no write and serves
    no read.  The revocation is not final: an envelope of the primary that
    arrives before the process is gone gives it back a lease, with the unlogged
    value still in memory. *)
Theorem unlogged_write_stops_node kind now op waits n q err n' :
  hook_wf (n_hook n) q → op_ok op kind (h_writerID (n_hook n)) → h_onFatal (n_hook n) = true →
  h_fatal (n_hook n) = None → Forall (λ w, consumer_pops (h_capacity (n_hook n)) (w_ring w)) waits →
  node_after kind now op false waits n = (Fail err, n') →
  n_cancelled n' = true ∧
  (∀ t op', 0 ≤ t → ServingAllowed t (h_lease (n_hook n')) = false ∧
     stamp t op' (n_hook n') = (Fail ErrLeaseExpired, n_hook n')) ∧
  (∀ env t0 t, acceptable env t0 (h_lease (n_hook n')) → UnixMilli t < env_ValidUntilUnixMs env →
     ServingAllowed t (h_lease (n_hook (node_receive env t0 n'))) = true).
Proof.
  intros Hwf Hop Hfat Hnone Hwaits. unfold node_after.
  pose proof (after_run kind now op waits (n_hook n) q Hwf Hop Hfat Hwaits) as Hrun.
  destruct (after kind now op false waits (n_hook n)) as [[[]|e|] h]; try done.
  destruct Hrun as [Hf _]. rewrite bool_decide_eq_true_2 by done. intros [= <- <-].
  split; [done|]. split.
  - intros t op' Ht. pose proof (serving_after_revoke t (h_lease h) Ht) as Hs. split; [done|].
    unfold stamp, SnapshotForWrite. cbn [h_lease n_hook OnFatal set_hook_lease Revoke l_validUntilUnixMs].
    unfold ServingAllowed in Hs. cbn [Revoke l_validUntilUnixMs] in Hs. apply Z.ltb_ge in Hs.
    by rewrite (proj2 (Z.leb_le _ _) Hs).
  - intros env t0 t Hacc Ht. unfold node_receive. cbn [n_hook h_lease set_hook_lease].
    destruct (Apply_run env t0 (h_lease (n_hook (OnFatal (mkNode h (n_cancelled n)))))) as [[_ ->]|[Hno _]]; [|done].
    cbn. by apply Z.ltb_lt.
Qed.

(** *** Witnesses *)

Definition booted_world : node_world :=
  mkNodeWorld 0 [(false, 1, false); (true, 2, false)] 2 [(true, 3, false)] os_fine ring4k (λ _, true)
    (replicate 8 x00) OlricStarted.


Lemma node_opens_complete_ring_witness :
  ∃ n, node_boot (λ _, "") booted_world = Some (Done n) ∧ h_ring (n_hook n) = ring4k ∧
    h_capacity (n_hook n) = 4096 ∧ ring_wf (h_capacity (n_hook n)) (h_ring (n_hook n)) 0 0 [] ∧
    ∀ t, 0 ≤ t → ServingAllowed t (h_lease (n_hook n)) = false.
Proof.
  apply (node_opens_complete_ring os_fine 4096 ring4k 8 8 (mkVolume (last (create_states 4096)) true)
    (mkVolume (last (create_states 4096)) true) (λ _, "") booted_world); try reflexivity.
  - unfold maxInt64. lia.
Defined.

Lemma interrupted_create_blocks_boot_witness :
  ∃ e, boot dsn_env (restart_host []) = Fail (ErrOpenRing e).
Proof.
  apply (interrupted_create_blocks_boot dsn_env (restart_host []) 4096 []); try reflexivity.
  - unfold headerSize, maxInt64. lia.
  - left.
Defined.

(** A write stamped under the epoch before the one the sequencer is in. *)
Definition late_op : DurableOperation := mkOp "users" "k" 7 (Some se_sample) 3 1.
Definition late_node : node :=
  mkNode (mkHook lease_live (mkSeq 3 2 1) 4096 ring4k "pod" 1000000 true None) false.
Definition late_run : outcome hook_err () * node := node_after OpSet 0 late_op false [] late_node.
Definition renewal : TopologyEnvelope := mkEnvelope "s" [] 2 1 2000 "w" 3 WATCHDOG_ROLE_PRIMARY.

Lemma late_wf : hook_wf (n_hook late_node) [].
Proof. split; [exists 0, 0; exact ring4k_wf|by exists (2 ^ 52)|by vm_compute|done]. Qed.

Lemma late_op_ok : op_ok late_op OpSet "pod".
Proof.
  split; [done|done|by vm_compute|done| |vm_compute; discriminate].
  intros x [= <-]. repeat split; vm_compute; discriminate.
Qed.

Lemma late_failed : late_run.1 = Fail ErrOwnerSequenceRollback.
Proof. vm_compute. reflexivity. Qed.

Lemma unlogged_write_stops_node_witness :
  n_cancelled late_run.2 = true ∧ ServingAllowed 0 (h_lease (n_hook late_run.2)) = false ∧
  ServingAllowed 1 (h_lease (n_hook (node_receive renewal 0 late_run.2))) = true.
Proof.
  destruct (unlogged_write_stops_node OpSet 0 late_op [] late_node [] ErrOwnerSequenceRollback late_run.2
    late_wf late_op_ok eq_refl eq_refl (Forall_nil_2 _) (pair_of_fst late_run _ late_failed)) as (Hc&Hs&Hr).
  split; [exact Hc|]. split; [exact (proj1 (Hs 0 late_op (Z.le_refl 0)))|].
  apply (Hr renewal 0 1); [|vm_compute; reflexivity].
  split; [reflexivity|]. split; [vm_compute; reflexivity|].
  right. split; vm_compute; [reflexivity|discriminate].
Defined.
