(* ===== verification/PodExit.v ===== *)
(** * The end of a Pod
      ([internal/ring/ring.go] mapping, [cmd/olric-node/main.go] after the
       bootstrap, [stringkv.ServeRESP])

    When the context of a node is cancelled, three things go on at once:
    [ServeRESP] drains the connections, the handlers in flight finish their
    commands, and [main] returns through its deferred calls: the database is
    shut down, the control connection closed, the ring unmapped, and the
    process exits.  [exit_step] interleaves them with the consumer of the
    sidecar, which is another process and goes on.

    The theorems: however the end is interleaved, the ring keeps every entry
    whose append returned; [main] does not wait for [ServeRESP], so the process
    may exit, or fault on the unmapped ring, with commands in flight; and a
    write that is acknowledged after the sidecar drained for the last time
    stays in the ring, where nothing reads it any more. *)

From S2P Require Import Prelude Json Strings Durations Records Messages Lease OplogRing Oplog Engine Backend Sidecar SidecarSteps SidecarMain SidecarProcess Hook StringKV Node Pod.

(** ** The mapping of a ring file *)

(** [mp_data] and [mp_file]: the fields are not nil. *)
Record mapping := mkMapping { mp_data : bool; mp_file : bool; mp_capacity : Z }.

Inductive close_err := ErrMunmap | ErrFileClose.

(** The arguments are the answers of [Munmap] and [file.Close]. *)
Definition mapping_close (munmap_ok close_ok : bool) (m : option mapping) : option close_err * option mapping :=
  match m with
  | None => (None, None)
  | Some m =>
    let firstErr := if mp_data m && negb munmap_ok then Some ErrMunmap else None in
    let firstErr := if mp_file m && negb close_ok
                    then (if firstErr is Some e then Some e else Some ErrFileClose) else firstErr in
    (firstErr, Some (mkMapping false false (mp_capacity m)))
  end.

Definition OpenProducer (os : os_answers) (f : list byte) : outcome ring_err mapping :=
  match openMapping os f with
  | Done capacity => Done (mkMapping true true capacity)
  | Fail e => Fail e
  | Panic => Panic
  end.

(** [Append] checks the size of the payload before it touches the mapping; the
    cursors of an unmapped file are not there to be read. *)
Definition Producer_Append (m : mapping) (payload : list byte) : M (list byte) ring_err () := λ f,
  if mp_data m then Append (mp_capacity m) payload f else
  match Append (mp_capacity m) payload f with
  | (Fail ErrPayloadTooLarge, _) => (Fail ErrPayloadTooLarge, f)
  | _ => (Panic, f)
  end.

(** ** The end of a node *)

(** [main]: waiting for its context, or at the deferred call it runs next. *)
Inductive main_pc := MServing | MOlricShutdown | MControlClose | MRingClose | MStop | MExited.

Record exit_sys := mkExit {
  ex_cancelled : bool;
  ex_resp : resp_state;
  ex_map : mapping;
  ex_file : list byte;
  ex_main : main_pc;
  ex_fault : bool;                   (** the process died of a fault *)
  ex_acked : list (list byte);
  ex_popped : list (list byte) }.

Definition set_main (pc : main_pc) (x : exit_sys) : exit_sys :=
  mkExit (ex_cancelled x) (ex_resp x) (ex_map x) (ex_file x) pc (ex_fault x) (ex_acked x) (ex_popped x).
Definition set_exit_ring (f : list byte) (acked popped : list (list byte)) (x : exit_sys) : exit_sys :=
  mkExit (ex_cancelled x) (ex_resp x) (ex_map x) f (ex_main x) (ex_fault x) acked popped.

Definition alive (x : exit_sys) : Prop := ex_main x ≠ MExited ∧ ex_fault x = false.

(** The deferred calls of [main], the last one first; [db.Shutdown] stops the
    listeners and timers of the database and leaves the callers of its embedded
    client alone. *)
Definition main_step (munmap_ok close_ok : bool) (x : exit_sys) : exit_sys :=
  match ex_main x with
  | MServing => if ex_cancelled x then set_main MOlricShutdown x else x
  | MOlricShutdown => set_main MControlClose x
  | MControlClose => set_main MRingClose x
  | MRingClose =>
    mkExit (ex_cancelled x) (ex_resp x)
      (default (ex_map x) (mapping_close munmap_ok close_ok (Some (ex_map x))).2)
      (ex_file x) MStop (ex_fault x) (ex_acked x) (ex_popped x)
  | MStop => set_main MExited x
  | MExited => x
  end.

(** The append of a handler. *)
Definition append_step (payload : list byte) (x : exit_sys) : exit_sys :=
  match Producer_Append (ex_map x) payload (ex_file x) with
  | (Done _, f) => set_exit_ring f (ex_acked x ++ [payload]) (ex_popped x) x
  | (Fail _, f) => set_exit_ring f (ex_acked x) (ex_popped x) x
  | (Panic, f) =>
    mkExit (ex_cancelled x) (ex_resp x) (ex_map x) f (ex_main x) true (ex_acked x) (ex_popped x)
  end.

(** The consumer of the sidecar. *)
Definition pop_step (x : exit_sys) : exit_sys :=
  match Pop 2 (mp_capacity (ex_map x)) (ex_file x) with
  | (Done (Some payload), f) => set_exit_ring f (ex_acked x) (ex_popped x ++ [payload]) x
  | (_, f) => set_exit_ring f (ex_acked x) (ex_popped x) x
  end.

Inductive exit_step : exit_sys → exit_sys → Prop :=
| exit_cancel x :
    alive x → exit_step x (mkExit true (ex_resp x) (ex_map x) (ex_file x) (ex_main x) (ex_fault x)
                             (ex_acked x) (ex_popped x))
| exit_serve x r :
    alive x → resp_step (ex_resp x) r →
    (rs_stopping r = true → rs_stopping (ex_resp x) = true ∨ ex_cancelled x = true) →
    exit_step x (mkExit (ex_cancelled x) r (ex_map x) (ex_file x) (ex_main x) (ex_fault x)
                   (ex_acked x) (ex_popped x))
| exit_append x payload :
    alive x → (0 < rs_inflight (ex_resp x))%nat → zlen payload ≤ maxPayload →
    exit_step x (append_step payload x)
| exit_main x munmap_ok close_ok : alive x → exit_step x (main_step munmap_ok close_ok x)
| exit_pop x : exit_step x (pop_step x).

(** A node that serves on the ring [f]. *)
Definition exit_init (capacity : Z) (f : list byte) (q : list (list byte)) : exit_sys :=
  mkExit false resp_init (mkMapping true true capacity) f MServing false q [].

(** ** The invariant *)

Record exit_inv (capacity : Z) (x : exit_sys) : Prop := {
  ei_capacity : mp_capacity (ex_map x) = capacity;
  ei_ring : ∃ H T q, ring_wf capacity (ex_file x) H T q ∧ ex_acked x = ex_popped x ++ q;
  ei_mapped : mp_data (ex_map x) = false → ex_main x = MStop ∨ ex_main x = MExited;
  ei_fault : ex_fault x = true → ex_main x = MStop;
  ei_main : ex_main x ≠ MServing → ex_cancelled x = true;
  ei_resp : resp_inv (ex_resp x);
  ei_stopping : rs_stopping (ex_resp x) = true → ex_cancelled x = true }.

Section inv.
Context (capacity : Z) (Hdiv : (capacity | 2 ^ 64)).

Lemma exit_inv_init f H T q :
  ring_wf capacity f H T q → exit_inv capacity (exit_init capacity f q).
Proof. intros Hwf. split; try done. by exists H, T, q. Qed.

Lemma exit_inv_append payload x :
  exit_inv capacity x → alive x → zlen payload ≤ maxPayload → exit_inv capacity (append_step payload x).
Proof.
  intros [Hc (H&T&q&Hwf&Hq) Hm Hf Hmain Hr Hs] [Hne Hnf] Hp. unfold append_step, Producer_Append.
  pose proof (Append_refines _ _ _ _ _ payload Hwf Hp (or_introl Hdiv)) as Ha. rewrite Hc.
  destruct (mp_data (ex_map x)) eqn:Hd.
  - destruct (Append capacity payload (ex_file x)) as [[[]|[]|] f]; try done; destruct Ha as [Ha _];
      split; cbn; subst; eauto; try congruence.
    do 3 eexists. split; [done|]. by rewrite Hq, app_assoc.
  - destruct (Append capacity payload (ex_file x)) as [[[]|[]|] f]; try done;
      split; cbn; eauto; try congruence; destruct (Hm eq_refl); naive_solver.
Qed.

Lemma exit_inv_pop x : exit_inv capacity x → exit_inv capacity (pop_step x).
Proof.
  intros [Hc (H&T&q&Hwf&Hq) Hm Hf Hmain Hr Hs]. unfold pop_step. rewrite Hc.
  pose proof (Pop_run _ _ _ _ _ 2 Hwf ltac:(lia)) as Hpop. destruct q as [|payload q].
  - destruct Hpop as [_ ->]. split; cbn; eauto 10.
  - destruct Hpop as (f&H'&->&Hwf'). split; cbn; try done. exists H', T, q. split; [done|].
    by rewrite Hq, <-app_assoc.
Qed.

Lemma exit_inv_main munmap_ok close_ok x :
  exit_inv capacity x → alive x → exit_inv capacity (main_step munmap_ok close_ok x).
Proof.
  intros [Hc Hw Hm Hf Hmain Hr Hs] [Hne Hnf]. unfold main_step.
  destruct (ex_main x) eqn:E; [destruct (ex_cancelled x) eqn:Ec|..]; split; cbn; auto; try congruence.
  all: try (intros Hd; destruct (Hm Hd); congruence).
  all: try (intros Hd; auto; by apply Hmain).
  all: by rewrite Ec.
Qed.

Lemma exit_inv_step x y : exit_inv capacity x → exit_step x y → exit_inv capacity y.
Proof.
  intros Hx Hstep. destruct Hstep as [x Ha|x r Ha Hr Hst|x payload Ha Hi Hp|x m c Ha|x].
  - destruct Hx. split; cbn; auto.
  - destruct Hx as [Hc Hw Hm Hf Hmain Hri Hs]. split; cbn; eauto using resp_inv_step.
    intros Hb. destruct (Hst Hb); auto.
  - by apply exit_inv_append.
  - by apply exit_inv_main.
  - by apply exit_inv_pop.
Qed.

Lemma exit_inv_run x y : exit_inv capacity x → rtc exit_step x y → exit_inv capacity y.
Proof. intros Hx Hrun. induction Hrun; eauto using exit_inv_step. Qed.
End inv.

(** *** A run with a command in flight *)

Section run.
Context (m : mapping) (f : list byte) (a p : list (list byte)).

Lemma run_serve c r r' pc :
  pc ≠ MExited → resp_step r r' → (rs_stopping r' = true → rs_stopping r = true ∨ c = true) →
  exit_step (mkExit c r m f pc false a p) (mkExit c r' m f pc false a p).
Proof. intros Hpc Hr Hs. by apply (exit_serve (mkExit c r m f pc false a p)). Qed.

Lemma run_cancel r pc :
  pc ≠ MExited → exit_step (mkExit false r m f pc false a p) (mkExit true r m f pc false a p).
Proof. intros Hpc. by apply (exit_cancel (mkExit false r m f pc false a p)). Qed.

Lemma run_main r pc :
  pc ≠ MExited →
  exit_step (mkExit true r m f pc false a p) (main_step true true (mkExit true r m f pc false a p)).
Proof. intros Hpc. by apply exit_main. Qed.
End run.

(** The node is cancelled with one command in flight, and [main] has run all
    its deferred calls but the last. *)
Lemma run_unmapped capacity f q :
  rtc exit_step (exit_init capacity f q)
    (mkExit true (mkResp true true 0 0 1 SWaiting) (mkMapping false false capacity) f MStop false q []).
Proof.
  unfold exit_init, resp_init.
  eapply rtc_l; [apply run_serve; [done|apply serve_starts|done]|].
  eapply rtc_l; [apply run_serve; [done|apply handle_load|done]|]. cbn [negb].
  eapply rtc_l; [apply run_serve; [done|apply handle_add|done]|].
  eapply rtc_l; [by apply run_cancel|].
  eapply rtc_l; [apply run_serve; [done|apply shutdown_flag|by right]|].
  eapply rtc_l; [apply run_serve; [done|apply shutdown_barrier|by left]|].
  do 4 (eapply rtc_l; [by apply run_main|];
        unfold main_step, set_main;
        cbn [ex_main ex_cancelled ex_resp ex_map ex_file ex_fault ex_acked ex_popped mapping_close snd default mp_capacity]).
  apply rtc_refl.
Qed.

(** ** Theorems *)

(** The end of a node leaves the ring whole.  However the signal, the drain
    of the connections, the deferred calls of [main], the appends of handlers
    and the pops of the sidecar interleave, until the process exits or faults
    and after that, the ring is well formed and holds, in order, exactly the
    payloads whose append returned and that were not popped.  Nothing stops and
    no handler faults before the context is cancelled. *)
Theorem exit_keeps_ring capacity f H T q x :
  (capacity | 2 ^ 64) → ring_wf capacity f H T q → rtc exit_step (exit_init capacity f q) x →
  (∃ H' T' q', ring_wf capacity (ex_file x) H' T' q' ∧ ex_acked x = ex_popped x ++ q') ∧
  (ex_cancelled x = false → ex_fault x = false ∧ ex_main x = MServing ∧ rs_shutdown (ex_resp x) = SIdle).
Proof.
  intros Hdiv Hwf Hrun. destruct (exit_inv_run _ Hdiv _ _ (exit_inv_init _ _ _ _ _ Hwf) Hrun)
    as [Hc Hw Hm Hf Hmain Hr Hs]. split; [done|]. intros Hcan. rewrite Hcan in *.
  assert (ex_main x = MServing) as Hpc by (destruct (ex_main x); by auto || (discriminate Hmain; done)).
  split_and!; [destruct (ex_fault x); [by rewrite (Hf eq_refl) in Hpc|done]|done|].
  unfold resp_inv in Hr. destruct (rs_shutdown (ex_resp x)) as [| | | |[]]; [done|..];
    exfalso; (discriminate (Hs Hr) || destruct Hr as [Hst _]; discriminate (Hs Hst)).
Qed.

(** [main] does not wait for the drain.  From a serving node with one command
    in flight there are runs in which the process exits while [ServeRESP] is
    inside its grace time and the command is still running, and runs in which
    the command faults on the ring that [main] has unmapped. *)
Theorem exit_interrupts_handlers capacity f H T q payload :
  ring_wf capacity f H T q → (capacity | 2 ^ 64) → zlen payload ≤ maxPayload → entry_size payload ≤ capacity →
  (∃ x, rtc exit_step (exit_init capacity f q) x ∧ ex_main x = MExited ∧
     rs_shutdown (ex_resp x) = SWaiting ∧ rs_inflight (ex_resp x) = 1%nat) ∧
  (∃ x, rtc exit_step (exit_init capacity f q) x ∧ ex_fault x = true ∧ ex_acked x = q).
Proof.
  intros Hwf Hdiv Hp Hsize.
  pose proof (run_unmapped capacity f q) as Hrun. split.
  - eexists. split; [eapply rtc_r; [exact Hrun|by apply run_main]|done].
  - eexists. split; [eapply rtc_r; [exact Hrun|apply (exit_append _ payload); [done|cbn; lia|done]]|].
    unfold append_step, Producer_Append. cbn [ex_map mp_data mp_capacity ex_file].
    pose proof (Append_refines _ _ _ _ _ payload Hwf Hp (or_introl Hdiv)) as Ha.
    destruct (Append capacity payload f) as [[[]|[]|] f']; try done. destruct Ha as [_ Ha]. lia.
Qed.

(** A Pod that starts on a fresh volume. *)
Lemma boot_fresh getenv h s :
  boot getenv h = Done s → host_ring h = Some None →
  Create (host_os h) (ring_capacity getenv) = Done (srv_ring s) ∧
  openMapping (host_os h) (srv_ring s) = Done (srv_capacity s) ∧
  host_db h = Some (srv_db s) ∧ srv_pending s = newPending.
Proof.
  intros Hb Hr. unfold boot, boot_ring in Hb. rewrite Hr in Hb. destruct (host_mkdir_ok h); [|done].
  cbn [negb] in Hb. destruct (Create _ _) as [f| |] eqn:Hf; [|done..].
  destruct (openMapping _ f) as [capacity| |] eqn:Ho; [|done..]. unfold buildBackend in Hb.
  destruct (String.eqb _ _); [done|]. destruct (host_db h) as [db|]; [|done].
  destruct (host_migrate_ok h); [|done]. by injection Hb as <-.
Qed.

Lemma boot_fresh_wf getenv h s :
  boot getenv h = Done s → host_ring h = Some None → 0 ≤ ring_capacity getenv ≤ maxInt64 - 71 →
  ring_wf (srv_capacity s) (srv_ring s) 0 0 [].
Proof.
  intros Hb Hr Hcap. destruct (boot_fresh _ _ _ Hb Hr) as (Hf&Ho&_).
  pose proof (Create_wf _ _ _ Hcap Hf) as Hwf.
  assert (open_ok (host_os h) = true ∧ mmap_ok (host_os h) = true) as [Hop Hm].
  { unfold Create in Hf. repeat case_match; try done; bools; destruct (open_ok _), (mmap_ok _); done. }
  rewrite (openMapping_run _ _ _ _ _ _ Hop Hm Hwf (Create_header _ _ _ Hcap Hf)) in Ho.
  by injection Ho as <-.
Qed.

Section late.
Context `{WriterOrder} {U : UpsertEngine} {HU : SimultaneousUpdate U}.
Context (order : list Entry → list Entry) (Horder : ∀ l, order l ≡ₚ l).
Context (floor : Z).

(** A node whose hook appends to the ring of [s]. *)
Definition attached (n : node) (s : server) : Prop :=
  h_ring (n_hook n) = srv_ring s ∧ h_capacity (n_hook n) = srv_capacity s ∧
  seq_ok (h_seq (n_hook n)) ∧ h_writerID (n_hook n) ≠ "" ∧ h_onFatal (n_hook n) = true.

Lemma attached_after n s kind now op n' :
  attached n s → server_wf s [] → (srv_capacity s | 2 ^ 64) →
  op_ok op kind (h_writerID (n_hook n)) → node_after kind now op false [] n = (Done tt, n') →
  ∃ payload H T, ring_wf (srv_capacity s) (h_ring (n_hook n')) H T [payload] ∧
    Decode payload = Done (wire_entry op kind (seq_triple (h_seq (n_hook n'))) now (h_writerID (n_hook n))).
Proof.
  intros (Hr&Hc&Hseq&Hw&Hfat) [(H0&T0&q&Hq&Hes) _ _] Hdiv Hop Hafter. inversion Hes; subst q.
  assert (hook_wf (n_hook n) []) as Hwf.
  { split; [exists H0, T0; by rewrite Hr, Hc|by rewrite Hc|done..]. }
  pose proof (after_run kind now op [] (n_hook n) [] Hwf Hop Hfat (Forall_nil_2 _)) as Hrun.
  unfold node_after in Hafter. destruct (after kind now op false [] (n_hook n)) as [r h'].
  injection Hafter as -> Hn. destruct Hrun as [Hf (payload&H1&T1&q1&q2&Hnil&Hring&Hdec&_)].
  symmetry in Hnil. apply app_nil in Hnil as [-> ->]. rewrite Hc in Hring.
  rewrite bool_decide_eq_false_2 in Hn by (intros [Hno Hne]; by rewrite Hf in Hne).
  subst n'. cbn. eauto.
Qed.

End late.

(** *** Witnesses *)

Lemma exit_keeps_ring_witness :
  ∃ H' T' q', ring_wf 4096 ring4k H' T' q' ∧ [] = [] ++ q'.
Proof.
  apply (proj1 (exit_keeps_ring 4096 ring4k 0 0 [] _ ltac:(by exists (2 ^ 52)) ring4k_wf
    (run_unmapped 4096 ring4k []))).
Defined.

Lemma exit_interrupts_handlers_witness :
  ∃ x, rtc exit_step (exit_init 4096 ring4k []) x ∧ ex_fault x = true ∧ ex_acked x = [].
Proof.
  apply (proj2 (exit_interrupts_handlers 4096 ring4k 0 0 [] [x61] ring4k_wf ltac:(by exists (2 ^ 52))
    ltac:(vm_compute; discriminate) ltac:(vm_compute; discriminate))).
Defined.

(** The sidecar of [signal_persists_acknowledged], then one more set. *)
Definition stopped : option (Z * list Entry * option server) :=
  sidecar_main (U := old_row_engine) (λ l, l) dsn_env (restart_host (ring_with [e1])) true
    (λ _, true) MainSignal 4 (λ _, db_ok) ([] ++ [late_set]).
Definition stopped_acks : list Entry := if stopped is Some (_, acks, _) then acks else [].
Definition stopped_server : server := if stopped is Some (_, _, Some s) then s else booted.
Definition survivor : node :=
  mkNode (mkHook lease_live (mkSeq 3 2 1) 4096 (srv_ring stopped_server) "pod" 1000000 true None) false.
Definition last_set : outcome hook_err () * node := node_after OpSet 0 sample_op false [] survivor.
Definition next_host : host := mkHost os_fine true (Some None) (Some (srv_db stopped_server)) true.
Definition small_env : env := λ name,
  if String.eqb name "RING_CAPACITY_BYTES" then "4096" else dsn_env name.
Definition next_server : server := if boot small_env next_host is Done s then s else booted.

Lemma row_ge_bool `{WriterOrder} db k f :
  row_ge db k f → from_option (λ r, negb (fence_gt f (record_fence r))) false (db !! k) = true.
Proof. intros (r&->&Hr). cbn. by rewrite Hr. Qed.

Lemma last_set_done : last_set.1 = Done tt.
Proof. vm_compute. reflexivity. Qed.

Lemma last_set_run : node_after OpSet 0 sample_op false [] survivor = (Done tt, last_set.2).
Proof. rewrite <- last_set_done. unfold last_set. apply surjective_pairing. Qed.

