(* ===== verification/Cluster.v ===== *)
(** * Cluster membership in the watchdog ([internal/watchdog/state.go])

    [ClusterState]: what the watchdog knows of the nodes of a stack, the
    lifecycle of each node, and the epoch that numbers membership views.  The
    lifecycle runs on the package looplab/fsm, which is not code of this
    repository: [FsmEngine] states what its documentation says of [Event].
    Loops over the Go map handle every node on its own, so they are maps over
    the nodes here. *)

From S2P Require Import Prelude Records Json Messages.

(** ** The lifecycle *)

Definition nodeEventHeartbeat : string := "heartbeat".
Definition nodeEventSuspect : string := "suspect".
Definition nodeEventExpire : string := "expire".
Definition nodeEventTerminal : string := "terminal".
Definition nodeEventDrain : string := "drain".
Definition nodeEventLeave : string := "leave".
Definition nodeEventRemove : string := "remove".

Definition nodeStateString (state : Z) : string :=
  NodeState_String (if state =? NODE_STATE_UNSPECIFIED then NODE_STATE_READY else state).

Definition nodeStateFromString (state : string) : Z :=
  default NODE_STATE_UNSPECIFIED (NodeState_value state).

(** An event description of the package: name, source states, destination. *)
Definition fsm_desc : Type := string * list string * string.

(** Where an event leads from a state: the last description that applies. *)
Definition fsm_target (descs : list fsm_desc) (event cur : string) : option string :=
  foldl (λ acc '(name, srcs, dst),
           if bool_decide (name = event) && bool_decide (cur ∈ srcs) then Some dst else acc)
        None descs.

(** [FSM.Event] reports whether it returned no error, and the new state: it
    moves to the destination; it fails with [NoTransitionError] when that is
    the current state, and with [InvalidEventError] or [UnknownEventError]
    when no description applies. *)
Class FsmEngine := {
  fsm_event : list fsm_desc → string → string → bool * string;
  fsm_event_spec : ∀ descs cur event,
    fsm_event descs cur event =
    match fsm_target descs event cur with
    | Some dst => if bool_decide (dst = cur) then (false, cur) else (true, dst)
    | None => (false, cur)
    end }.

Definition lifecycle_events : list fsm_desc :=
  let ready := nodeStateString NODE_STATE_READY in
  let joining := nodeStateString NODE_STATE_JOINING in
  let suspect := nodeStateString NODE_STATE_SUSPECT in
  let unreachable := nodeStateString NODE_STATE_UNREACHABLE in
  let draining := nodeStateString NODE_STATE_DRAINING in
  let leaving := nodeStateString NODE_STATE_LEAVING in
  let removed := nodeStateString NODE_STATE_REMOVED in
  [(nodeEventHeartbeat, [joining; ready; suspect; unreachable], ready);
   (nodeEventHeartbeat, [draining], draining);
   (nodeEventHeartbeat, [leaving], leaving);
   (nodeEventHeartbeat, [removed], removed);
   (nodeEventSuspect, [joining; ready], suspect);
   (nodeEventExpire, [joining; ready; suspect; draining; leaving], unreachable);
   (nodeEventTerminal, [joining; ready; suspect; unreachable; draining; leaving], removed);
   (nodeEventDrain, [joining; ready; suspect], draining);
   (nodeEventLeave, [ready; suspect; draining], leaving);
   (nodeEventRemove, [unreachable; leaving; removed], removed)].

(** ** Nodes and observations *)

Record Node := mkNode {
  n_NodeID : string;
  n_PodName : string;
  n_PodIP : string;
  n_Incarnation : Z;
  n_State : Z;
  n_ProtocolVersion : string;
  n_LastHeartbeat : Z;
  n_LastPodSeen : Z;
  n_PodReady : bool;
  n_PodPhase : string;
  n_lifecycle : option string }.   (** the current state of the machine, [None] for [nil] *)

Record PodObservation := mkPod {
  po_PodName : string; po_PodIP : string; po_Ready : bool; po_Phase : string; po_SeenAt : Z }.

Record HeartbeatObservation := mkObs {
  ho_NodeID : string; ho_PodName : string; ho_PodIP : string; ho_Incarnation : Z;
  ho_ReportedState : Z; ho_ProtocolVersion : string; ho_SeenAt : Z }.

Record HeartbeatResult := mkResult { Changed : bool; Stale : bool }.

Record ClusterState := mkCluster { cs_nodes : gmap string Node; cs_epoch : Z }.

Definition NewClusterState : ClusterState := mkCluster ∅ 0.

Definition set_state (state : Z) (current : string) (n : Node) : Node :=
  mkNode (n_NodeID n) (n_PodName n) (n_PodIP n) (n_Incarnation n) state (n_ProtocolVersion n)
    (n_LastHeartbeat n) (n_LastPodSeen n) (n_PodReady n) (n_PodPhase n) (Some current).

Definition setLifecycle (state : Z) (n : Node) : Node :=
  let state := if state =? NODE_STATE_UNSPECIFIED then NODE_STATE_READY else state in
  set_state state (nodeStateString state) n.

Definition ensureLifecycle (n : Node) : Node :=
  match n_lifecycle n with None => setLifecycle (n_State n) n | Some _ => n end.

Section cluster.
Context `{FsmEngine}.

Definition transition (event : string) (n : Node) : bool * Node :=
  let n := ensureLifecycle n in
  let previous := n_State n in
  let '(ok, current) := fsm_event lifecycle_events (default "" (n_lifecycle n)) event in
  if negb ok then (false, n) else
  let state := nodeStateFromString current in
  (negb (state =? previous), set_state state current n).

Definition applyHeartbeatState (state : Z) (n : Node) : bool * Node :=
  let n := ensureLifecycle n in
  let state := if state =? NODE_STATE_UNSPECIFIED then NODE_STATE_READY else state in
  if state =? NODE_STATE_DRAINING then transition nodeEventDrain n else
  if state =? NODE_STATE_LEAVING then transition nodeEventLeave n else
  if state =? NODE_STATE_REMOVED then transition nodeEventRemove n else
  transition nodeEventHeartbeat n.

(** ** Operations of ClusterState *)

(** The fields a heartbeat of a known node overwrites. *)
Definition refresh_node (obs : HeartbeatObservation) (n : Node) : Node :=
  mkNode (n_NodeID n) (ho_PodName obs) (ho_PodIP obs) (ho_Incarnation obs) (n_State n)
    (ho_ProtocolVersion obs) (ho_SeenAt obs) (n_LastPodSeen n) (n_PodReady n) (n_PodPhase n)
    (n_lifecycle n).

(** [clock] is [time.Now()], used when the observation carries no time. *)
Definition ApplyHeartbeat (clock : Z) (obs : HeartbeatObservation) (s : ClusterState) :
    HeartbeatResult * ClusterState :=
  let seen := if IsZero (ho_SeenAt obs) then clock else ho_SeenAt obs in
  let reported := if ho_ReportedState obs =? NODE_STATE_UNSPECIFIED then NODE_STATE_READY
                  else ho_ReportedState obs in
  let obs := mkObs (ho_NodeID obs) (ho_PodName obs) (ho_PodIP obs) (ho_Incarnation obs) reported
               (ho_ProtocolVersion obs) seen in
  match cs_nodes s !! ho_NodeID obs with
  | None =>
    let node := setLifecycle reported
      (mkNode (ho_NodeID obs) (ho_PodName obs) (ho_PodIP obs) (ho_Incarnation obs) 0
         (ho_ProtocolVersion obs) seen zero_time false "" None) in
    (mkResult true false,
     mkCluster (<[ho_NodeID obs := node]> (cs_nodes s)) (i64 (cs_epoch s + 1)))
  | Some node =>
    if ho_Incarnation obs <? n_Incarnation node then (mkResult false true, s) else
    let newIncarnation := n_Incarnation node <? ho_Incarnation obs in
    let changed := newIncarnation || negb (String.eqb (n_PodName node) (ho_PodName obs))
                   || negb (String.eqb (n_PodIP node) (ho_PodIP obs))
                   || negb (String.eqb (n_ProtocolVersion node) (ho_ProtocolVersion obs)) in
    let previousState := n_State node in
    let node := refresh_node obs node in
    let '(transitioned, node) :=
      if newIncarnation then
        let node := setLifecycle reported node in (negb (n_State node =? previousState), node)
      else applyHeartbeatState reported node in
    (mkResult (changed || transitioned) false,
     mkCluster (<[ho_NodeID obs := node]> (cs_nodes s))
       (if changed || transitioned then i64 (cs_epoch s + 1) else cs_epoch s))
  end.

(** The observation of a pod by a unique name or address: the last one of the
    list, as successive assignments to a Go map leave it. *)
Definition observed_by (key : PodObservation → string) (name : string)
    (observations : list PodObservation) : option PodObservation :=
  foldl (λ acc o, if negb (String.eqb (key o) "") && String.eqb (key o) name
                  then Some o else acc) None observations.

Definition observe_node (o : PodObservation) (n : Node) : Node :=
  mkNode (n_NodeID n) (po_PodName o) (n_PodIP n) (n_Incarnation n) (n_State n)
    (n_ProtocolVersion n) (n_LastHeartbeat n) (po_SeenAt o) (po_Ready o) (po_Phase o)
    (n_lifecycle n).

(** What [ApplyPodObservations] does to one node: whether it changed, and the
    node unless it is deleted. *)
Definition apply_pod_to_node (observations : list PodObservation) (expireAfter now : Z) (n : Node) :
    bool * option Node :=
  let obs := match observed_by po_PodName (n_PodName n) observations with
             | Some o => Some o
             | None => if String.eqb (n_PodName n) "" && negb (String.eqb (n_PodIP n) "")
                       then observed_by po_PodIP (n_PodIP n) observations else None
             end in
  match obs with
  | None => if expireAfter <? Sub now (n_LastHeartbeat n) then (true, None) else (false, Some n)
  | Some o =>
    let '(c1, n) := if String.eqb (po_Phase o) "Failed" || String.eqb (po_Phase o) "Succeeded"
                    then transition nodeEventTerminal n else (false, n) in
    let c2 := negb (Bool.eqb (n_PodReady n) (po_Ready o))
              || negb (String.eqb (n_PodPhase n) (po_Phase o))
              || negb (String.eqb (n_PodName n) (po_PodName o)) in
    (c1 || c2, Some (observe_node o n))
  end.

(** Some node of the map satisfies [f]. *)
Definition any_node (f : Node → bool) (m : gmap string Node) : bool :=
  map_fold (λ _ n acc, f n || acc) false m.

Definition ApplyPodObservations (clock : Z) (observations : list PodObservation)
    (expireAfter now : Z) (s : ClusterState) : bool * ClusterState :=
  let now := if IsZero now then clock else now in
  let observations :=
    (λ o, mkPod (po_PodName o) (po_PodIP o) (po_Ready o) (po_Phase o)
            (if IsZero (po_SeenAt o) then now else po_SeenAt o)) <$> observations in
  let changed := any_node (λ n, (apply_pod_to_node observations expireAfter now n).1) (cs_nodes s) in
  let nodes := omap (λ n, (apply_pod_to_node observations expireAfter now n).2) (cs_nodes s) in
  (changed, mkCluster nodes (if changed then i64 (cs_epoch s + 1) else cs_epoch s)).

(** What [PruneExpired] does to one node. *)
Definition prune_node (suspectAfter expireAfter now : Z) (n : Node) : bool * option Node :=
  let sinceHeartbeat := Sub now (n_LastHeartbeat n) in
  if expireAfter <? sinceHeartbeat then
    let '(c1, n) := transition nodeEventExpire n in
    let '(c2, n) := transition nodeEventRemove n in
    (c1 || c2, if n_State n =? NODE_STATE_REMOVED then None else Some n)
  else if suspectAfter <? sinceHeartbeat then
    let '(c, n) := transition nodeEventSuspect n in (c, Some n)
  else (false, Some n).

Definition PruneExpired (clock suspectAfter expireAfter now : Z) (s : ClusterState) :
    bool * ClusterState :=
  let now := if IsZero now then clock else now in
  let changed := any_node (λ n, (prune_node suspectAfter expireAfter now n).1) (cs_nodes s) in
  let nodes := omap (λ n, (prune_node suspectAfter expireAfter now n).2) (cs_nodes s) in
  (changed, mkCluster nodes (if changed then i64 (cs_epoch s + 1) else cs_epoch s)).
End cluster.

Definition member_of (n : Node) : Member :=
  mkMember (n_NodeID n) (n_PodName n) (n_PodIP n) (n_Incarnation n) (n_State n)
    (UnixMilli (n_LastHeartbeat n)).

(** The nodes [Members] lists. *)
Definition is_member (expireAfter now : Z) (n : Node) : bool :=
  negb (expireAfter <? Sub now (n_LastHeartbeat n))
  && negb ((n_State n =? NODE_STATE_REMOVED) || (n_State n =? NODE_STATE_UNREACHABLE)).

Definition member_le (a b : Member) : Prop := string_ltb (m_NodeId b) (m_NodeId a) = false.
#[export] Instance member_le_dec a b : Decision (member_le a b).
Proof. unfold member_le. apply _. Defined.

(** [sort.Slice] by node id; ids are the keys of the map, so the order of
    equal elements does not matter. *)
Definition Members (clock expireAfter now : Z) (s : ClusterState) : list Member * Z :=
  let now := if IsZero now then clock else now in
  (merge_sort member_le
     (member_of <$> filter (λ n, is_member expireAfter now n = true) (map_to_list (cs_nodes s)).*2),
   cs_epoch s).

Definition BumpEpochAtLeast (epoch : Z) (s : ClusterState) : ClusterState :=
  mkCluster (cs_nodes s) (if cs_epoch s <? epoch then epoch else cs_epoch s).

(** ** The invariant *)

(** A node is stored under its id, in a known state or in one a newer
    protocol would add, and its machine is in that state. *)
Definition node_wf (id : string) (n : Node) : Prop :=
  n_NodeID n = id ∧ n_State n ≠ NODE_STATE_UNSPECIFIED ∧ minInt64 ≤ n_State n ≤ maxInt64 ∧
  n_lifecycle n = Some (nodeStateString (n_State n)).

Definition cluster_wf (s : ClusterState) : Prop := map_Forall node_wf (cs_nodes s).

(** The states the protocol declares. *)
Definition declared (state : Z) : Prop := NODE_STATE_JOINING ≤ state ≤ NODE_STATE_REMOVED.

(** How far a node is on its way out of the cluster. *)
Definition exit_rank (state : Z) : Z :=
  if state =? NODE_STATE_DRAINING then 1 else
  if state =? NODE_STATE_LEAVING then 2 else
  if state =? NODE_STATE_REMOVED then 3 else 0.

(** What the other nodes are told of a node; a removed node is not told of. *)
Definition node_view (n : Node) : option (string * string * Z * Z * string) :=
  if n_State n =? NODE_STATE_REMOVED then None
  else Some (n_PodName n, n_PodIP n, n_Incarnation n, n_State n, n_ProtocolVersion n).
Definition view (s : ClusterState) : gmap string (string * string * Z * Z * string) :=
  omap node_view (cs_nodes s).

(** The operations that change a cluster. *)
Inductive cluster_op :=
| OpHeartbeat (clock : Z) (obs : HeartbeatObservation)
| OpPods (clock : Z) (observations : list PodObservation) (expireAfter now : Z)
| OpPrune (clock suspectAfter expireAfter now : Z).

Definition run_op `{FsmEngine} (op : cluster_op) (s : ClusterState) : bool * ClusterState :=
  match op with
  | OpHeartbeat clock obs => let '(r, s') := ApplyHeartbeat clock obs s in (Changed r, s')
  | OpPods clock obs e now => ApplyPodObservations clock obs e now s
  | OpPrune clock su e now => PruneExpired clock su e now s
  end.

(** Heartbeats carry a 32-bit state. *)
Definition op_ok (op : cluster_op) : Prop :=
  match op with
  | OpHeartbeat _ obs => - 2 ^ 31 ≤ ho_ReportedState obs < 2 ^ 31
  | _ => True
  end.

(** ** The machine *)

(** A name that is not a source of any transition does not move. *)
Lemma fsm_target_none descs ev cur :
  forallb (λ d : fsm_desc, forallb (λ s, negb (String.eqb s cur)) d.1.2) descs = true →
  fsm_target descs ev cur = None.
Proof.
  unfold fsm_target. generalize (@None string).
  induction descs as [|[[name srcs] dst] descs IH]; intros acc; simpl; [done|].
  rewrite andb_true_iff. intros [Hs Hd]. rewrite (bool_decide_eq_false_2 (cur ∈ srcs)).
  - rewrite andb_false_r. by apply IH.
  - rewrite forallb_forall in Hs. rewrite list_elem_of_In. intros Hin%Hs.
    by rewrite String.eqb_refl in Hin.
Qed.

(** The number of an undeclared state starts with a digit or a sign. *)
Lemma undeclared_name state (name : string) :
  minInt64 ≤ state ≤ maxInt64 → ¬ declared state → state ≠ NODE_STATE_UNSPECIFIED →
  (∃ rest, name = String.String (Ascii.ascii_of_byte x4e) rest) → nodeStateString state ≠ name.
Proof.
  unfold declared, nodeStateString, NodeState_String. intros Hr Hd H0 [rest ->].
  rewrite (proj2 (Z.eqb_neq _ _) H0).
  destruct (list_find _ _) as [[i [z nm]]|] eqn:Hf.
  - apply list_find_Some in Hf as (Hl&Hz&_). cbn in Hz. subst z. exfalso.
    apply list_elem_of_lookup_2 in Hl. unfold NodeState_names in Hl.
    rewrite !elem_of_cons, elem_of_nil in Hl.
    unfold NODE_STATE_JOINING, NODE_STATE_REMOVED, NODE_STATE_UNSPECIFIED in *.
    destruct_or!; simplify_eq; lia.
  - intros He. apply (f_equal bytes_of_string) in He. rewrite bytes_string in He.
    unfold appendInt in He. unfold minInt64, maxInt64 in Hr.
    destruct (Z.ltb_spec state 0); [by simplify_eq|].
    destruct (digits_spec 20 state) as (Hdig&_&d&l&Hl&_); [lia..|].
    rewrite Hl in Hdig, He. cbn in He. by simplify_eq.
Qed.

Definition node_events : list string :=
  [nodeEventHeartbeat; nodeEventSuspect; nodeEventExpire; nodeEventTerminal; nodeEventDrain;
   nodeEventLeave; nodeEventRemove].

(** Where an event leads from a state. *)
Definition lifecycle_next (ev : string) (state : Z) : Z :=
  if bool_decide (declared state) then
    from_option nodeStateFromString state (fsm_target lifecycle_events ev (nodeStateString state))
  else state.

Lemma declared_cases state : declared state →
  state ∈ [1; 2; 3; 4; 5; 6; 7]%Z.
Proof.
  unfold declared, NODE_STATE_JOINING, NODE_STATE_REMOVED. intros H.
  assert (state = 1 ∨ state = 2 ∨ state = 3 ∨ state = 4 ∨ state = 5 ∨ state = 6 ∨ state = 7) by lia.
  set_solver.
Qed.

(** A boolean fact on the declared states and the events, by enumeration. *)
Lemma enumerate_lifecycle (P : string → Z → bool) ev state :
  forallb (λ e, forallb (P e) [1; 2; 3; 4; 5; 6; 7]) node_events = true →
  ev ∈ node_events → declared state → P ev state = true.
Proof.
  intros Hall Hev%list_elem_of_In Hst%declared_cases%list_elem_of_In.
  rewrite forallb_forall in Hall. specialize (Hall ev Hev). rewrite forallb_forall in Hall. auto.
Qed.

Section lifecycle.
Context `{FsmEngine}.

(** [transition] moves the node by the table, and reports a move. *)
Lemma transition_spec id ev n :
  node_wf id n → ev ∈ node_events →
  let state := lifecycle_next ev (n_State n) in
  transition ev n = (negb (state =? n_State n), set_state state (nodeStateString state) n).
Proof.
  intros (Hid&H0&Hr&Hl) Hev. unfold transition, ensureLifecycle. rewrite Hl.
  rewrite Hl. cbv beta iota delta [default from_option Datatypes.id].
  rewrite fsm_event_spec. unfold lifecycle_next.
  assert (Hset : set_state (n_State n) (nodeStateString (n_State n)) n = n).
  { destruct n; cbn in *; subst; done. }
  destruct (bool_decide_reflect (declared (n_State n))) as [Hd|Hd].
  - pose proof (enumerate_lifecycle (λ e s,
      match fsm_target lifecycle_events e (nodeStateString s) with
      | Some dst =>
        bool_decide (nodeStateString (nodeStateFromString dst) = dst) &&
        Bool.eqb (bool_decide (dst = nodeStateString s)) (nodeStateFromString dst =? s)
      | None => true end) ev (n_State n) eq_refl Hev Hd) as Hc. cbn beta in Hc.
    destruct (fsm_target _ _ _) as [dst|]; cbn [from_option negb]; [|rewrite Z.eqb_refl; cbn; by rewrite Hset].
    apply andb_true_iff in Hc as [Hn He]. apply bool_decide_eq_true in Hn. apply eqb_prop in He.
    rewrite He. destruct (Z.eqb_spec (nodeStateFromString dst) (n_State n)) as [E|E]; cbn [negb].
    + by rewrite E, Hset.
    + by rewrite Hn, (proj2 (Z.eqb_neq _ _) E).
  - rewrite fsm_target_none; [by rewrite Z.eqb_refl, Hset|].
    repeat (apply andb_true_iff; split; [|]); try done;
      apply negb_true_iff, String.eqb_neq, not_eq_sym, undeclared_name; eauto.
Qed.

Lemma lifecycle_next_range ev state :
  ev ∈ node_events → state ≠ NODE_STATE_UNSPECIFIED → minInt64 ≤ state ≤ maxInt64 →
  lifecycle_next ev state ≠ NODE_STATE_UNSPECIFIED ∧
  minInt64 ≤ lifecycle_next ev state ≤ maxInt64 ∧
  (declared state → declared (lifecycle_next ev state)).
Proof.
  intros Hev H0 Hr. destruct (decide (declared state)) as [Hd|Hd].
  - pose proof (enumerate_lifecycle (λ e s, bool_decide (declared (lifecycle_next e s)))
      ev state eq_refl Hev Hd) as Hn. apply bool_decide_eq_true in Hn.
    unfold declared, NODE_STATE_JOINING, NODE_STATE_REMOVED, NODE_STATE_UNSPECIFIED,
      minInt64, maxInt64 in *. lia.
  - unfold lifecycle_next. by rewrite bool_decide_eq_false_2.
Qed.

(** Only [expire] takes a node back from its way out. *)
Lemma lifecycle_next_rank ev state :
  ev ∈ node_events → ev ≠ nodeEventExpire → exit_rank state ≤ exit_rank (lifecycle_next ev state).
Proof.
  intros Hev Hne. destruct (decide (declared state)) as [Hd|Hd].
  - pose proof (enumerate_lifecycle (λ e s, String.eqb e nodeEventExpire ||
      (exit_rank s <=? exit_rank (lifecycle_next e s))) ev state eq_refl Hev Hd) as Hn.
    apply orb_true_iff in Hn as [Hn%String.eqb_eq|Hn]; [done|by apply Z.leb_le].
  - unfold lifecycle_next. by rewrite bool_decide_eq_false_2.
Qed.

(** Expiry followed by removal removes a node from every declared state. *)
Lemma expire_remove state :
  lifecycle_next nodeEventRemove (lifecycle_next nodeEventExpire state) =
  if bool_decide (declared state) then NODE_STATE_REMOVED else state.
Proof.
  destruct (bool_decide_reflect (declared state)) as [Hd|Hd].
  - apply Z.eqb_eq, (enumerate_lifecycle (λ _ s, lifecycle_next nodeEventRemove
      (lifecycle_next nodeEventExpire s) =? NODE_STATE_REMOVED) nodeEventExpire); try done.
    unfold node_events. set_solver.
  - unfold lifecycle_next. rewrite (bool_decide_eq_false_2 (declared state)) by done.
    by rewrite bool_decide_eq_false_2.
Qed.

(** ** One node under one operation *)

(** What every operation guarantees of a node it finds as [n], reports to have
    changed or not as [c] says, and leaves as [o]. *)
Definition node_next (id : string) (n : Node) (c : bool) (o : option Node) : Prop :=
  (∀ n', o = Some n' → node_wf id n' ∧ n_Incarnation n ≤ n_Incarnation n' ∧
     (n_Incarnation n' = n_Incarnation n → exit_rank (n_State n) ≤ exit_rank (n_State n'))) ∧
  (c = false → o ≫= node_view = node_view n).

Lemma node_next_refl id n c : node_wf id n → node_next id n c (Some n).
Proof. intros Hwf. split; [intros n' [= <-]; split_and!; [done|lia|lia]|done]. Qed.

Lemma set_state_wf id ev n :
  node_wf id n → ev ∈ node_events →
  node_wf id (set_state (lifecycle_next ev (n_State n))
                (nodeStateString (lifecycle_next ev (n_State n))) n).
Proof.
  intros (Hid&H0&Hr&Hl) Hev. destruct (lifecycle_next_range ev (n_State n)) as (?&?&_); [done..|].
  unfold node_wf; cbn; tauto.
Qed.

Lemma transition_next id ev n c n' :
  node_wf id n → ev ∈ node_events → ev ≠ nodeEventExpire →
  transition ev n = (c, n') → node_next id n c (Some n').
Proof.
  intros Hwf Hev Hne Ht. rewrite (transition_spec id) in Ht by done. injection Ht as <- <-.
  split.
  - intros n' [= <-]. split; [by apply set_state_wf|]. cbn. split; [lia|].
    intros _. by apply lifecycle_next_rank.
  - intros ->%negb_false_iff%Z.eqb_eq. done.
Qed.

Lemma heartbeat_next id state n c n' :
  node_wf id n → applyHeartbeatState state n = (c, n') → node_next id n c (Some n').
Proof.
  intros Hwf. unfold applyHeartbeatState.
  assert (ensureLifecycle n = n) as ->
    by (destruct Hwf as (_&_&_&Hl); unfold ensureLifecycle; by rewrite Hl).
  repeat case_match; intros Ht; eapply transition_next; eauto; unfold node_events; try set_solver;
    done.
Qed.

Lemma apply_pod_next id observations expireAfter now n :
  node_wf id n → let '(c, o) := apply_pod_to_node observations expireAfter now n in
  node_next id n c o.
Proof.
  intros Hwf. unfold apply_pod_to_node.
  destruct (match observed_by _ _ _ with Some _ => _ | None => _ end) as [o|].
  - assert (Hstep : ∀ c1 n1, node_next id n c1 (Some n1) →
      node_next id n (c1 || (negb (Bool.eqb (n_PodReady n1) (po_Ready o))
        || negb (String.eqb (n_PodPhase n1) (po_Phase o))
        || negb (String.eqb (n_PodName n1) (po_PodName o)))) (Some (observe_node o n1))).
    { intros c1 n1 [Hsome Hview]. split.
      - intros n' [= <-]. destruct (Hsome n1 eq_refl) as (Hw&?&?). by split_and!.
      - intros [-> [_ Hn%negb_false_iff%String.eqb_eq]%orb_false_iff]%orb_false_iff.
        rewrite <- Hview by done. cbn. unfold node_view. cbn. by rewrite Hn. }
    destruct (_ || String.eqb (po_Phase o) _); [|by apply Hstep, node_next_refl].
    destruct (transition _ _) as [c1 n1] eqn:Ht. apply Hstep.
    eapply transition_next; eauto; unfold node_events; try set_solver; done.
  - destruct (_ <? _); [|by apply node_next_refl]. split; done.
Qed.

Lemma prune_next id suspectAfter expireAfter now n :
  node_wf id n → let '(c, o) := prune_node suspectAfter expireAfter now n in node_next id n c o.
Proof.
  intros Hwf. unfold prune_node. destruct (_ <? _).
  - rewrite (transition_spec id) by (done || (unfold node_events; set_solver)).
    rewrite (transition_spec id) by (try apply set_state_wf; try done; unfold node_events; set_solver).
    cbn [set_state n_State]. rewrite expire_remove.
    destruct (bool_decide_reflect (declared (n_State n))) as [Hd|Hd]; cbn [Z.eqb].
    + rewrite Z.eqb_refl. split; [done|].
      intros [He Hr]%orb_false_iff. unfold node_view.
      apply negb_false_iff, Z.eqb_eq in He, Hr. cbn in Hr. by rewrite <- He, <- Hr.
    + case_match eqn:Hrem; [|].
      * apply Z.eqb_eq in Hrem. exfalso. apply Hd. rewrite Hrem. done.
      * unfold lifecycle_next. rewrite bool_decide_eq_false_2 by done.
        split; [intros n' [= <-]|done]. cbn. split; [|lia].
        destruct Hwf as (?&?&?&?). done.
  - destruct (_ <? _); [|by apply node_next_refl].
    destruct (transition _ _) as [c1 n1] eqn:Ht.
    eapply transition_next; eauto; unfold node_events; try set_solver; done.
Qed.

(** ** Whole operations *)

Lemma any_node_false f (m : gmap string Node) id n :
  any_node f m = false → m !! id = Some n → f n = false.
Proof.
  unfold any_node.
  apply (map_fold_weak_ind (λ b m, b = false → m !! id = Some n → f n = false)).
  - by rewrite lookup_empty.
  - intros k n' m' b Hk IH [Hf Hb]%orb_false_iff. rewrite lookup_insert_Some.
    intros [[-> ->]|[_ ?]]; auto.
Qed.

(** Operations that treat every node on its own. *)
Lemma omap_next (f : Node → bool * option Node) s :
  (∀ id n, node_wf id n → node_next id n (f n).1 (f n).2) →
  cluster_wf s →
  let s' := mkCluster (omap (λ n, (f n).2) (cs_nodes s)) 0 in
  cluster_wf s' ∧ (any_node (λ n, (f n).1) (cs_nodes s) = false → view s' = view s) ∧
  ∀ id n n', cs_nodes s !! id = Some n → cs_nodes s' !! id = Some n' →
    n_Incarnation n ≤ n_Incarnation n' ∧
    (n_Incarnation n' = n_Incarnation n → exit_rank (n_State n) ≤ exit_rank (n_State n')).
Proof.
  intros Hf Hwf s'. unfold s', cluster_wf, view; cbn. split_and!.
  - intros id n'. rewrite lookup_omap, bind_Some. intros (n&Hn&Ho).
    destruct (Hf id n) as [Hs _]; [by apply Hwf|]. by apply Hs.
  - intros Hany. apply map_eq. intros id. rewrite !lookup_omap.
    destruct (cs_nodes s !! id) as [n|] eqn:Hn; [|done]. cbn.
    destruct (Hf id n) as [_ Hv]; [by apply Hwf|]. rewrite <- Hv; [done|].
    by apply (any_node_false (λ n, (f n).1)) with (2 := Hn).
  - intros id n n' Hn. rewrite lookup_omap, Hn. cbn. intros Ho.
    destruct (Hf id n) as [Hs _]; [by apply Hwf|]. by apply Hs.
Qed.

Lemma setLifecycle_wf id state n :
  n_NodeID n = id → - 2 ^ 31 ≤ state < 2 ^ 31 → node_wf id (setLifecycle state n).
Proof.
  intros Hid Hr. unfold setLifecycle, node_wf; cbn.
  unfold NODE_STATE_UNSPECIFIED, NODE_STATE_READY, minInt64, maxInt64.
  destruct (Z.eqb_spec state 0); lia || (split_and!; done || lia).
Qed.

Lemma refresh_wf id obs n : node_wf id n → node_wf id (refresh_node obs n).
Proof. done. Qed.

(** One heartbeat on a known node. *)
Lemma heartbeat_known clock obs s n :
  cluster_wf s → - 2 ^ 31 ≤ ho_ReportedState obs < 2 ^ 31 →
  cs_nodes s !! ho_NodeID obs = Some n → n_Incarnation n ≤ ho_Incarnation obs →
  ∃ c n', ApplyHeartbeat clock obs s =
    (mkResult c false, mkCluster (<[ho_NodeID obs := n']> (cs_nodes s))
                         (if c then i64 (cs_epoch s + 1) else cs_epoch s)) ∧
    node_next (ho_NodeID obs) n c (Some n').
Proof.
  intros Hwf Hr Hn Hi. pose proof (Hwf _ _ Hn) as Hnwf. unfold ApplyHeartbeat. cbn.
  rewrite Hn. rewrite (proj2 (Z.ltb_ge _ _)) by lia.
  set (reported := if ho_ReportedState obs =? _ then _ else _).
  assert (- 2 ^ 31 ≤ reported < 2 ^ 31) by
    (unfold reported, NODE_STATE_UNSPECIFIED, NODE_STATE_READY; case_match; lia).
  set (obs' := mkObs _ _ _ _ _ _ _).
  destruct (Z.ltb_spec (n_Incarnation n) (ho_Incarnation obs)) as [Hlt|Hge]; cbn [orb].
  - eexists true, _. split; [done|]. split; [|done]. intros n' [= <-].
    split; [by apply setLifecycle_wf; [apply Hnwf|]|]. cbn. lia.
  - destruct (applyHeartbeatState _ _) as [c n'] eqn:Ha.
    eapply heartbeat_next in Ha as [Hs Hv]; [|by apply refresh_wf].
    eexists _, n'. split; [done|]. split.
    + intros n'' [= <-]. destruct (Hs n' eq_refl) as (Hw&Hinc&Hrank). cbn in Hinc, Hrank.
      split_and!; [done|lia|]. intros He. apply Hrank. lia.
    + intros [[[Hp Hip]%orb_false_iff Hpr]%orb_false_iff Hc]%orb_false_iff.
      rewrite negb_false_iff, String.eqb_eq in Hp, Hip, Hpr.
      rewrite Hv by done. unfold node_view. cbn. rewrite <- Hp, <- Hip, <- Hpr.
      by replace (ho_Incarnation obs) with (n_Incarnation n) by lia.
Qed.

Lemma run_op_next op s c s' :
  cluster_wf s → op_ok op → run_op op s = (c, s') →
  cluster_wf s' ∧ cs_epoch s' = (if c then i64 (cs_epoch s + 1) else cs_epoch s) ∧
  (c = false → view s' = view s) ∧
  ∀ id n n', cs_nodes s !! id = Some n → cs_nodes s' !! id = Some n' →
    n_Incarnation n ≤ n_Incarnation n' ∧
    (n_Incarnation n' = n_Incarnation n → exit_rank (n_State n) ≤ exit_rank (n_State n')).
Proof.
  intros Hwf Hok. destruct op as [clock obs|clock obs e now|clock su e now]; cbn [run_op].
  - destruct (cs_nodes s !! ho_NodeID obs) as [n|] eqn:Hn.
    + destruct (Z.lt_ge_cases (ho_Incarnation obs) (n_Incarnation n)) as [Hlt|Hge].
      * unfold ApplyHeartbeat. cbn. rewrite Hn, (proj2 (Z.ltb_lt _ _) Hlt). intros [= <- <-].
        split_and!; try done. intros id ??? ?. simplify_eq. lia.
      * destruct (heartbeat_known clock obs s n) as (b&n'&->&Hs&Hv); [done..|].
        intros [= <- <-]. split_and!; [| |cbn; intros ->|].
        -- apply map_Forall_insert_2; [by apply Hs|done].
        -- done.
        -- unfold view. cbn. apply map_eq. intros id. rewrite !lookup_omap.
           destruct (decide (id = ho_NodeID obs)) as [->|];
             [rewrite lookup_insert_eq, Hn; by apply Hv|by rewrite lookup_insert_ne by done].
        -- cbn. intros id n1 n2 H1. rewrite lookup_insert_Some. intros [[<- <-]|[_ ?]];
             simplify_eq; [by apply Hs|lia].
    + unfold ApplyHeartbeat. cbn. rewrite Hn. intros [= <- <-]. split_and!; try done.
      * apply map_Forall_insert_2; [|done]. apply setLifecycle_wf; [done|]. cbn in Hok.
        unfold NODE_STATE_UNSPECIFIED, NODE_STATE_READY. case_match; lia.
      * cbn. intros id n1 n2 H1. rewrite lookup_insert_Some. intros [[<- <-]|[_ ?]];
          simplify_eq; lia.
  - unfold ApplyPodObservations. cbv zeta. set (obs' := _ <$> obs). set (now' := if IsZero now then clock else now).
    destruct (omap_next (apply_pod_to_node obs' e now') s) as (?&Hv&?); [|done|].
    { intros id n Hn. pose proof (apply_pod_next id obs' e now' n Hn) as H1.
      by destruct (apply_pod_to_node _ _ _ _). }
    intros [= <- <-]. by split_and!.
  - unfold PruneExpired. cbv zeta. set (now' := if IsZero now then clock else now).
    destruct (omap_next (prune_node su e now') s) as (?&Hv&?); [|done|].
    { intros id n Hn. pose proof (prune_next id su e now' n Hn) as H1.
      by destruct (prune_node _ _ _ _). }
    intros [= <- <-]. by split_and!.
Qed.

End lifecycle.

(** ** The member list *)

#[local] Instance member_le_total : Total member_le.
Proof.
  intros a b. unfold member_le, string_ltb. rewrite <- !not_true_iff_false, !string_ltb_lt.
  rewrite (String.compare_antisym (m_NodeId a)). destruct (String.compare _ _); cbn; auto.
Qed.

#[local] Instance member_le_trans : Transitive member_le.
Proof.
  intros a b c. unfold member_le, string_ltb. rewrite <- !not_true_iff_false, !string_ltb_lt.
  intros Hab Hbc Hca.
  destruct (String.compare (m_NodeId b) (m_NodeId c)) eqn:Hc.
  - apply String.compare_eq_iff in Hc. by rewrite <- Hc in Hca.
  - apply Hab. by eapply string_compare_trans.
  - apply Hbc. rewrite String.compare_antisym, Hc. done.
Qed.

Lemma strict_member_order l :
  StronglySorted member_le l → NoDup (m_NodeId <$> l) →
  StronglySorted (λ a b, string_ltb (m_NodeId a) (m_NodeId b) = true) l.
Proof.
  induction 1 as [|m l Hs IH Hm]; cbn; [constructor|].
  rewrite NoDup_cons. intros [Hni Hnd]. constructor; [by apply IH|].
  rewrite Forall_forall in Hm |- *. intros m' Hm'. specialize (Hm m' Hm').
  unfold member_le, string_ltb in *. apply string_ltb_lt.
  destruct (String.compare (m_NodeId m) (m_NodeId m')) eqn:Hc; [|done|].
  - apply String.compare_eq_iff in Hc. destruct Hni. rewrite Hc. by apply list_elem_of_fmap_2.
  - apply not_true_iff_false in Hm. rewrite string_ltb_lt in Hm. destruct Hm.
    rewrite String.compare_antisym, Hc. done.
Qed.

Lemma member_ids_NoDup P `{∀ n : Node, Decision (P n)} s :
  cluster_wf s →
  NoDup (m_NodeId <$> (member_of <$> filter P (map_to_list (cs_nodes s)).*2)).
Proof.
  intros Hwf. rewrite <- list_fmap_compose.
  assert (Hids : m_NodeId ∘ member_of <$> (map_to_list (cs_nodes s)).*2 =
                 (map_to_list (cs_nodes s)).*1).
  { rewrite <- list_fmap_compose. apply list_fmap_ext. intros i [id n] Hi%list_elem_of_lookup_2.
    apply elem_of_map_to_list in Hi. cbn. by destruct (Hwf _ _ Hi) as (->&_). }
  eapply sublist_NoDup; [apply (NoDup_fst_map_to_list (cs_nodes s))|]. rewrite <- Hids.
  apply fmap_sublist, sublist_filter.
Qed.

(** ** Theorems *)

(** A sequence of operations. *)
Definition run_ops `{FsmEngine} (ops : list cluster_op) (s : ClusterState) : ClusterState :=
  foldl (λ s op, (run_op op s).2) s ops.

(** The machine the documentation describes, for the examples. *)
#[local] Instance table_fsm : FsmEngine := {|
  fsm_event descs cur event :=
    match fsm_target descs event cur with
    | Some dst => if bool_decide (dst = cur) then (false, cur) else (true, dst)
    | None => (false, cur)
    end;
  fsm_event_spec descs cur event := eq_refl |}.

Section theorems.
Context `{FsmEngine}.

(** Epochs number membership views: over any sequence of heartbeats, pod
    observations and reaper passes (short of 2^63 of them) the epoch never
    goes back, and as long as it stands still every node that is not removed
    keeps its identity, address, incarnation, state and version. *)
Theorem epoch_numbers_views ops s :
  cluster_wf s → Forall op_ok ops →
  0 ≤ cs_epoch s → cs_epoch s + Z.of_nat (length ops) ≤ maxInt64 →
  let s' := run_ops ops s in
  cluster_wf s' ∧ cs_epoch s ≤ cs_epoch s' ≤ cs_epoch s + Z.of_nat (length ops) ∧
  (cs_epoch s' = cs_epoch s → view s' = view s).
Proof.
  revert s. induction ops as [|op ops IH]; intros s Hwf Hok H0 Hmax; cbn; [split_and!; done || lia|].
  apply Forall_cons in Hok as [Hop Hok]. cbn [length] in Hmax.
  destruct (run_op op s) as [c s1] eqn:Hrun. cbn.
  destruct (run_op_next op s c s1) as (Hwf1&He&Hv&_); [done..|].
  assert (cs_epoch s1 = if c then cs_epoch s + 1 else cs_epoch s) as He1.
  { rewrite He. destruct c; [|done]. apply i64_small. unfold minInt64. lia. }
  destruct (IH s1) as (Hwf'&Hle&Hv'); [done|done|destruct c; lia..|].
  unfold run_ops in *. split_and!; [done|destruct c; lia..|]. intros Heq.
  destruct c; [lia|]. rewrite Hv', Hv by lia. done.
Qed.

(** C20: a node that announced its exit never comes back under the same
    incarnation: no operation takes a node that stays in the cluster from
    DRAINING, LEAVING or REMOVED back towards service, and incarnations never
    decrease. *)
Theorem exit_is_irrevocable op s s' id n n' :
  cluster_wf s → op_ok op → s' = (run_op op s).2 →
  cs_nodes s !! id = Some n → cs_nodes s' !! id = Some n' →
  n_Incarnation n ≤ n_Incarnation n' ∧
  (n_Incarnation n' = n_Incarnation n → exit_rank (n_State n) ≤ exit_rank (n_State n')).
Proof.
  intros Hwf Hok Hs. destruct (run_op op s) as [c s1] eqn:Hr. cbn in Hs. subst s1.
  destruct (run_op_next op s c s') as (_&_&_&Hn); [done..|]. by apply Hn.
Qed.

(** A reaper pass leaves no silent node in service: of the nodes it
    keeps, those in a declared state were heard of within the expiry, those
    silent for longer than the suspicion time are neither JOINING nor READY,
    and a node heard of within the suspicion time is kept as it was. *)
Theorem reaper_clears_silent_nodes clock suspectAfter expireAfter now s id :
  cluster_wf s → suspectAfter ≤ expireAfter → IsZero now = false →
  let s' := (PruneExpired clock suspectAfter expireAfter now s).2 in
  (∀ n', cs_nodes s' !! id = Some n' → declared (n_State n') →
     Sub now (n_LastHeartbeat n') ≤ expireAfter ∧
     (suspectAfter < Sub now (n_LastHeartbeat n') →
      n_State n' ≠ NODE_STATE_JOINING ∧ n_State n' ≠ NODE_STATE_READY)) ∧
  (∀ n, cs_nodes s !! id = Some n → Sub now (n_LastHeartbeat n) ≤ suspectAfter →
     cs_nodes s' !! id = Some n).
Proof.
  intros Hwf Hse Hnow s'. unfold s', PruneExpired. rewrite Hnow. cbn. split.
  - intros n'. rewrite lookup_omap, bind_Some. intros (n&Hn&Ho) Hd. pose proof (Hwf _ _ Hn) as Hnw.
    unfold prune_node in Ho. destruct (Z.ltb_spec expireAfter (Sub now (n_LastHeartbeat n))) as [He|He].
    + rewrite (transition_spec id) in Ho by (done || (unfold node_events; set_solver)).
      rewrite (transition_spec id) in Ho
        by (try apply set_state_wf; try done; unfold node_events; set_solver).
      cbn in Ho. rewrite expire_remove in Ho.
      destruct (bool_decide_reflect (declared (n_State n))) as [Hdn|Hdn]; [done|].
      case_match; simplify_eq. cbn in Hd. done.
    + destruct (Z.ltb_spec suspectAfter (Sub now (n_LastHeartbeat n))) as [Hs|Hs].
      * rewrite (transition_spec id) in Ho by (done || (unfold node_events; set_solver)).
        cbn in Ho. injection Ho as <-. cbn in Hd |- *. split; [lia|]. intros _.
        destruct (decide (declared (n_State n))) as [Hdn|Hdn];
          [|unfold lifecycle_next in Hd; by rewrite bool_decide_eq_false_2 in Hd by done].
        pose proof (enumerate_lifecycle (λ _ st, let st' := lifecycle_next nodeEventSuspect st in
          negb (st' =? NODE_STATE_JOINING) && negb (st' =? NODE_STATE_READY))
          nodeEventSuspect (n_State n) eq_refl ltac:(unfold node_events; set_solver) Hdn) as Hc.
        cbn beta zeta in Hc. rewrite andb_true_iff, !negb_true_iff, !Z.eqb_neq in Hc. done.
      * cbn in Ho. injection Ho as <-. lia.
  - intros n Hn Hs. rewrite lookup_omap, Hn. cbn. unfold prune_node.
    by rewrite !(proj2 (Z.ltb_ge _ _)) by lia.
Qed.

(** [Members] lists each node heard of within the expiry that is neither
    REMOVED nor UNREACHABLE exactly once, in strictly increasing order of node
    id, whatever the iteration order of the map. *)
Theorem members_exact clock expireAfter now s :
  cluster_wf s → IsZero now = false →
  let '(members, epoch) := Members clock expireAfter now s in
  epoch = cs_epoch s ∧
  StronglySorted (λ a b, string_ltb (m_NodeId a) (m_NodeId b) = true) members ∧
  ∀ m, m ∈ members ↔
    ∃ n, cs_nodes s !! m_NodeId m = Some n ∧ is_member expireAfter now n = true ∧ m = member_of n.
Proof.
  intros Hwf Hnow. unfold Members. rewrite Hnow.
  set (l := member_of <$> _). split; [done|].
  assert (Hin : ∀ m, m ∈ l ↔ ∃ n, cs_nodes s !! m_NodeId m = Some n ∧
            is_member expireAfter now n = true ∧ m = member_of n).
  { intros m. unfold l. rewrite list_elem_of_fmap. split.
    - intros (n&->&[Hm Hn]%list_elem_of_filter). exists n. split_and!; try done. cbn.
      apply list_elem_of_fmap in Hn as ([id n']&->&Hn%elem_of_map_to_list). cbn in *.
      by destruct (Hwf _ _ Hn) as (->&_).
    - intros (n&Hn&Hm&->). exists n. split; [done|]. apply list_elem_of_filter. split; [done|].
      apply list_elem_of_fmap. exists (m_NodeId (member_of n), n).
      by rewrite elem_of_map_to_list. }
  split.
  - apply strict_member_order; [apply StronglySorted_merge_sort; apply _|].
    rewrite merge_sort_Permutation. apply member_ids_NoDup, Hwf.
  - intros m. by rewrite merge_sort_Permutation.
Qed.
End theorems.

(** A cluster of one READY node, and the same node announcing its exit. *)
Definition hb_example (state seen : Z) : HeartbeatObservation :=
  mkObs "node-0" "pod-0" "10.0.0.1" 1 state "v1" seen.
Definition one_node : ClusterState :=
  run_ops [OpHeartbeat 0 (hb_example NODE_STATE_READY 1000)] NewClusterState.

Lemma one_node_wf : cluster_wf one_node.
Proof.
  apply (map_Forall_insert_2 node_wf); [|apply map_Forall_empty].
  repeat split; vm_compute; congruence.
Qed.

Lemma epoch_numbers_views_witness :
  let s' := run_ops [OpHeartbeat 0 (hb_example NODE_STATE_READY 2000)] one_node in
  cs_epoch s' = cs_epoch one_node ∧ view s' = view one_node.
Proof.
  assert (cs_epoch (run_ops [OpHeartbeat 0 (hb_example NODE_STATE_READY 2000)] one_node) =
          cs_epoch one_node) as He by (vm_compute; reflexivity).
  split; [exact He|].
  apply (epoch_numbers_views [OpHeartbeat 0 (hb_example NODE_STATE_READY 2000)] one_node one_node_wf);
    [repeat constructor; vm_compute; congruence|vm_compute; congruence|vm_compute; congruence|exact He].
Defined.

Lemma exit_is_irrevocable_witness :
  let s := run_ops [OpHeartbeat 0 (hb_example NODE_STATE_DRAINING 2000)] NewClusterState in
  let op := OpHeartbeat 0 (hb_example NODE_STATE_READY 3000) in
  ∃ n n', cs_nodes s !! "node-0" = Some n ∧ cs_nodes (run_op op s).2 !! "node-0" = Some n' ∧
          exit_rank (n_State n) ≤ exit_rank (n_State n').
Proof.
  intros s op.
  assert (∃ n, cs_nodes s !! "node-0" = Some n ∧ n_Incarnation n = 1) as (n&Hn&Hi)
    by (eexists; split; vm_compute; reflexivity).
  assert (∃ n', cs_nodes (run_op op s).2 !! "node-0" = Some n' ∧ n_Incarnation n' = 1) as (n'&Hn'&Hi')
    by (eexists; split; vm_compute; reflexivity).
  exists n, n'. split; [exact Hn|]. split; [exact Hn'|].
  apply (exit_is_irrevocable op s (run_op op s).2 "node-0"); try done; [|congruence].
  apply (map_Forall_insert_2 node_wf); [|apply map_Forall_empty].
  repeat split; vm_compute; congruence.
Defined.

Lemma reaper_clears_silent_nodes_witness :
  cs_nodes (PruneExpired 0 20 30 1010 one_node).2 !! "node-0" = cs_nodes one_node !! "node-0".
Proof.
  assert (∃ n, cs_nodes one_node !! "node-0" = Some n ∧ Sub 1010 (n_LastHeartbeat n) ≤ 20) as (n&Hn&Hs)
    by (eexists; split; [vm_compute; reflexivity|vm_compute; congruence]).
  rewrite Hn. apply (reaper_clears_silent_nodes 0 20 30 1010 one_node "node-0" one_node_wf);
    [lia|vm_compute; reflexivity|exact Hn|exact Hs].
Defined.

Lemma members_exact_witness :
  StronglySorted (λ a b, string_ltb (m_NodeId a) (m_NodeId b) = true)
    (Members 0 30 1010 one_node).1.
Proof.
  assert (IsZero 1010 = false) as Hz by (vm_compute; reflexivity).
  exact (proj1 (proj2 (members_exact 0 30 1010 one_node one_node_wf Hz))).
Defined.
