(* ===== verification/EpochStore.v ===== *)
(** * The durable counters ([internal/watchdog/epoch_store.go])

    [ConfigMapEpochStore] keeps the topology epoch and the watchdog generation
    in one Kubernetes ConfigMap that every watchdog replica may write at any
    time.  Its methods are sequences of API calls, [call]; the API server is
    not code of this repository: [ApiServer] states the documented behaviour
    of Get, Create and Update under optimistic concurrency, lost responses and
    arbitrary errors included.  A step relation interleaves any number of
    concurrent callers. *)

From S2P Require Import Prelude Json Strings.

Definition epochKey : string := "topologyEpoch".
Definition generationKey : string := "watchdogGeneration".

(** A ConfigMap: its resource version and its data ([None] for a nil map). *)
Record ConfigMap := mkConfigMap { ResourceVersion : Z; Data : option (gmap string string) }.

(** The errors the code distinguishes. *)
Inductive api_error := NotFound | AlreadyExists | Conflict | OtherError.
Inductive store_err := EApi (e : api_error) | EParse (key : string).

(** A computation that calls the API server. *)
Inductive call (A : Type) :=
| Ret (a : A)
| Get (k : api_error + ConfigMap → call A)
| Create (data : gmap string string) (k : option api_error → call A)
| Update (cm : ConfigMap) (k : option api_error → call A).
Arguments Ret {A} a.
Arguments Get {A} k.
Arguments Create {A} data k.
Arguments Update {A} cm k.

(** The outcome of one pass of a [for] loop. *)
Inductive pass (R : Type) := Continue | Return (r : R).
Arguments Continue {R}.
Arguments Return {R} r.

(** Indexing a Go map of strings, nil or not. *)
Definition data_get (data : option (gmap string string)) (key : string) : string :=
  default "" (default ∅ data !! key).

Definition parseStoredCounter (data : option (gmap string string)) (key : string) :
    store_err + Z :=
  let value := data_get data key in
  if String.eqb value "" then inr 0 else
  match strconv_ParseInt value with
  | Some n => inr n
  | None => inl (EParse key)
  end.

Definition LoadEpoch : call (store_err + Z) :=
  Get (λ answer, match answer with
    | inl NotFound => Ret (inr 0)
    | inl e => Ret (inl (EApi e))
    | inr cm => Ret (parseStoredCounter (Data cm) epochKey)
    end).

(** [SaveEpoch] returns an error or nil. *)
Definition SaveEpoch_created (answer : option api_error) : call (pass (option store_err)) :=
  match answer with
  | Some AlreadyExists => Ret Continue
  | Some e => Ret (Return (Some (EApi e)))
  | None => Ret (Return None)
  end.

Definition SaveEpoch_updated (answer : option api_error) : call (pass (option store_err)) :=
  match answer with
  | Some Conflict => Ret Continue
  | Some e => Ret (Return (Some (EApi e)))
  | None => Ret (Return None)
  end.

Definition SaveEpoch (epoch : Z) : call (pass (option store_err)) :=
  Get (λ answer, match answer with
    | inl NotFound => Create {[ epochKey := FormatInt epoch ]} SaveEpoch_created
    | inl e => Ret (Return (Some (EApi e)))
    | inr cm =>
      match parseStoredCounter (Data cm) epochKey with
      | inl e => Ret (Return (Some e))
      | inr current =>
        if epoch <=? current then Ret (Return None) else
        Update (mkConfigMap (ResourceVersion cm)
                  (Some (<[epochKey := FormatInt epoch]> (default ∅ (Data cm)))))
               SaveEpoch_updated
      end
    end).

(** [NextGeneration] returns an error or the generation. *)
Definition NextGeneration_created (answer : option api_error) : call (pass (store_err + Z)) :=
  match answer with
  | Some AlreadyExists => Ret Continue
  | Some e => Ret (Return (inl (EApi e)))
  | None => Ret (Return (inr 1))
  end.

Definition NextGeneration_updated (next : Z) (answer : option api_error) :
    call (pass (store_err + Z)) :=
  match answer with
  | Some Conflict => Ret Continue
  | Some e => Ret (Return (inl (EApi e)))
  | None => Ret (Return (inr next))
  end.

Definition next_generation (current : Z) : Z :=
  let next := i64 (current + 1) in if next <=? 0 then 1 else next.

Definition NextGeneration : call (pass (store_err + Z)) :=
  Get (λ answer, match answer with
    | inl NotFound => Create {[ generationKey := "1" ]} NextGeneration_created
    | inl e => Ret (Return (inl (EApi e)))
    | inr cm =>
      match parseStoredCounter (Data cm) generationKey with
      | inl e => Ret (Return (inl e))
      | inr current =>
        let next := next_generation current in
        Update (mkConfigMap (ResourceVersion cm)
                  (Some (<[generationKey := FormatInt next]> (default ∅ (Data cm)))))
               (NextGeneration_updated next)
      end
    end).

(** ** The API server *)

(** What the documentation of the Kubernetes API says of one object that
    nobody deletes.  [used] are the resource versions handed out so far; a
    write hands out a new one.  A call may fail without effect, and a write
    may take effect although its response is lost. *)
Class ApiServer := {
  server : Type;
  slot : server → option ConfigMap;
  used : server → Z → Prop;
  api_get : server → api_error + ConfigMap → server → Prop;
  api_create : gmap string string → server → option api_error → server → Prop;
  api_update : ConfigMap → server → option api_error → server → Prop;
  slot_used : ∀ s cm, slot s = Some cm → used s (ResourceVersion cm);
  get_law : ∀ s a s', api_get s a s' →
    slot s' = slot s ∧ (∀ v, used s v → used s' v) ∧
    (∀ cm, a = inr cm → slot s = Some cm) ∧ (a = inl NotFound → slot s = None);
  create_law : ∀ data s a s', api_create data s a s' →
    (∀ v, used s v → used s' v) ∧
    ((slot s' = slot s ∧ a ≠ None) ∨
     (slot s = None ∧ ∃ v, ¬ used s v ∧ slot s' = Some (mkConfigMap v (Some data)))) ∧
    (a = Some AlreadyExists → slot s' = slot s ∧ slot s ≠ None);
  update_law : ∀ cm s a s', api_update cm s a s' →
    (∀ v, used s v → used s' v) ∧
    ((slot s' = slot s ∧ a ≠ None) ∨
     (∃ cur v, slot s = Some cur ∧ ResourceVersion cur = ResourceVersion cm ∧ ¬ used s v ∧
        slot s' = Some (mkConfigMap v (Data cm)))) ∧
    (a = Some Conflict → slot s' = slot s ∧
       ∀ cur, slot s = Some cur → ResourceVersion cur ≠ ResourceVersion cm) }.

(** ** Concurrent callers *)

(** A caller in progress: [PGen] remembers the generation stored when it
    started. *)
Inductive caller :=
| PSave (epoch : Z) (c : call (pass (option store_err)))
| PGen (floor : Z) (c : call (pass (store_err + Z))).

(** What has been returned: a saved epoch, or a granted generation with the
    generation stored when the request started. *)
Inductive event := Saved (epoch : Z) | Granted (floor generation : Z).

(** The counter stored under a key; a missing ConfigMap counts as zero. *)
Definition stored (key : string) (o : option ConfigMap) : option Z :=
  match o with
  | None => Some 0
  | Some cm => match parseStoredCounter (Data cm) key with inr n => Some n | inl _ => None end
  end.

Section system.
Context `{ApiServer}.

Record system := mkSystem {
  sys_server : server; sys_callers : gmap nat caller; sys_log : list event }.

(** One API call of a computation. *)
Inductive call_step {A} : call A → server → call A → server → Prop :=
| cs_get k s a s' : api_get s a s' → call_step (Get k) s (k a) s'
| cs_create data k s a s' : api_create data s a s' → call_step (Create data k) s (k a) s'
| cs_update cm k s a s' : api_update cm s a s' → call_step (Update cm k) s (k a) s'.

(** The steps of the system: a caller starts, makes an API call, goes round
    its loop, or returns; replicas may also die at any point. *)
Inductive sys_step : system → system → Prop :=
| start_save s cs log i epoch :
    cs !! i = None → 0 ≤ epoch ≤ maxInt64 →
    sys_step (mkSystem s cs log) (mkSystem s (<[i := PSave epoch (SaveEpoch epoch)]> cs) log)
| start_gen s cs log i floor :
    cs !! i = None → stored generationKey (slot s) = Some floor →
    sys_step (mkSystem s cs log) (mkSystem s (<[i := PGen floor NextGeneration]> cs) log)
| step_save s cs log i epoch c c' s' :
    cs !! i = Some (PSave epoch c) → call_step c s c' s' →
    sys_step (mkSystem s cs log) (mkSystem s' (<[i := PSave epoch c']> cs) log)
| step_gen s cs log i floor c c' s' :
    cs !! i = Some (PGen floor c) → call_step c s c' s' →
    sys_step (mkSystem s cs log) (mkSystem s' (<[i := PGen floor c']> cs) log)
| retry_save s cs log i epoch :
    cs !! i = Some (PSave epoch (Ret Continue)) →
    sys_step (mkSystem s cs log) (mkSystem s (<[i := PSave epoch (SaveEpoch epoch)]> cs) log)
| retry_gen s cs log i floor :
    cs !! i = Some (PGen floor (Ret Continue)) →
    sys_step (mkSystem s cs log) (mkSystem s (<[i := PGen floor NextGeneration]> cs) log)
| return_save s cs log i epoch r :
    cs !! i = Some (PSave epoch (Ret (Return r))) →
    sys_step (mkSystem s cs log)
      (mkSystem s (delete i cs) (match r with None => log ++ [Saved epoch] | Some _ => log end))
| return_gen s cs log i floor r :
    cs !! i = Some (PGen floor (Ret (Return r))) →
    sys_step (mkSystem s cs log)
      (mkSystem s (delete i cs) (match r with inr g => log ++ [Granted floor g] | inl _ => log end))
| crash s cs log i :
    sys_step (mkSystem s cs log) (mkSystem s (delete i cs) log).

(** ** The invariant *)

(** What a caller knows after it read [cm]: as long as the version it read is
    current, so is what it read. *)
Definition snap (s : server) (cm : ConfigMap) : Prop :=
  used s (ResourceVersion cm) ∧
  ∀ cur, slot s = Some cur → ResourceVersion cur = ResourceVersion cm → cur = cm.

(** The points of the two loops, and what holds there. *)
Definition save_ok (s : server) (epoch : Z) (c : call (pass (option store_err))) : Prop :=
  0 ≤ epoch ≤ maxInt64 ∧
  (c = SaveEpoch epoch ∨
   c = Create {[ epochKey := FormatInt epoch ]} SaveEpoch_created ∨
   (∃ cm current, snap s cm ∧ parseStoredCounter (Data cm) epochKey = inr current ∧
      current < epoch ∧
      c = Update (mkConfigMap (ResourceVersion cm)
             (Some (<[epochKey := FormatInt epoch]> (default ∅ (Data cm))))) SaveEpoch_updated) ∨
   c = Ret Continue ∨ (∃ e, c = Ret (Return (Some e))) ∨
   (c = Ret (Return None) ∧ ∃ e, stored epochKey (slot s) = Some e ∧ epoch ≤ e)).

Definition gen_ok (s : server) (floor : Z) (c : call (pass (store_err + Z))) : Prop :=
  (∃ g, stored generationKey (slot s) = Some g ∧ floor ≤ g) ∧
  (c = NextGeneration ∨
   c = Create {[ generationKey := "1" ]} NextGeneration_created ∨
   (∃ cm current, snap s cm ∧ parseStoredCounter (Data cm) generationKey = inr current ∧
      floor ≤ current ∧
      c = Update (mkConfigMap (ResourceVersion cm)
             (Some (<[generationKey := FormatInt (next_generation current)]> (default ∅ (Data cm)))))
          (NextGeneration_updated (next_generation current))) ∨
   c = Ret Continue ∨ (∃ e, c = Ret (Return (inl e))) ∨
   (∃ g g', c = Ret (Return (inr g)) ∧ stored generationKey (slot s) = Some g' ∧ floor < g ≤ g')).

Definition caller_ok (s : server) (p : caller) : Prop :=
  match p with PSave epoch c => save_ok s epoch c | PGen floor c => gen_ok s floor c end.

(** The generations granted so far: returned, or about to be. *)
Definition pending_grant (p : caller) : option Z :=
  match p with PGen _ (Ret (Return (inr g))) => Some g | _ => None end.
Definition log_grant (e : event) : option Z :=
  match e with Granted _ g => Some g | _ => None end.

(** No generation is about to be returned twice, or again. *)
Definition unique_pending (granted : list Z) (cs : gmap nat caller) : Prop :=
  ∀ i p g, cs !! i = Some p → pending_grant p = Some g →
    (g ∉ granted) ∧ (∀ j q, cs !! j = Some q → pending_grant q = Some g → j = i).

Record inv (e0 g0 n : Z) (st : system) : Prop := mkInv {
  inv_epoch : ∃ e, stored epochKey (slot (sys_server st)) = Some e ∧ e0 ≤ e ∧
    ∀ e', Saved e' ∈ sys_log st → e' ≤ e;
  inv_gen : ∃ g, stored generationKey (slot (sys_server st)) = Some g ∧ g0 ≤ g ≤ g0 + n ∧
    (∀ f g', Granted f g' ∈ sys_log st → f < g' ≤ g);
  inv_callers : map_Forall (λ _, caller_ok (sys_server st)) (sys_callers st);
  inv_unique_log : NoDup (omap log_grant (sys_log st));
  inv_unique_pending : unique_pending (omap log_grant (sys_log st)) (sys_callers st) }.

(** ** Counters in the data *)

Lemma parse_inserted key n data :
  minInt64 ≤ n ≤ maxInt64 → parseStoredCounter (Some (<[key := FormatInt n]> data)) key = inr n.
Proof.
  intros Hn. unfold parseStoredCounter, data_get. cbn. rewrite lookup_insert_eq. cbn.
  rewrite (proj2 (String.eqb_neq _ _)) by apply FormatInt_nonempty.
  by rewrite ParseInt_FormatInt.
Qed.

Lemma parse_inserted_other key key' v data :
  key ≠ key' → parseStoredCounter (Some (<[key := v]> (default ∅ data))) key' =
  parseStoredCounter data key'.
Proof.
  intros Hk. unfold parseStoredCounter, data_get. cbn. by rewrite lookup_insert_ne by done.
Qed.

Lemma keys_differ : epochKey ≠ generationKey.
Proof. done. Qed.

(** ** Steps of the server *)

(** How the object may evolve under a caller's feet. *)
Definition srv_le (s s' : server) : Prop :=
  (∀ cm, snap s cm → snap s' cm) ∧
  (∀ e, stored epochKey (slot s) = Some e →
     ∃ e', stored epochKey (slot s') = Some e' ∧ e ≤ e') ∧
  (∀ g, stored generationKey (slot s) = Some g →
     ∃ g', stored generationKey (slot s') = Some g' ∧ g ≤ g').

Lemma srv_le_same s s' :
  slot s' = slot s → (∀ v, used s v → used s' v) → srv_le s s'.
Proof.
  intros Hs Hu. unfold srv_le, snap. rewrite Hs. split_and!.
  - intros cm [Hcm Hcur]. split; [by apply Hu|done].
  - intros e He. exists e. split; [done|lia].
  - intros g Hg. exists g. split; [done|lia].
Qed.

Lemma snap_write s s' cm v data :
  (∀ v, used s v → used s' v) → ¬ used s v → slot s' = Some (mkConfigMap v data) →
  snap s cm → snap s' cm.
Proof.
  intros Hu Hv Hs [Hcm _]. split; [by apply Hu|]. rewrite Hs. intros cur [= <-]. cbn. intros ->.
  done.
Qed.

Lemma snap_read s s' cm :
  slot s' = slot s → (∀ v, used s v → used s' v) → slot s = Some cm → snap s' cm.
Proof.
  intros Hs Hu Hcm. split; [by apply Hu, slot_used|]. rewrite Hs, Hcm. by intros cur [= <-] _.
Qed.

Lemma caller_ok_frame s s' p : caller_ok s p → srv_le s s' → caller_ok s' p.
Proof.
  intros Hok (Hsnap&He&Hg). destruct p as [epoch c|floor c]; cbn in *.
  - destruct Hok as [? Hok]. split; [done|].
    destruct Hok as [?|[?|[(cm&cur&?&?&?&?)|[?|[?|(?&e&(e'&?&?)%He&?)]]]]]; eauto 10.
    do 5 right. split; [done|]. exists e'. split; [done|lia].
  - destruct Hok as [(g&(g'&?&?)%Hg&?) Hok]. split; [exists g'; split; [done|lia]|].
    destruct Hok as [?|[?|[(cm&cur&?&?&?&?)|[?|[?|(g1&g2&?&(g3&?&?)%Hg&?)]]]]]; eauto 10.
    do 5 right. exists g1, g3. split_and!; [done..|lia|lia].
Qed.

Lemma save_step s epoch c c' s' :
  save_ok s epoch c → call_step c s c' s' →
  srv_le s s' ∧ save_ok s' epoch c' ∧
  stored generationKey (slot s') = stored generationKey (slot s).
Proof.
  unfold save_ok. intros [He Hok] Hstep.
  destruct Hok as [->|[->|[(cm&cur&Hsnap&Hp&Hlt&->)|[->|[[e ->]|[-> _]]]]]]; inversion Hstep; subst.
  - edestruct get_law as (Hs&Hu&Hcm&Hnf); [done|].
    split; [by apply srv_le_same|]. rewrite Hs. split; [split; [done|]|done].
    destruct a as [[]|cm]; eauto 10. specialize (Hcm cm eq_refl).
    destruct (parseStoredCounter (Data cm) epochKey) as [e|current] eqn:Hp; [eauto 10|].
    destruct (Z.leb_spec epoch current).
    + do 5 right. split; [done|]. exists current. cbn. rewrite Hcm. cbn. rewrite Hp. done.
    + do 2 right. left. exists cm, current. split_and!; try done. by eapply snap_read.
  - edestruct create_law as (Hu&[[Hs Ha]|(Hs&v&Hv&Hs')]&_); [done|..].
    + split; [by apply srv_le_same|]. rewrite Hs. split; [split; [done|]|done].
      destruct a as [[]|]; cbn; eauto 10; try done.
    + assert (Hst : stored epochKey (slot s') = Some epoch).
      { rewrite Hs'. cbn. rewrite parse_inserted; [done|unfold minInt64; lia]. }
      refine (conj (conj _ (conj _ _)) (conj (conj He _) _)).
      * intros cm Hcm. by eapply snap_write.
      * rewrite Hs, Hst. intros e [= <-]. exists epoch. split; [done|lia].
      * rewrite Hs, Hs'. intros g [= <-]. exists 0. by split; [|lia].
      * destruct a as [[]|]; cbn; eauto 10. do 5 right. split; [done|]. exists epoch. by split; [|lia].
      * by rewrite Hs, Hs'.
  - edestruct update_law as (Hu&[[Hs Ha]|(cur'&v&Hs&Hrv&Hv&Hs')]&_); [done|..].
    + split; [by apply srv_le_same|]. rewrite Hs. split; [split; [done|]|done].
      destruct a as [[]|]; cbn; eauto 10; try done.
    + cbn in Hrv, Hs'. destruct Hsnap as [Hus Hcur]. specialize (Hcur cur' Hs Hrv) as ->.
      assert (Hst : stored epochKey (slot s') = Some epoch).
      { rewrite Hs'. cbn. rewrite parse_inserted; [done|unfold minInt64; lia]. }
      assert (Hsg : stored generationKey (slot s') = stored generationKey (slot s)).
      { rewrite Hs, Hs'. cbn. by rewrite parse_inserted_other by apply keys_differ. }
      refine (conj (conj _ (conj _ _)) (conj (conj He _) Hsg)).
      * intros cm' Hcm. by eapply snap_write.
      * rewrite Hs, Hst. cbn. rewrite Hp. intros e [= <-]. exists epoch. split; [done|lia].
      * rewrite Hsg. intros g Hg. exists g. split; [done|lia].
      * destruct a as [[]|]; cbn; eauto 10. do 5 right. split; [done|]. exists epoch. by split; [|lia].
Qed.

Lemma next_generation_succ g : 0 ≤ g < maxInt64 → next_generation g = g + 1.
Proof.
  unfold next_generation, maxInt64. intros Hg. rewrite i64_small by (unfold minInt64, maxInt64; lia).
  by rewrite (proj2 (Z.leb_gt _ _)) by lia.
Qed.

Lemma gen_step s floor c c' s' g :
  gen_ok s floor c → call_step c s c' s' →
  stored generationKey (slot s) = Some g → 0 ≤ g < maxInt64 →
  srv_le s s' ∧ gen_ok s' floor c' ∧
  ((stored generationKey (slot s') = Some g ∧ pending_grant (PGen floor c') = None) ∨
   (stored generationKey (slot s') = Some (g + 1) ∧
    from_option (eq (g + 1)) True (pending_grant (PGen floor c')))).
Proof.
  unfold gen_ok. intros [(g1&Hg1&Hfl) Hok] Hstep Hg Hr.
  assert (g1 = g) as -> by congruence. clear Hg1.
  destruct Hok as [->|[->|[(cm&cur&Hsnap&Hp&Hlt&->)|[->|[[e ->]|(?&?&->&_)]]]]];
    inversion Hstep; subst.
  - edestruct get_law as (Hs&Hu&Hcm&Hnf); [done|].
    split; [by apply srv_le_same|]. rewrite Hs. split; [split; [eauto|]|left; split; [done|]].
    + destruct a as [[]|cm]; eauto 10. specialize (Hcm cm eq_refl).
      destruct (parseStoredCounter (Data cm) generationKey) as [e|current] eqn:Hp; [eauto 10|].
      do 2 right. left. exists cm, current. split_and!; try done; [by eapply snap_read|].
      rewrite Hcm in Hg. cbn in Hg. rewrite Hp in Hg. by simplify_eq.
    + destruct a as [[]|cm]; try done. by destruct (parseStoredCounter _ _).
  - edestruct create_law as (Hu&[[Hs Ha]|(Hs&v&Hv&Hs')]&_); [done|..].
    + split; [by apply srv_le_same|]. rewrite Hs.
      split; [split; [eauto|]|left; split; [done|]]; destruct a as [[]|]; cbn; eauto 10; try done.
    + assert (Hst : stored generationKey (slot s') = Some 1) by (rewrite Hs'; done).
      rewrite Hs in Hg. cbn in Hg. injection Hg as <-.
      refine (conj (conj _ (conj _ _)) (conj (conj _ _) _)).
      * intros cm Hcm. by eapply snap_write.
      * rewrite Hs, Hs'. intros g [= <-]. exists 0. by split; [|lia].
      * rewrite Hs, Hst. intros e [= <-]. exists 1. split; [done|lia].
      * exists 1. split; [done|lia].
      * destruct a as [[]|]; cbn; eauto 10. do 5 right. exists 1, 1. split_and!; [done..|lia|lia].
      * right. split; [done|]. by destruct a as [[]|].
  - edestruct update_law as (Hu&[[Hs Ha]|(cur'&v&Hs&Hrv&Hv&Hs')]&_); [done|..].
    + split; [by apply srv_le_same|]. rewrite Hs.
      split; [split; [eauto|]|left; split; [done|]]; destruct a as [[]|]; cbn; eauto 10; try done.
    + cbn in Hrv, Hs'. destruct Hsnap as [Hus Hcur]. specialize (Hcur cur' Hs Hrv) as ->.
      rewrite Hs in Hg. cbn in Hg. rewrite Hp in Hg. simplify_eq.
      rewrite next_generation_succ in Hs' |- * by done.
      assert (Hst : stored generationKey (slot s') = Some (g + 1)).
      { rewrite Hs'. cbn. rewrite parse_inserted; [done|unfold minInt64, maxInt64 in *; lia]. }
      assert (Hse : stored epochKey (slot s') = stored epochKey (slot s)).
      { rewrite Hs, Hs'. cbn. by rewrite parse_inserted_other by (apply not_eq_sym, keys_differ). }
      refine (conj (conj _ (conj _ _)) (conj (conj (ex_intro _ (g + 1) (conj Hst _)) _) _)).
      * intros cm' Hcm. by eapply snap_write.
      * rewrite Hse. intros e He. exists e. split; [done|lia].
      * rewrite Hs, Hst. cbn. rewrite Hp. intros g' [= <-]. exists (g + 1). split; [done|lia].
      * lia.
      * destruct a as [[]|]; cbn; eauto 10; try done.
        do 5 right. exists (g + 1), (g + 1). split_and!; [done..|lia|lia].
      * right. split; [done|]. by destruct a as [[]|].
Qed.

(** ** Preservation *)

Lemma callers_insert s s' i p (cs : gmap nat caller) :
  map_Forall (λ _, caller_ok s) cs → srv_le s s' → caller_ok s' p →
  map_Forall (λ _, caller_ok s') (<[i := p]> cs).
Proof.
  intros Hcs Hle Hp. apply map_Forall_insert_2; [done|].
  eapply map_Forall_impl; [done|]. intros j q Hq. by apply (caller_ok_frame s).
Qed.

Lemma unique_delete granted i cs : unique_pending granted cs → unique_pending granted (delete i cs).
Proof.
  intros Hu j p g [_ Hj]%lookup_delete_Some Hp. destruct (Hu j p g Hj Hp) as [? Hq]. split; [done|].
  intros k q [_ Hk]%lookup_delete_Some. by apply Hq.
Qed.

Lemma unique_insert granted i p cs :
  unique_pending granted cs →
  from_option (λ g, (g ∉ granted) ∧ ∀ j q, cs !! j = Some q → pending_grant q ≠ Some g)
    True (pending_grant p) →
  unique_pending granted (<[i := p]> cs).
Proof.
  intros Hu Hfresh j q g Hj Hq. rewrite lookup_insert_Some in Hj.
  destruct Hj as [[<- <-]|[Hne Hj]].
  - rewrite Hq in Hfresh. cbn in Hfresh. destruct Hfresh as [Hg Hall]. split; [done|].
    intros k r. rewrite lookup_insert_Some. intros [[<- <-]|[_ Hk]] Hr; [done|].
    by destruct (Hall k r Hk).
  - destruct (Hu j q g Hj Hq) as [Hg Hone]. split; [done|]. intros k r.
    rewrite lookup_insert_Some. intros [[<- <-]|[_ Hk]] Hr; [|by eapply Hone].
    rewrite Hr in Hfresh. cbn in Hfresh. by destruct (proj2 Hfresh j q Hj).
Qed.

Lemma unique_return granted i p g cs :
  unique_pending granted cs → cs !! i = Some p → pending_grant p = Some g →
  unique_pending (granted ++ [g]) (delete i cs).
Proof.
  intros Hu Hi Hp j q g' [Hne Hj]%lookup_delete_Some Hq.
  destruct (Hu j q g' Hj Hq) as [Hg Hone]. split.
  - rewrite elem_of_app, list_elem_of_singleton. intros [?| ->]; [done|].
    by destruct Hne; apply (Hone i p).
  - intros k r [_ Hk]%lookup_delete_Some. by apply Hone.
Qed.

(** A pending grant is at most the stored generation. *)
Lemma pending_le s p g g' :
  caller_ok s p → pending_grant p = Some g → stored generationKey (slot s) = Some g' → g ≤ g'.
Proof.
  destruct p as [|floor c]; [done|]. cbn. intros [_ Hok] Hp Hg.
  destruct Hok as [->|[->|[(?&?&_&_&_&->)|[->|[[? ->]|(?&?&->&?&?)]]]]]; try done.
  cbn in Hp. simplify_eq. lia.
Qed.

Lemma log_grant_le (log : list event) g :
  (∀ f g', Granted f g' ∈ log → f < g' ≤ g) → ∀ g', g' ∈ omap log_grant log → g' ≤ g.
Proof.
  intros Hlog g' (e&He&Hg)%list_elem_of_omap. destruct e as [|f g1]; [done|]. cbn in Hg. simplify_eq.
  by apply (Hlog f).
Qed.

(** A step that changes the caller [i] and the server, and returns nothing. *)
Lemma inv_call e0 g0 n s s' cs log i p :
  inv e0 g0 n (mkSystem s cs log) → srv_le s s' → caller_ok s' p →
  (∀ g, stored generationKey (slot s) = Some g → ∃ g', stored generationKey (slot s') = Some g' ∧
     g' ≤ g + 1 ∧ from_option (eq (g + 1)) True (pending_grant p)) →
  inv e0 g0 (n + 1) (mkSystem s' (<[i := p]> cs) log).
Proof.
  intros [He Hg Hcs Hlog Hpend] Hle Hp Hstep. cbn in *. split; cbn.
  - destruct He as (e&(e'&?&?)%(proj1 (proj2 Hle))&?&Hs). exists e'. split_and!; [done|lia|].
    intros e1 ?%Hs. lia.
  - destruct Hg as (g&Hg&?&Hgl). destruct (proj2 (proj2 Hle) g Hg) as (g'&Hg'&?).
    destruct (Hstep g Hg) as (g2&Hg2&?&_).
    assert (g2 = g') as -> by congruence. exists g'. split_and!; [done|lia..|].
    intros f g1 Hin. specialize (Hgl f g1 Hin). lia.
  - by eapply callers_insert.
  - done.
  - apply unique_insert; [done|]. destruct Hg as (g&Hg&?&Hgl).
    destruct (Hstep g Hg) as (_&_&_&Heq). destruct (pending_grant p) as [g1|]; [|done]. cbn in Heq |- *.
    subst g1. split.
    + intros Hin. apply (log_grant_le log g Hgl) in Hin. lia.
    + intros j q Hj Hq. pose proof (pending_le s q _ g (Hcs j q Hj) Hq Hg). lia.
Qed.

Lemma srv_le_refl s : srv_le s s.
Proof. by apply srv_le_same. Qed.

(** Callers that fail or die leave no trace. *)
Lemma inv_delete e0 g0 n s cs log i :
  inv e0 g0 n (mkSystem s cs log) → inv e0 g0 (n + 1) (mkSystem s (delete i cs) log).
Proof.
  intros [He (g&?&?&Hgl) Hcs Hlog Hpend]. split; cbn in *; try done.
  - exists g. split_and!; try done; lia.
  - by apply map_Forall_delete.
  - by apply unique_delete.
Qed.

Lemma inv_saved e0 g0 n s cs log i epoch :
  inv e0 g0 n (mkSystem s cs log) → cs !! i = Some (PSave epoch (Ret (Return None))) →
  inv e0 g0 (n + 1) (mkSystem s (delete i cs) (log ++ [Saved epoch])).
Proof.
  intros Hinv Hi. pose proof Hinv as [(e&He&?&Hs) _ Hcs _ _].
  destruct (inv_delete _ _ _ _ _ _ i Hinv) as [_ (g&?&?&Hgl) Hcs' Hlog Hpend]. cbn in *.
  split; cbn; try done.
  - exists e. split; [done|]. split; [done|]. intros e'. rewrite elem_of_app, list_elem_of_singleton.
    intros [?%Hs|[= ->]]; [done|]. pose proof (Hcs i _ Hi) as [_ Hok].
    destruct Hok as [?|[?|[(?&?&_&_&_&?)|[?|[[??]|(_&e2&?&?)]]]]]; try done. by simplify_eq.
  - exists g. split; [done|]. split; [done|]. intros f g'.
    rewrite elem_of_app, list_elem_of_singleton. intros [?%Hgl|?]; done.
  - rewrite omap_app. cbn. by rewrite app_nil_r.
  - rewrite omap_app. cbn. by rewrite app_nil_r.
Qed.

Lemma inv_granted e0 g0 n s cs log i floor g1 :
  inv e0 g0 n (mkSystem s cs log) → cs !! i = Some (PGen floor (Ret (Return (inr g1)))) →
  inv e0 g0 (n + 1) (mkSystem s (delete i cs) (log ++ [Granted floor g1])).
Proof.
  intros Hinv Hi. pose proof Hinv as [_ _ Hcs Hlog Hpend].
  destruct (inv_delete _ _ _ _ _ _ i Hinv) as [(e&He&?&Hs) (g&?&?&Hgl) Hcs' _ _]. cbn in *.
  split; cbn; try done.
  - exists e. split; [done|]. split; [done|]. intros e'. rewrite elem_of_app, list_elem_of_singleton.
    intros [?%Hs|?]; done.
  - exists g. split; [done|]. split; [done|]. intros f g'.
    rewrite elem_of_app, list_elem_of_singleton. intros [?%Hgl|[= -> ->]]; [done|].
    pose proof (Hcs i _ Hi) as [_ Hok].
    destruct Hok as [?|[?|[(?&?&_&_&_&?)|[?|[[??]|(?&?&?&?&?)]]]]]; try done. by simplify_eq.
  - rewrite omap_app. cbn. apply NoDup_app. split_and!; [done| |apply NoDup_singleton].
    intros g2 Hin. rewrite list_elem_of_singleton. intros ->. by destruct (Hpend i _ g1 Hi eq_refl).
  - rewrite omap_app. cbn. by eapply unique_return.
Qed.

(** A step of a caller that leaves the server as it is and grants nothing. *)
Lemma inv_local e0 g0 n s cs log i p :
  inv e0 g0 n (mkSystem s cs log) → caller_ok s p → pending_grant p = None →
  inv e0 g0 (n + 1) (mkSystem s (<[i := p]> cs) log).
Proof.
  intros Hinv Hp Hn. apply (inv_call _ _ _ s); [done|by apply srv_le_same|done|].
  intros g ?. exists g. rewrite Hn. split_and!; done || lia.
Qed.

Lemma sys_inv_step e0 g0 n st st' :
  0 ≤ g0 → g0 + n < maxInt64 → inv e0 g0 n st → sys_step st st' → inv e0 g0 (n + 1) st'.
Proof.
  intros Hg0 Hmax Hinv Hstep. pose proof Hinv as [_ Hg Hcs _ _].
  destruct Hstep as [s cs log i epoch Hi Hr|s cs log i floor Hi Hf|s cs log i epoch c c' s' Hi Hc
    |s cs log i floor c c' s' Hi Hc|s cs log i epoch Hi|s cs log i floor Hi|s cs log i epoch r Hi
    |s cs log i floor r Hi|s cs log i]; cbn in *.
  - apply inv_local; [done| |done]. split; [done|by left].
  - apply inv_local; [done| |done]. split; [exists floor; by split; [|lia]|by left].
  - pose proof (Hcs i _ Hi) as Hok. destruct (save_step s epoch c c' s') as (?&?&Hsame); [done..|].
    apply (inv_call _ _ _ s); [done..|]. intros g ?. rewrite Hsame. exists g.
    split_and!; done || lia.
  - pose proof (Hcs i _ Hi) as Hok. destruct Hg as (g&Hg&?&_).
    destruct (gen_step s floor c c' s' g) as (?&?&Hor); [done..|lia|].
    apply (inv_call _ _ _ s); [done..|]. intros g' Hg'.
    assert (g' = g) as -> by congruence.
    destruct Hor as [[? Hpg]|[? Hpg]]; [exists g; rewrite Hpg|exists (g + 1)]; split_and!; done || lia.
  - pose proof (Hcs i _ Hi) as [? _]. apply inv_local; [done| |done]. split; [done|by left].
  - pose proof (Hcs i _ Hi) as [? _]. apply inv_local; [done| |done]. split; [done|by left].
  - destruct r; [by apply inv_delete|by apply inv_saved].
  - destruct r; [by apply inv_delete|by apply inv_granted].
  - by apply inv_delete.
Qed.

Lemma inv_run e0 g0 n k st st' :
  0 ≤ g0 → g0 + (k + Z.of_nat n) < maxInt64 → inv e0 g0 k st → nsteps sys_step n st st' →
  inv e0 g0 (k + Z.of_nat n) st'.
Proof.
  intros Hg0 Hb Hinv Hrun. revert k Hb Hinv.
  induction Hrun as [st|n st st1 st' Hs Hrun IH]; intros k Hb Hinv; [by rewrite Z.add_0_r|].
  rewrite Nat2Z.inj_succ. replace (k + Z.succ (Z.of_nat n)) with ((k + 1) + Z.of_nat n) by lia.
  apply IH; [lia|]. eapply sys_inv_step; [done| |done..]. lia.
Qed.

(** The start: nobody is calling, and both counters can be read. *)
Lemma inv_initial s e0 g0 :
  stored epochKey (slot s) = Some e0 → stored generationKey (slot s) = Some g0 →
  inv e0 g0 0 (mkSystem s ∅ []).
Proof.
  intros He Hg. split; cbn.
  - exists e0. split_and!; [done|lia|]. by intros e' ?%not_elem_of_nil.
  - exists g0. split_and!; [done|lia|lia|]. by intros f g' ?%not_elem_of_nil.
  - apply map_Forall_empty.
  - constructor.
  - intros i p g. by rewrite lookup_empty.
Qed.

(** ** Theorems *)

(** C14: a generation is granted once.  Whatever watchdog replicas call
    [NextGeneration] and [SaveEpoch] concurrently, crash, or lose responses,
    all generations returned are distinct, each is greater than the one stored
    when its request started, and none exceeds the one stored now. *)
Theorem generations_are_unique s e0 g0 n st' :
  stored epochKey (slot s) = Some e0 → stored generationKey (slot s) = Some g0 →
  0 ≤ g0 → g0 + Z.of_nat n < maxInt64 →
  nsteps sys_step n (mkSystem s ∅ []) st' →
  NoDup (omap log_grant (sys_log st')) ∧
  ∃ g, stored generationKey (slot (sys_server st')) = Some g ∧
    ∀ floor g', Granted floor g' ∈ sys_log st' → floor < g' ≤ g.
Proof.
  intros He Hg H0 Hn Hrun. destruct (inv_run e0 g0 n 0 _ st' H0 Hn (inv_initial s e0 g0 He Hg) Hrun)
    as [_ (g&?&_&?) _ ? _]. eauto.
Qed.

(** A saved epoch stays saved: under the same concurrency the stored
    epoch never decreases, and it is at least every epoch whose [SaveEpoch]
    returned nil. *)
Theorem saved_epochs_stay s e0 g0 n st' :
  stored epochKey (slot s) = Some e0 → stored generationKey (slot s) = Some g0 →
  0 ≤ g0 → g0 + Z.of_nat n < maxInt64 →
  nsteps sys_step n (mkSystem s ∅ []) st' →
  ∃ e, stored epochKey (slot (sys_server st')) = Some e ∧ e0 ≤ e ∧
    ∀ e', Saved e' ∈ sys_log st' → e' ≤ e.
Proof.
  intros He Hg H0 Hn Hrun.
  by destruct (inv_run e0 g0 n 0 _ st' H0 Hn (inv_initial s e0 g0 He Hg) Hrun) as [? _ _ _ _].
Qed.

(** A loop goes round only because another writer got in between: if the
    object is the same when a pass writes as when it read, the pass returns. *)
Theorem retries_mean_progress epoch s s1 s2 s3 :
  slot s2 = slot s1 →
  (∀ c1 c2, call_step (SaveEpoch epoch) s c1 s1 → call_step c1 s2 c2 s3 → ∃ r, c2 = Ret (Return r)) ∧
  (∀ c1 c2, call_step NextGeneration s c1 s1 → call_step c1 s2 c2 s3 → ∃ r, c2 = Ret (Return r)).
Proof.
  intros Hsame. split; intros c1 c2 H1 H2; inversion H1; subst; clear H1;
    edestruct get_law as (Hs&_&Hcm&Hnf); try done;
    (destruct a as [[]|cm]; [..|destruct (parseStoredCounter _ _) as [|current]]);
    try match type of H2 with context [epoch <=? ?n] => destruct (epoch <=? n) end; inversion H2; subst; clear H2.
  - edestruct create_law as (_&_&Hex); [done|]. rewrite Hsame, Hs in Hex.
    destruct a as [[]|]; cbn; eauto. by destruct (proj2 (Hex eq_refl)), Hnf.
  - edestruct update_law as (_&_&Hex); [done|]. rewrite Hsame, Hs in Hex.
    destruct a as [[]|]; cbn; eauto. by destruct (proj2 (Hex eq_refl) cm (Hcm cm eq_refl)).
  - edestruct create_law as (_&_&Hex); [done|]. rewrite Hsame, Hs in Hex.
    destruct a as [[]|]; cbn; eauto. by destruct (proj2 (Hex eq_refl)), Hnf.
  - edestruct update_law as (_&_&Hex); [done|]. rewrite Hsame, Hs in Hex.
    destruct a as [[]|]; cbn; eauto. by destruct (proj2 (Hex eq_refl) cm (Hcm cm eq_refl)).
Qed.
End system.

(** ** A concrete server *)

(** The object and the last version handed out; versions count up from one.
    It never fails. *)
#[local] Program Instance counting_server : ApiServer := {|
  server := { s : option ConfigMap * Z | ∀ cm, s.1 = Some cm → ResourceVersion cm ≤ s.2 };
  slot s := (`s).1;
  used s v := v ≤ (`s).2;
  api_get s a s' := s' = s ∧ a = match (`s).1 with Some cm => inr cm | None => inl NotFound end;
  api_create data s a s' :=
    match (`s).1 with
    | Some _ => s' = s ∧ a = Some AlreadyExists
    | None => a = None ∧ `s' = (Some (mkConfigMap ((`s).2 + 1) (Some data)), (`s).2 + 1)
    end;
  api_update cm s a s' :=
    match (`s).1 with
    | None => s' = s ∧ a = Some NotFound
    | Some cur => if ResourceVersion cur =? ResourceVersion cm
                  then a = None ∧ `s' = (Some (mkConfigMap ((`s).2 + 1) (Data cm)), (`s).2 + 1)
                  else s' = s ∧ a = Some Conflict
    end |}.
Next Obligation. intros [s Hs] cm. apply Hs. Qed.
Next Obligation.
  intros [[o v] Hs] a s' [-> ->]. cbn. split_and!; try done; by destruct o; intros; simplify_eq.
Qed.
Next Obligation.
  intros data [[[cm|] v] Hs] a [s' Hs']; cbn; [intros [? ->]; simplify_eq|intros [-> ->]]; cbn.
  - split_and!; [done|by left|done].
  - split_and!; [lia|right; split; [done|exists (v + 1); split; [lia|done]]|done].
Qed.
Next Obligation.
  intros cm [[[cur|] v] Hs] a [s' Hs']; cbn; [|intros [? ->]; simplify_eq; cbn; split_and!; try done; by left].
  destruct (Z.eqb_spec (ResourceVersion cur) (ResourceVersion cm)); [intros [-> ->]|intros [? ->]; simplify_eq]; cbn.
  - split_and!; [lia|right; exists cur, (v + 1); split_and!; try done; lia|done].
  - split_and!; [done|by left|]. intros _. split; [done|]. by intros ? [= <-].
Qed.

Lemma no_version cm : (@None ConfigMap, 0).1 = Some cm → ResourceVersion cm ≤ 0.
Proof. done. Qed.
Definition empty_server : server := exist _ (None, 0) no_version.

(** The server after the first write. *)
Lemma first_version data cm :
  (Some (mkConfigMap 1 (Some data)), 1).1 = Some cm → ResourceVersion cm ≤ 1.
Proof. intros H. injection H as <-. cbn. lia. Qed.
Definition written (data : gmap string string) : server :=
  exist _ (Some (mkConfigMap 1 (Some data)), 1) (first_version data).
Definition first_server : server := written {[ generationKey := "1" ]}.
Definition saved_server : server := written {[ epochKey := "7" ]}.

(** One replica asks for a generation. *)
Lemma first_grant_run :
  nsteps sys_step 4 (mkSystem empty_server ∅ []) (mkSystem first_server ∅ [Granted 0 1]).
Proof.
  eapply nsteps_l; [by apply (start_gen _ _ _ 0%nat 0)|].
  eapply nsteps_l; [eapply (step_gen _ _ _ 0%nat); [apply lookup_insert_eq|]; by apply cs_get|].
  eapply nsteps_l; [eapply (step_gen _ _ _ 0%nat _ _ _ first_server);
    [apply lookup_insert_eq|]; by apply (cs_create _ _ _ None)|].
  eapply nsteps_l; [apply (return_gen _ _ _ 0%nat 0 (inr 1)), lookup_insert_eq|].
  rewrite !delete_insert_eq, delete_empty. apply nsteps_O.
Qed.

Lemma generations_are_unique_witness : NoDup (omap log_grant [Granted 0 1]).
Proof.
  apply (generations_are_unique empty_server 0 0 4 (mkSystem first_server ∅ [Granted 0 1]));
    [reflexivity|reflexivity|lia|vm_compute; reflexivity|exact first_grant_run].
Defined.

(** One replica saves epoch 7. *)
Lemma first_save_run :
  nsteps sys_step 4 (mkSystem empty_server ∅ []) (mkSystem saved_server ∅ [Saved 7]).
Proof.
  eapply nsteps_l; [by apply (start_save _ _ _ 0%nat 7)|].
  eapply nsteps_l; [eapply (step_save _ _ _ 0%nat); [apply lookup_insert_eq|]; by apply cs_get|].
  eapply nsteps_l; [eapply (step_save _ _ _ 0%nat _ _ _ saved_server);
    [apply lookup_insert_eq|]; by apply (cs_create _ _ _ None)|].
  eapply nsteps_l; [apply (return_save _ _ _ 0%nat 7 None), lookup_insert_eq|].
  rewrite !delete_insert_eq, delete_empty. apply nsteps_O.
Qed.

Lemma saved_epochs_stay_witness :
  ∃ e, stored epochKey (slot saved_server) = Some e ∧ 0 ≤ e ∧
    ∀ e', Saved e' ∈ [Saved 7] → e' ≤ e.
Proof.
  apply (saved_epochs_stay empty_server 0 0 4 (mkSystem saved_server ∅ [Saved 7]));
    [reflexivity|reflexivity|lia|vm_compute; reflexivity|exact first_save_run].
Defined.

Lemma retries_mean_progress_witness :
  ∀ c1 c2, call_step NextGeneration empty_server c1 empty_server →
    call_step c1 empty_server c2 first_server → ∃ r, c2 = Ret (Return r).
Proof.
  exact (proj2 (retries_mean_progress 0 empty_server empty_server empty_server first_server eq_refl)).
Defined.
