(* ===== verification/Topology.v ===== *)
(** * The topology service of the watchdog
      ([internal/topology/service.go], [internal/watchdog/health.go])

    A handler runs under [Service.mu], so a handler is one method on the state
    [service].  Subscribers are pointers in Go: here they are numbers into a
    heap [sv_subs], so that replacing, closing and unregistering compare
    identities as the code does.  A channel is the list of envelopes in it.
    [time.Now()] reads the next value of an arbitrary clock.  The epoch store
    is used through the interface [EpochStore]. *)

From S2P Require Import Prelude Records Messages Cluster.

(** ** The epoch store interface *)

(** [EpochStore] of the source, with what [saved_epochs_stay] of the
    ConfigMap store shows of an implementation: [durable] is the epoch a later
    [LoadEpoch] returns at least. *)
Class EpochStore := {
  store : Type;
  durable : store → string → Z;
  load_epoch : string → store → option Z * store;
  save_epoch : string → Z → store → bool * store;
  durable_nonneg : ∀ st id, 0 ≤ durable st id;
  load_mono : ∀ id st id', durable st id' ≤ durable (load_epoch id st).2 id';
  load_durable : ∀ id st e, (load_epoch id st).1 = Some e → e ≤ durable (load_epoch id st).2 id;
  save_mono : ∀ id e st id', durable st id' ≤ durable (save_epoch id e st).2 id';
  save_durable : ∀ id e st, (save_epoch id e st).1 = true → e ≤ durable (save_epoch id e st).2 id }.

(** ** LeadershipHealth *)

Record LeadershipHealth := mkHealth { lh_role : Z; lh_degraded : bool; lh_serving : bool }.

Definition refreshLocked (h : LeadershipHealth) : LeadershipHealth :=
  mkHealth (lh_role h) (lh_degraded h)
    ((lh_role h =? WATCHDOG_ROLE_PRIMARY) && negb (lh_degraded h)).

Definition Health_SetLeadership (role generation : Z) (h : LeadershipHealth) : LeadershipHealth :=
  refreshLocked (mkHealth role (lh_degraded h) (lh_serving h)).

Definition SetDegraded (err : bool) (h : LeadershipHealth) : LeadershipHealth :=
  refreshLocked (mkHealth (lh_role h) err (lh_serving h)).

Definition NewLeadershipHealth : LeadershipHealth :=
  Health_SetLeadership WATCHDOG_ROLE_STANDBY 0 (mkHealth WATCHDOG_ROLE_UNSPECIFIED false false).

(** ** State of the service *)

Record TopologyConfig := mkTopologyConfig {
  SuspectAfter : Z; ExpireAfter : Z; ReapInterval : Z; BookwormInterval : Z; LeaseTTL : Z;
  WatchdogID : string; tc_Generation : Z; tc_Role : Z;
  HasStore : bool }.               (** [EpochStore != nil] *)

Definition second : Z := 1000000000.

(** [clock] is [time.Now()]. *)
Definition Topology_withDefaults (clock : Z) (c : TopologyConfig) : TopologyConfig :=
  let suspect := if SuspectAfter c <=? 0 then 20 * second else SuspectAfter c in
  let expire := if ExpireAfter c <=? 0 then 30 * second else ExpireAfter c in
  let reap := if ReapInterval c <=? 0 then suspect ÷ 2 else ReapInterval c in
  let reap := if reap <=? 0 then second else reap in
  let bookworm := if BookwormInterval c <=? 0 then 10 * second else BookwormInterval c in
  let lease := if LeaseTTL c <=? 0 then expire else LeaseTTL c in
  let watchdog := if String.eqb (WatchdogID c) "" then "watchdog" else WatchdogID c in
  let generation := if tc_Generation c <=? 0 then i64 clock else tc_Generation c in
  let role := if tc_Role c =? WATCHDOG_ROLE_UNSPECIFIED then WATCHDOG_ROLE_PRIMARY else tc_Role c in
  mkTopologyConfig suspect expire reap bookworm lease watchdog generation role (HasStore c).

Record subscriber := mkSub {
  sub_nodeID : string; sub_ch : list TopologyEnvelope; sub_done : bool }.

(** The capacity of [sub.ch]. *)
Definition sub_capacity : nat := 8.

Record stackState := mkStack {
  st_cluster : ClusterState; st_subscribers : gmap string nat; st_loadedEpoch : bool }.

Inductive svc_err :=
| ErrStackID | ErrNodeID | ErrPodIP | ErrIncarnation | ErrIdentityChanged
| ErrLoadEpoch | ErrSaveEpoch.

Record service `{EpochStore} := mkService {
  sv_cfg : TopologyConfig;
  sv_stacks : gmap string stackState;
  sv_epochErr : option svc_err;
  sv_observers : list LeadershipHealth;
  sv_subs : gmap nat subscriber;
  sv_store : store;
  sv_ticks : nat }.                (** how often the clock has been read *)

Section service.
Context `{FsmEngine} `{EpochStore}.

(** The clock, and the order in which Go iterates over the stacks: each once. *)
Variable clock : nat → Z.
Variable order : gmap string stackState → list string.
Hypothesis order_keys : ∀ m, order m ≡ₚ (map_to_list m).*1.

Definition set_cfg (c : TopologyConfig) (s : service) : service :=
  mkService _ c (sv_stacks s) (sv_epochErr s) (sv_observers s) (sv_subs s) (sv_store s) (sv_ticks s).
Definition set_stacks (m : gmap string stackState) (s : service) : service :=
  mkService _ (sv_cfg s) m (sv_epochErr s) (sv_observers s) (sv_subs s) (sv_store s) (sv_ticks s).
Definition set_epochErr (e : option svc_err) (s : service) : service :=
  mkService _ (sv_cfg s) (sv_stacks s) e (sv_observers s) (sv_subs s) (sv_store s) (sv_ticks s).
Definition set_observers (l : list LeadershipHealth) (s : service) : service :=
  mkService _ (sv_cfg s) (sv_stacks s) (sv_epochErr s) l (sv_subs s) (sv_store s) (sv_ticks s).
Definition set_subs (m : gmap nat subscriber) (s : service) : service :=
  mkService _ (sv_cfg s) (sv_stacks s) (sv_epochErr s) (sv_observers s) m (sv_store s) (sv_ticks s).
Definition set_store (st : store) (s : service) : service :=
  mkService _ (sv_cfg s) (sv_stacks s) (sv_epochErr s) (sv_observers s) (sv_subs s) st (sv_ticks s).
Definition tick (s : service) : service :=
  mkService _ (sv_cfg s) (sv_stacks s) (sv_epochErr s) (sv_observers s) (sv_subs s) (sv_store s)
    (S (sv_ticks s)).

#[local] Abbreviation SM := (M service svc_err).

Definition time_Now : SM Z := λ s, (Done (clock (sv_ticks s)), tick s).

Definition NewServiceWithConfig (now : Z) (cfg : TopologyConfig) (st : store) : service :=
  mkService _ (Topology_withDefaults now cfg) ∅ None [] ∅ st 0.

Definition isPrimary (s : service) : bool := tc_Role (sv_cfg s) =? WATCHDOG_ROLE_PRIMARY.

(** [s.stacks[stackID]], after [stateFor]. *)
Definition empty_stack : stackState := mkStack NewClusterState ∅ false.
Definition stack (stackID : string) (s : service) : stackState :=
  default empty_stack (sv_stacks s !! stackID).
Definition set_stack (stackID : string) (st : stackState) (s : service) : service :=
  set_stacks (<[stackID := st]> (sv_stacks s)) s.

Definition stateFor (stackID : string) : SM () :=
  modify (λ s, set_stack stackID (stack stackID s) s).

Definition set_cluster (stackID : string) (c : ClusterState) : SM () :=
  modify (λ s, set_stack stackID
    (mkStack c (st_subscribers (stack stackID s)) (st_loadedEpoch (stack stackID s))) s).
Definition set_subscribers (stackID : string) (m : gmap string nat) : SM () :=
  modify (λ s, set_stack stackID
    (mkStack (st_cluster (stack stackID s)) m (st_loadedEpoch (stack stackID s))) s).
Definition set_loaded (stackID : string) : SM () :=
  modify (λ s, set_stack stackID
    (mkStack (st_cluster (stack stackID s)) (st_subscribers (stack stackID s)) true) s).

Definition setEpochError (err : option svc_err) : SM () :=
  modify (λ s, set_observers (SetDegraded (bool_decide (is_Some err)) <$> sv_observers s)
                 (set_epochErr err s)).

Definition loadEpochLocked (stackID : string) : SM () :=
  s ← gets Datatypes.id;
  if st_loadedEpoch (stack stackID s) then mret () else
  if negb (HasStore (sv_cfg s)) then set_loaded stackID else
  let '(answer, st) := load_epoch stackID (sv_store s) in
  modify (set_store st);;
  match answer with
  | None => setEpochError (Some ErrLoadEpoch);; fail ErrLoadEpoch
  | Some epoch =>
    set_loaded stackID;;
    s ← gets Datatypes.id;
    set_cluster stackID (BumpEpochAtLeast epoch (st_cluster (stack stackID s)));;
    setEpochError None
  end.

Definition saveEpochLocked (stackID : string) (epoch : Z) : SM () :=
  s ← gets Datatypes.id;
  if negb (HasStore (sv_cfg s)) then setEpochError None else
  let '(ok, st) := save_epoch stackID epoch (sv_store s) in
  modify (set_store st);;
  if ok then setEpochError None
  else setEpochError (Some ErrSaveEpoch);; fail ErrSaveEpoch.

(** ** Envelopes *)

Definition envelopeFor (stackID : string) (reason : Z) : SM TopologyEnvelope :=
  now ← time_Now;
  s ← gets Datatypes.id;
  let cfg := sv_cfg s in
  let '(members, epoch) := Members now (ExpireAfter cfg) now (st_cluster (stack stackID s)) in
  mret (mkEnvelope stackID members epoch reason (UnixMilli (now + LeaseTTL cfg)) (WatchdogID cfg)
          (tc_Generation cfg) (tc_Role cfg)).

Definition standbyEnvelope (stackID : string) (s : service) : TopologyEnvelope :=
  mkEnvelope stackID [] 0 TOPOLOGY_REASON_PRIMARY_CHANGE 0 (WatchdogID (sv_cfg s))
    (tc_Generation (sv_cfg s)) (tc_Role (sv_cfg s)).

(** A send in a [select] with a [default]: dropped when the channel is full. *)
Definition try_send (sub : nat) (envelope : TopologyEnvelope) (s : service) : service :=
  match sv_subs s !! sub with
  | Some c => if bool_decide (length (sub_ch c) < sub_capacity)%nat
              then set_subs (<[sub := mkSub (sub_nodeID c) (sub_ch c ++ [envelope]) (sub_done c)]>
                              (sv_subs s)) s
              else s
  | None => s
  end.

(** A receive in a [select] with a [default]. *)
Definition try_receive (sub : nat) (s : service) : service :=
  match sv_subs s !! sub with
  | Some c => set_subs (<[sub := mkSub (sub_nodeID c) (tail (sub_ch c)) (sub_done c)]> (sv_subs s)) s
  | None => s
  end.

Definition closeSubscriber (sub : nat) (s : service) : service :=
  match sv_subs s !! sub with
  | Some c => set_subs (<[sub := mkSub (sub_nodeID c) (sub_ch c) true]> (sv_subs s)) s
  | None => s
  end.

(** The subscribers of a stack, as the map holds them. *)
Definition subscribers_of (stackID : string) (s : service) : list nat :=
  (map_to_list (st_subscribers (stack stackID s))).*2.

(** The caller goes on whether or not the method fails. *)
Definition ignore_err (m : SM ()) : SM () := λ s,
  match m s with (Fail _, s') => (Done tt, s') | r => r end.

Definition broadcastLocked (stackID : string) (reason : Z) : SM () :=
  envelope ← envelopeFor stackID reason;
  ignore_err (
    saveEpochLocked stackID (env_Epoch envelope);;
    modify (λ s, foldl (λ s sub, try_send sub envelope s) s (subscribers_of stackID s))).

Definition sendLatestLocked (stackID : string) (sub : nat) (reason : Z) : SM () :=
  s ← gets Datatypes.id;
  match sv_epochErr s with
  | Some _ => mret ()
  | None => envelope ← envelopeFor stackID reason; modify (try_send sub envelope)
  end.

(** ** Handlers *)

(** [clk] is what [PruneExpired] and [Members] would read of the clock, were
    [now] zero. *)
Definition pruneExpiredLocked (stackID : string) (now : Z) : SM () :=
  clk ← time_Now;
  s ← gets Datatypes.id;
  let cfg := sv_cfg s in
  let '(changed, c) := PruneExpired clk (SuspectAfter cfg) (ExpireAfter cfg) now
                         (st_cluster (stack stackID s)) in
  set_cluster stackID c;;
  if negb changed then mret () else
  let '(members, _) := Members clk (ExpireAfter cfg) now c in
  set_subscribers stackID
    (filter (λ p, p.1 ∈ m_NodeId <$> members) (st_subscribers (stack stackID s)));;
  broadcastLocked stackID TOPOLOGY_REASON_PRUNE.

Definition validateHeartbeat (hb : Heartbeat) : option svc_err :=
  if String.eqb (hb_StackId hb) "" then Some ErrStackID else
  if String.eqb (hb_NodeId hb) "" then Some ErrNodeID else
  if String.eqb (hb_PodIp hb) "" then Some ErrPodIP else
  if hb_Incarnation hb <=? 0 then Some ErrIncarnation else None.

Definition registerHeartbeat (hb : Heartbeat) (sub : nat) : SM () :=
  now ← time_Now;
  let stackID := hb_StackId hb in
  stateFor stackID;;
  loadEpochLocked stackID;;
  pruneExpiredLocked stackID now;;
  s ← gets Datatypes.id;
  let '(result, c) := ApplyHeartbeat now
    (mkObs (hb_NodeId hb) (hb_PodName hb) (hb_PodIp hb) (hb_Incarnation hb) (hb_State hb)
       (hb_ProtocolVersion hb) now) (st_cluster (stack stackID s)) in
  set_cluster stackID c;;
  if Stale result then mret () else
  match st_subscribers (stack stackID s) !! hb_NodeId hb with
  | Some current => if bool_decide (current = sub) then mret () else modify (closeSubscriber current)
  | None => mret ()
  end;;
  set_subscribers stackID (<[hb_NodeId hb := sub]> (st_subscribers (stack stackID s)));;
  if Changed result then broadcastLocked stackID TOPOLOGY_REASON_EVENT else
  if hb_ObservedEpoch hb <? cs_epoch c
  then sendLatestLocked stackID sub TOPOLOGY_REASON_BOOKWORM else mret ().

(** [Watch] up to its loop: the stream's first heartbeat registers a new
    subscriber [sub], or gets a standby envelope for an answer. *)
Definition Watch (first : Heartbeat) (sub : nat) : SM (option TopologyEnvelope) :=
  match validateHeartbeat first with
  | Some err => fail err
  | None =>
    s ← gets Datatypes.id;
    if negb (isPrimary s) then mret (Some (standbyEnvelope (hb_StackId first) s)) else
    modify (λ s, set_subs (<[sub := mkSub (hb_NodeId first) [] false]> (sv_subs s)) s);;
    registerHeartbeat first sub;; mret None
  end.

(** One turn of [Watch]'s loop that takes an envelope: what is sent. *)
Definition Watch_send (sub : nat) : SM (option TopologyEnvelope) :=
  s ← gets Datatypes.id;
  modify (try_receive sub);;
  mret (head (from_option sub_ch [] (sv_subs s !! sub))).

(** One heartbeat of [receiveHeartbeats]; [first] opened the stream. *)
Definition receiveHeartbeats (first hb : Heartbeat) (sub : nat) : SM () :=
  if negb (String.eqb (hb_StackId hb) (hb_StackId first))
     || negb (String.eqb (hb_NodeId hb) (hb_NodeId first))
     || negb (hb_Incarnation hb =? hb_Incarnation first)
  then fail ErrIdentityChanged else
  match validateHeartbeat hb with
  | Some err => fail err
  | None => registerHeartbeat hb sub
  end.

Definition unregister (stackID nodeID : string) (sub : nat) : SM () :=
  stateFor stackID;;
  s ← gets Datatypes.id;
  if bool_decide (st_subscribers (stack stackID s) !! nodeID = Some sub)
  then set_subscribers stackID (delete nodeID (st_subscribers (stack stackID s))) else mret ().

Definition ObservePods (stackID : string) (observations : list PodObservation) : SM () :=
  s ← gets Datatypes.id;
  if negb (isPrimary s) then mret () else
  stateFor stackID;;
  ignore_err (
    loadEpochLocked stackID;;
    now ← time_Now;
    s ← gets Datatypes.id;
    let '(changed, c) := ApplyPodObservations now observations (ExpireAfter (sv_cfg s)) now
                           (st_cluster (stack stackID s)) in
    set_cluster stackID c;;
    if changed then broadcastLocked stackID TOPOLOGY_REASON_RECONCILE else mret ()).

Definition GetTopology (stackID : string) : SM TopologyEnvelope :=
  if String.eqb stackID "" then fail ErrStackID else
  s ← gets Datatypes.id;
  if negb (isPrimary s) then mret (standbyEnvelope stackID s) else
  stateFor stackID;;
  loadEpochLocked stackID;;
  now ← time_Now;
  pruneExpiredLocked stackID now;;
  envelope ← envelopeFor stackID TOPOLOGY_REASON_BOOKWORM;
  saveEpochLocked stackID (env_Epoch envelope);;
  mret envelope.

(** A loop over the stacks. *)
Fixpoint each_stack (body : string → SM ()) (ids : list string) : SM () :=
  match ids with
  | [] => mret ()
  | id :: ids => body id;; each_stack body ids
  end.

Definition pruneExpired (now : Z) : SM () :=
  s ← gets Datatypes.id;
  if negb (isPrimary s) then mret () else
  each_stack (λ id, pruneExpiredLocked id now) (order (sv_stacks s)).

Definition broadcastSnapshots (reason : Z) : SM () :=
  s ← gets Datatypes.id;
  if negb (isPrimary s) then mret () else
  each_stack (λ id, broadcastLocked id reason) (order (sv_stacks s)).

(** A tick of [RunReaper] and of [RunBookworm]. *)
Definition RunReaper (now : Z) : SM () :=
  s ← gets Datatypes.id;
  match sv_epochErr s with Some _ => mret () | None => pruneExpired now end.

Definition RunBookworm : SM () :=
  s ← gets Datatypes.id;
  match sv_epochErr s with
  | Some _ => mret ()
  | None => broadcastSnapshots TOPOLOGY_REASON_BOOKWORM
  end.

(** ** Leadership *)

(** Phase 1 for one stack: each subscriber loses the oldest envelope of its
    channel, gets the standby envelope, and leaves the map. *)
Definition demote_stack (stackID : string) (s : service) : service :=
  let envelope := standbyEnvelope stackID s in
  let s' := foldl (λ s sub, try_send sub envelope (try_receive sub s)) s (subscribers_of stackID s) in
  set_stack stackID (mkStack (st_cluster (stack stackID s)) ∅ (st_loadedEpoch (stack stackID s))) s'.

(** The subscribers phase 2 closes. *)
Definition pending_subs (s : service) : list nat :=
  order (sv_stacks s) ≫= λ id, subscribers_of id s.

Definition closeSubscribersForLeadershipChange : SM () :=
  s ← gets Datatypes.id;
  modify (λ s, foldl (λ s id, demote_stack id s) s (order (sv_stacks s)));;
  modify (λ s', foldl (λ s sub, closeSubscriber sub s) s' (pending_subs s)).

Definition set_leader (role generation : Z) (c : TopologyConfig) : TopologyConfig :=
  mkTopologyConfig (SuspectAfter c) (ExpireAfter c) (ReapInterval c) (BookwormInterval c) (LeaseTTL c)
    (WatchdogID c) (if 0 <? generation then generation else tc_Generation c) role (HasStore c).

Definition SetLeadership (role generation : Z) : SM () :=
  s ← gets Datatypes.id;
  let demoted := isPrimary s && negb (role =? WATCHDOG_ROLE_PRIMARY) in
  modify (set_cfg (set_leader role generation (sv_cfg s)));;
  (if demoted then closeSubscribersForLeadershipChange else mret ());;
  modify (λ s, set_observers (Health_SetLeadership role (tc_Generation (sv_cfg s)) <$> sv_observers s) s).

Definition AddLeadershipObserver (observer : LeadershipHealth) : SM () :=
  s ← gets Datatypes.id;
  let observer := Health_SetLeadership (tc_Role (sv_cfg s)) (tc_Generation (sv_cfg s)) observer in
  let observer := match sv_epochErr s with Some _ => SetDegraded true observer | None => observer end in
  modify (set_observers (sv_observers s ++ [observer])).

Definition SetEpochStore (st : store) : SM () :=
  modify (λ s, set_store st (set_cfg
    (let c := sv_cfg s in mkTopologyConfig (SuspectAfter c) (ExpireAfter c) (ReapInterval c)
       (BookwormInterval c) (LeaseTTL c) (WatchdogID c) (tc_Generation c) (tc_Role c) true) s)).

(** ** Weakest preconditions *)

(** [m] run in [s] does not panic, ends in [Q] when it succeeds and in [R]
    when it fails. *)
Definition wp {A} (m : SM A) (s : service) (Q : A → service → Prop) (R : service → Prop) : Prop :=
  match m s with
  | (Done a, s') => Q a s'
  | (Fail _, s') => R s'
  | (Panic, _) => False
  end.

Lemma wp_bind {A B} (m : SM A) (k : A → SM B) s Q R :
  wp m s (λ a s', wp (k a) s' Q R) R → wp (m ≫= k) s Q R.
Proof. unfold wp, mbind, M_bind. destruct (m s) as [[] ?]; done. Qed.

Lemma wp_mono {A} (m : SM A) s (Q Q' : A → service → Prop) (R R' : service → Prop) :
  wp m s Q R → (∀ a s', Q a s' → Q' a s') → (∀ s', R s' → R' s') → wp m s Q' R'.
Proof. unfold wp. destruct (m s) as [[] ?]; eauto. Qed.

Lemma wp_ignore_err (m : SM ()) s Q R : wp m s Q (Q tt) → wp (ignore_err m) s Q R.
Proof. unfold wp, ignore_err. destruct (m s) as [[[]| |] ?]; done. Qed.

(** ** Durable epochs (W2) *)

Section w2.
Variable sid : string.
(** Epochs known to be durable; they stay so. *)
Variable floor : string → Z.

(** The epoch of an envelope of a primary is durable. *)
Definition durable_env (st : store) (env : TopologyEnvelope) : Prop :=
  env_WatchdogRole env = WATCHDOG_ROLE_PRIMARY → env_Epoch env ≤ durable st (env_StackId env).

(** A service with a store that serves the one stack [sid]; a stack whose epoch
    is not loaded is empty, and what waits in a channel is durable. *)
Record w2_base (s : service) : Prop := mkW2Base {
  w2_store : HasStore (sv_cfg s) = true;
  w2_single : ∀ id, is_Some (sv_stacks s !! id) → id = sid;
  w2_unloaded : st_loadedEpoch (stack sid s) = false → st_cluster (stack sid s) = NewClusterState;
  w2_channels : ∀ sub c env, sv_subs s !! sub = Some c → env ∈ sub_ch c →
    durable_env (sv_store s) env;
  w2_floor : ∀ id, floor id ≤ durable (sv_store s) id }.

(** Between handlers, the epoch of the stack itself is durable unless the
    service knows it may not be. *)
Definition w2_epoch (s : service) : Prop :=
  sv_epochErr s = None → cs_epoch (st_cluster (stack sid s)) ≤ durable (sv_store s) sid.
Definition w2 (s : service) : Prop := w2_base s ∧ w2_epoch s.

(** [s'] is [s] but for the clock, the epoch error, the observers and a later
    state of the store. *)
Definition later (s s' : service) : Prop :=
  sv_cfg s' = sv_cfg s ∧ sv_stacks s' = sv_stacks s ∧ sv_subs s' = sv_subs s ∧
  ∀ id, durable (sv_store s) id ≤ durable (sv_store s') id.

Lemma later_stack s s' id : later s s' → stack id s' = stack id s.
Proof. intros (_&Hs&_). unfold stack. by rewrite Hs. Qed.

Lemma later_base s s' : w2_base s → later s s' → w2_base s'.
Proof.
  intros [Hst H1 Hu Hch Hfl] Hl. pose proof Hl as (Hc&Hs&Hsub&Hd). split.
  - by rewrite Hc.
  - by rewrite Hs.
  - by rewrite (later_stack s s' sid Hl).
  - rewrite Hsub. intros sub c env Hc' He Hr. etransitivity; [by eapply Hch|apply Hd].
  - intros id. etransitivity; [apply Hfl|apply Hd].
Qed.

Lemma later_trans s1 s2 s3 : later s1 s2 → later s2 s3 → later s1 s3.
Proof.
  intros (?&?&?&Ha) (?&?&?&Hb). split_and!; [congruence..|].
  intros id. etransitivity; [apply Ha|done].
Qed.

Lemma save_spec epoch s :
  w2_base s →
  wp (saveEpochLocked sid epoch) s
    (λ _ s', later s s' ∧ sv_epochErr s' = None ∧ epoch ≤ durable (sv_store s') sid)
    (λ s', later s s' ∧ sv_epochErr s' ≠ None).
Proof.
  intros [Hst _ _ _ _]. unfold saveEpochLocked. apply wp_bind. unfold wp at 1, gets. cbn.
  rewrite Hst. cbn. destruct (save_epoch sid epoch (sv_store s)) as [ok st] eqn:Hsave.
  pose proof (save_mono sid epoch (sv_store s)) as Hm.
  pose proof (save_durable sid epoch (sv_store s)) as Hd. rewrite Hsave in Hm, Hd. cbn in Hm, Hd.
  destruct ok; cbn; (split; [by split_and!|]); [split; [done|by apply Hd]|done].
Qed.

Lemma envelope_spec id reason s :
  wp (envelopeFor id reason) s
    (λ env s', later s s' ∧ sv_epochErr s' = sv_epochErr s ∧ sv_store s' = sv_store s ∧
       env_StackId env = id ∧ env_Epoch env = cs_epoch (st_cluster (stack id s)) ∧
       env_WatchdogRole env = tc_Role (sv_cfg s))
    (λ _, False).
Proof.
  unfold envelopeFor. apply wp_bind. unfold wp at 1, time_Now. apply wp_bind. unfold wp at 1, gets.
  unfold later. cbn. done.
Qed.

(** Sending a durable envelope keeps the invariant. *)
Lemma try_send_spec sub env s :
  w2_base s → durable_env (sv_store s) env →
  w2_base (try_send sub env s) ∧ sv_stacks (try_send sub env s) = sv_stacks s ∧
  sv_store (try_send sub env s) = sv_store s ∧ sv_epochErr (try_send sub env s) = sv_epochErr s.
Proof.
  intros [Hst H1 Hu Hch Hfl] Henv. unfold try_send. destruct (sv_subs s !! sub) as [c|] eqn:Hc; [|done].
  case_bool_decide; [|done]. split; [|done]. split; try done. cbn.
  intros sub' c' env'. rewrite lookup_insert_Some. intros [[<- <-]|[_ Hc']]; [|by eauto].
  cbn. rewrite elem_of_app, list_elem_of_singleton. intros [?| ->]; eauto.
Qed.

Lemma send_all_spec env subs s :
  w2_base s → durable_env (sv_store s) env →
  let s' := foldl (λ s sub, try_send sub env s) s subs in
  w2_base s' ∧ sv_stacks s' = sv_stacks s ∧ sv_store s' = sv_store s ∧ sv_epochErr s' = sv_epochErr s.
Proof.
  revert s. induction subs as [|sub subs IH]; intros s Hb He; [done|]. cbn.
  destruct (try_send_spec sub env s Hb He) as (Hb'&Hs&Hst&Her).
  destruct (IH (try_send sub env s)) as (?&?&?&?); [done|by rewrite Hst|]. split_and!; congruence.
Qed.

Lemma broadcast_spec reason s R :
  w2_base s → wp (broadcastLocked sid reason) s (λ _ s', w2 s' ∧ sv_stacks s' = sv_stacks s) R.
Proof.
  intros Hb. unfold broadcastLocked. apply wp_bind.
  eapply wp_mono; [apply envelope_spec| |done]. intros env s1 (Hl&_&_&Hid&Hep&_). cbn.
  apply wp_ignore_err, wp_bind. eapply wp_mono; [by apply save_spec, (later_base s)|..]; cbn.
  - intros [] s2 (Hl2&Her&Hd). unfold wp, modify.
    assert (Hl' : later s s2) by by eapply later_trans.
    destruct (send_all_spec env (subscribers_of sid s2) s2) as (Hb'&Hs&Hst&Her').
    + by apply (later_base s).
    + intros _. by rewrite Hid.
    + split; [split; [done|]|rewrite Hs; apply Hl']. intros _. unfold stack. rewrite Hs, Hst.
      rewrite (proj1 (proj2 Hl')). fold (stack sid s). by rewrite <- Hep.
  - intros s2 (Hl2&Her). assert (Hl' : later s s2) by by eapply later_trans.
    split; [split; [by apply (later_base s)|by intros ?]|apply Hl'].
Qed.

Lemma stack_set_stack id st s : stack id (set_stack id st s) = st.
Proof. unfold stack, set_stack. cbn. by rewrite lookup_insert_eq. Qed.

Lemma set_stack_base st s :
  w2_base s → (st_loadedEpoch st = false → st_cluster st = NewClusterState) →
  w2_base (set_stack sid st s).
Proof.
  intros [Hst Hs Hu Hch Hfl] Hnew. split; try done.
  - intros id. cbn. rewrite lookup_insert_is_Some. intros [<-|[_ ?]]; auto.
  - by rewrite stack_set_stack.
Qed.

Lemma set_stack_w2 st s :
  w2 s → (st_loadedEpoch st = false → st_cluster st = NewClusterState) →
  cs_epoch (st_cluster st) = cs_epoch (st_cluster (stack sid s)) → w2 (set_stack sid st s).
Proof.
  intros [Hb He] Hnew Hep. split; [by apply set_stack_base|]. intros Herr.
  rewrite stack_set_stack, Hep. by apply He.
Qed.

Lemma stateFor_spec s R : w2 s → wp (stateFor sid) s (λ _ s', w2 s') R.
Proof.
  intros Hw. unfold wp, stateFor, modify. apply set_stack_w2; [done| |done]. apply (w2_unloaded s), Hw.
Qed.

Lemma setEpochError_later err s : later s (setEpochError err s).2 ∧
  sv_epochErr (setEpochError err s).2 = err ∧ sv_store (setEpochError err s).2 = sv_store s.
Proof. unfold later. cbn. done. Qed.

Lemma load_spec s :
  w2 s → wp (loadEpochLocked sid) s (λ _ s', w2 s' ∧ st_loadedEpoch (stack sid s') = true) w2.
Proof.
  intros [Hb He]. pose proof Hb as [Hst _ Hu _ _]. unfold loadEpochLocked. apply wp_bind.
  unfold wp at 1, gets. unfold Datatypes.id.
  destruct (st_loadedEpoch (stack sid s)) eqn:Hl; [done|]. rewrite Hst. cbn [negb].
  destruct (load_epoch sid (sv_store s)) as [answer st] eqn:Hload.
  pose proof (load_mono sid (sv_store s)) as Hm. pose proof (load_durable sid (sv_store s)) as Hd.
  rewrite Hload in Hm, Hd. cbn in Hm, Hd.
  assert (Hb1 : w2_base (set_store st s)) by (by apply (later_base s); [|split_and!]).
  apply wp_bind. unfold wp at 1, modify. destruct answer as [epoch|].
  - specialize (Hd epoch eq_refl). apply wp_bind. unfold wp at 1, set_loaded, modify.
    change (stack sid (set_store st s)) with (stack sid s). rewrite (Hu eq_refl).
    set (s1 := set_stack sid (mkStack NewClusterState _ true) (set_store st s)).
    apply wp_bind. unfold wp at 1, gets, Datatypes.id. apply wp_bind.
    unfold wp at 1, set_cluster, modify. set (s2 := set_stack sid _ s1). unfold wp.
    assert (stack sid s1 = mkStack NewClusterState (st_subscribers (stack sid s)) true) as Hs1
      by apply stack_set_stack.
    assert (Hb2 : w2_base s2) by (apply set_stack_base; [by apply set_stack_base|by rewrite Hs1]).
    destruct (setEpochError_later None s2) as (Hl2&_&_).
    split; [split; [by apply (later_base s2)|]|].
    + intros _. change (cs_epoch (st_cluster (stack sid s2)) ≤ durable st sid).
      unfold s2. rewrite stack_set_stack, Hs1. cbn. pose proof (durable_nonneg st sid).
      destruct (0 <? epoch); lia.
    + change (st_loadedEpoch (stack sid s2) = true). unfold s2. by rewrite stack_set_stack, Hs1.
  - cbn. split; [|done]. by apply (later_base (set_store st s)).
Qed.

Lemma prune_new clk suspect expire now :
  PruneExpired clk suspect expire now NewClusterState = (false, NewClusterState).
Proof. done. Qed.

Lemma prune_spec now s R :
  w2 s → wp (pruneExpiredLocked sid now) s
    (λ _ s', w2 s' ∧ st_loadedEpoch (stack sid s') = st_loadedEpoch (stack sid s)) R.
Proof.
  intros [Hb He]. unfold pruneExpiredLocked. apply wp_bind. unfold wp at 1, time_Now.
  set (clk := clock (sv_ticks s)).
  assert (w2 (tick s)) as [Hb1 He1] by (split; [by apply (later_base s)|done]).
  apply wp_bind. unfold wp at 1, gets, Datatypes.id. cbn [sv_cfg tick].
  change (stack sid (tick s)) with (stack sid s).
  destruct (PruneExpired _ _ _ _ _) as [changed c] eqn:Hp.
  assert (Hun : st_loadedEpoch (stack sid s) = false → c = NewClusterState ∧ changed = false).
  { intros Hl. rewrite (w2_unloaded s Hb Hl), prune_new in Hp. by injection Hp as <- <-. }
  assert (Hep : changed = false → cs_epoch c = cs_epoch (st_cluster (stack sid s))).
  { unfold PruneExpired in Hp. injection Hp as <- <-. cbn. by intros ->. }
  apply wp_bind. unfold wp at 1, set_cluster, modify.
  destruct changed; cbn [negb].
  - destruct (Members _ _ _ _) as [members ?]. apply wp_bind. unfold wp at 1, set_subscribers, modify.
    rewrite stack_set_stack. eapply wp_mono; [apply broadcast_spec| |done].
    + apply set_stack_base; [apply set_stack_base; [done|]|]; cbn; intros Hl; by apply Hun.
    + cbn. intros [] s' [Hw Hs]. split; [done|]. unfold stack at 1. rewrite Hs. cbn.
      by rewrite lookup_insert_eq.
  - unfold wp, mret, M_ret. split; [|by rewrite stack_set_stack].
    apply set_stack_w2; [done| |by apply Hep]. cbn. intros Hl. by apply Hun.
Qed.

Lemma sendLatest_spec sub reason s R :
  w2 s → wp (sendLatestLocked sid sub reason) s (λ _ s', w2 s') R.
Proof.
  intros [Hb He]. unfold sendLatestLocked. apply wp_bind. unfold wp at 1, gets, Datatypes.id.
  destruct (sv_epochErr s) eqn:Her; [by split|]. specialize (He Her).
  apply wp_bind. eapply wp_mono; [apply envelope_spec| |done].
  cbn. intros env s1 (Hl&Her1&Hst1&Hid&Hep&_). unfold wp, modify.
  destruct (try_send_spec sub env s1) as (Hb'&Hs&Hst&Her2);
    [by apply (later_base s)|intros _; rewrite Hid, Hep, Hst1; done|].
  split; [done|]. intros _. unfold stack. rewrite Hs, Hst, Hst1, (proj1 (proj2 Hl)). done.
Qed.

(** Operations on the channels. *)
Lemma closeSubscriber_base sub s : w2_base s → w2_base (closeSubscriber sub s) ∧
  sv_stacks (closeSubscriber sub s) = sv_stacks s.
Proof.
  intros [Hst Hs Hu Hch Hfl]. unfold closeSubscriber.
  destruct (sv_subs s !! sub) as [c|] eqn:Hc; [|by split; [split|]]. split; [|done].
  split; try done. cbn.
  intros sub' c' env. rewrite lookup_insert_Some. intros [[<- <-]|[_ ?]]; eauto.
Qed.

Lemma close_spec sub s : w2 s → w2 (closeSubscriber sub s).
Proof.
  intros [Hb He]. split; [by apply closeSubscriber_base|]. unfold w2_epoch, closeSubscriber in *.
  by destruct (sv_subs s !! sub).
Qed.

Lemma receive_spec sub s : w2 s → w2 (try_receive sub s).
Proof.
  intros [[Hst Hs Hu Hch Hfl] He]. unfold try_receive.
  destruct (sv_subs s !! sub) as [c|] eqn:Hc; [|by split]. split; [|done]. split; try done. cbn.
  intros sub' c' env. rewrite lookup_insert_Some. intros [[<- <-]|[_ ?]]; eauto.
  cbn. intros Hin. eapply Hch; [done|]. destruct (sub_ch c); [done|]. by right.
Qed.

Lemma heartbeat_epoch clk obs c r c' :
  ApplyHeartbeat clk obs c = (r, c') → Changed r = false → cs_epoch c' = cs_epoch c.
Proof.
  unfold ApplyHeartbeat. cbn. destruct (cs_nodes c !! _) as [n|]; [|by intros [= <- <-]].
  destruct (_ <? n_Incarnation n); [by intros [= <- <-]|].
  destruct (if n_Incarnation n <? _ then _ else _) as [tr n'].
  intros [= <- <-]. cbn. by intros ->.
Qed.

Lemma register_spec hb sub s :
  hb_StackId hb = sid → w2 s → wp (registerHeartbeat hb sub) s (λ _ s', w2 s') w2.
Proof.
  intros Hsid Hw. unfold registerHeartbeat. rewrite Hsid.
  apply wp_bind. unfold wp at 1, time_Now. set (now := clock (sv_ticks s)).
  assert (w2 (tick s)) as Hw1 by (destruct Hw; split; [by apply (later_base s)|done]).
  apply wp_bind. eapply wp_mono; [by apply stateFor_spec| |done]. cbn. intros _ s2 Hw2.
  apply wp_bind. eapply wp_mono; [by apply load_spec| |done]. cbn. intros _ s3 [Hw3 Hl3].
  apply wp_bind. eapply wp_mono; [by apply prune_spec| |done]. cbn. intros _ s4 [Hw4 Hl4].
  rewrite Hl3 in Hl4. apply wp_bind. unfold wp at 1, gets, Datatypes.id.
  destruct (ApplyHeartbeat _ _ _) as [result c] eqn:Ha.
  apply wp_bind. unfold wp at 1, set_cluster, modify. rewrite Hl4.
  set (s5 := set_stack sid _ s4). assert (Hb5 : w2_base s5) by (by apply set_stack_base; [apply Hw4|]).
  assert (Hep : Changed result = false → w2 s5).
  { intros Hc. apply set_stack_w2; [done..|]. cbn. by eapply heartbeat_epoch. }
  destruct (Stale result) eqn:Hst.
  { apply Hep. unfold ApplyHeartbeat in Ha. cbv zeta in Ha. repeat case_match; by simplify_eq. }
  apply wp_bind. apply (wp_mono _ _ (λ _ s', w2_base s' ∧ (Changed result = false → w2 s') ∧
    stack sid s' = stack sid s5) _ (λ _, False)); [|cbn|done].
  { case_match; [case_bool_decide|]; try done.
    unfold wp, modify. destruct (closeSubscriber_base n s5 Hb5) as [??].
    split_and!; [done| |by unfold stack; f_equal; f_equal].
    intros Hc. by apply close_spec, Hep. }
  intros _ s6 (Hb6&Hep6&Hs6). apply wp_bind. unfold wp at 1, set_subscribers, modify.
  rewrite Hs6. unfold s5. rewrite stack_set_stack. cbn [st_cluster st_loadedEpoch].
  destruct (Changed result) eqn:Hc.
  - eapply wp_mono; [apply broadcast_spec; by apply set_stack_base| |done]. by intros ?? [? _].
  - specialize (Hep6 eq_refl).
    assert (w2 (set_stack sid (mkStack c (<[hb_NodeId hb := sub]> (st_subscribers (stack sid s4))) true) s6)).
    { apply set_stack_w2; [done..|]. cbn. rewrite Hs6. unfold s5. by rewrite stack_set_stack. }
    destruct (_ <? _); [by apply sendLatest_spec|done].
Qed.

Lemma tick_w2 s : w2 s → w2 (tick s).
Proof. intros [Hb He]. split; [by apply (later_base s)|done]. Qed.

Lemma standby_durable s : isPrimary s = false → durable_env (sv_store s) (standbyEnvelope sid s).
Proof. unfold isPrimary, durable_env. cbn. intros Hp Hr. rewrite Hr in Hp. done. Qed.

Lemma watch_spec first sub s :
  hb_StackId first = sid → w2 s →
  wp (Watch first sub) s (λ o s', w2 s' ∧ ∀ env, o = Some env → durable_env (sv_store s') env) w2.
Proof.
  intros Hsid Hw. unfold Watch. destruct (validateHeartbeat first); [done|]. rewrite Hsid.
  apply wp_bind. unfold wp at 1, gets, Datatypes.id. destruct (isPrimary s) eqn:Hp; cbn [negb].
  - apply wp_bind. unfold wp at 1, modify. apply wp_bind. eapply wp_mono; [apply register_spec|..]; try done.
    destruct Hw as [[Hst Hs Hu Hch Hfl] He]. split; [|done]. split; try done. cbn.
    intros sub' c env. rewrite lookup_insert_Some. intros [[<- <-]|[_ ?]]; [|by eauto].
    by intros ?%not_elem_of_nil.
  - split; [done|]. intros env [= <-]. by apply standby_durable.
Qed.

Lemma receiveHeartbeats_spec first hb sub s :
  hb_StackId first = sid → w2 s → wp (receiveHeartbeats first hb sub) s (λ _ s', w2 s') w2.
Proof.
  intros Hsid Hw. unfold receiveHeartbeats. rewrite Hsid.
  destruct (String.eqb_spec (hb_StackId hb) sid) as [Hhb|]; [|done].
  destruct (_ || _); [done|]. destruct (validateHeartbeat hb); [done|]. by apply register_spec.
Qed.

Lemma send_spec sub s :
  w2 s → wp (Watch_send sub) s
    (λ o s', w2 s' ∧ ∀ env, o = Some env → durable_env (sv_store s') env) w2.
Proof.
  intros Hw. unfold wp, Watch_send. cbn. split; [by apply receive_spec|].
  unfold Datatypes.id. intros env Henv. replace (sv_store (try_receive sub s)) with (sv_store s)
    by (unfold try_receive; by case_match).
  destruct (sv_subs s !! sub) as [c|] eqn:Hc; [|done]. cbn in Henv.
  destruct Hw as [[_ _ _ Hch _] _]. apply (Hch sub c env Hc), head_Some_elem_of, Henv.
Qed.

Lemma unregister_spec nodeID sub s : w2 s → wp (unregister sid nodeID sub) s (λ _ s', w2 s') w2.
Proof.
  intros Hw. unfold unregister. apply wp_bind. eapply wp_mono; [by apply stateFor_spec| |done].
  intros [] s1 Hw1. apply wp_bind. unfold wp at 1, gets, Datatypes.id. case_bool_decide; [|done].
  unfold wp, set_subscribers, modify. apply set_stack_w2; [done| |done]. apply (w2_unloaded s1), Hw1.
Qed.

Lemma observe_spec observations s R : w2 s → wp (ObservePods sid observations) s (λ _ s', w2 s') R.
Proof.
  intros Hw. unfold ObservePods. apply wp_bind. unfold wp at 1, gets, Datatypes.id.
  destruct (isPrimary s); [|done]. cbn [negb].
  apply wp_bind. eapply wp_mono; [by apply stateFor_spec| |done]. intros [] s1 Hw1.
  apply wp_ignore_err, wp_bind. eapply wp_mono; [by apply load_spec| |done]. intros [] s2 [Hw2 Hl].
  apply wp_bind. unfold wp at 1, time_Now. apply wp_bind. unfold wp at 1, gets, Datatypes.id.
  apply tick_w2 in Hw2. set (now := clock (sv_ticks s2)). cbn beta.
  change (stack sid (tick s2)) with (stack sid s2).
  destruct (ApplyPodObservations _ _ _ _ _) as [changed c] eqn:Ha.
  apply wp_bind. unfold wp at 1, set_cluster, modify. change (stack sid (tick s2)) with (stack sid s2).
  destruct changed.
  - eapply wp_mono; [apply broadcast_spec; apply set_stack_base; [apply Hw2|cbn; congruence]| |done].
    by intros ?? [? _].
  - unfold wp, mret, M_ret. apply set_stack_w2; [done|cbn; congruence|].
    unfold ApplyPodObservations in Ha. injection Ha as Hch <-. cbn. by rewrite Hch.
Qed.

Lemma get_spec s :
  w2 s → wp (GetTopology sid) s (λ env s', w2 s' ∧ durable_env (sv_store s') env) w2.
Proof.
  intros Hw. unfold GetTopology. destruct (String.eqb sid ""); [done|].
  apply wp_bind. unfold wp at 1, gets, Datatypes.id. destruct (isPrimary s) eqn:Hp; cbn [negb].
  2: { split; [done|]. by apply standby_durable. }
  apply wp_bind. eapply wp_mono; [by apply stateFor_spec| |done]. intros [] s1 Hw1.
  apply wp_bind. eapply wp_mono; [by apply load_spec| |done]. cbn. intros _ s2 [Hw2 _].
  apply wp_bind. unfold wp at 1, time_Now.
  apply wp_bind. eapply wp_mono; [by apply prune_spec, tick_w2| |done]. cbn. intros _ s3 [[Hb He] _].
  apply wp_bind. eapply wp_mono; [apply envelope_spec| |done]. cbn. intros env s4 (Hl&_&_&Hid&Hep&_).
  apply wp_bind. eapply wp_mono; [by apply save_spec, (later_base s3)|..]; cbn.
  - intros _ s5 (Hl5&_&Hd). assert (later s3 s5) as Hl' by by eapply later_trans.
    unfold wp, mret, M_ret. split; [split; [by apply (later_base s3)|]|intros _; by rewrite Hid].
    intros _. rewrite (later_stack s3) by done. by rewrite <- Hep.
  - intros s5 (Hl5&Her). assert (later s3 s5) as Hl' by by eapply later_trans.
    split; [by apply (later_base s3)|by intros ?].
Qed.

Lemma each_stack_spec body ids s R :
  (∀ s, w2 s → wp (body sid) s (λ _ s', w2 s') (λ _, False)) →
  Forall (eq sid) ids → w2 s → wp (each_stack body ids) s (λ _ s', w2 s') R.
Proof.
  intros Hbody Hids. revert s. induction Hids as [|id ids <- _ IH]; intros s Hw; cbn; [done|].
  apply wp_bind. eapply wp_mono; [by apply Hbody| |done]. intros [] s1 Hw1. by apply IH.
Qed.

Lemma order_single s : w2 s → Forall (eq sid) (order (sv_stacks s)).
Proof.
  intros [[_ Hs _ _ _] _]. rewrite order_keys, Forall_forall. intros id Hid. symmetry. apply Hs.
  apply list_elem_of_fmap in Hid as ([id' st]&->&Hid%elem_of_map_to_list). by exists st.
Qed.

Lemma reaper_spec now s R : w2 s → wp (RunReaper now) s (λ _ s', w2 s') R.
Proof.
  intros Hw. unfold RunReaper. apply wp_bind. unfold wp at 1, gets, Datatypes.id.
  destruct (sv_epochErr s); [done|]. unfold pruneExpired. apply wp_bind.
  unfold wp at 1, gets, Datatypes.id. destruct (isPrimary s); [|done]. cbn [negb].
  apply each_stack_spec; [|by apply order_single|done]. intros s1 Hw1.
  eapply wp_mono; [by apply (prune_spec now s1 (λ _, False))| |done]. by intros ?? [? _].
Qed.

Lemma bookworm_spec s R : w2 s → wp RunBookworm s (λ _ s', w2 s') R.
Proof.
  intros Hw. unfold RunBookworm. apply wp_bind. unfold wp at 1, gets, Datatypes.id.
  destruct (sv_epochErr s); [done|]. unfold broadcastSnapshots. apply wp_bind.
  unfold wp at 1, gets, Datatypes.id. destruct (isPrimary s); [|done]. cbn [negb].
  apply each_stack_spec; [|by apply order_single|done]. intros s1 [Hb1 _].
  eapply wp_mono; [by apply (broadcast_spec _ s1 (λ _, False))| |done]. by intros ?? [? _].
Qed.

Lemma demote_sub_spec sub env s :
  w2 s → durable_env (sv_store s) env → w2 (try_send sub env (try_receive sub s)) ∧
  sv_cfg (try_send sub env (try_receive sub s)) = sv_cfg s ∧
  sv_store (try_send sub env (try_receive sub s)) = sv_store s.
Proof.
  intros Hw Henv. pose proof (receive_spec sub s Hw) as [Hb He].
  assert (sv_store (try_receive sub s) = sv_store s ∧ sv_cfg (try_receive sub s) = sv_cfg s) as [Hst Hc]
    by (unfold try_receive; by case_match).
  destruct (try_send_spec sub env (try_receive sub s)) as (Hb'&Hs&Hst'&Her); [done|by rewrite Hst|].
  split_and!; [|rewrite <- Hc; unfold try_send; repeat case_match; done|congruence].
  split; [done|]. unfold w2_epoch, stack in *. by rewrite Her, Hs, Hst'.
Qed.

Lemma demote_stack_spec s :
  isPrimary s = false → w2 s → w2 (demote_stack sid s) ∧ isPrimary (demote_stack sid s) = false.
Proof.
  intros Hp Hw. unfold demote_stack.
  assert (∀ subs s1, durable_env (sv_store s1) (standbyEnvelope sid s) → w2 s1 → isPrimary s1 = false →
    let s2 := foldl (λ s0 sub, try_send sub (standbyEnvelope sid s) (try_receive sub s0)) s1 subs in
    w2 s2 ∧ isPrimary s2 = false) as Hfold.
  { induction subs as [|sub subs IH]; intros s1 Henv Hw1 Hp1; [done|]. cbn.
    destruct (demote_sub_spec sub _ s1 Hw1 Henv) as (Hw2&Hc&Hst).
    apply IH; [by rewrite Hst|done|]. unfold isPrimary in *. by rewrite Hc. }
  destruct (Hfold (subscribers_of sid s) s) as [Hw' Hp']; [by apply standby_durable|done..|].
  split; [|done]. apply set_stack_w2; [done|apply (w2_unloaded s), Hw|]. cbn. f_equal.
  generalize (subscribers_of sid s). clear -s. intros subs. unfold stack at 1. generalize s at 1 3.
  induction subs as [|sub subs IH]; intros s1; [done|]. cbn. rewrite <- IH.
  unfold stack, try_send, try_receive. by repeat (case_match || case_bool_decide || cbn).
Qed.

Lemma set_cfg_w2 c s : w2 s → HasStore c = HasStore (sv_cfg s) → w2 (set_cfg c s).
Proof. intros [[Hst Hs Hu Hch Hfl] He] Hc. split; [|done]. split; try done. cbn. by rewrite Hc. Qed.

Lemma leadership_spec role generation s R :
  w2 s → wp (SetLeadership role generation) s (λ _ s', w2 s') R.
Proof.
  intros Hw. unfold SetLeadership. apply wp_bind. unfold wp at 1, gets, Datatypes.id.
  apply wp_bind. unfold wp at 1, modify.
  assert (w2 (set_cfg (set_leader role generation (sv_cfg s)) s)) as Hw1 by by apply set_cfg_w2.
  set (s1 := set_cfg _ s) in *. apply wp_bind.
  assert (∀ s2, w2 s2 → wp (modify (λ s, set_observers
    (Health_SetLeadership role (tc_Generation (sv_cfg s)) <$> sv_observers s) s)) s2 (λ _ s', w2 s') R) as Hobs.
  { intros s2 [Hb He]. split; [by apply (later_base s2)|done]. }
  destruct (isPrimary s && negb (role =? WATCHDOG_ROLE_PRIMARY)) eqn:Hd; [|by apply Hobs].
  apply andb_true_iff in Hd as [_ Hr]. apply negb_true_iff in Hr.
  unfold closeSubscribersForLeadershipChange. apply wp_bind. unfold wp at 1, gets, Datatypes.id.
  apply wp_bind. unfold wp at 1, modify. unfold wp at 1, modify. apply Hobs.
  assert (isPrimary s1 = false) as Hp1 by done.
  generalize (pending_subs s1). intros pending.
  assert (∀ ids s2, Forall (eq sid) ids → w2 s2 → isPrimary s2 = false →
    w2 (foldl (λ s id, demote_stack id s) s2 ids)) as Hdem.
  { induction ids as [|id ids IH]; intros s2 Hids Hw2 Hp2; [done|]. cbn.
    apply Forall_cons in Hids as [<- Hids]. destruct (demote_stack_spec s2) as [??]; [done..|]. by apply IH. }
  pose proof (Hdem (order (sv_stacks s1)) s1 (order_single s1 Hw1) Hw1 Hp1) as Hw2.
  revert Hw2. generalize (foldl (λ s id, demote_stack id s) s1 (order (sv_stacks s1))).
  induction pending as [|sub pending IH]; intros s2 Hw2; [done|]. cbn. by apply IH, close_spec.
Qed.

Lemma observer_spec h s R : w2 s → wp (AddLeadershipObserver h) s (λ _ s', w2 s') R.
Proof. intros [Hb He]. split; [by apply (later_base s)|done]. Qed.
End w2.

(** ** Runs of the service *)

(** What happens to a service that serves the stack [sid]. *)
Inductive svc_op :=
| OWatch (first : Heartbeat) (sub : nat)
| OReceive (first hb : Heartbeat) (sub : nat)
| OSend (sub : nat)
| OUnregister (nodeID : string) (sub : nat)
| OObserve (observations : list PodObservation)
| OGet
| OReap (now : Z)
| OBookworm
| OLead (role generation : Z)
| OAddObserver (h : LeadershipHealth).

(** The envelopes an operation hands to the outside. *)
Definition exec_op (sid : string) (op : svc_op) : SM (list TopologyEnvelope) :=
  match op with
  | OWatch first sub => o ← Watch first sub; mret (option_list o)
  | OReceive first hb sub => receiveHeartbeats first hb sub;; mret []
  | OSend sub => o ← Watch_send sub; mret (option_list o)
  | OUnregister nodeID sub => unregister sid nodeID sub;; mret []
  | OObserve observations => ObservePods sid observations;; mret []
  | OGet => env ← GetTopology sid; mret [env]
  | OReap now => RunReaper now;; mret []
  | OBookworm => RunBookworm;; mret []
  | OLead role generation => SetLeadership role generation;; mret []
  | OAddObserver h => AddLeadershipObserver h;; mret []
  end.

(** A heartbeat of another stack would add that stack to the service. *)
Definition on_stack (sid : string) (op : svc_op) : Prop :=
  match op with
  | OWatch first _ | OReceive first _ _ => hb_StackId first = sid
  | _ => True
  end.

(** The service goes on after a handler that fails. *)
Definition run1 (sid : string) (op : svc_op) (s : service) : list TopologyEnvelope * service :=
  match exec_op sid op s with (Done out, s') => (out, s') | (_, s') => ([], s') end.

Fixpoint run_svc (sid : string) (ops : list svc_op) (s : service) :
    list TopologyEnvelope * service :=
  match ops with
  | [] => ([], s)
  | op :: ops => let '(out, s1) := run1 sid op s in
                 let '(out', s2) := run_svc sid ops s1 in (out ++ out', s2)
  end.

Lemma exec_spec sid floor op s :
  on_stack sid op → w2 sid floor s →
  wp (exec_op sid op) s (λ out s', w2 sid floor s' ∧ Forall (durable_env (sv_store s')) out)
    (w2 sid floor).
Proof.
  intros Hon Hw. destruct op; cbn [exec_op]; apply wp_bind.
  - eapply wp_mono; [by apply watch_spec| |done]. intros o s' [Hw' Hd].
    split; [done|]. destruct o; repeat constructor. by apply Hd.
  - eapply wp_mono; [by apply receiveHeartbeats_spec| |done]. intros ? s' Hw'. split; [done|constructor].
  - eapply wp_mono; [by apply send_spec| |done]. intros o s' [Hw' Hd].
    split; [done|]. destruct o; repeat constructor. by apply Hd.
  - eapply wp_mono; [by apply unregister_spec| |done]. intros ? s' Hw'. split; [done|constructor].
  - eapply wp_mono; [by apply (observe_spec sid floor)| |by intros ? ?]. intros ? s' Hw'. split; [done|constructor].
  - eapply wp_mono; [by apply get_spec| |done]. intros env s' [Hw' Hd].
    split; [done|]. by repeat constructor.
  - eapply wp_mono; [by apply (reaper_spec sid floor)| |by intros ? ?]. intros ? s' Hw'. split; [done|constructor].
  - eapply wp_mono; [by apply (bookworm_spec sid floor)| |by intros ? ?]. intros ? s' Hw'. split; [done|constructor].
  - eapply wp_mono; [by apply (leadership_spec sid floor)| |by intros ? ?]. intros ? s' Hw'. split; [done|constructor].
  - eapply wp_mono; [by apply (observer_spec sid floor)| |by intros ? ?]. intros ? s' Hw'. split; [done|constructor].
Qed.

Lemma run1_spec sid floor op s :
  on_stack sid op → w2 sid floor s →
  w2 sid floor (run1 sid op s).2 ∧ Forall (durable_env (sv_store (run1 sid op s).2)) (run1 sid op s).1.
Proof.
  intros Hon Hw. pose proof (exec_spec sid floor op s Hon Hw) as Hwp. unfold wp, run1 in *.
  destruct (exec_op sid op s) as [[out| |] s']; [done|by split; [|constructor]|done].
Qed.

Lemma w2_raise sid floor s : w2 sid floor s → w2 sid (durable (sv_store s)) s.
Proof. intros [[????] ?]. split; [by split|done]. Qed.

(** Durable epochs stay durable along a run. *)
Lemma run_svc_mono sid ops s floor id :
  Forall (on_stack sid) ops → w2 sid floor s →
  durable (sv_store s) id ≤ durable (sv_store (run_svc sid ops s).2) id.
Proof.
  intros Hops. revert s floor. induction Hops as [|op ops Hop _ IH]; intros s floor Hw; cbn; [lia|].
  destruct (run1_spec sid _ op s Hop (w2_raise sid floor s Hw)) as [Hw1 _].
  destruct (run1 sid op s) as [out s1]. cbn in Hw1. pose proof (IH s1 _ Hw1) as Hm.
  destruct (run_svc sid ops s1) as [out' s2]. cbn in *.
  pose proof (w2_floor _ _ _ (proj1 Hw1) id). lia.
Qed.

(** A service that has just started. *)
Lemma fresh_w2 sid floor now cfg st :
  HasStore cfg = true → (∀ id, floor id ≤ durable st id) →
  w2 sid floor (NewServiceWithConfig now cfg st).
Proof.
  intros Hst Hfl. split.
  - split; try done. intros id. cbn. rewrite lookup_empty. by intros [? ?].
  - intros _. cbn. apply durable_nonneg.
Qed.

Lemma run_svc_durable sid floor ops s out s' :
  w2 sid floor s → Forall (on_stack sid) ops → run_svc sid ops s = (out, s') →
  Forall (durable_env (sv_store s')) out.
Proof.
  intros Hw Hops. revert s floor Hw out s'.
  induction Hops as [|op ops Hop Hops IH]; intros s floor Hw out s' Hrun; cbn in Hrun;
    [injection Hrun as <- <-; constructor|].
  destruct (run1_spec sid floor op s Hop Hw) as [Hw1 Hd1].
  destruct (run1 sid op s) as [out1 s1]. cbn in *.
  pose proof (run_svc_mono sid ops s1 floor) as Hm.
  destruct (run_svc sid ops s1) as [out2 s2] eqn:Hr. injection Hrun as <- <-. cbn in Hm.
  apply Forall_app. split; [|by eapply IH]. eapply Forall_impl; [done|].
  intros env Henv Hrole. etransitivity; [by apply Henv|by apply Hm].
Qed.


(** ** Demotion *)

Definition heap_ok (s : service) : Prop :=
  map_Forall (λ _ c, length (sub_ch c) ≤ sub_capacity)%nat (sv_subs s).

(** The last thing in the channel of [sub] is a notice that the primary has
    changed, from a watchdog in the role [role]. *)
Definition stood_down (role : Z) (s : service) (sub : nat) : Prop :=
  ∃ c env, sv_subs s !! sub = Some c ∧ last (sub_ch c) = Some env ∧
    env_WatchdogRole env = role ∧ env_Reason env = TOPOLOGY_REASON_PRIMARY_CHANGE.

Lemma demote_sub env s sub :
  heap_ok s → is_Some (sv_subs s !! sub) → env_Reason env = TOPOLOGY_REASON_PRIMARY_CHANGE →
  let s' := try_send sub env (try_receive sub s) in
  heap_ok s' ∧ sv_cfg s' = sv_cfg s ∧ sv_stacks s' = sv_stacks s ∧ dom (sv_subs s') = dom (sv_subs s) ∧
  stood_down (env_WatchdogRole env) s' sub ∧
  ∀ role sub', role = env_WatchdogRole env → stood_down role s sub' → stood_down role s' sub'.
Proof.
  intros Hok [c Hc] Hre. cbn. unfold try_receive. rewrite Hc. unfold try_send. cbn.
  rewrite lookup_insert_eq. cbn. pose proof (Hok _ _ Hc) as Hlen. cbn in Hlen.
  rewrite bool_decide_eq_true_2
    by (destruct (sub_ch c); cbn in *; unfold sub_capacity in *; lia).
  cbn. rewrite insert_insert_eq.
  assert (stood_down (env_WatchdogRole env) (set_subs (<[sub := mkSub (sub_nodeID c)
    (tail (sub_ch c) ++ [env]) (sub_done c)]> (sv_subs s)) s) sub) as Hsd.
  { eexists _, env. cbn. rewrite lookup_insert_eq. split; [done|]. cbn. by rewrite last_snoc. }
  split_and!; try done.
  - unfold heap_ok. cbn. apply map_Forall_insert_2; [|done]. cbn. rewrite length_app. cbn.
    destruct (sub_ch c); cbn in *; unfold sub_capacity in *; lia.
  - cbn. rewrite dom_insert_L. apply elem_of_dom_2 in Hc. set_solver.
  - intros role sub' -> (c'&env'&Hc'&?&?&?). destruct (decide (sub' = sub)) as [->|Hne]; [done|].
    exists c', env'. cbn. by rewrite lookup_insert_ne.
Qed.

Lemma demote_subs env subs s :
  heap_ok s → Forall (λ sub, is_Some (sv_subs s !! sub)) subs →
  env_Reason env = TOPOLOGY_REASON_PRIMARY_CHANGE →
  let s' := foldl (λ s sub, try_send sub env (try_receive sub s)) s subs in
  heap_ok s' ∧ sv_cfg s' = sv_cfg s ∧ sv_stacks s' = sv_stacks s ∧ dom (sv_subs s') = dom (sv_subs s) ∧
  Forall (stood_down (env_WatchdogRole env) s') subs ∧
  ∀ sub', stood_down (env_WatchdogRole env) s sub' → stood_down (env_WatchdogRole env) s' sub'.
Proof.
  intros Hok Hsome Hre. revert s Hok Hsome.
  induction subs as [|sub subs IH]; intros s Hok Hsome; [done|]. cbn.
  apply Forall_cons in Hsome as [Hs Hsome].
  destruct (demote_sub env s sub) as (Hok1&Hc1&Hst1&Hd1&Hsd1&Hkeep1); [done..|].
  destruct (IH (try_send sub env (try_receive sub s))) as (Hok2&Hc2&Hst2&Hd2&Hsd2&Hkeep2); [done| |].
  { eapply Forall_impl; [done|]. intros sub'. cbn. rewrite <- !elem_of_dom. by rewrite Hd1. }
  split_and!; try congruence; [done| |].
  - constructor; [by apply Hkeep2|done].
  - intros sub' Hsub'. by apply Hkeep2, Hkeep1.
Qed.

(** Every subscriber of every stack is in the heap. *)
Definition subs_ok (s : service) : Prop :=
  ∀ id, Forall (λ sub, is_Some (sv_subs s !! sub)) (subscribers_of id s).

Lemma subs_ok_check s :
  map_Forall (λ _ st, Forall (λ sub, is_Some (sv_subs s !! sub)) (map_to_list (st_subscribers st)).*2)
    (sv_stacks s) → subs_ok s.
Proof.
  intros Hall id. unfold subscribers_of, stack. destruct (sv_stacks s !! id) as [st|] eqn:Hid.
  - by apply (Hall id).
  - constructor.
Qed.

Lemma demote_stack_effect id s :
  heap_ok s → subs_ok s →
  let s' := demote_stack id s in
  heap_ok s' ∧ subs_ok s' ∧ sv_cfg s' = sv_cfg s ∧ dom (sv_subs s') = dom (sv_subs s) ∧
  sv_stacks s' = <[id := mkStack (st_cluster (stack id s)) ∅ (st_loadedEpoch (stack id s))]> (sv_stacks s) ∧
  Forall (stood_down (tc_Role (sv_cfg s)) s') (subscribers_of id s) ∧
  ∀ sub, stood_down (tc_Role (sv_cfg s)) s sub → stood_down (tc_Role (sv_cfg s)) s' sub.
Proof.
  intros Hok Hsubs. unfold demote_stack.
  pose proof (demote_subs (standbyEnvelope id s) (subscribers_of id s) s Hok (Hsubs id) eq_refl) as Hdem.
  cbv zeta in Hdem |- *. revert Hdem. generalize (foldl
    (λ s0 sub, try_send sub (standbyEnvelope id s) (try_receive sub s0)) s (subscribers_of id s)).
  intros s2 (Hok1&Hc&Hst&Hd&Hsd&Hkeep). cbn. rewrite Hst. split_and!; try done.
  intros id'. unfold subscribers_of, stack. cbn. rewrite Hst.
  destruct (decide (id' = id)) as [->|Hne]; [rewrite lookup_insert_eq; constructor|].
  rewrite lookup_insert_ne by done. eapply Forall_impl; [apply (Hsubs id')|].
  intros sub. cbn. rewrite <- !elem_of_dom. by rewrite Hd.
Qed.

Lemma demote_stacks ids s :
  heap_ok s → subs_ok s →
  let s' := foldl (λ s id, demote_stack id s) s ids in
  sv_cfg s' = sv_cfg s ∧ dom (sv_subs s') = dom (sv_subs s) ∧
  (∀ id, st_subscribers (stack id s') = if bool_decide (id ∈ ids) then ∅ else st_subscribers (stack id s)) ∧
  (∀ id sub, id ∈ ids → sub ∈ subscribers_of id s → stood_down (tc_Role (sv_cfg s)) s' sub) ∧
  (∀ sub, stood_down (tc_Role (sv_cfg s)) s sub → stood_down (tc_Role (sv_cfg s)) s' sub).
Proof.
  revert s. induction ids as [|id ids IH]; intros s Hok Hsubs; cbn.
  { split_and!; try done. by intros id sub ?%not_elem_of_nil. }
  destruct (demote_stack_effect id s) as (Hok1&Hsubs1&Hc1&Hd1&Hst1&Hsd1&Hkeep1); [done..|].
  destruct (IH (demote_stack id s) Hok1 Hsubs1) as (Hc2&Hd2&Hem2&Hsd2&Hkeep2). rewrite Hc1 in Hsd2, Hkeep2.
  assert (Hother : ∀ id', id' ≠ id → stack id' (demote_stack id s) = stack id' s).
  { intros id' Hne. unfold stack. by rewrite Hst1, lookup_insert_ne. }
  split_and!; [congruence..| | |auto].
  - intros id'. rewrite Hem2. destruct (decide (id' = id)) as [->|Hne].
    + rewrite (bool_decide_eq_true_2 (id ∈ id :: ids)) by by left.
      unfold stack. rewrite Hst1, lookup_insert_eq. by case_bool_decide.
    + rewrite Hother by done. by rewrite (bool_decide_ext (id' ∈ id :: ids) (id' ∈ ids)) by set_solver.
  - intros id' sub Hin Hsub. destruct (decide (id' = id)) as [->|Hne].
    + apply Hkeep2. by apply (proj1 (Forall_forall _ _) Hsd1).
    + apply (Hsd2 id'); [set_solver|]. unfold subscribers_of. by rewrite Hother.
Qed.

Lemma close_effect sub s :
  let s' := closeSubscriber sub s in
  sv_cfg s' = sv_cfg s ∧ sv_stacks s' = sv_stacks s ∧ sv_observers s' = sv_observers s ∧
  (is_Some (sv_subs s !! sub) → sub_done <$> sv_subs s' !! sub = Some true) ∧
  (∀ sub', sub_done <$> sv_subs s !! sub' = Some true → sub_done <$> sv_subs s' !! sub' = Some true) ∧
  (∀ sub', sub_ch <$> sv_subs s' !! sub' = sub_ch <$> sv_subs s !! sub') ∧
  dom (sv_subs s') = dom (sv_subs s).
Proof.
  cbn. unfold closeSubscriber. destruct (sv_subs s !! sub) as [c|] eqn:Hc; cbn.
  - split_and!; try done; [by rewrite lookup_insert_eq|..].
    + intros sub' Hs. destruct (decide (sub' = sub)) as [->|];
        [by rewrite lookup_insert_eq|by rewrite lookup_insert_ne].
    + intros sub'. destruct (decide (sub' = sub)) as [->|];
        [by rewrite lookup_insert_eq, Hc|by rewrite lookup_insert_ne].
    + rewrite dom_insert_L. apply elem_of_dom_2 in Hc. set_solver.
  - split_and!; done.
Qed.

Lemma close_all subs s :
  let s' := foldl (λ s sub, closeSubscriber sub s) s subs in
  sv_cfg s' = sv_cfg s ∧ sv_stacks s' = sv_stacks s ∧
  (∀ sub, sub ∈ subs → is_Some (sv_subs s !! sub) → sub_done <$> sv_subs s' !! sub = Some true) ∧
  (∀ sub, sub_done <$> sv_subs s !! sub = Some true → sub_done <$> sv_subs s' !! sub = Some true) ∧
  (∀ sub, sub_ch <$> sv_subs s' !! sub = sub_ch <$> sv_subs s !! sub).
Proof.
  revert s. induction subs as [|sub subs IH]; intros s; cbn.
  { split_and!; try done. by intros sub ?%not_elem_of_nil. }
  destruct (close_effect sub s) as (Hc1&Hs1&_&Hd1&Hk1&Hch1&Hdom1).
  destruct (IH (closeSubscriber sub s)) as (Hc2&Hs2&Hd2&Hk2&Hch2).
  split_and!; [congruence..| | |].
  - intros sub' [->|Hin]%elem_of_cons Hsome; [by apply Hk2, Hd1|]. apply Hd2; [done|].
    rewrite <- elem_of_dom in Hsome |- *. by rewrite Hdom1.
  - auto.
  - intros sub'. by rewrite Hch2.
Qed.

Lemma SetLeadership_demotes role generation s s' :
  isPrimary s = true → role ≠ WATCHDOG_ROLE_PRIMARY → heap_ok s → subs_ok s →
  s' = (SetLeadership role generation s).2 →
  tc_Role (sv_cfg s') = role ∧
  (∀ id, st_subscribers (stack id s') = ∅) ∧
  (∀ id sub, sub ∈ subscribers_of id s →
     stood_down role s' sub ∧ sub_done <$> sv_subs s' !! sub = Some true) ∧
  Forall (λ h, lh_serving h = false) (sv_observers s').
Proof.
  intros Hp Hr Hok Hsubs ->. unfold SetLeadership, closeSubscribersForLeadershipChange.
  unfold mbind, M_bind, gets, modify, Datatypes.id. cbv beta iota.
  rewrite Hp, (proj2 (Z.eqb_neq _ _) Hr). cbn [andb negb]. cbv beta iota zeta.
  cbn [snd sv_cfg set_observers sv_observers]. set (s1 := set_cfg _ s).
  change (sv_stacks s1) with (sv_stacks s).
  destruct (demote_stacks (order (sv_stacks s)) s1) as (Hc2&Hd2&Hem2&Hsd2&_); [done..|].
  change (tc_Role (sv_cfg s1)) with role in Hsd2.
  set (s2 := foldl _ s1 _) in *. set (subs := pending_subs s1).
  destruct (close_all subs s2) as (Hc3&Hs3&Hd3&_&Hch3). set (s3 := foldl _ s2 subs) in *.
  assert (Hnokey : ∀ id, id ∉ order (sv_stacks s) → st_subscribers (stack id s) = ∅).
  { intros id Hni. unfold stack. destruct (sv_stacks s !! id) as [st|] eqn:Hid; [|done].
    destruct Hni. rewrite order_keys. apply list_elem_of_fmap. exists (id, st).
    by rewrite elem_of_map_to_list. }
  assert (Hkey : ∀ id sub, sub ∈ subscribers_of id s → id ∈ order (sv_stacks s)).
  { intros id sub Hin. destruct (decide (id ∈ order (sv_stacks s))) as [|Hni]; [done|].
    unfold subscribers_of in Hin. rewrite Hnokey, map_to_list_empty in Hin by done.
    by apply not_elem_of_nil in Hin. }
  split_and!.
  - by rewrite Hc3, Hc2.
  - intros id. unfold stack. cbn. rewrite Hs3. fold (stack id s2). rewrite Hem2.
    case_bool_decide; [done|]. by apply Hnokey.
  - intros id sub Hin. pose proof (Hkey id sub Hin) as Hid. split.
    + destruct (Hsd2 id sub Hid Hin) as (c&env&Hc&Hl&?&?). specialize (Hch3 sub).
      rewrite Hc in Hch3. apply fmap_Some in Hch3 as (c'&Hc'&Heq). exists c', env. cbn.
      by rewrite <- Heq.
    + apply Hd3; [apply list_elem_of_bind; by exists id|]. rewrite <- elem_of_dom, Hd2, elem_of_dom.
      by apply (proj1 (Forall_forall _ _) (Hsubs id)).
  - apply Forall_fmap, Forall_forall. intros h _. cbn. by rewrite (proj2 (Z.eqb_neq _ _) Hr).
Qed.

(** Losing leadership stands every node down: after [SetLeadership] takes
    a primary to another role, no stack has subscribers left, the stream of
    every former subscriber is closed, the last envelope in its channel is the
    notice of the change in the new role, and no health observer reports
    serving. *)
Theorem demotion_reaches_subscribers role generation s s' :
  isPrimary s = true → role ≠ WATCHDOG_ROLE_PRIMARY → heap_ok s → subs_ok s →
  s' = (SetLeadership role generation s).2 →
  tc_Role (sv_cfg s') = role ∧
  (∀ id, st_subscribers (stack id s') = ∅) ∧
  (∀ id sub, sub ∈ subscribers_of id s →
     stood_down role s' sub ∧ sub_done <$> sv_subs s' !! sub = Some true) ∧
  Forall (λ h, lh_serving h = false) (sv_observers s').
Proof. apply SetLeadership_demotes. Qed.
End service.

(** ** A concrete service *)

(** A store whose writes fail or succeed as a list says, and succeed after
    its end. *)
#[local] Program Instance flaky_store : EpochStore := {|
  store := gmap string Z * list bool;
  durable st id := Z.max 0 (default 0 (st.1 !! id));
  load_epoch id st := (Some (Z.max 0 (default 0 (st.1 !! id))), st);
  save_epoch id e st :=
    if default true (head st.2)
    then (true, (<[id := Z.max e (default 0 (st.1 !! id))]> st.1, tail st.2))
    else (false, (st.1, tail st.2)) |}.
Next Obligation. intros. lia. Qed.
Next Obligation. done. Qed.
Next Obligation. intros. simplify_eq/=. lia. Qed.
Next Obligation.
  intros id e st id'. cbv beta. dcase; cbn [fst snd]; [|reflexivity].
  destruct (decide (id' = id)) as [->|]; [rewrite lookup_insert_eq|by rewrite lookup_insert_ne].
  unfold default, from_option, Datatypes.id. lia.
Qed.
Next Obligation.
  intros id e st. cbv beta. dcase; cbn [fst snd]; [|done].
  intros _. rewrite lookup_insert_eq. unfold default, from_option, Datatypes.id. lia.
Qed.

Definition example_clock (n : nat) : Z := 1700000000 * second + Z.of_nat n.
Definition example_order (m : gmap string stackState) : list string := (map_to_list m).*1.
Definition example_cfg : TopologyConfig := mkTopologyConfig 0 0 0 0 0 "" 1 0 true.
Definition example_service (answers : list bool) : service :=
  NewServiceWithConfig 0 example_cfg (∅, answers).
Definition example_hb (stackID : string) : Heartbeat :=
  mkHeartbeat stackID "node-0" "pod-0" "10.0.0.1" 1 0 NODE_STATE_READY "v1".

Lemma example_w2 answers : w2 "a" (λ _, 0) (example_service answers).
Proof. by apply fresh_w2. Qed.

(** The first write of the epoch fails; [GetTopology] writes it again. *)
Definition example_ops : list svc_op :=
  [OWatch (example_hb "a") 0; OSend 0; OGet; OSend 0].

Lemma example_ops_on : Forall (on_stack "a") example_ops.
Proof. by repeat constructor. Qed.

Definition example_run : list TopologyEnvelope * service :=
  run_svc (H := table_fsm) example_clock example_order "a" example_ops (example_service [false]).


(** The degraded flag is shared by all stacks of a service, so W2 fails
    with two of them: after the write of stack a's epoch failed, a heartbeat of
    stack b clears the flag, and the next heartbeat of stack a is answered
    with an epoch the store does not hold. *)
Theorem second_stack_breaks_w2 :
  let '(out, s') := run_svc (H := table_fsm) example_clock example_order "a"
    [OWatch (example_hb "a") 0; OWatch (example_hb "b") 1;
     OReceive (example_hb "a") (example_hb "a") 0; OSend 0] (example_service [false]) in
  ∃ env, out = [env] ∧ ¬ durable_env (sv_store s') env.
Proof.
  vm_compute. eexists. split; [reflexivity|]. intros H. by destruct (H eq_refl).
Qed.

(** A primary with one subscriber. *)
Definition watched_service : service :=
  (run_svc (H := table_fsm) example_clock example_order "a" [OWatch (example_hb "a") 0]
     (example_service [])).2.

Lemma demotion_reaches_subscribers_witness :
  stood_down WATCHDOG_ROLE_STANDBY
    (SetLeadership example_order WATCHDOG_ROLE_STANDBY 1 watched_service).2 0.
Proof.
  assert (heap_ok watched_service) as Hok
    by (apply (bool_decide_unpack _); vm_compute; reflexivity).
  assert (subs_ok watched_service) as Hsubs
    by (apply subs_ok_check, (bool_decide_unpack _); vm_compute; reflexivity).
  refine (proj1 (proj1 (proj2 (proj2 (demotion_reaches_subscribers example_clock example_order _
    WATCHDOG_ROLE_STANDBY 1 watched_service _ _ _ Hok Hsubs eq_refl))) "a" 0%nat _)).
  - exact (λ m, Permutation_refl _).
  - vm_compute; reflexivity.
  - vm_compute; congruence.
  - apply (bool_decide_unpack _). vm_compute. reflexivity.
Defined.
