(* ===== verification/Watchdog.v ===== *)
(** * The watchdog process ([cmd/watchdog/main.go])

    The settings of a primary and their timing check, its health loop, the
    registration of the service it runs, the allocation of its generation, and
    the ConfigMap store as an implementation of the interface the topology
    service uses. *)

From S2P Require Import Prelude Json Strings Durations Records Messages Cluster EpochStore Topology.

(** ** Configuration *)

(** The names a watchdog runs under. *)
Record appConfig := mkApp {
  app_addr : string; app_stackID : string; app_namespace : string; app_identity : string }.

Definition loadAppConfig (getenv : env) : appConfig :=
  let namespace := envString getenv "STACK_NAMESPACE" (getenv "POD_NAMESPACE") in
  let identity := envString getenv "WATCHDOG_ID" (getenv "HOSTNAME") in
  mkApp (envString getenv "WATCHDOG_ADDR" ":8081") (getenv "STACK_ID")
    (if String.eqb namespace "" then "default" else namespace)
    (if String.eqb identity "" then "watchdog" else identity).

(** The leader election a watchdog with a stack takes part in. *)
Record leaderConfig := mkLeader {
  lc_Namespace : string; lc_Lock : string; lc_Identity : string;
  lc_LeaseDuration : Z; lc_RenewDeadline : Z; lc_RetryPeriod : Z; lc_ReleaseOnCancel : bool }.

Definition leader_config (getenv : env) (app : appConfig) : leaderConfig :=
  mkLeader (app_namespace app) (app_stackID app +:+ "-watchdog") (app_identity app)
    (envDuration getenv "WATCHDOG_LEASE_DURATION" (15 * second))
    (envDuration getenv "WATCHDOG_LEASE_RENEW_DEADLINE" (10 * second))
    (envDuration getenv "WATCHDOG_LEASE_RETRY_PERIOD" (2 * second)) true.

(** [main]: without a stack it runs alone ([None]), otherwise under election;
    [false]: no client for the API server could be made. *)
Definition watchdog_main (getenv : env) (clients_ok : bool) : option (appConfig * option leaderConfig) :=
  let app := loadAppConfig getenv in
  if String.eqb (app_stackID app) "" then Some (app, None) else
  if clients_ok then Some (app, Some (leader_config getenv app)) else None.

(** The configuration [runPrimary] gives the topology service (its epoch store
    is set later), and the interval and threshold of the health loop. *)
Definition primary_config (getenv : env) (identity : string) (generation : Z) : TopologyConfig * Z * Z :=
  (mkTopologyConfig
     (envDuration getenv "SUSPECT_AFTER" (20 * second))
     (envDuration getenv "EXPIRE_AFTER" (30 * second))
     (envDuration getenv "REAP_INTERVAL" (15 * second))
     (envDuration getenv "BOOKWORM_INTERVAL" (10 * second))
     (envDuration getenv "TOPOLOGY_LEASE_TTL" (30 * second))
     identity generation WATCHDOG_ROLE_PRIMARY false,
   envDuration getenv "WATCHDOG_EPOCH_HEALTH_INTERVAL" (5 * second),
   envInt getenv "WATCHDOG_EPOCH_FAILURE_THRESHOLD" 3).

(** ** Timing *)

(** [true] when the configuration is accepted. *)
Definition validateWatchdogTiming (cfg : TopologyConfig) (interval threshold : Z) : bool :=
  if (interval <=? 0) || (threshold <=? 0) then true else
  let degradedWindow := i64 (interval * threshold) in
  let bound := LeaseTTL cfg in
  let bound := if ExpireAfter cfg <? bound then ExpireAfter cfg else bound in
  negb (bound <=? degradedWindow).

(** [watchEpochHealth] over the polls of the ticker, each telling whether
    [EpochError] is set: the number of polls until it terminates the process. *)
Fixpoint watch_polls (threshold consecutive : Z) (polls : list bool) : option nat :=
  match polls with
  | [] => None
  | degraded :: polls =>
    if degraded then
      let consecutive := consecutive + 1 in
      if threshold <=? consecutive then Some 1%nat
      else S <$> watch_polls threshold consecutive polls
    else S <$> watch_polls threshold 0 polls
  end.

Definition watchEpochHealth (interval threshold : Z) (polls : list bool) : option nat :=
  if (interval <=? 0) || (threshold <=? 0) then None else watch_polls threshold 0 polls.

(** ** The running service *)

(** [topologyService] (a pointer) and [topologyGen]. *)
Record running := mkRunning { topologyService : option nat; topologyGen : Z }.

Definition setTopologyService (service : nat) (generation : Z) (r : running) : running :=
  mkRunning (Some service) generation.

Definition clearTopologyService (service : nat) (r : running) : running :=
  if bool_decide (topologyService r = Some service) then mkRunning None 0 else r.

(** What [demoteTopology] calls: the service and the arguments of its
    [SetLeadership]. *)
Definition demoteTopology (r : running) : option (nat * Z * Z) :=
  (λ service, (service, WATCHDOG_ROLE_STANDBY, topologyGen r)) <$> topologyService r.

(** [allocateWatchdogGeneration]: the calls it makes of the API server, or the
    clock in a standalone watchdog; [None] of the result is a nil store. *)
Definition allocateWatchdogGeneration (kubernetes : bool) (now : Z) :
    Z + call (pass (store_err + Z)) :=
  if negb kubernetes then inl (i64 now) else inr NextGeneration.

(** ** The ConfigMap store implements the interface *)

(** One pass of a computation against an object that nobody else writes. *)
Fixpoint run_call {A} (c : call A) (o : option ConfigMap * Z) : A * (option ConfigMap * Z) :=
  match c with
  | Ret a => (a, o)
  | Get k => run_call (k (match o.1 with Some cm => inr cm | None => inl NotFound end)) o
  | Create data k =>
    match o.1 with
    | Some _ => run_call (k (Some AlreadyExists)) o
    | None => run_call (k None) (Some (mkConfigMap (o.2 + 1) (Some data)), o.2 + 1)
    end
  | Update cm k =>
    match o.1 with
    | None => run_call (k (Some NotFound)) o
    | Some cur => if ResourceVersion cur =? ResourceVersion cm
                  then run_call (k None) (Some (mkConfigMap (o.2 + 1) (Data cm)), o.2 + 1)
                  else run_call (k (Some Conflict)) o
    end
  end.

Definition cm_epoch (o : option ConfigMap) : Z := Z.max 0 (default 0 (stored epochKey o)).

Definition cm_load (o : option ConfigMap * Z) : option Z * (option ConfigMap * Z) :=
  match run_call LoadEpoch o with
  | (inr e, o') => (Some e, o')
  | (inl _, o') => (None, o')
  end.

(** An epoch is an int64. *)
Definition cm_save (epoch : Z) (o : option ConfigMap * Z) : bool * (option ConfigMap * Z) :=
  if negb (bool_decide (0 ≤ epoch ≤ maxInt64)) then (false, o) else
  match run_call (SaveEpoch epoch) o with
  | (Return None, o') => (true, o')
  | (_, o') => (false, o')
  end.

Lemma cm_load_spec o : (cm_load o).2 = o ∧ ∀ e, (cm_load o).1 = Some e → e ≤ cm_epoch o.1.
Proof.
  unfold cm_load, cm_epoch. destruct o as [[cm|] v]; cbn.
  - destruct (parseStoredCounter (Data cm) epochKey) eqn:Hp; cbn; split; try done.
    intros e [= <-]. lia.
  - split; [done|]. intros e [= <-]. lia.
Qed.

Lemma cm_epoch_read v data e :
  parseStoredCounter data epochKey = inr e → cm_epoch (Some (mkConfigMap v data)) = Z.max 0 e.
Proof. unfold cm_epoch, stored. cbn [Data]. by intros ->. Qed.

Lemma cm_save_spec epoch o :
  cm_epoch o.1 ≤ cm_epoch (cm_save epoch o).2.1 ∧
  ((cm_save epoch o).1 = true → epoch ≤ cm_epoch (cm_save epoch o).2.1).
Proof.
  unfold cm_save. case_bool_decide as Hr; cbn [negb fst snd]; [|split; [reflexivity|done]].
  assert (minInt64 ≤ epoch ≤ maxInt64) as Hrange by (unfold minInt64; lia).
  destruct o as [[[v0 data]|] v]; cbn [run_call SaveEpoch fst snd Data].
  - destruct (parseStoredCounter data epochKey) as [e|current] eqn:Hp;
      [cbn [run_call fst snd]; split; [reflexivity|done]|].
    rewrite (cm_epoch_read _ _ _ Hp). destruct (Z.leb_spec epoch current); cbn [run_call fst snd].
    + rewrite (cm_epoch_read _ _ _ Hp). lia.
    + cbn [ResourceVersion]. rewrite Z.eqb_refl. cbn [run_call SaveEpoch_updated fst snd Data].
      rewrite (cm_epoch_read _ _ epoch) by by apply parse_inserted. lia.
  - cbn [run_call SaveEpoch_created fst snd].
    rewrite (cm_epoch_read _ _ epoch) by by apply (parse_inserted _ _ ∅).
    change (cm_epoch None) with 0. lia.
Qed.

(** [ConfigMapEpochStore] keeps one counter whatever the stack. *)
#[local] Program Instance configmap_store : EpochStore := {|
  store := option ConfigMap * Z;
  durable o _ := cm_epoch o.1;
  load_epoch _ := cm_load;
  save_epoch _ := cm_save |}.
Next Obligation. intros. unfold cm_epoch. lia. Qed.
Next Obligation. intros id o id'. cbv beta. by rewrite (proj1 (cm_load_spec o)). Qed.
Next Obligation.
  intros id o e He. cbv beta. rewrite (proj1 (cm_load_spec o)). by apply cm_load_spec.
Qed.
Next Obligation. intros. apply cm_save_spec. Qed.
Next Obligation. intros id e o. apply cm_save_spec. Qed.

(** ** Theorems *)

Lemma watch_polls_sound threshold c polls n :
  0 ≤ c < threshold → watch_polls threshold c polls = Some n →
  ∃ pre, replicate (Z.to_nat c) true ++ take n polls = pre ++ replicate (Z.to_nat threshold) true.
Proof.
  revert c n. induction polls as [|[] polls IH]; intros c n Hc; cbn; [done|..].
  - destruct (Z.leb_spec threshold (c + 1)).
    + intros [= <-]. exists []. cbn.
      rewrite take_0, <- replicate_S_end. f_equal. lia.
    + intros (m&Hm&->)%fmap_Some. destruct (IH (c + 1) m) as [pre Hpre]; [lia|done|].
      exists pre. rewrite <- Hpre. replace (Z.to_nat (c + 1)) with (S (Z.to_nat c)) by lia.
      by rewrite replicate_S_end, <- app_assoc.
  - intros (m&Hm&->)%fmap_Some. destruct (IH 0 m) as [pre Hpre]; [lia|done|]. cbn in Hpre.
    exists (replicate (Z.to_nat c) true ++ false :: pre). rewrite <- app_assoc. cbn. by rewrite <- Hpre.
Qed.

Lemma watch_polls_complete threshold c pre post :
  0 ≤ c < threshold →
  ∃ n, watch_polls threshold c (pre ++ replicate (Z.to_nat threshold) true ++ post) = Some n ∧
       (n ≤ length pre + Z.to_nat threshold)%nat.
Proof.
  revert c. induction pre as [|b pre IH]; intros c Hc; cbn [app length].
  - assert (∀ k c, 0 ≤ c < threshold → threshold ≤ c + Z.of_nat k →
      ∃ n, watch_polls threshold c (replicate k true ++ post) = Some n ∧ (n ≤ k)%nat) as Hrun.
    { induction k as [|k IHk]; intros c' Hc' Hk; [lia|]. cbn.
      destruct (Z.leb_spec threshold (c' + 1)); [exists 1%nat; split; [done|lia]|].
      destruct (IHk (c' + 1)) as (n&->&?); [lia..|]. exists (S n). split; [done|lia]. }
    destruct (Hrun (Z.to_nat threshold) c) as (n&?&?); [lia..|]. exists n. split; [done|lia].
  - destruct b; cbn [watch_polls].
    + destruct (threshold <=? c + 1) eqn:Ht; [exists 1%nat; split; [done|lia]|]. bools.
      destruct (IH (c + 1)) as (n&->&?); [lia|]. exists (S n). split; [done|lia].
    + destruct (IH 0) as (n&->&?); [lia|]. exists (S n). split; [done|lia].
Qed.



(** W2 with the ConfigMap store: a service that starts against the
    ConfigMap of [epoch_store.go], whatever it holds, and serves one stack hands
    out as primary only epochs the ConfigMap holds. *)
Theorem configmap_envelopes_are_durable `{F : FsmEngine} clock order sid ops
    (o : option ConfigMap * Z) now cfg out s' :
  (∀ m, order m ≡ₚ (map_to_list m).*1) → HasStore cfg = true → Forall (on_stack sid) ops →
  run_svc (H := F) clock order sid ops (NewServiceWithConfig now cfg o) = (out, s') →
  Forall (λ env, env_WatchdogRole env = WATCHDOG_ROLE_PRIMARY →
                 env_Epoch env ≤ cm_epoch (sv_store s').1) out.
Proof.
  intros Horder Hcfg Hops Hrun.
  refine (run_svc_durable clock order Horder sid (λ _, 0) ops _ out s' _ Hops Hrun).
  by apply fresh_w2; [|intros; unfold durable; cbn; unfold cm_epoch; lia].
Qed.

Definition configmap_run : list TopologyEnvelope * service :=
  run_svc (H := table_fsm) example_clock example_order "a" example_ops
    (NewServiceWithConfig 0 example_cfg ((None, 0) : option ConfigMap * Z)).

Lemma configmap_envelopes_are_durable_witness :
  Forall (λ env, env_WatchdogRole env = WATCHDOG_ROLE_PRIMARY →
                 env_Epoch env ≤ cm_epoch (sv_store configmap_run.2).1) configmap_run.1.
Proof.
  exact (configmap_envelopes_are_durable (F := table_fsm) example_clock example_order "a" example_ops
    (None, 0) 0 example_cfg configmap_run.1 configmap_run.2 (λ m, Permutation_refl (example_order m))
    eq_refl example_ops_on (surjective_pairing configmap_run)).
Defined.
