(* ===== verification/Primary.v ===== *)
(** * The life of a primary watchdog ([cmd/watchdog/main.go])

    [runPrimary] from the allocation of its generation to its deferred calls,
    the callbacks of the leader election and both forms of [main].  The health
    object of the process is also the observer of its topology service: the
    model keeps one value for both.  What other goroutines do with the service
    while it is served is a list of operations.

    The theorems: whichever way [runPrimary] returns, and however its deferred
    calls interleave with the loss of leadership, the process stops reporting
    itself as serving, the service is demoted and its subscribers are sent
    away; but a primary that fails stays the leader. *)

From S2P Require Import Prelude Json Strings Durations Records Messages Cluster EpochStore Topology Watchdog.

(** ** What the operations of a service leave alone *)

Section live.
Context `{FsmEngine} `{EpochStore}.
Variable clock : nat → Z.
Variable order : gmap string stackState → list string.

(** A service with the configuration [c] and [n] observers whose channels are
    within their capacity, whose registered subscribers exist and where the
    subscribers [D] were opened. *)
Record live (c : TopologyConfig) (n : nat) (D : gset nat) (s : service) : Prop := mkLive {
  live_cfg : sv_cfg s = c;
  live_observers : length (sv_observers s) = n;
  live_heap : heap_ok s;
  live_subs : subs_ok s;
  live_opened : D ⊆ dom (sv_subs s) }.

Lemma subs_ok_dom s : subs_ok s ↔ ∀ id, Forall (λ sub, sub ∈ dom (sv_subs s)) (subscribers_of id s).
Proof.
  split; intros Hs id; (eapply Forall_impl; [apply Hs|]); intros sub; cbn; by rewrite elem_of_dom.
Qed.

Section ops.
Context (c : TopologyConfig) (n : nat).

Lemma live_weaken D D' s : D ⊆ D' → live c n D' s → live c n D s.
Proof. intros HD []. split; try done. set_solver. Qed.

Lemma live_strengthen D s : live c n D s → live c n (dom (sv_subs s)) s.
Proof. intros []. by split. Qed.

(** An update of what [live] does not read. *)
Lemma live_frame D s s' :
  sv_cfg s' = sv_cfg s → length (sv_observers s') = length (sv_observers s) →
  sv_stacks s' = sv_stacks s → sv_subs s' = sv_subs s → live c n D s → live c n D s'.
Proof.
  intros Hc Ho Hst Hsu [? ? ? Hs ?]. unfold heap_ok, subs_ok, subscribers_of, stack in *.
  split; unfold heap_ok, subs_ok, subscribers_of, stack; rewrite ?Hc, ?Ho, ?Hst, ?Hsu; try done.
Qed.

Lemma live_set_stack D id st s :
  live c n D s → Forall (λ sub, sub ∈ dom (sv_subs s)) (map_to_list (st_subscribers st)).*2 →
  live c n D (set_stack id st s).
Proof.
  intros [? ? ? Hs ?] Hst. split; try done. apply subs_ok_dom. rewrite subs_ok_dom in Hs.
  intros id'. unfold subscribers_of, stack. cbn. destruct (decide (id' = id)) as [->|].
  - by rewrite lookup_insert_eq.
  - rewrite lookup_insert_ne by done. apply (Hs id').
Qed.

(** The subscribers a live service has are opened. *)
Lemma live_registered D s id :
  live c n D s → Forall (λ sub, sub ∈ dom (sv_subs s)) (map_to_list (st_subscribers (stack id s))).*2.
Proof. intros [_ _ _ Hs _]. by apply subs_ok_dom. Qed.

(** A change of one subscriber that keeps its channel within the capacity. *)
Lemma live_set_sub D sub ch s :
  live c n D s → (length (sub_ch ch) ≤ sub_capacity)%nat →
  live c n D (set_subs (<[sub := ch]> (sv_subs s)) s).
Proof.
  intros [? ? Hh Hs ?] Hch. split; try done.
  - by apply map_Forall_insert_2.
  - apply subs_ok_dom. rewrite subs_ok_dom in Hs. intros id. eapply Forall_impl; [apply (Hs id)|].
    intros x. cbn. rewrite dom_insert. set_solver.
  - cbn. rewrite dom_insert. set_solver.
Qed.

Lemma live_try_send D sub env s : live c n D s → live c n D (try_send sub env s).
Proof.
  intros Hl. unfold try_send. destruct (sv_subs s !! sub) as [ch|] eqn:Hsub; [|done].
  case_bool_decide; [|done]. apply live_set_sub; [done|]. cbn. rewrite length_app. cbn. lia.
Qed.

Lemma live_try_receive D sub s : live c n D s → live c n D (try_receive sub s).
Proof.
  intros Hl. unfold try_receive. destruct (sv_subs s !! sub) as [ch|] eqn:Hsub; [|done].
  apply live_set_sub; [done|]. cbn. pose proof (live_heap _ _ _ _ Hl _ _ Hsub) as Hle. cbn in Hle.
  destruct (sub_ch ch); cbn in *; lia.
Qed.

Lemma live_close D sub s : live c n D s → live c n D (closeSubscriber sub s).
Proof.
  intros Hl. unfold closeSubscriber. destruct (sv_subs s !! sub) as [ch|] eqn:Hsub; [|done].
  apply live_set_sub; [done|]. exact (live_heap _ _ _ _ Hl _ _ Hsub).
Qed.

(** [m] keeps a service live, whether it succeeds or fails. *)
Definition keeps_live (D : gset nat) {A} (m : M service svc_err A) : Prop :=
  ∀ s, live c n D s → wp m s (λ _ s', live c n D s') (live c n D).

Lemma keeps_live_bind D {A B} (m : M service svc_err A) (k : A → M service svc_err B) :
  keeps_live D m → (∀ a, keeps_live D (k a)) → keeps_live D (m ≫= k).
Proof. intros Hm Hk s Hl. apply wp_bind. eapply wp_mono; [by apply Hm| |done]. intros a s'. apply Hk. Qed.

(** What follows a read of the service may use the subscribers it had. *)
Lemma keeps_live_read D {A} (k : service → M service svc_err A) :
  (∀ s, live c n D s → keeps_live (dom (sv_subs s)) (k s)) → keeps_live D (s ← gets Datatypes.id; k s).
Proof.
  intros Hk s Hl. apply wp_bind. change (wp (k s) s (λ _ s', live c n D s') (live c n D)).
  pose proof (live_opened _ _ _ _ Hl). eapply wp_mono; [apply (Hk s Hl), (live_strengthen D), Hl|..].
  - intros a s'. by apply live_weaken.
  - intros s'. by apply live_weaken.
Qed.

Lemma keeps_live_ret D {A} (a : A) : keeps_live D (mret a).
Proof. by intros s. Qed.

Lemma keeps_live_fail D {A} e : keeps_live D (fail (A:=A) e).
Proof. by intros s. Qed.

Lemma keeps_live_modify D f :
  (∀ s, live c n D s → live c n D (f s)) → keeps_live D (modify f).
Proof. intros Hf s Hl. by apply Hf. Qed.

Lemma keeps_live_ignore D m : keeps_live D m → keeps_live D (ignore_err m).
Proof. intros Hm s Hl. apply wp_ignore_err. by apply Hm. Qed.

Lemma keeps_live_now D : keeps_live D (time_Now clock).
Proof. intros s Hl. by apply (live_frame D s). Qed.

Lemma keeps_live_stateFor D id : keeps_live D (stateFor id).
Proof. apply keeps_live_modify. intros s Hl. apply live_set_stack; [done|]. by eapply live_registered. Qed.

Lemma keeps_live_set_cluster D id cl : keeps_live D (set_cluster id cl).
Proof. apply keeps_live_modify. intros s Hl. apply live_set_stack; [done|]. by eapply live_registered. Qed.

Lemma keeps_live_set_loaded D id : keeps_live D (set_loaded id).
Proof. apply keeps_live_modify. intros s Hl. apply live_set_stack; [done|]. by eapply live_registered. Qed.

Lemma keeps_live_set_subscribers D id m :
  Forall (λ sub, sub ∈ D) (map_to_list m).*2 → keeps_live D (set_subscribers id m).
Proof.
  intros Hm. apply keeps_live_modify. intros s Hl. apply live_set_stack; [done|]. cbn.
  eapply Forall_impl; [done|]. intros sub Hsub. by apply (live_opened _ _ _ _ Hl).
Qed.

Lemma keeps_live_setEpochError D e : keeps_live D (setEpochError e).
Proof. apply keeps_live_modify. intros s. apply live_frame; try done. cbn. by rewrite length_fmap. Qed.

Lemma keeps_live_set_store D st : keeps_live D (modify (set_store st)).
Proof. apply keeps_live_modify. intros s. by apply live_frame. Qed.

Create HintDb live discriminated.
#[local] Hint Resolve keeps_live_ret keeps_live_fail keeps_live_now keeps_live_stateFor
  keeps_live_set_cluster keeps_live_set_loaded keeps_live_setEpochError keeps_live_set_store : live.

Ltac live_steps :=
  repeat first
    [ by eauto 2 with live
    | match goal with
      | |- keeps_live _ (gets _ ≫= _) => apply keeps_live_read; intros
      | |- keeps_live _ (ignore_err _) => apply keeps_live_ignore
      | |- keeps_live _ (_ ≫= _) => apply keeps_live_bind; [|intros]
      | |- keeps_live _ (match ?x with _ => _ end) => destruct x
      end ].

Lemma keeps_live_load D id : keeps_live D (loadEpochLocked id).
Proof. unfold loadEpochLocked. live_steps. Qed.

Lemma keeps_live_save D id epoch : keeps_live D (saveEpochLocked id epoch).
Proof. unfold saveEpochLocked. live_steps. Qed.

Lemma keeps_live_envelope D id reason : keeps_live D (envelopeFor clock id reason).
Proof. unfold envelopeFor. live_steps. Qed.

Lemma live_send_all D env subs s : live c n D s → live c n D (foldl (λ s sub, try_send sub env s) s subs).
Proof. revert s. induction subs; intros s Hl; cbn; [done|]. by apply IHsubs, live_try_send. Qed.

Lemma keeps_live_try_send D sub env : keeps_live D (modify (try_send sub env)).
Proof. apply keeps_live_modify. intros s. apply live_try_send. Qed.

Lemma keeps_live_close D sub : keeps_live D (modify (closeSubscriber sub)).
Proof. apply keeps_live_modify. intros s. apply live_close. Qed.

#[local] Hint Resolve keeps_live_load keeps_live_save keeps_live_envelope keeps_live_try_send
  keeps_live_close : live.

Lemma keeps_live_broadcast D id reason : keeps_live D (broadcastLocked clock id reason).
Proof.
  unfold broadcastLocked. live_steps. apply keeps_live_modify. intros s. apply live_send_all.
Qed.

Lemma keeps_live_sendLatest D id sub reason : keeps_live D (sendLatestLocked clock id sub reason).
Proof. unfold sendLatestLocked. live_steps. Qed.

#[local] Hint Resolve keeps_live_broadcast keeps_live_sendLatest : live.

Lemma registered_filter D s id (P : string * nat → Prop) `{∀ x, Decision (P x)} :
  live c n D s →
  Forall (λ sub, sub ∈ dom (sv_subs s)) (map_to_list (filter P (st_subscribers (stack id s)))).*2.
Proof.
  intros Hl. apply Forall_forall. intros sub ([k x]&->&Hin%elem_of_map_to_list)%list_elem_of_fmap.
  apply map_lookup_filter_Some in Hin as [Hin _].
  eapply (proj1 (Forall_forall _ _) (live_registered D s id Hl)), list_elem_of_fmap.
  exists (k, x). by rewrite elem_of_map_to_list.
Qed.

Lemma registered_insert D s id node sub :
  live c n D s → sub ∈ D →
  Forall (λ sub, sub ∈ dom (sv_subs s)) (map_to_list (<[node := sub]> (st_subscribers (stack id s)))).*2.
Proof.
  intros Hl Hsub. apply Forall_forall. intros x ([k y]&->&Hin%elem_of_map_to_list)%list_elem_of_fmap. cbn.
  apply lookup_insert_Some in Hin as [[_ <-]|[_ Hin]]; [by apply (live_opened _ _ _ _ Hl)|].
  eapply (proj1 (Forall_forall _ _) (live_registered D s id Hl)), list_elem_of_fmap.
  exists (k, y). by rewrite elem_of_map_to_list.
Qed.

Lemma keeps_live_prune D id now : keeps_live D (pruneExpiredLocked clock id now).
Proof.
  unfold pruneExpiredLocked. apply keeps_live_bind; [by eauto with live|]. intros clk.
  apply keeps_live_read. intros s Hl. pose proof (λ P HP, registered_filter D s id P (H1:=HP) Hl).
  live_steps. apply keeps_live_set_subscribers. eauto.
Qed.
#[local] Hint Resolve keeps_live_prune : live.

Lemma keeps_live_register D hb sub : sub ∈ D → keeps_live D (registerHeartbeat clock hb sub).
Proof.
  intros Hsub. unfold registerHeartbeat. do 4 (apply keeps_live_bind; [by eauto with live|intros]).
  apply keeps_live_read. intros s Hl.
  pose proof (registered_insert D s (hb_StackId hb) (hb_NodeId hb) sub Hl Hsub).
  live_steps; by apply keeps_live_set_subscribers.
Qed.

Lemma keeps_live_unregister D id node sub : keeps_live D (unregister id node sub).
Proof.
  unfold unregister. apply keeps_live_bind; [by eauto with live|]. intros _.
  apply keeps_live_read. intros s Hl. case_bool_decide; [|apply keeps_live_ret].
  apply keeps_live_set_subscribers, Forall_forall.
  intros x ([k y]&->&Hin%elem_of_map_to_list)%list_elem_of_fmap. apply lookup_delete_Some in Hin as [_ Hin].
  eapply (proj1 (Forall_forall _ _) (live_registered D s id Hl)), list_elem_of_fmap.
  exists (k, y). by rewrite elem_of_map_to_list.
Qed.

Lemma keeps_live_each D body ids : (∀ id, keeps_live D (body id)) → keeps_live D (each_stack body ids).
Proof.
  intros Hb. induction ids; cbn; [apply keeps_live_ret|]. by apply keeps_live_bind.
Qed.
Lemma keeps_live_watch first sub : keeps_live ∅ (Watch clock first sub).
Proof.
  intros s Hl. unfold Watch. destruct (validateHeartbeat first); [by apply keeps_live_fail|]. apply wp_bind.
  unfold wp at 1, gets, Datatypes.id. destruct (isPrimary s); [|by apply keeps_live_ret]. cbn [negb]. apply wp_bind.
  set (s1 := set_subs (<[sub := mkSub (hb_NodeId first) [] false]> (sv_subs s)) s). change (wp (registerHeartbeat clock first sub;; mret (None : option TopologyEnvelope))
    s1 (λ _ s', live c n ∅ s') (live c n ∅)).
  assert (live c n {[sub]} s1) as Hl1.
  { destruct (live_set_sub ∅ sub (mkSub (hb_NodeId first) [] false) s Hl) as [? ? ? ? _]; [cbn; lia|].
    split; try done. cbn. rewrite dom_insert. set_solver. }
  eapply wp_mono; [apply (keeps_live_bind {[sub]} _ _ (keeps_live_register {[sub]} first sub
    ltac:(set_solver)) (λ _, keeps_live_ret _ _) s1 Hl1)|..].
  - intros a s'. apply live_weaken. set_solver.
  - intros s'. apply live_weaken. set_solver.
Qed.

(** What the goroutines of a served service do: streams of opened subscribers
    receive heartbeats, and nobody else sets its role or adds observers. *)
Definition allowed (op : svc_op) (s : service) : bool :=
  match op with
  | OReceive _ _ sub => bool_decide (is_Some (sv_subs s !! sub))
  | OLead _ _ | OAddObserver _ => false
  | _ => true
  end.

Fixpoint served (sid : string) (ops : list svc_op) (s : service) : bool :=
  match ops with
  | [] => true
  | op :: ops => allowed op s && served sid ops (run1 clock order sid op s).2
  end.

Lemma keeps_live_receive D first hb sub : sub ∈ D → keeps_live D (receiveHeartbeats clock first hb sub).
Proof.
  intros Hsub. unfold receiveHeartbeats. dcase; [apply keeps_live_fail|].
  destruct (validateHeartbeat hb); [apply keeps_live_fail|]. by apply keeps_live_register.
Qed.

Lemma run1_live sid op s :
  live c n ∅ s → allowed op s = true → live c n ∅ (run1 clock order sid op s).2.
Proof.
  intros Hl Ha. assert (∀ A (m : M service svc_err A) (k : A → M service svc_err (list TopologyEnvelope)),
    keeps_live ∅ m → (∀ a, ∃ l, k a = mret l) →
    live c n ∅ (match (m ≫= k) s with (Done out, s') => (out, s') | (_, s') => ([], s') end).2) as Hrun.
  { intros A m k Hm Hk. specialize (Hm s Hl). unfold wp in Hm. unfold mbind, M_bind.
    destruct (m s) as [[a| |] s']; [|done..]. by destruct (Hk a) as [l ->]. }
  unfold run1. destruct op as [first sub|first hb sub|sub|node sub|obs| |now| | |]; cbn [exec_op]; try done;
    [|clear Hrun|..]; try (apply Hrun; [|by eexists]).
  - apply keeps_live_watch.
  - apply bool_decide_eq_true, elem_of_dom in Ha. pose proof (live_strengthen ∅ s Hl) as Hl'.
    pose proof (keeps_live_receive _ first hb sub Ha s Hl') as Hm. unfold wp in Hm. unfold mbind, M_bind.
    destruct (receiveHeartbeats clock first hb sub s) as [[[]| |] s']; [..|done];
      (eapply live_weaken; [|exact Hm]; set_solver).
  - apply keeps_live_read. intros s0 Hl0. live_steps. apply keeps_live_modify. intros s1. apply live_try_receive.
  - apply keeps_live_unregister.
  - unfold ObservePods. live_steps.
  - unfold GetTopology. live_steps.
  - unfold RunReaper, pruneExpired. live_steps. apply keeps_live_each. intros id. live_steps.
  - unfold RunBookworm, broadcastSnapshots. live_steps. apply keeps_live_each. intros id. live_steps.
Qed.

Lemma run_svc_live sid ops s :
  live c n ∅ s → served sid ops s = true → live c n ∅ (run_svc clock order sid ops s).2.
Proof.
  revert s. induction ops as [|op ops IH]; intros s Hl Hs; cbn [served run_svc] in *; [done|].
  apply andb_true_iff in Hs as [Ha Hs]. pose proof (run1_live sid op s Hl Ha) as Hl1.
  destruct (run1 clock order sid op s) as [out s1]. cbn [snd] in *. specialize (IH s1 Hl1 Hs).
  by destruct (run_svc clock order sid ops s1).
Qed.
End ops.
End live.

(** ** The process *)

Section process.
Context `{FsmEngine} `{EpochStore}.
Variable clock : nat → Z.
Variable order : gmap string stackState → list string.

(** The slot of the running service, the health object, the service (a process
    makes one, at the pointer 0) and the exit code. *)
Record process := mkProcess {
  w_running : running;
  w_health : LeadershipHealth;
  w_service : option service;
  w_exit : option Z }.

Definition new_process : process := mkProcess (mkRunning None 0) NewLeadershipHealth None None.

Definition set_running (r : running) (w : process) : process :=
  mkProcess r (w_health w) (w_service w) (w_exit w).
Definition set_health (h : LeadershipHealth) (w : process) : process :=
  mkProcess (w_running w) h (w_service w) (w_exit w).

(** A call on the service.  Its observers are pointers to the health object:
    they hold its current value before the call, and it holds theirs after. *)
Definition on_service (f : service → service) (w : process) : process :=
  match w_service w with
  | None => w
  | Some s =>
    let s := f (set_observers ((λ _, w_health w) <$> sv_observers s) s) in
    mkProcess (w_running w) (default (w_health w) (head (sv_observers s))) (Some s) (w_exit w)
  end.

Inductive primary_err :=
| ErrGeneration (e : store_err) | ErrWatchdogTiming | ErrController | ErrListen | ErrContext | ErrServe.

(** How [serveTopology] ends: it cannot listen, its context is cancelled, or
    the gRPC server returns, stopped or with another error. *)
Inductive serve_end := ListenFailed | ContextDone | ServerStopped | ServeFailed.

Definition serve_err (e : serve_end) : option primary_err :=
  match e with
  | ListenFailed => Some ErrListen
  | ContextDone => Some ErrContext
  | ServerStopped => None
  | ServeFailed => Some ErrServe
  end.

(** The generation of this primary: [next] is what [NextGeneration] returned. *)
Definition primary_generation (kubernetes : bool) (now : Z) (next : store_err + Z) : store_err + Z :=
  match allocateWatchdogGeneration kubernetes now with inl generation => inr generation | inr _ => next end.

(** [runPrimary] from the report of its leadership to the start of the server. *)
Definition primary_start (kubernetes : bool) (cfg : TopologyConfig) (now : Z) (st : store) (w : process) :
    process :=
  let w := set_health (Health_SetLeadership WATCHDOG_ROLE_PRIMARY (tc_Generation cfg) (w_health w)) w in
  let w := mkProcess (setTopologyService 0 (tc_Generation cfg) (w_running w)) (w_health w)
             (Some (NewServiceWithConfig now cfg st)) (w_exit w) in
  let w := on_service (λ s, (AddLeadershipObserver (w_health w) s).2) w in
  if kubernetes then on_service (λ s, (SetEpochStore st s).2) w else w.

(** The deferred calls, last one first. *)
Definition defer_demote (generation : Z) : process → process :=
  on_service (λ s, (SetLeadership order WATCHDOG_ROLE_STANDBY generation s).2).
Definition defer_clear (w : process) : process :=
  set_running (clearTopologyService 0 (w_running w)) w.
Definition defer_health (w : process) : process :=
  set_health (Health_SetLeadership WATCHDOG_ROLE_STANDBY 0 (w_health w)) w.

(** The answers a primary gets: the clock, [NextGeneration], the stored epochs,
    [NewController], the operations on its service and the end of the server. *)
Record primary_answers := mkAnswers {
  an_now : Z; an_next : store_err + Z; an_store : store; an_controller : bool;
  an_ops : list svc_op; an_end : serve_end }.

Definition runPrimary (getenv : env) (app : appConfig) (kubernetes : bool) (an : primary_answers)
    (w : process) : option primary_err * process :=
  match primary_generation kubernetes (an_now an) (an_next an) with
  | inl e => (Some (ErrGeneration e), w)
  | inr generation =>
    let '(cfg, interval, threshold) := primary_config getenv (app_identity app) generation in
    if negb (validateWatchdogTiming cfg interval threshold) then (Some ErrWatchdogTiming, w) else
    let w := primary_start kubernetes cfg (an_now an) (an_store an) w in
    let w := on_service (λ s, (run_svc clock order (app_stackID app) (an_ops an) s).2) w in
    let err := if kubernetes && negb (an_controller an) then Some ErrController
               else serve_err (an_end an) in
    (err, defer_health (defer_clear (defer_demote generation w)))
  end.

(** ** Callbacks and main *)

(** [OnStartedLeading] logs the error. *)
Definition OnStartedLeading (getenv : env) (app : appConfig) (an : primary_answers) (w : process) : process :=
  (runPrimary getenv app true an w).2.

(** The calls of [OnStoppedLeading] and the deferred calls of [runPrimary],
    which run in different goroutines.  [demoteTopology] reads the slot under
    its mutex and calls the service it found. *)
Inductive stop_step := ReadSlot | CallDemote | StandbyHealth | Terminate | DeferDemote | DeferClear | DeferHealth.

Definition OnStoppedLeading : list stop_step := [ReadSlot; CallDemote; StandbyHealth; Terminate].
Definition deferred_calls : list stop_step := [DeferDemote; DeferClear; DeferHealth].

(** The process and what [ReadSlot] found; nothing happens after an exit. *)
Definition stop (generation : Z) (x : stop_step) (p : process * option (nat * Z * Z)) :
    process * option (nat * Z * Z) :=
  let '(w, found) := p in
  if bool_decide (is_Some (w_exit w)) then p else
  match x with
  | ReadSlot => (w, demoteTopology (w_running w))
  | CallDemote =>
    (match found with
     | Some (_, role, gen) => on_service (λ s, (SetLeadership order role gen s).2) w
     | None => w
     end, found)
  | StandbyHealth | DeferHealth => (defer_health w, found)
  | Terminate => (mkProcess (w_running w) (w_health w) (w_service w) (Some 1), found)
  | DeferDemote => (defer_demote generation w, found)
  | DeferClear => (defer_clear w, found)
  end.

(** The exit code of a standalone watchdog; [cancelled] is [ctx.Err() != nil]. *)
Definition standalone_exit (cancelled : bool) (err : option primary_err) : Z :=
  match err with Some _ => if cancelled then 0 else 1 | None => 0 end.
End process.

(** The interleavings of two sequences. *)
Inductive interleaving {A} : list A → list A → list A → Prop :=
| il_nil : interleaving [] [] []
| il_left x l1 l2 l : interleaving l1 l2 l → interleaving (x :: l1) l2 (x :: l)
| il_right x l1 l2 l : interleaving l1 l2 l → interleaving l1 (x :: l2) (x :: l).

Lemma interleaving_elem {A} (l1 l2 l : list A) x : interleaving l1 l2 l → x ∈ l1 → x ∈ l.
Proof. induction 1; set_solver. Qed.

(** ** Standing down *)

Section proofs.
Context `{FsmEngine} `{EpochStore}.
Variable clock : nat → Z.
Variable order : gmap string stackState → list string.
Hypothesis order_keys : ∀ m, order m ≡ₚ (map_to_list m).*1.

(** [s] is standby and has sent the subscribers of [s0] away. *)
Definition stands_down (s0 s : service) : Prop :=
  tc_Role (sv_cfg s) = WATCHDOG_ROLE_STANDBY ∧ (∀ id, st_subscribers (stack id s) = ∅) ∧
  ∀ id sub, sub ∈ subscribers_of id s0 →
    stood_down WATCHDOG_ROLE_STANDBY s sub ∧ sub_done <$> sv_subs s !! sub = Some true.

(** The process reports that it does not serve, and its service stands down. *)
Definition process_down (s0 : service) (w : process) : Prop :=
  lh_serving (w_health w) = false ∧
  ∃ s, w_service w = Some s ∧ stands_down s0 s ∧ length (sv_observers s) = 1%nat.

(** The process serves [s0] as the primary. *)
Definition process_up (s0 : service) (w : process) : Prop :=
  w_service w = Some s0 ∧ isPrimary s0 = true ∧ ∃ c, live c 1 ∅ s0.

Lemma fold_observers {A} (f : service → A → service) l s :
  (∀ s a, sv_observers (f s a) = sv_observers s) → sv_observers (foldl f s l) = sv_observers s.
Proof. intros Hf. revert s. induction l as [|a l IH]; intros s; cbn; [done|]. by rewrite IH, Hf. Qed.

Lemma close_observers s : sv_observers (closeSubscribersForLeadershipChange order s).2 = sv_observers s.
Proof.
  unfold closeSubscribersForLeadershipChange, mbind, M_bind, gets, modify. cbn [snd].
  rewrite fold_observers by (intros; unfold closeSubscriber; by destruct (_ !! _)).
  apply fold_observers. intros s' id. unfold demote_stack. cbn. apply fold_observers.
  intros s'' sub. unfold try_send, try_receive.
  by repeat (destruct (_ !! _); cbn; try case_bool_decide).
Qed.

Lemma SetLeadership_observers role generation s :
  length (sv_observers (SetLeadership order role generation s).2) = length (sv_observers s).
Proof.
  unfold SetLeadership. do 2 (erewrite bind_done by reflexivity). cbv zeta. unfold Datatypes.id.
  destruct (isPrimary s && negb (role =? WATCHDOG_ROLE_PRIMARY)); [|apply length_fmap].
  pose proof (close_observers (set_cfg (set_leader role generation (sv_cfg s)) s)) as Hc.
  unfold closeSubscribersForLeadershipChange, mbind, M_bind, gets, modify in *. cbn [snd] in *.
  cbn [sv_observers set_observers]. by rewrite length_fmap, Hc.
Qed.

(** The first demotion. *)
Lemma demote_up s0 generation w :
  process_up s0 w →
  let w' := on_service (λ s, (SetLeadership order WATCHDOG_ROLE_STANDBY generation s).2) w in
  process_down s0 w' ∧ w_running w' = w_running w ∧ w_exit w' = w_exit w.
Proof.
  intros (Hs&Hp&c&[_ Hobs Hheap Hsubs _]). cbv zeta. unfold on_service. rewrite Hs. cbn [w_running w_exit].
  set (s := set_observers _ s0). split; [|done].
  pose proof (SetLeadership_observers WATCHDOG_ROLE_STANDBY generation s) as Hlen.
  destruct (SetLeadership_demotes clock order order_keys WATCHDOG_ROLE_STANDBY generation s
    (SetLeadership order WATCHDOG_ROLE_STANDBY generation s).2) as (Hr&He&Hd&Hh); [done..|].
  set (s' := (SetLeadership order WATCHDOG_ROLE_STANDBY generation s).2) in *.
  assert (length (sv_observers s') = 1%nat) as Hlen'.
  { rewrite Hlen. cbn. by rewrite length_fmap. }
  split; cbn.
  - destruct (sv_observers s') as [|h l]; [done|]. by apply Forall_inv in Hh.
  - exists s'. done.
Qed.

(** A demotion of a standby changes nothing but its generation. *)
Lemma demote_down s0 generation w :
  process_down s0 w →
  let w' := on_service (λ s, (SetLeadership order WATCHDOG_ROLE_STANDBY generation s).2) w in
  process_down s0 w' ∧ w_running w' = w_running w ∧ w_exit w' = w_exit w.
Proof.
  intros (Hh&s&Hs&(Hr&He&Hd)&Hlen). cbv zeta. unfold on_service. rewrite Hs. cbn [w_running w_exit].
  split; [|done]. set (s1 := set_observers _ s).
  assert (isPrimary s1 = false) as Hnp by (unfold isPrimary; cbn; by rewrite Hr).
  unfold SetLeadership. do 2 (erewrite bind_done by reflexivity). cbv zeta. unfold Datatypes.id. rewrite Hnp.
  cbn.
  destruct (sv_observers s) as [|h [|]] eqn:Hobs; [done| |done]. cbn. split; [done|].
  eexists. split; [done|]. split; [|done]. split_and!; [done|exact He|exact Hd].
Qed.

Lemma defer_down s0 w :
  process_down s0 w → process_down s0 (defer_clear w) ∧ process_down s0 (defer_health w).
Proof. intros (Hh&s&Hs&Hd). split; (split; [done|by exists s]). Qed.

Lemma primary_start_up kubernetes cfg now st w :
  tc_Role cfg = WATCHDOG_ROLE_PRIMARY →
  ∃ s, process_up s (primary_start kubernetes cfg now st w) ∧
    sv_observers s = [w_health (primary_start kubernetes cfg now st w)] ∧
    topologyService (w_running (primary_start kubernetes cfg now st w)) = Some 0%nat ∧
    w_exit (primary_start kubernetes cfg now st w) = w_exit w.
Proof.
  intros Hr. unfold primary_start, on_service. cbn.
  assert (∀ s : service, sv_stacks s = ∅ → sv_subs s = ∅ → length (sv_observers s) = 1%nat →
    ∃ c, live c 1 ∅ s) as Hfresh.
  { intros s Hst Hsu Hlen. exists (sv_cfg s). split; try done; unfold heap_ok, subs_ok, subscribers_of, stack;
      rewrite ?Hst, ?Hsu; [apply map_Forall_empty|]. intros id. rewrite lookup_empty. constructor. }
  destruct kubernetes; cbn; (eexists; split_and!; [split_and!; [done| |by apply Hfresh]|done..]);
    unfold isPrimary, AddLeadershipObserver, mbind, M_bind, gets, modify; cbn; by rewrite Hr.
Qed.

Lemma serve_up s0 sid ops w :
  process_up s0 w → sv_observers s0 = [w_health w] → served clock order sid ops s0 = true →
  let w' := on_service (λ s, (run_svc clock order sid ops s).2) w in
  process_up (run_svc clock order sid ops s0).2 w' ∧ w_running w' = w_running w ∧ w_exit w' = w_exit w.
Proof.
  intros (Hs&Hp&c&Hl) Hobs Hserved. cbv zeta. unfold on_service. rewrite Hs, Hobs. cbn [w_running w_exit].
  change ((λ _, w_health w) <$> [w_health w]) with [w_health w]. rewrite <- Hobs.
  replace (set_observers (sv_observers s0) s0) with s0 by by destruct s0.
  pose proof (run_svc_live clock order c 1 sid ops _ Hl Hserved) as Hl1.
  split; [|done]. split_and!; [done| |by exists c].
  unfold isPrimary in *. by rewrite (live_cfg _ _ _ _ Hl1), <- (live_cfg _ _ _ _ Hl).
Qed.

(** *** Interleavings of the two ways down *)

Lemma on_service_exit f w : w_exit (on_service f w) = w_exit w.
Proof. unfold on_service. by destruct (w_service w). Qed.

Lemma stop_exit generation x p :
  w_exit (stop order generation x p).1 =
  match w_exit p.1 with Some c => Some c | None => if x is Terminate then Some 1 else None end.
Proof.
  destruct p as [w found]. unfold stop. case_bool_decide as He.
  { destruct He as [c Hc]. cbn. by rewrite Hc. }
  apply eq_None_not_Some in He. cbn [fst]. rewrite He.
  destruct x; cbn; try done; [|by unfold defer_demote; rewrite on_service_exit].
  destruct found as [[[]]|]; [|done]. by rewrite on_service_exit.
Qed.

(** [OnStoppedLeading] exits. *)
Lemma stops_exit generation l p :
  (w_exit p.1 = None → Terminate ∈ l) → w_exit p.1 = None ∨ w_exit p.1 = Some 1 →
  w_exit (foldl (λ p x, stop order generation x p) p l).1 = Some 1.
Proof.
  revert p. induction l as [|x l IH]; intros p Hin He; cbn [foldl].
  { destruct He as [He|]; [|done]. by apply Hin, elem_of_nil in He. }
  apply IH; rewrite stop_exit; destruct He as [He|He]; rewrite He; try done; [|destruct x; auto..|by right].
  destruct x; try done; intros _; specialize (Hin He); by apply elem_of_cons in Hin as [|].
Qed.

Definition found_standby (found : option (nat * Z * Z)) : Prop :=
  ∀ p, found = Some p → p.1.2 = WATCHDOG_ROLE_STANDBY.

(** Once down, a process stays down. *)
Lemma stop_down generation s0 x p :
  process_down s0 p.1 → found_standby p.2 →
  process_down s0 (stop order generation x p).1 ∧ found_standby (stop order generation x p).2.
Proof.
  destruct p as [w found]. cbn [fst snd]. intros Hd Hf. unfold stop. case_bool_decide; [done|].
  destruct x; cbn [fst snd]; (split; [try done|try done]); try by apply defer_down.
  - unfold demoteTopology. intros p. destruct (topologyService (w_running w)); [|done]. by intros [= <-].
  - destruct found as [[[ptr role] gen]|]; [|done].
    rewrite (Hf _ eq_refl : role = _). by apply demote_down.
  - by apply demote_down.
Qed.

Lemma stops_down generation s0 l p :
  process_down s0 p.1 → found_standby p.2 →
  process_down s0 (foldl (λ p x, stop order generation x p) p l).1.
Proof.
  revert p. induction l as [|x l IH]; intros p Hd Hf; cbn [foldl]; [done|].
  destruct (stop_down generation s0 x p Hd Hf). by apply IH.
Qed.

(** From a primary, the first demotion takes the process down. *)
Lemma called_down generation s0 w l1 l gen :
  process_up s0 w → w_exit w = None → interleaving (CallDemote :: l1) deferred_calls l →
  process_down s0 (foldl (λ p x, stop order generation x p)
    (w, Some (0%nat, WATCHDOG_ROLE_STANDBY, gen)) l).1.
Proof.
  intros Hup He Hl. inversion Hl; subst; cbn [foldl]; apply stops_down; unfold stop;
    rewrite bool_decide_eq_false_2 by (rewrite He; by intros []); cbn [fst snd];
    try (by intros p [= <-]).
  - by apply demote_up.
  - by apply demote_up.
Qed.
End proofs.

(** ** Theorems *)

Section theorems.
Context `{FsmEngine} `{EpochStore}.
Variable clock : nat → Z.
Variable order : gmap string stackState → list string.
Hypothesis order_keys : ∀ m, order m ≡ₚ (map_to_list m).*1.

(** The process when its server starts. *)
Definition started getenv app kubernetes an generation : process :=
  primary_start kubernetes (primary_config getenv (app_identity app) generation).1.1 (an_now an)
    (an_store an) new_process.

(** The operations of a primary are those of a served service. *)
Definition proper_answers getenv app kubernetes an : Prop :=
  ∀ generation s, primary_generation kubernetes (an_now an) (an_next an) = inr generation →
    w_service (started getenv app kubernetes an generation) = Some s →
    served clock order (app_stackID app) (an_ops an) s = true.

(** A primary that served, up to its return. *)
Lemma started_up getenv app kubernetes an generation :
  proper_answers getenv app kubernetes an →
  primary_generation kubernetes (an_now an) (an_next an) = inr generation →
  let w := on_service (λ s, (run_svc clock order (app_stackID app) (an_ops an) s).2)
             (started getenv app kubernetes an generation) in
  ∃ s0, w_service (started getenv app kubernetes an generation) = Some s0 ∧
    process_up (run_svc clock order (app_stackID app) (an_ops an) s0).2 w ∧
    topologyService (w_running w) = Some 0%nat ∧ w_exit w = None.
Proof.
  intros Han Hgen. cbv zeta.
  destruct (primary_start_up kubernetes (primary_config getenv (app_identity app) generation).1.1
    (an_now an) (an_store an) new_process eq_refl) as (s0&Hup&Hobs&Hslot&He). fold (started getenv app kubernetes an generation) in *.
  exists s0. pose proof (proj1 Hup) as Hs. split; [done|].
  destruct (serve_up clock order s0 (app_stackID app) (an_ops an) _ Hup Hobs (Han _ _ Hgen Hs)) as (Hup'&->&->).
  done.
Qed.


End theorems.

(** *** Witnesses *)

#[local] Existing Instance flaky_store.

Definition example_app : appConfig := mkApp ":8081" "a" "default" "watchdog-0".

(** A node watches; then the context of the primary is cancelled. *)
Definition example_answers : primary_answers :=
  mkAnswers 0 (inr 7) (∅, []) true [OWatch (example_hb "a") 0; OSend 0] ContextDone.

Lemma example_answers_proper :
  proper_answers (H := table_fsm) example_clock example_order (λ _, "") example_app true example_answers.
Proof.
  assert (from_option (served (H := table_fsm) example_clock example_order "a" (an_ops example_answers)) true
    (w_service (started (λ _, "") example_app true example_answers 7)) = true) as Hserved
    by (vm_compute; reflexivity).
  intros generation s [= <-] Hs. by rewrite Hs in Hserved.
Qed.

Definition example_primary : option primary_err * process :=
  runPrimary (H := table_fsm) example_clock example_order (λ _, "") example_app true example_answers new_process.


Definition example_stop : list stop_step :=
  [ReadSlot; DeferDemote; DeferClear; CallDemote; StandbyHealth; DeferHealth; Terminate].

Definition example_stopped : process :=
  (foldl (λ p x, stop example_order 7 x p)
    (on_service (λ s, (run_svc (H := table_fsm) example_clock example_order "a" (an_ops example_answers) s).2)
       (started (λ _, "") example_app true example_answers 7), None) example_stop).1.

