(* ===== verification/Workloads.v ===== *)
(** * The Kubernetes objects of a stack ([internal/workloads/workloads.go],
      [api/olric/v1alpha1/olricstack_types.go])

    The builders, as functions from the custom resource to records with the
    fields of the Kubernetes API they set; a field no builder sets is left
    out.  Quantities and resource requirements are passed on unread. *)

From S2P Require Import Prelude Json Strings.

(** ** The custom resource *)

Record SecretKeySelector := mkSecretKey { sk_Name : string; sk_Key : string; sk_Optional : option bool }.

Record ResourceRequirements := mkResources {
  rr_Limits : gmap string string; rr_Requests : gmap string string }.

Record OlricStackSpec := mkSpec {
  sp_Replicas : option Z;
  sp_WatchdogReplicas : option Z;
  sp_Image : string;
  sp_SidecarImage : string;
  sp_WatchdogImage : string;
  sp_MySQLDSNSecret : SecretKeySelector;
  sp_Resources : ResourceRequirements }.

Record OlricStackStatus := mkStatus {
  ss_ReadyReplicas : Z; ss_PodIPs : list string; ss_TopologyEpoch : Z }.

Record OlricStack := mkOlricStack {
  stack_Name : string;
  stack_Namespace : string;
  stack_UID : string;
  stack_ResourceVersion : Z;
  stack_Spec : OlricStackSpec;
  stack_Status : OlricStackStatus }.

(** ** The objects *)

Record ObjectMeta := mkMeta {
  om_Name : string;
  om_Namespace : string;
  om_Labels : gmap string string;
  om_Annotations : gmap string string;
  om_ResourceVersion : Z;            (** 0 is the empty version *)
  om_Controller : option string }.   (** the UID of the controlling owner *)

Record ServicePort := mkPort { port_Name : string; port_Port : Z; port_TargetPort : Z }.

Record ServiceSpec := mkServiceSpec {
  svc_Selector : gmap string string;
  svc_Ports : list ServicePort;
  svc_ClusterIP : string;
  svc_ClusterIPs : list string;
  svc_IPFamilies : list string;
  svc_IPFamilyPolicy : option string }.

Inductive EnvValue := EnvText (value : string) | EnvField (path : string) | EnvSecret (key : SecretKeySelector).

Record Container := mkContainer {
  ct_Name : string;
  ct_Image : string;
  ct_Resources : option ResourceRequirements;
  ct_Ports : list (string * Z);
  ct_GRPCProbe : option (Z * Z * Z);      (** port, period, failure threshold *)
  ct_VolumeMounts : list (string * string);
  ct_Env : list (string * EnvValue) }.

Record PodSpec := mkPodSpec {
  pod_ServiceAccountName : string;
  pod_MemoryVolumes : list (string * string);   (** tmpfs volumes: name, size limit *)
  pod_Containers : list Container }.

Record DeploymentSpec := mkDeploymentSpec {
  dep_Replicas : Z;
  dep_MaxUnavailable : Z;
  dep_MaxSurge : Z;
  dep_Selector : gmap string string;
  dep_TemplateLabels : gmap string string;
  dep_Template : PodSpec }.

Record RoleRef := mkRoleRef { rf_APIGroup : string; rf_Kind : string; rf_Name : string }.
Record Subject := mkSubject { sj_Kind : string; sj_Name : string; sj_Namespace : string }.

Inductive object_spec :=
| Service (spec : ServiceSpec)
| ServiceAccount
| RoleBinding (role : RoleRef) (subjects : list Subject)
| Deployment (spec : DeploymentSpec).

Record object := mkObject { ob_Meta : ObjectMeta; ob_Spec : object_spec }.

(** ** Names, labels and constants *)

Definition LabelStackID : string := "olric.io/stack-id".
Definition LabelComponent : string := "app.kubernetes.io/component".
Definition ComponentOlricNode : string := "olric-node".
Definition ComponentWatchdog : string := "watchdog".
Definition DefaultNodeImage : string := "olricstack/olric-node:latest".
Definition DefaultSidecarImage : string := "olricstack/olric-sidecar:latest".
Definition DefaultWatchdogImage : string := "olricstack/watchdog:latest".
Definition WatchdogPort : Z := 8081.
Definition OlricPort : Z := 3320.
Definition RESPPort : Z := 3321.
Definition MemberlistPort : Z := 3322.
Definition SharedVolumeName : string := "olric-shared".
Definition SharedMountPath : string := "/var/lib/olricstack/shared".
Definition SharedMemoryLimit : string := "256Mi".
Definition WatchdogClusterRoleName : string := "olricstack-watchdog".
Definition AnnotationServiceScope : string := "olric.io/service-scope".
Definition ServiceScopeInternal : string := "internal-cluster-only".

Definition StackLabels (stackName component : string) : gmap string string :=
  {[ "app.kubernetes.io/name" := "olricstack";
     "app.kubernetes.io/instance" := stackName;
     LabelStackID := stackName;
     LabelComponent := component ]}.

Definition WatchdogName (stack : OlricStack) : string := stack_Name stack +:+ "-watchdog".
Definition OlricName (stack : OlricStack) : string := stack_Name stack +:+ "-olric".
Definition WatchdogServiceAccountName (stack : OlricStack) : string := WatchdogName stack.

Definition valueOrDefault (value fallback : string) : string :=
  if String.eqb value "" then fallback else value.

Definition new_meta (stack : OlricStack) (name component : string) : ObjectMeta :=
  mkMeta name (stack_Namespace stack) (StackLabels (stack_Name stack) component) ∅ 0 None.

Definition new_service_spec (selector : gmap string string) (ports : list ServicePort) : ServiceSpec :=
  mkServiceSpec selector ports "" [] [] None.

(** ** The watchdog's objects *)

Definition WatchdogService (stack : OlricStack) : object :=
  mkObject (new_meta stack (WatchdogName stack) ComponentWatchdog)
    (Service (new_service_spec (StackLabels (stack_Name stack) ComponentWatchdog)
       [mkPort "grpc" WatchdogPort WatchdogPort])).

Definition watchdog_env (stack : OlricStack) : list (string * EnvValue) :=
  [("WATCHDOG_ADDR", EnvText (":" +:+ FormatInt WatchdogPort));
   ("STACK_ID", EnvText (stack_Name stack));
   ("STACK_NAMESPACE", EnvText (stack_Namespace stack));
   ("SUSPECT_AFTER", EnvText "20s");
   ("EXPIRE_AFTER", EnvText "30s");
   ("REAP_INTERVAL", EnvText "15s");
   ("BOOKWORM_INTERVAL", EnvText "10s");
   ("TOPOLOGY_LEASE_TTL", EnvText "30s");
   ("WATCHDOG_ROLE", EnvText "primary");
   ("WATCHDOG_RECONCILE_INTERVAL", EnvText "10s")].

Definition WatchdogDeployment (stack : OlricStack) : object :=
  let labels := StackLabels (stack_Name stack) ComponentWatchdog in
  mkObject (new_meta stack (WatchdogName stack) ComponentWatchdog)
    (Deployment (mkDeploymentSpec (default 2 (sp_WatchdogReplicas (stack_Spec stack))) 1 1 labels labels
       (mkPodSpec (WatchdogServiceAccountName stack) []
          [mkContainer "watchdog"
             (valueOrDefault (sp_WatchdogImage (stack_Spec stack)) DefaultWatchdogImage) None
             [("grpc", WatchdogPort)] (Some (WatchdogPort, 2, 1)) [] (watchdog_env stack)]))).

Definition WatchdogServiceAccount (stack : OlricStack) : object :=
  mkObject (new_meta stack (WatchdogServiceAccountName stack) ComponentWatchdog) ServiceAccount.

Definition WatchdogRoleBinding (stack : OlricStack) : object :=
  mkObject (new_meta stack (WatchdogServiceAccountName stack) ComponentWatchdog)
    (RoleBinding (mkRoleRef "rbac.authorization.k8s.io" "ClusterRole" WatchdogClusterRoleName)
       [mkSubject "ServiceAccount" (WatchdogServiceAccountName stack) (stack_Namespace stack)]).

(** ** The data plane's objects *)

Definition OlricService (stack : OlricStack) : object :=
  let m := new_meta stack (OlricName stack) ComponentOlricNode in
  mkObject (mkMeta (om_Name m) (om_Namespace m) (om_Labels m)
              {[ AnnotationServiceScope := ServiceScopeInternal ]} 0 None)
    (Service (new_service_spec (StackLabels (stack_Name stack) ComponentOlricNode)
       [mkPort "resp" RESPPort RESPPort])).

Definition node_env (stack : OlricStack) : list (string * EnvValue) :=
  [("STACK_ID", EnvText (stack_Name stack));
   ("WATCHDOG_SVC_NAME", EnvText (WatchdogName stack +:+ "." +:+ stack_Namespace stack +:+
      ".svc.cluster.local:" +:+ FormatInt WatchdogPort));
   ("HEARTBEAT_INTERVAL", EnvText "10s");
   ("WATCHDOG_RECONNECT_INTERVAL", EnvText "3s");
   ("OLRIC_BIND_ADDR", EnvText "0.0.0.0");
   ("OLRIC_BIND_PORT", EnvText (FormatInt OlricPort));
   ("RESP_BIND_ADDR", EnvText "0.0.0.0");
   ("RESP_BIND_PORT", EnvText (FormatInt RESPPort));
   ("OLRIC_MEMBERLIST_BIND_ADDR", EnvText "0.0.0.0");
   ("OLRIC_MEMBERLIST_BIND_PORT", EnvText (FormatInt MemberlistPort));
   ("OLRIC_MEMBERLIST_ENV", EnvText "lan");
   ("RING_PATH", EnvText (SharedMountPath +:+ "/oplog.ring"));
   ("CONTROL_SOCKET", EnvText (SharedMountPath +:+ "/oplog.sock"));
   ("POD_NAME", EnvField "metadata.name");
   ("POD_IP", EnvField "status.podIP")].

Definition sidecar_env (stack : OlricStack) : list (string * EnvValue) :=
  [("STACK_ID", EnvText (stack_Name stack));
   ("MYSQL_DSN", EnvSecret (sp_MySQLDSNSecret (stack_Spec stack)));
   ("RING_PATH", EnvText (SharedMountPath +:+ "/oplog.ring"));
   ("CONTROL_SOCKET", EnvText (SharedMountPath +:+ "/oplog.sock"));
   ("RING_CAPACITY_BYTES", EnvText "16777216");
   ("POD_NAME", EnvField "metadata.name")].

Definition OlricDeployment (stack : OlricStack) : object :=
  let labels := StackLabels (stack_Name stack) ComponentOlricNode in
  let spec := stack_Spec stack in
  mkObject (new_meta stack (OlricName stack) ComponentOlricNode)
    (Deployment (mkDeploymentSpec (default 3 (sp_Replicas spec)) 1 1 labels labels
       (mkPodSpec "" [(SharedVolumeName, SharedMemoryLimit)]
          [mkContainer "olric-node" (valueOrDefault (sp_Image spec) DefaultNodeImage)
             (Some (sp_Resources spec))
             [("olric-internal", OlricPort); ("resp", RESPPort); ("memberlist", MemberlistPort)] None
             [(SharedVolumeName, SharedMountPath)] (node_env stack);
           mkContainer "olric-sidecar" (valueOrDefault (sp_SidecarImage spec) DefaultSidecarImage)
             None [] None [(SharedVolumeName, SharedMountPath)] (sidecar_env stack)]))).

(** ** What a container sees *)

(** The environment of a container: [image] is what the image and the runtime
    set, [field] and [secret] are what the kubelet resolves references to. *)
Definition container_env (image : env) (field : string → string) (secret : SecretKeySelector → string)
    (vars : list (string * EnvValue)) : env := λ name,
  match list_find (λ p, p.1 = name) vars with
  | Some (_, (_, EnvText v)) => v
  | Some (_, (_, EnvField path)) => field path
  | Some (_, (_, EnvSecret key)) => secret key
  | None => image name
  end.

(** A selector selects the pods that carry all its labels. *)
Definition selects (selector labels : gmap string string) : Prop := selector ⊆ labels.
