(* ===== verification/Controllers.v ===== *)
(** * The controllers of a stack ([internal/operator/reconciler.go],
      [internal/watchdog/controller.go])

    The operator keeps the watchdog's objects as the custom resource asks, the
    primary watchdog keeps those of the data plane, both by [applyOwned]: read,
    then create or update under the version read.  The API server stores
    objects with versions; what it defaults and refuses ([admission]), what other
    clients do before each call ([others]) and which calls fail ([failing])
    are parameters. *)

From S2P Require Import Prelude Json Strings Records Messages Cluster Workloads.

(** ** The API server *)

(** A name in a namespace, with the kind. *)
Definition kind_of (o : object) : string :=
  match ob_Spec o with
  | Service _ => "Service"
  | ServiceAccount => "ServiceAccount"
  | RoleBinding _ _ => "RoleBinding"
  | Deployment _ => "Deployment"
  end.

Definition key_of (o : object) : string * string * string :=
  (kind_of o, om_Namespace (ob_Meta o), om_Name (ob_Meta o)).

Record pod := mkK8sPod {
  pd_Name : string; pd_Namespace : string; pd_Labels : gmap string string;
  pd_IP : string; pd_Phase : string; pd_Conditions : list (string * string) }.

Record kube := mkKube {
  k_objects : gmap (string * string * string) object;
  k_stacks : gmap (string * string) OlricStack;
  k_pods : list pod;
  k_version : Z;          (** the last version handed out *)
  k_calls : nat }.        (** calls served so far *)

Inductive kube_err := KNotFound | KAlreadyExists | KConflict | KInvalid | KUnavailable.

Definition set_meta (f : ObjectMeta → ObjectMeta) (o : object) : object := mkObject (f (ob_Meta o)) (ob_Spec o).
Definition with_version (v : Z) (m : ObjectMeta) : ObjectMeta :=
  mkMeta (om_Name m) (om_Namespace m) (om_Labels m) (om_Annotations m) v (om_Controller m).
Definition with_controller (uid : string) (m : ObjectMeta) : ObjectMeta :=
  mkMeta (om_Name m) (om_Namespace m) (om_Labels m) (om_Annotations m) (om_ResourceVersion m) (Some uid).
Definition version_of (o : object) : Z := om_ResourceVersion (ob_Meta o).

Definition is_ready (conditions : list (string * string)) : bool :=
  existsb (λ c, String.eqb c.1 "Ready" && String.eqb c.2 "True") conditions.

Definition string_le (a b : string) : Prop := string_ltb b a = false.
#[export] Instance string_le_dec a b : Decision (string_le a b).
Proof. unfold string_le. apply _. Defined.

(** [sort.Slice] by address; pods with equal addresses come in any order. *)
Class ObservationSort := {
  sortObservations : list PodObservation → list PodObservation;
  sortObservations_perm l : sortObservations l ≡ₚ l;
  sortObservations_sorted l :
    StronglySorted (λ a b, string_le (po_PodIP a) (po_PodIP b)) (sortObservations l) }.

Section controllers.
Context (admission : option object → object → option object).
Context (others : nat → kube → kube).
Context (failing : nat → bool).

(** One request: others have run meanwhile, and it may not get through. *)
Definition request {A} (m : M kube kube_err A) : M kube kube_err A := λ k,
  let n := k_calls k in
  let k := others n k in
  let k := mkKube (k_objects k) (k_stacks k) (k_pods k) (k_version k) (S n) in
  if failing n then (Fail KUnavailable, k) else m k.

Definition store_object (o : object) (k : kube) : kube :=
  let v := k_version k + 1 in
  mkKube (<[key_of o := set_meta (with_version v) o]> (k_objects k)) (k_stacks k) (k_pods k) v (k_calls k).

Definition api_Get (key : string * string * string) : M kube kube_err object :=
  request (λ k, match k_objects k !! key with
                | Some o => (Done o, k)
                | None => (Fail KNotFound, k)
                end).

Definition api_Create (o : object) : M kube kube_err () :=
  request (λ k, match k_objects k !! key_of o with
                | Some _ => (Fail KAlreadyExists, k)
                | None => match admission None o with
                          | Some o' => (Done tt, store_object o' k)
                          | None => (Fail KInvalid, k)
                          end
                end).

Definition api_Update (o : object) : M kube kube_err () :=
  request (λ k, match k_objects k !! key_of o with
                | None => (Fail KNotFound, k)
                | Some current =>
                  if negb (version_of o =? 0) && negb (version_of o =? version_of current)
                  then (Fail KConflict, k) else
                  match admission (Some current) o with
                  | Some o' => (Done tt, store_object o' k)
                  | None => (Fail KInvalid, k)
                  end
                end).

Definition api_GetStack (key : string * string) : M kube kube_err OlricStack :=
  request (λ k, match k_stacks k !! key with
                | Some s => (Done s, k)
                | None => (Fail KNotFound, k)
                end).

(** [List] in a namespace with matching labels. *)
Definition api_ListPods (namespace : string) (labels : gmap string string) : M kube kube_err (list pod) :=
  request (λ k, (Done (filter (λ p, pd_Namespace p = namespace ∧ labels ⊆ pd_Labels p) (k_pods k)), k)).

Definition stack_key (s : OlricStack) : string * string := (stack_Namespace s, stack_Name s).

Definition with_status (v : Z) (st : OlricStackStatus) (s : OlricStack) : OlricStack :=
  mkOlricStack (stack_Name s) (stack_Namespace s) (stack_UID s) v (stack_Spec s) st.

(** [Status().Update]: only the status of the stored resource changes. *)
Definition api_UpdateStatus (s : OlricStack) : M kube kube_err () :=
  request (λ k, match k_stacks k !! stack_key s with
                | None => (Fail KNotFound, k)
                | Some current =>
                  if negb (stack_ResourceVersion s =? stack_ResourceVersion current)
                  then (Fail KConflict, k) else
                  let v := k_version k + 1 in
                  (Done tt, mkKube (k_objects k)
                     (<[stack_key s := with_status v (stack_Status s) current]> (k_stacks k))
                     (k_pods k) v (k_calls k))
                end).

(** ** applyOwned *)

(** What the server has assigned to a service stays. *)
Definition keep_addresses (current desired : ServiceSpec) : ServiceSpec :=
  mkServiceSpec (svc_Selector desired) (svc_Ports desired) (svc_ClusterIP current)
    (svc_ClusterIPs current) (svc_IPFamilies current) (svc_IPFamilyPolicy current).

Definition keep_selector (current desired : DeploymentSpec) : DeploymentSpec :=
  mkDeploymentSpec (dep_Replicas desired) (dep_MaxUnavailable desired) (dep_MaxSurge desired)
    (dep_Selector current) (dep_TemplateLabels desired) (dep_Template desired).

(** The type switch of the operator, and that of the watchdog. *)
Definition operator_preserve (current desired : object_spec) : object_spec :=
  match desired, current with
  | Service d, Service c => Service (keep_addresses c d)
  | _, _ => desired
  end.

Definition controller_preserve (current desired : object_spec) : object_spec :=
  match desired, current with
  | Service d, Service c => Service (keep_addresses c d)
  | Deployment d, Deployment c => Deployment (keep_selector c d)
  | _, _ => desired
  end.

Definition applyOwned (preserve : object_spec → object_spec → object_spec) (desired : object) :
    M kube kube_err () := λ k,
  match api_Get (key_of desired) k with
  | (Fail KNotFound, k) => api_Create desired k
  | (Fail err, k) => (Fail err, k)
  | (Panic, k) => (Panic, k)
  | (Done current, k) =>
    api_Update (mkObject (with_version (version_of current) (ob_Meta desired))
                  (preserve (ob_Spec current) (ob_Spec desired))) k
  end.

(** The loop over the resources, each with the stack as its controller. *)
Fixpoint apply_all (preserve : object_spec → object_spec → object_spec) (uid : string)
    (resources : list object) : M kube kube_err () :=
  match resources with
  | [] => mret tt
  | o :: rest => applyOwned preserve (set_meta (with_controller uid) o);; apply_all preserve uid rest
  end.

(** ** The operator *)

Definition operator_resources (stack : OlricStack) : list object :=
  [WatchdogService stack; WatchdogServiceAccount stack; WatchdogRoleBinding stack; WatchdogDeployment stack].

Definition status_of (stack : OlricStack) (pods : list pod) : OlricStackStatus :=
  mkStatus (i32 (Z.of_nat (length (filter (λ p, is_ready (pd_Conditions p) = true) pods))))
    (merge_sort string_le (filter (λ ip, ip ≠ "") (pd_IP <$> pods)))
    (ss_TopologyEpoch (stack_Status stack)).

Definition updateStatus (stack : OlricStack) : M kube kube_err () :=
  pods ← api_ListPods (stack_Namespace stack) (StackLabels (stack_Name stack) ComponentOlricNode);
  api_UpdateStatus (with_status (stack_ResourceVersion stack) (status_of stack pods) stack).

Definition operator_Reconcile (key : string * string) : M kube kube_err () := λ k,
  match api_GetStack key k with
  | (Fail KNotFound, k) => (Done tt, k)
  | (Fail err, k) => (Fail err, k)
  | (Panic, k) => (Panic, k)
  | (Done stack, k) =>
    (apply_all operator_preserve (stack_UID stack) (operator_resources stack);;
     updateStatus stack) k
  end.

(** ** The watchdog's controller *)

Record ControllerConfig := mkControllerConfig {
  cc_StackID : string; cc_Namespace : string; cc_ReconcileInterval : Z; cc_ErrorBackoff : Z }.

Definition Controller_withDefaults (c : ControllerConfig) : ControllerConfig :=
  let interval := if cc_ReconcileInterval c <=? 0 then 10 * 1000000000 else cc_ReconcileInterval c in
  mkControllerConfig (cc_StackID c)
    (if String.eqb (cc_Namespace c) "" then "default" else cc_Namespace c) interval
    (if cc_ErrorBackoff c <=? 0 then interval else cc_ErrorBackoff c).

Inductive controller_err := ErrStackIDIsRequired | ErrNilClient | ErrNilScheme.

Definition NewController (client scheme : bool) (c : ControllerConfig) :
    outcome controller_err ControllerConfig :=
  let c := Controller_withDefaults c in
  if String.eqb (cc_StackID c) "" then Fail ErrStackIDIsRequired else
  if negb client then Fail ErrNilClient else
  if negb scheme then Fail ErrNilScheme else Done c.

Definition controller_resources (stack : OlricStack) : list object :=
  [OlricService stack; OlricDeployment stack].

Definition observation_of (now : Z) (p : pod) : PodObservation :=
  mkPod (pd_Name p) (pd_IP p) (is_ready (pd_Conditions p)) (pd_Phase p) now.

(** What [observePods] hands to its observer, if there is one. *)
Definition observePods `{ObservationSort} (observer : bool) (now : Z) (c : ControllerConfig) :
    M kube kube_err (option (list PodObservation)) :=
  if negb observer then mret None else
  pods ← api_ListPods (cc_Namespace c) (StackLabels (cc_StackID c) ComponentOlricNode);
  mret (Some (sortObservations (observation_of now <$> pods))).

Definition controller_Reconcile `{ObservationSort} (observer : bool) (now : Z) (c : ControllerConfig) :
    M kube kube_err (option (list PodObservation)) :=
  stack ← api_GetStack (cc_Namespace c, cc_StackID c);
  apply_all controller_preserve (stack_UID stack) (controller_resources stack);;
  observePods observer now c.

(** [Run] over its turns: each is the time of a pass and whether the context is
    done in the wait after it.  The result is what was handed to the observer,
    in order, and [true] when the loop has returned. *)
Fixpoint controller_Run `{ObservationSort} (observer : bool) (c : ControllerConfig)
    (turns : list (Z * bool)) (k : kube) : list (list PodObservation) * bool * kube :=
  match turns with
  | [] => ([], false, k)
  | (now, cancelled) :: turns =>
    let '(r, k) := controller_Reconcile observer now c k in
    let seen := match r with Done (Some l) => [l] | _ => [] end in
    if (cancelled : bool) then (seen, true, k) else
    let '(rest, returned, k) := controller_Run observer c turns k in (seen ++ rest, returned, k)
  end.
End controllers.

(** ** Names *)

Lemma bytes_of_app a b : bytes_of_string (a +:+ b) = bytes_of_string a ++ bytes_of_string b.
Proof.
  unfold bytes_of_string, String.list_byte_of_string. rewrite <-map_app. f_equal.
  induction a as [|c a IH]; [done|]. change ((String c a) +:+ b) with (String c (a +:+ b)). cbn. by rewrite IH.
Qed.

Lemma append_suffix_inj a b suffix : a +:+ suffix = b +:+ suffix → a = b.
Proof.
  intros H. apply (f_equal bytes_of_string) in H. rewrite !bytes_of_app in H.
  apply app_inv_tail in H. rewrite <-(string_bytes a), <-(string_bytes b). by f_equal.
Qed.

Lemma watchdog_not_olric a b : a +:+ "-watchdog" ≠ b +:+ "-olric".
Proof.
  intros H. apply (f_equal (λ s, last (bytes_of_string s))) in H.
  rewrite !bytes_of_app, !last_app in H. by vm_compute in H.
Qed.

(** All objects of a stack. *)
Definition stack_resources (stack : OlricStack) : list object :=
  operator_resources stack ++ controller_resources stack.

Lemma resource_key stack o :
  o ∈ stack_resources stack →
  (key_of o).1.2 = stack_Namespace stack ∧
  (o ∈ operator_resources stack ∧ (key_of o).2 = stack_Name stack +:+ "-watchdog" ∨
   o ∈ controller_resources stack ∧ (key_of o).2 = stack_Name stack +:+ "-olric").
Proof.
  unfold stack_resources, operator_resources, controller_resources.
  rewrite elem_of_app, !elem_of_cons, !elem_of_nil.
  intros [[->|[->|[->|[->|[]]]]]|[->|[->|[]]]]; (split; [done|]);
    [left|left|left|left|right|right]; (split; [rewrite ?elem_of_cons; auto 6|done]).
Qed.

Lemma stack_keys_NoDup stack : NoDup (key_of <$> stack_resources stack).
Proof.
  unfold stack_resources, operator_resources, controller_resources. cbn.
  repeat constructor; rewrite ?elem_of_cons, ?elem_of_nil; unfold key_of, kind_of; cbn; try naive_solver.
  - intros Hin. repeat destruct Hin as [[=]|Hin]; try done. all: by eapply watchdog_not_olric.
  - intros Hin. repeat destruct Hin as [[=]|Hin]; try done. all: by eapply watchdog_not_olric.
Qed.

(** ** What the API server promises *)

Definition blank_addresses (s : ServiceSpec) : ServiceSpec :=
  mkServiceSpec (svc_Selector s) (svc_Ports s) "" [] [] None.

(** An object without what the server assigns. *)
Definition erase_spec (s : object_spec) : object_spec :=
  match s with Service s => Service (blank_addresses s) | s => s end.
Definition erase (o : object) : object :=
  mkObject (with_version 0 (ob_Meta o)) (erase_spec (ob_Spec o)).

(** A deployment selects the pods of its template. *)
Definition fits (o : object) : Prop :=
  match ob_Spec o with Deployment d => selects (dep_Selector d) (dep_TemplateLabels d) | _ => True end.

(** The fields the server lets nobody change. *)
Definition immutable_kept (current o : object_spec) : Prop :=
  match current, o with
  | Service c, Service s =>
      svc_ClusterIP s = svc_ClusterIP c ∧ svc_ClusterIPs s = svc_ClusterIPs c ∧
      svc_IPFamilies s = svc_IPFamilies c ∧ svc_IPFamilyPolicy s = svc_IPFamilyPolicy c
  | Deployment c, Deployment d => dep_Selector d = dep_Selector c
  | RoleBinding r _, RoleBinding r' _ => r' = r
  | _, _ => True
  end.

Class ApiLaws (admission : option object → object → option object) : Prop := {
  (** it stores what was sent, and assigns only versions and addresses *)
  admit_keeps current o o' : admission current o = Some o' → erase o' = erase o;
  (** the address of a service stays when an update repeats it *)
  admit_address c o o' s :
    admission (Some c) o = Some o' → ob_Spec o = Service s → svc_ClusterIP s ≠ "" →
    ∃ s', ob_Spec o' = Service s' ∧ svc_ClusterIP s' = svc_ClusterIP s;
  (** it accepts what is well formed and leaves the immutable fields alone *)
  admit_create o : fits o → is_Some (admission None o);
  admit_update c o : fits o → immutable_kept (ob_Spec c) (ob_Spec o) → is_Some (admission (Some c) o) }.

(** Objects are stored under their keys. *)
Definition keyed (k : kube) : Prop := ∀ key o, k_objects k !! key = Some o → key_of o = key.

(** What is there can be updated to what is desired. *)
Definition updatable (current desired : object) : Prop :=
  match ob_Spec current, ob_Spec desired with
  | Deployment c, Deployment d => dep_Selector c = dep_Selector d
  | RoleBinding r _, RoleBinding r' _ => r = r'
  | _, _ => True
  end.

Lemma key_of_erase o : key_of (erase o) = key_of o.
Proof. by destruct o as [m []]. Qed.

Lemma erase_key o o' : erase o = erase o' → key_of o = key_of o'.
Proof. intros H. by rewrite <-(key_of_erase o), <-(key_of_erase o'), H. Qed.

Lemma erase_version v o : erase (set_meta (with_version v) o) = erase o.
Proof. by destruct o as [[] []]. Qed.

(** A type switch that keeps what the server wants kept, and nothing else. *)
Definition preserving (preserve : object_spec → object_spec → object_spec) : Prop :=
  ∀ current desired, key_of current = key_of desired → updatable current desired →
  immutable_kept (ob_Spec current) (preserve (ob_Spec current) (ob_Spec desired)) ∧
  erase_spec (preserve (ob_Spec current) (ob_Spec desired)) = erase_spec (ob_Spec desired).

Lemma operator_preserving : preserving operator_preserve.
Proof. intros [m []] [m' []] [=] Hu; by cbn in *; subst. Qed.

Lemma controller_preserving : preserving controller_preserve.
Proof.
  intros [m []] [m' [ | | |[]]] [=] Hu; by cbn in *; subst.
Qed.

(** ** applyOwned *)

Definition as_desired (k : kube) (d : object) : Prop :=
  ∃ o, k_objects k !! key_of d = Some o ∧ erase o = erase d.

Section quiet.
Context (admission : option object → object → option object) `{!ApiLaws admission}.
Abbreviation quiet_apply := (applyOwned admission (λ _ k, k) (λ _, false)).

(** Without others, [applyOwned] stores what is desired at its key and changes
    nothing else. *)
Lemma apply_quiet preserve d k :
  preserving preserve → fits d → keyed k →
  (∀ c, k_objects k !! key_of d = Some c → updatable c d) →
  (∀ c, k_objects k !! key_of d = Some c → fits (mkObject (ob_Meta d) (preserve (ob_Spec c) (ob_Spec d)))) →
  ∃ o k', quiet_apply preserve d k = (Done tt, k') ∧ erase o = erase d ∧
    k_objects k' = <[key_of d := o]> (k_objects k) ∧ k_stacks k' = k_stacks k ∧ k_pods k' = k_pods k.
Proof.
  intros Hp Hf Hk Hu Hf'. unfold applyOwned, api_Get, request. cbv beta iota zeta. cbn [k_objects].
  destruct (k_objects k !! key_of d) as [c|] eqn:Hc.
  - destruct (Hp c d (Hk _ _ Hc) (Hu _ eq_refl)) as [Him Her].
    set (d' := mkObject (with_version (version_of c) (ob_Meta d)) (preserve (ob_Spec c) (ob_Spec d))).
    assert (erase d' = erase d) as He by (unfold erase, d'; cbn [ob_Spec ob_Meta]; by rewrite Her).
    destruct (admit_update c d' (Hf' _ eq_refl) Him) as [o' Ho].
    pose proof (admit_keeps _ _ _ Ho) as Ho'.
    exists (set_meta (with_version (k_version k + 1)) o').
    eexists. cbv beta iota zeta. fold d'. unfold api_Update, request. cbv beta iota zeta.
    cbn [k_objects]. rewrite (erase_key d' d He), Hc.
    change (version_of d') with (version_of c). rewrite Z.eqb_refl, andb_false_r, Ho.
    split; [reflexivity|]. cbn [k_objects store_object k_stacks k_pods k_version].
    rewrite (erase_key o' d) by congruence. rewrite erase_version. split_and!; [congruence|done..].
  - destruct (admit_create d Hf) as [o' Ho]. pose proof (admit_keeps _ _ _ Ho) as Ho'.
    exists (set_meta (with_version (k_version k + 1)) o').
    eexists. cbv beta iota zeta. unfold api_Create, request. cbv beta iota zeta. cbn [k_objects].
    rewrite Hc, Ho.
    split; [reflexivity|]. cbn [k_objects store_object k_stacks k_pods k_version].
    rewrite (erase_key o' d) by congruence. rewrite erase_version. by split_and!.
Qed.

(** What [apply_all] needs to find. *)
Definition ready_for (preserve : object_spec → object_spec → object_spec) (k : kube) (d : object) : Prop :=
  fits d ∧ ∀ c, k_objects k !! key_of d = Some c →
    updatable c d ∧ fits (mkObject (ob_Meta d) (preserve (ob_Spec c) (ob_Spec d))).

Lemma apply_all_quiet preserve uid l k :
  preserving preserve → keyed k → NoDup (key_of <$> l) →
  Forall (λ o, ready_for preserve k (set_meta (with_controller uid) o)) l →
  ∃ k', apply_all admission (λ _ k, k) (λ _, false) preserve uid l k = (Done tt, k') ∧ keyed k' ∧
    (∀ d, d ∈ l → as_desired k' (set_meta (with_controller uid) d)) ∧
    (∀ key, key ∉ key_of <$> l → k_objects k' !! key = k_objects k !! key) ∧
    k_stacks k' = k_stacks k ∧ k_pods k' = k_pods k.
Proof.
  intros Hp. revert k. induction l as [|d l IH]; intros k Hk Hnd Hr.
  { exists k. split_and!; try done. by intros d ?%elem_of_nil. }
  apply Forall_cons in Hr as [[Hf Hc] Hr]. cbn [fmap list_fmap] in Hnd. apply NoDup_cons in Hnd as [Hni Hnd].
  set (d' := set_meta (with_controller uid) d) in *. assert (key_of d' = key_of d) as Hkd by (by destruct d as [? []]).
  destruct (apply_quiet preserve d' k Hp Hf Hk) as (o&k1&Ha&He&Ho&Hs&Hpd);
    [intros; by apply Hc..|].
  assert (keyed k1) as Hk1.
  { intros key x. rewrite Ho. intros [[<- <-]|[_ ?]]%lookup_insert_Some; [by apply erase_key|by apply Hk]. }
  destruct (IH k1 Hk1 Hnd) as (k'&Hall&Hk'&Hdes&Hfr&Hs'&Hpd').
  { apply Forall_forall. intros x Hx. rewrite Forall_forall in Hr. destruct (Hr x Hx) as [Hfx Hcx].
    split; [done|]. intros c. rewrite Ho, lookup_insert_ne; [apply Hcx|].
    intros Heq. apply Hni. rewrite <-Hkd, Heq. replace (key_of (set_meta _ x)) with (key_of x) by (by destruct x as [? []]).
    by apply list_elem_of_fmap_2. }
  exists k'. cbn [apply_all]. fold d'. rewrite (bind_done _ _ _ _ _ Ha). split_and!; [done..| | |congruence|congruence].
  - intros x [->|Hx]%elem_of_cons; [|by apply Hdes]. exists o. split; [|done].
    fold d'. rewrite Hfr by (by rewrite Hkd). by rewrite Ho, lookup_insert_eq.
  - intros key Hkey. cbn [fmap list_fmap] in Hkey. apply not_elem_of_cons in Hkey as [Hne Hkey].
    rewrite Hfr by done. rewrite Ho, lookup_insert_ne by congruence. done.
Qed.
End quiet.

(** The builders' objects fit, and what is updatable to them stays fitting. *)
Lemma resources_ready preserve k stack l uid :
  preserve = operator_preserve ∨ preserve = controller_preserve →
  (∀ d, d ∈ l → d ∈ stack_resources stack) →
  (∀ d c, d ∈ l → k_objects k !! key_of d = Some c → updatable c d) →
  Forall (λ d, ready_for preserve k (set_meta (with_controller uid) d)) l.
Proof.
  intros Hp Hin Hu. apply Forall_forall. intros d Hd.
  assert (∀ d, d ∈ stack_resources stack → match ob_Spec d with
    | Deployment s => dep_TemplateLabels s = dep_Selector s | _ => True end) as Hlab.
  { intros x. unfold stack_resources, operator_resources, controller_resources.
    rewrite elem_of_app, !elem_of_cons, !elem_of_nil.
    by intros [[->|[->|[->|[->|[]]]]]|[->|[->|[]]]]. }
  specialize (Hlab d (Hin d Hd)). specialize (Hu d).
  destruct d as [m s]. unfold ready_for, fits, updatable, set_meta in *. cbn [ob_Spec ob_Meta] in *.
  change (key_of (mkObject (with_controller uid m) s)) with (key_of (mkObject m s)).
  split; [destruct s; try done; unfold selects; by rewrite Hlab|].
  intros c Hc. specialize (Hu c Hd Hc). split; [done|].
  destruct Hp as [-> | ->], s, (ob_Spec c); cbn; try done; unfold selects; rewrite Hlab; (done || by rewrite Hu).
Qed.

(** ** Theorems *)

(** The two controllers never fight.  No object of the operator for one
    stack has the key of an object of the watchdog for any stack, the objects
    of different stacks have different keys, and so do those of one stack. *)
Theorem controllers_never_fight s1 s2 :
  (∀ o1 o2, o1 ∈ operator_resources s1 → o2 ∈ controller_resources s2 → key_of o1 ≠ key_of o2) ∧
  (stack_key s1 ≠ stack_key s2 →
   ∀ o1 o2, o1 ∈ stack_resources s1 → o2 ∈ stack_resources s2 → key_of o1 ≠ key_of o2) ∧
  NoDup (key_of <$> stack_resources s1).
Proof.
  assert (∀ o, o ∈ operator_resources s1 → (key_of o).2 = stack_Name s1 +:+ "-watchdog") as Hop.
  { intros o. unfold operator_resources. rewrite !elem_of_cons, elem_of_nil.
    by intros [->|[->|[->|[->|[]]]]]. }
  assert (∀ o, o ∈ controller_resources s2 → (key_of o).2 = stack_Name s2 +:+ "-olric") as Hco.
  { intros o. unfold controller_resources. rewrite !elem_of_cons, elem_of_nil. by intros [->|[->|[]]]. }
  split_and!; [| |apply stack_keys_NoDup].
  - intros o1 o2 H1 H2 Heq. apply (f_equal snd) in Heq. rewrite (Hop _ H1), (Hco _ H2) in Heq.
    by eapply watchdog_not_olric.
  - intros Hne o1 o2 H1%resource_key H2%resource_key Heq. apply Hne. unfold stack_key.
    rewrite Heq in H1. destruct H1 as [Hn1 H1], H2 as [Hn2 H2]. rewrite <-Hn1, Hn2. f_equal.
    destruct H1 as [[_ H1]|[_ H1]], H2 as [[_ H2]|[_ H2]]; rewrite H2 in H1;
      [by eapply append_suffix_inj| | |by eapply append_suffix_inj].
    + by destruct (watchdog_not_olric (stack_Name s1) (stack_Name s2)).
    + by destruct (watchdog_not_olric (stack_Name s2) (stack_Name s1)).
Qed.



(** The state of the server when the [n]-th request arrives. *)
Definition arrived (others : nat → kube → kube) (k : kube) : kube :=
  let k' := others (k_calls k) k in
  mkKube (k_objects k') (k_stacks k') (k_pods k') (k_version k') (S (k_calls k)).


Lemma labels_select name1 name2 c1 c2 :
  selects (StackLabels name1 c1) (StackLabels name2 c2) ↔ name1 = name2 ∧ c1 = c2.
Proof.
  unfold selects. split; [|by intros [-> ->]]. intros Hsub.
  assert (∀ key v, StackLabels name1 c1 !! key = Some v → StackLabels name2 c2 !! key = Some v) as Hl
    by (intros; by eapply lookup_weaken).
  pose proof (Hl LabelStackID name1) as H1. pose proof (Hl LabelComponent c1) as H2.
  unfold StackLabels, LabelStackID, LabelComponent in *. simplify_map_eq.
  split; symmetry; [specialize (H1 eq_refl)|specialize (H2 eq_refl)]; congruence.
Qed.

Definition selector_of (o : object) : gmap string string :=
  match ob_Spec o with Service s => svc_Selector s | Deployment d => dep_Selector d | _ => ∅ end.
Definition template_labels_of (o : object) : gmap string string :=
  match ob_Spec o with Deployment d => dep_TemplateLabels d | _ => ∅ end.

(** A service reaches exactly its pods.  The watchdog's service and
    deployment of a stack select the pods of the watchdog deployment of the
    same stack and of no other, the data plane's those of its deployment, and
    neither selects pods of the other component. *)
Theorem services_select_their_pods s1 s2 :
  (∀ o, o = WatchdogService s1 ∨ o = WatchdogDeployment s1 →
    (selects (selector_of o) (template_labels_of (WatchdogDeployment s2)) ↔ stack_Name s1 = stack_Name s2) ∧
    ¬ selects (selector_of o) (template_labels_of (OlricDeployment s2))) ∧
  (∀ o, o = OlricService s1 ∨ o = OlricDeployment s1 →
    (selects (selector_of o) (template_labels_of (OlricDeployment s2)) ↔ stack_Name s1 = stack_Name s2) ∧
    ¬ selects (selector_of o) (template_labels_of (WatchdogDeployment s2))).
Proof.
  split; intros o [-> | ->]; unfold selector_of, template_labels_of, WatchdogService, WatchdogDeployment,
    OlricService, OlricDeployment, new_service_spec; cbn [ob_Spec svc_Selector dep_Selector dep_TemplateLabels];
    rewrite !labels_select; (split; [tauto|by intros [_ [=]]]).
Qed.

(** *** Witnesses *)

(** A server that gives every service an address. *)
Definition assign_address (s : object_spec) : object_spec :=
  match s with
  | Service s => if String.eqb (svc_ClusterIP s) ""
                 then Service (mkServiceSpec (svc_Selector s) (svc_Ports s) "10.96.0.7" ["10.96.0.7"]
                                 ["IPv4"] (Some "SingleStack"))
                 else Service s
  | s => s
  end.
Definition example_admit (current : option object) (o : object) : option object :=
  Some (mkObject (ob_Meta o) (assign_address (ob_Spec o))).

#[local] Instance example_laws : ApiLaws example_admit.
Proof.
  split; [| |done|done].
  - intros current [m s] o' [= <-]. unfold erase. cbn. f_equal. destruct s; try done. cbn. by dcase.
  - intros c [m s] o' x [= <-] Hs Hx. cbn in Hs |- *. subst s. cbn.
    rewrite (proj2 (String.eqb_neq _ _) Hx). by exists x.
Qed.

#[local] Instance string_le_total : Total string_le.
Proof.
  intros a b. unfold string_le, string_ltb. rewrite <- !not_true_iff_false, !string_ltb_lt.
  rewrite (String.compare_antisym a). destruct (String.compare _ _); cbn; auto.
Qed.

#[local] Instance string_le_trans : Transitive string_le.
Proof.
  intros a b c. unfold string_le, string_ltb. rewrite <- !not_true_iff_false, !string_ltb_lt.
  intros Hab Hbc Hca. destruct (String.compare b c) eqn:Hc.
  - apply String.compare_eq_iff in Hc. by rewrite <- Hc in Hca.
  - apply Hab. by eapply string_compare_trans.
  - apply Hbc. rewrite String.compare_antisym, Hc. done.
Qed.

Definition by_address (a b : PodObservation) : Prop := string_le (po_PodIP a) (po_PodIP b).
#[local] Instance by_address_dec a b : Decision (by_address a b).
Proof. unfold by_address. apply _. Defined.
#[local] Instance by_address_total : Total by_address.
Proof. intros a b. apply (string_le_total (po_PodIP a) (po_PodIP b)). Qed.
#[local] Instance by_address_trans : Transitive by_address.
Proof. intros a b c. apply string_le_trans. Qed.

#[local] Instance merge_observations : ObservationSort.
Proof.
  refine {| sortObservations := merge_sort by_address |}; [apply merge_sort_Permutation|].
  intros l. apply Sorted_StronglySorted, Sorted_merge_sort; apply _.
Defined.

Definition stack0 : OlricStack :=
  mkOlricStack "cache" "prod" "uid" 1
    (mkSpec None None "" "" "" (mkSecretKey "mysql" "dsn" None) (mkResources ∅ ∅)) (mkStatus 0 [] 0).
Definition pod0 : pod :=
  mkK8sPod "cache-olric-1" "prod" (StackLabels "cache" ComponentOlricNode) "10.0.0.1" "Running"
    [("Ready", "True")].
Definition kube0 : kube := mkKube ∅ {[ ("prod", "cache") := stack0 ]} [pod0] 1 0.

Lemma kube0_empty key : k_objects kube0 !! key = None.
Proof. apply lookup_empty. Qed.

Lemma kube0_keyed : keyed kube0.
Proof. intros key o Ho. by rewrite kube0_empty in Ho. Qed.

Lemma kube0_fresh (l : list object) d c : d ∈ l → k_objects kube0 !! key_of d = Some c → updatable c d.
Proof. intros _ Hc. by rewrite kube0_empty in Hc. Qed.




Lemma controllers_never_fight_witness :
  key_of (WatchdogDeployment stack0) ≠ key_of (OlricDeployment stack0).
Proof.
  apply (proj1 (controllers_never_fight stack0 stack0)); unfold operator_resources, controller_resources;
    rewrite !elem_of_cons; auto 6.
Defined.
