(* ===== verification/Operator.v ===== *)
(** * The operator process ([cmd/operator/main.go],
      [SetupWithManager] of [internal/operator/reconciler.go])

    The process builds a controller manager, registers the reconciler of
    [Controllers] and two health checks with it and runs it.  The manager is a
    library's; here it is what has been registered with it, and [answers] says
    which calls fail. *)

From S2P Require Import Prelude Json Strings Records Messages Cluster Workloads Controllers.

(** ** The process *)

(** The flags, after [flag.Parse]. *)
Record operator_flags := mkOperatorFlags {
  of_metricsAddr : string; of_probeAddr : string; of_leaderElect : bool }.

Definition operator_defaults : operator_flags := mkOperatorFlags ":8080" ":8082" false.

(** What the manager has been given: the API groups of its scheme, its
    addresses and leader election, the kinds its controller watches, its checks. *)
Record manager := mkManager {
  mg_scheme : list string;
  mg_metrics : string;
  mg_probe : string;
  mg_election : option string;
  mg_for : list string;
  mg_owns : list string;
  mg_healthz : list string;
  mg_readyz : list string }.

(** Which calls succeed; [an_scheme] is asked for each group. *)
Record answers := mkAnswers {
  an_scheme : string → bool;
  an_config : bool;
  an_manager : bool;
  an_complete : bool;
  an_healthz : bool;
  an_readyz : bool;
  an_start : bool }.

(** How the process ends: a panic, or an exit code, with the manager when it
    was started. *)
Inductive process_end := Panicked | Exited (code : Z) | Ran (mgr : manager) (code : Z).

(** The groups of [AddToScheme], in order. *)
Definition scheme_groups : list string := ["client-go"; "apps"; "core"; "rbac"; "olric"].

Definition SetupWithManager (ok : bool) (mgr : manager) : option manager :=
  if negb ok then None else
  Some (mkManager (mg_scheme mgr) (mg_metrics mgr) (mg_probe mgr) (mg_election mgr)
    ["OlricStack"] ["Deployment"; "RoleBinding"; "ServiceAccount"; "Service"] (mg_healthz mgr) (mg_readyz mgr)).

Definition operator_main (f : operator_flags) (a : answers) : process_end :=
  if negb (forallb (an_scheme a) scheme_groups) then Panicked else
  if negb (an_config a && an_manager a) then Exited 1 else
  let mgr := mkManager scheme_groups (of_metricsAddr f) (of_probeAddr f)
    (if of_leaderElect f then Some "olricstack.olric.io" else None) [] [] [] [] in
  match SetupWithManager (an_complete a) mgr with
  | None => Exited 1
  | Some mgr =>
    if negb (an_healthz a) then Exited 1 else
    if negb (an_readyz a) then Exited 1 else
    Ran (mkManager (mg_scheme mgr) (mg_metrics mgr) (mg_probe mgr) (mg_election mgr) (mg_for mgr) (mg_owns mgr)
           ("healthz" :: mg_healthz mgr) ("readyz" :: mg_readyz mgr))
        (if an_start a then 0 else 1)
  end.

(** ** Theorems *)

(** The API group of a kind. *)
Definition group_of (kind : string) : string :=
  if String.eqb kind "Deployment" then "apps"
  else if String.eqb kind "RoleBinding" then "rbac"
  else if String.eqb kind "OlricStack" then "olric"
  else "core".

(** The operator watches what it writes.  A process that runs its manager
    has registered the reconciler for the custom resource and for the kind of
    every object that [Reconcile] applies, so a change to one of them brings it
    back; it knows the API group of each kind it watches, and answers both health
    checks. *)
Theorem operator_watches_what_it_writes f a mgr code :
  operator_main f a = Ran mgr code →
  (∀ stack o, o ∈ operator_resources stack → kind_of o ∈ mg_owns mgr) ∧
  "OlricStack" ∈ mg_for mgr ∧
  (∀ kind, kind ∈ mg_for mgr ++ mg_owns mgr → group_of kind ∈ mg_scheme mgr) ∧
  mg_healthz mgr = ["healthz"] ∧ mg_readyz mgr = ["readyz"] ∧ (code = 0 ↔ an_start a = true).
Proof.
  unfold operator_main. destruct (negb (forallb _ _)); [done|]. destruct (negb (_ && _)); [done|].
  unfold SetupWithManager. destruct (an_complete a); [|done]. cbn [negb].
  destruct (negb (an_healthz a)); [done|]. destruct (negb (an_readyz a)); [done|].
  intros [= <- <-]. cbn [mg_owns mg_for mg_scheme mg_healthz mg_readyz].
  split_and!; [|set_solver| |done..|by destruct (an_start a)].
  - intros stack o Ho. unfold operator_resources in Ho.
    repeat (apply elem_of_cons in Ho as [->|Ho]; [vm_compute; set_solver|]). by apply elem_of_nil in Ho.
  - intros kind Hk. repeat (apply elem_of_cons in Hk as [->|Hk]; [vm_compute; set_solver|]). by apply elem_of_nil in Hk.
Qed.

Lemma operator_watches_what_it_writes_witness :
  ∃ mgr, operator_main operator_defaults (mkAnswers (λ _, true) true true true true true true) = Ran mgr 0 ∧
    "OlricStack" ∈ mg_for mgr ∧ kind_of (WatchdogService stack0) ∈ mg_owns mgr.
Proof.
  eexists. split; [reflexivity|].
  destruct (operator_watches_what_it_writes operator_defaults (mkAnswers (λ _, true) true true true true true true)
    _ 0 eq_refl) as (Hk&Hf&_).
  split; [exact Hf|]. apply (Hk stack0). by left.
Defined.
