(* ===== verification/Rendered.v ===== *)
(** * The configuration a stack is deployed with

    The environments [internal/workloads] renders for the three containers,
    read by the processes' own code ([cmd/watchdog], [cmd/olric-node],
    [cmd/olric-sidecar]): what the other files assume of timings, paths,
    capacities and replication holds for every deployed stack. *)

From S2P Require Import Prelude Json Strings Durations Records Messages Lease OplogRing Oplog Backend Sidecar SidecarMain Node Cluster EpochStore Topology Watchdog Workloads.

Section rendered.
(** What the image and the runtime set, and how the kubelet resolves
    references; the overriding variables are left unset. *)
Context (image : env) (field : string → string) (secret : SecretKeySelector → string).
Context (stack : OlricStack).

Definition overrides : list string :=
  ["WATCHDOG_EPOCH_HEALTH_INTERVAL"; "WATCHDOG_EPOCH_FAILURE_THRESHOLD"; "OLRIC_REPLICA_COUNT";
   "OLRIC_WRITE_QUORUM"; "OLRIC_READ_QUORUM"; "NODE_ID"; "WATCHDOG_LEASE_DURATION";
   "WATCHDOG_LEASE_RENEW_DEADLINE"; "WATCHDOG_LEASE_RETRY_PERIOD"].

Definition watchdog_getenv : env := container_env image field secret (watchdog_env stack).
Definition node_getenv : env := container_env image field secret (node_env stack).
Definition sidecar_getenv : env := container_env image field secret (sidecar_env stack).

(** A deployed watchdog accepts its timing, and its timing keeps healthy
    nodes in service: the window in which a degraded primary gives up is
    shorter than the lease, nodes send heartbeats more often than they would be
    suspected, suspicion comes before expiry, and leases are renewed before
    they run out.  It takes part in the election of its stack with a timing the
    elector accepts (a lease longer than the renewal deadline, and that longer
    than 1.2 retry periods), and a standby takes over from a dead primary before
    the leases of the nodes run out. *)
Theorem rendered_timing_is_live identity generation now :
  (∀ name, name ∈ overrides → image name = "") → stack_Name stack ≠ "" →
  let '(cfg, interval, threshold) := primary_config watchdog_getenv identity generation in
  validateWatchdogTiming cfg interval threshold = true ∧
  0 < sc_HeartbeatInterval (subscriber_config node_getenv now) < SuspectAfter cfg ∧
  SuspectAfter cfg < ExpireAfter cfg ∧ ReapInterval cfg < ExpireAfter cfg ∧
  BookwormInterval cfg < LeaseTTL cfg ∧
  ∃ app lc, watchdog_main watchdog_getenv true = Some (app, Some lc) ∧
    lc_Lock lc = stack_Name stack +:+ "-watchdog" ∧
    lc_RenewDeadline lc < lc_LeaseDuration lc ∧ 12 * lc_RetryPeriod lc < 10 * lc_RenewDeadline lc ∧
    10 * lc_LeaseDuration lc + 12 * lc_RetryPeriod lc < 10 * LeaseTTL cfg.
Proof.
  intros Hi Hname. unfold primary_config.
  assert (watchdog_getenv "WATCHDOG_EPOCH_HEALTH_INTERVAL" = "") as H1 by (apply Hi; set_solver).
  assert (watchdog_getenv "WATCHDOG_EPOCH_FAILURE_THRESHOLD" = "") as H2 by (apply Hi; set_solver).
  unfold envInt, envDuration at 6. rewrite H1, H2. split_and!; [vm_compute; done..|].
  assert (watchdog_getenv "WATCHDOG_LEASE_DURATION" = "") as H3 by (apply Hi; set_solver).
  assert (watchdog_getenv "WATCHDOG_LEASE_RENEW_DEADLINE" = "") as H4 by (apply Hi; set_solver).
  assert (watchdog_getenv "WATCHDOG_LEASE_RETRY_PERIOD" = "") as H5 by (apply Hi; set_solver).
  exists (loadAppConfig watchdog_getenv), (leader_config watchdog_getenv (loadAppConfig watchdog_getenv)).
  unfold watchdog_main, leader_config, envDuration. rewrite H3, H4, H5. cbn [app_stackID loadAppConfig].
  change (watchdog_getenv "STACK_ID") with (stack_Name stack).
  rewrite (proj2 (String.eqb_neq _ _) Hname). split_and!; done.
Qed.

(** The containers of a deployed stack agree.  The node subscribes, to the
    stack its watchdog serves and at the port it listens on; node and sidecar
    meet at the same ring and the same socket, inside the volume both mount;
    the ring's capacity divides [2^64]; and the database keeps one replica, so
    that a failed write is never left unlogged. *)
Theorem rendered_containers_agree now db control :
  (∀ name, name ∈ overrides → image name = "") →
  stack_Name stack ≠ "" → stack_Namespace stack ≠ "" → field "status.podIP" ≠ "" →
  subscription_enabled node_getenv = true ∧
  sc_StackID (subscriber_config node_getenv now) = app_stackID (loadAppConfig watchdog_getenv) ∧
  app_namespace (loadAppConfig watchdog_getenv) = stack_Namespace stack ∧
  app_addr (loadAppConfig watchdog_getenv) = ":8081" ∧
  node_getenv "WATCHDOG_SVC_NAME" =
    WatchdogName stack +:+ "." +:+ stack_Namespace stack +:+ ".svc.cluster.local:8081" ∧
  ring_path node_getenv = sidecar_ring_path sidecar_getenv ∧
  ring_path node_getenv = SharedMountPath +:+ "/oplog.ring" ∧
  socket_path node_getenv = sidecar_socket_path sidecar_getenv ∧
  (ring_capacity sidecar_getenv | 2 ^ 64) ∧ minCapacity ≤ ring_capacity sidecar_getenv ∧
  j_nodeID (joiner_of node_getenv db control) = sc_NodeID (subscriber_config node_getenv now) ∧
  oc_ReplicaCount (olric_config node_getenv) = 1 ∧ oc_WriteQuorum (olric_config node_getenv) = 1 ∧
  oc_ReadQuorum (olric_config node_getenv) = 1.
Proof.
  intros Hi Hn Hns Hip.
  assert (∀ name, name ∈ overrides → node_getenv name = "") as Ho.
  { intros name Hname. rewrite <-(Hi name Hname). unfold overrides in Hname.
    repeat (apply elem_of_cons in Hname as [->|Hname]; [reflexivity|]). by apply elem_of_nil in Hname. }
  assert (∀ name fallback, name ∈ overrides → envInt node_getenv name fallback = fallback) as Hint
    by (intros name fallback Hname; unfold envInt; by rewrite (Ho name Hname)).
  split_and!; try reflexivity.
  - unfold subscription_enabled. change (node_getenv "STACK_ID") with (stack_Name stack).
    change (node_getenv "POD_IP") with (field "status.podIP").
    rewrite (proj2 (String.eqb_neq _ _) Hn), (proj2 (String.eqb_neq _ _) Hip), orb_false_r.
    change (node_getenv "WATCHDOG_SVC_NAME") with (WatchdogName stack +:+ "." +:+ stack_Namespace stack +:+
      ".svc.cluster.local:" +:+ FormatInt WatchdogPort).
    unfold WatchdogName. by destruct (stack_Name stack).
  - unfold loadAppConfig, envString. change (watchdog_getenv "STACK_NAMESPACE") with (stack_Namespace stack).
    cbn [app_namespace]. by rewrite !(proj2 (String.eqb_neq _ _) Hns).
  - exists (2 ^ 40). reflexivity.
  - vm_compute. discriminate.
  - apply Hint. unfold overrides. set_solver.
  - apply Hint. unfold overrides. set_solver.
  - apply Hint. unfold overrides. set_solver.
Qed.
End rendered.

(** *** Witnesses *)

Definition example_stack : OlricStack :=
  mkOlricStack "cache" "prod" "uid" 1
    (mkSpec None None "" "" "" (mkSecretKey "mysql" "dsn" None) (mkResources ∅ ∅)) (mkStatus 0 [] 0).

Lemma rendered_timing_is_live_witness :
  let '(cfg, interval, threshold) :=
    primary_config (watchdog_getenv (λ _, "") (λ _, "10.0.0.1") (λ _, "dsn") example_stack) "w" 1 in
  validateWatchdogTiming cfg interval threshold = true ∧
  0 < sc_HeartbeatInterval (subscriber_config
        (node_getenv (λ _, "") (λ _, "10.0.0.1") (λ _, "dsn") example_stack) 0) < SuspectAfter cfg ∧
  SuspectAfter cfg < ExpireAfter cfg ∧ ReapInterval cfg < ExpireAfter cfg ∧
  BookwormInterval cfg < LeaseTTL cfg ∧
  ∃ app lc, watchdog_main (watchdog_getenv (λ _, "") (λ _, "10.0.0.1") (λ _, "dsn") example_stack) true
      = Some (app, Some lc) ∧ lc_Lock lc = stack_Name example_stack +:+ "-watchdog" ∧
    lc_RenewDeadline lc < lc_LeaseDuration lc ∧ 12 * lc_RetryPeriod lc < 10 * lc_RenewDeadline lc ∧
    10 * lc_LeaseDuration lc + 12 * lc_RetryPeriod lc < 10 * LeaseTTL cfg.
Proof.
  exact (rendered_timing_is_live (λ _, "") (λ _, "10.0.0.1") (λ _, "dsn") example_stack "w" 1 0
    (λ _ _, eq_refl) ltac:(discriminate)).
Defined.

Lemma rendered_containers_agree_witness :
  subscription_enabled (node_getenv (λ _, "") (λ _, "10.0.0.1") (λ _, "dsn") example_stack) = true.
Proof.
  exact (proj1 (rendered_containers_agree (λ _, "") (λ _, "10.0.0.1") (λ _, "dsn") example_stack 0 true true
    (λ _ _, eq_refl) ltac:(discriminate) ltac:(discriminate) ltac:(discriminate))).
Defined.
